(* ===== verification/_CoqProject ===== *)
-Q . S2P
Prelude.v
TypeLists.v
Labels.v
TypedAst.v
LabelCollect.v
LabelInference.v
InferenceSound.v
InferenceFlow.v
InferenceComplete.v
Tracking.v
Endorse.v
ParseAst.v
Flatten.v
FlattenLayer.v
FlattenRules.v
FlattenBounds.v
DesugarWhile.v
FlattenCorrect.v
Runtime.v
Clocks.v
Tracker.v
TestingStore.v
TestingStoreCorrect.v
TrackerSpec.v
TrackerCorrect.v
ClientTracker.v
ClientTrackerCorrect.v
SplitAst.v
PhaseApi.v
Split.v
Holders.v
RunPhase.v
RunPhaseCorrect.v
SplitSpec.v
SplitProj.v
SplitHist.v
SplitSim.v
SplitPhases.v
SplitStore.v
SplitCorrect.v
SplitExamples.v
Recollapse.v
RunFrames.v
RecollapseRuns.v
RecollapseStmt.v
RecollapseCorrect.v
BackEnd.v
BackEndExamples.v
Wire.v
RemoteSim.v
RemoteRun.v
RemoteInterp.v
RemoteCorrect.v
RemoteExamples.v
Typecheck.v
Source.v
Strict.v
FlattenMeaning.v
TypecheckSound.v
Compile.v
CompileExamples.v
Parse.v
ParseArena.v
AsValue.v
ParseTotal.v
ParseExamples.v
SqlDb.v
SqlStore.v
GSqlObject.v
SqlStoreCorrect.v
SqlCausal.v
GSqlCorrect.v
SqlReads.v
SqlExamples.v
RemoteObjects.v
RemoteObjectsCorrect.v
HandleBytes.v
HandleExamples.v
PonyQ.v
PonyQCorrect.v
