(* ===== verification/Prelude.v ===== *)
(** * MixT in Rocq

    A development about MixT, a language for transactions over stores of
    different consistency, embedded in C++.  A transaction is parsed, brought
    into A-normal form, type checked, given consistency labels, instrumented
    with tracking, and split into one phase per label, all by the C++ template
    engine; at run time a client runs the phases at the stores they belong to.
    The sources are under [src/transactions]; paths below are relative to it.

    ** How the program is modelled

    A compiler pass maps types to types, and compilation stops where no
    overload matches or a [static_assert] fails.  Trees are inductive types with
    the constructors of the source, a pass is a function into [outcome]
    (below), whose error says why compilation stops.  Passes whose recursion is
    not structural carry fuel; a theorem shows for each that a bound computed
    from the argument is enough and that the fuel-free equations of the
    overloads hold.  [auto] members of packs are lists; overload resolution is
    written out where the order of declaration matters (two-phase lookup in
    [operation_to_statement_f], partial specializations of label classes).

    Run-time classes are records, methods are computations of [Runtime.RT]: a
    state monad with exceptions, in which assertions are exceptions, so that
    theorems say that they hold; integers are [Z] with their bounds checked
    where the source computes.  Things other threads change (the received
    clock, a store that is polled) are functions of the access.

    ** Components

    - [Prelude]: outcomes, traversals, lemmas on concatenations, tactics and the
      hint database [mixt].
    - [TypeLists]: the interface of [mutils::typelist] and [typeset], which live
      in a submodule that is not in the repository: operations and the laws
      their names promise, with an implementation for the witnesses.
    - [Labels]: [mtl/top.hpp], [mtl/label_utilities.hpp], [mtl/pre_endorse.hpp],
      [pgsql/SQLLevels.hpp], [testing_store/mid.hpp]: labels, [flows_to], minima
      and packs.  User labels are a parameter ([UserLabels]); [LabelOrder D]
      says that the labels of a program, those in [D], are totally ordered.
    - [TypedAst]: [mtl/AST_typecheck.hpp], the labelled tree.
    - [LabelCollect]: [mtl/collect_proper_label.hpp],
      [mtl/contains_improper_labels.hpp], [mtl/contains_min_ofs.hpp].
    - [LabelInference], [InferenceSound], [InferenceFlow], [InferenceComplete]:
      [mtl/label_inference.hpp] and [mtl/replace_label.hpp]; the pass, its
      termination and the meaning of its solution, the information-flow
      judgement of its results, and completeness.
    - [Tracking]: [mtl/writes_remote.hpp] and [mtl/insert_tracking.hpp].
    - [Endorse]: [mtl/worklist.hpp] and [mtl/endorse_relabel.hpp].
    - [ParseAst], [Flatten], [FlattenLayer], [FlattenRules], [FlattenBounds],
      [DesugarWhile], [FlattenCorrect]: [mtl/AST_parse.hpp] and
      [mtl/flatten_expressions.hpp]; the passes, the overloads as a relation,
      bounds, and correctness.
    - [Runtime]: exceptions, state, 64-bit arithmetic, frames.
    - [Clocks]: [tracker/Ends.hpp], [tracker/Ends.cpp] and
      [tracker/ClockManager.cpp].
    - [Tracker], [TrackerSpec], [TrackerCorrect]: [tracker/Tracker.cpp] and the
      classes around it, against the interface [TrackableStore] of
      [DataStore.hpp] with its laws [TrackableStoreLaws]; the metadata map as
      abstract specification.
    - [TestingStore], [TestingStoreCorrect]: [testing_store/TestingStore.hpp],
      over the map [mutils::HeteroMap] as a parameter; it discharges
      [TrackableStoreLaws].
    - [ClientTracker], [ClientTrackerCorrect]: [tracker/ClientTracker.hpp], the
      exchange of [mtl/remote_interp.hpp] with [server/transaction_listener.hpp],
      the retries of [mtl/run_phase.hpp], and the system of one client and its
      servers as a step relation.

    - [SplitAst], [PhaseApi], [Split]: [mtl/AST_split.hpp],
      [mtl/name_while.hpp], the bindings of [mtl/environments.hpp] with
      [mtl/split_phase_utils.hpp] and [mtl/split_phase_impl_utils.hpp], and
      [mtl/split_phase.hpp] with [mtl/remove_unused.hpp], [mtl/remove_empties.hpp]
      and [mtl/without_names.hpp]: the tree and the interface of a phase, and the
      passes that cut a transaction into phases, one per label.
    - [Holders], [RunPhase], [RunPhaseCorrect]: the holders of
      [mtl/environments.hpp], the stores of [mtl/runnable_transaction.hpp], and
      [mtl/run_phase.hpp] with [mtl/interp.hpp]: statements and expressions on a
      store, commits, retries, and the phases in order.  Handles are the class
      [Handles]; what they do, the commits and the tracker are [Remote]; a phase
      keeps what these calls keep.
    - [SplitSpec] to [SplitExamples]: the correctness of splitting.  [SplitSpec]
      runs a transaction as one program ([exec]) and with the history of its
      variables ([run]); [SplitProj] is the projection of a transaction to a
      phase, [SplitHist] what histories keep, [SplitSim] the simulation of a
      phase, [SplitPhases] the phases and the names of a
      transaction, [SplitStore] its store, [SplitCorrect] the theorems.
    - [Recollapse] to [BackEndExamples]: the end of the compiler.  [Recollapse]
      is [mtl/recollapse.hpp], which puts the generated declarations of a phase
      back where they are read, and [mtl/relabel.hpp].  [RunFrames] says which
      variables running an expression or a statement reads and may change,
      [RecollapseRuns] relates the runs of a phase before and after, with
      the values of the declarations that are gone, [RecollapseStmt] follows
      the statements and [RecollapseCorrect] phases and transactions.
      [BackEnd] composes splitting, recollapsing and relabelling as
      [mtl/transaction.hpp] does after labels are inferred.
    - [Wire]: [mtl/environments_serialization.hpp]: what the holders and object
      maps of a store look like on a connection, and the readers of the other
      side, which fill the holders they are given as they read ([Filler]).  Codecs of single types come from a submodule that is not in the
      repository: the class [WireFormat], with their law [WireLaws].
    - [RemoteSim], [RemoteInterp]: a phase on two stores that agree on its names,
      first its statements, then attempts and commit.
    - [RemoteRun], [RemoteCorrect], [RemoteExamples]: [mtl/remote_interp.hpp], the
      phase runner of [server/transaction_listener.hpp], the dispatch of
      [server/StoreRelay.hpp] and the remote half of [mtl/interp.hpp], over the
      interface [Servers]; [in_place] is what a remote phase is meant to be.
    - [Typecheck], [TypecheckSound]: [mtl/typecheck_and_label_impl.hpp] with
      [mtl/typecheck_and_label_decl.hpp], [mtl/typecheck_handle_operations.hpp],
      the special operations of [mtl/builtins.hpp] and the partial
      specializations of [mtl/AST_typecheck.hpp] that a node must match; what
      C++ says of the classes of an application is the class [CppTypes].
    - [Source], [Strict]: the reference interpreter of the parsed tree, and the
      one that evaluates both operands of [&] and [|].
    - [FlattenMeaning]: what flattened transactions return.
    - [Compile], [CompileExamples]: [pre_transaction_str] of [mtl/transaction.hpp],
      which composes the passes, from a tree and from a text (in [ParseExamples]).
    - [Parse]: [mtl/new-parsing/parse.hpp] with the arena of
      [mtl/new-parsing/allocator.hpp], [as_type] of [mtl/new-parsing/ast.hpp] and
      [mtl/new-parsing/to-old-ast-parse.hpp].  The parser is a computation over an
      abstract [build], the way a node is allocated: the arena of the source, or
      trees.  The functions on C strings live in a submodule that is not in the
      repository: the class [CString], with [CStringLaws] on lengths.
    - [ParseArena] relates the two instances, [AsValue] is [as_value], which lays a
      type out in an arena again, [ParseTotal] termination, and [ParseExamples] has
      string functions with their laws and the texts of the repository's tests.
    - [SqlDb], [SqlStore], [GSqlObject]: the SQL store of [pgsql/].  [SqlDb] has the
      tables, the statements of [pgsql/SQLCommands.hpp] with their meaning, and the
      trigger of [postgres_stuff/causal-postgres-numbering-trigger.sql]; [SqlStore] a
      connection, its transaction ([pgsql/SQLTransaction.cpp],
      [pgsql/SQLConnection.cpp], [pgsql/SQLStore.cpp]) and the commands; [GSqlObject]
      objects with their buffers and versions ([pgsql/GSQLObject.cpp],
      [pgsql/SQLStore.hpp]).  The server and libpqxx are the class [Server], the
      scripts that create the tables, which are not in the repository, [Schema], the
      macros of the build [SqlBuild].
    - [SqlStoreCorrect]: what registered statements are, and atomicity; [SqlCausal]
      what statements do to rows; [GSqlCorrect] loading and buffers; [SqlReads] reading
      what was written, and objects as bytes; [SqlExamples] a server on which
      the theorems apply, and runs that go wrong.
    - [RemoteObjects], [RemoteObjectsCorrect], [HandleBytes], [HandleExamples]: [Handle.hpp],
      [Operations.hpp], [RemoteObject.hpp], [UnmatchedRemoteObject.hpp] and
      [mtl/TransactionContext.hpp] over an SQL store; [HandleBytes] has handles as bytes.
    - [PonyQ], [PonyQCorrect]: [ponyq/ponyq.hpp], a queue of many producers and one
      consumer, with the [GeneralQueue] nodes of [ponyq/normalq.hpp].  The steps of the
      producers and the methods of the consumer are a step relation, [runs]; what a
      client sees of them is the abstract queue [fifo].

    Compilation runs parse, [flatten_expressions], typecheck, [infer_labels],
    [insert_tracking_begin], [do_pre_endorse], [split_computation], recollapse,
    relabel ([mtl/transaction.hpp], [compile]).

    ** What the theorems show

    - The compiler: for a transaction over local variables that the front end
      accepts and the back end is right about ([supported]: it is [splittable], its
      phases [inlinable], and no label pre-endorsed), the phases exist and, when
      commits succeed, return what the parsed transaction returns
      ([compile_correct]) when both operands of [&] and [|] have values, which
      flattening makes every program evaluate ([flatten_expressions_meaning],
      [short_circuit_lost]).  Names are those of a source ([source_names]).
    - The parser: it terminates ([parse_terminates]); 400 slots that refer to each
      other by index, [as_type] with its budget of 1000 and the conversion are
      the conversion of a tree built directly ([parsed_through_arena]), which fails
      only for operators and constants that [parse_phase] lacks ([parsed_converts]);
      the nested sequences become flat ones ([convert_sequence_flat]); [as_type]
      inverts [as_value] ([as_value_roundtrip]).  What the text means is decided by
      the string functions, so how operators bind is shown on texts.
    - Type checking: an accepted transaction over local variables, in which no name
      is declared twice and without operators on classes, does not go
      wrong and returns a value of the type of one of its returns
      ([typecheck_sound]); [CompileExamples] has a program whose declarations
      share a temporary label, and an assignment the check lets through although
      no specialization exists for it.
    - Splitting: running the phases of a transaction in order, each on a copy of
      the store that replaces it on commit, returns what the transaction returns
      as one program ([split_computation_correct]); between phases the store is
      in step with one execution of the whole ([phase_boundaries]); every name
      has one holder ([split_store_typed]); a phase is a projection
      ([split_phase_correct]).  The first three are about the transactions
      [splittable] describes: local, without a name declared twice, returning at
      the end, and with the control flow that keeps versions in step.
      [SplitExamples] has transactions outside this condition, accepted by the
      compiler, whose phases return something else.
    - Recollapsing: a phase runs as before, on a store without the generated
      declarations, unless it stops softly ([soft]: an error of an expression
      that has moved); the theorem is about the phases [inlinable] accepts,
      whose inlined expressions are pure and read only while their value still
      holds.  Relabelling changes nothing but labels.  [back_end_correct] is
      both after splitting, for transactions without endorsements: what the
      compiler runs returns what the transaction returns as one program.
    - Execution: an attempt at a phase changes the store only when it commits;
      labels that cannot abort are tried until they serialize, others once.
    - Remote phases: a store is read back as it was written
      ([store_values_roundtrip]); a transaction whose phases run at their servers
      on what they were sent ends like one whose phases run on the client's store
      ([remote_transaction_correct]), and like the local interpreter
      ([remote_runs_as_local]), for the transactions [distributable] describes:
      a remote phase writes only what it provides or what nobody reads later,
      uses objects of its own label and no list built-ins.  The reference run
      checks that values and positions fit the wire ([check_fits]).  Whatever a
      server answers, the client's store changes only where the phase provides and
      at the objects of its label, where an answer that cannot be read to its end
      leaves what had been read; when the server answers that the phase failed the
      store is as it was ([remote_interp_atomic]).
    - Label inference: an accepted program is flow safe (data, the program counter
      of bindings and assignments, and handles; the conditions an operation runs
      under are not constrained, [operation_under_any_condition]), inference succeeds exactly when the collected constraints
      have a solution, and its solution is the greatest one.  Termination of
      [replace_all_less_than] by the number of constraints, and of
      [collapse_constraints], which re-enters with longer lists, by the measure
      [collapse_measure].
    - Tracking: what [insert_tracking_begin] adds, that stripping it gives the
      program back, and exactly when it is added; endorsement: the work list is
      exactly what endorsed values depend on, exactly when it is not computed, and
      that no endorsement is left.
    - Flattening: results are in A-normal form and inline to the source, names
      that are generated do not hide each other, which programs are accepted
      (nesting and sequence numbers fit a [char], so at most 127), termination
      without fuel ([flatten_cost] bounds it), loops get flags of their own.
    - Labels and collection: the minima and orders of packs, and that the
      collected labels are exactly those of the program, sorted.
    - Clocks: least upper bounds, the order [prec] decides, and that the polling
      loop of [updateClock] ends and keeps its assertion.
    - Tracker: a phase refines the metadata map; every operation on every
      branch; metanames do not collide; how long a tombstone is waited for (63
      polls suffice, because the pause overflows then).
    - Client: over a session, tombstones are asked for once, and all of them
      when phases alternate; obligations are lost when they do not; and, since
      no phase commits its tracking context, a client and its servers never
      track at all.
    - Testing store: objects are returned as put, and every created object is
      the same one.
    - SQL store: a statement that is sent by its number is the one that was written
      ([prepared_statement_is_run]); transactions are atomic, also when the answer
      to a commit is lost ([transaction_is_atomic]), and then the client cannot tell
      which of the two has happened ([commit_in_doubt]); a strong store gives back what was put
      ([put_then_get]), and an object that trusts its version shows what the row
      holds ([load_agrees_with_fetch]) as long as the version belongs to the contents,
      which an aborted transaction breaks ([aborted_put_is_got]).  A causal store reads
      its own writes when they change the row of its master, and not otherwise
      ([causal_write_then_read], [causal_increment_then_read]); its clock can go back
      ([load_turns_clock_back]).  Buffers do not grow ([put_without_room]), and objects
      travel ([object_sent_is_read_back]).
    - Handles: a phase over an SQL store is one transaction of it, which is open from
      the first use of a handle to the end of the phase and no longer
      ([phase_is_transaction]), and a phase that stops shows nothing in the database
      unless the answer to its commit was lost; what is put through a handle is got through the others
      of its object ([handle_put_then_get]); handles travel, also through programs
      that do not know the class of the object ([handle_travels]), which can only name
      them and send them on ([unusable_handles]).
    - The queue: however producers and the consumer interleave, it behaves as a queue
      ([queue_refines]), whose destructor leaves no node behind once nobody pushes
      ([queue_destroyed]); what [blocking_pop] returns refers to a node that was
      deleted, unless it is the last ([blocking_pop_dangles]).

    ** Bounds and fuel

    The fuel of [RunPhase] bounds the iterations of a loop and the attempts at a
    phase.  The source bounds neither; loop counters are an [int], so more than
    [int_max] iterations overflow.  The parser has a fuel of one more than the
    length of its text, and every call is on a shorter one.  The theorems about splitting assume that the
    transaction ends within the fuel and conclude that its phases do.

    ** What is not modelled

    What other clients commit while a transaction is open takes effect when the next one
    begins, or makes a request fail.  An exception that leaves a destructor is not told
    from others.  Printing (so the text that identifies a phase is a parameter), sockets, the
    codecs of single types, libpqxx and the server behind it, the pool of connections,
    the relay processes, the benchmark harness and the examples.  The template
    parser that [mtl/new-parsing] replaced is left out.  The thread that receives
    clocks is a function that gives the value at each access.  [assert] is an
    exception although release builds compile it away: results about runs in
    which none is raised hold for both; the SQL store and its handles have builds of
    both kinds.  The objects behind handles belong to one SQL store, the tracker of its
    phases is a parameter there, and the deserialization managers a [get] is given
    make no difference to it.  The steps of the
    queue interleave, and the orders of its atomic accesses are not told apart; its
    [ReturningQueue] nodes are left out.  Operands are evaluated from left to
    right, an order C++ leaves open.  The values of a store are integers,
    booleans, tombstones, structures, handles and list built-ins.  The correctness
    of splitting does not cover remote bindings and operations, whose holders
    [RunPhase] models.  All the servers and the client of a transaction share one
    world [W], which the calls of [Remote] and [Servers] change; a server that
    dies is an assertion at its client.  The tracker of the client is passed from
    phase to phase, so what it is after a transaction that stopped is not told.

    ** Plan

    In this order: the labels of type checking satisfy what inference assumes; the remote part of the correctness
    of splitting; calls in inlined expressions. *)
From stdpp Require Export base list strings gmap fin_maps.
From Stdlib Require Export ZArith Lia Sorting.Sorted Strings.Ascii.

(** ** Outcomes

    The MixT compiler runs inside the C++ template engine: a pass either
    produces a type or stops compilation.  [outcome] is that alternative; the
    reason is kept so that the flow checks of the type system can be told
    apart from missing overloads. *)
Inductive cerror : Type :=
| NoOverload        (** no matching overload or partial specialization *)
| StaticAssert      (** a [static_assert] other than a flow check *)
| FlowViolation     (** [static_assert(check_flow_violation<...>())] *)
| NarrowingError    (** a template argument that does not fit its type *)
| OutOfFuel.        (** never produced: excluded by the termination theorems *)

Inductive outcome (A : Type) : Type :=
| Ok (a : A)
| Err (e : cerror).
Arguments Ok {A} a.
Arguments Err {A} e.

#[global] Instance outcome_ret : MRet outcome := @Ok.
#[global] Instance outcome_bind : MBind outcome :=
  fun A B f m => match m with Ok a => f a | Err e => Err e end.
#[global] Instance outcome_fmap : FMap outcome :=
  fun A B f m => match m with Ok a => Ok (f a) | Err e => Err e end.

#[global] Instance cerror_eq_dec : EqDecision cerror.
Proof. solve_decision. Defined.
#[global] Instance outcome_eq_dec `{EqDecision A} : EqDecision (outcome A).
Proof. solve_decision. Defined.

(** [static_assert(b)] *)
Definition assert_ok (e : cerror) (b : bool) : outcome unit :=
  if b then Ok tt else Err e.

Fixpoint traverse {A B} (f : A -> outcome B) (l : list A) : outcome (list B) :=
  match l with
  | [] => Ok []
  | x :: l => y ← f x; ys ← traverse f l; Ok (y :: ys)
  end.

(** ** Reasoning about outcomes *)

Lemma bind_Ok {A B} (m : outcome A) (f : A -> outcome B) b :
  (m ≫= f) = Ok b <-> exists a, m = Ok a /\ f a = Ok b.
Proof.
  destruct m as [a|e]; simpl.
  - split; [eauto | by intros (a' & [= ->] & ?)].
  - split; [done | by intros (a' & ? & ?)].
Qed.

Lemma fmap_Ok {A B} (f : A -> B) (m : outcome A) b :
  (f <$> m) = Ok b <-> exists a, m = Ok a /\ b = f a.
Proof.
  destruct m as [a|e]; simpl; unfold fmap, outcome_fmap.
  - split; [intros [= <-]; eauto | by intros (a' & [= ->] & ->)].
  - split; [done | by intros (a' & ? & ?)].
Qed.

Lemma assert_ok_Ok e b u : assert_ok e b = Ok u <-> b = true.
Proof. destruct u, b; simpl; split; congruence. Qed.

(** Take apart a hypothesis [... = Ok _] built from binds and asserts. *)
Ltac outcome_inv :=
  repeat match goal with
  | H : (_ ≫= _) = Ok _ |- _ =>
      apply bind_Ok in H; destruct H as (? & ? & H)
  | H : (_ <$> _) = Ok _ |- _ =>
      apply fmap_Ok in H; destruct H as (? & ? & H)
  | H : assert_ok _ _ = Ok _ |- _ => apply assert_ok_Ok in H
  | H : mret _ = Ok _ |- _ => unfold mret, outcome_ret in H
  | H : Ok _ = Ok _ |- _ => injection H; clear H; intros; subst
  | H : Err _ = Ok _ |- _ => discriminate H
  | u : unit |- _ => destruct u
  end.

Lemma traverse_Ok {A B} (f : A -> outcome B) l l' :
  traverse f l = Ok l' <-> Forall2 (fun x y => f x = Ok y) l l'.
Proof.
  revert l'. induction l as [|x l IH]; intros l'; simpl.
  - split; [intros [= <-]; constructor | by inversion 1].
  - split.
    + intros H. outcome_inv. constructor; [done | by apply IH].
    + inversion 1 as [|? y ? ys Hy Hys]; subst. rewrite Hy. simpl.
      apply IH in Hys. by rewrite Hys.
Qed.

Lemma traverse_length {A B} (f : A -> outcome B) l l' :
  traverse f l = Ok l' -> length l' = length l.
Proof. intros H%traverse_Ok. by apply Forall2_length in H. Qed.

Lemma traverse_elem {A B} (f : A -> outcome B) l l' x :
  traverse f l = Ok l' -> x ∈ l -> exists y, f x = Ok y /\ y ∈ l'.
Proof.
  intros H%traverse_Ok Hx. induction H as [|z y l l' Hz H IH]; [by apply elem_of_nil in Hx|].
  apply elem_of_cons in Hx as [->|Hx]; [exists y; split; [done|by left]|].
  destruct (IH Hx) as (y' & ? & ?). exists y'. split; [done|by right].
Qed.

Lemma elem_of_concat {A} (x : A) ls : x ∈ concat ls <-> exists l, l ∈ ls /\ x ∈ l.
Proof.
  rewrite list_elem_of_In, in_concat. setoid_rewrite list_elem_of_In. naive_solver.
Qed.

(** Membership in a list flattened from the members of another *)
Lemma elem_of_concat_fmap {A B} (f : A -> list B) (l : list A) x y :
  x ∈ l -> y ∈ f x -> y ∈ concat (f <$> l).
Proof. intros Hx Hy. apply elem_of_concat. exists (f x). split; [by apply list_elem_of_fmap_2|done]. Qed.

Lemma elem_of_concat_lookup {A B} (f : A -> list B) (l : list A) (i : nat) x y :
  l !! i = Some x -> y ∈ f x -> y ∈ concat (f <$> l).
Proof. intros Hx. apply elem_of_concat_fmap. by eapply list_elem_of_lookup_2. Qed.

Lemma elem_of_concat_fmap_inv {A B} (f : A -> list B) (l : list A) y :
  y ∈ concat (f <$> l) -> exists x, x ∈ l /\ y ∈ f x.
Proof. intros (ys & (x & -> & Hx)%list_elem_of_fmap & Hy)%elem_of_concat. eauto. Qed.

Create HintDb mixt.
#[export] Hint Resolve elem_of_concat_fmap elem_of_concat_lookup list_elem_of_lookup_2 : mixt.

Lemma traverse_const {A B} (f : A -> outcome B) (g : A -> B) l :
  Forall (fun x => f x = Ok (g x)) l -> traverse f l = Ok (g <$> l).
Proof. induction 1 as [|x l Hx _ IH]; simpl; [done|]. rewrite Hx. simpl. by rewrite IH. Qed.

(** Boolean tests over a parameter pack that may fail to compile: every test
    of a fold expression is instantiated, so one ill-formed test fails all. *)
Definition outcome_all {A} (f : A -> outcome bool) (l : list A) : outcome bool :=
  bs ← traverse f l; Ok (forallb (fun b => b) bs).
Definition outcome_any {A} (f : A -> outcome bool) (l : list A) : outcome bool :=
  bs ← traverse f l; Ok (existsb (fun b => b) bs).

Lemma outcome_all_Ok {A} (f : A -> outcome bool) (g : A -> bool) l :
  Forall (fun x => f x = Ok (g x)) l -> outcome_all f l = Ok (forallb g l).
Proof.
  intros H. unfold outcome_all. rewrite (traverse_const f g) by done. simpl. f_equal.
  clear H. induction l as [|x l IH]; simpl; [done|]. by f_equal.
Qed.

Lemma outcome_any_Ok {A} (f : A -> outcome bool) (g : A -> bool) l :
  Forall (fun x => f x = Ok (g x)) l -> outcome_any f l = Ok (existsb g l).
Proof.
  intros H. unfold outcome_any. rewrite (traverse_const f g) by done. simpl. f_equal.
  clear H. induction l as [|x l IH]; simpl; [done|]. by f_equal.
Qed.

(** Closed goals of a decidable proposition, by evaluation. *)
Ltac by_decide :=
  match goal with |- ?P => apply (bool_decide_unpack P); vm_compute; exact I end.

(** A function that has distinct values on a list *)
Lemma NoDup_fmap_elem {A B} (f : A -> B) (l : list A) x y :
  NoDup (f <$> l) -> x ∈ l -> y ∈ l -> f x = f y -> x = y.
Proof.
  intros Hn [i Hi]%list_elem_of_lookup [j Hj]%list_elem_of_lookup Hxy.
  assert (i = j) as ->; [|congruence].
  eapply (NoDup_lookup _ i j (f x)); [done|..]; rewrite list_lookup_fmap, ?Hi, ?Hj; simpl; congruence.
Qed.

Lemma NoDup_fmap_on {A B} (f : A -> B) (l : list A) : NoDup l ->
  (forall x y, x ∈ l -> y ∈ l -> f x = f y -> x = y) -> NoDup (f <$> l).
Proof.
  induction 1 as [|x l Hx Hl IH]; intros Hf; [constructor|]. rewrite fmap_cons. constructor.
  - intros (y & Hxy & Hy)%list_elem_of_fmap.
    assert (x = y) as -> by (apply Hf; [by left|by right|done]). done.
  - apply IH. intros y z Hy Hz. apply Hf; by right.
Qed.

Lemma Forall2_strengthen {A B} (P R : A -> B -> Prop) xs ys :
  Forall (fun x => forall y, R x y -> P x y) xs -> Forall2 R xs ys -> Forall2 P xs ys.
Proof. intros Hp Hr. induction Hr; inversion Hp; subst; constructor; auto. Qed.
