(* ===== verification/TypeLists.v ===== *)
(** * Type lists and type sets

    [mutils::typelist] and [mutils::typeset] live in the [mutils] submodule,
    which is not part of the repository.  Passes use them through this
    interface: the operations, and the laws their names promise.  A type set is
    represented by the list of its members in its (unspecified) order. *)
From S2P Require Import Prelude.

Class TypeLists : Type := {
  (** [typeset<>::add<t...>] *)
  typeset_of : forall {A} `{EqDecision A}, list A -> list A;
  (** [s1::combine(s2)] *)
  typeset_combine : forall {A} `{EqDecision A}, list A -> list A -> list A;
  (** [s1::subtract(s2)] *)
  typeset_subtract : forall {A} `{EqDecision A}, list A -> list A -> list A;
  (** [s1::intersect(s2)] *)
  typeset_intersect : forall {A} `{EqDecision A}, list A -> list A -> list A;
  (** [typelist<t...>::find_subtype<s>] and [find_match<m...>()]: a member with the
      property, [None] for [mismatch] *)
  typelist_find : forall {A}, (A -> bool) -> list A -> option A;
  (** [typelist<t...>::sort<lte>] and [typeset<t...>::as_sorted_list<lte>] *)
  typelist_sort : forall {A}, (A -> A -> outcome bool) -> list A -> outcome (list A);
}.

Class TypeListLaws `{TypeLists} : Prop := {
  elem_of_typeset_of {A} `{EqDecision A} (x : A) l :
    x ∈ typeset_of l <-> x ∈ l;
  NoDup_typeset_of {A} `{EqDecision A} (l : list A) : NoDup (typeset_of l);
  elem_of_typeset_combine {A} `{EqDecision A} (x : A) s t :
    x ∈ typeset_combine s t <-> x ∈ s \/ x ∈ t;
  NoDup_typeset_combine {A} `{EqDecision A} (s t : list A) :
    NoDup s -> NoDup t -> NoDup (typeset_combine s t);
  elem_of_typeset_subtract {A} `{EqDecision A} (x : A) s t :
    x ∈ typeset_subtract s t <-> x ∈ s /\ x ∉ t;
  elem_of_typeset_intersect {A} `{EqDecision A} (x : A) s t :
    x ∈ typeset_intersect s t <-> x ∈ s /\ x ∈ t;
  NoDup_typeset_subtract {A} `{EqDecision A} (s t : list A) :
    NoDup s -> NoDup (typeset_subtract s t);
  NoDup_typeset_intersect {A} `{EqDecision A} (s t : list A) :
    NoDup s -> NoDup (typeset_intersect s t);
  typelist_find_some {A} (p : A -> bool) l x :
    typelist_find p l = Some x -> x ∈ l /\ p x = true;
  typelist_find_none {A} (p : A -> bool) l :
    typelist_find p l = None -> forall x, x ∈ l -> p x = false;
  typelist_sort_perm {A} (lte : A -> A -> outcome bool) l l' :
    typelist_sort lte l = Ok l' -> l' ≡ₚ l;
  (** instantiating [lte] on every pair of elements succeeds *)
  typelist_sort_defined {A} (lte : A -> A -> outcome bool) l :
    (forall x y, x ∈ l -> y ∈ l -> exists b, lte x y = Ok b) ->
    exists l', typelist_sort lte l = Ok l';
  (** neighbours of the result are never strictly out of order *)
  typelist_sort_sorted {A} (lte : A -> A -> outcome bool) l l' :
    typelist_sort lte l = Ok l' ->
    Sorted (fun x y => lte x y = Ok true \/ lte y x = Ok false) l';
}.

Section derived.
Context `{TypeListLaws}.

(** [s1::combine(s2, s3, ...)] *)
Definition typeset_combine_all `{EqDecision A} (s : list A) (ts : list (list A)) : list A :=
  foldl typeset_combine s ts.

Lemma elem_of_typeset_combine_all `{EqDecision A} (x : A) s ts :
  x ∈ typeset_combine_all s ts <-> x ∈ s \/ exists t, t ∈ ts /\ x ∈ t.
Proof.
  revert s. induction ts as [|t ts IH]; intros s; simpl.
  - split; [auto|]. intros [?|(t & Ht & _)]; [done|]. by apply elem_of_nil in Ht.
  - unfold typeset_combine_all in *. rewrite IH, elem_of_typeset_combine.
    setoid_rewrite elem_of_cons. naive_solver.
Qed.

Lemma NoDup_typeset_combine_all `{EqDecision A} (s : list A) ts :
  NoDup s -> Forall NoDup ts -> NoDup (typeset_combine_all s ts).
Proof.
  intros Hs Hts. revert s Hs.
  induction Hts as [|t ts Ht Hts IH]; intros s Hs; [done|].
  apply IH. by apply NoDup_typeset_combine.
Qed.

Lemma typelist_sort_elem {A} (lte : A -> A -> outcome bool) l l' x :
  typelist_sort lte l = Ok l' -> x ∈ l' <-> x ∈ l.
Proof. intros Hs%typelist_sort_perm. by rewrite Hs. Qed.

Lemma typelist_sort_length {A} (lte : A -> A -> outcome bool) l l' :
  typelist_sort lte l = Ok l' -> length l' = length l.
Proof. intros Hs%typelist_sort_perm. by rewrite Hs. Qed.
End derived.

(** ** An implementation, for evaluating the passes on concrete programs *)
Module Reference.
Definition add {A} `{EqDecision A} (s : list A) (x : A) : list A :=
  if decide (x ∈ s) then s else s ++ [x].
Definition build {A} `{EqDecision A} (l : list A) : list A := foldl add [] l.
Definition combine {A} `{EqDecision A} (s t : list A) : list A := foldl add s t.
Definition subtract {A} `{EqDecision A} (s t : list A) : list A :=
  base.filter (fun x => x ∉ t) s.
Definition intersect {A} `{EqDecision A} (s t : list A) : list A :=
  base.filter (fun x => x ∈ t) s.

Fixpoint insert {A} (lte : A -> A -> outcome bool) (x : A) (l : list A) : outcome (list A) :=
  match l with
  | [] => Ok [x]
  | y :: l =>
      b ← lte x y;
      if (b : bool) then Ok (x :: y :: l) else l' ← insert lte x l; Ok (y :: l')
  end.
Fixpoint sort {A} (lte : A -> A -> outcome bool) (l : list A) : outcome (list A) :=
  match l with
  | [] => Ok []
  | x :: l => l' ← sort lte l; insert lte x l'
  end.

Lemma elem_of_foldl_add {A} `{EqDecision A} (x : A) s l :
  x ∈ foldl add s l <-> x ∈ s \/ x ∈ l.
Proof.
  revert s. induction l as [|y l IH]; intros s; simpl.
  - rewrite elem_of_nil. tauto.
  - rewrite IH. unfold add. rewrite elem_of_cons.
    case_decide; rewrite ?elem_of_app, ?list_elem_of_singleton; naive_solver.
Qed.
Lemma NoDup_foldl_add {A} `{EqDecision A} (s l : list A) : NoDup s -> NoDup (foldl add s l).
Proof.
  revert s. induction l as [|y l IH]; intros s Hs; simpl; [done|].
  apply IH. unfold add. case_decide; [done|].
  apply NoDup_app. split_and!; [done| |apply NoDup_singleton].
  intros z Hz Hzy. apply list_elem_of_singleton in Hzy. by subst.
Qed.
Lemma insert_perm {A} (lte : A -> A -> outcome bool) x l l' :
  insert lte x l = Ok l' -> l' ≡ₚ x :: l.
Proof.
  revert l'. induction l as [|y l IH]; intros l' Hi; cbn in Hi; [by outcome_inv|].
  outcome_inv. destruct x0; outcome_inv; [done|].
  rewrite (IH _ ltac:(eassumption)). apply perm_swap.
Qed.
Lemma sort_perm {A} (lte : A -> A -> outcome bool) l l' : sort lte l = Ok l' -> l' ≡ₚ l.
Proof.
  revert l'. induction l as [|x l IH]; intros l' Hs; cbn in Hs; [by outcome_inv|].
  outcome_inv. apply insert_perm in Hs. rewrite Hs. by apply Permutation_skip, IH.
Qed.
Lemma insert_defined {A} (lte : A -> A -> outcome bool) x l :
  (forall y, y ∈ l -> exists b, lte x y = Ok b) -> exists l', insert lte x l = Ok l'.
Proof.
  induction l as [|y l IH]; intros Hd; simpl; [eauto|].
  destruct (Hd y) as [[] ->]; [by left|simpl; eauto|simpl].
  destruct IH as [l' ->]; [|simpl; eauto]. intros z Hz. apply Hd. by right.
Qed.
Lemma insert_sorted {A} (lte : A -> A -> outcome bool) x l l' :
  let R := fun x y => lte x y = Ok true \/ lte y x = Ok false in
  Sorted R l -> insert lte x l = Ok l' ->
  Sorted R l' /\ forall y, lte x y = Ok false -> HdRel R y l -> HdRel R y l'.
Proof.
  intros R Hs. revert l'. induction Hs as [|y l Hs IH Hh]; intros l' Hi; cbn in Hi.
  { outcome_inv. split; [by repeat constructor|]. intros y Hy _. constructor. by right. }
  outcome_inv. destruct x0; outcome_inv.
  - split; [constructor; [by constructor|constructor; by left]|].
    intros z Hz _. constructor. by right.
  - destruct (IH _ ltac:(eassumption)) as [Hs' Hh']. split.
    + constructor; auto.
    + intros z Hz Hhd. inversion Hhd; subst. by constructor.
Qed.
Lemma sort_sorted {A} (lte : A -> A -> outcome bool) l l' :
  sort lte l = Ok l' -> Sorted (fun x y => lte x y = Ok true \/ lte y x = Ok false) l'.
Proof.
  revert l'. induction l as [|x l IH]; intros l' Hs; cbn in Hs; [outcome_inv; constructor|].
  outcome_inv. eapply (proj1 (insert_sorted lte x _ _ (IH _ ltac:(eassumption)) Hs)).
Qed.

#[global] Instance ops : TypeLists := {|
  typeset_of A _ := build; typeset_combine A _ := combine;
  typeset_subtract A _ := subtract; typeset_intersect A _ := intersect;
  typelist_find A := List.find (A := A); typelist_sort A := sort |}.

#[global] Instance laws : TypeListLaws.
Proof.
  split; simpl.
  - intros. unfold build. rewrite elem_of_foldl_add, elem_of_nil. tauto.
  - intros. apply NoDup_foldl_add. constructor.
  - intros. apply elem_of_foldl_add.
  - intros. by apply NoDup_foldl_add.
  - intros. unfold subtract. rewrite list_elem_of_filter. tauto.
  - intros. unfold intersect. rewrite list_elem_of_filter. tauto.
  - intros. by apply NoDup_filter.
  - intros. by apply NoDup_filter.
  - intros A p l x Hf%find_some. by rewrite list_elem_of_In.
  - intros A p l Hf x Hx%list_elem_of_In. by apply (find_none p l).
  - intros. by apply sort_perm with lte.
  - intros A lte l. induction l as [|x l IH]; intros Hd; simpl; [eauto|].
    destruct IH as [l' Hl']; [intros; apply Hd; by right|].
    rewrite Hl'. simpl. apply insert_defined. intros y Hy. apply Hd; [by left|].
    right. by rewrite <- (sort_perm lte l l').
  - intros. by eapply sort_sorted.
Qed.
End Reference.
