(* ===== verification/Labels.v ===== *)
(** * Consistency labels

    Models [mtl/top.hpp], [mtl/label_utilities.hpp], [mtl/pre_endorse.hpp], the
    Postgres labels of [pgsql/SQLLevels.hpp] and the test label of
    [testing_store/mid.hpp]. *)
From S2P Require Import Prelude.

(** ** Data

    [Label<mutils::String<...>>] (the predefined [top] and [bottom] and every
    user label), a label still to be inferred, an unresolved minimum, and the
    pre-endorsement copy of a label. *)
Inductive label : Type :=
| LName (s : string)
| LTemp (seqnum depth : Z)
| LMin (l r : label)
| LPre (l : label).

#[global] Instance label_eq_dec : EqDecision label.
Proof. solve_decision. Defined.

Definition top : label := LName "top".
Definition bottom : label := LName "bottom".

Definition is_temp_label (l : label) : bool :=
  match l with LTemp _ _ => true | _ => false end.

Definition is_min_of (l : label) : bool :=
  match l with LMin _ _ => true | _ => false end.

(** What a label class other than [top] and [bottom] declares. *)
Record label_traits : Type := {
  might_track : bool;
  tracks_against : label -> bool;
  run_remotely : bool;
  can_abort : bool;
}.

(** The labels an application defines: [Label<String<s>>::flows_to] and the
    type members.  A name without a specialization is an incomplete type. *)
Class UserLabels : Type := {
  user_flows_to : string -> label -> outcome bool;
  user_traits : string -> outcome label_traits;
}.

Definition no_tracking : label_traits :=
  {| might_track := false; tracks_against := fun _ => false;
     run_remotely := false; can_abort := false |}.

Section labels.
Context `{UserLabels}.

(** [Label<a>::flows_to(Label<b>)] *)
Fixpoint flows_to (a b : label) : outcome bool :=
  match a with
  | LName s =>
      if decide (s = "top") then Ok true
      else if decide (s = "bottom") then Ok (bool_decide (b = bottom))
      else user_flows_to s b
  | LPre l =>
      match b with
      | LPre t => flows_to l t
      | LName s => if decide (s = "top") then Ok false else Ok true
      | _ => Err NoOverload
      end
  | LTemp _ _ | LMin _ _ => Err NoOverload
  end.

Definition traits_of (a : label) : outcome label_traits :=
  match a with
  | LName s =>
      if decide (s = "top") then Ok no_tracking
      else if decide (s = "bottom") then Ok no_tracking
      else user_traits s
  | LPre _ => Ok no_tracking
  | LTemp _ _ | LMin _ _ => Err NoOverload
  end.

(** [l::is_label::value] is present exactly on complete labels. *)
Definition is_label (a : label) : outcome bool :=
  _ ← traits_of a; Ok true.

(** ** Minimum and maximum of a parameter pack *)

Fixpoint min_of (l1 : label) (rest : list label) : outcome label :=
  match rest with
  | [] => Ok l1
  | l3 :: l2 =>
      this_is_min ← outcome_all (fun x => flows_to x l1) (l3 :: l2);
      min_lies_in_rest ← outcome_any (fun x => flows_to l1 x) (l3 :: l2);
      _ ← assert_ok StaticAssert (this_is_min || min_lies_in_rest);
      r ← min_of l3 l2;
      Ok (if (min_lies_in_rest : bool) then r else l1)
  end.

Fixpoint max_of (l1 : label) (rest : list label) : outcome label :=
  match rest with
  | [] => Ok l1
  | l3 :: l2 =>
      this_is_max ← outcome_all (fun x => flows_to l1 x) (l3 :: l2);
      max_lies_in_rest ← outcome_any (fun x => flows_to x l1) (l3 :: l2);
      _ ← assert_ok StaticAssert (this_is_max || max_lies_in_rest);
      r ← max_of l3 l2;
      Ok (if (max_lies_in_rest : bool) then r else l1)
  end.

(** [split_phase::are_equivalent] *)
Definition are_equivalent (l1 l2 : label) : outcome bool :=
  m1 ← min_of l1 [l2];
  m2 ← min_of l2 [l1];
  Ok (bool_decide (l1 = m1) && bool_decide (l2 = m2)).

(** [split_phase::labels_in_descending_order] *)
Fixpoint labels_in_descending_order (ls : list label) : outcome bool :=
  match ls with
  | [] => Ok true
  | lbl1 :: l =>
      m ← max_of lbl1 l;
      b ← labels_in_descending_order l;
      Ok (bool_decide (lbl1 = m) && b)
  end.

(** [label_lte<L1, L2>] *)
Definition label_lte (l1 l2 : label) : outcome bool := flows_to l2 l1.

(** ** Unresolved minima

    [Label<label_min_of<l, r>>] has one specialization per combination of
    temporary, minimum and other operands; the one for two other operands has
    no [can_resolve] member. *)
Fixpoint can_resolve (m : label) : outcome bool :=
  match m with
  | LMin l r =>
      match l, r with
      | LMin _ _, LMin _ _ => b1 ← can_resolve l; b2 ← can_resolve r; Ok (b1 || b2)
      | LMin _ _, _ => can_resolve l
      | _, LMin _ _ => can_resolve r
      | LTemp _ _, _ | _, LTemp _ _ => Ok false
      | _, _ => Err NoOverload
      end
  | _ => Err NoOverload
  end.

(** [resolve()] of a minimum; [fuel] bounds the re-resolution of a minimum
    rebuilt from resolved parts. *)
Fixpoint resolve_fuel (fuel : nat) (m : label) : outcome label :=
  match fuel with
  | 0%nat => Err OutOfFuel
  | S fuel =>
      match m with
      | LMin l r =>
          match l, r with
          | LMin _ _, LMin _ _ =>
              choice ← can_resolve m;
              if (choice : bool)
              then l' ← resolve_fuel fuel l; r' ← resolve_fuel fuel r;
                   resolve_fuel fuel (LMin l' r')
              else Ok m
          | LMin _ _, _ =>
              choice ← can_resolve l;
              if (choice : bool)
              then l' ← resolve_fuel fuel l; resolve_fuel fuel (LMin l' r)
              else Ok m
          | _, LMin _ _ =>
              choice ← can_resolve r;
              if (choice : bool)
              then r' ← resolve_fuel fuel r; resolve_fuel fuel (LMin r' l)
              else Ok m
          | LTemp _ _, _ | _, LTemp _ _ => Ok m
          | _, _ => min_of l [r]
          end
      | _ => Err NoOverload
      end
  end.

Definition resolve (m : label) : outcome label := resolve_fuel 1 m.

(** [resolved_label_min<l, r>]; both branches of the [conditional_t] are
    instantiated. *)
Definition resolved_label_min (l r : label) : outcome label :=
  m ← resolve (LMin l r);
  Ok (if bool_decide (l = bottom) || bool_decide (r = bottom) then bottom else m).

Fixpoint resolved_label_min_vararg (l1 : label) (ls : list label) : outcome label :=
  match ls with
  | [] => Ok l1
  | l2 :: ls => m ← resolved_label_min l1 l2; resolved_label_min_vararg m ls
  end.

(** ** Pre-endorsement *)

Definition is_pre_endorsed (l : label) : bool :=
  match l with LPre _ => true | _ => false end.

(** [Label<PreEndorse_notop<l>>] *)
Definition PreEndorse_notop (l : label) : label :=
  if decide (l = top) then top
  else match l with LPre _ => l | _ => LPre l end.

End labels.

(** [label_min_vararg]: nested, not resolved. *)
Fixpoint label_min_vararg (l1 : label) (ls : list label) : label :=
  match ls with
  | [] => l1
  | l2 :: ls => label_min_vararg (LMin l1 l2) ls
  end.

(** ** What the compiler expects of the labels of a program

    The passes only compare labels of one program, collected in [D]; a program
    compiles when they form a total order under [flows_to] (top most trusted,
    bottom least). *)
Class LabelOrder `{UserLabels} (D : label -> Prop) : Prop := {
  flows_defined a b : D a -> D b -> exists r, flows_to a b = Ok r;
  flows_refl a : D a -> flows_to a a = Ok true;
  flows_trans a b c : D a -> D b -> D c ->
    flows_to a b = Ok true -> flows_to b c = Ok true -> flows_to a c = Ok true;
  flows_antisym a b : D a -> D b ->
    flows_to a b = Ok true -> flows_to b a = Ok true -> a = b;
  flows_total a b : D a -> D b -> flows_to a b = Ok true \/ flows_to b a = Ok true;
}.

Section order.
Context `{LabelOrder D}.
Implicit Types (a b : label).

Definition flowsb a b : bool := bool_decide (flows_to a b = Ok true).

Lemma flows_to_flowsb a b : D a -> D b -> flows_to a b = Ok (flowsb a b).
Proof.
  intros Ha Hb. destruct (flows_defined a b Ha Hb) as [[] Hr];
    unfold flowsb; rewrite Hr; done.
Qed.

Lemma flowsb_true a b : flowsb a b = true <-> flows_to a b = Ok true.
Proof. apply bool_decide_eq_true. Qed.

Lemma flows_all l1 ls : D l1 -> Forall D ls ->
  outcome_all (fun x => flows_to x l1) ls = Ok (forallb (fun x => flowsb x l1) ls).
Proof.
  intros Hl Hls. apply outcome_all_Ok.
  eapply Forall_impl; [done|]. intros x Hx. by apply flows_to_flowsb.
Qed.

Lemma flows_any l1 ls : D l1 -> Forall D ls ->
  outcome_any (fun x => flows_to l1 x) ls = Ok (existsb (fun x => flowsb l1 x) ls).
Proof.
  intros Hl Hls. apply outcome_any_Ok.
  eapply Forall_impl; [done|]. intros x Hx. by apply flows_to_flowsb.
Qed.

Lemma flows_all_up l1 ls : D l1 -> Forall D ls ->
  outcome_all (fun x => flows_to l1 x) ls = Ok (forallb (fun x => flowsb l1 x) ls).
Proof.
  intros Hl Hls. apply outcome_all_Ok.
  eapply Forall_impl; [done|]. intros x Hx. by apply flows_to_flowsb.
Qed.

Lemma flows_any_up l1 ls : D l1 -> Forall D ls ->
  outcome_any (fun x => flows_to x l1) ls = Ok (existsb (fun x => flowsb x l1) ls).
Proof.
  intros Hl Hls. apply outcome_any_Ok.
  eapply Forall_impl; [done|]. intros x Hx. by apply flows_to_flowsb.
Qed.

(** In a total order one of the two static assertions always holds. *)
Lemma min_assert_holds l1 ls : D l1 -> Forall D ls ->
  forallb (fun x => flowsb x l1) ls || existsb (fun x => flowsb l1 x) ls = true.
Proof.
  intros Hl Hls. induction Hls as [|x ls Hx Hls IH]; [done|]. simpl.
  destruct (flowsb x l1) eqn:Hxl; simpl.
  - destruct (flowsb l1 x); [by rewrite orb_true_r | done].
  - destruct (flows_total x l1) as [Hf|Hf]; [done|done|..];
      apply flowsb_true in Hf; [congruence|]. by rewrite Hf.
Qed.

Lemma max_assert_holds l1 ls : D l1 -> Forall D ls ->
  forallb (fun x => flowsb l1 x) ls || existsb (fun x => flowsb x l1) ls = true.
Proof.
  intros Hl Hls. induction Hls as [|x ls Hx Hls IH]; [done|]. simpl.
  destruct (flowsb l1 x) eqn:Hxl; simpl.
  - destruct (flowsb x l1); [by rewrite orb_true_r | done].
  - destruct (flows_total x l1) as [Hf|Hf]; [done|done|..];
      apply flowsb_true in Hf; [|congruence]. by rewrite Hf.
Qed.

Lemma min_of_step l1 l3 l2 : D l1 -> Forall D (l3 :: l2) ->
  min_of l1 (l3 :: l2) =
    (r ← min_of l3 l2;
     Ok (if existsb (fun x => flowsb l1 x) (l3 :: l2) then r else l1)).
Proof.
  intros Hl Hls. cbn [min_of]. rewrite flows_all, flows_any by done.
  cbn [mbind outcome_bind]. rewrite min_assert_holds by done. done.
Qed.

Lemma max_of_step l1 l3 l2 : D l1 -> Forall D (l3 :: l2) ->
  max_of l1 (l3 :: l2) =
    (r ← max_of l3 l2;
     Ok (if existsb (fun x => flowsb x l1) (l3 :: l2) then r else l1)).
Proof.
  intros Hl Hls. cbn [max_of]. rewrite flows_all_up, flows_any_up by done.
  cbn [mbind outcome_bind]. rewrite max_assert_holds by done. done.
Qed.

Definition is_least (m : label) (ls : list label) : Prop :=
  m ∈ ls /\ forall x, x ∈ ls -> flows_to x m = Ok true.
Definition is_greatest (m : label) (ls : list label) : Prop :=
  m ∈ ls /\ forall x, x ∈ ls -> flows_to m x = Ok true.

Lemma existsb_flows l1 ls :
  existsb (fun x => flowsb l1 x) ls = true <-> exists x, x ∈ ls /\ flows_to l1 x = Ok true.
Proof.
  rewrite existsb_exists. setoid_rewrite flowsb_true.
  by setoid_rewrite list_elem_of_In.
Qed.

Lemma existsb_flows_up l1 ls :
  existsb (fun x => flowsb x l1) ls = true <-> exists x, x ∈ ls /\ flows_to x l1 = Ok true.
Proof.
  rewrite existsb_exists. setoid_rewrite flowsb_true.
  by setoid_rewrite list_elem_of_In.
Qed.

Lemma min_of_spec l ls : D l -> Forall D ls ->
  exists m, min_of l ls = Ok m /\ is_least m (l :: ls).
Proof.
  revert l. induction ls as [|l3 l2 IH]; intros l Hl Hls.
  { exists l. split; [done|]. split; [rewrite ?elem_of_cons in *; tauto|].
    intros x Hx. apply list_elem_of_singleton in Hx as ->. by apply flows_refl. }
  rewrite min_of_step by done. inversion Hls as [|? ? Hl3 Hl2]; subst.
  destruct (IH l3 Hl3 Hl2) as (m & Hm & Hin & Hleast). rewrite Hm. simpl.
  assert (Hall : forall x, x ∈ l3 :: l2 -> D x).
  { intros x Hx. by eapply Forall_forall in Hls. }
  eexists. split; [done|].
  change (flowsb l l3 || existsb (λ x, flowsb l x) l2) with
    (existsb (λ x, flowsb l x) (l3 :: l2)).
  destruct (existsb _ (l3 :: l2)) eqn:Hex.
  - apply existsb_flows in Hex as (x & Hx & Hlx). split; [rewrite ?elem_of_cons in *; tauto|].
    intros y Hy. apply elem_of_cons in Hy as [->|Hy]; [|by apply Hleast].
    apply (flows_trans l x m); auto.
  - split; [rewrite ?elem_of_cons in *; tauto|]. intros y Hy. apply elem_of_cons in Hy as [->|Hy].
    { by apply flows_refl. }
    destruct (flows_total l y) as [Hf|Hf]; [by auto..| |done].
    assert (existsb (λ x, flowsb l x) (l3 :: l2) = true) by
      (apply existsb_flows; eauto). congruence.
Qed.

Lemma max_of_spec l ls : D l -> Forall D ls ->
  exists m, max_of l ls = Ok m /\ is_greatest m (l :: ls).
Proof.
  revert l. induction ls as [|l3 l2 IH]; intros l Hl Hls.
  { exists l. split; [done|]. split; [rewrite ?elem_of_cons in *; tauto|].
    intros x Hx. apply list_elem_of_singleton in Hx as ->. by apply flows_refl. }
  rewrite max_of_step by done. inversion Hls as [|? ? Hl3 Hl2]; subst.
  destruct (IH l3 Hl3 Hl2) as (m & Hm & Hin & Hgreat). rewrite Hm. simpl.
  assert (Hall : forall x, x ∈ l3 :: l2 -> D x).
  { intros x Hx. by eapply Forall_forall in Hls. }
  eexists. split; [done|].
  change (flowsb l3 l || existsb (λ x, flowsb x l) l2) with
    (existsb (λ x, flowsb x l) (l3 :: l2)).
  destruct (existsb _ (l3 :: l2)) eqn:Hex.
  - apply existsb_flows_up in Hex as (x & Hx & Hlx). split; [rewrite ?elem_of_cons in *; tauto|].
    intros y Hy. apply elem_of_cons in Hy as [->|Hy]; [|by apply Hgreat].
    apply (flows_trans m x l); auto.
  - split; [rewrite ?elem_of_cons in *; tauto|]. intros y Hy. apply elem_of_cons in Hy as [->|Hy].
    { by apply flows_refl. }
    destruct (flows_total l y) as [Hf|Hf]; [by auto..|done|].
    assert (existsb (λ x, flowsb x l) (l3 :: l2) = true) by
      (apply existsb_flows_up; eauto). congruence.
Qed.

Lemma is_least_unique ls m m' : Forall D ls ->
  is_least m ls -> is_least m' ls -> m = m'.
Proof.
  rewrite Forall_forall. intros HD [Hin H1] [Hin' H2].
  apply flows_antisym; auto.
Qed.
Lemma is_greatest_unique ls m m' : Forall D ls ->
  is_greatest m ls -> is_greatest m' ls -> m = m'.
Proof.
  rewrite Forall_forall. intros HD [Hin H1] [Hin' H2].
  apply flows_antisym; auto.
Qed.

End order.

Section resolution.
Context `{UserLabels}.

(** No specialization ever answers [true]: the two base cases are [false] or
    have no member at all. *)
Lemma can_resolve_never m b : can_resolve m = Ok b -> b = false.
Proof.
  revert b. induction m as [| | l IHl r IHr |]; intros b Hb; cbn in Hb; try done.
  destruct l, r; try congruence; try (by apply IHl in Hb); try (by apply IHr in Hb).
  outcome_inv. by rewrite (IHl _ ltac:(done)), (IHr _ ltac:(done)).
Qed.

Definition concrete (l : label) : bool :=
  match l with LName _ | LPre _ => true | _ => false end.

Lemma resolve_concrete n l r : concrete l = true -> concrete r = true ->
  resolve_fuel (S n) (LMin l r) = min_of l [r].
Proof. by destruct l, r. Qed.

Lemma resolve_rest n l r : concrete l && concrete r = false ->
  resolve_fuel (S n) (LMin l r) = (_ ← can_resolve (LMin l r); Ok (LMin l r)).
Proof.
  intros Hc. set (m := LMin l r).
  assert (Hdead : forall {A} c (x y : outcome A), can_resolve m = Ok c ->
            (if c then x else y) = y).
  { intros A c x y Hb. by rewrite (can_resolve_never _ _ Hb). }
  assert (Hgo : forall (x : outcome label),
    (choice ← can_resolve m; if (choice : bool) then x else Ok m)
    = (_ ← can_resolve m; Ok m)).
  { intros x. destruct (can_resolve m) as [b|e] eqn:Hb; [|done]. simpl.
    by rewrite (can_resolve_never _ _ Hb). }
  subst m. destruct l, r; try done; try apply Hgo.
Qed.
End resolution.

Section meet.
Context `{LabelOrder D}.

(** Labels a program names; temporaries and minima never take part. *)
Context (Dc : forall l, D l -> concrete l = true).

Lemma are_equivalent_eq a b : D a -> D b ->
  are_equivalent a b = Ok (bool_decide (a = b)).
Proof using All.
  intros Ha Hb. unfold are_equivalent.
  destruct (min_of_spec a [b]) as (m & Hm & Hleast); [done|by repeat constructor|].
  destruct (min_of_spec b [a]) as (m' & Hm' & Hleast'); [done|by repeat constructor|].
  rewrite Hm, Hm'. simpl. f_equal.
  assert (m = m') as <-.
  { eapply is_least_unique; [|done|]; [by repeat constructor|].
    destruct Hleast' as [Hin' Hle']. split.
    - rewrite !elem_of_cons in *. naive_solver.
    - intros x Hx. apply Hle'. rewrite !elem_of_cons in *. naive_solver. }
  destruct Hleast as [Hin _]. rewrite !elem_of_cons, elem_of_nil in Hin.
  do 3 case_bool_decide; naive_solver.
Qed.

(** [resolved_label_min] computes the meet of the order. *)
Definition is_glb (m a b : label) : Prop :=
  (m = a \/ m = b) /\ flows_to a m = Ok true /\ flows_to b m = Ok true.

Lemma resolved_label_min_spec a b : D bottom ->
  (forall x, D x -> flows_to x bottom = Ok true) -> D a -> D b ->
  exists m, resolved_label_min a b = Ok m /\ is_glb m a b.
Proof using All.
  intros Hbot Hlow Ha Hb. unfold resolved_label_min, resolve.
  rewrite resolve_concrete by auto.
  destruct (min_of_spec a [b]) as (m & -> & Hin & Hle); [done|by repeat constructor|].
  simpl. eexists. split; [done|].
  rewrite !elem_of_cons, elem_of_nil in Hin.
  assert (flows_to a m = Ok true) by (apply Hle; rewrite elem_of_cons; tauto).
  assert (flows_to b m = Ok true) by (apply Hle; rewrite !elem_of_cons; tauto).
  do 2 case_bool_decide; simpl; subst; split_and!; auto; tauto.
Qed.

Lemma is_glb_unique a b m m' : D a -> D b -> is_glb m a b -> is_glb m' a b -> m = m'.
Proof using Type*.
  intros Ha Hb (Hm & Hma & Hmb) (Hm' & Hma' & Hmb').
  apply flows_antisym; destruct Hm, Hm'; subst; auto.
Qed.

Lemma is_glb_comm a b m : is_glb m a b <-> is_glb m b a.
Proof using Type. unfold is_glb. tauto. Qed.

Lemma resolved_label_min_comm a b : D bottom ->
  (forall x, D x -> flows_to x bottom = Ok true) -> D a -> D b ->
  resolved_label_min a b = resolved_label_min b a.
Proof using All.
  intros Hbot Hlow Ha Hb.
  destruct (resolved_label_min_spec a b) as (m & -> & Hm); [done..|].
  destruct (resolved_label_min_spec b a) as (m' & -> & Hm'); [done..|].
  f_equal. apply is_glb_comm in Hm'. by apply (is_glb_unique a b).
Qed.

End meet.

(** ** Checking the order of a finite set of labels *)

Section check.
Context `{UserLabels}.

Definition ok_true (o : outcome bool) : bool := bool_decide (o = Ok true).
Definition ok_some (o : outcome bool) : bool := match o with Ok _ => true | _ => false end.

Definition check_order (ls : list label) : bool :=
  forallb (fun a => ok_true (flows_to a a) &&
    forallb (fun b =>
      ok_some (flows_to a b) &&
      (ok_true (flows_to a b) || ok_true (flows_to b a)) &&
      (negb (ok_true (flows_to a b) && ok_true (flows_to b a)) || bool_decide (a = b)) &&
      forallb (fun c =>
        negb (ok_true (flows_to a b) && ok_true (flows_to b c)) || ok_true (flows_to a c)) ls)
    ls) ls.

Lemma forallb_elem {A} (f : A -> bool) l :
  forallb f l = true <-> forall x, x ∈ l -> f x = true.
Proof. rewrite forallb_forall. by setoid_rewrite list_elem_of_In. Qed.

Lemma check_order_sound ls : check_order ls = true -> LabelOrder (fun l => l ∈ ls).
Proof.
  intros Hc. unfold check_order in Hc. rewrite forallb_elem in Hc.
  assert (Hok : forall o, ok_true o = true <-> o = Ok true)
    by (intros; apply bool_decide_eq_true).
  assert (Hab : forall a b, a ∈ ls -> b ∈ ls ->
    ok_some (flows_to a b) = true /\
    (flows_to a b = Ok true \/ flows_to b a = Ok true) /\
    (flows_to a b = Ok true -> flows_to b a = Ok true -> a = b) /\
    (forall c, c ∈ ls -> flows_to a b = Ok true -> flows_to b c = Ok true ->
      flows_to a c = Ok true)).
  { intros a b Ha Hb. specialize (Hc a Ha). apply andb_true_iff in Hc as [_ Hc].
    rewrite forallb_elem in Hc. specialize (Hc b Hb).
    rewrite !andb_true_iff, forallb_elem in Hc. destruct Hc as (((Hd & Ht) & Hs) & Htr).
    rewrite orb_true_iff, !Hok in Ht. split_and!; [done|done|..].
    - intros H1 H2. rewrite H1, H2 in Hs. by apply bool_decide_eq_true in Hs.
    - intros c Hcc H1 H2. specialize (Htr c Hcc). rewrite H1, H2 in Htr. by apply Hok. }
  split.
  - intros a b Ha Hb. destruct (Hab a b Ha Hb) as [Hd _].
    destruct (flows_to a b); [eauto|done].
  - intros a Ha. specialize (Hc a Ha). apply andb_true_iff in Hc as [Hc _]. by apply Hok.
  - intros a b c Ha Hb Hcc. by apply (Hab a b).
  - intros a b Ha Hb. by apply (Hab a b).
  - intros a b Ha Hb. by apply (Hab a b).
Qed.
End check.

(** ** The labels defined in the repository *)

Definition strong : label := LName "strong".
Definition causal : label := LName "causal".
Definition mid : label := LName "mid".

(** [Label<pgsql::causal>::flows_to] *)
Definition causal_flows_to (b : label) : outcome bool :=
  match b with
  | LPre _ => Ok false
  | LName s =>
      if decide (s = "bottom") then Ok true
      else if decide (s = "top") then Ok false
      else if decide (s = "strong") then Ok false
      else if decide (s = "causal") then Ok true
      else Err NoOverload
  | _ => Err NoOverload
  end.

Definition causal_traits : label_traits :=
  {| might_track := true; tracks_against := fun t => bool_decide (t = strong);
     run_remotely := true; can_abort := false |}.

(** [Label<pgsql::strong>::flows_to] *)
Definition strong_flows_to (b : label) : outcome bool :=
  match b with
  | LPre _ => Ok false
  | LName s =>
      if decide (s = "bottom") then Ok true
      else if decide (s = "top") then Ok false
      else if decide (s = "causal") then Ok true
      else if decide (s = "strong") then Ok true
      else Err NoOverload
  | _ => Err NoOverload
  end.

Definition strong_traits : label_traits :=
  {| might_track := false; tracks_against := fun _ => false;
     run_remotely := true; can_abort := true |}.

(** [Label<mid>::flows_to] of the testing store *)
Definition mid_flows_to (b : label) : outcome bool :=
  match b with
  | LPre _ => Ok false
  | LName s =>
      if decide (s = "top") then Ok false
      else if decide (s = "bottom") then Ok true
      else if decide (s = "mid") then Ok true
      else Err NoOverload
  | _ => Err NoOverload
  end.

#[global] Instance repo_labels : UserLabels := {|
  user_flows_to s b :=
    if decide (s = "strong") then strong_flows_to b
    else if decide (s = "causal") then causal_flows_to b
    else if decide (s = "mid") then mid_flows_to b
    else Err NoOverload;
  user_traits s :=
    if decide (s = "strong") then Ok strong_traits
    else if decide (s = "causal") then Ok causal_traits
    else if decide (s = "mid") then Ok no_tracking
    else Err NoOverload |}.

Definition sql_labels : list label :=
  [top; LPre strong; LPre causal; LPre bottom; strong; causal; bottom].
Definition testing_labels : list label := [top; LPre mid; LPre bottom; mid; bottom].

#[global] Instance sql_order : LabelOrder (fun l => l ∈ sql_labels).
Proof. apply check_order_sound. vm_compute. reflexivity. Qed.

#[global] Instance testing_order : LabelOrder (fun l => l ∈ testing_labels).
Proof. apply check_order_sound. vm_compute. reflexivity. Qed.

Lemma sql_concrete l : l ∈ sql_labels -> concrete l = true.
Proof. unfold sql_labels. rewrite !elem_of_cons, elem_of_nil. naive_solver. Qed.

(** ** Properties *)

Section properties.
Context `{LabelOrder D}.

(** [labels::min_of] and [labels::max_of] are defined on every pack of
  labels of a totally ordered program and return the least and the greatest
  member of the pack (the [static_assert]s never fire). *)
Theorem min_max_of_correct l ls : D l -> Forall D ls ->
  exists m M, min_of l ls = Ok m /\ max_of l ls = Ok M /\
    is_least m (l :: ls) /\ is_greatest M (l :: ls).
Proof using Type*.
  intros Hl Hls. destruct (min_of_spec l ls Hl Hls) as (m & ? & ?).
  destruct (max_of_spec l ls Hl Hls) as (M & ? & ?). by exists m, M.
Qed.

(** [labels_in_descending_order], the static assertion under every split,
  is defined on the labels of a totally ordered program and holds exactly
  when the list is sorted from the most to the least trusted label. *)
Theorem labels_in_descending_order_correct ls : Forall D ls ->
  exists b, labels_in_descending_order ls = Ok b /\
    (b = true <-> StronglySorted (fun x y => flows_to x y = Ok true) ls).
Proof using Type*.
  induction 1 as [|l ls Hl Hls (b & Hb & Hiff)]; cbn [labels_in_descending_order].
  { exists true. split; [done|]. split; [constructor|done]. }
  destruct (max_of_spec l ls Hl Hls) as (m & Hm & Hin & Hgr).
  rewrite Hm, Hb. simpl. eexists. split; [done|].
  rewrite andb_true_iff, Hiff, bool_decide_eq_true. split.
  - intros [-> Hs]. constructor; [done|]. apply Forall_forall.
    intros x Hx. apply Hgr. by right.
  - inversion 1 as [|? ? Hs Hall]; subst. split; [|done].
    rewrite Forall_forall in Hall, Hls.
    apply elem_of_cons in Hin as [?|Hin]; [done|].
    apply flows_antisym; auto. apply Hgr. by left.
Qed.
Context (Dc : forall l, D l -> concrete l = true).
Context (Dbot : D bottom) (Dlow : forall x, D x -> flows_to x bottom = Ok true).

(** [resolved_label_min_vararg] folds [resolved_label_min] over its
  arguments; for labels of a totally ordered program that contains [bottom]
  it is defined and is the meet: a member of the pack that every member
  flows to. *)
Theorem resolved_label_min_vararg_meet l ls : D l -> Forall D ls ->
  exists m, resolved_label_min_vararg l ls = Ok m /\ is_least m (l :: ls).
Proof using All.
  intros Hl Hls. revert l Hl. induction Hls as [|l2 ls Hl2 Hls IH]; intros l Hl.
  { exists l. split; [done|]. split; [by left|].
    intros x Hx. apply list_elem_of_singleton in Hx as ->. by apply flows_refl. }
  cbn [resolved_label_min_vararg].
  destruct (resolved_label_min_spec Dc l l2 Dbot Dlow Hl Hl2) as (m & -> & Hm & Hlm & Hl2m).
  cbn [mbind outcome_bind].
  assert (Dm : D m) by (destruct Hm; by subst).
  destruct (IH m Dm) as (m' & -> & Hin & Hle). exists m'. split; [done|].
  assert (Hmm : flows_to m m' = Ok true) by (apply Hle; by left).
  assert (Dm' : D m').
  { apply elem_of_cons in Hin as [->|Hin]; [done|].
    by apply (proj1 (Forall_forall _ _) Hls). }
  split.
  - rewrite !elem_of_cons in *. destruct Hin as [->|?]; [|tauto]. destruct Hm; tauto.
  - intros x. rewrite !elem_of_cons. intros [->|[->|Hx]].
    + by apply (flows_trans l m m').
    + by apply (flows_trans l2 m m').
    + apply Hle. by right.
Qed.

End properties.

Lemma min_max_of_correct_witness :
  min_of strong [causal; bottom; top] = Ok bottom /\
  max_of strong [causal; bottom; top] = Ok top /\
  exists m M, min_of strong [causal; bottom; top] = Ok m /\
    max_of strong [causal; bottom; top] = Ok M /\
    is_least m [strong; causal; bottom; top] /\
    is_greatest M [strong; causal; bottom; top].
Proof.
  split; [vm_compute; reflexivity|]. split; [vm_compute; reflexivity|].
  apply (min_max_of_correct (D := fun l => l ∈ sql_labels));
    by_decide.
Defined.

Lemma resolved_label_min_vararg_meet_witness :
  resolved_label_min_vararg strong [top; causal] = Ok causal /\
  exists m, resolved_label_min_vararg strong [top; causal] = Ok m /\
    is_least m [strong; top; causal].
Proof.
  split; [vm_compute; reflexivity|].
  apply (resolved_label_min_vararg_meet (D := fun l => l ∈ sql_labels));
    [exact sql_concrete|by_decide| |by_decide..].
  apply (proj1 (Forall_forall (fun x => flows_to x bottom = Ok true) sql_labels)).
  by_decide.
Defined.

Lemma labels_in_descending_order_correct_witness :
  labels_in_descending_order [top; strong; causal; bottom] = Ok true /\
  labels_in_descending_order [top; causal; strong] = Ok false /\
  exists b, labels_in_descending_order [top; strong; causal; bottom] = Ok b /\
    (b = true <-> StronglySorted (fun x y => flows_to x y = Ok true)
       [top; strong; causal; bottom]).
Proof.
  split; [vm_compute; reflexivity|]. split; [vm_compute; reflexivity|].
  apply (labels_in_descending_order_correct (D := fun l => l ∈ sql_labels)).
  by_decide.
Defined.
