(* ===== verification/TypedAst.v ===== *)
(** * The label-annotated syntax tree of MixT

    Models [mtl/AST_typecheck.hpp] and [mtl/traverse_assist.hpp]: the tree every
    pass between type checking and phase splitting works on.  Each node
    carries its label; expressions also carry the C++ type they yield. *)
From S2P Require Import Prelude Labels.

(** ** Yielded types *)
Inductive ty : Type :=
| TInt | TBool | TVoid | TTombstone | TListStub
| TStruct (name : string)
| THandle (l : label) (t : ty).

#[global] Instance ty_eq_dec : EqDecision ty.
Proof. solve_decision. Defined.

(** [typename T::label]: declared by handles and by [builtins::ListStub]. *)
Definition ty_label (t : ty) : outcome label :=
  match t with
  | THandle l _ => Ok l
  | TListStub => Ok bottom
  | _ => Err NoOverload
  end.

(** ** Nodes *)
Inductive expr : Type :=
| EVar (l : label) (y : ty) (v : string)
| EField (l : label) (y : ty) (s : expr) (f : string)
| EConst (i : Z)
| EBinOp (l : label) (y : ty) (op : ascii) (L R : expr)
| EGenerateTombstone (l : label)
| EIsValid (l : label) (h : expr)
| EEndorse (l : label) (y : ty) (le : label) (h : expr)
| EOperation (l : label) (y : ty) (oper_name : string) (h : expr) (args : list expr).

Record binding : Type := Binding {
  b_label : label; b_yield : ty; b_var : string; b_expr : expr }.

Inductive stmt : Type :=
| SLet (l : label) (b : binding) (body : stmt)
| SLetRemote (l : label) (b : binding) (body : stmt)
| SOperation (l : label) (oper_name : string) (h : expr) (args : list expr)
| SAssignment (l : label) (var e : expr)
| SReturn (l : label) (e : expr)
| SWriteTombstone (l : label) (e : expr)
| SAccompanyWrite (l : label) (e : expr)
| SIf (l : label) (c : expr) (t e : stmt)
| SWhile (l : label) (c : expr) (body : stmt) (name : string)
| SSequence (l : label) (seq : list stmt).

(** ** Induction over nested nodes *)

Section expr_ind.
Variable P : expr -> Prop.
Hypothesis Pvar : forall l y v, P (EVar l y v).
Hypothesis Pfield : forall l y s f, P s -> P (EField l y s f).
Hypothesis Pconst : forall i, P (EConst i).
Hypothesis Pbinop : forall l y op L R, P L -> P R -> P (EBinOp l y op L R).
Hypothesis Ptomb : forall l, P (EGenerateTombstone l).
Hypothesis Pvalid : forall l h, P h -> P (EIsValid l h).
Hypothesis Pendorse : forall l y le h, P h -> P (EEndorse l y le h).
Hypothesis Pop : forall l y n h args, P h -> Forall P args -> P (EOperation l y n h args).

Fixpoint expr_ind' (e : expr) : P e :=
  match e with
  | EVar l y v => Pvar l y v
  | EField l y s f => Pfield l y s f (expr_ind' s)
  | EConst i => Pconst i
  | EBinOp l y op L R => Pbinop l y op L R (expr_ind' L) (expr_ind' R)
  | EGenerateTombstone l => Ptomb l
  | EIsValid l h => Pvalid l h (expr_ind' h)
  | EEndorse l y le h => Pendorse l y le h (expr_ind' h)
  | EOperation l y n h args =>
      Pop l y n h args (expr_ind' h)
        ((fix go l : Forall P l :=
            match l with
            | [] => Forall_nil_2 _
            | x :: l => Forall_cons_2 _ _ _ (expr_ind' x) (go l)
            end) args)
  end.
End expr_ind.

Section stmt_ind.
Variable P : stmt -> Prop.
Hypothesis Plet : forall l b s, P s -> P (SLet l b s).
Hypothesis Pletr : forall l b s, P s -> P (SLetRemote l b s).
Hypothesis Pop : forall l n h args, P (SOperation l n h args).
Hypothesis Passign : forall l v e, P (SAssignment l v e).
Hypothesis Preturn : forall l e, P (SReturn l e).
Hypothesis Pwrite : forall l e, P (SWriteTombstone l e).
Hypothesis Paccompany : forall l e, P (SAccompanyWrite l e).
Hypothesis Pif : forall l c t e, P t -> P e -> P (SIf l c t e).
Hypothesis Pwhile : forall l c s n, P s -> P (SWhile l c s n).
Hypothesis Pseq : forall l ss, Forall P ss -> P (SSequence l ss).

Fixpoint stmt_ind' (s : stmt) : P s :=
  match s with
  | SLet l b s => Plet l b s (stmt_ind' s)
  | SLetRemote l b s => Pletr l b s (stmt_ind' s)
  | SOperation l n h args => Pop l n h args
  | SAssignment l v e => Passign l v e
  | SReturn l e => Preturn l e
  | SWriteTombstone l e => Pwrite l e
  | SAccompanyWrite l e => Paccompany l e
  | SIf l c t e => Pif l c t e (stmt_ind' t) (stmt_ind' e)
  | SWhile l c s n => Pwhile l c s n (stmt_ind' s)
  | SSequence l ss =>
      Pseq l ss
        ((fix go l : Forall P l :=
            match l with
            | [] => Forall_nil_2 _
            | x :: l => Forall_cons_2 _ _ _ (stmt_ind' x) (go l)
            end) ss)
  end.
End stmt_ind.

#[global] Instance expr_eq_dec : EqDecision expr.
Proof.
  hnf. fix go 1. intros x y.
  assert (Hl : forall a b : list expr, {a = b} + {a <> b}) by exact (@list_eq_dec expr go).
  unfold Decision. decide equality; first [apply go | apply Hl | apply decide; exact _].
Defined.

(** ** Annotations *)

Definition expr_label (e : expr) : label :=
  match e with
  | EVar l _ _ | EField l _ _ _ | EBinOp l _ _ _ _ | EGenerateTombstone l
  | EIsValid l _ | EEndorse l _ _ _ | EOperation l _ _ _ _ => l
  | EConst _ => top
  end.

Definition expr_yield (e : expr) : ty :=
  match e with
  | EVar _ y _ | EField _ y _ _ | EBinOp _ y _ _ _ | EEndorse _ y _ _
  | EOperation _ y _ _ _ => y
  | EConst _ => TInt
  | EGenerateTombstone _ => TTombstone
  | EIsValid _ _ => TBool
  end.

Definition stmt_label (s : stmt) : label :=
  match s with
  | SLet l _ _ | SLetRemote l _ _ | SOperation l _ _ _ | SAssignment l _ _
  | SReturn l _ | SWriteTombstone l _ | SAccompanyWrite l _ | SIf l _ _ _
  | SWhile l _ _ _ | SSequence l _ => l
  end.

(** [typename This::handle_label] of operations, [IsValid] and [LetRemote]:
    the label of the handle type the operand yields. *)
Definition handle_label (h : expr) : outcome label := ty_label (expr_yield h).

Definition is_var_reference (e : expr) : bool :=
  match e with EVar _ _ _ => true | _ => false end.

(** ** Generic traversals

    [F<Accum, Node>] ranges over bindings, statements and expressions. *)
Inductive node : Type :=
| NE (e : expr)
| NB (b : binding)
| NS (s : stmt).

Coercion NE : expr >-> node.
Coercion NB : binding >-> node.
Coercion NS : stmt >-> node.

(** Operands of a node in the order the node's template parameters list them. *)
Definition operands (n : node) : list node :=
  match n with
  | NE (EVar _ _ _) | NE (EConst _) | NE (EGenerateTombstone _) => []
  | NE (EField _ _ s _) => [NE s]
  | NE (EBinOp _ _ _ L R) => [NE L; NE R]
  | NE (EIsValid _ h) => [NE h]
  | NE (EEndorse _ _ _ h) => [NE h]
  | NE (EOperation _ _ _ h args) => NE h :: (NE <$> args)
  | NB b => [NE (b_expr b)]
  | NS (SLet _ b s) | NS (SLetRemote _ b s) => [NB b; NS s]
  | NS (SOperation _ _ h args) => NE h :: (NE <$> args)
  | NS (SAssignment _ v e) => [NE v; NE e]
  | NS (SReturn _ e) | NS (SWriteTombstone _ e) | NS (SAccompanyWrite _ e) => [NE e]
  | NS (SIf _ c t e) => [NE c; NS t; NS e]
  | NS (SWhile _ c s _) => [NE c; NS s]
  | NS (SSequence _ ss) => NS <$> ss
  end.

(** [Fold_all<F, Accum, arg1, args...> = F<Fold_all<F, Accum, args...>, arg1>] *)
Definition Fold_all {A B} (F : A -> B -> A) (Accum : A) (args : list B) : A :=
  foldr (fun arg acc => F acc arg) Accum args.

(** Operations and sequences go through [Fold_all], the last operand first;
    every other node folds its operands first to last. *)
Definition variadic (n : node) : bool :=
  match n with
  | NE (EOperation _ _ _ _ _) | NS (SOperation _ _ _ _) | NS (SSequence _ _) => true
  | _ => false
  end.

(** [Node::template fold<F, Accum>] *)
Definition node_fold {A} (F : A -> node -> A) (Accum : A) (n : node) : A :=
  if variadic n then Fold_all F Accum (operands n) else foldl F Accum (operands n).

(** [Node::template default_recurse<F, Accum, Combine, Default>] *)
Definition default_recurse {A} (F : node -> A) (Combine : A -> A -> A) (Default : A)
    (n : node) : A :=
  if variadic n then Fold_all Combine Default (F <$> operands n)
  else match operands n with
       | [] => Default
       | x :: xs => foldl (fun acc y => Combine acc (F y)) (F x) xs
       end.

(** Number of nodes, for recursion that is not structural. *)
Fixpoint expr_size (e : expr) : nat :=
  match e with
  | EVar _ _ _ | EConst _ | EGenerateTombstone _ => 1
  | EField _ _ s _ => S (expr_size s)
  | EBinOp _ _ _ L R => S (expr_size L + expr_size R)
  | EIsValid _ h | EEndorse _ _ _ h => S (expr_size h)
  | EOperation _ _ _ h args => S (expr_size h + sum_list_with expr_size args)
  end.

Fixpoint stmt_size (s : stmt) : nat :=
  match s with
  | SLet _ b s | SLetRemote _ b s => S (S (expr_size (b_expr b) + stmt_size s))
  | SOperation _ _ h args => S (expr_size h + sum_list_with expr_size args)
  | SAssignment _ v e => S (expr_size v + expr_size e)
  | SReturn _ e | SWriteTombstone _ e | SAccompanyWrite _ e => S (expr_size e)
  | SIf _ c t e => S (expr_size c + stmt_size t + stmt_size e)
  | SWhile _ c s _ => S (expr_size c + stmt_size s)
  | SSequence _ ss => S (sum_list_with stmt_size ss)
  end.

Definition node_size (n : node) : nat :=
  match n with
  | NE e => expr_size e
  | NB b => S (expr_size (b_expr b))
  | NS s => stmt_size s
  end.

Lemma sum_list_with_elem {A} (f : A -> nat) l x : x ∈ l -> f x <= sum_list_with f l.
Proof. induction 1; simpl; lia. Qed.

Lemma operands_smaller n m : m ∈ operands n -> node_size m < node_size n.
Proof.
  destruct n as [e|b|s]; [destruct e|destruct b|destruct s]; simpl;
    rewrite ?elem_of_cons, ?elem_of_nil; intros Hm;
    repeat match goal with
    | H : _ \/ _ |- _ => destruct H as [H|H]
    | H : False |- _ => destruct H
    | H : _ ∈ (_ <$> _) |- _ => apply list_elem_of_fmap in H as (? & -> & H)
    end; subst; simpl; try lia;
    match goal with
    | H : ?x ∈ ?l |- context [sum_list_with ?f ?l] =>
        pose proof (sum_list_with_elem f l x H); lia
    end.
Qed.
