(* ===== verification/LabelCollect.v ===== *)
(** * Which labels a tree mentions

    Models [mtl/collect_proper_label.hpp], [mtl/contains_improper_labels.hpp] and
    [mtl/contains_min_ofs.hpp].  Each pass has one overload group for nodes whose
    label is a minimum, one for temporaries and one for the rest. *)
From S2P Require Import Prelude TypeLists Labels TypedAst.

Section collect.
Context `{UserLabels} `{TypeLists}.

(** [collect_labels_helper(dummy_varref<l>{})] *)
Fixpoint collect_label (l : label) : outcome (list label) :=
  match l with
  | LMin a b =>
      da ← collect_label a; db ← collect_label b;
      Ok (typeset_combine (typeset_combine da db) [])
  | LTemp _ _ => Ok []
  | _ => _ ← is_label l; Ok [l]
  end.

(** The node's own label in front of what its operands contribute; the
    three overload groups. *)
Definition with_label (l : label) (rest : list label) : outcome (list label) :=
  match l with
  | LMin a b =>
      da ← collect_label a; db ← collect_label b;
      Ok (typeset_combine (typeset_combine da db) rest)
  | LTemp _ _ => Ok rest
  | _ => _ ← is_label l; Ok (typeset_combine [l] rest)
  end.

(** Nodes that only have the overload asserting [l::is_label::value]. *)
Definition with_proper_label (l : label) (rest : list label) : outcome (list label) :=
  _ ← is_label l; Ok (typeset_combine [l] rest).

Fixpoint collect_labels_expr (e : expr) : outcome (list label) :=
  match e with
  | EVar l _ _ => with_label l []
  | EField l _ s _ => r ← collect_labels_expr s; with_label l r
  | EConst _ => Ok [top]
  | EBinOp l _ _ L R =>
      rl ← collect_labels_expr L; rr ← collect_labels_expr R;
      with_label l (typeset_combine rl rr)
  | EGenerateTombstone l => with_label l []
  | EIsValid l h => r ← collect_labels_expr h; with_label l r
  | EEndorse l _ le h =>
      _ ← assert_ok NoOverload (bool_decide (l = le));
      r ← collect_labels_expr h; with_proper_label l r
  | EOperation l _ _ h args =>
      r ← collect_labels_expr h; rs ← traverse collect_labels_expr args;
      with_label l (typeset_combine_all r rs)
  end.

Definition collect_labels_binding (b : binding) : outcome (list label) :=
  r ← collect_labels_expr (b_expr b); with_label (b_label b) r.

Fixpoint collect_labels_stmt (s : stmt) : outcome (list label) :=
  match s with
  | SLet l b s | SLetRemote l b s =>
      rb ← collect_labels_binding b; rs ← collect_labels_stmt s;
      with_label l (typeset_combine rb rs)
  | SOperation l _ h args =>
      r ← collect_labels_expr h; rs ← traverse collect_labels_expr args;
      with_label l (typeset_combine_all r rs)
  | SAssignment l v e =>
      rv ← collect_labels_expr v; re ← collect_labels_expr e;
      with_label l (typeset_combine rv re)
  | SReturn l e | SWriteTombstone l e | SAccompanyWrite l e =>
      r ← collect_labels_expr e; with_proper_label l r
  | SIf l c t e =>
      rc ← collect_labels_expr c; rt ← collect_labels_stmt t; re ← collect_labels_stmt e;
      with_label l (typeset_combine (typeset_combine rc rt) re)
  | SWhile l c s name =>
      _ ← assert_ok NoOverload (bool_decide (name = ""%string));
      rc ← collect_labels_expr c; rs ← collect_labels_stmt s;
      with_label l (typeset_combine rc rs)
  | SSequence l ss =>
      rs ← traverse collect_labels_stmt ss;
      with_label l (typeset_combine_all [] rs)
  end.

(** [collect_proper_labels]: the labels in ascending [label_lte] order *)
Definition collect_proper_labels (ast : stmt) : outcome (list label) :=
  s ← collect_labels_stmt ast; typelist_sort label_lte s.

End collect.

(** ** Trees that still contain labels of a given form *)

Section contains.
(** Labels for which the overload groups answer [true] without looking at
    the operands. *)
Variable group : label -> bool.

Fixpoint contains_label_expr (e : expr) : bool :=
  match e with
  | EVar l _ _ => group l
  | EField l _ s _ => group l || contains_label_expr s
  | EConst _ => false
  | EBinOp l _ _ L R => group l || contains_label_expr L || contains_label_expr R
  | EGenerateTombstone l => group l
  | EIsValid l h => group l || contains_label_expr h
  | EEndorse _ _ _ h => contains_label_expr h
  | EOperation l _ _ h args =>
      group l || contains_label_expr h || existsb contains_label_expr args
  end.

Definition contains_label_binding (b : binding) : bool :=
  group (b_label b) || contains_label_expr (b_expr b).

Fixpoint contains_label_stmt (s : stmt) : bool :=
  match s with
  | SLet l b s | SLetRemote l b s =>
      group l || contains_label_binding b || contains_label_stmt s
  | SOperation l _ h args =>
      group l || contains_label_expr h || existsb contains_label_expr args
  | SAssignment l v e => group l || contains_label_expr v || contains_label_expr e
  | SReturn _ e | SWriteTombstone _ e | SAccompanyWrite _ e => contains_label_expr e
  | SIf l c t e =>
      group l || contains_label_expr c || contains_label_stmt t || contains_label_stmt e
  | SWhile l c s _ => group l || contains_label_expr c || contains_label_stmt s
  | SSequence l ss => group l || existsb contains_label_stmt ss
  end.
End contains.

(** The minimum and temporary groups of [contains_improper_labels_helper] *)
Definition improper_label (l : label) : bool := is_min_of l || is_temp_label l.

Definition contains_improper_labels (ast : stmt) : bool :=
  contains_label_stmt improper_label ast.

Definition contains_min_ofs (ast : stmt) : bool :=
  contains_label_stmt is_min_of ast.

(** ** Correctness *)

(** The complete labels a label is a minimum of. *)
Fixpoint label_atoms (l : label) : list label :=
  match l with
  | LMin a b => label_atoms a ++ label_atoms b
  | LTemp _ _ => []
  | _ => [l]
  end.

Definition node_label (n : node) : label :=
  match n with NE e => expr_label e | NB b => b_label b | NS s => stmt_label s end.

(** [m] occurs in the tree below (and including) [n]. *)
Inductive subnode : node -> node -> Prop :=
| sub_here n : subnode n n
| sub_below n k m : k ∈ operands n -> subnode k m -> subnode n m.

(** The complete label [x] is mentioned by an annotation of the tree. *)
Definition mentions (n : node) (x : label) : Prop :=
  exists m, subnode n m /\ x ∈ label_atoms (node_label m).

Lemma mentions_step n x :
  mentions n x <-> x ∈ label_atoms (node_label n) \/ exists k, k ∈ operands n /\ mentions k x.
Proof.
  split.
  - intros (m & Hs & Hx). destruct Hs as [n|n k m Hk Hs]; [by left|].
    right. exists k. split; [done|]. by exists m.
  - intros [Hx|(k & Hk & m & Hm & Hx)]; [exists n; split; [constructor|done]|].
    exists m. split; [by econstructor|done].
Qed.

(** All nodes of a tree, to check a property of every node by evaluation. *)
Fixpoint subnodes_fuel (fuel : nat) (n : node) : list node :=
  match fuel with
  | 0%nat => []
  | S fuel => n :: flat_map (subnodes_fuel fuel) (operands n)
  end.
Definition subnodes (n : node) : list node := subnodes_fuel (node_size n) n.

Lemma subnodes_complete n m : subnode n m -> m ∈ subnodes n.
Proof.
  unfold subnodes. intros Hs.
  assert (Hgen : forall k, node_size n <= k -> m ∈ subnodes_fuel k n); [|by apply Hgen].
  induction Hs as [n|n i m Hi Hs IH]; intros k Hk.
  all: destruct k as [|k]; [destruct n as [[]|[]|[]]; simpl in Hk; lia|]; simpl.
  - by left.
  - right. apply list_elem_of_In, in_flat_map. exists i.
    split; [by apply list_elem_of_In|]. apply list_elem_of_In, IH.
    pose proof (operands_smaller n i Hi). lia.
Qed.

Lemma forall_subnode (f : node -> bool) n : forallb f (subnodes n) = true ->
  forall m, subnode n m -> f m = true.
Proof. intros Hf m Hm%subnodes_complete. by apply (proj1 (forallb_elem f _) Hf). Qed.

Lemma forall_mentions (f : label -> bool) n :
  forallb (fun m => forallb f (label_atoms (node_label m))) (subnodes n) = true ->
  forall x, mentions n x -> f x = true.
Proof.
  intros Hf x (m & Hm & Hx).
  exact (proj1 (forallb_elem f _) (forall_subnode _ n Hf m Hm) x Hx).
Qed.

Section spec.
Context `{UserLabels} `{TypeListLaws}.

Lemma collect_label_spec l r : collect_label l = Ok r ->
  NoDup r /\ forall x, x ∈ r <-> x ∈ label_atoms l.
Proof.
  revert r. induction l as [s|a b|l1 IH1 l2 IH2|l IH]; intros r Hr; cbn in Hr; outcome_inv.
  - split; [apply NoDup_singleton|done].
  - split; [constructor|done].
  - destruct (IH1 _ ltac:(eassumption)) as [Hn1 He1].
    destruct (IH2 _ ltac:(eassumption)) as [Hn2 He2]. split.
    + repeat apply NoDup_typeset_combine; auto using NoDup_nil_2.
    + intros x'. rewrite !elem_of_typeset_combine, He1, He2, elem_of_nil.
      simpl. rewrite elem_of_app. tauto.
  - split; [apply NoDup_singleton|done].
Qed.

Definition sound_set (r : list label) (P : label -> Prop) : Prop :=
  NoDup r /\ forall x, x ∈ r <-> P x.

Lemma with_label_spec l rest r P : with_label l rest = Ok r -> sound_set rest P ->
  sound_set r (fun x => x ∈ label_atoms l \/ P x).
Proof.
  intros Hr [Hn He]. unfold with_label in Hr. destruct l; outcome_inv.
  all: repeat match goal with
    | Hc : collect_label _ = Ok _ |- _ => apply collect_label_spec in Hc as [? ?] end.
  all: split; [repeat apply NoDup_typeset_combine; auto using NoDup_singleton|].
  all: intros y; rewrite ?elem_of_typeset_combine, ?He; simpl.
  all: rewrite ?elem_of_app, ?elem_of_nil; try naive_solver.
Qed.

Lemma with_proper_label_spec l rest r P :
  with_proper_label l rest = Ok r -> sound_set rest P ->
  sound_set r (fun x => x ∈ label_atoms l \/ P x).
Proof.
  intros Hr. apply with_label_spec. unfold with_proper_label in Hr.
  destruct l; try done; outcome_inv; discriminate.
Qed.

Lemma sound_set_combine r1 r2 (P1 P2 : label -> Prop) :
  sound_set r1 P1 -> sound_set r2 P2 -> sound_set (typeset_combine r1 r2) (fun x => P1 x \/ P2 x).
Proof.
  intros [? He1] [? He2]. split; [by apply NoDup_typeset_combine|].
  intros x. by rewrite elem_of_typeset_combine, He1, He2.
Qed.

Lemma sound_set_all {B} (P : B -> label -> Prop) r P0 xs rs :
  sound_set r P0 ->
  Forall2 (fun x r => sound_set r (P x)) xs rs ->
  sound_set (typeset_combine_all r rs) (fun y => P0 y \/ exists x, x ∈ xs /\ P x y).
Proof.
  intros [Hn He] Hall. split.
  - apply NoDup_typeset_combine_all; [done|].
    clear -Hall. induction Hall as [|x r ? ? [? ?]]; by constructor.
  - intros y. rewrite elem_of_typeset_combine_all, He.
    apply or_iff_compat_l. clear -Hall. induction Hall as [|x r xs rs [Hn He] Hall IH].
    + setoid_rewrite elem_of_nil. naive_solver.
    + setoid_rewrite elem_of_cons. specialize (He y). naive_solver.
Qed.

Lemma sound_set_ext r (P Q : label -> Prop) :
  sound_set r P -> (forall x, P x <-> Q x) -> sound_set r Q.
Proof. intros [? He] HPQ. split; [done|]. intros x. by rewrite He. Qed.

Lemma sound_set_nil : sound_set [] (fun _ => False).
Proof. split; [constructor|]. intros x. by rewrite elem_of_nil. Qed.

(** Close [sound_set r (mentions n)] from the sets of the operands. *)
Ltac by_operands :=
  eapply sound_set_ext; [eassumption|]; intros ?;
  rewrite mentions_step; simpl; apply or_iff_compat_l;
  repeat setoid_rewrite elem_of_cons; setoid_rewrite elem_of_nil; naive_solver.

Lemma mentions_operation (n : node) h (args : list expr) x :
  operands n = NE h :: (NE <$> args) ->
  mentions n x <->
  x ∈ label_atoms (node_label n) \/ mentions h x \/ exists a, a ∈ args /\ mentions (NE a) x.
Proof.
  intros Hn. rewrite mentions_step, Hn. apply or_iff_compat_l.
  setoid_rewrite elem_of_cons. setoid_rewrite list_elem_of_fmap. naive_solver.
Qed.

Lemma traverse_sound {B} (f : B -> outcome (list label)) (P : B -> label -> Prop) xs rs :
  Forall (fun x => forall r, f x = Ok r -> sound_set r (P x)) xs ->
  traverse f xs = Ok rs -> Forall2 (fun x r => sound_set r (P x)) xs rs.
Proof.
  intros Hx Hr%traverse_Ok. induction Hr as [|x r xs rs Hr Hrs IH]; [constructor|].
  inversion Hx; subst. constructor; auto.
Qed.

Lemma collect_labels_expr_spec e r :
  collect_labels_expr e = Ok r -> sound_set r (mentions e).
Proof.
  revert r. induction e as [l y v|l y s f IH|i|l y op L R IHL IHR|l|l h IH|l y le h IH|l y n h args IH IHa]
    using expr_ind'; intros r Hr; cbn [collect_labels_expr] in Hr; outcome_inv.
  - pose proof (with_label_spec _ _ _ _ Hr sound_set_nil). by_operands.
  - pose proof (with_label_spec _ _ _ _ Hr (IH _ ltac:(done))). by_operands.
  - split; [apply NoDup_singleton|]. intros x. rewrite mentions_step. simpl.
    split; [by left|]. intros [Hx|(k & Hk & _)]; [done|by apply elem_of_nil in Hk].
  - pose proof (with_label_spec _ _ _ _ Hr
      (sound_set_combine _ _ _ _ (IHL _ ltac:(done)) (IHR _ ltac:(done)))). by_operands.
  - pose proof (with_label_spec _ _ _ _ Hr sound_set_nil). by_operands.
  - pose proof (with_label_spec _ _ _ _ Hr (IH _ ltac:(done))). by_operands.
  - pose proof (with_proper_label_spec _ _ _ _ Hr (IH _ ltac:(done))). by_operands.
  - pose proof (sound_set_all (fun a => mentions (NE a)) _ _ _ _
      (IH _ ltac:(done)) (traverse_sound _ _ _ _ IHa ltac:(done))) as Hs.
    eapply sound_set_ext; [exact (with_label_spec _ _ _ _ Hr Hs)|]. intros y'. cbn beta.
    by rewrite (mentions_operation (EOperation l y n h args) h args).
Qed.

Lemma collect_labels_binding_spec b r :
  collect_labels_binding b = Ok r -> sound_set r (mentions b).
Proof.
  intros Hr. unfold collect_labels_binding in Hr. outcome_inv.
  pose proof (with_label_spec _ _ _ _ Hr (collect_labels_expr_spec _ _ ltac:(done))).
  by_operands.
Qed.

Lemma collect_labels_stmt_spec s r :
  collect_labels_stmt s = Ok r -> sound_set r (mentions s).
Proof.
  pose proof collect_labels_expr_spec as Hexpr.
  pose proof collect_labels_binding_spec as Hbind.
  revert r. induction s as [l b s IH|l b s IH|l n h args|l v e|l e|l e|l e|l c t e IHt IHe|l c s n IH|l ss IH]
    using stmt_ind'; intros r Hr; cbn [collect_labels_stmt] in Hr; outcome_inv.
  1-2: pose proof (with_label_spec _ _ _ _ Hr
      (sound_set_combine _ _ _ _ (Hbind _ _ ltac:(done)) (IH _ ltac:(done)))); by_operands.
  - pose proof (sound_set_all (fun a => mentions (NE a)) _ _ _ _ (Hexpr _ _ ltac:(done))
      (traverse_sound collect_labels_expr (fun a => mentions (NE a)) args _
        ltac:(by apply Forall_forall; intros; apply Hexpr) ltac:(done))) as Hs.
    eapply sound_set_ext; [exact (with_label_spec _ _ _ _ Hr Hs)|]. intros y'. cbn beta.
    by rewrite (mentions_operation (SOperation l n h args) h args).
  - pose proof (with_label_spec _ _ _ _ Hr
      (sound_set_combine _ _ _ _ (Hexpr v _ ltac:(done)) (Hexpr e _ ltac:(done)))).
    by_operands.
  - pose proof (with_proper_label_spec _ _ _ _ Hr (Hexpr _ _ ltac:(done))); by_operands.
  - pose proof (with_proper_label_spec _ _ _ _ Hr (Hexpr _ _ ltac:(done))); by_operands.
  - pose proof (with_proper_label_spec _ _ _ _ Hr (Hexpr _ _ ltac:(done))); by_operands.
  - pose proof (with_label_spec _ _ _ _ Hr (sound_set_combine _ _ _ _
      (sound_set_combine _ _ _ _ (Hexpr _ _ ltac:(done)) (IHt _ ltac:(done)))
      (IHe _ ltac:(done)))). by_operands.
  - pose proof (with_label_spec _ _ _ _ Hr
      (sound_set_combine _ _ _ _ (Hexpr _ _ ltac:(done)) (IH _ ltac:(done)))). by_operands.
  - pose proof (sound_set_all (fun a => mentions (NS a)) _ _ _ _ sound_set_nil
      (traverse_sound _ _ _ _ IH ltac:(done))) as Hs.
    eapply sound_set_ext; [exact (with_label_spec _ _ _ _ Hr Hs)|]. intros y'. cbn beta.
    rewrite (mentions_step (SSequence l ss)). simpl. apply or_iff_compat_l.
    setoid_rewrite list_elem_of_fmap. naive_solver.
Qed.

(** *** The pass succeeds on well-placed labels *)

Definition node_collectable (n : node) : bool :=
  match n with
  | NE (EEndorse l _ le _) => bool_decide (l = le) && concrete l
  | NS (SReturn l _) | NS (SWriteTombstone l _) | NS (SAccompanyWrite l _) => concrete l
  | NS (SWhile _ _ _ name) => bool_decide (name = ""%string)
  | _ => true
  end.

Definition collectable (n : node) : Prop :=
  forall m, subnode n m -> node_collectable m = true /\
    forall x, x ∈ label_atoms (node_label m) -> is_label x = Ok true.

Lemma check_collectable n :
  forallb (fun m => node_collectable m &&
    forallb (fun x => bool_decide (is_label x = Ok true)) (label_atoms (node_label m)))
    (subnodes n) = true -> collectable n.
Proof.
  intros Hf m Hm. apply (forall_subnode _ n Hf) in Hm. apply andb_true_iff in Hm as [Hn Ha].
  split; [done|]. intros x Hx. by apply (proj1 (forallb_elem _ _) Ha) in Hx as ?%bool_decide_eq_true.
Qed.

Lemma collectable_below n k : collectable n -> k ∈ operands n -> collectable k.
Proof. intros Hn Hk m Hm. apply Hn. by econstructor. Qed.

Lemma collect_label_defined l :
  (forall x, x ∈ label_atoms l -> is_label x = Ok true) -> exists r, collect_label l = Ok r.
Proof.
  induction l as [s|a b|l1 IH1 l2 IH2|l IH]; intros Hl; cbn [collect_label].
  - rewrite Hl by by left. simpl. eauto.
  - eauto.
  - destruct IH1 as [r1 ->]; [intros; apply Hl; set_solver|].
    destruct IH2 as [r2 ->]; [intros; apply Hl; set_solver|]. simpl. eauto.
  - rewrite Hl by by left. simpl. eauto.
Qed.

Lemma with_label_defined n rest : collectable n ->
  exists r, with_label (node_label n) rest = Ok r.
Proof.
  intros Hn. destruct (Hn n ltac:(constructor)) as [_ Hl]. revert Hl.
  generalize (node_label n) as l. intros l Hl. unfold with_label.
  destruct l as [s|a b|l1 l2|l]; simpl in Hl.
  1, 4: rewrite Hl by (by left); simpl; eauto.
  1: eauto.
  destruct (collect_label_defined l1) as [? ->]; [intros; apply Hl; set_solver|].
  destruct (collect_label_defined l2) as [? ->]; [intros; apply Hl; set_solver|].
  simpl. eauto.
Qed.

Lemma with_proper_label_defined n rest : collectable n -> concrete (node_label n) = true ->
  exists r, with_proper_label (node_label n) rest = Ok r.
Proof.
  intros Hn Hc. destruct (with_label_defined n rest Hn) as [r Hr]. exists r.
  by destruct (node_label n).
Qed.

Lemma traverse_defined {A B} (f : A -> outcome B) xs :
  (forall x, x ∈ xs -> exists y, f x = Ok y) -> exists ys, traverse f xs = Ok ys.
Proof.
  induction xs as [|x xs IH]; intros Hf; simpl; [eauto|].
  destruct (Hf x) as [y ->]; [by left|]. simpl.
  destruct IH as [ys ->]; [|simpl; eauto]. intros z Hz. apply Hf. by right.
Qed.

Lemma collect_labels_expr_defined (e : expr) :
  collectable e -> exists r, collect_labels_expr e = Ok r.
Proof.
  induction e as [l y v|l y s f IH|i|l y op L R IHL IHR|l|l h IH|l y le h IH|l y n h args IH IHa]
    using expr_ind'; intros Hc; cbn [collect_labels_expr].
  - apply (with_label_defined _ [] Hc).
  - destruct IH as [r ->]; [eapply collectable_below; [done|by left]|].
    apply (with_label_defined _ r Hc).
  - eauto.
  - destruct IHL as [r ->]; [eapply collectable_below; [done|by left]|].
    destruct IHR as [r' ->]; [eapply collectable_below; [done|by right; left]|].
    apply (with_label_defined _ _ Hc).
  - apply (with_label_defined _ [] Hc).
  - destruct IH as [r ->]; [eapply collectable_below; [done|by left]|].
    apply (with_label_defined _ r Hc).
  - destruct IH as [r ->]; [eapply collectable_below; [done|by left]|].
    destruct (Hc _ ltac:(constructor)) as [Hn _]. simpl in Hn.
    apply andb_true_iff in Hn as [-> Hl]. simpl.
    apply (with_proper_label_defined _ r Hc Hl).
  - destruct IH as [r ->]; [eapply collectable_below; [done|by left]|].
    destruct (traverse_defined collect_labels_expr args) as [rs Hrs].
    { intros a Ha. rewrite Forall_forall in IHa. apply IHa; [done|].
      eapply collectable_below; [done|]. right. by apply list_elem_of_fmap_2. }
    simpl. rewrite Hrs. apply (with_label_defined _ _ Hc).
Qed.

Lemma collect_labels_binding_defined (b : binding) :
  collectable b -> exists r, collect_labels_binding b = Ok r.
Proof.
  intros Hc. unfold collect_labels_binding.
  destruct (collect_labels_expr_defined (b_expr b)) as [r ->];
    [eapply collectable_below; [done|by left]|].
  apply (with_label_defined _ r Hc).
Qed.

(** Run the collection of the operand [k] of the node of [Hc]. *)
Ltac run Hc lem :=
  let r := fresh "r" in
  destruct lem as [r ->]; [eapply collectable_below; [exact Hc|simpl; rewrite ?elem_of_cons; tauto]|];
  simpl.

Lemma collect_labels_stmt_defined (s : stmt) :
  collectable s -> exists r, collect_labels_stmt s = Ok r.
Proof.
  pose proof collect_labels_expr_defined as He.
  induction s as [l b s IH|l b s IH|l n h args|l v e|l e|l e|l e|l c t e IHt IHe|l c s n IH|l ss IH]
    using stmt_ind'; intros Hc; cbn [collect_labels_stmt].
  1-2: run Hc (collect_labels_binding_defined b); run Hc IH; apply (with_label_defined _ _ Hc).
  - run Hc (He h). destruct (traverse_defined collect_labels_expr args) as [rs ->].
    { intros a Ha. apply He. eapply collectable_below; [done|]. right.
      by apply list_elem_of_fmap_2. }
    apply (with_label_defined _ _ Hc).
  - run Hc (He v). run Hc (He e). apply (with_label_defined _ _ Hc).
  - run Hc (He e). apply (with_proper_label_defined _ _ Hc). apply (Hc _ (sub_here _)).
  - run Hc (He e). apply (with_proper_label_defined _ _ Hc). apply (Hc _ (sub_here _)).
  - run Hc (He e). apply (with_proper_label_defined _ _ Hc). apply (Hc _ (sub_here _)).
  - run Hc (He c). run Hc IHt. run Hc IHe. apply (with_label_defined _ _ Hc).
  - destruct (Hc _ (sub_here _)) as [Hn _]. simpl in Hn. rewrite Hn. simpl.
    run Hc (He c). run Hc IH. apply (with_label_defined _ _ Hc).
  - destruct (traverse_defined collect_labels_stmt ss) as [rs ->].
    { intros s Hs. rewrite Forall_forall in IH. apply IH; [done|].
      eapply collectable_below; [done|]. by apply list_elem_of_fmap_2. }
    apply (with_label_defined _ _ Hc).
Qed.
End spec.

(** ** Sorted label lists *)

Section sorted.
Context `{LabelOrder D} `{!TypeLists} `{!TypeListLaws}.

(** Ascending: every label flows to the ones before it. *)
Definition ascending (ls : list label) : Prop :=
  StronglySorted (fun x y => x <> y /\ flows_to y x = Ok true) ls.

Lemma label_sort_sorted ls ls' : Forall D ls -> NoDup ls ->
  typelist_sort label_lte ls = Ok ls' -> ascending ls'.
Proof using Type*.
  intros HD Hn Hs. pose proof (typelist_sort_perm _ _ _ Hs) as Hp.
  assert (HD' : Forall D ls') by by rewrite Hp.
  assert (Hn' : NoDup ls') by by rewrite Hp.
  apply typelist_sort_sorted in Hs. clear Hp HD Hn ls.
  assert (Hs' : StronglySorted (fun x y => D x /\ D y /\ flows_to y x = Ok true) ls').
  { apply Sorted_StronglySorted.
    { intros x y z (Hx & Hy & Hyx) (_ & Hz & Hzy). split_and!; auto.
      by apply (flows_trans z y x). }
    clear Hn'. induction Hs as [|x l Hs IH Hh]; [constructor|].
    inversion HD' as [|? ? Hx Hl]; subst. constructor; [auto|].
    inversion Hh as [|y ? Hxy]; subst; constructor. inversion Hl; subst.
    split_and!; [done|done|]. unfold label_lte in Hxy.
    destruct Hxy as [Hxy|Hxy]; [done|].
    destruct (flows_total x y); [done|done|congruence|done]. }
  clear Hs HD'. unfold ascending. induction Hs' as [|x l Hs IH Hall]; [constructor|].
  inversion Hn' as [|? ? Hx Hl]; subst. constructor; [auto|].
  rewrite Forall_forall in Hall |- *. intros y Hy. destruct (Hall y Hy) as (_ & _ & ?).
  split; [|done]. by intros ->.
Qed.

Lemma proper_labels_spec (ast : stmt) ls : (forall x, mentions ast x -> D x) ->
  collect_proper_labels ast = Ok ls ->
  (forall x, x ∈ ls <-> mentions ast x) /\ ascending ls.
Proof using Type*.
  intros HD Hc. unfold collect_proper_labels in Hc. outcome_inv.
  destruct (collect_labels_stmt_spec ast x) as [Hn He]; [done|]. split.
  - intros y. by rewrite (typelist_sort_elem label_lte x ls y Hc), He.
  - eapply label_sort_sorted; [|done|done]. apply Forall_forall. intros y Hy. by apply HD, He.
Qed.

Lemma proper_labels_defined (ast : stmt) : (forall x, mentions ast x -> D x) ->
  collectable ast -> exists ls, collect_proper_labels ast = Ok ls.
Proof using Type*.
  intros HD Hc. unfold collect_proper_labels.
  destruct (collect_labels_stmt_defined ast Hc) as [r Hr]. rewrite Hr. simpl.
  destruct (collect_labels_stmt_spec ast r Hr) as [_ He].
  apply typelist_sort_defined. intros x y Hx Hy. apply flows_defined; apply HD; by apply He.
Qed.
End sorted.

(** ** What the containment tests decide *)

Section contains_spec.
Context (group : label -> bool).

(** Nodes whose own label the overload groups inspect. *)
Definition exposed (n : node) : bool :=
  match n with
  | NE (EConst _) | NE (EEndorse _ _ _ _) => false
  | NS (SReturn _ _) | NS (SWriteTombstone _ _) | NS (SAccompanyWrite _ _) => false
  | _ => true
  end.

Definition contains_label (n : node) : bool :=
  match n with
  | NE e => contains_label_expr group e
  | NB b => contains_label_binding group b
  | NS s => contains_label_stmt group s
  end.

Lemma contains_label_step n :
  contains_label n = (exposed n && group (node_label n)) || existsb contains_label (operands n).
Proof.
  assert (Hfe : forall es, existsb contains_label (NE <$> es) = existsb (contains_label_expr group) es).
  { intros es. induction es as [|e es IH]; simpl; [done|]. by f_equal. }
  assert (Hfs : forall ss, existsb contains_label (NS <$> ss) = existsb (contains_label_stmt group) ss).
  { intros ss. induction ss as [|s ss IH]; simpl; [done|]. by f_equal. }
  destruct n as [e|b|s]; [destruct e|destruct b|destruct s]; simpl;
    rewrite ?Hfe, ?Hfs, ?orb_false_r, ?orb_assoc; done.
Qed.

Lemma contains_label_spec n :
  contains_label n = true <->
  exists m, subnode n m /\ exposed m = true /\ group (node_label m) = true.
Proof.
  split.
  - remember (node_size n) as k eqn:Hk. revert n Hk.
    induction k as [k IH] using lt_wf_ind. intros n -> Hc.
    rewrite contains_label_step in Hc. apply orb_true_iff in Hc as [Hc|Hc].
    { apply andb_true_iff in Hc. exists n. split; [constructor|done]. }
    apply existsb_exists in Hc as (m & Hm & Hc). apply list_elem_of_In in Hm.
    destruct (IH (node_size m) (operands_smaller _ _ Hm) m eq_refl Hc) as (m' & Hs & Hm').
    exists m'. split; [by econstructor|done].
  - intros (m & Hs & He & Hg). induction Hs as [n|n k m Hk Hs IH].
    + rewrite contains_label_step, He, Hg. done.
    + rewrite contains_label_step. apply orb_true_iff. right.
      apply existsb_exists. exists k. split; [by apply list_elem_of_In|auto].
Qed.
End contains_spec.

Lemma improper_concrete l : improper_label l = negb (concrete l).
Proof. by destruct l. Qed.

(** ** Properties *)

Section properties.
Context `{LabelOrder D} `{!TypeLists} `{!TypeListLaws}.

(** on a tree whose labels are totally ordered and that has complete
    labels where the pass demands them, [collect_proper_labels] succeeds; it
    returns exactly the complete labels the tree mentions (also inside
    minima), each once, every one flowing to those before it. *)
Theorem collect_proper_labels_correct (ast : stmt) :
  (forall x, mentions ast x -> D x) -> collectable ast ->
  exists ls, collect_proper_labels ast = Ok ls /\
    (forall x, x ∈ ls <-> mentions ast x) /\
    StronglySorted (fun x y => x <> y /\ flows_to y x = Ok true) ls.
Proof using Type*.
  intros HD Hc. destruct (proper_labels_defined ast HD Hc) as [ls Hls].
  exists ls. split; [done|]. by apply proper_labels_spec.
Qed.
End properties.

(** The two tests decide what they are named for: a tree passes
    [contains_improper_labels] exactly when every label the overloads look at
    is complete, and passes [contains_min_ofs] exactly when none of them is an
    unresolved minimum. *)
Theorem contains_tests_correct (ast : stmt) :
  (contains_improper_labels ast = false <->
    forall m, subnode ast m -> exposed m = true -> concrete (node_label m) = true) /\
  (contains_min_ofs ast = false <->
    forall m, subnode ast m -> exposed m = true -> is_min_of (node_label m) = false).
Proof.
  pose proof (contains_label_spec improper_label ast) as H1.
  pose proof (contains_label_spec is_min_of ast) as H2.
  unfold contains_improper_labels, contains_min_ofs. cbn [contains_label] in H1, H2.
  split; rewrite <- not_true_iff_false; [rewrite H1|rewrite H2].
  - split.
    + intros Hn m Hs He. destruct (concrete (node_label m)) eqn:Hc; [done|].
      destruct Hn. exists m. by rewrite improper_concrete, Hc.
    + intros Hall (m & Hs & He & Hi). rewrite improper_concrete, (Hall m Hs He) in Hi. done.
  - split.
    + intros Hn m Hs He. destruct (is_min_of (node_label m)) eqn:Hc; [|done].
      destruct Hn. by exists m.
    + intros Hall (m & Hs & He & Hi). by rewrite (Hall m Hs He) in Hi.
Qed.

(** *** A program to evaluate the passes on

    [var x = a; x = b; return x] with strong [a] and causal [b]; the label of
    [x] is still to be inferred. *)
Definition sample : stmt :=
  SLet strong (Binding (LTemp 1 1) TInt "x" (EVar strong TInt "a"))
    (SSequence top
      [SAssignment (LMin (LMin causal (LTemp 1 1)) top) (EVar (LTemp 1 1) TInt "x")
         (EVar causal TInt "b");
       SReturn bottom (EVar (LTemp 1 1) TInt "x")]).

Lemma collect_proper_labels_correct_witness :
  exists ls, collect_proper_labels sample = Ok ls /\
    (forall x, x ∈ ls <-> mentions sample x) /\
    StronglySorted (fun x y => x <> y /\ flows_to y x = Ok true) ls.
Proof.
  apply (collect_proper_labels_correct (D := fun l => l ∈ sql_labels) sample).
  - intros x Hx. apply (bool_decide_eq_true (x ∈ sql_labels)).
    revert x Hx. apply forall_mentions. vm_compute. reflexivity.
  - apply check_collectable. vm_compute. reflexivity.
Defined.

Example sample_labels : collect_proper_labels sample = Ok [bottom; causal; strong; top].
Proof. vm_compute. reflexivity. Qed.
