(* ===== verification/LabelInference.v ===== *)
(** * Label inference

    Models [mtl/label_inference.hpp] and [mtl/replace_label.hpp]: the pass that
    gives every [var] a label.  It collects flow constraints, walks through the
    labels of the program from the least trusted up, and moves every temporary
    reachable from the current label to that label. *)
From S2P Require Import Prelude TypeLists Labels TypedAst LabelCollect.

(** ** Constraints *)

Record constraint : Type := must_flow_to { high : label; low : label; why : string }.

#[global] Instance constraint_eq_dec : EqDecision constraint.
Proof. solve_decision. Defined.

Definition constraint_substitute (newl oldl : label) (c : constraint) : constraint :=
  must_flow_to (if decide (oldl = high c) then newl else high c)
    (if decide (oldl = low c) then newl else low c) (why c).

(** [constraints<A...>::substitute<newl, oldl>()] *)
Definition substitute (newl oldl : label) (cs : list constraint) : list constraint :=
  constraint_substitute newl oldl <$> cs.

Section inference.
Context `{UserLabels} `{TypeLists}.

Definition less_than (a b : label) : outcome bool :=
  match a, b with
  | LTemp l1 l2, LTemp r1 r2 => Ok (if (l1 <? r1)%Z then true else (l2 <? r2)%Z)
  | _, LTemp _ _ => Ok true
  | LTemp _ _, _ => Ok false
  | _, _ => flows_to b a
  end.

(** [must_flow_to<high, low, why>::lte]: the branches are ordinary [if]s, so
    both comparisons are instantiated whichever is used. *)
Definition lte (c c2 : constraint) : outcome bool :=
  lows ← less_than (low c) (low c2);
  highs ← less_than (high c) (high c2);
  Ok (if is_temp_label (high c)
      then if is_temp_label (high c2) then lows else false
      else if is_temp_label (high c2) then true
      else if (highs : bool) then true else lows).

(** [constraints<A...>::sort()] *)
Definition sort_constraints (cs : list constraint) : outcome (list constraint) :=
  typelist_sort lte cs.

(** ** Collection *)

Definition operation_pc (pc expr_label handle_label : label) (args : list expr) : label :=
  label_min_vararg pc (expr_label :: handle_label :: (TypedAst.expr_label <$> args)).

Fixpoint collect_constraints_expr (pc : label) (e : expr) : outcome (list constraint) :=
  match e with
  | EVar _ _ _ | EConst _ => Ok []
  | EField _ _ s _ => collect_constraints_expr pc s
  | EBinOp _ _ _ L R =>
      cl ← collect_constraints_expr pc L; cr ← collect_constraints_expr pc R;
      Ok (cl ++ cr)
  | EIsValid _ h =>
      hl ← handle_label h;
      let new_pc := LMin (LMin pc (expr_label h)) hl in
      ch ← collect_constraints_expr new_pc h;
      Ok (ch ++ [must_flow_to (expr_label h) hl "isvalid, expr -> hndl"])
  | EEndorse l _ le h =>
      _ ← assert_ok NoOverload (bool_decide (l = le));
      collect_constraints_expr pc h
  | EOperation _ _ _ h args =>
      hl ← handle_label h;
      let new_pc := operation_pc pc (expr_label h) hl args in
      ch ← collect_constraints_expr new_pc h;
      cargs ← traverse (collect_constraints_expr new_pc) args;
      Ok (ch ++ must_flow_to (expr_label h) hl "statement_operation, expr -> hndl"
            :: ((fun a => must_flow_to (expr_label a) hl "statement_operation, args -> hndl") <$> args)
            ++ concat cargs)
  | EGenerateTombstone _ => Err NoOverload
  end.

Definition collect_constraints_binding (pc : label) (b : binding) : outcome (list constraint) :=
  ce ← collect_constraints_expr pc (b_expr b);
  Ok (must_flow_to (expr_label (b_expr b)) (b_label b) "bound expression"
        :: must_flow_to pc (b_label b) "bound expression, pc" :: ce).

(** [_collect_operation_constraints] *)
Definition collect_operation_constraints (pc : label) (h : expr) (args : list expr)
    : outcome (list constraint) :=
  hl ← handle_label h;
  let new_pc := operation_pc pc (expr_label h) hl args in
  ch ← collect_constraints_expr new_pc h;
  cargs ← traverse (collect_constraints_expr new_pc) args;
  Ok (ch ++ must_flow_to (expr_label h) hl "statement_operation, expr -> hndl"
        :: ((fun a => must_flow_to (expr_label a) hl "statement_operation, args -> hndl") <$> args)
        ++ concat cargs).

Fixpoint collect_constraints (pc : label) (s : stmt) : outcome (list constraint) :=
  match s with
  | SAssignment _ v e =>
      cv ← collect_constraints_expr pc v; ce ← collect_constraints_expr pc e;
      Ok (must_flow_to (expr_label e) (expr_label v) "assignment"
            :: must_flow_to pc (expr_label v) "assignment, pc" :: cv ++ ce)
  | SReturn _ e => collect_constraints_expr pc e
  | SLet _ b e =>
      cb ← collect_constraints_binding pc b; ce ← collect_constraints pc e;
      Ok (cb ++ ce)
  | SLetRemote _ b e =>
      hl ← handle_label (b_expr b);
      let binding_pc := LMin (LMin pc (expr_label (b_expr b))) hl in
      cb ← collect_constraints_binding binding_pc b;
      ce ← collect_constraints pc e;
      Ok (cb ++ ce ++ [must_flow_to (expr_label (b_expr b)) hl "let_remote, expr -> hndl"])
  | SOperation _ _ h args => collect_operation_constraints pc h args
  | SIf l c t e =>
      let new_pc := LMin pc l in
      cc ← collect_constraints_expr new_pc c;
      ct ← collect_constraints new_pc t;
      ce ← collect_constraints new_pc e;
      Ok (cc ++ ct ++ ce)
  | SWhile l c e name =>
      _ ← assert_ok NoOverload (bool_decide (name = ""%string));
      let new_pc := LMin pc l in
      cc ← collect_constraints_expr new_pc c;
      ce ← collect_constraints new_pc e;
      Ok (cc ++ ce)
  | SSequence _ ss => cs ← traverse (collect_constraints pc) ss; Ok (concat cs)
  | SWriteTombstone _ _ | SAccompanyWrite _ _ => Err NoOverload
  end.

(** ** Splitting minima *)

(** A label or [mutils::mismatch] *)
Definition pick_min_match (a b : option label) : outcome (option label) :=
  match a, b with
  | None, b => Ok b
  | a, None => Ok a
  | Some (LTemp _ _), Some b => Ok (Some b)
  | Some (LMin _ _), Some b => Ok (Some b)
  | Some a, Some b => lt ← less_than a b; Ok (Some (if (lt : bool) then a else b))
  end.

Fixpoint find_concrete_label (a : label) : outcome (option label) :=
  match a with
  | LTemp _ _ => Ok None
  | LMin l r =>
      fl ← find_concrete_label l; fr ← find_concrete_label r;
      ret ← pick_min_match fl fr;
      _ ← assert_ok StaticAssert (bool_decide (ret <> None));
      Ok ret
  | _ => Ok (Some a)
  end.

(** The target a constraint keeps: a minimum is replaced by its least
    complete label. *)
Definition collapse_target (to : label) : outcome label :=
  found ← find_concrete_label to;
  picked ← pick_min_match (Some to) found;
  match picked with Some l => Ok l | None => Err NoOverload end.

Fixpoint collapse_constraints_fuel (fuel : nat) (cs : list constraint)
    : outcome (list constraint) :=
  match fuel with
  | 0%nat => Err OutOfFuel
  | S fuel =>
      match cs with
      | [] => Ok []
      | must_flow_to (LMin l r) to w :: rest =>
          collapse_constraints_fuel fuel (must_flow_to l to w :: must_flow_to r to w :: rest)
      | must_flow_to from to w :: rest =>
          to' ← collapse_target to;
          rest' ← collapse_constraints_fuel fuel rest;
          Ok (must_flow_to from to' w :: rest')
      end
  end.

Fixpoint label_size (l : label) : nat :=
  match l with LMin a b => S (label_size a + label_size b) | _ => 1 end.

(** Every step shortens the list or splits a minimum. *)
Definition collapse_measure (cs : list constraint) : nat :=
  sum_list_with (fun c => label_size (high c)) cs.

Definition collapse_constraints (cs : list constraint) : outcome (list constraint) :=
  collapse_constraints_fuel (S (collapse_measure cs)) cs.

Fixpoint remove_reflexive_constraints (cs : list constraint) : list constraint :=
  match cs with
  | [] => []
  | c :: t =>
      if decide (high c = low c) then remove_reflexive_constraints t
      else c :: remove_reflexive_constraints t
  end.

Definition minimize_constraints (cs : list constraint) : list constraint :=
  remove_reflexive_constraints (typeset_of cs).

(** ** Replacing a temporary in the tree *)

(** [replace_label<target, newlabel>::label_replace] *)
Fixpoint label_replace (target newlabel : label) (l : label) : outcome label :=
  match l with
  | LMin a b =>
      a' ← label_replace target newlabel a; b' ← label_replace target newlabel b;
      resolve (LMin a' b')
  | _ => Ok (if decide (l = target) then newlabel else l)
  end.

(** The [_replace] overloads, for a given treatment of labels *)
Section replace.
Variable on_label : label -> outcome label.

Fixpoint replace_expr (e : expr) : outcome expr :=
  match e with
  | EVar l y v => l' ← on_label l; Ok (EVar l' y v)
  | EField l y s f => l' ← on_label l; s' ← replace_expr s; Ok (EField l' y s' f)
  | EConst i => Ok (EConst i)
  | EBinOp l y op L R =>
      l' ← on_label l; L' ← replace_expr L; R' ← replace_expr R;
      Ok (EBinOp l' y op L' R')
  | EGenerateTombstone _ => Err NoOverload
  | EIsValid l h => l' ← on_label l; h' ← replace_expr h; Ok (EIsValid l' h')
  | EEndorse l y le h =>
      _ ← assert_ok NoOverload (bool_decide (l = le));
      l' ← on_label l; h' ← replace_expr h; Ok (EEndorse l' y le h')
  | EOperation l y n h args =>
      l' ← on_label l; h' ← replace_expr h; args' ← traverse replace_expr args;
      Ok (EOperation l' y n h' args')
  end.

Definition replace_binding (b : binding) : outcome binding :=
  l' ← on_label (b_label b); e' ← replace_expr (b_expr b);
  Ok (Binding l' (b_yield b) (b_var b) e').

Fixpoint replace_stmt (s : stmt) : outcome stmt :=
  match s with
  | SLet l b e =>
      l' ← on_label l; b' ← replace_binding b; e' ← replace_stmt e; Ok (SLet l' b' e')
  | SLetRemote l b e =>
      l' ← on_label l; b' ← replace_binding b; e' ← replace_stmt e;
      Ok (SLetRemote l' b' e')
  | SOperation l n h args =>
      l' ← on_label l; h' ← replace_expr h; args' ← traverse replace_expr args;
      Ok (SOperation l' n h' args')
  | SAssignment l v e =>
      l' ← on_label l; v' ← replace_expr v; e' ← replace_expr e;
      Ok (SAssignment l' v' e')
  | SReturn l e => l' ← on_label l; e' ← replace_expr e; Ok (SReturn l' e')
  | SWriteTombstone _ _ | SAccompanyWrite _ _ => Err NoOverload
  | SIf l c t e =>
      l' ← on_label l; c' ← replace_expr c; t' ← replace_stmt t; e' ← replace_stmt e;
      Ok (SIf l' c' t' e')
  | SWhile l c e name =>
      _ ← assert_ok NoOverload (bool_decide (name = ""%string));
      l' ← on_label l; c' ← replace_expr c; e' ← replace_stmt e;
      Ok (SWhile l' c' e' ""%string)
  | SSequence l ss => l' ← on_label l; ss' ← traverse replace_stmt ss; Ok (SSequence l' ss')
  end.
End replace.

(** [replace_label<target, newlabel>::replace] *)
Definition replace_label (target newlabel : label) (ast : stmt) : outcome stmt :=
  replace_stmt (label_replace target newlabel) ast.

(** ** Solving *)

(** [substitution<newl, oldl>] *)
Record substitution : Type := Substitution { newl : label; oldl : label }.

Record replace_all_less_than_ret : Type := Ret {
  ret_ast : stmt; ret_constraints : list constraint; ret_substitutions : list substitution }.

(** The four overloads of [replace_all_less_than]: no constraint left; one
    from [lbl] to a temporary; one from [lbl] to a complete label; one from
    elsewhere, kept for that label's turn. *)
Fixpoint replace_all_less_than_fuel (fuel : nat) (ast : stmt) (lbl : label)
    (cs : list constraint) : outcome replace_all_less_than_ret :=
  match fuel with
  | 0%nat => Err OutOfFuel
  | S fuel =>
      match cs with
      | [] => Ok (Ret ast [] [])
      | c :: rest =>
          if decide (high c = lbl) then
            match low c with
            | LTemp to1 to2 =>
                _ ← assert_ok StaticAssert (negb (bool_decide (lbl = LTemp to1 to2)));
                new_ast ← replace_label (LTemp to1 to2) lbl ast;
                sorted ← sort_constraints (substitute lbl (LTemp to1 to2) rest);
                r ← replace_all_less_than_fuel fuel new_ast lbl sorted;
                Ok (Ret (ret_ast r)
                  (minimize_constraints
                     (must_flow_to lbl lbl "this seems wrong" :: ret_constraints r))
                  (ret_substitutions r ++ [Substitution lbl (LTemp to1 to2)]))
            | to =>
                r ← replace_all_less_than_fuel fuel ast lbl rest;
                ok ← flows_to lbl to;
                _ ← assert_ok FlowViolation ok;
                Ok (Ret (ret_ast r) (minimize_constraints (c :: ret_constraints r))
                  (ret_substitutions r))
            end
          else
            r ← replace_all_less_than_fuel fuel ast lbl rest;
            Ok (Ret (ret_ast r) (minimize_constraints (c :: ret_constraints r))
              (ret_substitutions r))
      end
  end.

(** Each recursion is on one constraint less. *)
Definition replace_all_less_than (ast : stmt) (lbl : label) (cs : list constraint)
    : outcome replace_all_less_than_ret :=
  replace_all_less_than_fuel (S (length cs)) ast lbl cs.

Fixpoint infer_labels_helper1 (ast : stmt) (cs : list constraint) (labels : list label)
    : outcome (stmt * list constraint) :=
  match labels with
  | [] => Ok (ast, cs)
  | label1 :: labels =>
      sorted ← sort_constraints cs;
      pair ← replace_all_less_than ast label1 sorted;
      infer_labels_helper1 (ret_ast pair) (ret_constraints pair) labels
  end.

Definition infer_labels (ast : stmt) : outcome stmt :=
  real_labels ← collect_proper_labels ast;
  collected ← collect_constraints top ast;
  collapsed ← collapse_constraints collected;
  r ← infer_labels_helper1 ast (minimize_constraints collapsed) real_labels;
  Ok (fst r).

End inference.

(** The sample program: [x] becomes causal, the least trusted source. *)
Example infer_sample : infer_labels sample = Ok
  (SLet strong (Binding causal TInt "x" (EVar strong TInt "a"))
    (SSequence top
      [SAssignment causal (EVar causal TInt "x") (EVar causal TInt "b");
       SReturn bottom (EVar causal TInt "x")])).
Proof. vm_compute. reflexivity. Qed.
