(* ===== verification/InferenceSound.v ===== *)
(** * Soundness of label inference

    What [LabelInference] guarantees of its solution: every constraint whose
    source ends at a label of the program holds after the substitution, every
    recursion ends, and collapsing minima loses nothing. *)
From S2P Require Import Prelude TypeLists Labels TypedAst LabelCollect LabelInference.

(** ** Substitutions *)

(** The label a temporary ends at; the last substitution of the list is the
    one the pass performed first. *)
Definition subst_label (subs : list substitution) (l : label) : label :=
  foldr (fun s l => if decide (l = oldl s) then newl s else l) l subs.

(** The tree after the same replacements. *)
Definition apply_substitutions `{UserLabels} (subs : list substitution) (ast : stmt)
    : outcome stmt :=
  foldr (fun s r => ast ← r; replace_label (oldl s) (newl s) ast) (Ok ast) subs.

Lemma subst_label_app s1 s2 l : subst_label (s1 ++ s2) l = subst_label s1 (subst_label s2 l).
Proof. unfold subst_label. by rewrite foldr_app. Qed.

Lemma apply_substitutions_app `{UserLabels} s1 s2 ast :
  apply_substitutions (s1 ++ s2) ast
  = (ast ← apply_substitutions s2 ast; apply_substitutions s1 ast).
Proof.
  induction s1 as [|s s1 IH]; simpl.
  - unfold apply_substitutions at 1. simpl. fold (apply_substitutions s2 ast).
    by destruct (apply_substitutions s2 ast).
  - rewrite IH. by destruct (apply_substitutions s2 ast).
Qed.

(** Every substitution replaces a temporary by [lbl]. *)
Definition subs_to (lbl : label) (subs : list substitution) : Prop :=
  Forall (fun s => newl s = lbl /\ is_temp_label (oldl s) = true) subs.

Lemma subst_label_real lbl subs l : subs_to lbl subs -> is_temp_label l = false ->
  subst_label subs l = l.
Proof.
  intros Hs Hl. induction Hs as [|s subs [_ Ho] Hs IH]; simpl; [done|].
  rewrite IH. case_decide; [|done]. subst. congruence.
Qed.

Lemma subst_label_cases lbl subs l : subs_to lbl subs ->
  subst_label subs l = l \/ is_temp_label l = true /\ subst_label subs l = lbl.
Proof.
  intros Hs. destruct (is_temp_label l) eqn:Ht; [|left; by eapply subst_label_real].
  induction Hs as [|s subs [Hn Ho] Hs IH]; simpl; [by left|].
  case_decide; [by right|done].
Qed.

(** ** Constraint lists *)

Section lists.
Context `{UserLabels} `{TypeListLaws}.

Lemma elem_of_remove_reflexive cs c :
  c ∈ remove_reflexive_constraints cs <-> c ∈ cs /\ high c <> low c.
Proof.
  induction cs as [|d cs IH]; simpl; [by rewrite elem_of_nil; naive_solver|].
  case_decide; rewrite ?elem_of_cons, IH; naive_solver.
Qed.

Lemma elem_of_minimize cs c :
  c ∈ minimize_constraints cs <-> c ∈ cs /\ high c <> low c.
Proof. unfold minimize_constraints. by rewrite elem_of_remove_reflexive, elem_of_typeset_of. Qed.

(** Constraints from temporaries come after all others. *)
Definition temps_last (cs : list constraint) : Prop :=
  StronglySorted (fun x y => is_temp_label (high x) = true -> is_temp_label (high y) = true) cs.

Lemma sort_temps_last cs cs' : sort_constraints cs = Ok cs' -> temps_last cs'.
Proof.
  intros Hs%typelist_sort_sorted. apply Sorted_StronglySorted; [intros x y z; auto|].
  induction Hs as [|x l Hs IH Hh]; constructor; [done|].
  inversion Hh as [|y ? Hxy]; subst; constructor. intros Hx.
  destruct (is_temp_label (high y)) eqn:Hy; [done|]. unfold lte in Hxy.
  destruct Hxy as [Hxy|Hxy]; outcome_inv; rewrite Hx, Hy in *; congruence.
Qed.

Lemma sort_elem cs cs' c : sort_constraints cs = Ok cs' -> c ∈ cs' <-> c ∈ cs.
Proof. apply typelist_sort_elem. Qed.

Lemma sort_length cs cs' : sort_constraints cs = Ok cs' -> length cs' = length cs.
Proof. apply typelist_sort_length. Qed.
End lists.

(** ** One label *)

Section one_label.
Context `{UserLabels} `{TypeListLaws}.
Implicit Types (c : constraint) (cs : list constraint).

(** A call that meets no constraint from [lbl] substitutes nothing. *)
Lemma no_match_no_substitution fuel ast lbl cs r :
  Forall (fun c => high c <> lbl) cs ->
  replace_all_less_than_fuel fuel ast lbl cs = Ok r -> ret_substitutions r = [].
Proof.
  intros Hcs. revert fuel ast r. induction Hcs as [|c cs Hc Hcs IH];
    intros [|fuel] ast r Hr; cbn [replace_all_less_than_fuel] in Hr; try done.
  - by outcome_inv.
  - rewrite decide_False in Hr by done. outcome_inv. simpl. by eapply IH.
Qed.

(** The fate of a constraint in the call for [lbl]. *)
Definition settled (lbl : label) (subs : list substitution) (out : list constraint) c : Prop :=
  let h := subst_label subs (high c) in
  let l := subst_label subs (low c) in
  h = l \/
  (h = lbl /\ flows_to lbl l = Ok true /\ is_temp_label l = false) \/
  (l = lbl /\ h <> lbl) \/
  (h <> lbl /\ exists c', c' ∈ out /\ high c' = h /\ low c' = l).

Lemma settled_minimize lbl subs out c0 c :
  settled lbl subs out c -> settled lbl subs (minimize_constraints (c0 :: out)) c.
Proof.
  unfold settled. intros [?|[?|[?|(Hh & c' & Hc' & Hhi & Hlo)]]]; [tauto..|].
  destruct (decide (subst_label subs (high c) = subst_label subs (low c))) as [|Hne]; [tauto|].
  do 3 right. split; [done|]. exists c'. split; [|done].
  apply elem_of_minimize. split; [by right|congruence].
Qed.

Lemma settled_substitute lbl subs out t1 t2 c :
  settled lbl subs out (constraint_substitute lbl (LTemp t1 t2) c) ->
  settled lbl (subs ++ [Substitution lbl (LTemp t1 t2)]) out c.
Proof.
  unfold settled. rewrite !subst_label_app. simpl.
  assert (Hd : forall l : label, (if decide (LTemp t1 t2 = l) then lbl else l)
                = (if decide (l = LTemp t1 t2) then lbl else l)).
  { intros l. by do 2 case_decide. }
  by rewrite !Hd.
Qed.

Lemma replace_all_settles fuel ast lbl cs r :
  is_temp_label lbl = false -> temps_last cs ->
  replace_all_less_than_fuel fuel ast lbl cs = Ok r ->
  subs_to lbl (ret_substitutions r) /\
  apply_substitutions (ret_substitutions r) ast = Ok (ret_ast r) /\
  forall c, c ∈ cs -> settled lbl (ret_substitutions r) (ret_constraints r) c.
Proof.
  intros Hlbl. revert ast cs r. induction fuel as [|fuel IH]; intros ast cs r Hts Hr; [done|].
  cbn [replace_all_less_than_fuel] in Hr. destruct cs as [|c cs].
  { outcome_inv. simpl. split_and!; [constructor|done|]. intros c Hc. by apply elem_of_nil in Hc. }
  inversion Hts as [|? ? Hts' Hall]; subst. case_decide as Hhi.
  - destruct (is_temp_label (low c)) eqn:Hlo.
    + destruct (low c) as [|t1 t2| |] eqn:Hlow; try done. outcome_inv.
      match goal with Hrec : replace_all_less_than_fuel _ _ _ _ = Ok ?r' |- _ =>
        destruct (IH _ _ _ (sort_temps_last _ _ ltac:(eassumption)) Hrec) as (Hs & Ha & Hset) end.
      simpl. split_and!.
      * apply Forall_app. split; [done|]. by repeat constructor.
      * rewrite apply_substitutions_app.
        unfold apply_substitutions at 2. simpl.
        match goal with Hrep : replace_label _ _ _ = Ok _ |- _ => rewrite Hrep end. done.
      * intros c' Hc'. apply settled_minimize, settled_substitute.
        apply elem_of_cons in Hc' as [->|Hc'].
        { left. unfold constraint_substitute. cbn [high low].
          rewrite (decide_True _ _ (eq_sym Hlow)). by destruct (decide _). }
        apply Hset. erewrite sort_elem by eassumption. by apply list_elem_of_fmap_2.
    + assert (Hr' : exists r', replace_all_less_than_fuel fuel ast lbl cs = Ok r' /\
        flows_to lbl (low c) = Ok true /\
        r = Ret (ret_ast r') (minimize_constraints (c :: ret_constraints r')) (ret_substitutions r')).
      { destruct (low c); try done; outcome_inv; eauto. }
      destruct Hr' as (r' & Hrec & Hfl & ->). simpl.
      destruct (IH _ _ _ Hts' Hrec) as (Hs & Ha & Hset). split_and!; [done|done|].
      intros c' Hc'. apply settled_minimize. apply elem_of_cons in Hc' as [->|Hc']; [|auto].
      right. left. rewrite Hhi, !(subst_label_real lbl) by done. done.
  - outcome_inv. simpl. destruct (IH _ _ _ Hts' ltac:(eassumption)) as (Hs & Ha & Hset).
    split_and!; [done|done|]. intros c' Hc'.
    apply elem_of_cons in Hc' as [->|Hc']; [|by apply settled_minimize, Hset].
    assert (Hh : subst_label (ret_substitutions x) (high c) = high c).
    { destruct (is_temp_label (high c)) eqn:Ht; [|by apply (subst_label_real lbl)].
      erewrite (no_match_no_substitution fuel ast lbl cs x); [done| |eassumption].
      eapply Forall_impl; [exact Hall|]. intros d Hd Heq. specialize (Hd eq_refl). congruence. }
    unfold settled. rewrite Hh.
    destruct (subst_label_cases lbl (ret_substitutions x) (low c) Hs) as [Hl|[_ Hl]]; rewrite Hl.
    + destruct (decide (high c = low c)) as [|Hne]; [by left|]. do 3 right. split; [done|].
      exists c. split; [|done]. apply elem_of_minimize. split; [by left|done].
    + right. right. by left.
Qed.
End one_label.

(** ** All labels *)

Section all_labels.
Context `{LabelOrder D} `{!TypeLists} `{!TypeListLaws}.
Implicit Types (c : constraint) (cs : list constraint) (P : list label).

Definition substitution_to (ls : list label) (subs : list substitution) : Prop :=
  Forall (fun s => newl s ∈ ls /\ is_temp_label (oldl s) = true) subs.

(** The state of an original constraint once the labels [P] are done, [subs]
    has been applied and [cs] is left. *)
Definition progress P subs cs c : Prop :=
  let h := subst_label subs (high c) in
  let l := subst_label subs (low c) in
  h = l \/
  (h ∈ P /\ flows_to h l = Ok true /\ is_temp_label l = false) \/
  (l ∈ P /\ h ∉ P) \/
  ((h ∉ P) /\ exists c', c' ∈ cs /\ high c' = h /\ low c' = l).

(** [lbl] flows to every label handled before it. *)
Lemma progress_step P subs cs lbl subs' cs' c :
  is_temp_label lbl = false ->
  (forall p, p ∈ P -> is_temp_label p = false /\ flows_to lbl p = Ok true) ->
  subs_to lbl subs' -> (forall c', c' ∈ cs -> settled lbl subs' cs' c') ->
  progress P subs cs c -> progress (P ++ [lbl]) (subs' ++ subs) cs' c.
Proof.
  intros Hlbl HP Hs Hset Hc. unfold progress. rewrite !subst_label_app.
  assert (Hin : forall x, x ∈ P ++ [lbl] <-> x ∈ P \/ x = lbl).
  { intros x. by rewrite elem_of_app, list_elem_of_singleton. }
  assert (Hreal : forall x, is_temp_label x = false -> subst_label subs' x = x).
  { intros x. by apply (subst_label_real lbl). }
  rewrite !Hin. unfold progress in Hc.
  destruct Hc as [Heq|[(HhP & Hf & Hl)|[[HlP HhP]|(HhP & c' & Hc' & Hhi & Hlo)]]].
  - left. congruence.
  - right. left. rewrite (Hreal _ Hl), Hreal by by apply HP. tauto.
  - destruct (HP _ HlP) as [Hl Hfl]. rewrite (Hreal _ Hl).
    destruct (subst_label_cases lbl subs' (subst_label subs (high c)) Hs) as [Hh|[_ Hh]];
      rewrite Hh; [|right; left; tauto].
    destruct (decide (subst_label subs (high c) = lbl)) as [->|Hne]; [right; left; tauto|].
    right. right. left. tauto.
  - rewrite <- Hhi, <- Hlo in *.
    destruct (subst_label_cases lbl subs' (high c') Hs) as [Hh|[_ Hh]].
    + destruct (Hset c' Hc') as [?|[(? & ? & ?)|[[? ?]|(? & ?)]]]; rewrite ?Hh in *; subst.
      * by left.
      * right. left. tauto.
      * do 2 right. left. tauto.
      * do 3 right. tauto.
    + destruct (Hset c' Hc') as [?|[(? & ? & ?)|[[? ?]|(? & ?)]]]; rewrite ?Hh in *; try done.
      * by left.
      * right. left. tauto.
Qed.

(** The substitutions of all calls; the ones performed first come last. *)
Inductive infer_run : stmt -> list constraint -> list label -> list substitution ->
    stmt * list constraint -> Prop :=
| run_done ast cs : infer_run ast cs [] [] (ast, cs)
| run_label ast cs lbl labels sorted r subs res :
    sort_constraints cs = Ok sorted -> replace_all_less_than ast lbl sorted = Ok r ->
    infer_run (ret_ast r) (ret_constraints r) labels subs res ->
    infer_run ast cs (lbl :: labels) (subs ++ ret_substitutions r) res.

Lemma infer_helper_run ast cs labels res : infer_labels_helper1 ast cs labels = Ok res ->
  exists subs, infer_run ast cs labels subs res.
Proof.
  revert ast cs. induction labels as [|lbl labels IH]; intros ast cs Hr;
    cbn [infer_labels_helper1] in Hr; outcome_inv; [eexists; constructor|].
  destruct (IH _ _ Hr) as [subs Hrun]. eexists. by econstructor.
Qed.

Lemma infer_run_progress ast cs labels P subs run ast0 ast' cs' (all : list constraint) :
  Forall (fun l => is_temp_label l = false) (P ++ labels) ->
  StronglySorted (fun x y => x <> y /\ flows_to y x = Ok true) (P ++ labels) ->
  substitution_to P subs -> apply_substitutions subs ast0 = Ok ast ->
  Forall (progress P subs cs) all ->
  infer_run ast cs labels run (ast', cs') ->
  substitution_to (P ++ labels) (run ++ subs) /\
    apply_substitutions (run ++ subs) ast0 = Ok ast' /\
    Forall (progress (P ++ labels) (run ++ subs) cs') all.
Proof.
  intros Ht Hso Hs Ha Hall Hr. remember (ast', cs') as res eqn:Hres. revert P subs Ht Hso Hs Ha Hall Hres.
  induction Hr as [ast cs|ast cs lbl labels sorted r run res Hsort Hcall Hr IH];
    intros P subs Ht Hso Hs Ha Hall Hres.
  { injection Hres as -> ->. rewrite app_nil_r in *. eauto. }
  assert (Hlbl : is_temp_label lbl = false).
  { rewrite Forall_app, Forall_cons in Ht. tauto. }
  assert (HP : forall p, p ∈ P -> is_temp_label p = false /\ flows_to lbl p = Ok true).
  { intros p Hp. split.
    - apply Forall_app in Ht as [Ht _]. by apply (proj1 (Forall_forall _ _) Ht).
    - clear -Hso Hp. induction P as [|q P IHP]; [by apply elem_of_nil in Hp|].
      inversion Hso as [|? ? Hso' Hall]; subst. apply elem_of_cons in Hp as [->|Hp]; [|auto].
      rewrite Forall_forall in Hall. apply Hall. apply elem_of_app. right. by left. }
  unfold replace_all_less_than in *.
  destruct (replace_all_settles _ _ _ _ _ Hlbl (sort_temps_last _ _ Hsort) Hcall)
    as (Hs' & Ha' & Hset).
  assert (Hsplit : P ++ lbl :: labels = (P ++ [lbl]) ++ labels) by by rewrite <- app_assoc.
  rewrite <- (app_assoc run). rewrite Hsplit in *. apply IH; [done|done| | | |exact Hres].
  - apply Forall_app. split.
    + eapply Forall_impl; [exact Hs'|]. intros s [<- ?]. split; [|done].
      apply elem_of_app. right. by left.
    + eapply Forall_impl; [exact Hs|]. intros s [? ?]. split; [|done].
      apply elem_of_app. by left.
  - rewrite apply_substitutions_app, Ha. done.
  - eapply Forall_impl; [exact Hall|]. intros c. apply progress_step; [done..|].
    intros c' Hc'. apply Hset. by erewrite sort_elem by eassumption.
Qed.

(** What a solution gives: [h] flows to [l] *)
Lemma progress_done P subs cs c : Forall D P ->
  (forall p, p ∈ P -> is_temp_label p = false) ->
  progress P subs cs c -> subst_label subs (high c) ∈ P ->
  flows_to (subst_label subs (high c)) (subst_label subs (low c)) = Ok true /\
  is_temp_label (subst_label subs (low c)) = false.
Proof.
  intros HD HP Hc Hh. rewrite Forall_forall in HD.
  destruct Hc as [Heq|[(_ & ? & ?)|[[? ?]|(? & ?)]]]; try done.
  rewrite <- Heq. split; [apply flows_refl; auto|auto].
Qed.
End all_labels.

(** ** Splitting minima *)

Fixpoint leaves (l : label) : list label :=
  match l with LMin a b => leaves a ++ leaves b | _ => [l] end.

Section collapse.
Context `{UserLabels}.
Implicit Types (c : constraint) (cs : list constraint).

Lemma label_size_pos l : 0 < label_size l.
Proof. destruct l; simpl; lia. Qed.

Lemma collapse_fuel_enough n m cs : collapse_measure cs < n -> collapse_measure cs < m ->
  collapse_constraints_fuel n cs = collapse_constraints_fuel m cs.
Proof.
  revert m cs. induction n as [|n IH]; intros [|m] cs Hn Hm; [lia..|].
  destruct cs as [|[from to w] rest]; [done|]. cbn [collapse_constraints_fuel].
  unfold collapse_measure in Hn, Hm. simpl in Hn, Hm.
  pose proof (label_size_pos from).
  destruct from as [| |l r|].
  all: try (rewrite (IH m rest); [done|unfold collapse_measure; simpl in *; lia..]).
  apply IH; unfold collapse_measure; simpl in *; lia.
Qed.

(** The recursion as the source writes it *)
Lemma collapse_unfold cs :
  collapse_constraints cs =
    match cs with
    | [] => Ok []
    | must_flow_to (LMin l r) to w :: rest =>
        collapse_constraints (must_flow_to l to w :: must_flow_to r to w :: rest)
    | must_flow_to from to w :: rest =>
        to' ← collapse_target to;
        rest' ← collapse_constraints rest;
        Ok (must_flow_to from to' w :: rest')
    end.
Proof.
  unfold collapse_constraints at 1. destruct cs as [|[from to w] rest]; [done|].
  cbn [collapse_constraints_fuel]. pose proof (label_size_pos from).
  destruct from as [| |l r|].
  all: try (rewrite (collapse_fuel_enough _ (S (collapse_measure rest)) rest);
    [done|unfold collapse_measure; simpl in *; lia..]).
  apply collapse_fuel_enough; unfold collapse_measure; simpl in *; lia.
Qed.

Lemma collapse_fuel_spec n cs cs' : collapse_constraints_fuel n cs = Ok cs' ->
  forall c', c' ∈ cs' <->
    exists c, c ∈ cs /\ high c' ∈ leaves (high c) /\
      collapse_target (low c) = Ok (low c') /\ why c' = why c.
Proof.
  revert cs cs'. induction n as [|n IH]; intros cs cs' Hr c'; [done|].
  destruct cs as [|[from to w] rest]; cbn [collapse_constraints_fuel] in Hr.
  { outcome_inv. setoid_rewrite elem_of_nil. naive_solver. }
  assert (Hmin : (exists l r, from = LMin l r) \/ leaves from = [from] /\ exists to' rest',
    collapse_target to = Ok to' /\ collapse_constraints_fuel n rest = Ok rest' /\
    cs' = must_flow_to from to' w :: rest').
  { destruct from; [right|right|left; eauto|right]; outcome_inv; eauto 10. }
  destruct Hmin as [(l & r & ->)|(Hl & to' & rest' & Ht & Hrest & ->)].
  - rewrite (IH _ _ Hr c'). setoid_rewrite elem_of_cons. simpl. split.
    + intros (c & [->|Hc] & Hh & Ht); simpl in *.
      * eexists; split; [by left|]. simpl. rewrite elem_of_app. tauto.
      * apply elem_of_cons in Hc as [->|Hc]; simpl in *.
        -- eexists; split; [by left|]. simpl. rewrite elem_of_app. tauto.
        -- exists c. tauto.
    + intros (c & [->|Hc] & Hh & Ht); simpl in *.
      * apply elem_of_app in Hh as [Hh|Hh].
        -- eexists; split; [by left|]. done.
        -- eexists; split; [right; by left|]. done.
      * exists c. split; [by do 2 right|done].
  - setoid_rewrite elem_of_cons. rewrite (IH _ _ Hrest c'). split.
    + intros [->|(c & Hc & Hh)]; [|exists c; tauto].
      exists (must_flow_to from to w). split; [by left|]. simpl. rewrite Hl.
      split; [by left|done].
    + intros (c & [->|Hc] & Hh & Htt & Hw); simpl in *; [|right; eauto].
      left. rewrite Hl in Hh. apply list_elem_of_singleton in Hh.
      destruct c'; simpl in *. congruence.
Qed.

Lemma collapse_spec cs cs' c' : collapse_constraints cs = Ok cs' ->
  c' ∈ cs' <-> exists c, c ∈ cs /\ high c' ∈ leaves (high c) /\
    collapse_target (low c) = Ok (low c') /\ why c' = why c.
Proof. intros Hc. by apply (collapse_fuel_spec _ _ _ Hc). Qed.

Lemma collapse_keeps cs cs' c a : collapse_constraints cs = Ok cs' -> c ∈ cs ->
  a ∈ leaves (high c) ->
  exists t, collapse_target (low c) = Ok t /\ must_flow_to a t (why c) ∈ cs'.
Proof.
  unfold collapse_constraints. generalize (S (collapse_measure cs)) as n. intros n.
  revert cs cs' c. induction n as [|n IH]; intros cs cs' c Hr Hc Ha; [done|].
  destruct cs as [|[from to w] rest]; cbn [collapse_constraints_fuel] in Hr;
    [by apply elem_of_nil in Hc|].
  destruct from as [s|x y|l r|p].
  3: { apply elem_of_cons in Hc as [->|Hc].
       - simpl in Ha. apply elem_of_app in Ha as [Ha|Ha].
         + apply (IH _ _ (must_flow_to l to w) Hr); [by left|done].
         + apply (IH _ _ (must_flow_to r to w) Hr); [by right; left|done].
       - apply (IH _ _ c Hr); [by do 2 right|done]. }
  all: outcome_inv; apply elem_of_cons in Hc as [->|Hc];
    [simpl in Ha; apply list_elem_of_singleton in Ha as ->; eexists; split; [done|by left]
    |destruct (IH _ _ _ ltac:(eassumption) Hc Ha) as (t & ? & ?); exists t; split; [done|by right]].
Qed.
End collapse.

Section collapse_target.
Context `{LabelOrder D} (Dc : forall l, D l -> concrete l = true).

(** Complete labels come from [D]; the others are temporaries. *)
Definition in_scope (l : label) : Prop :=
  forall a, a ∈ leaves l -> is_temp_label a = true \/ D a.

Lemma in_scope_min a b : in_scope (LMin a b) <-> in_scope a /\ in_scope b.
Proof using Type. unfold in_scope. simpl. setoid_rewrite elem_of_app. naive_solver. Qed.

(** [t] is the least complete leaf of [l]. *)
Definition least_concrete (l t : label) : Prop :=
  t ∈ leaves l /\ D t /\ forall x, x ∈ leaves l -> D x -> flows_to x t = Ok true.

Lemma D_not_temp l : D l -> is_temp_label l = false.
Proof using Dc. intros Hl%Dc. by destruct l. Qed.

Lemma less_than_concrete a b : D a -> D b -> less_than a b = flows_to b a.
Proof using Dc. intros Ha%Dc Hb%Dc. by destruct a, b. Qed.

Lemma pick_concrete a b : D a -> D b ->
  exists t, pick_min_match (Some a) (Some b) = Ok (Some t) /\ (t = a \/ t = b) /\
    flows_to a t = Ok true /\ flows_to b t = Ok true.
Proof using Type*.
  intros Ha Hb. assert (pick_min_match (Some a) (Some b) =
    (lt ← less_than a b; Ok (Some (if (lt : bool) then a else b)))) as ->.
  { pose proof (Dc a Ha). by destruct a. }
  rewrite less_than_concrete by done. destruct (flows_defined b a Hb Ha) as [[] Hr]; rewrite Hr; simpl.
  - exists a. split_and!; auto. by apply flows_refl.
  - exists b. destruct (flows_total b a Hb Ha) as [?|?]; [congruence|].
    split_and!; auto. by apply flows_refl.
Qed.

Lemma find_concrete_spec l found : in_scope l -> find_concrete_label l = Ok found ->
  match found with
  | Some t => least_concrete l t
  | None => is_temp_label l = true
  end.
Proof using Type*.
  revert found. induction l as [s|x y|l IHl r IHr|l _]; intros found Hs Hf;
    cbn [find_concrete_label] in Hf.
  1, 4: outcome_inv; destruct (Hs _ (list_elem_of_here _ _)) as [?|HD]; [done|];
    split_and!; [by left|done|]; intros x Hx ?; apply list_elem_of_singleton in Hx as ->;
    by apply flows_refl.
  { by outcome_inv. }
  apply in_scope_min in Hs as [Hsl Hsr]. outcome_inv.
  match goal with Hp : pick_min_match ?a ?b = _ |- _ => rename Hp into Hpick;
    destruct a as [tl|], b as [tr|] end.
  - destruct (IHl _ Hsl ltac:(done)) as (Hinl & HDl & Hlel).
    destruct (IHr _ Hsr ltac:(done)) as (Hinr & HDr & Hler).
    destruct (pick_concrete tl tr HDl HDr) as (t & Hp & Ht & Hlt & Hrt).
    rewrite Hp in Hpick. injection Hpick as <-. assert (HDt : D t) by by destruct Ht; subst.
    unfold least_concrete. simpl. setoid_rewrite elem_of_app.
    split_and!; [destruct Ht; subst; tauto|done|]. intros x [Hx|Hx] HDx.
    + apply (flows_trans x tl t); auto.
    + apply (flows_trans x tr t); auto.
  - destruct (IHl _ Hsl ltac:(done)) as (Hinl & HDl & Hlel).
    pose proof (IHr _ Hsr ltac:(done)) as Htr. destruct r as [|u v| |]; try done.
    simpl in Hpick. assert (found = Some tl) as ->.
    { destruct tl; try congruence; by apply Dc in HDl. }
    unfold least_concrete. simpl. setoid_rewrite elem_of_app. split_and!; [tauto|done|].
    intros x [Hx|Hx] HDx; [auto|]. apply list_elem_of_singleton in Hx as ->.
    by apply D_not_temp in HDx.
  - destruct (IHr _ Hsr ltac:(done)) as (Hinr & HDr & Hler).
    pose proof (IHl _ Hsl ltac:(done)) as Htl. destruct l as [|u v| |]; try done.
    simpl in Hpick. injection Hpick as <-.
    unfold least_concrete. simpl. setoid_rewrite elem_of_cons. split_and!; [tauto|done|].
    intros x [->|Hx] HDx; [by apply D_not_temp in HDx|auto].
  - simpl in Hpick. injection Hpick as <-.
    match goal with Hb : bool_decide _ = true |- _ => by apply bool_decide_eq_true in Hb end.
Qed.

(** A constraint keeps its target unless that is a minimum, of which the
    least complete label remains. *)
Lemma collapse_target_spec l t : in_scope l -> collapse_target l = Ok t ->
  if is_min_of l then least_concrete l t else t = l.
Proof using Type*.
  intros Hs Ht. unfold collapse_target in Ht. outcome_inv.
  match goal with Hf : find_concrete_label _ = Ok ?f |- _ =>
    pose proof (find_concrete_spec _ _ Hs Hf) as Hfound; destruct f as [u|] end.
  - destruct l as [s|i j|a b|p]; simpl in *.
    + destruct Hfound as (Hin & HD & _). apply list_elem_of_singleton in Hin as ->.
      outcome_inv. destruct x; simpl in *; by outcome_inv.
    + destruct Hfound as (Hin & HD & _). apply list_elem_of_singleton in Hin as ->.
      by apply D_not_temp in HD.
    + by outcome_inv.
    + destruct Hfound as (Hin & HD & _). apply list_elem_of_singleton in Hin as ->.
      outcome_inv. destruct x; simpl in *; by outcome_inv.
  - destruct l; try done. simpl in *. by outcome_inv.
Qed.
End collapse_target.

Section solution.
Context `{LabelOrder D} `{!TypeLists} `{!TypeListLaws}.
Context (Dc : forall l, D l -> concrete l = true).

(** A split constraint from [a] to [low c] holds after [subs]. *)
Definition holds_after (subs : list substitution) (c : constraint) (a : label) : Prop :=
  exists t, collapse_target (low c) = Ok t /\
    flows_to (subst_label subs a) (subst_label subs t) = Ok true /\
    is_temp_label (subst_label subs t) = false.

Lemma infer_labels_solution (ast : stmt) ast' : (forall x, mentions ast x -> D x) ->
  infer_labels ast = Ok ast' ->
  exists labels cs subs,
    collect_proper_labels ast = Ok labels /\ collect_constraints top ast = Ok cs /\
    (exists cs1 cs', collapse_constraints cs = Ok cs1 /\
       infer_run ast (minimize_constraints cs1) labels subs (ast', cs')) /\
    substitution_to labels subs /\ apply_substitutions subs ast = Ok ast' /\
    forall c a, c ∈ cs -> a ∈ leaves (high c) -> subst_label subs a ∈ labels ->
      holds_after subs c a.
Proof using Type*.
  intros HD Hi. unfold infer_labels in Hi. outcome_inv.
  rename x into labels, x0 into cs, x1 into cs1, x2 into p. destruct p as [ast' cs'].
  destruct (proper_labels_spec ast labels HD ltac:(done)) as [Hels Hasc].
  assert (HDl : Forall D labels).
  { apply Forall_forall. intros x Hx. by apply HD, Hels. }
  assert (Htl : Forall (fun l => is_temp_label l = false) labels).
  { eapply Forall_impl; [exact HDl|]. intros x Hx. eapply D_not_temp; done. }
  assert (Hinit : Forall (progress [] [] (minimize_constraints cs1)) cs1).
  { apply Forall_forall. intros c Hc. unfold progress. simpl.
    destruct (decide (high c = low c)) as [|Hne]; [by left|]. do 3 right.
    split; [apply not_elem_of_nil|]. exists c. split; [|done].
    by apply elem_of_minimize. }
  destruct (infer_helper_run ast (minimize_constraints cs1) labels (ast', cs') ltac:(done))
    as [subs Hrun].
  destruct (infer_run_progress ast (minimize_constraints cs1) labels [] [] subs ast ast' cs' cs1
    Htl Hasc (Forall_nil_2 _) eq_refl Hinit Hrun) as (Hs & Ha & Hall).
  rewrite app_nil_r in *. simpl in *.
  exists labels, cs, subs. split_and!; [done..|eauto|done|done|]. intros c a Hc Ha' Hin.
  destruct (collapse_keeps cs cs1 c a ltac:(done) Hc Ha') as (t & Ht & Hc1).
  rewrite Forall_forall in Hall. specialize (Hall _ Hc1). simpl in Hall.
  destruct (progress_done (D := D) labels subs cs' _ HDl (proj1 (Forall_forall _ _) Htl) Hall Hin).
  exists t. done.
Qed.
End solution.

(** ** Every recursion ends *)

Section termination.
Context `{UserLabels} `{TypeListLaws}.

Lemma replace_all_fuel_enough n m ast lbl cs : length cs < n -> length cs < m ->
  replace_all_less_than_fuel n ast lbl cs = replace_all_less_than_fuel m ast lbl cs.
Proof.
  revert m ast cs. induction n as [|n IH]; intros [|m] ast cs Hn Hm; [lia..|].
  cbn [replace_all_less_than_fuel]. destruct cs as [|c rest]; [done|]. simpl in Hn, Hm.
  rewrite (IH m ast rest) by lia. case_decide; [|done].
  destruct (low c) as [|t1 t2| |]; [done| |done..].
  destruct (assert_ok _ _); [simpl|done]. destruct (replace_label _ _ _); [simpl|done].
  destruct (sort_constraints _) as [sorted|] eqn:Hsort; [simpl|done].
  rewrite (IH m _ sorted); [done|..];
    apply sort_length in Hsort; unfold substitute in Hsort; rewrite length_fmap in Hsort; lia.
Qed.

Lemma replace_all_fuel_eq n ast lbl cs : length cs < n ->
  replace_all_less_than_fuel n ast lbl cs = replace_all_less_than ast lbl cs.
Proof. intros Hn. unfold replace_all_less_than. apply replace_all_fuel_enough; lia. Qed.

(** the overloads of [collapse_constraints] terminate: the function satisfies
  the source's recursion, which has no fuel and re-enters with a longer list
  whenever it splits a minimum, and any fuel above the measure gives the same
  result. *)
Theorem collapse_constraints_recursion cs extra :
  collapse_constraints cs =
    match cs with
    | [] => Ok []
    | must_flow_to (LMin l r) to w :: rest =>
        collapse_constraints (must_flow_to l to w :: must_flow_to r to w :: rest)
    | must_flow_to from to w :: rest =>
        to' ← collapse_target to;
        rest' ← collapse_constraints rest;
        Ok (must_flow_to from to' w :: rest')
    end /\
  collapse_constraints_fuel (S (collapse_measure cs) + extra) cs = collapse_constraints cs.
Proof. split; [apply collapse_unfold|apply collapse_fuel_enough; lia]. Qed.

(** [replace_all_less_than] terminates, although it recurses on a list that
  was substituted into and sorted again: it satisfies the recursion of the
  source's four overloads with no fuel. *)
Theorem replace_all_less_than_recursion ast lbl cs :
  replace_all_less_than ast lbl cs =
    match cs with
    | [] => Ok (Ret ast [] [])
    | c :: rest =>
        if decide (high c = lbl) then
          match low c with
          | LTemp to1 to2 =>
              _ ← assert_ok StaticAssert (negb (bool_decide (lbl = LTemp to1 to2)));
              new_ast ← replace_label (LTemp to1 to2) lbl ast;
              sorted ← sort_constraints (substitute lbl (LTemp to1 to2) rest);
              r ← replace_all_less_than new_ast lbl sorted;
              Ok (Ret (ret_ast r)
                (minimize_constraints
                   (must_flow_to lbl lbl "this seems wrong" :: ret_constraints r))
                (ret_substitutions r ++ [Substitution lbl (LTemp to1 to2)]))
          | to =>
              r ← replace_all_less_than ast lbl rest;
              ok ← flows_to lbl to;
              _ ← assert_ok FlowViolation ok;
              Ok (Ret (ret_ast r) (minimize_constraints (c :: ret_constraints r))
                (ret_substitutions r))
          end
        else
          r ← replace_all_less_than ast lbl rest;
          Ok (Ret (ret_ast r) (minimize_constraints (c :: ret_constraints r))
            (ret_substitutions r))
    end.
Proof.
  unfold replace_all_less_than at 1. destruct cs as [|c rest]; [done|].
  cbn [replace_all_less_than_fuel].
  rewrite (replace_all_fuel_eq _ ast lbl rest) by (simpl; lia).
  case_decide; [|done]. destruct (low c) as [|t1 t2| |]; try done.
  destruct (assert_ok _ _); [cbn [mbind outcome_bind]|done]. destruct (replace_label _ _ _); [cbn [mbind outcome_bind]|done].
  destruct (sort_constraints _) as [sorted|] eqn:Hsort; [cbn [mbind outcome_bind]|done].
  rewrite replace_all_fuel_eq; [done|]. cbn [length].
  apply sort_length in Hsort. unfold substitute in Hsort. rewrite length_fmap in Hsort. lia.
Qed.
End termination.

Lemma replace_all_less_than_recursion_witness :
  let cs := [must_flow_to causal (LTemp 0 1) "bound expression";
             must_flow_to strong (LTemp 0 1) "assignment"] in
  replace_all_less_than (SSequence (LTemp 0 1) []) causal cs =
    (new_ast ← replace_label (LTemp 0 1) causal (SSequence (LTemp 0 1) []);
     sorted ← sort_constraints (substitute causal (LTemp 0 1) (tail cs));
     r ← replace_all_less_than new_ast causal sorted;
     Ok (Ret (ret_ast r)
       (minimize_constraints
          (must_flow_to causal causal "this seems wrong" :: ret_constraints r))
       (ret_substitutions r ++ [Substitution causal (LTemp 0 1)]))).
Proof. intros cs. exact (replace_all_less_than_recursion _ causal cs). Defined.
