(* ===== verification/InferenceFlow.v ===== *)
(** * Inferred programs are flow safe

    A typing judgement for information flow on complete trees, and the proof
    that the trees [infer_labels] returns satisfy it: no expression, no
    condition and no dereferenced pointer influences a variable or a handle of
    a label it must not flow to. *)
From S2P Require Import Prelude TypeLists Labels TypedAst LabelCollect LabelInference.
From S2P Require Import InferenceSound.

(** ** The judgement *)

Section flow_safe.
Context `{UserLabels}.

Definition flows (a b : label) : Prop := flows_to a b = Ok true.

(** The handle an expression uses may depend on [e] and on the arguments. *)
Definition handle_safe (h : expr) (srcs : list label) : Prop :=
  exists hl, handle_label h = Ok hl /\ forall l, l ∈ srcs -> flows l hl.

Inductive expr_safe : expr -> Prop :=
| safe_var l y v : expr_safe (EVar l y v)
| safe_field l y s f : expr_safe s -> expr_safe (EField l y s f)
| safe_const i : expr_safe (EConst i)
| safe_binop l y op L R : expr_safe L -> expr_safe R -> expr_safe (EBinOp l y op L R)
| safe_valid l h : expr_safe h -> handle_safe h [expr_label h] -> expr_safe (EIsValid l h)
| safe_endorse l y le h : expr_safe h -> expr_safe (EEndorse l y le h)
| safe_operation l y n h args :
    expr_safe h -> Forall expr_safe args ->
    handle_safe h (expr_label h :: (expr_label <$> args)) ->
    expr_safe (EOperation l y n h args).

(** [pcs]: the labels control depends on; they flow to the variables that are bound or
    assigned, but nothing asks that they flow to the handles of operations. *)
Definition binding_safe (pcs : list label) (b : binding) : Prop :=
  expr_safe (b_expr b) /\ flows (expr_label (b_expr b)) (b_label b) /\
  forall p, p ∈ pcs -> flows p (b_label b).

Inductive flow_safe : list label -> stmt -> Prop :=
| safe_let pcs l b s : binding_safe pcs b -> flow_safe pcs s -> flow_safe pcs (SLet l b s)
| safe_let_remote pcs l b s hl :
    handle_label (b_expr b) = Ok hl -> flows (expr_label (b_expr b)) hl ->
    binding_safe (hl :: expr_label (b_expr b) :: pcs) b -> flow_safe pcs s ->
    flow_safe pcs (SLetRemote l b s)
| safe_operation_stmt pcs l n h args :
    expr_safe h -> Forall expr_safe args ->
    handle_safe h (expr_label h :: (expr_label <$> args)) ->
    flow_safe pcs (SOperation l n h args)
| safe_assignment pcs l v e :
    expr_safe v -> expr_safe e -> flows (expr_label e) (expr_label v) ->
    (forall p, p ∈ pcs -> flows p (expr_label v)) ->
    flow_safe pcs (SAssignment l v e)
| safe_return pcs l e : expr_safe e -> flow_safe pcs (SReturn l e)
| safe_if pcs l c t e : expr_safe c -> flow_safe (l :: pcs) t -> flow_safe (l :: pcs) e ->
    flow_safe pcs (SIf l c t e)
| safe_while pcs l c s n : expr_safe c -> flow_safe (l :: pcs) s ->
    flow_safe pcs (SWhile l c s n)
| safe_sequence pcs l ss : Forall (flow_safe pcs) ss -> flow_safe pcs (SSequence l ss).
End flow_safe.

(** ** Replacing several temporaries in one traversal *)

Definition label_apply `{UserLabels} (subs : list substitution) (l : label) : outcome label :=
  foldr (fun s r => l ← r; label_replace (oldl s) (newl s) l) (Ok l) subs.

Section compose.
Context `{UserLabels}.
Variables f g : label -> outcome label.
Definition both (l : label) : outcome label := l' ← f l; g l'.

Lemma both_Ok l l1 l2 : f l = Ok l1 -> g l1 = Ok l2 -> both l = Ok l2.
Proof. intros H1 H2. unfold both. by rewrite H1. Qed.

Lemma traverse_compose {A} (F G K : A -> outcome A) xs ys zs :
  Forall (fun x => forall y z, F x = Ok y -> G y = Ok z -> K x = Ok z) xs ->
  traverse F xs = Ok ys -> traverse G ys = Ok zs -> traverse K xs = Ok zs.
Proof.
  intros Hall. revert ys zs. induction Hall as [|x xs Hx Hxs IH]; intros ys zs HF HG;
    cbn in HF; outcome_inv; cbn in HG; outcome_inv; [done|].
  cbn. erewrite Hx by eassumption. cbn. by erewrite IH by eassumption.
Qed.

(** Run the composed traversal along the two given ones. *)
Ltac run_both :=
  repeat (first
    [ match goal with Hb : bool_decide _ = true |- context [bool_decide _] => rewrite Hb end
    | erewrite both_Ok by eassumption
    | match goal with IH : context [replace_expr both ?e = Ok _] |- context [replace_expr both ?e] =>
        erewrite IH by eassumption end
    | match goal with IH : context [replace_stmt both ?e = Ok _] |- context [replace_stmt both ?e] =>
        erewrite IH by eassumption end
    | erewrite traverse_compose by eassumption ];
    cbn [mbind outcome_bind assert_ok]).

Lemma replace_expr_compose e e1 e2 :
  replace_expr f e = Ok e1 -> replace_expr g e1 = Ok e2 -> replace_expr both e = Ok e2.
Proof.
  revert e1 e2. induction e as [l y v|l y s w IH|i|l y op L R IHL IHR|l|l h IH|l y le h IH|l y n h args IH IHa]
    using expr_ind'; intros e1 e2 H1 H2; cbn [replace_expr] in H1; outcome_inv;
    cbn [replace_expr] in H2; outcome_inv; cbn [replace_expr]; run_both; done.
Qed.

Lemma replace_binding_compose b b1 b2 :
  replace_binding f b = Ok b1 -> replace_binding g b1 = Ok b2 -> replace_binding both b = Ok b2.
Proof.
  intros H1 H2. unfold replace_binding in *. outcome_inv. simpl in *.
  pose proof replace_expr_compose as IH. run_both. erewrite IH by eassumption. done.
Qed.

Lemma replace_stmt_compose s s1 s2 :
  replace_stmt f s = Ok s1 -> replace_stmt g s1 = Ok s2 -> replace_stmt both s = Ok s2.
Proof.
  pose proof replace_expr_compose as He. pose proof replace_binding_compose as Hb.
  assert (Hargs : forall args : list expr, Forall (fun e => forall e1 e2,
    replace_expr f e = Ok e1 -> replace_expr g e1 = Ok e2 -> replace_expr both e = Ok e2) args).
  { intros args. by apply Forall_forall; intros; eapply He. }
  revert s1 s2. induction s as [l b s IH|l b s IH|l n h args|l v e|l e|l e|l e|l c t e IHt IHe|l c s n IH|l ss IH]
    using stmt_ind'; intros s1 s2 H1 H2; cbn [replace_stmt] in H1; outcome_inv;
    cbn [replace_stmt] in H2; outcome_inv; cbn [replace_stmt];
    repeat (first [ progress run_both
      | erewrite He by eassumption; cbn [mbind outcome_bind]
      | erewrite Hb by eassumption; cbn [mbind outcome_bind]
      | erewrite (traverse_compose _ _ _ _ _ _ (Hargs _)) by eassumption;
        cbn [mbind outcome_bind] ]); done.
Qed.
End compose.

(** *** Nodes of the replaced tree *)

Section replaced.
Context `{UserLabels}.
Variable f : label -> outcome label.
Hypothesis f_top : f top = Ok top.

Definition replaced (n n' : node) : Prop :=
  match n, n' with
  | NE e, NE e' => replace_expr f e = Ok e'
  | NB b, NB b' => replace_binding f b = Ok b'
  | NS s, NS s' => replace_stmt f s = Ok s'
  | _, _ => False
  end.

Lemma replaced_list {A} (F : A -> outcome A) (C : A -> node) xs ys :
  (forall x y, F x = Ok y -> replaced (C x) (C y)) ->
  traverse F xs = Ok ys -> Forall2 replaced (C <$> xs) (C <$> ys).
Proof.
  intros HF Ht%traverse_Ok. induction Ht; simpl; constructor; auto.
Qed.

Lemma replaced_step n n' : replaced n n' ->
  f (node_label n) = Ok (node_label n') /\ Forall2 replaced (operands n) (operands n').
Proof using f_top.
  destruct n as [e|b|s], n' as [e'|b'|s']; simpl; try done; intros Hr.
  - destruct e; cbn [replace_expr] in Hr; outcome_inv; (split; [done|]);
      repeat (constructor; [done|]); try by constructor.
    by apply (replaced_list (replace_expr f)).
  - unfold replace_binding in Hr. outcome_inv. split; [done|]. by repeat constructor.
  - destruct s; cbn [replace_stmt] in Hr; outcome_inv; (split; [done|]);
      repeat (constructor; [done|]); try by constructor.
    + by apply (replaced_list (replace_expr f)).
    + by apply (replaced_list (replace_stmt f)).
Qed.

Lemma replaced_origin n n' m' : replaced n n' -> subnode n' m' ->
  exists m, subnode n m /\ replaced m m'.
Proof using f_top.
  intros Hr Hs. revert n Hr. induction Hs as [n'|n' k' m' Hk Hs IH]; intros n Hr;
    destruct (replaced_step n n' Hr) as [Hl Ho].
  - exists n. split; [constructor|done].
  - assert (exists k, k ∈ operands n /\ replaced k k') as (k & Hkn & Hkr).
    { clear -Ho Hk. induction Ho as [|x y xs ys Hxy Ho IHo]; [by apply elem_of_nil in Hk|].
      apply elem_of_cons in Hk as [->|Hk]; [exists x; split; [by left|done]|].
      destruct (IHo Hk) as (k & ? & ?). exists k. split; [by right|done]. }
    destruct (IH k Hkr) as (m & Hm & Hlm). exists m. split; [by econstructor|done].
Qed.

Lemma replaced_subnode n n' m' : replaced n n' -> subnode n' m' ->
  exists m, subnode n m /\ f (node_label m) = Ok (node_label m').
Proof using f_top.
  intros Hr Hs. destruct (replaced_origin n n' m' Hr Hs) as (m & Hm & Hmm).
  exists m. split; [done|]. by apply replaced_step.
Qed.
End replaced.

(** ** What happens to a label *)

(** No minimum of two complete labels is left unresolved. *)
Fixpoint open_label (l : label) : bool :=
  match l with
  | LMin a b => negb (concrete a && concrete b) && open_label a && open_label b
  | _ => true
  end.

Lemma open_without_temps l : open_label l = true ->
  (forall x, x ∈ leaves l -> is_temp_label x = false) -> concrete l = true.
Proof.
  induction l as [s|i j|a IHa b IHb|p]; intros Ho Hx; try done.
  - by specialize (Hx _ (list_elem_of_here _ _)).
  - exfalso. simpl in Ho. rewrite !andb_true_iff in Ho. destruct Ho as [[Hn Ha] Hb].
    rewrite IHa, IHb in Hn; try done; intros x Hin; apply Hx; simpl;
      apply elem_of_app; auto.
Qed.

Section labels_after.
Context `{LabelOrder D} (Dc : forall l, D l -> concrete l = true).

(** [l'] stands for the minimum of the leaves of [l] after [sub]. *)
Record refines (sub : label -> label) (l l' : label) : Prop := {
  refines_from y : y ∈ leaves l' -> exists x, x ∈ leaves l /\ sub x = y;
  refines_temp x : x ∈ leaves l -> is_temp_label (sub x) = true -> sub x ∈ leaves l';
  refines_low x : x ∈ leaves l -> is_temp_label (sub x) = false ->
    exists y, y ∈ leaves l' /\ D y /\ flows_to (sub x) y = Ok true }.

Definition subs_in_scope (subs : list substitution) : Prop :=
  Forall (fun s => D (newl s) /\ is_temp_label (oldl s) = true) subs.

Lemma subst_label_D subs x : subs_in_scope subs -> is_temp_label x = true \/ D x ->
  is_temp_label (subst_label subs x) = true \/ D (subst_label subs x).
Proof using Type.
  intros Hs. revert x. induction Hs as [|s subs [HD Ht] Hs IH]; intros x Hx; simpl; [done|].
  case_decide; auto.
Qed.

Lemma refines_scope subs l l' : subs_in_scope subs -> in_scope (D := D) l ->
  refines (subst_label subs) l l' -> in_scope (D := D) l'.
Proof using Type.
  intros Hs Hl Hr y (x & Hx & <-)%(refines_from _ _ _ Hr). apply subst_label_D; auto.
Qed.

Lemma refines_refl sub l :
  in_scope (D := D) l -> (forall x, x ∈ leaves l -> sub x = x) -> refines sub l l.
Proof using Type*.
  intros Hl Hsub. split.
  - intros y Hy. exists y. auto.
  - intros x Hx _. by rewrite Hsub.
  - intros x Hx Ht. rewrite Hsub in * by done. exists x. split; [done|].
    destruct (Hl x Hx) as [?|HD]; [congruence|]. split; [done|]. by apply flows_refl.
Qed.

Lemma refines_trans s1 s2 l l1 l2 : subs_in_scope (s2 ++ s1) -> in_scope (D := D) l ->
  refines (subst_label s1) l l1 -> refines (subst_label s2) l1 l2 ->
  refines (subst_label (s2 ++ s1)) l l2.
Proof using Type*.
  intros Hs Hl H1 H2. apply Forall_app in Hs as [Hs2 Hs1].
  assert (Hreal : forall x, is_temp_label x = false -> subst_label s2 x = x).
  { intros x Hx. clear -Hs2 Hx. induction Hs2 as [|s s2 [_ Ht] Hs IH]; simpl; [done|].
    rewrite IH. case_decide; [|done]. congruence. }
  split.
  - intros y (x1 & Hx1 & <-)%(refines_from _ _ _ H2).
    apply (refines_from _ _ _ H1) in Hx1 as (x & Hx & <-). exists x.
    by rewrite subst_label_app.
  - intros x Hx. rewrite subst_label_app. intros Ht.
    destruct (is_temp_label (subst_label s1 x)) eqn:Ht1.
    + apply (refines_temp _ _ _ H2); [|done]. by apply (refines_temp _ _ _ H1).
    + rewrite Hreal in Ht by done. congruence.
  - intros x Hx. rewrite subst_label_app. intros Ht.
    destruct (is_temp_label (subst_label s1 x)) eqn:Ht1.
    + apply (refines_low _ _ _ H2); [|done]. by apply (refines_temp _ _ _ H1).
    + rewrite Hreal by done. destruct (refines_low _ _ _ H1 x Hx Ht1) as (y & Hy & HDy & Hf).
      assert (Hty : is_temp_label y = false) by by apply (D_not_temp Dc).
      destruct (refines_low _ _ _ H2 y Hy) as (z & Hz & HDz & Hf2);
        rewrite Hreal in * by done; [done|].
      exists z. split_and!; [done|done|]. apply (flows_trans _ y _); auto.
      destruct (subst_label_D s1 x Hs1 (Hl x Hx)) as [?|?]; [congruence|done].
Qed.

Lemma concrete_leaves l : concrete l = true -> leaves l = [l].
Proof using Type. by destruct l. Qed.

Lemma concrete_scope l : concrete l = true -> in_scope (D := D) l -> D l.
Proof using Type.
  intros Hc Hl. destruct (Hl l) as [Ht|HD]; [|by destruct l|done].
  rewrite concrete_leaves by done. by left.
Qed.

(** Two resolved operands are replaced by the lower one. *)
Lemma refines_min sub a b a' b' m :
  (forall x, x ∈ leaves a \/ x ∈ leaves b -> is_temp_label (sub x) = true \/ D (sub x)) ->
  D a' -> D b' -> refines sub a a' -> refines sub b b' -> is_least m [a'; b'] ->
  refines sub (LMin a b) m.
Proof using Type*.
  intros Hsub HDa HDb Ha Hb [Hin Hle].
  rewrite !elem_of_cons, elem_of_nil in Hin.
  assert (HDm : D m) by by (destruct Hin as [->|[->|[]]]).
  split; simpl; setoid_rewrite elem_of_app.
  - intros y Hy. rewrite concrete_leaves in Hy by auto.
    apply list_elem_of_singleton in Hy as ->. destruct Hin as [->|[->|[]]].
    + destruct (refines_from _ _ _ Ha a') as (x & ? & ?); [|exists x; tauto].
      rewrite concrete_leaves by auto. by left.
    + destruct (refines_from _ _ _ Hb b') as (x & ? & ?); [|exists x; tauto].
      rewrite concrete_leaves by auto. by left.
  - intros x Hx Ht. exfalso. destruct Hx as [Hx|Hx].
    + apply (refines_temp _ _ _ Ha) in Hx; [|done]. rewrite concrete_leaves in Hx by auto.
      apply list_elem_of_singleton in Hx. rewrite Hx, (D_not_temp Dc) in Ht; done.
    + apply (refines_temp _ _ _ Hb) in Hx; [|done]. rewrite concrete_leaves in Hx by auto.
      apply list_elem_of_singleton in Hx. rewrite Hx, (D_not_temp Dc) in Ht; done.
  - intros x Hx Ht. exists m. rewrite (concrete_leaves m) by auto. split; [by left|].
    split; [done|].
    assert (HDx : D (sub x)) by (destruct (Hsub x Hx); [congruence|done]).
    destruct Hx as [Hx|Hx].
    + destruct (refines_low _ _ _ Ha x Hx Ht) as (y & Hy & HDy & Hf).
      rewrite concrete_leaves in Hy by auto. apply list_elem_of_singleton in Hy as ->.
      apply (flows_trans _ a' _); auto. apply Hle. by left.
    + destruct (refines_low _ _ _ Hb x Hx Ht) as (y & Hy & HDy & Hf).
      rewrite concrete_leaves in Hy by auto. apply list_elem_of_singleton in Hy as ->.
      apply (flows_trans _ b' _); auto. apply Hle. by right; left.
Qed.

Lemma label_replace_refines t n l l' : is_temp_label t = true -> D n ->
  in_scope (D := D) l -> label_replace t n l = Ok l' ->
  refines (subst_label [Substitution n t]) l l' /\ open_label l' = true.
Proof using Type*.
  intros Ht Hn. assert (Hleaf : leaves t = [t]) by by destruct t.
  revert l'. induction l as [s|i j|a IHa b IHb|p _]; intros l' Hl Hr;
    cbn [label_replace] in Hr.
  1, 4: outcome_inv; case_decide; [by subst|]; split; [|done];
    apply refines_refl; [done|]; intros x Hx; apply list_elem_of_singleton in Hx as ->;
    simpl; by rewrite decide_False.
  { outcome_inv. case_decide as Heq; split; try done.
    - rewrite Heq in *. split; rewrite Hleaf; intros x Hx.
      + destruct n; try (by apply Dc in Hn); apply list_elem_of_singleton in Hx as ->;
          exists t; (split; [by left|simpl; by rewrite decide_True]).
      + apply list_elem_of_singleton in Hx as ->. simpl.
        rewrite decide_True by done. intros Htn. by rewrite (D_not_temp Dc) in Htn.
      + intros _. apply list_elem_of_singleton in Hx as ->. simpl.
        rewrite decide_True by done. exists n. split_and!; [|done|by apply flows_refl].
        destruct n; try (by apply Dc in Hn); by left.
    - by destruct n; try (apply Dc in Hn).
    - apply refines_refl; [done|]. intros x Hx. apply list_elem_of_singleton in Hx as ->.
      simpl. by rewrite decide_False. }
  apply in_scope_min in Hl as [Hla Hlb]. outcome_inv.
  destruct (IHa _ Hla ltac:(eassumption)) as [Ha Hoa].
  destruct (IHb _ Hlb ltac:(eassumption)) as [Hb Hob].
  assert (Hs : subs_in_scope [Substitution n t]) by by repeat constructor.
  pose proof (refines_scope _ _ _ Hs Hla Ha) as Hsa.
  pose proof (refines_scope _ _ _ Hs Hlb Hb) as Hsb.
  rename x into a', x0 into b'. unfold resolve in Hr.
  destruct (concrete a' && concrete b') eqn:Hc.
  - apply andb_true_iff in Hc as [Hca Hcb]. rewrite resolve_concrete in Hr by done.
    assert (HDa : D a') by by apply concrete_scope.
    assert (HDb : D b') by by apply concrete_scope.
    destruct (min_of_spec a' [b'] HDa) as (m & Hm & Hleast); [by constructor|].
    rewrite Hm in Hr. outcome_inv. split.
    + apply (refines_min _ a b a' b'); [|done..]. intros x [Hx|Hx]; apply subst_label_D; auto.
    + destruct Hleast as [Hin _]. rewrite !elem_of_cons, elem_of_nil in Hin.
      by destruct Hin as [->|[->|[]]]; destruct a', b'.
  - rewrite resolve_rest in Hr by done. outcome_inv. simpl. rewrite Hc, Hoa, Hob. split; [|done].
    split; simpl; setoid_rewrite elem_of_app.
    + intros y [Hy|Hy]; [apply (refines_from _ _ _ Ha) in Hy as (x' & ? & ?)
        |apply (refines_from _ _ _ Hb) in Hy as (x' & ? & ?)]; exists x'; tauto.
    + intros y [Hy|Hy] Hty; [left; by apply (refines_temp _ _ _ Ha)
        |right; by apply (refines_temp _ _ _ Hb)].
    + intros y [Hy|Hy] Hty; [destruct (refines_low _ _ _ Ha y Hy Hty) as (z & ? & ? & ?)
        |destruct (refines_low _ _ _ Hb y Hy Hty) as (z & ? & ? & ?)]; exists z; tauto.
Qed.

Lemma label_apply_refines subs l l' : subs_in_scope subs -> in_scope (D := D) l ->
  label_apply subs l = Ok l' ->
  refines (subst_label subs) l l' /\ (subs <> [] -> open_label l' = true).
Proof using Type*.
  intros Hs Hl. revert l'. induction Hs as [|[n t] subs [HD Ht] Hs IH]; intros l' Hr.
  - unfold label_apply in Hr. simpl in Hr. outcome_inv.
    split; [by apply refines_refl|done].
  - unfold label_apply in Hr. cbn in Hr. fold (label_apply subs l) in Hr. outcome_inv.
    destruct (IH x ltac:(done)) as [Hx _].
    destruct (label_replace_refines t n x l') as [Hx' Ho]; [done|done| |done|].
    { eapply refines_scope; [exact Hs|done..]. }
    split; [|done]. apply (refines_trans subs [Substitution n t] l x l'); [|done..].
    constructor; [done|]. by apply Hs.
Qed.
End labels_after.

(** ** Traversing with all substitutions at once *)

Lemma below_below (P : node -> Prop) n k :
  (forall m, subnode n m -> P m) -> k ∈ operands n -> forall m, subnode k m -> P m.
Proof. intros Hn Hk m Hm. apply Hn. by econstructor. Qed.

Section traversal.
Context `{UserLabels}.

Lemma traverse_identity {A B} (f : A -> outcome A) (c : A -> outcome B) xs r :
  Forall (fun x => forall r, c x = Ok r -> f x = Ok x) xs ->
  traverse c xs = Ok r -> traverse f xs = Ok xs.
Proof.
  intros Hx. revert r. induction Hx as [|x xs Hx Hxs IH]; intros r Hr; cbn in *; [done|].
  outcome_inv. erewrite Hx by eassumption. simpl. by erewrite IH by eassumption.
Qed.

(** Trees the constraints can be collected from have all [_replace] overloads. *)
Lemma collected_expr_replaceable pc e cs :
  collect_constraints_expr pc e = Ok cs -> replace_expr Ok e = Ok e.
Proof.
  revert pc cs. induction e as [l y v|l y s w IH|i|l y op L R IHL IHR|l|l h IH|l y le h IH|l y n h args IH IHa]
    using expr_ind'; intros pc cs Hc; cbn [collect_constraints_expr] in Hc; outcome_inv;
    cbn [replace_expr mbind outcome_bind];
    try (match goal with Hb : bool_decide _ = true |- _ => rewrite Hb end);
    cbn [assert_ok mbind outcome_bind];
    repeat match goal with IH : context [replace_expr Ok ?e = _] |- context [replace_expr Ok ?e] =>
      erewrite IH by eassumption; cbn [mbind outcome_bind] end; try done.
  erewrite traverse_identity; [done| |eassumption].
  eapply Forall_impl; [exact IHa|]. intros a Ha r. apply Ha.
Qed.

Lemma collected_replaceable pc s cs :
  collect_constraints pc s = Ok cs -> replace_stmt Ok s = Ok s.
Proof.
  pose proof collected_expr_replaceable as He.
  revert pc cs. induction s as [l b s IH|l b s IH|l n h args|l v e|l e|l e|l e|l c t e IHt IHe|l c s n IH|l ss IH]
    using stmt_ind'; intros pc cs Hc; cbn [collect_constraints] in Hc;
    unfold collect_operation_constraints, collect_constraints_binding in Hc; outcome_inv;
    cbn [replace_stmt mbind outcome_bind]; unfold replace_binding; cbn [mbind outcome_bind];
    try (match goal with Hb : bool_decide _ = true |- _ => rewrite Hb end);
    cbn [assert_ok mbind outcome_bind];
    repeat (first [ erewrite He by eassumption
      | match goal with IH : context [replace_stmt Ok ?e = _] |- context [replace_stmt Ok ?e] =>
          erewrite IH by eassumption end ]; cbn [mbind outcome_bind]).
  1-2: by destruct b.
  - erewrite traverse_identity; [done| |eassumption].
    apply Forall_forall. intros a _ r. apply He.
  - done.
  - done.
  - done.
  - match goal with Hb : bool_decide _ = true |- _ => apply bool_decide_eq_true in Hb; by subst end.
  - erewrite traverse_identity; [done| |eassumption].
    eapply Forall_impl; [exact IH|]. intros a Ha r. apply Ha.
Qed.

Lemma apply_replace subs s s' : replace_stmt Ok s = Ok s ->
  apply_substitutions subs s = Ok s' -> replace_stmt (label_apply subs) s = Ok s'.
Proof.
  intros Hid. revert s'. induction subs as [|[n t] subs IH]; intros s' Hs.
  - unfold apply_substitutions in Hs. simpl in Hs. by outcome_inv.
  - unfold apply_substitutions in Hs. cbn in Hs. fold (apply_substitutions subs s) in Hs.
    outcome_inv. eapply (replace_stmt_compose _ _ _ _ _ (IH _ ltac:(done)) Hs).
Qed.

Lemma replace_expr_yield f e e' : replace_expr f e = Ok e' -> expr_yield e' = expr_yield e.
Proof. destruct e; cbn [replace_expr]; intros Hr; by outcome_inv. Qed.

Lemma replace_handle f h h' : replace_expr f h = Ok h' -> handle_label h' = handle_label h.
Proof. intros Hr. unfold handle_label. by rewrite (replace_expr_yield f h h'). Qed.

Lemma replace_expr_label f e e' : f top = Ok top ->
  replace_expr f e = Ok e' -> f (expr_label e) = Ok (expr_label e').
Proof. intros Ht. destruct e; cbn [replace_expr]; intros Hr; by outcome_inv. Qed.
End traversal.

(** ** The flows of the final tree *)

Definition node_handle (n : node) : option expr :=
  match n with
  | NE (EIsValid _ h) | NE (EOperation _ _ _ h _) | NS (SOperation _ _ h _) => Some h
  | NS (SLetRemote _ b _) => Some (b_expr b)
  | _ => None
  end.

Section flow_proof.
Context `{UserLabels}.
(** [final]: what the substitutions make of a label; [sub]: of a leaf *)
Variables (final : label -> outcome label) (sub : label -> label).
Hypothesis final_top : final top = Ok top.

(** The final label is one of the leaves. *)
Definition good_label (l : label) : Prop :=
  forall l', final l = Ok l' -> exists a, a ∈ leaves l /\ sub a = l'.

Definition fit (n : node) : Prop :=
  good_label (node_label n) /\
  forall h hl, node_handle n = Some h -> handle_label h = Ok hl ->
    final hl = Ok hl /\ good_label hl.

(** Every leaf of the source flows to the final target. *)
Definition sat (c : constraint) : Prop :=
  forall a l', a ∈ leaves (high c) -> final (low c) = Ok l' -> flows (sub a) l'.

Lemma sat_flow c h' l' : sat c -> good_label (high c) ->
  final (high c) = Ok h' -> final (low c) = Ok l' -> flows h' l'.
Proof. intros Hs Hg Hh Hl. destruct (Hg h' Hh) as (a & Ha & <-). by apply Hs. Qed.

Lemma args_labels args args' : Forall2 (fun a a' => replace_expr final a = Ok a') args args' ->
  Forall2 (fun l l' => final l = Ok l') (expr_label <$> args) (expr_label <$> args').
Proof using final_top.
  induction 1 as [|a a' args args' Ha Hargs IH]; simpl; constructor; [|done].
  by apply replace_expr_label.
Qed.

(** An operation's handle and arguments *)
Lemma handle_flows h h' (args args' : list expr) hl w1 w2 :
  replace_expr final h = Ok h' ->
  Forall2 (fun a a' => replace_expr final a = Ok a') args args' ->
  handle_label h = Ok hl -> final hl = Ok hl ->
  good_label (expr_label h) -> Forall (fun a => good_label (expr_label a)) args ->
  sat (must_flow_to (expr_label h) hl w1) ->
  Forall sat ((fun a => must_flow_to (expr_label a) hl w2) <$> args) ->
  handle_safe h' (expr_label h' :: (expr_label <$> args')).
Proof using final_top.
  intros Hh Ha Hhl Hfl Hgh Hga Hs Hsa. exists hl. split; [by rewrite (replace_handle _ _ _ Hh)|].
  intros l Hl. apply elem_of_cons in Hl as [->|Hl].
  - apply (sat_flow _ _ _ Hs Hgh); [|done]. by apply replace_expr_label.
  - apply list_elem_of_fmap in Hl as (a' & -> & Ha').
    revert a' Ha'. induction Ha as [|a b args args' Hab Ha IH]; intros a' Ha';
      [by apply elem_of_nil in Ha'|].
    inversion Hga; subst. inversion Hsa; subst. apply elem_of_cons in Ha' as [->|Ha'].
    + eapply (sat_flow (must_flow_to (expr_label a) hl w2)); [done|done| |done].
      by apply replace_expr_label.
    + by apply IH.
Qed.

Lemma fit_operands (n : node) h args : (forall m, subnode n m -> fit m) ->
  operands n = NE h :: (NE <$> args) ->
  (forall m, subnode h m -> fit m) /\
  forall a, a ∈ args -> forall m, subnode (NE a) m -> fit m.
Proof.
  intros Hf Hn. split.
  - apply (below_below fit n); [done|]. rewrite Hn. by left.
  - intros a Ha. apply (below_below fit n); [done|]. rewrite Hn. right.
    by apply list_elem_of_fmap_2.
Qed.

Lemma Forall2_safe (args args' : list expr) (cargs : list (list constraint)) pc :
  Forall (fun e => forall pc cs e', (forall m, subnode (NE e) m -> fit m) ->
    collect_constraints_expr pc e = Ok cs -> Forall sat cs ->
    replace_expr final e = Ok e' -> expr_safe e') args ->
  (forall a, a ∈ args -> forall m, subnode (NE a) m -> fit m) ->
  traverse (collect_constraints_expr pc) args = Ok cargs -> Forall sat (concat cargs) ->
  Forall2 (fun a a' => replace_expr final a = Ok a') args args' ->
  Forall expr_safe args'.
Proof.
  intros IH Hf Hc%traverse_Ok Hs Hr. revert cargs Hc Hs.
  induction Hr as [|a a' args args' Ha Hr IHr]; intros cargs Hc Hs; [constructor|].
  inversion Hc as [|? c ? cargs' Hca Hcargs]; subst. simpl in Hs. apply Forall_app in Hs as [Hs1 Hs2].
  inversion IH as [|? ? IHa IHargs]; subst. constructor.
  - apply (IHa pc c); [apply Hf; by left|done..].
  - apply (IHr IHargs) with cargs'; [intros b Hb; apply Hf; by right|done|done].
Qed.

Lemma expr_flows pc e cs e' : (forall m, subnode (NE e) m -> fit m) ->
  collect_constraints_expr pc e = Ok cs -> Forall sat cs ->
  replace_expr final e = Ok e' -> expr_safe e'.
Proof using final_top.
  revert pc cs e'. induction e as [l y v|l y s w IH|i|l y op L R IHL IHR|l|l h IH|l y le h IH|l y n h args IH IHa]
    using expr_ind'; intros pc cs e' Hf Hc Hs Hr; cbn [replace_expr] in Hr; outcome_inv;
    cbn [collect_constraints_expr] in Hc; outcome_inv.
  - constructor.
  - constructor. eapply (IH pc); [|done..]. eapply below_below; [exact Hf|by left].
  - constructor.
  - apply Forall_app in Hs as [Hs1 Hs2]. constructor.
    + eapply (IHL pc); [|done..]. eapply below_below; [exact Hf|by left].
    + eapply (IHR pc); [|done..]. eapply below_below; [exact Hf|by right; left].
  - apply Forall_app in Hs as [Hs1 Hs2]. inversion Hs2 as [|? ? Hs3 _]; subst.
    destruct (Hf _ (sub_here _)) as [_ Hh].
    assert (Hfh : forall m, subnode h m -> fit m) by (eapply below_below; [exact Hf|by left]).
    constructor; [by eapply IH|].
    eapply (handle_flows h _ [] [] _ _ ""%string); [done|constructor|done|by eapply Hh| |constructor|done|constructor].
    apply (Hfh _ (sub_here _)).
  - constructor. eapply (IH pc); [|done..]. eapply below_below; [exact Hf|by left].
  - apply Forall_app in Hs as [Hs1 Hs2]. inversion Hs2 as [|? ? Hs3 Hs4]; subst.
    apply Forall_app in Hs4 as [Hs4 Hs5].
    destruct (Hf _ (sub_here _)) as [_ Hh].
    destruct (fit_operands _ h args Hf eq_refl) as [Hfh Hfa].
    match goal with Ht : traverse (replace_expr final) args = Ok _ |- _ =>
      apply traverse_Ok in Ht; rename Ht into Hargs end.
    constructor; [by eapply IH|by eapply Forall2_safe|].
    eapply handle_flows; [done|done|done|by eapply Hh| | |done|done].
    + apply (Hfh _ (sub_here _)).
    + apply Forall_forall. intros a Ha. apply (Hfa a Ha _ (sub_here _)).
Qed.

(** [pcs] are labels control depends on when the collected [pc] is as given. *)
Definition covers (pc : label) (pcs : list label) : Prop :=
  forall p, p ∈ pcs -> exists a, a ∈ leaves pc /\ sub a = p.

Lemma covers_sat pc pcs l l' w : covers pc pcs -> sat (must_flow_to pc l w) ->
  final l = Ok l' -> forall p, p ∈ pcs -> flows p l'.
Proof. intros Hc Hs Hl p Hp. destruct (Hc p Hp) as (a & Ha & <-). by apply (Hs a l'). Qed.

Lemma covers_min pc pcs l l' : covers pc pcs -> good_label l -> final l = Ok l' ->
  covers (LMin pc l) (l' :: pcs).
Proof.
  intros Hc Hg Hl p Hp. simpl. setoid_rewrite elem_of_app.
  apply elem_of_cons in Hp as [->|Hp].
  - destruct (Hg _ Hl) as (a & ? & ?). exists a. tauto.
  - destruct (Hc p Hp) as (a & ? & ?). exists a. tauto.
Qed.

Lemma binding_flows pc pcs b cs b' : covers pc pcs ->
  (forall m, subnode (NB b) m -> fit m) ->
  collect_constraints_binding pc b = Ok cs -> Forall sat cs ->
  replace_binding final b = Ok b' -> binding_safe pcs b'.
Proof using final_top.
  intros Hcov Hf Hc Hs Hr. unfold collect_constraints_binding, replace_binding in *. outcome_inv.
  inversion Hs as [|? ? Hs1 Hs2]; subst. inversion Hs2 as [|? ? Hs3 Hs4]; subst.
  assert (Hfe : forall m, subnode (b_expr b) m -> fit m) by (eapply below_below; [exact Hf|by left]).
  split_and!; simpl.
  - by eapply expr_flows.
  - eapply (sat_flow _ _ _ Hs1); [apply (Hfe _ (sub_here _))| |done].
    by apply replace_expr_label.
  - by eapply covers_sat.
Qed.

Lemma stmt_flows pc pcs s cs s' : covers pc pcs -> (forall m, subnode (NS s) m -> fit m) ->
  collect_constraints pc s = Ok cs -> Forall sat cs ->
  replace_stmt final s = Ok s' -> flow_safe pcs s'.
Proof using final_top.
  revert pc pcs cs s'. induction s as [l b s IH|l b s IH|l n h args|l v e|l e|l e|l e|l c t e IHt IHe|l c s n IH|l ss IH]
    using stmt_ind'; intros pc pcs cs s' Hcov Hf Hc Hs Hr; cbn [replace_stmt] in Hr; outcome_inv;
    cbn [collect_constraints] in Hc; unfold collect_operation_constraints in Hc; outcome_inv.
  - apply Forall_app in Hs as [Hs1 Hs2]. constructor.
    + eapply binding_flows; [done| |done..]. eapply below_below; [exact Hf|by left].
    + eapply IH; [done| |done..]. eapply below_below; [exact Hf|by right; left].
  - rewrite !Forall_app in Hs. destruct Hs as (Hs1 & Hs2 & Hs3).
    inversion Hs3 as [|? ? Hs4 _]; subst.
    assert (Hfb : forall m, subnode (NB b) m -> fit m) by (eapply below_below; [exact Hf|by left]).
    assert (Hge : good_label (expr_label (b_expr b))).
    { refine (proj1 (below_below fit _ (b_expr b) Hfb _ _ (sub_here _))). by left. }
    destruct (Hf _ (sub_here _)) as [_ Hh].
    destruct (Hh (b_expr b) _ eq_refl ltac:(eassumption)) as [Hfin Hgh].
    match goal with Hb : replace_binding final b = Ok ?b' |- _ =>
      pose proof Hb as Hb'; unfold replace_binding in Hb'; outcome_inv; simpl end.
    econstructor; [by erewrite replace_handle| |eapply binding_flows; [|done..]|eapply IH; [done| |done..]].
    + eapply (sat_flow _ _ _ Hs4); [done|by apply replace_expr_label|done].
    + apply covers_min; [|done|done]. apply covers_min; [done|done|by apply replace_expr_label].
    + eapply below_below; [exact Hf|by right; left].
  - apply Forall_app in Hs as [Hs1 Hs2]. inversion Hs2 as [|? ? Hs3 Hs4]; subst.
    apply Forall_app in Hs4 as [Hs4 Hs5].
    destruct (Hf _ (sub_here _)) as [_ Hh].
    destruct (fit_operands _ h args Hf eq_refl) as [Hfh Hfa].
    match goal with Ht : traverse (replace_expr final) args = Ok _ |- _ =>
      apply traverse_Ok in Ht; rename Ht into Hargs end.
    constructor; [by eapply expr_flows|eapply Forall2_safe; [|done..]|].
    { apply Forall_forall. intros a _ pc' cs'. apply expr_flows. }
    eapply handle_flows; [done|done|done|by eapply Hh| | |done|done].
    + apply (Hfh _ (sub_here _)).
    + apply Forall_forall. intros a Ha. apply (Hfa a Ha _ (sub_here _)).
  - inversion Hs as [|? ? Hs1 Hs2]; subst. inversion Hs2 as [|? ? Hs3 Hs4]; subst.
    apply Forall_app in Hs4 as [Hs4 Hs5].
    assert (Hfv : forall m, subnode v m -> fit m) by (eapply below_below; [exact Hf|by left]).
    assert (Hfe : forall m, subnode e m -> fit m) by (eapply below_below; [exact Hf|by right; left]).
    apply safe_assignment; [by eapply (expr_flows pc v)|by eapply (expr_flows pc e)| |].
    + eapply (sat_flow _ _ _ Hs1); [apply (Hfe _ (sub_here _))|by apply replace_expr_label..].
    + eapply covers_sat; [done|done|by apply replace_expr_label].
  - constructor. eapply expr_flows; [|done..]. eapply below_below; [exact Hf|by left].
  - rewrite !Forall_app in Hs. destruct Hs as (Hs1 & Hs2 & Hs3).
    destruct (Hf _ (sub_here _)) as [Hg _]. constructor.
    + eapply expr_flows; [|done..]. eapply below_below; [exact Hf|by left].
    + eapply IHt; [by apply covers_min| |done..]. eapply below_below; [exact Hf|by right; left].
    + eapply IHe; [by apply covers_min| |done..].
      eapply below_below; [exact Hf|by right; right; left].
  - apply Forall_app in Hs as [Hs1 Hs2]. destruct (Hf _ (sub_here _)) as [Hg _]. constructor.
    + eapply expr_flows; [|done..]. eapply below_below; [exact Hf|by left].
    + eapply IH; [by apply covers_min| |done..]. eapply below_below; [exact Hf|by right; left].
  - constructor. assert (Hfs : forall s, s ∈ ss -> forall m, subnode (NS s) m -> fit m).
    { intros s Hss. eapply below_below; [exact Hf|]. by apply list_elem_of_fmap_2. }
    match goal with Ht : traverse (replace_stmt final) ss = Ok _,
        Hc : traverse (collect_constraints pc) ss = Ok ?cc |- _ =>
      apply traverse_Ok in Ht; apply traverse_Ok in Hc; rename Ht into Hr, Hc into Hcs;
      rename cc into css end.
    clear Hf. revert css Hcs Hs. induction Hr as [|s s' ss ss' Hss Hr IHr]; intros css Hcs Hs;
      [constructor|]. inversion Hcs as [|? c ? css' Hc Hcs']; subst.
    simpl in Hs. apply Forall_app in Hs as [Hs1 Hs2]. inversion IH as [|? ? IHs IHss]; subst.
    constructor.
    + eapply IHs; [done| |done..]. apply Hfs. by left.
    + eapply IHr; [done| |done..]. intros s0 Hs0. apply Hfs. by right.
Qed.
End flow_proof.

(** ** Where constraints come from *)

(** A label taken apart ([true]) or as it is ([false]) *)
Definition has (k : bool) (l a : label) : Prop := if k then a ∈ leaves l else a = l.

(** [a] is (a leaf of) an annotation or of a handle's label below [n]. *)
Definition sources (n : node) (k : bool) (a : label) : Prop :=
  exists m, subnode n m /\
    (has k (node_label m) a \/
     exists h hl, node_handle m = Some h /\ handle_label h = Ok hl /\ has k hl a).

Lemma sources_below n i k a : i ∈ operands n -> sources i k a -> sources n k a.
Proof. intros Hk (m & Hm & Ha). exists m. split; [by econstructor|done]. Qed.

Lemma sources_label n k a : has k (node_label n) a -> sources n k a.
Proof. intros Ha. exists n. split; [constructor|by left]. Qed.

Lemma sources_handle n h hl k a : node_handle n = Some h -> handle_label h = Ok hl ->
  has k hl a -> sources n k a.
Proof. intros Hn Hh Ha. exists n. split; [constructor|right; eauto]. Qed.

Section origins.
Context `{UserLabels}.
Implicit Types (P Q : bool -> label -> Prop).

(** The leaves of every source and every target satisfy [P]. *)
Definition ends P (cs : list constraint) : Prop :=
  Forall (fun c => forall k a, has k (if k then high c else low c) a -> P k a) cs.

Lemma ends_weaken P Q cs : ends P cs -> (forall k a, P k a -> Q k a) -> ends Q cs.
Proof. intros Hp Hpq. eapply Forall_impl; [exact Hp|]. intros c Hc k a Ha. by apply Hpq, Hc. Qed.

Lemma ends_app P cs1 cs2 : ends P (cs1 ++ cs2) <-> ends P cs1 /\ ends P cs2.
Proof. apply Forall_app. Qed.

Lemma ends_concat {A} (f : A -> outcome (list constraint)) P xs css :
  Forall (fun x => forall cs, f x = Ok cs -> ends P cs) xs ->
  traverse f xs = Ok css -> ends P (concat css).
Proof.
  intros Hx Hc%traverse_Ok. induction Hc as [|x c xs css Hc Hcs IH]; simpl; [constructor|].
  inversion Hx as [|? ? Hx1 Hx2]; subst. apply Forall_app. split; [by apply Hx1|by apply IH].
Qed.

Lemma operation_ends n h hl args (w1 w2 : string) :
  node_handle n = Some h -> handle_label h = Ok hl -> operands n = NE h :: (NE <$> args) ->
  ends (sources n) (must_flow_to (expr_label h) hl w1
    :: ((fun a => must_flow_to (expr_label a) hl w2) <$> args)).
Proof.
  intros Hn Hh Ho. constructor.
  - intros [] a Ha; simpl in Ha; [|by eapply sources_handle].
    apply (sources_below _ (NE h)); [rewrite Ho; by left|by apply sources_label].
  - apply Forall_fmap, Forall_forall. intros e He [] a Ha; simpl in Ha;
      [|by eapply sources_handle].
    apply (sources_below _ (NE e)); [|by apply sources_label].
    rewrite Ho. right. by apply list_elem_of_fmap_2.
Qed.

Lemma expr_ends pc e cs : collect_constraints_expr pc e = Ok cs -> ends (sources e) cs.
Proof.
  revert pc cs. induction e as [l y v|l y s w IH|i|l y op L R IHL IHR|l|l h IH|l y le h IH|l y n h args IH IHa]
    using expr_ind'; intros pc cs Hc; cbn [collect_constraints_expr] in Hc; outcome_inv;
    try constructor.
  - eapply ends_weaken; [by eapply IH|]. intros k a. apply sources_below. by left.
  - apply Forall_app. split; (eapply ends_weaken; [by eauto|]); intros k a; apply sources_below;
      simpl; rewrite !elem_of_cons; auto.
  - apply Forall_app. split; [eapply ends_weaken; [by eapply IH|]; intros k a; apply sources_below; by left|].
    constructor; [|constructor]. intros [] a Ha.
    + apply (sources_below _ (NE h)); [by left|by apply sources_label].
    + by eapply (sources_handle (EIsValid l h)).
  - eapply ends_weaken; [by eapply IH|]. intros k a. apply sources_below. by left.
  - apply Forall_app. split.
    { eapply ends_weaken; [by eapply IH|]; intros k a; apply sources_below; by left. }
    rewrite app_comm_cons. apply Forall_app. split; [by apply operation_ends|].
    eapply ends_concat; [|eassumption].
    rewrite Forall_forall in IHa. apply Forall_forall. intros e He cs Hcs.
    eapply ends_weaken; [by eapply IHa|]. intros k a. apply sources_below. right.
    by apply list_elem_of_fmap_2.
Qed.

Definition from_tree (pc : label) (n : node) (k : bool) (a : label) : Prop :=
  (k = true /\ a ∈ leaves pc) \/ sources n k a.

Lemma from_tree_below pc n i k a : i ∈ operands n -> from_tree pc i k a -> from_tree pc n k a.
Proof. intros Hk [?|?]; [by left|right]. by eapply sources_below. Qed.

Lemma from_tree_min pc n l i k a : (forall x, has true l x -> sources n true x) ->
  i ∈ operands n -> from_tree (LMin pc l) i k a -> from_tree pc n k a.
Proof.
  intros Hl Hk [[-> Ha]|Ha]; [|right; by eapply sources_below].
  simpl in Ha. apply elem_of_app in Ha as [?|?]; [by left|right; auto].
Qed.

Lemma binding_ends pc b cs : collect_constraints_binding pc b = Ok cs ->
  ends (from_tree pc b) cs.
Proof.
  intros Hc. unfold collect_constraints_binding in Hc. outcome_inv.
  assert (He : forall k a, sources (b_expr b) k a -> sources b k a).
  { intros k a. apply sources_below. by left. }
  constructor; [|constructor].
  - intros [] a Ha; right; [by apply He, sources_label|by apply sources_label].
  - intros [] a Ha; [by left|right; by apply sources_label].
  - eapply ends_weaken; [by eapply expr_ends|]. intros k a Ha. right. auto.
Qed.

Lemma assignment_ends pc l v e cs1 cs2 w1 w2 :
  ends (from_tree pc (SAssignment l v e)) cs1 -> ends (from_tree pc (SAssignment l v e)) cs2 ->
  ends (from_tree pc (SAssignment l v e))
    (must_flow_to (expr_label e) (expr_label v) w1
      :: must_flow_to pc (expr_label v) w2 :: cs1 ++ cs2).
Proof.
  intros H1 H2. constructor; [|constructor; [|by apply ends_app]].
  - intros [] a Ha; right.
    + apply (sources_below _ (NE e)); [by right; left|by apply sources_label].
    + apply (sources_below _ (NE v)); [by left|by apply sources_label].
  - intros [] a Ha; [by left|right].
    apply (sources_below _ (NE v)); [by left|by apply sources_label].
Qed.

Lemma stmt_ends pc s cs : collect_constraints pc s = Ok cs -> ends (from_tree pc s) cs.
Proof.
  assert (Hexpr : forall n e pc pc' cs', NE e ∈ operands n ->
    collect_constraints_expr pc' e = Ok cs' -> ends (from_tree pc n) cs').
  { intros n e pc0 pc' cs' Hn Hc. eapply ends_weaken; [by eapply expr_ends|].
    intros k a Ha. right. by eapply sources_below. }
  revert pc cs. induction s as [l b s IH|l b s IH|l n h args|l v e|l e|l e|l e|l c t e IHt IHe|l c s n IH|l ss IH]
    using stmt_ind'; intros pc cs Hc; cbn [collect_constraints] in Hc;
    unfold collect_operation_constraints in Hc; outcome_inv.
  - apply Forall_app. split.
    + eapply ends_weaken; [by eapply binding_ends|]. intros k a. apply from_tree_below. by left.
    + eapply ends_weaken; [by eapply IH|]. intros k a. apply from_tree_below. by right; left.
  - assert (He : forall k a, has k (expr_label (b_expr b)) a -> sources (SLetRemote l b s) k a).
    { intros k a Ha. apply (sources_below _ (NB b)); [by left|].
      apply (sources_below _ (NE (b_expr b))); [by left|by apply sources_label]. }
    assert (Hhl : forall k a, has k x a -> sources (SLetRemote l b s) k a).
    { intros k a. by eapply (sources_handle (SLetRemote l b s)). }
    rewrite !ends_app. split_and!.
    + eapply ends_weaken; [by eapply binding_ends|]. intros k a [[-> Ha]|Ha].
      * simpl in Ha. rewrite !elem_of_app in Ha. destruct Ha as [[?|?]|?];
          [by left|right; by apply He|right; by apply Hhl].
      * right. eapply sources_below; [by left|done].
    + eapply ends_weaken; [by eapply IH|]. intros k a. apply from_tree_below. by right; left.
    + constructor; [|constructor]. intros [] a Ha; right; [by apply He|by apply Hhl].
  - apply Forall_app. split; [eapply Hexpr; [by left|done]|].
    rewrite app_comm_cons. apply Forall_app. split.
    + eapply ends_weaken; [by apply (operation_ends (SOperation l n h args))|].
      intros k a Ha. by right.
    + eapply ends_concat; [|eassumption]. apply Forall_forall. intros e He cs Hcs.
      eapply Hexpr; [|done]. right. by apply list_elem_of_fmap_2.
  - apply assignment_ends; (eapply Hexpr; [|done]); [by left|by right; left].
  - eapply Hexpr; [|done]. by left.
  - assert (Hl : forall a, has true l a -> sources (SIf l c t e) true a).
    { intros a. apply (sources_label (SIf l c t e)). }
    rewrite !ends_app. split_and!.
    + eapply Hexpr; [|done]. by left.
    + eapply ends_weaken; [by eapply IHt|]. intros k a. eapply from_tree_min; [done|by right; left].
    + eapply ends_weaken; [by eapply IHe|]. intros k a.
      eapply from_tree_min; [done|by right; right; left].
  - apply Forall_app. split.
    + eapply Hexpr; [|done]. by left.
    + eapply ends_weaken; [by eapply IH|]. intros k a. eapply from_tree_min; [|by right; left].
      intros x'. apply (sources_label (SWhile l c s n)).
  - eapply ends_concat; [|eassumption]. rewrite Forall_forall in IH. apply Forall_forall.
    intros s Hs cs Hcs. eapply ends_weaken; [by eapply IH|]. intros k a.
    apply from_tree_below. by apply list_elem_of_fmap_2.
Qed.
End origins.

Section declared.
Context `{UserLabels}.

Lemma expr_no_binding (e : expr) (b : binding) : ~ subnode e b.
Proof.
  intros Hs. remember (NE e) as n eqn:Hn. remember (NB b) as m eqn:Hm.
  revert e Hn. induction Hs as [n|n k m Hk Hs IH]; intros e ->; [by subst|].
  destruct e; simpl in Hk; rewrite ?elem_of_cons, ?elem_of_nil in Hk;
    repeat match goal with H : _ \/ _ |- _ => destruct H as [H|H] end; subst;
    try done; try (by eapply IH).
  apply list_elem_of_fmap in Hk as (a & -> & _). by eapply IH.
Qed.

(** Every declaration is constrained by the pc it is checked in. *)
Lemma declaration_constrained pc s cs b :
  collect_constraints pc s = Ok cs -> subnode (NS s) (NB b) ->
  exists c, c ∈ cs /\ low c = b_label b /\ forall a, a ∈ leaves pc -> a ∈ leaves (high c).
Proof.
  assert (Hb : forall pc b' cs, collect_constraints_binding pc b' = Ok cs -> subnode (NB b') (NB b) ->
    exists c, c ∈ cs /\ low c = b_label b /\ forall a, a ∈ leaves pc -> a ∈ leaves (high c)).
  { intros pc' b' cs' Hc Hs. inversion Hs as [|? k ? Hk Hs']; subst.
    - unfold collect_constraints_binding in Hc. outcome_inv.
      eexists; split; [by right; left|done].
    - simpl in Hk. apply list_elem_of_singleton in Hk as ->. by apply expr_no_binding in Hs'. }
  revert pc cs. induction s as [l b' s IH|l b' s IH|l n h args|l v e|l e|l e|l e|l c t e IHt IHe|l c s n IH|l ss IH]
    using stmt_ind'; intros pc cs Hc Hs; inversion Hs as [|? k ? Hk Hs']; subst; simpl in Hk;
    rewrite ?elem_of_cons, ?elem_of_nil in Hk; cbn [collect_constraints] in Hc;
    unfold collect_operation_constraints in Hc; outcome_inv;
    repeat match goal with H : _ \/ _ |- _ => destruct H as [H|H] end; subst;
    try done; try (by apply expr_no_binding in Hs').
  - destruct (Hb _ _ _ ltac:(eassumption) Hs') as (c & ? & ? & ?).
    exists c. rewrite elem_of_app. auto.
  - destruct (IH _ _ ltac:(eassumption) Hs') as (c & ? & ? & ?).
    exists c. rewrite elem_of_app. auto.
  - destruct (Hb _ _ _ ltac:(eassumption) Hs') as (c & ? & ? & Hl).
    exists c. rewrite elem_of_app. split_and!; [auto..|]. intros a Ha. apply Hl. simpl.
    rewrite !elem_of_app. auto.
  - destruct (IH _ _ ltac:(eassumption) Hs') as (c & ? & ? & ?).
    exists c. rewrite !elem_of_app. auto.
  - apply list_elem_of_fmap in Hk as (a & -> & _). by apply expr_no_binding in Hs'.
  - destruct (IHt _ _ ltac:(eassumption) Hs') as (c0 & ? & ? & Hl). exists c0.
    rewrite !elem_of_app. split_and!; [auto..|]. intros a Ha. apply Hl. simpl.
    rewrite elem_of_app. auto.
  - destruct (IHe _ _ ltac:(eassumption) Hs') as (c0 & ? & ? & Hl). exists c0.
    rewrite !elem_of_app. split_and!; [auto..|]. intros a Ha. apply Hl. simpl.
    rewrite elem_of_app. auto.
  - destruct (IH _ _ ltac:(eassumption) Hs') as (c0 & ? & ? & Hl). exists c0.
    rewrite !elem_of_app. split_and!; [auto..|]. intros a Ha. apply Hl. simpl.
    rewrite elem_of_app. auto.
  - apply list_elem_of_fmap in Hk as (s & -> & Hss). rewrite Forall_forall in IH.
    match goal with Ht : traverse _ ss = Ok ?css |- _ =>
      destruct (traverse_elem _ _ _ _ Ht Hss) as (cs' & Hcs & Hin) end.
    destruct (IH s Hss _ _ Hcs Hs') as (c & ? & ? & ?). exists c.
    rewrite elem_of_concat. eauto.
Qed.
End declared.

(** ** The theorem *)

(** What type checking hands to the pass: complete labels of the program are in
    the order, unresolved minima still await a temporary, temporaries are
    labels of declarations, and the labels of the handles used are mentioned,
    as is [top]. *)
Record inferable `{UserLabels} (D : label -> Prop) (ast : stmt) : Prop := {
  inf_order x : mentions ast x -> D x;
  inf_open m : subnode ast m -> open_label (node_label m) = true;
  inf_declared m t : subnode ast m -> t ∈ leaves (node_label m) -> is_temp_label t = true ->
    exists b : binding, subnode ast b /\ b_label b = t;
  inf_handles m h hl : subnode ast m -> node_handle m = Some h -> handle_label h = Ok hl ->
    mentions ast hl;
  inf_top : mentions ast top }.

Lemma leaves_atoms l x : x ∈ leaves l <-> x ∈ label_atoms l \/ (x ∈ leaves l /\ is_temp_label x = true).
Proof.
  split; [|intros [Hx|[Hx _]]; [|done]].
  - induction l as [s|i j|a IHa b IHb|p]; simpl; rewrite ?elem_of_app, ?elem_of_nil; intros Hx.
    + by left.
    + apply list_elem_of_singleton in Hx as ->. right. split; [by left|done].
    + naive_solver.
    + by left.
  - induction l as [s|i j|a IHa b IHb|p]; simpl in *; rewrite ?elem_of_app in *;
      [done|by apply elem_of_nil in Hx|naive_solver|done].
Qed.

Section theorem.
Context `{LabelOrder D} `{!TypeLists} `{!TypeListLaws}.
Context (Dc : forall l, D l -> concrete l = true).
Variables (ast ast' : stmt).
Hypothesis Hinf : inferable D ast.

Lemma inf_scope m : subnode ast m -> in_scope (D := D) (node_label m).
Proof using Hinf.
  intros Hm x Hx. apply leaves_atoms in Hx as [Hx|[_ Hx]]; [right|by left].
  apply (inf_order _ _ Hinf). by exists m.
Qed.

Section solved.
Variables (labels : list label) (cs : list constraint) (subs : list substitution).
Hypothesis Hcs : collect_constraints top ast = Ok cs.
Hypothesis Hlabels : forall x, x ∈ labels <-> mentions ast x.
Hypothesis Hsubs : substitution_to labels subs.
Hypothesis Hast' : apply_substitutions subs ast = Ok ast'.
Hypothesis Hholds : forall c a, c ∈ cs -> a ∈ leaves (high c) ->
  subst_label subs a ∈ labels -> holds_after subs c a.

Lemma subs_D : subs_in_scope (D := D) subs.
Proof using Hsubs Hlabels Hinf.
  eapply Forall_impl; [exact Hsubs|]. intros s [Hs ?]. split; [|done].
  by apply (inf_order _ _ Hinf), Hlabels.
Qed.

Lemma subst_mentioned x : x ∈ labels -> subst_label subs x = x.
Proof using All.
  intros Hx%Hlabels%(inf_order _ _ Hinf). pose proof subs_D as Hs.
  assert (Ht : is_temp_label x = false) by by apply (D_not_temp Dc).
  clear -Hs Ht. induction Hs as [|s subs [_ Hold] Hs IH]; simpl; [done|].
  rewrite IH. case_decide; [congruence|done].
Qed.

Lemma subst_in_labels x : is_temp_label (subst_label subs x) = false ->
  is_temp_label x = true -> subst_label subs x ∈ labels.
Proof using Hsubs.
  intros Hn Ht. clear -Hsubs Hn Ht.
  induction Hsubs as [|s subs' [Hs _] Hsubs' IH]; simpl in *; [congruence|].
  case_decide; auto.
Qed.

(** Declared temporaries end at a label of the program. *)
Lemma declared_resolved t (b : binding) : subnode ast b -> b_label b = t ->
  is_temp_label t = true -> subst_label subs t ∈ labels.
Proof using All.
  intros Hb Hbt Ht. destruct (declaration_constrained top ast cs b Hcs Hb) as (c & Hc & Hlow & Hpc).
  assert (Htop : top ∈ labels) by apply Hlabels, (inf_top _ _ Hinf).
  destruct (Hholds c top Hc) as (t' & Ht' & _ & Hn).
  { apply Hpc. by left. }
  { by rewrite subst_mentioned. }
  apply (collapse_target_spec Dc) in Ht'; rewrite Hlow, Hbt in *.
  - destruct t; try done. simpl in Ht'. subst t'. by apply subst_in_labels.
  - intros x Hx. destruct t; try done. apply list_elem_of_singleton in Hx as ->. by left.
Qed.

Lemma source_resolved a : sources ast true a -> subst_label subs a ∈ labels.
Proof using All.
  intros (m & Hm & [Ha|(h & hl & Hh & Hhl & Ha)]).
  - destruct (is_temp_label a) eqn:Ht.
    + destruct (inf_declared _ _ Hinf m a Hm Ha Ht) as (b & Hb & Hba).
      by eapply declared_resolved.
    + apply leaves_atoms in Ha as [Ha|[_ ?]]; [|congruence].
      assert (a ∈ labels) by (apply Hlabels; by exists m). by rewrite subst_mentioned.
  - pose proof (inf_handles _ _ Hinf m h hl Hm Hh Hhl) as Hmen.
    assert (HDhl : concrete hl = true) by by apply Dc, (inf_order _ _ Hinf).
    simpl in Ha. rewrite concrete_leaves in Ha by done.
    apply list_elem_of_singleton in Ha as ->. apply Hlabels in Hmen. by rewrite subst_mentioned.
Qed.

Lemma from_tree_resolved a : from_tree top ast true a -> subst_label subs a ∈ labels.
Proof using All.
  intros [[_ Ha]|Ha]; [|by apply source_resolved].
  simpl in Ha. apply list_elem_of_singleton in Ha as ->.
  assert (top ∈ labels) by apply Hlabels, (inf_top _ _ Hinf). by rewrite subst_mentioned.
Qed.

Lemma label_D x : x ∈ labels -> D x.
Proof using Hlabels Hinf. intros Hx. by apply (inf_order _ _ Hinf), Hlabels. Qed.

(** Labels whose leaves are resolved become one complete label. *)
Lemma final_concrete l l' : in_scope (D := D) l -> open_label l = true ->
  (forall a, a ∈ leaves l -> subst_label subs a ∈ labels) ->
  label_apply subs l = Ok l' ->
  concrete l' = true /\ refines (D := D) (subst_label subs) l l'.
Proof using All.
  intros Hl Ho Ha Hr. destruct (label_apply_refines Dc subs l l' subs_D Hl Hr) as [Href Hop].
  split; [|done]. apply open_without_temps.
  - destruct subs as [|s subs'] eqn:Hsub; [|by apply Hop].
    unfold label_apply in Hr. simpl in Hr. by outcome_inv.
  - intros y (x & Hx & <-)%(refines_from _ _ _ Href). apply (D_not_temp Dc).
    by apply label_D, Ha.
Qed.
Lemma target_fit l : sources ast false l ->
  in_scope (D := D) l /\ open_label l = true /\
  forall a, a ∈ leaves l -> sources ast true a.
Proof using Hinf Dc.
  intros (m & Hm & [->|(h & hl & Hh & Hhl & ->)]).
  - split_and!; [by apply inf_scope|by eapply (inf_open _ _ Hinf)|].
    intros a Ha. exists m. split; [done|by left].
  - pose proof (inf_order _ _ Hinf _ (inf_handles _ _ Hinf m h hl Hm Hh Hhl)) as HD.
    pose proof (Dc _ HD) as Hc. split_and!.
    + intros x Hx. rewrite concrete_leaves in Hx by done.
      apply list_elem_of_singleton in Hx as ->. by right.
    + by destruct hl.
    + intros a Ha. exists m. split; [done|right; eauto].
Qed.

Lemma all_sat : Forall (sat (label_apply subs) (subst_label subs)) cs.
Proof using All.
  apply Forall_forall. intros c Hc a l' Ha Hl'.
  pose proof (stmt_ends top ast cs Hcs) as Hends. unfold ends in Hends. rewrite Forall_forall in Hends.
  specialize (Hends c Hc).
  assert (Hal : subst_label subs a ∈ labels) by (apply from_tree_resolved, (Hends true), Ha).
  destruct (Hholds c a Hc Ha Hal) as (t & Ht & Hflow & Htt).
  destruct (Hends false (low c) eq_refl) as [[? _]|Hlow]; [done|].
  destruct (target_fit _ Hlow) as (Hscope & Hopen & Hsrc).
  destruct (final_concrete (low c) l' Hscope Hopen) as [Hc' Href];
    [intros x Hx; by apply source_resolved, Hsrc|done|].
  assert (Hlow_flow : exists y, y ∈ leaves l' /\ D y /\ flows_to (subst_label subs t) y = Ok true).
  { apply (refines_low _ _ _ Href); [|done].
    pose proof (collapse_target_spec Dc _ _ Hscope Ht) as Hspec.
    destruct (low c); simpl in Hspec; subst; try (by left). apply Hspec. }
  destruct Hlow_flow as (y & Hy & HDy & Hty). rewrite concrete_leaves in Hy by done.
  apply list_elem_of_singleton in Hy as ->.
  apply (flows_trans _ (subst_label subs t) _); [by apply label_D| |done..].
  destruct (subst_label_D subs t subs_D) as [?|?]; [|congruence|done].
  pose proof (collapse_target_spec Dc _ _ Hscope Ht) as Hspec.
  destruct (is_min_of (low c)) eqn:Hm; [right; apply Hspec|subst t].
  apply (Hscope (low c)). destruct (low c); try done; by left.
Qed.

Lemma all_fit m : subnode ast m -> fit (label_apply subs) (subst_label subs) m.
Proof using All.
  intros Hm. split.
  - intros l' Hl'.
    destruct (final_concrete (node_label m) l' (inf_scope m Hm)) as [Hc Href].
    + by eapply (inf_open _ _ Hinf).
    + intros a Ha. apply source_resolved. exists m. split; [done|by left].
    + done.
    + apply (refines_from _ _ _ Href). rewrite concrete_leaves by done. by left.
  - intros h hl Hh Hhl.
    pose proof (inf_handles _ _ Hinf m h hl Hm Hh Hhl) as Hmen.
    assert (Hc : concrete hl = true) by by apply Dc, (inf_order _ _ Hinf).
    apply Hlabels in Hmen.
    assert (Hfin : label_apply subs hl = Ok hl).
    { pose proof subs_D as Hs. clear -Hs Hc. induction Hs as [|[n t] subs [_ Ht] Hs IH]; [done|].
      unfold label_apply. simpl. fold (label_apply subs hl). rewrite IH. simpl in *.
      destruct hl; try done; simpl; (rewrite decide_False; [done|]); by intros <-. }
    split; [done|]. intros l'. rewrite Hfin. intros [= <-]. exists hl.
    split; [rewrite concrete_leaves by done; by left|by apply subst_mentioned].
Qed.

Lemma final_top : label_apply subs top = Ok top.
Proof using Hsubs Hlabels Hinf.
  pose proof subs_D as Hs. clear -Hs. induction Hs as [|[n t] subs [_ Ht] Hs IH]; [done|].
  unfold label_apply. simpl. fold (label_apply subs top). rewrite IH. simpl in *.
  rewrite decide_False; [done|]. by intros <-.
Qed.

Lemma solved_replaced : replace_stmt (label_apply subs) ast = Ok ast'.
Proof using All. apply apply_replace; [by eapply collected_replaceable|done]. Qed.

Lemma solved_safe : flow_safe [] ast'.
Proof using All.
  assert (Hcov : covers (subst_label subs) top []).
  { intros p Hp. by apply elem_of_nil in Hp. }
  eapply (stmt_flows _ _ final_top top [] ast cs);
    [done|apply all_fit|done|apply all_sat|apply solved_replaced].
Qed.

Lemma solved_concrete m' : subnode ast' m' -> concrete (node_label m') = true.
Proof using All.
  intros Hm'. destruct (replaced_subnode _ final_top ast ast' m' solved_replaced Hm')
    as (m & Hm & Hlm).
  eapply final_concrete; [by apply inf_scope|by eapply (inf_open _ _ Hinf)| |exact Hlm].
  intros a Ha. apply source_resolved. exists m. split; [done|by left].
Qed.
End solved.

Lemma infer_labels_safe : infer_labels ast = Ok ast' ->
  flow_safe [] ast' /\ forall m, subnode ast' m -> concrete (node_label m) = true.
Proof using All.
  intros Hi. destruct (infer_labels_solution Dc ast ast' (inf_order _ _ Hinf) Hi)
    as (labels & cs & subs & Hlab & Hcs & _ & Hsubs & Ha & Hh).
  destruct (proper_labels_spec ast labels (inf_order _ _ Hinf) Hlab) as [Hl _].
  split; [by eapply solved_safe|]. intros m. by eapply solved_concrete.
Qed.
End theorem.
