(* ===== verification/InferenceComplete.v ===== *)
(** * Completeness of label inference

    If the constraints of a program have a solution at all, inference succeeds,
    and every label it infers flows to that of any other solution: variables
    get the most trusted label the program allows. *)
From S2P Require Import Prelude TypeLists Labels TypedAst LabelCollect LabelInference.
From S2P Require Import InferenceSound InferenceFlow.

(** ** Replacement is defined *)

Section defined.
Context `{LabelOrder D} (Dc : forall l, D l -> concrete l = true).

Lemma can_resolve_defined l : is_min_of l = true -> open_label l = true ->
  exists b, can_resolve l = Ok b.
Proof using Type.
  induction l as [s|i j|a IHa b IHb|p]; intros Hm Ho; try done. simpl in Ho.
  rewrite !andb_true_iff in Ho. destruct Ho as [[Hn Ha] Hb].
  destruct a, b; simpl in *; try done; eauto.
  destruct (IHa eq_refl Ha) as [? ->]. destruct (IHb eq_refl Hb) as [? ->]. simpl. eauto.
Qed.

Lemma label_replace_defined t n l : is_temp_label t = true -> D n -> in_scope (D := D) l ->
  exists l', label_replace t n l = Ok l'.
Proof using Type*.
  intros Ht Hn. assert (Hs : subs_in_scope (D := D) [Substitution n t]) by by repeat constructor.
  induction l as [s|i j|a IHa b IHb|p]; intros Hl; cbn [label_replace]; eauto.
  apply in_scope_min in Hl as [Hla Hlb].
  destruct (IHa Hla) as [a' Ha]. destruct (IHb Hlb) as [b' Hb]. rewrite Ha, Hb. simpl.
  destruct (label_replace_refines Dc t n a a' Ht Hn Hla Ha) as [Hra Hoa].
  destruct (label_replace_refines Dc t n b b' Ht Hn Hlb Hb) as [Hrb Hob].
  unfold resolve. destruct (concrete a' && concrete b') eqn:Hc.
  - apply andb_true_iff in Hc as [Hca Hcb]. rewrite resolve_concrete by done.
    destruct (min_of_spec a' [b']) as (m & Hm & _); [|constructor; [|constructor]|by exists m].
    + apply concrete_scope; [done|]. exact (refines_scope _ _ _ Hs Hla Hra).
    + apply concrete_scope; [done|]. exact (refines_scope _ _ _ Hs Hlb Hrb).
  - rewrite resolve_rest by done. destruct (can_resolve_defined (LMin a' b')) as [? ->];
      [done|simpl; by rewrite Hc, Hoa, Hob|simpl; eauto].
Qed.

(** Nodes the [_replace] overloads accept *)
Definition node_replaceable (n : node) : bool :=
  match n with
  | NE (EEndorse l _ le _) => bool_decide (l = le) && concrete l
  | NE (EGenerateTombstone _) | NS (SWriteTombstone _ _) | NS (SAccompanyWrite _ _) => false
  | NS (SWhile _ _ _ name) => bool_decide (name = ""%string)
  | _ => true
  end.

Definition replaceable (n : node) : Prop :=
  forall m, subnode n m -> node_replaceable m = true /\ in_scope (D := D) (node_label m).

Lemma replaceable_below n k : replaceable n -> k ∈ operands n -> replaceable k.
Proof using Type. intros Hn Hk m Hm. apply Hn. by econstructor. Qed.

Section replace_defined.
Variable f : label -> outcome label.
Hypothesis Hf : forall l, in_scope (D := D) l -> exists l', f l = Ok l'.

(** Run [f] on the label and the traversal on an operand of the node of [Hr]. *)
Ltac run Hr lem :=
  let r := fresh "r" in
  destruct lem as [r ->];
  [first [apply (Hr _ (sub_here _))
         | eapply replaceable_below; [exact Hr|simpl; rewrite ?elem_of_cons; tauto]]|];
  cbn [mbind outcome_bind].

Lemma replace_expr_defined (e : expr) : replaceable e -> exists e', replace_expr f e = Ok e'.
Proof using Hf.
  induction e as [l y v|l y s w IH|i|l y op L R IHL IHR|l|l h IH|l y le h IH|l y n h args IH IHa]
    using expr_ind'; intros Hr; cbn [replace_expr]; destruct (Hr _ (sub_here _)) as [Hn _];
    simpl in Hn; try done.
  - run Hr (Hf l). eauto.
  - run Hr (Hf l). run Hr IH. eauto.
  - eauto.
  - run Hr (Hf l). run Hr IHL. run Hr IHR. eauto.
  - run Hr (Hf l). run Hr IH. eauto.
  - apply andb_true_iff in Hn as [-> _]. cbn [assert_ok mbind outcome_bind].
    run Hr (Hf l). run Hr IH. eauto.
  - run Hr (Hf l). run Hr IH. destruct (traverse_defined (replace_expr f) args) as [rs ->];
      [|simpl; eauto]. intros a Ha. rewrite Forall_forall in IHa. apply IHa; [done|].
    eapply replaceable_below; [done|]. right. by apply list_elem_of_fmap_2.
Qed.

Lemma replace_stmt_defined (s : stmt) : replaceable s -> exists s', replace_stmt f s = Ok s'.
Proof using Hf.
  pose proof replace_expr_defined as He.
  assert (Hb : forall b : binding, replaceable b -> exists b', replace_binding f b = Ok b').
  { intros b Hr. unfold replace_binding. run Hr (Hf (b_label b)). run Hr (He (b_expr b)). eauto. }
  induction s as [l b s IH|l b s IH|l n h args|l v e|l e|l e|l e|l c t e IHt IHe|l c s n IH|l ss IH]
    using stmt_ind'; intros Hr; cbn [replace_stmt]; destruct (Hr _ (sub_here _)) as [Hn _];
    simpl in Hn; try done.
  1-2: run Hr (Hf l); run Hr (Hb b); run Hr IH; eauto.
  - run Hr (Hf l). run Hr (He h). destruct (traverse_defined (replace_expr f) args) as [rs ->];
      [|simpl; eauto]. intros a Ha. apply He.
    eapply replaceable_below; [done|]. right. by apply list_elem_of_fmap_2.
  - run Hr (Hf l). run Hr (He v). run Hr (He e). eauto.
  - run Hr (Hf l). run Hr (He e). eauto.
  - run Hr (Hf l). run Hr (He c). run Hr IHt. run Hr IHe. eauto.
  - rewrite Hn. cbn [assert_ok mbind outcome_bind]. run Hr (Hf l). run Hr (He c). run Hr IH. eauto.
  - run Hr (Hf l). destruct (traverse_defined (replace_stmt f) ss) as [rs ->];
      [|simpl; eauto]. intros s Hs. rewrite Forall_forall in IH. apply IH; [done|].
    eapply replaceable_below; [done|]. by apply list_elem_of_fmap_2.
Qed.
End replace_defined.

Lemma replace_label_defined t n (ast : stmt) : is_temp_label t = true -> D n ->
  replaceable ast -> exists ast', replace_label t n ast = Ok ast' /\ replaceable ast'.
Proof using Type*.
  intros Ht Hn Hr. assert (Htop : label_replace t n top = Ok top).
  { simpl. rewrite decide_False; [done|]. by intros <-. }
  destruct (replace_stmt_defined (label_replace t n)
    (fun l => label_replace_defined t n l Ht Hn) ast Hr) as [ast' Ha].
  exists ast'. split; [done|]. intros m' Hm'.
  destruct (replaced_origin _ Htop ast ast' m' Ha Hm') as (m & Hm & Hmm).
  destruct (Hr m Hm) as [Hok Hscope].
  destruct (replaced_step _ Htop m m' Hmm) as [Hl _]. split.
  - destruct m as [e|b|s], m' as [e'|b'|s']; simpl in Hmm; try done.
    + destruct e; cbn [replace_expr] in Hmm; outcome_inv; try done.
      simpl in Hok. apply andb_true_iff in Hok as [Hle Hc]. apply bool_decide_eq_true in Hle as ->.
      assert (Hle : label_replace t n le = Ok le).
      { destruct le; try done; simpl; (rewrite decide_False; [done|]); by intros <-. }
      simpl in Hl. rewrite Hle in Hl. injection Hl as <-. simpl.
      by rewrite Hc, bool_decide_eq_true_2.
    + destruct s; cbn [replace_stmt] in Hmm; by outcome_inv.
  - eapply refines_scope; [|exact Hscope|by apply label_replace_refines]. by repeat constructor.
Qed.
End defined.

(** ** Solutions *)

Section solutions.
Context `{LabelOrder D} `{!TypeLists} `{!TypeListLaws}.
Context (Dc : forall l, D l -> concrete l = true).
Implicit Types (c : constraint) (cs : list constraint) (rho : label -> label).

(** A choice of a label for every temporary *)
Definition assignment rho : Prop :=
  (forall x, D x -> rho x = x) /\ forall x, is_temp_label x = true -> D (rho x).

(** The choice satisfies every constraint, minima taken apart. *)
Definition solves rho cs : Prop :=
  forall c a, c ∈ cs -> a ∈ leaves (high c) ->
    exists t, collapse_target (low c) = Ok t /\ flows_to (rho a) (rho t) = Ok true.

Definition end_scope (l : label) : Prop := is_temp_label l = true \/ D l.

Lemma less_than_defined a b : end_scope a -> end_scope b -> exists r, less_than a b = Ok r.
Proof using Type*.
  intros [Ha|Ha] [Hb|Hb].
  - destruct a, b; try done. simpl. eauto.
  - pose proof (Dc b Hb). destruct a, b; try done; simpl; eauto.
  - pose proof (Dc a Ha). destruct a, b; try done; simpl; eauto.
  - rewrite (less_than_concrete Dc) by done. by apply flows_defined.
Qed.

Lemma sort_defined cs : (forall c, c ∈ cs -> end_scope (high c) /\ end_scope (low c)) ->
  exists cs', sort_constraints cs = Ok cs'.
Proof using Type*.
  intros Hcs. apply typelist_sort_defined. intros c c2 [Hh Hl]%Hcs [Hh2 Hl2]%Hcs. unfold lte.
  destruct (less_than_defined _ _ Hl Hl2) as [? ->].
  destruct (less_than_defined _ _ Hh Hh2) as [? ->]. simpl. eauto.
Qed.

Section calls.
Variable rho : label -> label.
Hypothesis Hrho : assignment rho.

(** What a pending constraint satisfies once the labels [P] are done *)
Definition pending (P : list label) c : Prop :=
  end_scope (high c) /\ end_scope (low c) /\
  (low c ∈ P \/ flows_to (rho (high c)) (rho (low c)) = Ok true).

Lemma pending_weaken (P Q : list label) c : (forall x, x ∈ P -> x ∈ Q) -> pending P c -> pending Q c.
Proof using Type. unfold pending. naive_solver. Qed.

Lemma rho_D x : end_scope x -> D (rho x).
Proof using Hrho. intros [Hx|Hx]; [by apply Hrho|by rewrite (proj1 Hrho)]. Qed.

Lemma pending_substitute P lbl t1 t2 c : D lbl ->
  flows_to lbl (rho (LTemp t1 t2)) = Ok true ->
  pending (lbl :: P) c -> pending (lbl :: P) (constraint_substitute lbl (LTemp t1 t2) c).
Proof using Type* Hrho.
  intros HD Hf (Hh & Hl & Hor). unfold pending, constraint_substitute. cbn [high low].
  destruct (decide (LTemp t1 t2 = low c)) as [Heq|Hne].
  { split_and!; [by case_decide; [right|]|by right|by left; left]. }
  split; [by case_decide; [right|]|]. split; [done|]. destruct Hor as [?|Hflow]; [by left|right].
  destruct (decide (LTemp t1 t2 = high c)) as [Heq|]; [|done].
  rewrite (proj1 Hrho lbl) by done. rewrite <- Heq in Hflow.
  apply (flows_trans lbl (rho (LTemp t1 t2)) _); auto using rho_D.
  apply rho_D. by left.
Qed.

Lemma pending_minimize P c0 cs : pending P c0 -> Forall (pending P) cs ->
  Forall (pending P) (minimize_constraints (c0 :: cs)).
Proof using Type*.
  intros Hc0 Hcs. rewrite Forall_forall in *. intros c [Hc _]%elem_of_minimize.
  apply elem_of_cons in Hc as [->|Hc]; auto.
Qed.

Lemma call_complete fuel (ast : stmt) lbl cs (P : list label) : length cs < fuel -> D lbl ->
  (forall p, p ∈ P -> D p /\ flows_to lbl p = Ok true) ->
  replaceable (D := D) ast -> Forall (pending (lbl :: P)) cs ->
  exists r, replace_all_less_than_fuel fuel ast lbl cs = Ok r /\
    replaceable (D := D) (ret_ast r) /\ Forall (pending (lbl :: P)) (ret_constraints r) /\
    Forall (fun s => flows_to (newl s) (rho (oldl s)) = Ok true) (ret_substitutions r).
Proof using Type* Hrho.
  intros Hfuel HD HP. revert ast cs Hfuel. induction fuel as [|fuel IH]; intros ast cs Hfuel Hast Hcs; [lia|].
  cbn [replace_all_less_than_fuel]. destruct cs as [|c rest].
  { eexists; split; [done|]. simpl. split_and!; [done|constructor..]. }
  simpl in Hfuel. inversion Hcs as [|? ? Hc Hrest]; subst.
  assert (Hrec : exists r, replace_all_less_than_fuel fuel ast lbl rest = Ok r /\
    replaceable (D := D) (ret_ast r) /\ Forall (pending (lbl :: P)) (ret_constraints r) /\
    Forall (fun s => flows_to (newl s) (rho (oldl s)) = Ok true) (ret_substitutions r)).
  { apply IH; [lia|done|done]. }
  assert (Hkeep : exists r, (r ← replace_all_less_than_fuel fuel ast lbl rest;
      Ok (Ret (ret_ast r) (minimize_constraints (c :: ret_constraints r)) (ret_substitutions r)))
      = Ok r /\ replaceable (D := D) (ret_ast r) /\ Forall (pending (lbl :: P)) (ret_constraints r) /\
    Forall (fun s => flows_to (newl s) (rho (oldl s)) = Ok true) (ret_substitutions r)).
  { destruct Hrec as (r & -> & ? & ? & ?). simpl. eexists; split; [done|]. simpl.
    split_and!; [done|by apply pending_minimize|done]. }
  destruct (decide (high c = lbl)) as [Hhi|]; [|done].
  destruct Hc as (Hh & Hl & Hor). destruct (is_temp_label (low c)) eqn:Htl.
  - destruct (low c) as [|t1 t2| |] eqn:Hlow; try done.
    assert (Hflow : flows_to lbl (rho (LTemp t1 t2)) = Ok true).
    { destruct Hor as [Hin|Hflow].
      - exfalso. pose proof (D_not_temp Dc (LTemp t1 t2)) as Hnt. apply elem_of_cons in Hin as [<-|Hin].
        + by specialize (Hnt HD).
        + by specialize (Hnt (proj1 (HP _ Hin))).
      - by rewrite Hhi, (proj1 Hrho lbl HD) in Hflow. }
    rewrite bool_decide_eq_false_2 by (intros ->; by apply Dc in HD).
    cbn [negb assert_ok mbind outcome_bind].
    destruct (replace_label_defined Dc (LTemp t1 t2) lbl ast eq_refl HD Hast) as (ast1 & -> & Hast1).
    cbn [mbind outcome_bind].
    assert (Hsub : Forall (pending (lbl :: P)) (substitute lbl (LTemp t1 t2) rest)).
    { apply Forall_fmap. eapply Forall_impl; [exact Hrest|]. intros c' Hc'.
      by apply pending_substitute. }
    destruct (sort_defined (substitute lbl (LTemp t1 t2) rest)) as [sorted Hsort].
    { intros c' Hc'. rewrite Forall_forall in Hsub. by destruct (Hsub c' Hc') as (? & ? & _). }
    rewrite Hsort. cbn [mbind outcome_bind].
    destruct (IH ast1 sorted) as (r & -> & Hr1 & Hr2 & Hr3); [|done| |].
    { apply sort_length in Hsort. unfold substitute in Hsort. rewrite length_fmap in Hsort. lia. }
    { rewrite Forall_forall in *. intros c' Hc'. apply Hsub. by rewrite <- sort_elem. }
    eexists; split; [done|]. simpl. split_and!; [done| |].
    + apply pending_minimize; [|done]. unfold pending. simpl.
      split_and!; [by right|by right|left; by left].
    + apply Forall_app. split; [done|]. by repeat constructor.
  - assert (Hflow : flows_to lbl (low c) = Ok true).
    { destruct Hl as [Hl|Hl]; [congruence|]. destruct Hor as [Hin|Hflow].
      - apply elem_of_cons in Hin as [->|Hin]; [by apply flows_refl|by apply HP].
      - by rewrite Hhi, !(proj1 Hrho) in Hflow. }
    destruct Hkeep as (r & Hr & Hr').
    exists r. split; [|done]. destruct (low c); try done; outcome_inv;
      match goal with Hx : replace_all_less_than_fuel _ _ _ _ = Ok _ |- _ => rewrite Hx end;
      cbn [mbind outcome_bind]; by rewrite Hflow.
Qed.
Lemma helper_complete labels : forall (ast : stmt) cs (P : list label),
  StronglySorted (fun x y => x <> y /\ flows_to y x = Ok true) labels -> Forall D labels ->
  (forall p l, p ∈ P -> l ∈ labels -> D p /\ flows_to l p = Ok true) ->
  replaceable (D := D) ast -> Forall (pending P) cs ->
  exists r, infer_labels_helper1 ast cs labels = Ok r.
Proof using Type* Hrho.
  induction labels as [|lbl labels IH]; intros ast cs P Hso HD HP Hast Hcs;
    cbn [infer_labels_helper1]; [eauto|].
  inversion Hso as [|? ? Hso' Hall]; subst. inversion HD as [|? ? HDl HDs]; subst.
  destruct (sort_defined cs) as [sorted Hsort].
  { intros c Hc. rewrite Forall_forall in Hcs. by destruct (Hcs c Hc) as (? & ? & _). }
  rewrite Hsort. cbn [mbind outcome_bind]. unfold replace_all_less_than.
  destruct (call_complete (S (length sorted)) ast lbl sorted P) as (r & -> & Hr1 & Hr2 & _);
    [lia|done| |done| |].
  { intros p Hp. apply HP; [done|by left]. }
  { apply Forall_forall. intros c Hc. rewrite sort_elem in Hc by done.
    rewrite Forall_forall in Hcs. eapply pending_weaken; [|by apply Hcs].
    intros x Hx. by right. }
  cbn [mbind outcome_bind]. eapply (IH _ _ (lbl :: P)); [done|done| |done|done].
  intros p l Hp Hl. apply elem_of_cons in Hp as [->|Hp].
  - split; [done|]. rewrite Forall_forall in Hall. by apply Hall.
  - apply HP; [done|by right].
Qed.

(** No call moves a temporary below a solution's label for it. *)
Lemma run_greatest (ast : stmt) cs labels subs res : forall (P : list label),
  infer_run ast cs labels subs res ->
  StronglySorted (fun x y => x <> y /\ flows_to y x = Ok true) labels -> Forall D labels ->
  (forall p l, p ∈ P -> l ∈ labels -> D p /\ flows_to l p = Ok true) ->
  replaceable (D := D) ast -> Forall (pending P) cs ->
  Forall (fun s => flows_to (newl s) (rho (oldl s)) = Ok true) subs.
Proof using Type* Hrho.
  intros P Hrun. revert P. induction Hrun as [|ast cs lbl labels sorted r subs res Hsort Hcall Hrun IH];
    intros P Hso HD HP Hast Hcs; [constructor|].
  inversion Hso as [|? ? Hso' Hall]; subst. inversion HD as [|? ? HDl HDs]; subst.
  unfold replace_all_less_than in Hcall.
  destruct (call_complete (S (length sorted)) ast lbl sorted P) as (r' & Hr' & Hr1 & Hr2 & Hr3);
    [lia|done| |done| |].
  { intros p Hp. apply HP; [done|by left]. }
  { apply Forall_forall. intros c Hc. rewrite sort_elem in Hc by done.
    rewrite Forall_forall in Hcs. eapply pending_weaken; [|by apply Hcs].
    intros x Hx. by right. }
  rewrite Hcall in Hr'. injection Hr' as <-. apply Forall_app. split; [|done].
  apply (IH (lbl :: P)); [done|done| |done|done].
  intros p l Hp Hl. apply elem_of_cons in Hp as [->|Hp].
  - split; [done|]. rewrite Forall_forall in Hall. by apply Hall.
  - apply HP; [done|by right].
Qed.

Lemma subst_label_temp subs t : subs_in_scope (D := D) subs ->
  is_temp_label (subst_label subs t) = true -> subst_label subs t = t.
Proof using Dc.
  induction 1 as [|s subs [HD Ho] Hs IH]; simpl; [done|].
  case_decide; [|done]. intros Hn. by rewrite (D_not_temp Dc) in Hn.
Qed.

Lemma subst_greatest subs t : is_temp_label t = true -> subs_in_scope (D := D) subs ->
  is_temp_label (subst_label subs t) = false ->
  Forall (fun s => flows_to (newl s) (rho (oldl s)) = Ok true) subs ->
  flows_to (subst_label subs t) (rho t) = Ok true.
Proof using Dc.
  intros Ht Hs. induction Hs as [|s subs [HD Ho] Hs IH]; simpl; intros Hn Hf; [congruence|].
  inversion Hf as [|? ? Hf1 Hf2]; subst. case_decide as Heq; [|auto].
  assert (Htt : subst_label subs t = t) by (apply subst_label_temp; [exact Hs|congruence]).
  congruence.
Qed.
End calls.

Lemma collapse_defined cs :
  (forall c, c ∈ cs -> exists t, collapse_target (low c) = Ok t) ->
  exists cs', collapse_constraints cs = Ok cs'.
Proof using Type.
  intros Hcs. remember (collapse_measure cs) as n eqn:Hn. revert cs Hn Hcs.
  induction n as [n IH] using lt_wf_ind. intros cs -> Hcs.
  rewrite collapse_unfold. destruct cs as [|[from to w] rest]; [eauto|].
  pose proof (label_size_pos from).
  destruct (Hcs _ (list_elem_of_here _ _)) as [t Ht]. simpl in Ht.
  assert (Hrest : exists cs', collapse_constraints rest = Ok cs').
  { apply (IH (collapse_measure rest)); [unfold collapse_measure; simpl; lia|done|].
    intros c Hc. apply Hcs. by right. }
  destruct Hrest as [rest' Hrest]. destruct from as [s|i j|a b|p].
  3: { apply (IH (collapse_measure (must_flow_to a to w :: must_flow_to b to w :: rest)));
       [unfold collapse_measure; simpl; lia|done|].
       intros c Hc. rewrite !elem_of_cons in Hc. destruct Hc as [->|[->|Hc]]; simpl; [eauto..|].
       apply Hcs. by right. }
  all: rewrite Ht, Hrest; simpl; eauto.
Qed.

Lemma leaves_nonempty l : exists a, a ∈ leaves l.
Proof using Type.
  induction l as [s|i j|a [x Hx] b _|p]; simpl; try (eexists; by left).
  exists x. apply elem_of_app. by left.
Qed.

Lemma collected_tree_replaceable (ast : stmt) pc cs : collect_constraints pc ast = Ok cs ->
  collectable ast -> (forall m, subnode ast m -> in_scope (D := D) (node_label m)) ->
  replaceable (D := D) ast.
Proof using Type.
  intros Hc%collected_replaceable Hcol Hscope m Hm. split; [|by apply Hscope].
  destruct (replaced_origin Ok eq_refl ast ast m Hc Hm) as (m0 & _ & Hmm).
  destruct (Hcol m Hm) as [Hok _].
  destruct m as [e|b|s], m0 as [e0|b0|s0]; simpl in Hmm; try done.
  - destruct e; try done. destruct e0; cbn [replace_expr] in Hmm; by outcome_inv.
  - destruct s; try done; destruct s0; cbn [replace_stmt] in Hmm; by outcome_inv.
Qed.
End solutions.

(** ** The theorems *)

Section theorems.
Context `{LabelOrder D} `{!TypeLists} `{!TypeListLaws}.
Context (Dc : forall l, D l -> concrete l = true).
Variables (ast : stmt) (cs : list constraint).
Hypothesis Hinf : inferable D ast.
Hypothesis Hcol : collectable ast.
Hypothesis Hcs : collect_constraints top ast = Ok cs.

Lemma ends_scope (c : constraint) : c ∈ cs ->
  in_scope (D := D) (low c) /\ forall a, a ∈ leaves (high c) -> end_scope (D := D) a.
Proof using Type*.
  intros Hc. pose proof (stmt_ends top ast cs Hcs) as He. unfold ends in He.
  rewrite Forall_forall in He. specialize (He c Hc). split.
  - destruct (He false (low c) eq_refl) as [[? _]|Hs]; [done|].
    by destruct (target_fit Dc ast Hinf _ Hs).
  - intros a Ha. destruct (He true a Ha) as [[_ Htop]|(m & Hm & [Hl|(h & hl & Hh & Hhl & Hl)])].
    + apply list_elem_of_singleton in Htop as ->. right.
      apply (inf_order _ _ Hinf), (inf_top _ _ Hinf).
    + by apply (inf_scope ast Hinf m Hm).
    + pose proof (inf_order _ _ Hinf _ (inf_handles _ _ Hinf m h hl Hm Hh Hhl)) as HD.
      simpl in Hl. rewrite concrete_leaves in Hl by auto.
      apply list_elem_of_singleton in Hl as ->. by right.
Qed.

Lemma target_scope l t : in_scope (D := D) l -> collapse_target l = Ok t -> end_scope (D := D) t.
Proof using Dc H0.
  intros Hl Ht. pose proof (collapse_target_spec Dc l t Hl Ht) as Hspec.
  destruct (is_min_of l) eqn:Hm; [right; apply Hspec|subst t].
  apply Hl. destruct l; try done; by left.
Qed.

Lemma collapsed_pending rho cs1 : solves rho cs -> collapse_constraints cs = Ok cs1 ->
  Forall (pending (D := D) rho []) (minimize_constraints cs1).
Proof using Type*.
  intros Hsol Hcs1. apply Forall_forall. intros c' [Hc' _]%elem_of_minimize.
  apply (collapse_spec cs cs1 c' Hcs1) in Hc' as (c & Hc & Hh & Ht & _).
  destruct (ends_scope c Hc) as [Hlow Hhigh]. split; [by apply Hhigh|].
  split; [exact (target_scope _ _ Hlow Ht)|]. right.
  destruct (Hsol c (high c') Hc Hh) as (t & Ht' & Hf). congruence.
Qed.

Lemma solvable_infers rho : assignment (D := D) rho -> solves rho cs ->
  exists ast', infer_labels ast = Ok ast'.
Proof using Type*.
  intros Hrho Hsol. unfold infer_labels.
  destruct (proper_labels_defined ast (inf_order _ _ Hinf) Hcol) as [labels Hlab].
  rewrite Hlab, Hcs. cbn [mbind outcome_bind].
  destruct (proper_labels_spec ast labels (inf_order _ _ Hinf) Hlab) as [Hels Hasc].
  destruct (collapse_defined cs) as [cs1 Hcs1].
  { intros c Hc. destruct (leaves_nonempty (high c)) as [a Ha].
    destruct (Hsol c a Hc Ha) as (t & ? & _). eauto. }
  rewrite Hcs1. cbn [mbind outcome_bind].
  destruct (helper_complete Dc rho Hrho labels ast (minimize_constraints cs1) []) as [r Hr].
  - done.
  - apply Forall_forall. intros x Hx. by apply (inf_order _ _ Hinf), Hels.
  - intros p l Hp. by apply elem_of_nil in Hp.
  - eapply collected_tree_replaceable; [done|done|]. intros m Hm. by apply (inf_scope ast Hinf).
  - by apply collapsed_pending.
  - rewrite Hr. simpl. eauto.
Qed.

(** The inferred labels, with an arbitrary choice for labels nothing declares *)
Definition inferred (subs : list substitution) (x : label) : label :=
  if is_temp_label (subst_label subs x) then top else subst_label subs x.

Lemma inferred_solution ast' : infer_labels ast = Ok ast' ->
  exists subs, apply_substitutions subs ast = Ok ast' /\
    assignment (D := D) (inferred subs) /\ solves (inferred subs) cs /\
    forall t (b : binding), subnode ast b -> b_label b = t ->
      is_temp_label (subst_label subs t) = false.
Proof using Type*.
  intros Hi. destruct (infer_labels_solution Dc ast ast' (inf_order _ _ Hinf) Hi)
    as (labels & cs' & subs & Hlab & Hcs' & _ & Hsubs & Ha & Hh).
  rewrite Hcs in Hcs'. injection Hcs' as <-.
  destruct (proper_labels_spec ast labels (inf_order _ _ Hinf) Hlab) as [Hels _].
  pose proof (subs_D ast Hinf labels subs Hels Hsubs) as HDs.
  exists subs. split; [done|]. split_and!.
  - split.
    + intros x Hx. assert (subst_label subs x = x) as Hid.
      { assert (Ht : is_temp_label x = false) by by apply (D_not_temp Dc).
        clear -HDs Ht. induction HDs as [|s subs [_ Hold] Hs IH]; simpl; [done|].
        rewrite IH. case_decide; [congruence|done]. }
      unfold inferred. by rewrite Hid, (D_not_temp Dc).
    + intros x Hx. unfold inferred. destruct (is_temp_label (subst_label subs x)) eqn:Ht.
      * apply (inf_order _ _ Hinf), (inf_top _ _ Hinf).
      * destruct (subst_label_D subs x HDs) as [?|?]; [by left|congruence|done].
  - intros c a Hc Hla.
    assert (Hin : subst_label subs a ∈ labels).
    { pose proof (stmt_ends top ast cs Hcs) as He. unfold ends in He.
      rewrite Forall_forall in He.
      eapply from_tree_resolved; [done|exact Hinf|exact Hcs|done..|]. by apply (He c Hc true). }
    destruct (Hh c a Hc Hla Hin) as (t & Ht & Hf & Htt). exists t. split; [done|].
    unfold inferred. rewrite Htt. rewrite (D_not_temp Dc); [done|].
    by apply (inf_order _ _ Hinf), Hels.
  - intros t b Hb <-. destruct (is_temp_label (b_label b)) eqn:Ht.
    + apply (D_not_temp Dc), (inf_order _ _ Hinf), Hels.
      by eapply (declared_resolved Dc ast ast' Hinf labels cs subs Hcs Hels Hsubs Ha Hh _ b).
    + clear -HDs Ht. assert (Hid : subst_label subs (b_label b) = b_label b); [|by rewrite Hid].
      induction HDs as [|s subs [_ Hold] Hs IH]; simpl; [done|].
      rewrite IH. case_decide; [congruence|done].
Qed.

Lemma inferred_greatest ast' rho : assignment (D := D) rho -> solves rho cs ->
  infer_labels ast = Ok ast' ->
  exists subs, apply_substitutions subs ast = Ok ast' /\
    forall t (b : binding), subnode ast b -> b_label b = t -> is_temp_label t = true ->
      D (subst_label subs t) /\ flows_to (subst_label subs t) (rho t) = Ok true.
Proof using Type*.
  intros Hrho Hsol Hi. destruct (infer_labels_solution Dc ast ast' (inf_order _ _ Hinf) Hi)
    as (labels & cs' & subs & Hlab & Hcs' & (cs1 & cs2 & Hcs1 & Hrun) & Hsubs & Ha & Hh).
  rewrite Hcs in Hcs'. injection Hcs' as <-.
  destruct (proper_labels_spec ast labels (inf_order _ _ Hinf) Hlab) as [Hels Hasc].
  pose proof (subs_D ast Hinf labels subs Hels Hsubs) as HDs.
  exists subs. split; [done|]. intros t b Hb Hbt Ht.
  pose proof (declared_resolved Dc ast ast' Hinf labels cs subs Hcs Hels Hsubs Ha Hh t b Hb Hbt Ht) as Hin.
  assert (HDt : D (subst_label subs t)) by by apply (inf_order _ _ Hinf), Hels.
  split; [done|]. apply (subst_greatest (D := D) Dc); [done|done|by apply (D_not_temp Dc)|].
  apply (run_greatest Dc rho Hrho ast (minimize_constraints cs1) labels subs _ [] Hrun Hasc).
  - apply Forall_forall. intros x Hx. by apply (inf_order _ _ Hinf), Hels.
  - intros p l Hp. by apply elem_of_nil in Hp.
  - eapply collected_tree_replaceable; [done|done|]. intros m Hm. by apply (inf_scope ast Hinf).
  - by eapply collapsed_pending.
Qed.
End theorems.

(** ** Properties *)

Section properties.
Context `{LabelOrder D} `{!TypeLists} `{!TypeListLaws}.
Context (Dc : forall l, D l -> concrete l = true).

(** C33: what inference returns is flow safe.  Every bound expression flows to
    its variable, every assigned expression to the variable assigned, and every
    operand to the handle it is used with.  Whatever decides whether a binding or an
    assignment runs flows to its variable: enclosing conditions and, for a
    remote binding, the pointer and the handle it goes through.  That is all that is
    asked of conditions: what decides whether an operation runs on a handle, or whether
    the transaction returns, need not flow there ([operation_under_any_condition]).
    No temporary and no unresolved minimum is left in the tree. *)
Theorem infer_labels_flow_safe (ast ast' : stmt) : inferable D ast ->
  infer_labels ast = Ok ast' ->
  flow_safe [] ast' /\ contains_improper_labels ast' = false.
Proof using Type*.
  intros Hinf Hi. destruct (infer_labels_safe Dc ast ast' Hinf Hi) as [Hsafe Hc].
  split; [done|]. unfold contains_improper_labels.
  change (contains_label improper_label ast' = false). apply not_true_iff_false.
  rewrite contains_label_spec. intros (m & Hm & _ & Himp).
  rewrite improper_concrete, (Hc m Hm) in Himp. done.
Qed.

(** C34: inference succeeds exactly when the collected constraints can be
    satisfied by some choice of complete labels for the temporaries: a
    program is rejected only if no labelling makes it flow safe. *)
Theorem infer_labels_iff_solvable (ast : stmt) cs : inferable D ast -> collectable ast ->
  collect_constraints top ast = Ok cs ->
  (exists ast', infer_labels ast = Ok ast') <->
  (exists rho, assignment (D := D) rho /\ solves rho cs).
Proof using Type*.
  intros Hinf Hcol Hcs. split.
  - intros [ast' Hi]. destruct (inferred_solution Dc ast cs Hinf Hcol Hcs ast' Hi)
      as (subs & _ & Ha & Hs & _). eauto.
  - intros (rho & Hrho & Hsol). by eapply solvable_infers.
Qed.

(** C35: the inferred labels are the most trusted ones: whatever other choice
    [rho] satisfies the constraints, the label inferred for a declared
    variable flows to the one [rho] gives it. *)
Theorem infer_labels_greatest (ast ast' : stmt) cs rho : inferable D ast -> collectable ast ->
  collect_constraints top ast = Ok cs -> infer_labels ast = Ok ast' ->
  assignment (D := D) rho -> solves rho cs ->
  exists subs, apply_substitutions subs ast = Ok ast' /\
    forall t (b : binding), subnode ast b -> b_label b = t -> is_temp_label t = true ->
      D (subst_label subs t) /\ flows_to (subst_label subs t) (rho t) = Ok true.
Proof using Type*. intros. by eapply inferred_greatest. Qed.
End properties.

(** *** Evaluating the hypotheses *)

Definition check_inferable (inD : label -> bool) (ast : stmt) : bool :=
  let nodes := subnodes ast in
  let declared := omap (fun m => match m with NB b => Some (b_label b) | _ => None end) nodes in
  let mentioned := flat_map (fun m => label_atoms (node_label m)) nodes in
  forallb inD mentioned && bool_decide (top ∈ mentioned) &&
  forallb (fun m =>
    open_label (node_label m) &&
    forallb (fun t => negb (is_temp_label t) || bool_decide (t ∈ declared)) (leaves (node_label m)) &&
    match node_handle m with
    | Some h => match handle_label h with Ok hl => bool_decide (hl ∈ mentioned) | _ => true end
    | None => true
    end) nodes.

Lemma subnodes_fuel_sound fuel n m : m ∈ subnodes_fuel fuel n -> subnode n m.
Proof.
  revert n. induction fuel as [|fuel IH]; intros n Hm; simpl in Hm; [by apply elem_of_nil in Hm|].
  apply elem_of_cons in Hm as [->|Hm]; [constructor|].
  apply list_elem_of_In, in_flat_map in Hm as (k & Hk & Hm).
  apply (sub_below n k m); [by apply list_elem_of_In|]. by apply IH, list_elem_of_In.
Qed.

Lemma check_inferable_sound `{UserLabels} (D : label -> Prop) inD ast :
  (forall x, inD x = true -> D x) -> check_inferable inD ast = true -> inferable D ast.
Proof.
  intros HinD Hc. unfold check_inferable in Hc. rewrite !andb_true_iff in Hc.
  destruct Hc as [[Hatoms Htop] Hnodes].
  assert (Hmen : forall x, x ∈ flat_map (fun m => label_atoms (node_label m)) (subnodes ast) ->
    mentions ast x).
  { intros x Hx. apply list_elem_of_In, in_flat_map in Hx as (m & Hm & Hx).
    exists m. split; [by eapply subnodes_fuel_sound, list_elem_of_In|by apply list_elem_of_In]. }
  assert (Hn : forall m, subnode ast m -> _) by exact (forall_subnode _ _ Hnodes).
  cbn beta in Hn. setoid_rewrite andb_true_iff in Hn. setoid_rewrite andb_true_iff in Hn.
  split.
  - intros x (m & Hm & Hx). apply HinD. apply (proj1 (forallb_elem _ _) Hatoms).
    apply list_elem_of_In, in_flat_map. exists m.
    split; apply list_elem_of_In; [by apply subnodes_complete|done].
  - intros m Hm. by destruct (Hn m Hm) as [[? _] _].
  - intros m t Hm Ht Htemp. destruct (Hn m Hm) as [[_ Hdecl] _].
    apply (proj1 (forallb_elem _ _) Hdecl) in Ht. rewrite Htemp in Ht. simpl in Ht.
    apply bool_decide_eq_true, list_elem_of_omap in Ht as ([e|b|s] & Hb & Hbt); try done.
    injection Hbt as <-. exists b. split; [by eapply subnodes_fuel_sound|done].
  - intros m h hl Hm Hh Hhl. destruct (Hn m Hm) as [_ Hhand]. rewrite Hh, Hhl in Hhand.
    apply Hmen. by apply bool_decide_eq_true in Hhand.
  - apply Hmen. by apply bool_decide_eq_true in Htop.
Qed.

Definition in_sql (x : label) : bool := bool_decide (x ∈ sql_labels).
Lemma in_sql_sound x : in_sql x = true -> x ∈ sql_labels.
Proof. intros Hx. by apply bool_decide_eq_true in Hx. Qed.

(** [var y = 0; remote x = hndl { if (flag) y = x }; return y] with a causal
    handle and a strong flag *)
Definition sample_remote : stmt :=
  SLet top (Binding (LTemp 1 1) TInt "y" (EConst 0))
    (SSequence top
      [SLetRemote causal (Binding (LTemp 2 2) TInt "x" (EVar top (THandle causal TInt) "hndl"))
         (SIf strong (EVar strong TBool "flag")
            (SAssignment (LMin (LMin causal (LTemp 1 1)) strong) (EVar (LTemp 1 1) TInt "y")
               (EVar causal TInt "x"))
            (SSequence strong []));
       SReturn bottom (EVar (LTemp 1 1) TInt "y")]).

Definition sample_remote_inferred : stmt :=
  SLet top (Binding causal TInt "y" (EConst 0))
    (SSequence top
      [SLetRemote causal (Binding causal TInt "x" (EVar top (THandle causal TInt) "hndl"))
         (SIf strong (EVar strong TBool "flag")
            (SAssignment causal (EVar causal TInt "y") (EVar causal TInt "x"))
            (SSequence strong []));
       SReturn bottom (EVar causal TInt "y")]).

Lemma sample_remote_inferable : inferable (fun l => l ∈ sql_labels) sample_remote.
Proof. apply (check_inferable_sound _ in_sql); [apply in_sql_sound|vm_compute; reflexivity]. Qed.

Lemma infer_labels_flow_safe_witness :
  flow_safe [] sample_remote_inferred /\ contains_improper_labels sample_remote_inferred = false.
Proof.
  apply (infer_labels_flow_safe (D := fun l => l ∈ sql_labels) sql_concrete sample_remote).
  - exact sample_remote_inferable.
  - vm_compute. reflexivity.
Defined.

(** An operation on a [strong] handle under a [causal] condition is accepted as it is,
    although [causal] does not flow to [strong]: the constraints of operations do not
    mention the program counter they are given. *)
Definition sample_guarded_operation : stmt :=
  SIf causal (EVar causal TBool "flag")
    (SOperation strong "increment" (EVar strong (THandle strong TInt) "h") [])
    (SSequence causal []).

Example operation_under_any_condition :
  infer_labels sample_guarded_operation = Ok sample_guarded_operation /\
  flows_to causal strong = Ok false.
Proof. split; vm_compute; reflexivity. Qed.

Definition sample_constraints : list constraint :=
  Eval vm_compute in
    match collect_constraints top sample_remote with Ok cs => cs | Err _ => [] end.

Lemma infer_labels_iff_solvable_witness :
  (exists ast', infer_labels sample_remote = Ok ast') <->
  (exists rho, assignment (D := fun l => l ∈ sql_labels) rho /\ solves rho sample_constraints).
Proof.
  apply (infer_labels_iff_solvable (D := fun l => l ∈ sql_labels) sql_concrete sample_remote).
  - exact sample_remote_inferable.
  - apply check_collectable. vm_compute. reflexivity.
  - vm_compute. reflexivity.
Defined.

(** Giving every variable the label [bottom] *)
Definition all_bottom (x : label) : label := if is_temp_label x then bottom else x.

Lemma all_bottom_assignment : assignment (D := fun l => l ∈ sql_labels) all_bottom.
Proof.
  split.
  - intros x Hx%sql_concrete. unfold all_bottom. by destruct x.
  - intros x Hx. unfold all_bottom. rewrite Hx. apply in_sql_sound. vm_compute. reflexivity.
Qed.

Definition check_solves (rho : label -> label) (cs : list constraint) : bool :=
  forallb (fun c => forallb (fun a =>
    match collapse_target (low c) with
    | Ok t => bool_decide (flows_to (rho a) (rho t) = Ok true)
    | Err _ => false
    end) (leaves (high c))) cs.

Lemma check_solves_sound rho cs : check_solves rho cs = true -> solves rho cs.
Proof.
  intros Hs c a Hc Ha. unfold check_solves in Hs.
  apply (proj1 (forallb_elem _ _) Hs) in Hc. apply (proj1 (forallb_elem _ _) Hc) in Ha.
  destruct (collapse_target (low c)) as [t|]; [|done]. exists t. split; [done|].
  by apply bool_decide_eq_true in Ha.
Qed.

Lemma infer_labels_greatest_witness :
  exists subs, apply_substitutions subs sample_remote = Ok sample_remote_inferred /\
    forall t (b : binding), subnode sample_remote b -> b_label b = t -> is_temp_label t = true ->
      subst_label subs t ∈ sql_labels /\
      flows_to (subst_label subs t) (all_bottom t) = Ok true.
Proof.
  apply (infer_labels_greatest (D := fun l => l ∈ sql_labels) sql_concrete sample_remote _
    sample_constraints).
  - exact sample_remote_inferable.
  - apply check_collectable. vm_compute. reflexivity.
  - vm_compute. reflexivity.
  - vm_compute. reflexivity.
  - exact all_bottom_assignment.
  - apply check_solves_sound. vm_compute. reflexivity.
Defined.
