(* ===== verification/Tracking.v ===== *)
(** * Causal tracking

    Models [mtl/writes_remote.hpp] and [mtl/insert_tracking.hpp]: a transaction
    that writes remote objects while mixing labels that track against each
    other generates a tombstone, writes it at every tracked label, and
    accompanies every write at a strong label with the tracking set. *)
From S2P Require Import Prelude TypeLists Labels TypedAst LabelCollect.

(** [tombstone_str]: the characters of [TOMBSTONE_CHAR_SEQUENCE], the final
    zero included *)
Definition tombstone_str : string := ("tombstone" ++ String "000" EmptyString)%string.

(** ** Writes to remote objects *)

Fixpoint bottoms_out_at_remote (remote_name_set : list string) (e : expr) : outcome bool :=
  match e with
  | EField _ _ s _ => bottoms_out_at_remote remote_name_set s
  | EVar _ _ v => Ok (bool_decide (v ∈ remote_name_set))
  | _ => Err NoOverload
  end.

Section tracking.
Context `{TypeLists}.

(** [typeset<...>::add<v>()] *)
Definition typeset_add (s : list string) (v : string) : list string := typeset_combine s [v].

Fixpoint writes_remote (remote_name_set : list string) (s : stmt) : outcome bool :=
  match s with
  | SLet _ _ s => writes_remote remote_name_set s
  | SLetRemote _ b s => writes_remote (typeset_add remote_name_set (b_var b)) s
  | SOperation _ _ _ _ => Ok false
  | SIf _ _ t e =>
      wt ← writes_remote remote_name_set t; we ← writes_remote remote_name_set e;
      Ok (wt || we)
  | SWhile _ _ e name =>
      _ ← assert_ok NoOverload (bool_decide (name = ""%string));
      writes_remote remote_name_set e
  | SAssignment _ c _ => bottoms_out_at_remote remote_name_set c
  | SReturn _ _ => Ok false
  | SSequence _ seq => outcome_any (writes_remote remote_name_set) seq
  | SWriteTombstone _ _ | SAccompanyWrite _ _ => Err NoOverload
  end.

Definition begin_writes_remote (s : stmt) : outcome bool := writes_remote [] s.

(** ** Inserting the accompanying writes *)

Fixpoint is_remote_bound (remote_bound : list string) (e : expr) : outcome bool :=
  match e with
  | EVar _ _ v => Ok (existsb (fun x => bool_decide (v = x)) remote_bound)
  | EField _ _ s _ => is_remote_bound remote_bound s
  | _ => Err NoOverload
  end.

(** [tracking_pair<strong, weak>] *)
Record tracking_pair : Type := Tracking { strong_partner : list label; weak_partner : list label }.

(** The [static_assert] of [Statement<l, AccompanyWrite<T>>] relates the
    label of the statement to that of the variable. *)
Fixpoint insert_tracking (tracked : tracking_pair) (remote_bound : list string) (s : stmt)
    : outcome stmt :=
  match s with
  | SAssignment l v e =>
      remote ← is_remote_bound remote_bound v;
      if bool_decide (l ∈ strong_partner tracked) && (remote : bool) then
        _ ← assert_ok StaticAssert (bool_decide (l = expr_label v));
        Ok (SSequence l [SAssignment l v e; SAccompanyWrite l v])
      else Ok (SAssignment l v e)
  | SReturn l e => Ok (SReturn l e)
  | SLet l b e => e' ← insert_tracking tracked remote_bound e; Ok (SLet l b e')
  | SLetRemote l b e =>
      e' ← insert_tracking tracked (typeset_add remote_bound (b_var b)) e;
      Ok (SLetRemote l b e')
  | SOperation l n h args => Ok (SOperation l n h args)
  | SIf l c t e =>
      t' ← insert_tracking tracked remote_bound t;
      e' ← insert_tracking tracked remote_bound e;
      Ok (SIf l c t' e')
  | SWhile l c e name =>
      _ ← assert_ok NoOverload (bool_decide (name = ""%string));
      e' ← insert_tracking tracked remote_bound e; Ok (SWhile l c e' ""%string)
  | SSequence l seq =>
      seq' ← traverse (insert_tracking tracked remote_bound) seq; Ok (SSequence l seq')
  | SWriteTombstone _ _ | SAccompanyWrite _ _ => Err NoOverload
  end.

(** ** Which labels to track *)
Context `{UserLabels}.

(** [l1::tracks_against<l2>::value] *)
Definition label_tracks_against (l1 l2 : label) : outcome bool :=
  t ← traits_of l1; Ok (tracks_against t l2).

(** [needs_tracking<l1, l2>()]: ambiguous when each tracks against the other *)
Definition needs_tracking (l1 l2 : label) : outcome tracking_pair :=
  t12 ← label_tracks_against l1 l2; t21 ← label_tracks_against l2 l1;
  match t12, t21 with
  | true, true => Err NoOverload
  | true, false => Ok (Tracking [l2] [l1])
  | false, true => Ok (Tracking [l1] [l2])
  | false, false => Ok (Tracking [] [])
  end.

Fixpoint tracked_labels (labels : list label) : outcome tracking_pair :=
  match labels with
  | [] => Ok (Tracking [] [])
  | l1 :: labels =>
      recr ← tracked_labels labels;
      ps ← traverse (needs_tracking l1) labels;
      Ok (Tracking
        (typeset_combine (typeset_combine_all [] (strong_partner <$> ps)) (strong_partner recr))
        (typeset_combine (typeset_combine_all [] (weak_partner <$> ps)) (weak_partner recr)))
  end.

Definition write_tombstones (labels : list label) : list stmt :=
  (fun l1 => SWriteTombstone l1 (EVar l1 TTombstone tombstone_str)) <$> labels.

Definition make_tracking_choice (choice : bool) (a : stmt) (labels : list label)
    (extra_strong_labels extra_weak_labels : list label) : outcome stmt :=
  if choice then
    collected ← tracked_labels labels;
    let sorted := Tracking (typeset_combine (strong_partner collected) extra_strong_labels)
                    (typeset_combine (weak_partner collected) extra_weak_labels) in
    body ← insert_tracking sorted [] a;
    Ok (SLet top (Binding top TTombstone tombstone_str (EGenerateTombstone top))
          (SSequence top
            [SSequence top
               (write_tombstones (typeset_combine (weak_partner sorted) (strong_partner sorted)));
             body]))
  else Ok a.

Fixpoint any_pair_tracks (labels : list label) : outcome bool :=
  match labels with
  | [] => Ok false
  | l1 :: labels =>
      here ← outcome_any (label_tracks_against l1) labels;
      rest ← any_pair_tracks labels;
      Ok (here || rest)
  end.

(** [label::might_track::value] *)
Definition label_might_track (l : label) : outcome bool :=
  t ← traits_of l; Ok (might_track t).

Definition extra_labels_where (keep : bool) (extra : list label) : outcome (list label) :=
  ms ← traverse (fun l => m ← label_might_track l;
                   Ok (if Bool.eqb m keep then [l] else [])) extra;
  Ok (typeset_combine_all [] ms).

Definition insert_tracking_begin (extra : list label) (a : stmt) : outcome stmt :=
  proper ← collect_proper_labels a;
  let labels := proper ++ extra in
  writes ← begin_writes_remote a;
  forward ← any_pair_tracks labels;
  backward ← any_pair_tracks (rev labels);
  extra_strong ← extra_labels_where false extra;
  extra_weak ← extra_labels_where true extra;
  make_tracking_choice
    ((writes : bool) && ((forward : bool) || (backward : bool) || negb (bool_decide (extra = []))))
    a labels extra_strong extra_weak.
End tracking.

(** ** The inserted writes *)

(** Forget the accompanying writes. *)
Fixpoint strip_tracking (s : stmt) : stmt :=
  match s with
  | SSequence l [SAssignment l1 v e; SAccompanyWrite _ _] => SAssignment l1 v e
  | SSequence l ss => SSequence l (strip_tracking <$> ss)
  | SLet l b s => SLet l b (strip_tracking s)
  | SLetRemote l b s => SLetRemote l b (strip_tracking s)
  | SIf l c t e => SIf l c (strip_tracking t) (strip_tracking e)
  | SWhile l c s n => SWhile l c (strip_tracking s) n
  | _ => s
  end.

Section accompanied.
Context `{TypeLists}.
Variable strong : list label.

(** The variable assigned is a remote object (or a field of one). *)
Definition remote_target (remote_bound : list string) (v : expr) : bool :=
  match is_remote_bound remote_bound v with Ok b => b | Err _ => false end.

(** Every remote write at a strong label is directly followed by the write
    of the tracking set to the same object, and nothing else is. *)
Fixpoint accompanied (remote_bound : list string) (s : stmt) : bool :=
  match s with
  | SSequence l [SAssignment l1 v e; SAccompanyWrite l2 v2] =>
      bool_decide (l1 ∈ strong) && remote_target remote_bound v &&
      bool_decide (l2 = l1) && bool_decide (v2 = v) && bool_decide (l1 = expr_label v)
  | SAssignment l v e => negb (bool_decide (l ∈ strong) && remote_target remote_bound v)
  | SSequence l ss => forallb (accompanied remote_bound) ss
  | SLet l b s => accompanied remote_bound s
  | SLetRemote l b s => accompanied (typeset_add remote_bound (b_var b)) s
  | SIf l c t e => accompanied remote_bound t && accompanied remote_bound e
  | SWhile l c s n => accompanied remote_bound s
  | SAccompanyWrite _ _ => false
  | _ => true
  end.
End accompanied.

Section insert_spec.
Context `{TypeLists}.

Lemma insert_not_accompany p R s s' l v :
  insert_tracking p R s = Ok s' -> s' <> SAccompanyWrite l v.
Proof.
  destruct s; cbn [insert_tracking]; intros Hi; outcome_inv; try done.
  destruct (bool_decide _ && x); by outcome_inv.
Qed.

(** A two-element sequence of results is never mistaken for an accompanied
    assignment. *)
Lemma traverse_no_pair p R ss ss' l v1 v2 e1 l2 :
  traverse (insert_tracking p R) ss = Ok ss' ->
  ss' <> [SAssignment l v1 e1; SAccompanyWrite l2 v2].
Proof.
  intros Ht%traverse_Ok ->. inversion Ht as [|? ? ? ? _ Ht2]; subst.
  inversion Ht2 as [|? ? ? ? H2 _]; subst. by eapply insert_not_accompany.
Qed.

Lemma strip_sequence l ss :
  (forall l1 v e l2 v2, ss <> [SAssignment l1 v e; SAccompanyWrite l2 v2]) ->
  strip_tracking (SSequence l ss) = SSequence l (strip_tracking <$> ss).
Proof.
  intros Hn. destruct ss as [|[] [|[] [|]]]; try done. exfalso. by eapply Hn.
Qed.

Lemma accompanied_sequence strong R l ss :
  (forall l1 v e l2 v2, ss <> [SAssignment l1 v e; SAccompanyWrite l2 v2]) ->
  accompanied strong R (SSequence l ss) = forallb (accompanied strong R) ss.
Proof.
  intros Hn. destruct ss as [|[] [|[] [|]]]; try done. exfalso. by eapply Hn.
Qed.

Lemma insert_tracking_spec p R s s' : insert_tracking p R s = Ok s' ->
  strip_tracking s' = s /\ accompanied (strong_partner p) R s' = true.
Proof.
  revert R s'. induction s as [l b s IH|l b s IH|l n h args|l v e|l e|l e|l e|l c t e IHt IHe|l c s n IH|l ss IH]
    using stmt_ind'; intros R s' Hi; cbn [insert_tracking] in Hi; outcome_inv.
  - simpl. by destruct (IH _ _ ltac:(eassumption)) as [-> ?].
  - simpl. by destruct (IH _ _ ltac:(eassumption)) as [-> ?].
  - done.
  - assert (Hr : remote_target R v = x).
    { unfold remote_target. by rewrite (ltac:(eassumption) : is_remote_bound R v = Ok x). }
    destruct (bool_decide (l ∈ strong_partner p) && x) eqn:Hb; outcome_inv; simpl.
    + match goal with Ht : bool_decide (l = _) = true |- _ => rename Ht into Hl end.
      rewrite Hb, Hl, !bool_decide_eq_true_2 by done. done.
    + by rewrite Hb.
  - done.
  - simpl. destruct (IHt _ _ ltac:(eassumption)) as [-> ->].
    by destruct (IHe _ _ ltac:(eassumption)) as [-> ->].
  - simpl. destruct (IH _ _ ltac:(eassumption)) as [-> ->]. split; [|done].
    match goal with Ht : bool_decide _ = true |- _ => apply bool_decide_eq_true in Ht end.
    by subst.
  - match goal with Ht : traverse _ ss = Ok ?ss' |- _ =>
      rename Ht into Htr; rename ss' into seq' end.
    assert (Hn : forall l1 v e l2 v2, seq' <> [SAssignment l1 v e; SAccompanyWrite l2 v2]).
    { intros. by eapply traverse_no_pair. }
    rewrite (strip_sequence l seq' Hn), (accompanied_sequence _ _ l seq' Hn).
    apply traverse_Ok in Htr. clear Hn. split.
    + f_equal. induction Htr as [|s s' ss ss' Hs Htr IHtr]; [done|].
      inversion IH; subst. simpl. f_equal; [by eapply (proj1 (H2 R s' Hs))|auto].
    + induction Htr as [|s s' ss ss' Hs Htr IHtr]; [done|].
      inversion IH; subst. simpl. apply andb_true_iff.
      split; [by eapply (proj2 (H2 R s' Hs))|auto].
Qed.

Context `{!TypeListLaws}.

Lemma bottoms_out_bound R R' v b : (forall x, x ∈ R' <-> x ∈ R) ->
  bottoms_out_at_remote R v = Ok b -> is_remote_bound R' v = Ok b.
Proof using Type.
  intros HR. revert b. induction v using expr_ind'; intros b; simpl; try done; [|by auto].
  intros [= <-]. f_equal. apply eq_true_iff_eq.
  rewrite existsb_exists, bool_decide_eq_true, <- HR. split.
  - intros (x & Hx & ->%bool_decide_eq_true). by apply list_elem_of_In.
  - intros Hv. exists v. split; [by apply list_elem_of_In|by apply bool_decide_eq_true].
Qed.

Lemma typeset_add_ext R R' v : (forall x, x ∈ R' <-> x ∈ R) ->
  forall x, x ∈ typeset_add R' v <-> x ∈ typeset_add R v.
Proof using All. intros HR x. unfold typeset_add. by rewrite !elem_of_typeset_combine, HR. Qed.

(** Without a remote write there is nothing to accompany. *)
Lemma insert_tracking_local p R s : writes_remote R s = Ok false ->
  forall R', (forall x, x ∈ R' <-> x ∈ R) -> insert_tracking p R' s = Ok s.
Proof using All.
  revert R. induction s as [l b s IH|l b s IH|l n h args|l v e|l e|l e|l e|l c t e IHt IHe|l c s n IH|l ss IH]
    using stmt_ind'; intros R Hw R' HR; cbn [writes_remote] in Hw; cbn [insert_tracking].
  - by rewrite (IH R Hw R' HR).
  - by rewrite (IH _ Hw _ (typeset_add_ext R R' _ HR)).
  - done.
  - rewrite (bottoms_out_bound R R' v false HR Hw). simpl. by rewrite andb_false_r.
  - done.
  - done.
  - done.
  - outcome_inv. destruct x, x0; try discriminate.
    rewrite (IHt R ltac:(done) R' HR), (IHe R ltac:(done) R' HR). done.
  - outcome_inv. match goal with Ht : bool_decide _ = true |- _ => rewrite Ht; apply bool_decide_eq_true in Ht end.
    simpl. rewrite (IH R ltac:(done) R' HR). by subst.
  - unfold outcome_any in Hw. outcome_inv.
    match goal with Ht : traverse _ ss = Ok ?bs, He : existsb _ ?bs = false |- _ =>
      apply traverse_Ok in Ht; rename Ht into Htr, He into Hex end.
    assert (Hgo : traverse (insert_tracking p R') ss = Ok ss); [|by rewrite Hgo].
    induction Htr as [|s b ss bs Hs Htr IHtr]; [done|]. inversion IH as [|? ? IHs IHss]; subst.
    simpl in Hex. apply orb_false_iff in Hex as [-> Hex].
    simpl. rewrite (IHs R Hs R' HR). simpl. by rewrite IHtr.
Qed.
End insert_spec.

(** ** Which labels are tracked *)

(** [x] occurs in [l] with [y] somewhere after it. *)
Definition before (l : list label) (x y : label) : Prop :=
  exists l1 l2, l = l1 ++ x :: l2 /\ y ∈ l2.

(** [x] and [y] are labels at two different positions. *)
Definition both_in (l : list label) (x y : label) : Prop := before l x y \/ before l y x.

Lemma before_cons a l x y : before (a :: l) x y <-> (x = a /\ y ∈ l) \/ before l x y.
Proof.
  split.
  - intros (l1 & l2 & Hl & Hy). destruct l1 as [|b l1]; simplify_eq/=; [by left|].
    right. by exists l1, l2.
  - intros [[-> Hy]|(l1 & l2 & -> & Hy)]; [by exists [], l|by exists (a :: l1), l2].
Qed.

Lemma before_nil x y : ~ before [] x y.
Proof. intros (l1 & l2 & Hl & _). by destruct l1. Qed.

Lemma before_rev l x y : before (rev l) x y <-> before l y x.
Proof.
  assert (Hgo : forall l x y, before l y x -> before (rev l) x y).
  { clear. intros l x y (l1 & l2 & -> & Hx). apply list_elem_of_split in Hx as (k1 & k2 & ->).
    exists (rev k2), (rev k1 ++ [y] ++ rev l1). split.
    - rewrite !rev_app_distr. simpl. rewrite !rev_app_distr. simpl. by rewrite <- !app_assoc.
    - apply elem_of_app. right. by left. }
  split; [|apply Hgo]. intros Hb. apply Hgo in Hb. by rewrite rev_involutive in Hb.
Qed.

Section pairs.
Context `{UserLabels} `{TypeListLaws}.

Definition tracks (x y : label) : Prop := label_tracks_against x y = Ok true.

Lemma any_pair_tracks_spec l b : any_pair_tracks l = Ok b ->
  b = true <-> exists x y, before l x y /\ tracks x y.
Proof using Type.
  revert b. induction l as [|a l IH]; intros b Hb; cbn [any_pair_tracks] in Hb.
  { outcome_inv. split; [done|]. intros (x & y & Hxy & _). by apply before_nil in Hxy. }
  unfold outcome_any in Hb. outcome_inv.
  match goal with Ht : traverse _ l = Ok ?bs |- _ =>
    rename Ht into Htr; rename bs into flags end.
  rewrite orb_true_iff, (IH _ ltac:(done)). setoid_rewrite before_cons.
  assert (Hex : existsb (fun b => b) flags = true <-> exists y, y ∈ l /\ tracks a y).
  { apply traverse_Ok in Htr. clear -Htr. induction Htr as [|y f l fs Hf Htr IHtr]; simpl.
    - split; [done|]. intros (y & Hy & _). by apply elem_of_nil in Hy.
    - rewrite orb_true_iff, IHtr. setoid_rewrite elem_of_cons. unfold tracks.
      destruct f; split.
      + intros _. exists y. auto.
      + by left.
      + intros [?|(z & ? & ?)]; [done|]. exists z. auto.
      + intros (z & [->|Hz] & Hz'); [congruence|]. right. exists z. auto. }
  rewrite Hex. naive_solver.
Qed.

Lemma needs_tracking_spec x y p : needs_tracking x y = Ok p ->
  (forall s, s ∈ strong_partner p <-> (s = y /\ tracks x y) \/ (s = x /\ tracks y x)) /\
  (forall w, w ∈ weak_partner p <-> (w = x /\ tracks x y) \/ (w = y /\ tracks y x)).
Proof using Type.
  unfold needs_tracking, tracks. intros Hp. outcome_inv.
  destruct x0, x1; outcome_inv; simpl;
    (split; intros z; rewrite ?elem_of_nil, ?list_elem_of_singleton; intuition congruence).
Qed.

(** Strong labels are those some other label of the program tracks against,
    weak labels those that track against some other label. *)
Lemma tracked_labels_spec l p : tracked_labels l = Ok p ->
  (forall s, s ∈ strong_partner p <-> exists w, both_in l w s /\ tracks w s) /\
  (forall w, w ∈ weak_partner p <-> exists s, both_in l w s /\ tracks w s).
Proof using All.
  revert p. induction l as [|a l IH]; intros p Hp; cbn [tracked_labels] in Hp.
  { outcome_inv. simpl. unfold both_in.
    split; intros x; rewrite elem_of_nil; (split; [done|]);
      intros (y & [Hb|Hb] & _); by apply before_nil in Hb. }
  outcome_inv. simpl. destruct (IH _ ltac:(done)) as [IHs IHw].
  match goal with Ht : traverse _ l = Ok ?qs |- _ =>
    rename Ht into Htr; rename qs into ps end.
  apply traverse_Ok in Htr.
  assert (Hs : forall s, (exists t, t ∈ strong_partner <$> ps /\ s ∈ t) <->
    exists y, y ∈ l /\ ((s = y /\ tracks a y) \/ (s = a /\ tracks y a))).
  { intros s. setoid_rewrite list_elem_of_fmap. clear -Htr.
    induction Htr as [|y q l qs Hq Htr IHtr].
    - setoid_rewrite elem_of_nil. naive_solver.
    - destruct (needs_tracking_spec _ _ _ Hq) as [Hst _]. specialize (Hst s).
      setoid_rewrite elem_of_cons. naive_solver. }
  assert (Hw : forall w, (exists t, t ∈ weak_partner <$> ps /\ w ∈ t) <->
    exists y, y ∈ l /\ ((w = a /\ tracks a y) \/ (w = y /\ tracks y a))).
  { intros w. setoid_rewrite list_elem_of_fmap. clear -Htr.
    induction Htr as [|y q l qs Hq Htr IHtr].
    - setoid_rewrite elem_of_nil. naive_solver.
    - destruct (needs_tracking_spec _ _ _ Hq) as [_ Hwk]. specialize (Hwk w).
      setoid_rewrite elem_of_cons. naive_solver. }
  unfold both_in in *. split; intros x'; rewrite elem_of_typeset_combine,
    elem_of_typeset_combine_all, elem_of_nil, ?Hs, ?Hw, ?IHs, ?IHw;
    setoid_rewrite before_cons; clear; naive_solver.
Qed.

Lemma extra_labels_where_spec keep extra ls : extra_labels_where keep extra = Ok ls ->
  forall l, l ∈ ls <-> l ∈ extra /\ label_might_track l = Ok keep.
Proof using All.
  unfold extra_labels_where. intros Hr l. outcome_inv. rewrite elem_of_typeset_combine_all, elem_of_nil.
  match goal with Ht : traverse _ extra = Ok _ |- _ => apply traverse_Ok in Ht; rename Ht into Htr end.
  induction Htr as [|x r extra rs Hx Htr IH].
  - setoid_rewrite elem_of_nil. naive_solver.
  - outcome_inv. setoid_rewrite elem_of_cons.
    assert (Hd : forall P, (l = x \/ l ∈ extra) /\ P <-> (l = x /\ P) \/ (l ∈ extra /\ P)) by tauto.
    rewrite Hd, <- IH. clear IH Hd.
    destruct (Bool.eqb x0 keep) eqn:Hk; [apply eqb_prop in Hk as ->|apply eqb_false_iff in Hk].
    + split.
      * intros [?|(t & [->|Ht] & Hl)]; [done| |right; right; eauto].
        apply list_elem_of_singleton in Hl as ->. by left.
      * intros [[-> _]|[?|(t & ? & ?)]]; [|done|right; eauto].
        right. eexists. split; [by left|]. by left.
    + split.
      * intros [?|(t & [->|Ht] & Hl)]; [done|by apply elem_of_nil in Hl|right; right; eauto].
      * intros [[-> ?]|[?|(t & ? & ?)]]; [congruence|done|right; eauto].
Qed.

(** [l] belongs to a pair of labels of which one tracks against the other. *)
Definition tracked_label (labels : list label) (l : label) : Prop :=
  exists l', both_in labels l l' /\ (tracks l l' \/ tracks l' l).

Lemma both_in_comm l x y : both_in l x y <-> both_in l y x.
Proof using Type. unfold both_in. tauto. Qed.

Lemma tracked_elem l p x : tracked_labels l = Ok p ->
  x ∈ weak_partner p \/ x ∈ strong_partner p <-> tracked_label l x.
Proof using All.
  intros Hp. destruct (tracked_labels_spec l p Hp) as [Hs Hw]. rewrite Hs, Hw.
  unfold tracked_label. pose proof (both_in_comm l) as Hc. clear -Hc. naive_solver.
Qed.

Lemma needs_tracking_NoDup x y p : needs_tracking x y = Ok p ->
  NoDup (strong_partner p) /\ NoDup (weak_partner p).
Proof using Type.
  unfold needs_tracking. intros Hp. outcome_inv.
  destruct x0, x1; outcome_inv; simpl; auto using NoDup_singleton, NoDup_nil_2.
Qed.

Lemma tracked_labels_NoDup l p : tracked_labels l = Ok p ->
  NoDup (strong_partner p) /\ NoDup (weak_partner p).
Proof using All.
  revert p. induction l as [|a l IH]; intros p Hp; cbn [tracked_labels] in Hp; outcome_inv;
    simpl; [split; constructor|].
  destruct (IH _ ltac:(done)) as [Hs Hw].
  match goal with Ht : traverse _ l = Ok ?ps |- _ => apply traverse_Ok in Ht;
    assert (Hps : Forall (fun p => NoDup (strong_partner p) /\ NoDup (weak_partner p)) ps) end.
  { clear -H3. induction H3; constructor; eauto using needs_tracking_NoDup. }
  split; apply NoDup_typeset_combine; try done; apply NoDup_typeset_combine_all;
    try constructor; apply Forall_fmap; (eapply Forall_impl; [exact Hps|]); naive_solver.
Qed.

Lemma extra_labels_where_NoDup keep extra ls : extra_labels_where keep extra = Ok ls -> NoDup ls.
Proof using All.
  unfold extra_labels_where. intros Hr. outcome_inv. apply NoDup_typeset_combine_all; [constructor|].
  match goal with Ht : traverse _ extra = Ok _ |- _ => apply traverse_Ok in Ht; rename Ht into Htr end.
  induction Htr as [|x r extra rs Hx Htr IH]; constructor; [|done].
  outcome_inv. destruct (Bool.eqb _ _); [apply NoDup_singleton|constructor].
Qed.

(** The test that decides whether a transaction needs tracking agrees with
    the labels tracking then works on: some label tracks against another one
    before or after it exactly when there is a strong label to track. *)
Theorem any_pair_tracked l p f b : tracked_labels l = Ok p ->
  any_pair_tracks l = Ok f -> any_pair_tracks (rev l) = Ok b ->
  f || b = true <-> exists s, s ∈ strong_partner p.
Proof using All.
  intros Hp Hf Hb. destruct (tracked_labels_spec l p Hp) as [Hs _].
  rewrite orb_true_iff, (any_pair_tracks_spec l f Hf), (any_pair_tracks_spec _ b Hb).
  setoid_rewrite before_rev. setoid_rewrite Hs. unfold both_in. clear. naive_solver.
Qed.
End pairs.

(** ** Properties *)

Section properties.
Context `{UserLabels} `{TypeListLaws}.

(** C36: the whole pass.  Tracking is inserted exactly when the transaction writes
    a remote object and either there are extra labels or one label of the program
    tracks against another one: a transaction for which this does not hold is
    unchanged, and it holds for every transaction that is changed.  What is changed
    becomes: generate a tombstone, write it once at every label
    that tracks or is tracked against and at every extra label, then run the
    transaction, in which exactly the remote writes at strong labels are
    followed by the write of the tracking set to the same object. *)
Theorem insert_tracking_begin_correct extra a s' proper :
  collect_proper_labels a = Ok proper -> insert_tracking_begin extra a = Ok s' ->
  (s' = a /\ (begin_writes_remote a = Ok false \/
     extra = [] /\ forall x y, both_in proper x y -> ~ tracks x y)) \/
  (begin_writes_remote a = Ok true /\
     (extra <> [] \/ exists x y, both_in proper x y /\ tracks x y) /\
   exists tombs strong body,
     s' = SLet top (Binding top TTombstone tombstone_str (EGenerateTombstone top))
            (SSequence top [SSequence top (write_tombstones tombs); body]) /\
     NoDup tombs /\ (forall l, l ∈ tombs <-> tracked_label (proper ++ extra) l \/ l ∈ extra) /\
     (forall l, l ∈ strong <->
        (exists w, both_in (proper ++ extra) w l /\ tracks w l) \/
        (l ∈ extra /\ label_might_track l = Ok false)) /\
     strip_tracking body = a /\ accompanied strong [] body = true).
Proof using All.
  intros Hp Hi. unfold insert_tracking_begin in Hi. rewrite Hp in Hi. cbn [mbind outcome_bind] in Hi.
  outcome_inv. rename x into writes, x0 into fwd, x1 into bwd, x2 into es, x3 into ew.
  unfold make_tracking_choice in Hi. destruct writes; cbn [andb] in Hi.
  2: { outcome_inv. left. auto. }
  destruct (fwd || bwd || negb (bool_decide (extra = []))) eqn:Hchoice; cbn [andb] in Hi; outcome_inv.
  - right. split; [done|]. rename x into p, x0 into body. split.
    { destruct (bool_decide_reflect (extra = [])) as [->|]; [right|by left].
      rewrite app_nil_r in *. rewrite orb_false_r in Hchoice. apply orb_true_iff in Hchoice as [->| ->].
      - destruct (proj1 (any_pair_tracks_spec proper true ltac:(done)) eq_refl) as (x & y & Hb & Ht).
        exists x, y. split; [by left|done].
      - destruct (proj1 (any_pair_tracks_spec (rev proper) true ltac:(done)) eq_refl) as (x & y & Hb & Ht).
        exists x, y. split; [right; by apply before_rev|done]. }
    destruct (insert_tracking_spec _ _ _ _ ltac:(eassumption)) as [Hstrip Hacc]. simpl in Hacc.
    destruct (tracked_labels_NoDup _ _ ltac:(eassumption)) as [Hns Hnw].
    pose proof (extra_labels_where_spec false extra es ltac:(done)) as Hes.
    pose proof (extra_labels_where_spec true extra ew ltac:(done)) as Hew.
    pose proof (extra_labels_where_NoDup false extra es ltac:(done)) as Hnes.
    pose proof (extra_labels_where_NoDup true extra ew ltac:(done)) as Hnew.
    eexists _, _, body. split; [reflexivity|]. split_and!; [| | |done|exact Hacc]; simpl.
    + by repeat apply NoDup_typeset_combine.
    + intros l. rewrite !elem_of_typeset_combine, Hes, Hew.
      rewrite <- (tracked_elem (proper ++ extra) p l) by done.
      assert (Hext : l ∈ extra <-> (l ∈ extra /\ label_might_track l = Ok true) \/
        (l ∈ extra /\ label_might_track l = Ok false)); [|tauto].
      split; [|tauto]. intros Hl.
      destruct (label_might_track l) as [[]|e] eqn:Hm; [tauto..|exfalso].
      assert (Hfail : extra_labels_where true extra = Ok ew) by done.
      unfold extra_labels_where in Hfail. outcome_inv.
      match goal with Ht : traverse _ extra = Ok _ |- _ =>
        pose proof (traverse_elem _ _ _ _ Ht Hl) as Hbad end.
      destruct Hbad as (? & Hbad & _). by rewrite Hm in Hbad.
    + intros l. rewrite elem_of_typeset_combine, Hes.
      by rewrite (proj1 (tracked_labels_spec _ p ltac:(done)) l).
  - left. split; [done|]. right. rewrite !orb_false_iff, negb_false_iff in Hchoice.
    destruct Hchoice as [[-> ->] Hex]. apply bool_decide_eq_true in Hex as ->.
    rewrite app_nil_r in *. split; [done|]. intros x y [Hb|Hb] Ht.
    + assert (false = true); [|done]. eapply any_pair_tracks_spec; [eassumption|]. eauto.
    + assert (false = true); [|done].
      match goal with Hrev : any_pair_tracks (rev proper) = Ok false |- _ =>
        apply (any_pair_tracks_spec _ _ Hrev) end.
      exists x, y. by rewrite before_rev.
Qed.

(** What does not write remotely is never rewritten by [insert_tracking],
    whatever labels are tracked. *)
Theorem insert_tracking_only_remote p s : begin_writes_remote s = Ok false ->
  insert_tracking p [] s = Ok s.
Proof using All. intros Hw. by apply (insert_tracking_local p [] s Hw). Qed.
End properties.

(** *** Witnesses

    [remote x = h in { x = a }; return b]: a strong write in a transaction that
    also reads causal data *)
Definition sample_write : stmt :=
  SSequence top
    [SLetRemote strong (Binding strong TInt "x" (EVar strong (THandle strong TInt) "h"))
       (SSequence strong [SAssignment strong (EVar strong TInt "x") (EVar strong TInt "a")]);
     SReturn bottom (EVar causal TInt "b")].

Definition sample_tracked : stmt :=
  SLet top (Binding top TTombstone tombstone_str (EGenerateTombstone top))
    (SSequence top
      [SSequence top (write_tombstones [causal; strong]);
       SSequence top
        [SLetRemote strong (Binding strong TInt "x" (EVar strong (THandle strong TInt) "h"))
           (SSequence strong
              [SSequence strong
                 [SAssignment strong (EVar strong TInt "x") (EVar strong TInt "a");
                  SAccompanyWrite strong (EVar strong TInt "x")]]);
         SReturn bottom (EVar causal TInt "b")]]).

Lemma insert_tracking_begin_correct_witness :
  (sample_tracked = sample_write /\ (begin_writes_remote sample_write = Ok false \/
     ([] : list label) = [] /\ forall x y, both_in [bottom; causal; strong; top] x y -> ~ tracks x y)) \/
  (begin_writes_remote sample_write = Ok true /\
     (([] : list label) <> [] \/ exists x y, both_in [bottom; causal; strong; top] x y /\ tracks x y) /\
   exists tombs strong body,
     sample_tracked = SLet top (Binding top TTombstone tombstone_str (EGenerateTombstone top))
            (SSequence top [SSequence top (write_tombstones tombs); body]) /\
     NoDup tombs /\
     (forall l, l ∈ tombs <-> tracked_label ([bottom; causal; Labels.strong; top] ++ []) l \/ l ∈ []) /\
     (forall l, l ∈ strong <->
        (exists w, both_in ([bottom; causal; Labels.strong; top] ++ []) w l /\ tracks w l) \/
        (l ∈ [] /\ label_might_track l = Ok false)) /\
     strip_tracking body = sample_write /\ accompanied strong [] body = true).
Proof.
  apply (insert_tracking_begin_correct [] sample_write sample_tracked
    [bottom; causal; Labels.strong; top]); vm_compute; reflexivity.
Defined.

Lemma any_pair_tracked_witness :
  true || false = true <-> exists s, s ∈ strong_partner (Tracking [strong] [causal]).
Proof.
  apply (any_pair_tracked [bottom; causal; strong; top] (Tracking [strong] [causal]));
    vm_compute; reflexivity.
Defined.

Lemma insert_tracking_only_remote_witness :
  insert_tracking (Tracking [strong] [causal]) [] sample = Ok sample.
Proof. apply (insert_tracking_only_remote (Tracking [strong] [causal]) sample). vm_compute. reflexivity. Defined.
