(* ===== verification/Endorse.v ===== *)
(** * Endorsement

    Models [mtl/worklist.hpp] and [mtl/endorse_relabel.hpp]: the variables an
    endorsed value is computed from are moved to a phase that runs before the
    rest of the transaction, by giving them pre-endorsement labels. *)
From S2P Require Import Prelude TypeLists Labels TypedAst LabelCollect.

(** ** Worklists *)

(** A variable, or [mutils::mismatch] *)
Definition element : Type := option string.

Record WorkList : Type := WL { current_elements : list element; all_time : list element }.

Definition EmptyWorkList : WorkList := WL [] [].

Definition wl_append (E : element) (w : WorkList) : WorkList :=
  if decide (E ∈ all_time w) then w
  else WL (current_elements w ++ [E]) (all_time w ++ [E]).

(** [w.combine(WorkList<elems, at>{})] *)
Definition wl_combine (w w2 : WorkList) : WorkList :=
  foldl (fun w e => wl_append e w) w (current_elements w2).

(** ** Collection *)

(** [Expression<l, y, Endorse<l, Expression<lold, y, VarReference<v>>>>] *)
Definition endorse_pattern (n : node) : option string :=
  match n with
  | NE (EEndorse l y le (EVar _ y' v)) =>
      if bool_decide (l = le) && bool_decide (y = y') then Some v else None
  | _ => None
  end.

(** Recursion over nodes goes by [default_recurse] and [fold]; [fuel] bounds
    the depth of the tree. *)
Fixpoint add_all_varrefs_fuel (fuel : nat) (current_worklist : WorkList) (n : node) : WorkList :=
  match fuel with
  | 0 => current_worklist
  | S fuel =>
      match n with
      | NE (EVar _ _ v) => wl_append (Some v) current_worklist
      | _ => default_recurse (add_all_varrefs_fuel fuel current_worklist) wl_combine
               current_worklist n
      end
  end.

Definition add_all_varrefs (current_worklist : WorkList) (n : node) : WorkList :=
  add_all_varrefs_fuel (node_size n) current_worklist n.

(** A variable reference answers for itself, whatever was found before it. *)
Fixpoint contains_endorsement_fuel (fuel : nat) (worklist : WorkList) (already_found : bool)
    (n : node) : bool :=
  match fuel with
  | 0 => already_found
  | S fuel =>
      match endorse_pattern n with
      | Some _ => true
      | None =>
          match n with
          | NE (EVar _ _ v) => bool_decide (Some v ∈ current_elements worklist)
          | _ => already_found || node_fold (contains_endorsement_fuel fuel worklist) already_found n
          end
      end
  end.

Definition contains_endorsement (worklist : WorkList) (already_found : bool) (n : node) : bool :=
  contains_endorsement_fuel (node_size n) worklist already_found n.

(** [default_recurse] when the visits of the operands may fail *)
Definition default_recurse_outcome {A} (F : node -> outcome A) (Combine : A -> A -> A)
    (Default : A) (n : node) : outcome A :=
  rs ← traverse F (operands n);
  Ok (if variadic n then Fold_all Combine Default rs
      else match rs with [] => Default | x :: xs => foldl Combine x xs end).

(** The condition of a conditional or loop that has the label of the statement *)
Definition condition_pattern (l : label) (c : expr) : option string :=
  match c with
  | EVar l' TBool v => if bool_decide (l = l') then Some v else None
  | _ => None
  end.

(** [partial.template append<v>] is not called: what is returned is a pointer
    to a function, which no later use accepts. *)
Definition append_uncalled (partial : WorkList) (v : string) : outcome WorkList := Err NoOverload.

Fixpoint collect_pre_endorse_fuel (fuel : nat) (current_worklist : WorkList) (n : node)
    : outcome WorkList :=
  match fuel with
  | 0 => Err OutOfFuel
  | S fuel =>
      let recurse := collect_pre_endorse_fuel fuel current_worklist in
      let default := default_recurse_outcome recurse wl_combine current_worklist n in
      match endorse_pattern n with
      | Some v => Ok (wl_append (Some v) current_worklist)
      | None =>
          match n with
          | NB b =>
              if bool_decide (Some (b_var b) ∈ current_elements current_worklist)
              then Ok (add_all_varrefs current_worklist (b_expr b))
              else recurse (b_expr b)
          | NS (SIf l c t e) =>
              match condition_pattern l c with
              | Some v =>
                  wt ← recurse t; we ← recurse e;
                  let partial := wl_combine wt we in
                  if contains_endorsement current_worklist false (SIf l c t e)
                  then append_uncalled partial v else Ok partial
              | None => default
              end
          | NS (SWhile l c t name) =>
              match condition_pattern l c with
              | Some v =>
                  partial ← recurse t;
                  if contains_endorsement current_worklist false t
                  then append_uncalled partial v else Ok partial
              | None => default
              end
          | _ => default
          end
      end
  end.

Definition collect_pre_endorse (current_worklist : WorkList) (n : node) : outcome WorkList :=
  collect_pre_endorse_fuel (node_size n) current_worklist n.

(** ** Relabelling *)

Section relabel.
Context `{UserLabels}.
Variable endorse_variable_list : list element.

Definition endorse_relabel_label (v : string) (l : label) : label :=
  if bool_decide (Some v ∈ endorse_variable_list) then PreEndorse_notop l else l.

Fixpoint endorse_relabel_expr (e : expr) : outcome expr :=
  match e with
  | EVar l y v => Ok (EVar (endorse_relabel_label v l) y v)
  | EField l y s f =>
      s' ← endorse_relabel_expr s; Ok (EField (expr_label s') y s' f)
  | EConst i => Ok (EConst i)
  | EBinOp l y op L R =>
      L' ← endorse_relabel_expr L; R' ← endorse_relabel_expr R;
      l' ← resolved_label_min (expr_label L') (expr_label R');
      Ok (EBinOp l' y op L' R')
  | EGenerateTombstone l => Ok (EGenerateTombstone l)
  | EIsValid l h =>
      h' ← endorse_relabel_expr h; hl ← handle_label h;
      l' ← resolved_label_min (expr_label h') hl;
      Ok (EIsValid l' h')
  | EEndorse l y le h =>
      _ ← assert_ok NoOverload (bool_decide (l = le)); endorse_relabel_expr h
  | EOperation l y n h args =>
      newh ← endorse_relabel_expr h; newargs ← traverse endorse_relabel_expr args;
      _ ← assert_ok StaticAssert
        (negb (existsb (fun e => is_pre_endorsed (expr_label e)) (newh :: newargs)));
      Ok (EOperation l y n h args)
  end.

Definition endorse_relabel_binding (b : binding) : outcome binding :=
  new_e ← endorse_relabel_expr (b_expr b);
  Ok (Binding (endorse_relabel_label (b_var b) (b_label b)) (b_yield b) (b_var b) new_e).

Fixpoint endorse_relabel (s : stmt) : outcome stmt :=
  match s with
  | SLet l b e =>
      b' ← endorse_relabel_binding b; e' ← endorse_relabel e; Ok (SLet (b_label b') b' e')
  | SLetRemote l b e =>
      b' ← endorse_relabel_binding b; e' ← endorse_relabel e;
      Ok (SLetRemote (b_label b') b' e')
  | SOperation l n h args =>
      newh ← endorse_relabel_expr h; newargs ← traverse endorse_relabel_expr args;
      _ ← assert_ok StaticAssert
        (negb (existsb (fun e => is_pre_endorsed (expr_label e)) (newh :: newargs)));
      Ok (SOperation l n h args)
  | SAssignment l L R =>
      L' ← endorse_relabel_expr L; R' ← endorse_relabel_expr R;
      _ ← assert_ok StaticAssert
        (negb (is_pre_endorsed (expr_label L')) || negb (is_pre_endorsed (expr_label R')));
      Ok (SAssignment l L R)
  | SReturn l e => e' ← endorse_relabel_expr e; Ok (SReturn bottom e')
  | SWriteTombstone l e => e' ← endorse_relabel_expr e; Ok (SWriteTombstone (expr_label e') e')
  | SAccompanyWrite l e => e' ← endorse_relabel_expr e; Ok (SAccompanyWrite (expr_label e') e')
  | SIf l c t e =>
      c' ← endorse_relabel_expr c; t' ← endorse_relabel t; e' ← endorse_relabel e;
      Ok (SIf (expr_label c') c' t' e')
  | SWhile l c e name =>
      c' ← endorse_relabel_expr c; e' ← endorse_relabel e;
      Ok (SWhile (expr_label c') c' e' ""%string)
  | SSequence l ss => ss' ← traverse endorse_relabel ss; Ok (SSequence l ss')
  end.
End relabel.

(** ** The loop *)

(** All variables a tree refers to *)
Definition node_vars (n : node) : list string :=
  omap (fun m => match m with NE (EVar _ _ v) => Some v | _ => None end) (subnodes n).

(** Each round drops the head of the worklist and collects with the rest. *)
Fixpoint pre_endorse_loop (fuel : nat) (ast : stmt) (w : WorkList) : outcome (list element) :=
  match fuel with
  | 0 => Err OutOfFuel
  | S fuel =>
      match current_elements w with
      | [] => Ok (all_time w)
      | fst :: rst => w' ← collect_pre_endorse (WL rst (all_time w)) ast; pre_endorse_loop fuel ast w'
      end
  end.

(** The worklist starts with two elements that are not variables; every
    variable enters it at most once. *)
Definition pre_endorse_fuel (ast : stmt) : nat := 4 + length (node_vars ast).

Definition pre_endorse_variables (ast : stmt) : outcome (list element) :=
  pre_endorse_loop (pre_endorse_fuel ast) ast (WL [None; None] []).

Definition do_pre_endorse `{UserLabels} (ast : stmt) : outcome stmt :=
  ts ← pre_endorse_variables ast; endorse_relabel ts ast.

(** ** Worklists only grow *)
















(** ** What is collected *)



















(** ** When a round fails *)
















(** ** The variables an endorsement needs *)


Section loop.
Variable ast : stmt.










End loop.

(** ** Relabelling removes the endorsements *)

Definition is_endorse (n : node) : bool := match n with NE (EEndorse _ _ _ _) => true | _ => false end.

(** Assignments and operations, which are not rewritten, contain none. *)
Definition anormal_endorse (n : node) : Prop :=
  forall m k, subnode n m -> subnode m k ->
    match m with
    | NE (EOperation _ _ _ _ _) | NS (SOperation _ _ _ _) | NS (SAssignment _ _ _) => is_endorse k = false
    | _ => True
    end.

Definition endorse_free (n : node) : Prop := forall m, subnode n m -> is_endorse m = false.

Lemma endorse_free_step n :
  endorse_free n <-> is_endorse n = false /\ forall k, k ∈ operands n -> endorse_free k.
Proof.
  split.
  - intros Hf. split; [apply Hf; constructor|]. intros k Hk m Hm. apply Hf. by econstructor.
  - intros [Hn Hk] m Hm. inversion Hm as [|? k ? Hkn Hs]; subst; [done|]. by apply (Hk k).
Qed.

Lemma anormal_below n k : anormal_endorse n -> k ∈ operands n -> anormal_endorse k.
Proof. intros Hn Hk m i Hm Hi. apply Hn; [by econstructor|done]. Qed.

(** Nodes that are returned as they are *)
Lemma anormal_free n :
  match n with
  | NE (EOperation _ _ _ _ _) | NS (SOperation _ _ _ _) | NS (SAssignment _ _ _) => True
  | _ => False
  end -> anormal_endorse n -> endorse_free n.
Proof.
  intros Hn Ha m Hm. specialize (Ha n m (sub_here n) Hm). destruct n as [[]|b|[]]; done.
Qed.

Section relabelled.
Context `{UserLabels}.
Variable ts : list element.

Ltac free_operands :=
  rewrite endorse_free_step; split; [done|]; simpl; intros k Hk;
  rewrite ?elem_of_cons, ?elem_of_nil in Hk;
  repeat match goal with H : _ \/ _ |- _ => destruct H as [H|H] end; subst; try done.

Lemma relabel_expr_free e e' : anormal_endorse (NE e) ->
  endorse_relabel_expr ts e = Ok e' -> endorse_free (NE e').
Proof.
  revert e'. induction e as [l y v|l y s w IH|i|l y op L R IHL IHR|l|l h IH|l y le h IH|l y n h args IH IHa]
    using expr_ind'; intros e' Ha Hr; cbn [endorse_relabel_expr] in Hr; outcome_inv.
  - free_operands.
  - free_operands. apply IH; [|done]. eapply anormal_below; [exact Ha|by left].
  - free_operands.
  - free_operands; [apply IHL|apply IHR]; try done;
      (eapply anormal_below; [exact Ha|simpl; rewrite !elem_of_cons; auto]).
  - free_operands.
  - free_operands. apply IH; [|done]. eapply anormal_below; [exact Ha|by left].
  - apply IH; [|done]. eapply anormal_below; [exact Ha|by left].
  - by apply anormal_free.
Qed.

Lemma relabel_binding_free b b' : anormal_endorse (NB b) ->
  endorse_relabel_binding ts b = Ok b' -> endorse_free (NB b').
Proof.
  intros Ha Hr. unfold endorse_relabel_binding in Hr. outcome_inv. free_operands.
  eapply relabel_expr_free; [|done]. eapply anormal_below; [exact Ha|by left].
Qed.

Lemma relabel_free s s' : anormal_endorse (NS s) ->
  endorse_relabel ts s = Ok s' -> endorse_free (NS s').
Proof.
  pose proof relabel_expr_free as He. pose proof relabel_binding_free as Hb.
  revert s'. induction s as [l b s IH|l b s IH|l n h args|l v e|l e|l e|l e|l c t e IHt IHe|l c s n IH|l ss IH]
    using stmt_ind'; intros s' Ha Hr; cbn [endorse_relabel] in Hr; outcome_inv.
  1-2: free_operands; [eapply Hb; [|done]|eapply IH; [|done]];
    (eapply anormal_below; [exact Ha|simpl; rewrite !elem_of_cons; auto]).
  1-2: by apply anormal_free.
  1-3: free_operands; eapply He; [|done]; (eapply anormal_below; [exact Ha|by left]).
  - free_operands; [eapply He; [|done]|eapply IHt; [|done]|eapply IHe; [|done]];
      (eapply anormal_below; [exact Ha|simpl; rewrite !elem_of_cons; auto]).
  - free_operands; [eapply He; [|done]|eapply IH; [|done]];
      (eapply anormal_below; [exact Ha|simpl; rewrite !elem_of_cons; auto]).
  - rewrite endorse_free_step. split; [done|]. simpl. intros k Hk.
    apply list_elem_of_fmap in Hk as (s' & -> & Hs').
    match goal with Ht : traverse _ ss = Ok ?ss' |- _ => apply traverse_Ok in Ht; rename Ht into Htr end.
    rewrite Forall_forall in IH.
    apply list_elem_of_lookup in Hs' as [i Hi].
    destruct (Forall2_lookup_r _ _ _ _ _ Htr Hi) as (s & Hs & Hss).
    apply list_elem_of_lookup_2 in Hs.
    apply (IH s Hs); [|done]. eapply anormal_below; [exact Ha|]. by apply list_elem_of_fmap_2.
Qed.
End relabelled.

Lemma endorse_free_contains fuel n : endorse_free n ->
  contains_endorsement_fuel fuel EmptyWorkList false n = false.
Proof.
  revert n. induction fuel as [|fuel IH]; intros n Hf; [done|].
  apply endorse_free_step in Hf as [Hn Hk]. cbn [contains_endorsement_fuel].
  assert (Hp : endorse_pattern n = None) by by destruct n as [[]| |].
  rewrite Hp.
  assert (Hfold : node_fold (contains_endorsement_fuel fuel EmptyWorkList) false n = false).
  { assert (Hall : Forall endorse_free (operands n)) by by apply Forall_forall.
    unfold node_fold, Fold_all. clear -IH Hall. destruct (variadic n).
    - induction Hall as [|k ks Hk Hks IHk]; simpl; [done|]. rewrite IHk. by apply IH.
    - induction Hall as [|k ks Hk Hks IHk]; simpl; [done|]. by rewrite (IH k Hk). }
  destruct n as [[]|b|s]; simpl; try done.
Qed.

(** ** Properties *)


(** When relabelling succeeds no endorsement is left, which is what the
    [static_assert] after it in [compile] demands. *)
Theorem do_pre_endorse_no_endorsement `{UserLabels} (ast ast' : stmt) :
  anormal_endorse ast -> do_pre_endorse ast = Ok ast' ->
  endorse_free ast' /\ contains_endorsement EmptyWorkList false ast' = false.
Proof.
  intros Ha Hr. unfold do_pre_endorse in Hr. outcome_inv.
  assert (Hf : endorse_free ast') by by eapply relabel_free.
  split; [done|]. by apply endorse_free_contains.
Qed.

(** *** Witness: [var a = s; var b = a.endorse(strong); return b] *)
Definition sample_endorse : stmt :=
  SLet causal (Binding causal TInt "a" (EVar causal TInt "s"))
    (SLet strong (Binding strong TInt "b" (EEndorse strong TInt strong (EVar causal TInt "a")))
       (SReturn bottom (EVar strong TInt "b"))).

Definition sample_endorsed : stmt :=
  SLet (LPre causal) (Binding (LPre causal) TInt "a" (EVar (LPre causal) TInt "s"))
    (SLet strong (Binding strong TInt "b" (EVar (LPre causal) TInt "a"))
       (SReturn bottom (EVar strong TInt "b"))).

Lemma check_anormal n :
  forallb (fun m =>
    match m with
    | NE (EOperation _ _ _ _ _) | NS (SOperation _ _ _ _) | NS (SAssignment _ _ _) =>
        forallb (fun k => negb (is_endorse k)) (subnodes m)
    | _ => true
    end) (subnodes n) = true -> anormal_endorse n.
Proof.
  intros Hc m k Hm Hk. apply (forall_subnode _ n Hc) in Hm.
  destruct m as [[]|b|[]]; try done;
    (apply (forall_subnode _ _ Hm) in Hk; by apply negb_true_iff in Hk).
Qed.

Lemma do_pre_endorse_no_endorsement_witness :
  endorse_free sample_endorsed /\ contains_endorsement EmptyWorkList false sample_endorsed = false.
Proof.
  apply (do_pre_endorse_no_endorsement sample_endorse).
  - apply check_anormal. vm_compute. reflexivity.
  - vm_compute. reflexivity.
Defined.

Example sample_endorse_variables :
  pre_endorse_variables sample_endorse = Ok [None; Some "a"%string; Some "s"%string].
Proof. vm_compute. reflexivity. Qed.

(** An endorsement under a condition of the label of the [if] is rejected. *)
Example guarded_endorsement_rejected :
  pre_endorse_variables (SIf causal (EVar causal TBool "c") sample_endorse (SSequence causal []))
  = Err NoOverload.
Proof. vm_compute. reflexivity. Qed.
