(* ===== verification/ParseAst.v ===== *)
(** * The syntax tree of parsed transactions

    Models [mtl/AST_parse.hpp], namespace [parse_phase]: the unlabelled tree
    the parser builds and [flatten_expressions] brings into A-normal form. *)
From S2P Require Import Prelude Labels.

(** ** Nodes *)

(** [operation_args_varrefs<...>] asserts that its members are variable
    references; they are given by their names. *)
Inductive pexpr : Type :=
| PField (s : pexpr) (f : string)
| PFieldPtr (s : pexpr) (f : string)
| PDeref (s : pexpr)
| PEndorse (l : label) (h : pexpr)
| PEnsure (l : label) (h : pexpr)
| PIsValid (h : pexpr)
| PVar (v : string)
| PConst (i : Z)
| PBinOp (op : ascii) (L R : pexpr)
| POperation (name : string) (h : pexpr) (exprs : list pexpr) (vars : list string).

Record pbinding : Type := PBinding { pb_var : string; pb_expr : pexpr }.

Inductive pstmt : Type :=
| PLet (b : pbinding) (body : pstmt)
| PLetRemote (b : pbinding) (body : pstmt)
| PSOperation (name : string) (h : pexpr) (exprs : list pexpr) (vars : list string)
| PAssignment (var e : pexpr)
| PReturn (e : pexpr)
| PIf (c : pexpr) (t e : pstmt)
| PWhile (c : pexpr) (body : pstmt)
| PSequence (ss : list pstmt).

(** ** Induction over nested nodes *)

Section pexpr_ind.
Variable P : pexpr -> Prop.
Hypothesis Pfield : forall s f, P s -> P (PField s f).
Hypothesis Pptr : forall s f, P s -> P (PFieldPtr s f).
Hypothesis Pderef : forall s, P s -> P (PDeref s).
Hypothesis Pendorse : forall l h, P h -> P (PEndorse l h).
Hypothesis Pensure : forall l h, P h -> P (PEnsure l h).
Hypothesis Pvalid : forall h, P h -> P (PIsValid h).
Hypothesis Pvar : forall v, P (PVar v).
Hypothesis Pconst : forall i, P (PConst i).
Hypothesis Pbinop : forall op L R, P L -> P R -> P (PBinOp op L R).
Hypothesis Poper : forall n h exprs vars, P h -> Forall P exprs -> P (POperation n h exprs vars).

Fixpoint pexpr_ind' (e : pexpr) : P e :=
  match e with
  | PField s f => Pfield s f (pexpr_ind' s)
  | PFieldPtr s f => Pptr s f (pexpr_ind' s)
  | PDeref s => Pderef s (pexpr_ind' s)
  | PEndorse l h => Pendorse l h (pexpr_ind' h)
  | PEnsure l h => Pensure l h (pexpr_ind' h)
  | PIsValid h => Pvalid h (pexpr_ind' h)
  | PVar v => Pvar v
  | PConst i => Pconst i
  | PBinOp op L R => Pbinop op L R (pexpr_ind' L) (pexpr_ind' R)
  | POperation n h exprs vars =>
      Poper n h exprs vars (pexpr_ind' h)
        ((fix go xs : Forall P xs :=
            match xs with [] => Forall_nil_2 _ | x :: xs => Forall_cons_2 _ _ _ (pexpr_ind' x) (go xs) end)
           exprs)
  end.
End pexpr_ind.

Section pstmt_ind.
Variable P : pstmt -> Prop.
Hypothesis Plet : forall b s, P s -> P (PLet b s).
Hypothesis Pletr : forall b s, P s -> P (PLetRemote b s).
Hypothesis Poper : forall n h exprs vars, P (PSOperation n h exprs vars).
Hypothesis Passign : forall v e, P (PAssignment v e).
Hypothesis Preturn : forall e, P (PReturn e).
Hypothesis Pif : forall c t e, P t -> P e -> P (PIf c t e).
Hypothesis Pwhile : forall c s, P s -> P (PWhile c s).
Hypothesis Pseq : forall ss, Forall P ss -> P (PSequence ss).

Fixpoint pstmt_ind' (s : pstmt) : P s :=
  match s with
  | PLet b s => Plet b s (pstmt_ind' s)
  | PLetRemote b s => Pletr b s (pstmt_ind' s)
  | PSOperation n h exprs vars => Poper n h exprs vars
  | PAssignment v e => Passign v e
  | PReturn e => Preturn e
  | PIf c t e => Pif c t e (pstmt_ind' t) (pstmt_ind' e)
  | PWhile c s => Pwhile c s (pstmt_ind' s)
  | PSequence ss =>
      Pseq ss ((fix go xs : Forall P xs :=
        match xs with [] => Forall_nil_2 _ | x :: xs => Forall_cons_2 _ _ _ (pstmt_ind' x) (go xs) end) ss)
  end.
End pstmt_ind.

#[global] Instance pexpr_eq_dec : EqDecision pexpr.
Proof.
  intros x y. revert x y. fix go 1. intros x y.
  assert (Hl : forall a b : list pexpr, {a = b} + {a <> b}) by exact (@list_eq_dec pexpr go).
  unfold Decision. decide equality; first [apply go | apply Hl | apply decide; exact _].
Defined.

(** ** Tests *)

Definition p_is_var_reference (e : pexpr) : bool :=
  match e with PVar _ => true | _ => false end.

(** The field pattern names a bare [VarReference], which no expression is. *)
Definition is_depth_1 (e : pexpr) : bool :=
  match e with
  | PVar _ | PConst _ => true
  | PBinOp _ L R => p_is_var_reference L && p_is_var_reference R
  | _ => false
  end.

(** Defined on paths only; any other expression has no [value]. *)
Fixpoint contains_fieldpointer_ref (e : pexpr) : outcome bool :=
  match e with
  | PVar _ => Ok false
  | PField (PDeref _) _ => Ok true
  | PField s _ => contains_fieldpointer_ref s
  | PFieldPtr _ _ => Ok true
  | _ => Err NoOverload
  end.
