(* ===== verification/Flatten.v ===== *)
(** * Flattening to A-normal form

    Models [mtl/flatten_expressions.hpp]: [desugar_while] gives every loop a
    flag variable as its condition, [flatten_exprs] names every intermediate
    result, so that the passes after it only see variables as operands. *)
From S2P Require Import Prelude Labels ParseAst.

(** ** Names

    The sequence number and the depth are [char] template arguments: one that
    does not fit is a narrowing conversion, which is ill-formed. *)
Definition depth_limit : Z := 1000.

Definition char_arg (z : Z) : outcome Z :=
  if ((-128 <=? z) && (z <=? 127))%Z then Ok z else Err NarrowingError.

Definition char_of (z : Z) : ascii := ascii_of_nat (Z.to_nat (z mod 256)).

Definition name_suffix (seqnum depth : Z) : string :=
  String (char_of seqnum) (String (char_of depth) EmptyString).

Definition generate_name (seqnum depth : Z) : string := ("anorm" ++ name_suffix seqnum depth)%string.

(** The name [remove_layer] gives a dereferenced handle *)
Definition remote_name (seqnum depth : Z) : string :=
  ("remote_bound_tmp" ++ String "000" (name_suffix seqnum depth))%string.

(** [desugar_while]'s [condition_name] *)
Definition condition_name (seqnum depth : Z) : string := ("while" ++ name_suffix seqnum depth)%string.

(** The overloads for [Sequence<>] and [Sequence<stmt, stmts...>] of both
    passes: one sequence number more per statement, the last one included. *)
Definition traverse_seq {A B} (f : Z -> A -> outcome B) :=
  fix go (seqnum : Z) (stmts : list A) {struct stmts} : outcome (list B) :=
    match stmts with
    | [] => Ok []
    | stmt :: stmts =>
        stmt' ← f seqnum stmt;
        sq ← char_arg (seqnum + 1);
        stmts' ← go sq stmts;
        Ok (stmt' :: stmts')
    end.

(** ** Naming one operand

    [remove_layer<seqnum, depth, SubStatement>(e)] binds the innermost leftmost
    operand of [e] and puts the rest of [e] into the template [SubStatement]. *)
Fixpoint remove_layer (seqnum depth : Z) (SubStatement : pexpr -> pstmt) (e : pexpr)
    : outcome pstmt :=
  let new_name := generate_name seqnum depth in
  let bind e := Ok (PLet (PBinding new_name e) (SubStatement (PVar new_name))) in
  (** [remove_layer] of [Dereference<S>] *)
  let deref SubStatement obj :=
    match obj with
    | PVar v =>
        Ok (PLetRemote (PBinding (remote_name seqnum depth) (PVar v))
              (SubStatement (PVar (remote_name seqnum depth))))
    | _ => remove_layer seqnum depth (fun newE => SubStatement (PDeref newE)) obj
    end in
  match e with
  | PField obj F =>
      match obj with
      | PVar _ => bind e
      | _ => remove_layer seqnum depth (fun newS => SubStatement (PField newS F)) obj
      end
  | PFieldPtr obj F => deref (fun newS => SubStatement (PField newS F)) obj
  | PDeref obj => deref SubStatement obj
  | PIsValid h =>
      match h with
      | PVar _ => bind e
      | _ => remove_layer seqnum depth (fun newE => SubStatement (PIsValid newE)) h
      end
  | PEndorse l h =>
      match h with
      | PVar _ => bind e
      | _ => remove_layer seqnum depth (fun newE => SubStatement (PEndorse l newE)) h
      end
  | PEnsure l h =>
      match h with
      | PVar _ => bind e
      | _ => remove_layer seqnum depth (fun newE => SubStatement (PEnsure l newE)) h
      end
  | PVar _ => Err StaticAssert
  | PConst _ => bind e
  | PBinOp op L R =>
      match L, R with
      | PVar _, PVar _ => bind e
      | PVar _, _ => remove_layer seqnum depth (fun newR => SubStatement (PBinOp op L newR)) R
      | _, _ => remove_layer seqnum depth (fun newL => SubStatement (PBinOp op newL R)) L
      end
  | POperation oper_name h exprs vars =>
      match h with
      | PVar _ =>
          (fix args (exprs : list pexpr) (vars : list string) : outcome pstmt :=
             match exprs with
             | [] => bind (POperation oper_name h [] vars)
             | PVar v :: rest => args rest (vars ++ [v])
             | e1 :: rest =>
                 remove_layer seqnum depth
                   (fun new_expr => SubStatement (POperation oper_name h (new_expr :: rest) vars)) e1
             end) exprs vars
      | _ =>
          remove_layer seqnum depth
            (fun new_expr => SubStatement (POperation oper_name new_expr exprs vars)) h
      end
  end.

(** The bound expressions for which an overload of [_flatten_exprs] says
    "already flat" *)
Definition let_flat (e : pexpr) : bool :=
  match e with
  | PVar _ | PConst _ => true
  | PBinOp _ L R => p_is_var_reference L && p_is_var_reference R
  | PField s _ => match s with PVar _ | PConst _ => true | _ => false end
  | PIsValid h | PEndorse _ h | PEnsure _ h => p_is_var_reference h
  | POperation _ h exprs _ => p_is_var_reference h && bool_decide (exprs = [])
  | _ => false
  end.

(** [operation_to_statement_f] turns the trailing [let n = operation in return v]
    back into a statement.  Its overloads call each other unqualified, and only
    those declared before a body are visible in it: from [let] over
    [let_remote] the overload for two [let_remote]s in a row is not yet
    declared ([remote_pair] is false). *)
Fixpoint operation_to_statement_f (remote_pair : bool) (s : pstmt) : outcome pstmt :=
  match s with
  | PLet b body =>
      match body with
      | PReturn (PVar _) =>
          match pb_expr b with
          | POperation name h exprs vars => Ok (PSOperation name h exprs vars)
          | _ => Err NoOverload
          end
      | PLet _ _ => r ← operation_to_statement_f false body; Ok (PLet b r)
      | PLetRemote _ _ => r ← operation_to_statement_f false body; Ok (PLet b r)
      | _ => Err NoOverload
      end
  | PLetRemote b body =>
      match body with
      | PLet _ _ => r ← operation_to_statement_f false body; Ok (PLetRemote b r)
      | PLetRemote _ _ =>
          if remote_pair
          then r ← operation_to_statement_f true body; Ok (PLetRemote b r)
          else Err NoOverload
      | _ => Err NoOverload
      end
  | _ => Err NoOverload
  end.

(** ** Statements

    [flatten_exprs] with its recursive instantiations left to [rec]. *)
Section flatten_step.
Variable rec : Z -> Z -> pstmt -> outcome pstmt.

Definition flatten_step (seqnum depth : Z) (s : pstmt) : outcome pstmt :=
  let deeper s := d ← char_arg (depth + 1); rec seqnum d s in
  (** [_flatten_exprs_helper]: name one operand, then flatten the result *)
  let helper SubStatement e := partial ← remove_layer seqnum depth SubStatement e; deeper partial in
  let operation oper_name h exprs vars :=
    partial ← remove_layer seqnum depth PReturn (POperation oper_name h exprs vars);
    sq ← char_arg (seqnum + 1);
    ret_partial ← rec sq depth partial;
    operation_to_statement_f true ret_partial in
  if (depth <? depth_limit)%Z then
    match s with
    | PLet b body =>
        if let_flat (pb_expr b)
        then body' ← deeper body; Ok (PLet b body')
        else helper (fun new_expr => PLet (PBinding (pb_var b) new_expr) body) (pb_expr b)
    | PLetRemote b body =>
        if p_is_var_reference (pb_expr b)
        then body' ← deeper body; Ok (PLetRemote b body')
        else helper (fun new_expr => PLetRemote (PBinding (pb_var b) new_expr) body) (pb_expr b)
    | PSOperation oper_name h exprs vars =>
        if p_is_var_reference h && bool_decide (exprs = []) then Ok s
        else operation oper_name h exprs vars
    | PAssignment var e =>
        if p_is_var_reference e then
          through_pointer ← contains_fieldpointer_ref var;
          if (through_pointer : bool)
          then helper (fun new_var => PAssignment new_var e) var
          else Ok s
        else helper (fun new_expr => PAssignment var new_expr) e
    | PReturn e => if p_is_var_reference e then Ok s else helper PReturn e
    | PWhile c body =>
        if p_is_var_reference c
        then body' ← deeper body; Ok (PWhile c body')
        else helper (fun new_cond => PWhile new_cond body) c
    | PIf c t e =>
        if p_is_var_reference c
        then t' ← deeper t;
             sq ← char_arg (seqnum + 1); d ← char_arg (depth + 1);
             e' ← rec sq d e;
             Ok (PIf c t' e')
        else helper (fun new_cond => PIf new_cond t e) c
    | PSequence stmts =>
        stmts' ← traverse_seq (fun sq stmt => rec sq depth stmt) seqnum stmts;
        Ok (PSequence stmts')
    end
  else Ok s.
End flatten_step.

(** The recursion is not structural: an operand is taken out of a statement and
    the statement put under its declaration. *)
Fixpoint flatten_exprs_fuel (fuel : nat) : Z -> Z -> pstmt -> outcome pstmt :=
  match fuel with
  | 0 => fun _ _ _ => Err OutOfFuel
  | S fuel => flatten_step (flatten_exprs_fuel fuel)
  end.

(** Operands [remove_layer] can still name; an arrow is a dereference and a
    field access. *)
Fixpoint layers (e : pexpr) : nat :=
  match e with
  | PVar _ => 0
  | PConst _ => 1
  | PFieldPtr s _ => S (S (layers s))
  | PField s _ | PDeref s | PEndorse _ s | PEnsure _ s | PIsValid s => S (layers s)
  | PBinOp _ L R => S (layers L + layers R)
  | POperation _ h exprs _ => S (layers h + sum_list_with layers exprs)
  end.

(** A layer costs one call to name it and one to pass the new declaration. *)
Fixpoint flatten_cost (s : pstmt) : nat :=
  match s with
  | PLet b body => S ((if let_flat (pb_expr b) then 0 else 3 * layers (pb_expr b)) + flatten_cost body)
  | PLetRemote b body => S (3 * layers (pb_expr b) + flatten_cost body)
  | PSOperation n h exprs vars => S (3 * layers (POperation n h exprs vars))
  | PAssignment v e => S (3 * (layers v + layers e))
  | PReturn e => S (3 * layers e)
  | PIf c t e => S (3 * layers c + flatten_cost t + flatten_cost e)
  | PWhile c body => S (3 * layers c + flatten_cost body)
  | PSequence ss => S (sum_list_with flatten_cost ss)
  end.

Definition flatten_exprs (seqnum depth : Z) (s : pstmt) : outcome pstmt :=
  flatten_exprs_fuel (flatten_cost s) seqnum depth s.

(** ** Loops *)

Fixpoint desugar_while (seqnum depth : Z) (s : pstmt) : outcome pstmt :=
  match s with
  | PLet b body =>
      d ← char_arg (depth + 1); body' ← desugar_while seqnum d body; Ok (PLet b body')
  | PLetRemote b body =>
      d ← char_arg (depth + 1); body' ← desugar_while seqnum d body; Ok (PLetRemote b body')
  | PAssignment _ _ | PSOperation _ _ _ _ | PReturn _ => Ok s
  | PIf c t e =>
      d ← char_arg (depth + 1); t' ← desugar_while seqnum d t;
      sq ← char_arg (seqnum + 1); e' ← desugar_while sq d e;
      Ok (PIf c t' e')
  | PWhile c t =>
      d ← char_arg (depth + 1); t' ← desugar_while seqnum d t;
      let flag := condition_name seqnum depth in
      Ok (PLet (PBinding flag (PVar "true"))
            (PWhile (PVar flag) (PIf c t' (PAssignment (PVar flag) (PVar "false")))))
  | PSequence stmts =>
      stmts' ← traverse_seq (fun sq stmt => desugar_while sq depth stmt) seqnum stmts;
      Ok (PSequence stmts')
  end.

Definition flatten_expressions (a : pstmt) : outcome pstmt :=
  d ← desugar_while 1 1 a; flatten_exprs 1 1 d.

(** [var x = (a + 1) * p->f in while (x > 0) { x = x - 1 }] *)
Definition sample_source : pstmt :=
  PLet (PBinding "x" (PBinOp "*" (PBinOp "+" (PVar "a") (PConst 1)) (PFieldPtr (PVar "p") "f")))
    (PWhile (PBinOp ">" (PVar "x") (PConst 0))
       (PAssignment (PVar "x") (PBinOp "-" (PVar "x") (PConst 1)))).

Example flatten_sample : exists s, flatten_expressions sample_source = Ok s.
Proof. eexists. vm_compute. reflexivity. Qed.
