(* ===== verification/FlattenLayer.v ===== *)
(** * Naming operands

    What [flatten_expressions] computes is stated through [inline], which puts
    the generated declarations back into the places they were taken from. *)
From S2P Require Import Prelude Labels TypedAst ParseAst Flatten.

(** ** Definitions of the specification *)

(** The depth a generated name carries, for names [remove_layer] makes *)
Definition generated_at (n : string) : option Z :=
  let depth_at k := (fun c => Z.of_nat (nat_of_ascii c)) <$> String.get k n in
  if String.prefix "anorm" n && (String.length n =? 7)%nat then depth_at 6
  else if String.prefix ("remote_bound_tmp" ++ String "000" "") n && (String.length n =? 19)%nat
  then depth_at 18
  else None.

Fixpoint pvars (e : pexpr) : list string :=
  match e with
  | PVar v => [v]
  | PConst _ => []
  | PField s _ | PFieldPtr s _ | PDeref s | PEndorse _ s | PEnsure _ s | PIsValid s => pvars s
  | PBinOp _ L R => pvars L ++ pvars R
  | POperation _ h exprs vars => pvars h ++ concat (pvars <$> exprs) ++ vars
  end.

(** All names a statement refers to or declares *)
Fixpoint pnames (s : pstmt) : list string :=
  match s with
  | PLet b s | PLetRemote b s => pb_var b :: pvars (pb_expr b) ++ pnames s
  | PSOperation n h exprs vars => pvars (POperation n h exprs vars)
  | PAssignment v e => pvars v ++ pvars e
  | PReturn e => pvars e
  | PIf c t e => pvars c ++ pnames t ++ pnames e
  | PWhile c s => pvars c ++ pnames s
  | PSequence ss => concat (pnames <$> ss)
  end.

Definition inline_var (env : gmap string pexpr) (v : string) : pexpr := default (PVar v) (env !! v).

(** Generated variables stand for the expression they were bound to; an arrow
    is a dereference and a field access. *)
Fixpoint inline_expr (env : gmap string pexpr) (e : pexpr) : pexpr :=
  match e with
  | PVar v => inline_var env v
  | PConst i => PConst i
  | PField s f => PField (inline_expr env s) f
  | PFieldPtr s f => PField (PDeref (inline_expr env s)) f
  | PDeref s => PDeref (inline_expr env s)
  | PEndorse l s => PEndorse l (inline_expr env s)
  | PEnsure l s => PEnsure l (inline_expr env s)
  | PIsValid s => PIsValid (inline_expr env s)
  | PBinOp op L R => PBinOp op (inline_expr env L) (inline_expr env R)
  | POperation n h exprs vars =>
      POperation n (inline_expr env h) ((inline_var env <$> vars) ++ (inline_expr env <$> exprs)) []
  end.

(** The value of a generated [let] or [let_remote] *)
Definition layer_value (remote : bool) (e : pexpr) : pexpr := if remote then PDeref e else e.

Fixpoint inline (env : gmap string pexpr) (s : pstmt) : pstmt :=
  let inline_let remote bind (b : pbinding) body :=
    let e := inline_expr env (pb_expr b) in
    match generated_at (pb_var b) with
    | Some _ => inline (<[pb_var b := layer_value remote e]> env) body
    | None => bind (PBinding (pb_var b) e) (inline env body)
    end in
  match s with
  | PLet b body => inline_let false PLet b body
  | PLetRemote b body => inline_let true PLetRemote b body
  | PSOperation n h exprs vars =>
      PSOperation n (inline_expr env h) ((inline_var env <$> vars) ++ (inline_expr env <$> exprs)) []
  | PAssignment v e => PAssignment (inline_expr env v) (inline_expr env e)
  | PReturn e => PReturn (inline_expr env e)
  | PIf c t e => PIf (inline_expr env c) (inline env t) (inline env e)
  | PWhile c body => PWhile (inline_expr env c) (inline env body)
  | PSequence ss => PSequence (inline env <$> ss)
  end.

(** Operands are variables, except for the expression of a [let]. *)
Fixpoint anormal (s : pstmt) : bool :=
  match s with
  | PLet b s => let_flat (pb_expr b) && anormal s
  | PLetRemote b s => p_is_var_reference (pb_expr b) && anormal s
  | PSOperation _ h exprs _ => p_is_var_reference h && bool_decide (exprs = [])
  | PAssignment v e =>
      p_is_var_reference e && bool_decide (contains_fieldpointer_ref v = Ok false)
  | PReturn e => p_is_var_reference e
  | PIf c t e => p_is_var_reference c && anormal t && anormal e
  | PWhile c s => p_is_var_reference c && anormal s
  | PSequence ss => forallb anormal ss
  end.

(** Generated declarations inside each other have increasing depths, so none
    hides another one. *)
Fixpoint binders_increase (lo : Z) (s : pstmt) : Prop :=
  match s with
  | PLet b s | PLetRemote b s =>
      match generated_at (pb_var b) with
      | Some k => (lo <= k)%Z /\ binders_increase (k + 1) s
      | None => binders_increase lo s
      end
  | PIf _ t e => binders_increase lo t /\ binders_increase lo e
  | PWhile _ s => binders_increase lo s
  | PSequence ss => fold_right and True (binders_increase lo <$> ss)
  | PSOperation _ _ _ _ | PAssignment _ _ | PReturn _ => True
  end.

(** ** Names *)

Definition layer_name (remote : bool) (seqnum depth : Z) : string :=
  if remote then remote_name seqnum depth else generate_name seqnum depth.

Lemma char_arg_Ok z z' : char_arg z = Ok z' <-> z' = z /\ (-128 <= z <= 127)%Z.
Proof.
  unfold char_arg. destruct (_ && _) eqn:Hz.
  - apply andb_true_iff in Hz as [?%Z.leb_le ?%Z.leb_le]. split; [intros [= ->]; lia|by intros [-> _]].
  - split; [done|]. intros [-> ?]. apply andb_false_iff in Hz as [?%Z.leb_gt|?%Z.leb_gt]; lia.
Qed.

Lemma generated_layer_name r sq d : (0 <= d <= 127)%Z -> generated_at (layer_name r sq d) = Some d.
Proof.
  intros Hd. assert (Hc : Z.of_nat (nat_of_ascii (char_of d)) = d).
  { unfold char_of. rewrite Z.mod_small by lia. rewrite nat_ascii_embedding by lia. lia. }
  rewrite <- Hc at 2. clear. unfold layer_name, remote_name, generate_name, name_suffix.
  generalize (char_of sq) (char_of d). intros a b. by destruct r.
Qed.

(** ** Naming one operand *)

Definition bind_layer (remote : bool) (n : string) (e : pexpr) (body : pstmt) : pstmt :=
  (if remote then PLetRemote else PLet) (PBinding n e) body.

Definition is_operation (e : pexpr) : bool :=
  match e with POperation _ _ _ _ => true | _ => false end.

(** The declarations a complete naming of [e] makes, [true] for [let_remote] *)
Fixpoint naming_order (e : pexpr) : list bool :=
  match e with
  | PVar _ => []
  | PConst _ => [false]
  | PDeref s => naming_order s ++ [true]
  | PFieldPtr s _ => naming_order s ++ [true; false]
  | PField s _ | PEndorse _ s | PEnsure _ s | PIsValid s => naming_order s ++ [false]
  | PBinOp _ L R => naming_order L ++ naming_order R ++ [false]
  | POperation _ h exprs _ => naming_order h ++ concat (naming_order <$> exprs) ++ [false]
  end.

(** [remove_layer] binds [bound] to a new name [n] and leaves [e'] of [e]. *)
Record layer (sq d : Z) (e : pexpr) (remote : bool) (bound e' : pexpr) : Prop := {
  layer_removes Sub : remove_layer sq d Sub e =
    Ok (bind_layer remote (layer_name remote sq d) bound (Sub e'));
  layer_flat : (if remote then p_is_var_reference else let_flat) bound = true;
  layer_smaller : layers e = S (layers e');
  layer_order : naming_order e = remote :: naming_order e';
  layer_bound_vars x : x ∈ pvars bound -> x ∈ pvars e;
  layer_vars x : x ∈ pvars e' -> x = layer_name remote sq d \/ x ∈ pvars e;
  layer_inline env : layer_name remote sq d ∉ pvars e ->
    inline_expr (<[layer_name remote sq d := layer_value remote (inline_expr env bound)]> env) e'
    = inline_expr env e;
  layer_operation : is_operation e = true -> is_operation e' = true \/
    (e' = PVar (layer_name remote sq d) /\ remote = false /\ is_operation bound = true) }.

Lemma layers_var e : layers e = 0 <-> exists v, e = PVar v.
Proof. destruct e; simpl; split; intros; naive_solver. Qed.

Lemma is_var_layers e : p_is_var_reference e = bool_decide (layers e = 0).
Proof. by destruct e. Qed.

Lemma inline_var_eq n x env : inline_var (<[n:=x]> env) n = x.
Proof. unfold inline_var. by rewrite lookup_insert_eq. Qed.

Lemma inline_var_insert n x env v : n <> v -> inline_var (<[n:=x]> env) v = inline_var env v.
Proof. intros Hv. unfold inline_var. by rewrite lookup_insert_ne. Qed.

Lemma inline_vars_insert n x env (vars : list string) : n ∉ vars ->
  inline_var (<[n:=x]> env) <$> vars = inline_var env <$> vars.
Proof.
  intros Hn. apply list_fmap_ext. intros i v Hi%list_elem_of_lookup_2.
  apply inline_var_insert. by intros ->.
Qed.

Lemma inline_insert n x env e : n ∉ pvars e -> inline_expr (<[n:=x]> env) e = inline_expr env e.
Proof.
  induction e as [s f IH|s f IH|s IH|l s IH|l s IH|s IH|v|i|op L R IHL IHR|m h exprs vars IHh IHe]
    using pexpr_ind'; simpl; intros Hn; rewrite ?elem_of_app in Hn;
    try solve [f_equal; auto | do 2 f_equal; auto | f_equal; tauto].
  { pose proof (inline_vars_insert n x env [v] Hn) as Hv. by injection Hv. }
  rewrite inline_vars_insert by tauto. f_equal; [tauto|]. f_equal.
  rewrite Forall_forall in IHe. apply list_fmap_ext. intros i y Hi%list_elem_of_lookup_2.
  apply IHe; [done|]. intros Hy. apply Hn. right; left. eauto with mixt.
Qed.

Lemma inline_exprs_insert n x env (es : list pexpr) : n ∉ concat (pvars <$> es) ->
  inline_expr (<[n:=x]> env) <$> es = inline_expr env <$> es.
Proof.
  intros Hn. pose proof (inline_insert n x env (POperation "" (PConst 0) es [])) as Hi.
  simpl in Hi. rewrite app_nil_r in Hi. by injection (Hi Hn).
Qed.

Section remove_layer.
Context (sq d : Z).

(** An expression whose operands are all named *)
Lemma layer_base e :
  (forall Sub, remove_layer sq d Sub e = Ok (bind_layer false (layer_name false sq d) e
     (Sub (PVar (layer_name false sq d))))) ->
  let_flat e = true -> layers e = 1 -> naming_order e = [false] ->
  layer sq d e false e (PVar (layer_name false sq d)).
Proof.
  intros Hr Hf Hl. split; simpl; try done.
  - intros x. rewrite list_elem_of_singleton. tauto.
  - intros env _. unfold inline_var. by rewrite lookup_insert_eq.
  - tauto.
Qed.

(** An expression [e] whose first layer is that of its operand [s]; [C] is the
    rest of [e], which refers to [xs]. *)
Lemma layer_context e s (C : pexpr -> pexpr) k (xs : list string) order r bound e' :
  layer sq d s r bound e' ->
  (forall Sub, remove_layer sq d Sub e = remove_layer sq d (fun x => Sub (C x)) s) ->
  (forall x, layers (C x) = k + layers x) -> layers e = k + layers s ->
  (forall x, naming_order (C x) = naming_order x ++ order) ->
  naming_order e = naming_order s ++ order ->
  (forall y, y ∈ pvars e <-> y ∈ pvars s \/ y ∈ xs) ->
  (forall x y, y ∈ pvars (C x) <-> y ∈ pvars x \/ y ∈ xs) ->
  (forall env n v x, n ∉ xs -> inline_expr (<[n:=v]> env) x = inline_expr env s ->
     inline_expr (<[n:=v]> env) (C x) = inline_expr env e) ->
  (forall x, is_operation e = true -> is_operation (C x) = true) ->
  layer sq d e r bound (C e').
Proof.
  intros [Hr Hf Hl Hn Hb Hv Hi Ho] Hc Hlc Hle Hnc Hne Hve Hvc Hic Hoc. split.
  - intros Sub. by rewrite Hc, Hr.
  - done.
  - rewrite Hlc, Hle, Hl. lia.
  - by rewrite Hnc, Hne, Hn.
  - intros x Hx. apply Hve. auto.
  - intros x [Hx|Hx]%Hvc; [apply Hv in Hx|]; rewrite Hve; tauto.
  - intros env Hfresh. rewrite Hve in Hfresh. apply Hic; [tauto|]. apply Hi. tauto.
  - intros He. left. auto.
Qed.

(** [args]: moving the leading variable references to the variable list *)
Lemma remove_layer_args n v exprs vars : exists vs rest,
  exprs = (PVar <$> vs) ++ rest /\
  (rest = [] \/ exists e1 rest', rest = e1 :: rest' /\ p_is_var_reference e1 = false) /\
  forall Sub, remove_layer sq d Sub (POperation n (PVar v) exprs vars) =
              remove_layer sq d Sub (POperation n (PVar v) rest (vars ++ vs)).
Proof.
  revert vars. induction exprs as [|e exprs IH]; intros vars.
  { exists [], []. rewrite (app_nil_r vars). auto. }
  destruct (p_is_var_reference e) eqn:He.
  - destruct e; try done. destruct (IH (vars ++ [v0])) as (vs & rest & -> & Hrest & Hr).
    exists (v0 :: vs), rest. split; [done|]. split; [done|]. intros Sub.
    rewrite <- (app_assoc vars [v0] vs) in Hr. apply Hr.
  - exists [], (e :: exprs). rewrite (app_nil_r vars). eauto 10.
Qed.

Lemma layers_vars (vs : list string) : sum_list_with layers (PVar <$> vs) = 0.
Proof. by induction vs. Qed.

Lemma order_vars (vs : list string) : concat (naming_order <$> (PVar <$> vs)) = [].
Proof. by induction vs. Qed.

Lemma pvars_vars (vs : list string) : concat (pvars <$> (PVar <$> vs)) = vs.
Proof. induction vs as [|v vs IH]; [done|]. simpl. by f_equal. Qed.

Lemma not_var_layers s : p_is_var_reference s = false -> layers s <> 0.
Proof. intros Hs ?. rewrite is_var_layers in Hs. by case_bool_decide. Qed.

Definition has_layer (e : pexpr) : Prop := exists r bound e', layer sq d e r bound e'.

Lemma layer_deref s : (layers s <> 0 -> has_layer s) -> has_layer (PDeref s).
Proof.
  intros IH. destruct (p_is_var_reference s) eqn:Hs.
  - destruct s; try done. exists true, (PVar v), (PVar (layer_name true sq d)).
    split; simpl; try done.
    + intros x. rewrite list_elem_of_singleton. tauto.
    + intros env _. unfold inline_var at 1. by rewrite lookup_insert_eq.
  - destruct (IH (not_var_layers s Hs)) as (r & bound & e' & Hl). exists r, bound, (PDeref e').
    apply (layer_context (PDeref s) s PDeref 1 [] [true]) with (e' := e'); simpl; try done.
    + intros Sub. by destruct s.
    + intros y. rewrite elem_of_nil; tauto.
    + intros x y. rewrite elem_of_nil; tauto.
    + by intros env n v x _ ->.
Qed.

Lemma layer_operand e s (C : pexpr -> pexpr) :
  (layers s <> 0 -> has_layer s) ->
  e = C s -> (forall x, let_flat (C (PVar x)) = true) ->
  (forall x, layers (C x) = S (layers x)) -> (forall x, pvars (C x) = pvars x) ->
  (forall env x, inline_expr env (C x) = C (inline_expr env x)) ->
  (forall x, is_operation (C x) = false) ->
  (forall x, naming_order (C x) = naming_order x ++ [false]) ->
  (forall v Sub, s = PVar v -> remove_layer sq d Sub (C s) =
     Ok (bind_layer false (layer_name false sq d) (C s) (Sub (PVar (layer_name false sq d))))) ->
  (forall Sub, p_is_var_reference s = false -> remove_layer sq d Sub (C s) =
     remove_layer sq d (fun x => Sub (C x)) s) ->
  has_layer e.
Proof.
  intros IH -> Hf Hl Hv Hi Ho Hn Hb Hc. destruct (p_is_var_reference s) eqn:Hs.
  - destruct s; try done. eexists _, _, _. apply layer_base;
      [by intros; eapply Hb|done|by rewrite Hl|by rewrite Hn].
  - destruct (IH (not_var_layers s Hs)) as (r & bound & e' & Hlay). exists r, bound, (C e').
    apply (layer_context (C s) s C 1 [] [false]) with (e' := e'); try done; auto.
    + intros y. rewrite Hv, elem_of_nil; tauto.
    + intros x y. rewrite Hv, elem_of_nil; tauto.
    + intros env n v x _ Hx. by rewrite !Hi, Hx.
    + intros x. by rewrite !Ho.
Qed.

Lemma layer_args m v exprs vars : Forall (fun e => layers e <> 0 -> has_layer e) exprs ->
  has_layer (POperation m (PVar v) exprs vars).
Proof.
  intros IHe.
  destruct (remove_layer_args m v exprs vars) as (vs & rest & -> & [->|Hrest] & Hr).
  - exists false, (POperation m (PVar v) [] (vars ++ vs)), (PVar (layer_name false sq d)).
    rewrite app_nil_r in *. split; [intros Sub; by rewrite Hr|simpl..].
    + done.
    + by rewrite layers_vars.
    + by rewrite order_vars.
    + intros x. rewrite pvars_vars, !elem_of_cons, !elem_of_app. tauto.
    + intros x. rewrite list_elem_of_singleton. tauto.
    + intros env _. unfold inline_var at 1. rewrite lookup_insert_eq. simpl.
       by rewrite fmap_app, app_nil_r, <- list_fmap_compose.
    + auto.
  - destruct Hrest as (e1 & rest' & -> & He1).
    rewrite Forall_app, Forall_cons in IHe. destruct IHe as (_ & IHe & _).
    destruct (IHe (not_var_layers e1 He1)) as (r & bound & e' & Hl).
    exists r, bound, (POperation m (PVar v) (e' :: rest') (vars ++ vs)).
    apply (layer_context _ e1 (fun x => POperation m (PVar v) (x :: rest') (vars ++ vs))
      (S (sum_list_with layers rest')) (v :: concat (pvars <$> rest') ++ vars ++ vs)
      (concat (naming_order <$> rest') ++ [false]))
      with (e' := e'); try done.
    + intros Sub. rewrite Hr. by destruct e1.
    + intros x. simpl. lia.
    + simpl. rewrite sum_list_with_app, layers_vars. simpl. lia.
    + intros x. simpl. by rewrite app_assoc.
    + simpl. rewrite fmap_app, concat_app, order_vars. simpl. by rewrite app_assoc.
    + intros y. simpl. rewrite fmap_app, concat_app, pvars_vars, !elem_of_cons, !elem_of_app.
       simpl. rewrite elem_of_app. tauto.
    + intros x y. simpl. rewrite !elem_of_cons, !elem_of_app. tauto.
    + intros env n x y Hn Hx. rewrite elem_of_cons, !elem_of_app in Hn.
       simpl. rewrite Hx, inline_vars_insert, inline_exprs_insert, !fmap_app
         by (rewrite ?elem_of_app; tauto).
       rewrite <- list_fmap_compose, <- app_assoc. f_equal.
       apply inline_var_insert. intros ->; tauto.
Qed.

Lemma layer_oper m h exprs vars :
  (layers h <> 0 -> has_layer h) -> Forall (fun e => layers e <> 0 -> has_layer e) exprs ->
  has_layer (POperation m h exprs vars).
Proof.
  intros IHh IHe. destruct (p_is_var_reference h) eqn:Hh.
  - destruct h; try done. by apply layer_args.
  - destruct (IHh (not_var_layers h Hh)) as (r & bound & e' & Hl).
    exists r, bound, (POperation m e' exprs vars).
    apply (layer_context _ h (fun x => POperation m x exprs vars)
      (S (sum_list_with layers exprs)) (concat (pvars <$> exprs) ++ vars)
      (concat (naming_order <$> exprs) ++ [false])) with (e' := e');
      simpl; try done; try (intros; rewrite !elem_of_app; tauto); try lia.
    + intros Sub. by destruct h.
    + intros env n x y Hn ->. rewrite elem_of_app in Hn.
      by rewrite inline_vars_insert, inline_exprs_insert by tauto.
Qed.

Lemma layer_exists e : layers e <> 0 -> has_layer e.
Proof.
  induction e as [s f IH|s f IH|s IH|l s IH|l s IH|s IH|v|i|op L R IHL IHR|m h exprs vars IHh IHe]
    using pexpr_ind'; intros Hne.
  - apply (layer_operand _ s (fun x => PField x f)); auto; by intros; destruct s.
  - destruct (layer_deref s IH) as (r & bound & e' & Hl). exists r, bound, (PField e' f).
    apply (layer_context (PFieldPtr s f) (PDeref s) (fun x => PField x f) 1 [] [false]) with (e' := e');
      simpl; try done; try (intros; rewrite elem_of_nil; tauto).
    + by rewrite <- app_assoc.
    + by intros env n v x _ ->.
  - by apply layer_deref.
  - apply (layer_operand _ s (PEndorse l)); auto; by intros; destruct s.
  - apply (layer_operand _ s (PEnsure l)); auto; by intros; destruct s.
  - apply (layer_operand _ s PIsValid); auto; by intros; destruct s.
  - done.
  - eexists _, _, _. by apply layer_base.
  - destruct (p_is_var_reference L) eqn:HL; [destruct (p_is_var_reference R) eqn:HR|].
    + destruct L, R; try done. eexists _, _, _. by apply layer_base.
    + destruct (IHR (not_var_layers R HR)) as (r & bound & e' & Hl). destruct L as [| | | | | |v| | |]; try done.
      exists r, bound, (PBinOp op (PVar v) e').
      apply (layer_context _ R (PBinOp op (PVar v)) 1 [v] [false]) with (e' := e'); simpl; try done;
        try (intros; rewrite ?elem_of_cons, ?elem_of_nil; tauto).
      * intros Sub. by destruct R.
      * intros env n x y Hn ->. f_equal. apply inline_var_insert.
        by intros ->; apply Hn; left.
    + destruct (IHL (not_var_layers L HL)) as (r & bound & e' & Hl).
      exists r, bound, (PBinOp op e' R).
      apply (layer_context _ L (fun x => PBinOp op x R) (S (layers R)) (pvars R)
        (naming_order R ++ [false])) with (e' := e');
        simpl; try done; try (intros; rewrite ?elem_of_app; tauto); try lia.
      * intros Sub. by destruct L.
      * intros env n x y Hn ->. by rewrite inline_insert.
  - by apply layer_oper.
Qed.
End remove_layer.
