(* ===== verification/FlattenRules.v ===== *)
(** * Flattening as a relation

    The overloads of [_flatten_exprs] as rules, with what follows by induction
    on them: the result is in A-normal form, inlines to the source, and its
    generated declarations do not hide each other. *)
From S2P Require Import Prelude Labels TypedAst ParseAst Flatten FlattenLayer.

(** ** The overloads as rules *)

(** Statements [_flatten_exprs_helper] is called on, as a context and the
    expression that still has a layer to name. *)
Inductive named_in : pstmt -> (pexpr -> pstmt) -> pexpr -> Prop :=
| named_let v e body : let_flat e = false ->
    named_in (PLet (PBinding v e) body) (fun x => PLet (PBinding v x) body) e
| named_remote v e body : p_is_var_reference e = false ->
    named_in (PLetRemote (PBinding v e) body) (fun x => PLetRemote (PBinding v x) body) e
| named_target v e : p_is_var_reference e = true -> contains_fieldpointer_ref v = Ok true ->
    named_in (PAssignment v e) (fun x => PAssignment x e) v
| named_source v e : p_is_var_reference e = false ->
    named_in (PAssignment v e) (PAssignment v) e
| named_return e : p_is_var_reference e = false -> named_in (PReturn e) PReturn e
| named_while c body : p_is_var_reference c = false ->
    named_in (PWhile c body) (fun x => PWhile x body) c
| named_if c t e : p_is_var_reference c = false ->
    named_in (PIf c t e) (fun x => PIf x t e) c.

Inductive flattens (sq d : Z) : pstmt -> pstmt -> Prop :=
| fl_named s C e r bound e' s' : named_in s C e -> layer sq d e r bound e' ->
    (0 <= d < 127)%Z ->
    flattens sq (d + 1) (bind_layer r (layer_name r sq d) bound (C e')) s' ->
    flattens sq d s s'
| fl_let b body body' : let_flat (pb_expr b) = true -> (0 <= d < 127)%Z ->
    flattens sq (d + 1) body body' -> flattens sq d (PLet b body) (PLet b body')
| fl_remote b body body' : p_is_var_reference (pb_expr b) = true -> (0 <= d < 127)%Z ->
    flattens sq (d + 1) body body' -> flattens sq d (PLetRemote b body) (PLetRemote b body')
| fl_flat_operation n h vars : p_is_var_reference h = true ->
    flattens sq d (PSOperation n h [] vars) (PSOperation n h [] vars)
| fl_operation n h exprs vars r bound e' ret s' :
    layer sq d (POperation n h exprs vars) r bound e' -> (0 <= d <= 127)%Z ->
    flattens (sq + 1) d (bind_layer r (layer_name r sq d) bound (PReturn e')) ret ->
    operation_to_statement_f true ret = Ok s' ->
    flattens sq d (PSOperation n h exprs vars) s'
| fl_assignment v e : p_is_var_reference e = true -> contains_fieldpointer_ref v = Ok false ->
    flattens sq d (PAssignment v e) (PAssignment v e)
| fl_return e : p_is_var_reference e = true -> flattens sq d (PReturn e) (PReturn e)
| fl_while c body body' : p_is_var_reference c = true -> (0 <= d < 127)%Z ->
    flattens sq (d + 1) body body' -> flattens sq d (PWhile c body) (PWhile c body')
| fl_if c t t' e e' : p_is_var_reference c = true -> (0 <= d < 127)%Z ->
    flattens sq (d + 1) t t' -> flattens (sq + 1) (d + 1) e e' ->
    flattens sq d (PIf c t e) (PIf c t' e')
| fl_sequence ss ss' : length ss' = length ss ->
    (forall (i : nat) s s', ss !! i = Some s -> ss' !! i = Some s' ->
       flattens (sq + Z.of_nat i) d s s') ->
    flattens sq d (PSequence ss) (PSequence ss').

Lemma traverse_seq_Ok {A B} (f : Z -> A -> outcome B) sq l l' : traverse_seq f sq l = Ok l' ->
  length l' = length l /\
  forall (i : nat) x x', l !! i = Some x -> l' !! i = Some x' -> f (sq + Z.of_nat i)%Z x = Ok x'.
Proof.
  revert sq l'. induction l as [|x l IH]; intros sq l' Hl; cbn in Hl; outcome_inv; [done|].
  destruct (IH x1 x2) as [Hlen Hi]; [done|]. simpl. split; [lia|].
  intros [|i] y y' Hy Hy'; simpl in *.
  - rewrite Z.add_0_r. congruence.
  - apply char_arg_Ok in H0 as [-> _]. specialize (Hi i y y' Hy Hy').
    by rewrite <- Z.add_assoc, Z.add_1_l, <- Nat2Z.inj_succ in Hi.
Qed.

Lemma flatten_flattens n sq d s s' : (0 <= d <= 127)%Z ->
  flatten_exprs_fuel n sq d s = Ok s' -> flattens sq d s s'.
Proof.
  revert sq d s s'. induction n as [|n IH]; intros sq d s s' Hd Hs; [done|].
  assert (Hdeep : forall sq s s', (d' ← char_arg (d + 1); flatten_exprs_fuel n sq d' s) = Ok s' ->
    (0 <= d < 127)%Z /\ flattens sq (d + 1) s s').
  { intros sq1 s1 s1' Hr. apply bind_Ok in Hr as (d' & [-> ?]%char_arg_Ok & Hr).
    split; [lia|]. apply IH; [lia|done]. }
  assert (Hhelp : forall C e, named_in s C e -> layers e <> 0 ->
    (partial ← remove_layer sq d C e; d' ← char_arg (d + 1);
     flatten_exprs_fuel n sq d' partial) = Ok s' -> flattens sq d s s').
  { intros C e Hin He Hr. destruct (layer_exists sq d e He) as (r & bound & e' & Hl).
    rewrite (layer_removes _ _ _ _ _ _ Hl) in Hr. apply Hdeep in Hr as [Hr1 Hr2].
    by eapply fl_named. }
  cbn [flatten_exprs_fuel] in Hs. unfold flatten_step, depth_limit in Hs.
  destruct (Z.ltb_spec d 1000); [|lia].
  destruct s as [[v e] body|[v e] body|m h exprs vars|v e|e|c t e|c body|ss]; cbn [pb_expr pb_var] in Hs.
  - destruct (let_flat e) eqn:He.
    + apply bind_Ok in Hs as (body' & [Hr1 Hr2]%Hdeep & [= <-]). by apply fl_let.
    + apply (Hhelp _ _ (named_let v e body He)); [|done]. intros [w ->]%layers_var. done.
  - destruct (p_is_var_reference e) eqn:He.
    + apply bind_Ok in Hs as (body' & [Hr1 Hr2]%Hdeep & [= <-]). by apply fl_remote.
    + apply (Hhelp _ _ (named_remote v e body He)); [by apply not_var_layers|done].
  - destruct (p_is_var_reference h && bool_decide (exprs = [])) eqn:Hf.
    + apply andb_true_iff in Hf as [Hh ->%bool_decide_eq_true]. injection Hs as <-.
      by apply fl_flat_operation.
    + destruct (layer_exists sq d (POperation m h exprs vars)) as (r & bound & e' & Hl); [done|].
      rewrite (layer_removes _ _ _ _ _ _ Hl) in Hs.
      apply bind_Ok in Hs as (? & [= <-] & Hs). apply bind_Ok in Hs as (? & [-> ?]%char_arg_Ok & Hs).
      apply bind_Ok in Hs as (ret & Hret & Hs). eapply fl_operation; [done..| |done]. by apply IH.
  - destruct (p_is_var_reference e) eqn:He.
    + apply bind_Ok in Hs as ([] & Hc & Hs).
      * apply (Hhelp _ _ (named_target v e He Hc)); [|done]. by intros [w ->]%layers_var.
      * injection Hs as <-. by apply fl_assignment.
    + apply (Hhelp _ _ (named_source v e He)); [by apply not_var_layers|done].
  - destruct (p_is_var_reference e) eqn:He.
    + injection Hs as <-. by apply fl_return.
    + apply (Hhelp _ _ (named_return e He)); [by apply not_var_layers|done].
  - destruct (p_is_var_reference c) eqn:Hc.
    + apply bind_Ok in Hs as (t' & [Hr1 Hr2]%Hdeep & Hs).
      apply bind_Ok in Hs as (? & [-> ?]%char_arg_Ok & Hs).
      apply bind_Ok in Hs as (? & [-> ?]%char_arg_Ok & Hs).
      apply bind_Ok in Hs as (e' & He & [= <-]). apply fl_if; [done..|]. apply IH; [lia|done].
    + apply (Hhelp _ _ (named_if c t e Hc)); [by apply not_var_layers|done].
  - destruct (p_is_var_reference c) eqn:Hc.
    + apply bind_Ok in Hs as (body' & [Hr1 Hr2]%Hdeep & [= <-]). by apply fl_while.
    + apply (Hhelp _ _ (named_while c body Hc)); [by apply not_var_layers|done].
  - apply bind_Ok in Hs as (ss' & [Hlen Hi]%traverse_seq_Ok & [= <-]). apply fl_sequence; [done|].
    intros i x x' Hx Hx'. apply IH; [done|]. by apply Hi.
Qed.

(** ** The result is in A-normal form *)

Lemma operation_to_statement_anormal b s s' : anormal s = true ->
  operation_to_statement_f b s = Ok s' -> anormal s' = true.
Proof.
  revert b s'. induction s as [[v e] s IH|[v e] s IH| | | | | |] using pstmt_ind'; intros b s' Ha Hs;
    try done; cbn [operation_to_statement_f pb_expr] in Hs; simpl in Ha;
    apply andb_true_iff in Ha as [He Ha]; destruct s as [? ?|? ?| | |[]| | |]; try done.
  all: try (destruct b; try done).
  all: try (apply bind_Ok in Hs as (r & Hr & [= <-]); simpl; rewrite He; by apply (IH _ _ Ha Hr)).
  all: destruct e; try done; by injection Hs as <-.
Qed.

Lemma flattens_anormal sq d s s' : flattens sq d s s' -> anormal s' = true.
Proof.
  induction 1 as [ | |sq d b body body' Hf| | | | | | |sq d ss ss' Hlen Hall IH]; simpl; try done.
  - by rewrite H.
  - by rewrite Hf.
  - by rewrite H.
  - by eapply operation_to_statement_anormal.
  - rewrite H. by apply bool_decide_eq_true.
  - by rewrite H.
  - by rewrite H, IHflattens1.
  - apply forallb_forall. intros s' Hs'%list_elem_of_In.
    apply list_elem_of_lookup in Hs' as [i Hi].
    destruct (lookup_lt_is_Some_2 ss i) as [s Hs]; [rewrite <- Hlen; by eapply lookup_lt_Some|].
    by apply (IH i s s').
Qed.

(** A program in A-normal form stays as it is. *)
Lemma anormal_unchanged sq d s s' : flattens sq d s s' -> anormal s = true -> s' = s.
Proof.
  induction 1 as [sq d s C e r bound e' s' Hin Hl Hd Hfl IH
    |sq d b body body' Hf Hd Hfl IH|sq d b body body' Hf Hd Hfl IH|
    |sq d n h exprs vars r bound e' ret s' Hl Hd Hfl IH Ho| | | | |sq d ss ss' Hlen Hall IH];
    simpl; intros Ha; try done.
  - exfalso. destruct Hin; simpl in Ha; rewrite ?andb_true_iff in Ha; try congruence;
      try (destruct Ha; congruence); try (destruct Ha as [[]]; congruence).
    destruct Ha as [_ Ha%bool_decide_eq_true]. congruence.
  - apply andb_true_iff in Ha as [_ Ha]. by rewrite IH.
  - apply andb_true_iff in Ha as [_ Ha]. by rewrite IH.
  - apply andb_true_iff in Ha as [Hh ->%bool_decide_eq_true]. destruct h; try done.
    pose proof (layer_removes _ _ _ _ _ _ Hl PReturn) as Hr. cbn [remove_layer] in Hr.
    injection Hr as Hr. rewrite <- Hr in Hfl. inversion Hfl; subst; [by inversion H|].
    match goal with H : flattens _ _ (PReturn _) _ |- _ => inversion H; subst end;
      [match goal with H : named_in (PReturn _) _ _ |- _ => by inversion H end|].
    by injection Ho as <-.
  - apply andb_true_iff in Ha as [_ Ha]. by rewrite IHflattens.
  - rewrite !andb_true_iff in Ha. destruct Ha as [[_ ?] ?]. by rewrite IHflattens1, IHflattens2.
  - f_equal. apply list_eq_same_length with (n := length ss); [done..|].
    intros i x y Hi Hx Hy. apply (IH i y x Hy Hx).
    apply (proj1 (forallb_forall _ _) Ha). apply list_elem_of_In. by eapply list_elem_of_lookup_2.
Qed.

(** ** The result inlines to the source *)

(** Generated names of a statement come from levels above [d]. *)
Definition names_below (d : Z) (s : pstmt) : Prop :=
  forall n k, n ∈ pnames s -> generated_at n = Some k -> (k < d)%Z.

(** A declaration [remove_layer] has just made *)
Definition named_head (d : Z) (s : pstmt) : Prop :=
  match s with
  | PLet b body => let_flat (pb_expr b) = true /\ names_below (d + 1) s
  | PLetRemote b body => p_is_var_reference (pb_expr b) = true /\ names_below (d + 1) s
  | _ => False
  end.

Definition ready (d : Z) (s : pstmt) : Prop := names_below d s \/ named_head d s.

Lemma names_below_mono d d' s : names_below d s -> (d <= d')%Z -> names_below d' s.
Proof. intros Hs Hd n k Hn Hk. specialize (Hs n k Hn Hk). lia. Qed.

Lemma names_below_sub d s s' : names_below d s -> (forall n, n ∈ pnames s' -> n ∈ pnames s) ->
  names_below d s'.
Proof. intros Hs Hsub n k Hn. apply Hs. auto. Qed.

Lemma ready_body d s body : (d < d + 1)%Z -> ready d s ->
  (forall n, n ∈ pnames body -> n ∈ pnames s) -> ready (d + 1) body.
Proof.
  intros ? [Hs|Hs] Hsub; left.
  - eapply names_below_mono; [by eapply names_below_sub|lia].
  - destruct s; try done; destruct Hs as [_ Hs]; by eapply names_below_sub.
Qed.

Lemma named_statement s C e : named_in s C e -> s = C e.
Proof. by destruct 1. Qed.

(** The rest of the statement refers to [xs]. *)
Lemma named_pnames s C e : named_in s C e -> exists xs : list string, forall x y,
  y ∈ pnames (C x) <-> y ∈ pvars x \/ y ∈ xs.
Proof.
  destruct 1 as [v e body| v e body|v e|v e|e|c body|c t e].
  1, 2: exists (v :: pnames body). 3: exists (pvars e). 4: exists (pvars v). 5: exists [].
  6: exists (pnames body). 7: exists (pnames t ++ pnames e).
  all: intros x y; simpl; rewrite ?elem_of_cons, ?elem_of_app, ?elem_of_nil; tauto.
Qed.

Lemma inline_stmt_insert n x env s : n ∉ pnames s -> inline (<[n:=x]> env) s = inline env s.
Proof.
  revert env. induction s as [[v e] s IH|[v e] s IH|m h exprs vars|v e|e|c t e IHt IHe|c s IH|ss IH]
    using pstmt_ind'; intros env Hn; cbn [inline pb_expr pb_var];
    simpl in Hn; rewrite ?elem_of_cons, ?elem_of_app in Hn; rewrite ?inline_insert by tauto.
  1, 2: destruct (generated_at v); [|by rewrite IH by tauto];
    rewrite insert_insert_ne by (intros ->; tauto); apply IH; tauto.
  - by rewrite inline_vars_insert, inline_exprs_insert by tauto.
  - done.
  - done.
  - by rewrite IHt, IHe by tauto.
  - by rewrite IH by tauto.
  - f_equal. rewrite Forall_forall in IH. apply list_fmap_ext. intros i y Hi%list_elem_of_lookup_2.
    apply IH; [done|]. intros Hy. apply Hn. eauto with mixt.
Qed.

Lemma named_inline s C e n x env e' : named_in s C e -> n ∉ pnames s ->
  inline_expr (<[n:=x]> env) e' = inline_expr env e ->
  inline (<[n:=x]> env) (C e') = inline env s.
Proof.
  destruct 1 as [v e body| v e body|v e|v e|e|c body|c t e]; intros Hn He; simpl in Hn;
    rewrite ?elem_of_cons, ?elem_of_app in Hn; cbn [inline pb_expr pb_var];
    rewrite ?He, ?inline_insert by tauto.
  1, 2: destruct (generated_at v); [|by rewrite inline_stmt_insert by tauto];
    rewrite insert_insert_ne by (intros ->; tauto); apply inline_stmt_insert; tauto.
  all: rewrite ?inline_stmt_insert by tauto; done.
Qed.

(** Naming a layer does not change what the statement inlines to. *)
Lemma layer_step_inline sq d s C e r bound e' env :
  named_in s C e -> layer sq d e r bound e' -> (0 <= d <= 127)%Z ->
  layer_name r sq d ∉ pnames s ->
  inline env (bind_layer r (layer_name r sq d) bound (C e')) = inline env s.
Proof.
  intros Hin Hl Hd Hn.
  transitivity (inline (<[layer_name r sq d := layer_value r (inline_expr env bound)]> env) (C e')).
  - destruct r; cbn [bind_layer inline pb_expr pb_var];
      [rewrite (generated_layer_name true)|rewrite (generated_layer_name false)]; done.
  - apply (named_inline s C e); [done..|]. apply (layer_inline _ _ _ _ _ _ Hl).
    destruct (named_pnames s C e Hin) as [xs Hxs]. rewrite (named_statement _ _ _ Hin), Hxs in Hn.
    tauto.
Qed.

Lemma layer_step_ready sq d s C e r bound e' :
  named_in s C e -> layer sq d e r bound e' -> (0 <= d <= 127)%Z ->
  names_below d s ->
  named_head d (bind_layer r (layer_name r sq d) bound (C e')).
Proof.
  intros Hin Hl Hd Hs.
  assert (Hnames : names_below (d + 1) (bind_layer r (layer_name r sq d) bound (C e'))).
  { destruct (named_pnames s C e Hin) as [xs Hxs]. intros n k Hn Hk.
    rewrite (named_statement _ _ _ Hin) in Hs.
    assert (Hn' : n = layer_name r sq d \/ n ∈ pnames (C e)).
    { assert (n = layer_name r sq d \/ n ∈ pvars bound \/ n ∈ pnames (C e')) as [?|[Hb|He]];
        [by destruct r; simpl in Hn; rewrite elem_of_cons, elem_of_app in Hn|by left|..];
        rewrite Hxs in *.
      - right; left. by apply (layer_bound_vars _ _ _ _ _ _ Hl).
      - destruct He as [He|He]; [|tauto].
        apply (layer_vars _ _ _ _ _ _ Hl) in He. tauto. }
    destruct Hn' as [->|Hn'].
    - rewrite generated_layer_name in Hk by lia. injection Hk as <-. lia.
    - specialize (Hs n k Hn' Hk). lia. }
  pose proof (layer_flat _ _ _ _ _ _ Hl). by destruct r.
Qed.

(** An operation statement travels as the result of a [return]; these are the
    statements seen on the way, and the flat ones at the end. *)
Inductive operation_source : pstmt -> Prop :=
| source_return e : is_operation e = true -> operation_source (PReturn e)
| source_let n e s : generated_at n <> None -> let_flat e = true ->
    operation_source s -> operation_source (PLet (PBinding n e) s)
| source_remote n e s : generated_at n <> None -> p_is_var_reference e = true ->
    operation_source s -> operation_source (PLetRemote (PBinding n e) s)
| source_last n e : generated_at n <> None -> let_flat e = true -> is_operation e = true ->
    operation_source (PLet (PBinding n e) (PReturn (PVar n))).

Inductive operation_chain : pstmt -> Prop :=
| chain_let n e s : generated_at n <> None ->
    operation_chain s -> operation_chain (PLet (PBinding n e) s)
| chain_remote n e s : generated_at n <> None ->
    operation_chain s -> operation_chain (PLetRemote (PBinding n e) s)
| chain_last n m h exprs vars : generated_at n <> None ->
    operation_chain (PLet (PBinding n (POperation m h exprs vars)) (PReturn (PVar n))).

Lemma source_layer sq d e r bound e' : layer sq d e r bound e' -> (0 <= d <= 127)%Z ->
  is_operation e = true ->
  operation_source (bind_layer r (layer_name r sq d) bound (PReturn e')).
Proof.
  intros Hl Hd He. pose proof (layer_flat _ _ _ _ _ _ Hl) as Hf.
  assert (Hn : generated_at (layer_name r sq d) <> None) by by rewrite generated_layer_name by lia.
  destruct (layer_operation _ _ _ _ _ _ Hl He) as [He'|(-> & -> & Hb)].
  - destruct r; constructor; try done; by constructor.
  - by apply source_last.
Qed.

Lemma flattens_operation sq d s s' : flattens sq d s s' -> operation_source s -> operation_chain s'.
Proof.
  induction 1 as [sq d s C e r bound e' s' Hin Hl Hd Hfl IH
    |sq d b body body' Hf Hd Hfl IH|sq d b body body' Hf Hd Hfl IH| | | | | | |];
    inversion 1; subst; try done.
  - inversion Hin; subst. apply IH. apply (source_layer _ _ _ _ _ _ Hl); [lia|done].
  - inversion Hin; subst; congruence.
  - inversion Hin; subst; congruence.
  - inversion Hin; subst; congruence.
  - apply chain_let; auto.
  - simpl in *. inversion Hfl; subst; [by inversion H0|].
    destruct e; try done. by apply chain_last.
  - apply chain_remote; auto.
  - by destruct e.
Qed.

(** The statement an operation chain stands for *)
Definition returned_operation (s : pstmt) : pstmt :=
  match s with
  | PReturn (POperation n h exprs vars) => PSOperation n h exprs vars
  | _ => s
  end.

Lemma operation_to_statement_inline b s s' env : operation_chain s ->
  operation_to_statement_f b s = Ok s' -> inline env s' = returned_operation (inline env s).
Proof.
  intros Hs. revert b s' env. induction Hs as [n e s Hn Hs IH|n e s Hn Hs IH|n m h exprs vars Hn];
    intros b s' env Hr; cbn [operation_to_statement_f pb_expr] in Hr.
  - assert (exists r, operation_to_statement_f false s = Ok r /\ s' = PLet (PBinding n e) r)
      as (r & Hr' & ->) by (destruct Hs; [..|]; outcome_inv; eauto).
    cbn [inline pb_expr pb_var]. destruct (generated_at n); [|done]. by apply (IH _ _ _ Hr').
  - assert (exists c r, operation_to_statement_f c s = Ok r /\ s' = PLetRemote (PBinding n e) r)
      as (c & r & Hr' & ->) by (destruct Hs; [..|]; try (destruct b; [|done]); outcome_inv; eauto).
    cbn [inline pb_expr pb_var]. destruct (generated_at n); [|done]. by apply (IH _ _ _ Hr').
  - injection Hr as <-. cbn [inline pb_expr pb_var]. destruct (generated_at n); [|done].
    cbn [inline_expr]. by rewrite inline_var_eq.
Qed.

Lemma flattens_inline sq d s s' : flattens sq d s s' -> ready d s ->
  forall env, inline env s' = inline env s.
Proof.
  induction 1 as [sq d s C e r bound e' s' Hin Hl Hd Hfl IH
    |sq d b body body' Hf Hd Hfl IH|sq d b body body' Hf Hd Hfl IH|
    |sq d n h exprs vars r bound e' ret s' Hl Hd Hfl IH Ho| |
    |sq d c body body' Hc Hd Hfl IH|sq d c t t' e e' Hc Hd Ht IHt He IHe|sq d ss ss' Hlen Hall IH];
    intros Hs env; try done.
  - assert (Hb : names_below d s).
    { destruct Hs as [Hs|Hs]; [done|]. destruct Hin; simpl in Hs; try done; destruct Hs; congruence. }
    rewrite IH.
    + apply (layer_step_inline _ _ _ _ _ _ _ _ _ Hin Hl); [lia|]. intros Hn.
      specialize (Hb _ d Hn (generated_layer_name r sq d ltac:(lia))). lia.
    + left. pose proof (layer_step_ready _ _ _ _ _ _ _ _ Hin Hl ltac:(lia) Hb) as Hh.
      by destruct r; destruct Hh.
  - assert (IHb : forall env, inline env body' = inline env body).
    { apply IH. apply (ready_body d (PLet b body)); [lia|done|]. intros n Hn. simpl.
      rewrite elem_of_cons, elem_of_app. tauto. }
    cbn [inline]. by destruct (generated_at (pb_var b)); rewrite IHb.
  - assert (IHb : forall env, inline env body' = inline env body).
    { apply IH. apply (ready_body d (PLetRemote b body)); [lia|done|]. intros n Hn. simpl.
      rewrite elem_of_cons, elem_of_app. tauto. }
    cbn [inline]. by destruct (generated_at (pb_var b)); rewrite IHb.
  - destruct Hs as [Hs|[]].
    assert (Hin : named_in (PReturn (POperation n h exprs vars)) PReturn (POperation n h exprs vars))
      by by apply named_return.
    assert (Hb : names_below d (PReturn (POperation n h exprs vars))) by done.
    rewrite (operation_to_statement_inline true ret s' env), IH.
    + rewrite (layer_step_inline _ _ _ _ _ _ _ _ _ Hin Hl); [done|lia|]. intros Hn.
      specialize (Hb _ d Hn (generated_layer_name r sq d ltac:(lia))). lia.
    + right. by apply (layer_step_ready _ _ _ _ _ _ _ _ Hin Hl).
    + apply (flattens_operation _ _ _ _ Hfl). by apply (source_layer _ _ _ _ _ _ Hl).
    + done.
  - cbn [inline]. rewrite IH; [done|]. apply (ready_body d (PWhile c body)); [lia|done|].
    intros n Hn. simpl. rewrite elem_of_app. tauto.
  - cbn [inline]. rewrite IHt, IHe; [done|..]; apply (ready_body d (PIf c t e)); try done; try lia;
      intros n Hn; simpl; rewrite !elem_of_app; tauto.
  - cbn [inline]. f_equal. apply list_eq_same_length with (n := length ss); rewrite ?length_fmap; try done.
    intros i x y Hi (x' & -> & Hx')%list_lookup_fmap_Some (y' & -> & Hy')%list_lookup_fmap_Some.
    apply (IH i y' x' Hy' Hx'). destruct Hs as [Hs|[]]. left. apply (names_below_sub _ _ _ Hs).
    intros n Hn. simpl. eauto with mixt.
Qed.

(** ** Generated names do not hide each other *)

(** Names a statement declares *)
Fixpoint binders (s : pstmt) : list string :=
  match s with
  | PLet b s | PLetRemote b s => pb_var b :: binders s
  | PIf _ t e => binders t ++ binders e
  | PWhile _ s => binders s
  | PSequence ss => concat (binders <$> ss)
  | PSOperation _ _ _ _ | PAssignment _ _ | PReturn _ => []
  end.

Definition user_binders (s : pstmt) : Prop := forall n, n ∈ binders s -> generated_at n = None.

Lemma binders_sequence lo ss : fold_right and True (binders_increase lo <$> ss) <->
  forall s, s ∈ ss -> binders_increase lo s.
Proof.
  induction ss as [|s ss IH]; simpl.
  - split; [|done]. intros _ s Hs. by apply elem_of_nil in Hs.
  - rewrite IH. setoid_rewrite elem_of_cons. naive_solver.
Qed.

Lemma binders_increase_mono lo lo' s : (lo' <= lo)%Z -> binders_increase lo s ->
  binders_increase lo' s.
Proof.
  revert lo lo'. induction s as [[v e] s IH|[v e] s IH| | | |c t e IHt IHe|c s IH|ss IH]
    using pstmt_ind'; intros lo lo' Hlo; cbn [binders_increase pb_var]; try done.
  1, 2: destruct (generated_at v); [intros [? ?]; split; [lia|done]|by apply IH].
  - intros [? ?]; split; eauto.
  - eauto.
  - rewrite !binders_sequence. rewrite Forall_forall in IH. intros Hs s Hin. eapply IH; eauto.
Qed.

Lemma named_binders s C e : named_in s C e -> forall x, binders (C x) = binders s.
Proof. by destruct 1. Qed.

Lemma operation_to_statement_binders b lo s s' : binders_increase lo s ->
  operation_to_statement_f b s = Ok s' -> binders_increase lo s'.
Proof.
  revert b lo s'. induction s as [[v e] s IH|[v e] s IH| | | | | |] using pstmt_ind';
    intros b lo s' Hb Hs; try done; cbn [operation_to_statement_f pb_expr] in Hs;
    destruct s as [? ?|? ?| | |[]| | |]; try done; try (destruct b; try done).
  all: try (destruct e; try done; by injection Hs as <-).
  all: apply bind_Ok in Hs as (r & Hr & [= <-]); cbn [binders_increase pb_var] in Hb |- *;
    destruct (generated_at v); [destruct Hb as [? Hb]; split; [done|]|]; by apply (IH _ _ _ Hb Hr).
Qed.

(** A statement of the source, or one under a declaration of level [k] *)
Definition at_level (d : Z) (s : pstmt) (k : Z) : Prop :=
  (user_binders s /\ k = d) \/
  (exists r n e s0, s = bind_layer r n e s0 /\ generated_at n = Some k /\ (k <= d)%Z /\
     user_binders s0 /\ (if r then p_is_var_reference else let_flat) e = true).

Lemma user_sub s s' : user_binders s -> (forall n, n ∈ binders s' -> n ∈ binders s) ->
  user_binders s'.
Proof. intros Hs Hsub n Hn. auto. Qed.

Lemma flattens_binders sq d s s' : flattens sq d s s' ->
  forall k, at_level d s k -> binders_increase k s'.
Proof.
  assert (Hbody : forall r d b body body' k,
    (forall k, at_level (d + 1) body k -> binders_increase k body') ->
    at_level d ((if r : bool then PLetRemote else PLet) b body) k ->
    binders_increase k ((if r then PLetRemote else PLet) b body')).
  { intros r d1 b body body' k IH [[Hu ->]|(r' & n & e & s0 & Heq & Hn & Hk & Hu & _)].
    - assert (binders_increase (d1 + 1) body').
      { apply IH. left. split; [|done]. apply (user_sub _ _ Hu). intros n Hn.
        destruct r; by right. }
      assert (generated_at (pb_var b) = None) as Hb by by apply Hu; destruct r; left.
      destruct r; simpl; rewrite Hb; (eapply binders_increase_mono; [|done]; lia).
    - assert (pb_var b = n /\ body = s0) as [<- ->]
        by by destruct r, r'; unfold bind_layer in Heq; try discriminate Heq; injection Heq as -> ->.
      assert (binders_increase (d1 + 1) body') by by apply IH; left.
      destruct r; simpl; rewrite Hn; (split; [lia|]; eapply binders_increase_mono; [|done]; lia). }
  induction 1 as [sq d s C e r bound e' s' Hin Hl Hd Hfl IH
    |sq d b body body' Hf Hd Hfl IH|sq d b body body' Hf Hd Hfl IH|
    |sq d n h exprs vars r bound e' ret s' Hl Hd Hfl IH Ho| |
    |sq d c body body' Hc Hd Hfl IH|sq d c t t' e e' Hc Hd Ht IHt He IHe|sq d ss ss' Hlen Hall IH];
    intros k Hk; try done.
  - assert (Hu : user_binders s /\ k = d).
    { destruct Hk as [?|(r' & n & e0 & s0 & -> & _ & _ & _ & He0)]; [done|].
      destruct r'; inversion Hin; subst; congruence. }
    destruct Hu as [Hu ->]. apply IH. right. exists r, (layer_name r sq d), bound, (C e').
    split_and!; [done|apply generated_layer_name; lia|lia| |by eapply layer_flat].
    apply (user_sub _ _ Hu). intros n. by rewrite (named_binders _ _ _ Hin).
  - by apply (Hbody false d b body body' k IH).
  - by apply (Hbody true d b body body' k IH).
  - assert (k = d) as ->. { destruct Hk as [[_ ?]|([] & ? & ? & ? & ? & _)]; done. }
    eapply operation_to_statement_binders; [|done]. apply IH. right.
    exists r, (layer_name r sq d), bound, (PReturn e').
    split_and!; [done|by apply generated_layer_name|lia|by intros ? ?%elem_of_nil|by eapply layer_flat].
  - assert (Hu : user_binders body /\ k = d).
    { destruct Hk as [[Hu ->]|([] & ? & ? & ? & ? & _)]; done. }
    destruct Hu as [Hu ->]. cbn [binders_increase]. eapply binders_increase_mono; [|apply IH; by left]. lia.
  - assert (Hu : user_binders (PIf c t e) /\ k = d).
    { destruct Hk as [[Hu ->]|([] & ? & ? & ? & ? & _)]; done. }
    destruct Hu as [Hu ->]. cbn [binders_increase].
    split; (eapply binders_increase_mono; [|apply IHt || apply IHe; left; split; [|done]]; [lia|];
      apply (user_sub _ _ Hu); intros n Hn; simpl; rewrite elem_of_app; tauto).
  - assert (Hu : user_binders (PSequence ss) /\ k = d).
    { destruct Hk as [[Hu ->]|([] & ? & ? & ? & ? & _)]; done. }
    destruct Hu as [Hu ->]. cbn [binders_increase]. apply binders_sequence.
    intros s' [i Hi]%list_elem_of_lookup.
    destruct (lookup_lt_is_Some_2 ss i) as [s Hs]; [rewrite <- Hlen; by eapply lookup_lt_Some|].
    apply (IH i s s' Hs Hi). left. split; [|done]. apply (user_sub _ _ Hu).
    intros n Hn. simpl. eauto with mixt.
Qed.
