(* ===== verification/FlattenBounds.v ===== *)
(** * Flattening ends, and what it accepts

    The recursion of [flatten_exprs] needs no fuel, and a program within the
    limits of a [char] flattens. *)
From S2P Require Import Prelude Labels TypedAst ParseAst Flatten FlattenLayer.
From S2P Require Import FlattenRules.

(** ** The recursion ends *)

Lemma bind_layer_cost sq d e r bound e' s : layer sq d e r bound e' ->
  flatten_cost (bind_layer r (layer_name r sq d) bound s) = S (flatten_cost s).
Proof.
  intros Hl. pose proof (layer_flat _ _ _ _ _ _ Hl) as Hf. destruct r; simpl.
  - rewrite is_var_layers in Hf. apply bool_decide_eq_true in Hf. by rewrite Hf.
  - by rewrite Hf.
Qed.

Lemma named_cost sq d s C e r bound e' : named_in s C e -> layer sq d e r bound e' ->
  flatten_cost (bind_layer r (layer_name r sq d) bound (C e')) < flatten_cost s.
Proof.
  intros Hin Hl. rewrite (bind_layer_cost _ _ _ _ _ _ _ Hl).
  pose proof (layer_smaller _ _ _ _ _ _ Hl) as Hs.
  destruct Hin as [v e body Hf| | | | | |]; simpl; try lia.
  rewrite Hf. destruct (let_flat e'); lia.
Qed.

(** The same outcome, which is not for lack of fuel *)
Definition agree {A} (o1 o2 : outcome A) : Prop := o1 = o2 /\ o1 <> Err OutOfFuel.

Lemma agree_bind {A B} (m1 m2 : outcome A) (f1 f2 : A -> outcome B) :
  agree m1 m2 -> (forall a, m1 = Ok a -> agree (f1 a) (f2 a)) -> agree (m1 ≫= f1) (m2 ≫= f2).
Proof.
  intros [<- Hm] Hf. destruct m1 as [a|e]; [by apply Hf|]. split; [done|]. cbn. congruence.
Qed.

Lemma agree_char z : agree (char_arg z) (char_arg z).
Proof. split; [done|]. unfold char_arg. by destruct (_ && _). Qed.

Lemma agree_traverse {A B} (f1 f2 : Z -> A -> outcome B) sq l :
  (forall sq x, x ∈ l -> agree (f1 sq x) (f2 sq x)) ->
  agree (traverse_seq f1 sq l) (traverse_seq f2 sq l).
Proof.
  revert sq. induction l as [|x l IH]; intros sq Hf; [done|]. cbn [traverse_seq].
  apply agree_bind; [apply Hf; by left|]. intros x' _.
  apply agree_bind; [apply agree_char|]. intros sq' _.
  apply agree_bind; [apply IH; intros; apply Hf; by right|]. done.
Qed.

Lemma contains_fieldpointer_ref_defined v : contains_fieldpointer_ref v <> Err OutOfFuel.
Proof. induction v; simpl; try done. by destruct v. Qed.

Lemma operation_to_statement_defined b s : operation_to_statement_f b s <> Err OutOfFuel.
Proof.
  revert b. induction s as [[v e] s IH|[v e] s IH| | | | | |] using pstmt_ind'; intros b; try done;
    cbn [operation_to_statement_f pb_expr]; destruct s as [? ?|? ?| | |[]| | |]; try done;
    try (by destruct e); try (destruct b; [|done]).
  all: match goal with |- context [operation_to_statement_f ?c ?s] =>
    specialize (IH c); destruct (operation_to_statement_f c s); cbn; congruence end.
Qed.

Lemma flatten_step_agree rec1 rec2 sq d s :
  (forall sq d s', flatten_cost s' < flatten_cost s -> agree (rec1 sq d s') (rec2 sq d s')) ->
  agree (flatten_step rec1 sq d s) (flatten_step rec2 sq d s).
Proof.
  intros Hrec. unfold flatten_step. destruct (d <? depth_limit)%Z; [|done].
  assert (Hdeep : forall s', flatten_cost s' < flatten_cost s ->
    agree (d' ← char_arg (d + 1); rec1 sq d' s') (d' ← char_arg (d + 1); rec2 sq d' s')).
  { intros s' Hs. apply agree_bind; [apply agree_char|]. auto. }
  assert (Hhelp : forall C e, named_in s C e -> layers e <> 0 ->
    agree (p ← remove_layer sq d C e; d' ← char_arg (d + 1); rec1 sq d' p)
          (p ← remove_layer sq d C e; d' ← char_arg (d + 1); rec2 sq d' p)).
  { intros C e Hin He. destruct (layer_exists sq d e He) as (r & bound & e' & Hl).
    rewrite (layer_removes _ _ _ _ _ _ Hl). apply Hdeep. by apply (named_cost _ _ _ _ _ _ _ _ Hin Hl). }
  destruct s as [[v e] body|[v e] body|m h exprs vars|v e|e|c t e|c body|ss]; cbn [pb_expr pb_var].
  - destruct (let_flat e) eqn:He.
    + apply agree_bind; [apply Hdeep; simpl; lia|done].
    + apply (Hhelp _ _ (named_let v e body He)). by intros [w ->]%layers_var.
  - destruct (p_is_var_reference e) eqn:He.
    + apply agree_bind; [apply Hdeep; simpl; lia|done].
    + apply (Hhelp _ _ (named_remote v e body He)). by apply not_var_layers.
  - destruct (_ && _); [done|].
    destruct (layer_exists sq d (POperation m h exprs vars)) as (r & bound & e' & Hl); [done|].
    rewrite (layer_removes _ _ _ _ _ _ Hl). cbn [mbind outcome_bind].
    apply agree_bind; [apply agree_char|]. intros sq' _. apply agree_bind.
    + apply Hrec. rewrite (bind_layer_cost _ _ _ _ _ _ _ Hl).
      pose proof (layer_smaller _ _ _ _ _ _ Hl). cbn [flatten_cost]. lia.
    + intros ret _. split; [done|]. apply operation_to_statement_defined.
  - destruct (p_is_var_reference e) eqn:He.
    + apply agree_bind; [split; [done|apply contains_fieldpointer_ref_defined]|].
      intros [] Hc; [|done]. apply (Hhelp _ _ (named_target v e He Hc)). by intros [w ->]%layers_var.
    + apply (Hhelp _ _ (named_source v e He)). by apply not_var_layers.
  - destruct (p_is_var_reference e) eqn:He; [done|].
    apply (Hhelp _ _ (named_return e He)). by apply not_var_layers.
  - destruct (p_is_var_reference c) eqn:Hc.
    + apply agree_bind; [apply Hdeep; simpl; lia|]. intros t' _.
      apply agree_bind; [apply agree_char|]. intros sq' _.
      apply agree_bind; [apply agree_char|]. intros d' _.
      apply agree_bind; [apply Hrec; simpl; lia|done].
    + apply (Hhelp _ _ (named_if c t e Hc)). by apply not_var_layers.
  - destruct (p_is_var_reference c) eqn:Hc.
    + apply agree_bind; [apply Hdeep; simpl; lia|done].
    + apply (Hhelp _ _ (named_while c body Hc)). by apply not_var_layers.
  - apply agree_bind; [|done]. apply agree_traverse. intros sq' x Hx. apply Hrec.
    pose proof (sum_list_with_elem flatten_cost ss x Hx). simpl. lia.
Qed.

Lemma flatten_fuel_agree n m sq d s : flatten_cost s <= n -> flatten_cost s <= m ->
  agree (flatten_exprs_fuel n sq d s) (flatten_exprs_fuel m sq d s).
Proof.
  assert (Hpos : forall s, 0 < flatten_cost s) by by intros []; simpl; lia.
  revert m sq d s. induction n as [|n IH]; intros m sq d s Hn Hm; [specialize (Hpos s); lia|].
  destruct m as [|m]; [specialize (Hpos s); lia|]. apply flatten_step_agree.
  intros sq' d' s' Hs. apply IH; lia.
Qed.

Lemma flatten_exprs_agree n sq d s : flatten_cost s <= n ->
  agree (flatten_exprs_fuel n sq d s) (flatten_exprs sq d s).
Proof. intros Hn. by apply flatten_fuel_agree. Qed.

(** ** What flattens *)

(** Levels of nesting and sequence numbers a statement needs *)
Fixpoint levels (s : pstmt) : nat :=
  match s with
  | PLet b s => S ((if let_flat (pb_expr b) then 0 else 2 * layers (pb_expr b)) + levels s)
  | PLetRemote b s => S (2 * layers (pb_expr b) + levels s)
  | PSOperation n h exprs vars => 2 * layers (POperation n h exprs vars)
  | PAssignment v e => 2 * (layers v + layers e)
  | PReturn e => 2 * layers e
  | PIf c t e => S (2 * layers c + (levels t `max` levels e))
  | PWhile c s => S (2 * layers c + levels s)
  | PSequence ss => foldr (fun s m => levels s `max` m) 0 ss
  end.

Fixpoint numbers (s : pstmt) : nat :=
  match s with
  | PLet _ s | PLetRemote _ s | PWhile _ s => numbers s
  | PSOperation _ _ _ _ => 1
  | PAssignment _ _ | PReturn _ => 0
  | PIf _ t e => numbers t `max` S (numbers e)
  | PSequence ss => foldr (fun s m => numbers s `max` S m) 0 ss
  end.

(** Orders of declarations [operation_to_statement_f] accepts *)
Fixpoint order_accepted (remote_pair : bool) (l : list bool) : bool :=
  match l with
  | [] => false
  | false :: l => match l with [] => true | _ => order_accepted false l end
  | true :: l =>
      match l with
      | [] => false
      | true :: _ => remote_pair && order_accepted true l
      | false :: _ => order_accepted false l
      end
  end.

(** Assignments are to paths, and operation statements name their operands in
    an accepted order. *)
Fixpoint compilable (s : pstmt) : bool :=
  match s with
  | PLet _ s | PLetRemote _ s | PWhile _ s => compilable s
  | PSOperation n h exprs vars =>
      order_accepted true (naming_order (POperation n h exprs vars))
  | PAssignment v _ =>
      match contains_fieldpointer_ref v with Ok _ => true | Err _ => false end
  | PReturn _ => true
  | PIf _ t e => compilable t && compilable e
  | PSequence ss => forallb compilable ss
  end.

(** The declarations an operation statement is, or will be, under *)
Fixpoint chain_order (s : pstmt) : list bool :=
  match s with
  | PLet _ s => false :: chain_order s
  | PLetRemote _ s => true :: chain_order s
  | PReturn e => naming_order e
  | _ => []
  end.

Lemma var_order e : p_is_var_reference e = true -> naming_order e = [].
Proof. by destruct e. Qed.

Lemma flattens_order sq d s s' : flattens sq d s s' -> operation_source s ->
  chain_order s' = chain_order s.
Proof.
  induction 1 as [sq d s C e r bound e' s' Hin Hl Hd Hfl IH
    |sq d b body body' Hf Hd Hfl IH|sq d b body body' Hf Hd Hfl IH| | | |sq d e He| | |];
    intros Hs; inversion Hs; subst; try done; try (inversion Hin; subst; congruence).
  - inversion Hin; subst. rewrite IH by (apply (source_layer _ _ _ _ _ _ Hl); [lia|done]).
    cbn [chain_order]. rewrite (layer_order _ _ _ _ _ _ Hl). by destruct r.
  - simpl. by rewrite IH.
  - simpl. inversion Hfl; subst; [|done].
    match goal with H : named_in (PReturn (PVar _)) _ _ |- _ => inversion H; subst; done end.
  - simpl. by rewrite IH.
Qed.

Lemma operation_to_statement_accepted b s : operation_chain s -> anormal s = true ->
  order_accepted b (chain_order s) = true -> exists s', operation_to_statement_f b s = Ok s'.
Proof.
  intros Hs. revert b. induction Hs as [n e s Hn Hs IH|n e s Hn Hs IH|n m h exprs vars Hn];
    intros b Ha Hr; cbn [operation_to_statement_f pb_expr]; [| |by eauto].
  - simpl in Ha. apply andb_true_iff in Ha as [_ Ha].
    destruct (IH false Ha) as [s' Hs']; [by destruct Hs|]. rewrite Hs'.
    destruct Hs; by eauto.
  - simpl in Ha. apply andb_true_iff in Ha as [_ Ha].
    destruct Hs; simpl in Hr.
    + destruct (IH false Ha) as [s' Hs']; [done|]. rewrite Hs'. by eauto.
    + apply andb_true_iff in Hr as [-> Hr]. destruct (IH true Ha) as [s' Hs']; [done|].
      rewrite Hs'. by eauto.
    + destruct (IH false Ha) as [s' Hs']; [done|]. rewrite Hs'. by eauto.
Qed.

(** Naming a layer of an assignable path leaves an assignable path. *)
Lemma remove_layer_path sq d v Sub : contains_fieldpointer_ref v = Ok true ->
  exists r n b v' c, remove_layer sq d Sub v = Ok (bind_layer r n b (Sub v')) /\
    contains_fieldpointer_ref v' = Ok c.
Proof.
  assert (Hd : forall x f Sub, exists r n b v' c,
    remove_layer sq d (fun y => Sub (PField y f)) (PDeref x) = Ok (bind_layer r n b (Sub v')) /\
    contains_fieldpointer_ref v' = Ok c).
  { intros x f Sub'. destruct (p_is_var_reference x) eqn:Hx.
    - destruct x; try done. exists true, (remote_name sq d), (PVar v0), (PField (PVar (remote_name sq d)) f).
      by exists false.
    - destruct (layer_exists sq d x (not_var_layers x Hx)) as (r & b & x' & Hl).
      exists r, (layer_name r sq d), b, (PField (PDeref x') f), true. split; [|done].
      rewrite <- (layer_removes _ _ _ _ _ _ Hl (fun y => Sub' (PField (PDeref y) f))).
      by destruct x. }
  revert Sub. induction v as [s f IH|s f _|s IH|l s IH|l s IH|s IH|v|i|op L R IHL IHR|m h exprs vars IHh IHe]
    using pexpr_ind'; intros Sub Hc; try done; [|apply (Hd s f Sub)].
  destruct s as [s' g|s' g|s'| | | |v| | |]; try done; [| |apply (Hd s' f Sub)].
  all: destruct (IH (fun y => Sub (PField y f)) Hc) as (r & n & b & v' & c & Hr & Hv').
  all: destruct (contains_fieldpointer_ref (PField v' f)) as [c'|] eqn:Hc';
    [exists r, n, b, (PField v' f), c'; by rewrite <- Hr|exfalso; destruct v'; simpl in *; congruence].
Qed.

Lemma layer_path sq d v r bound v' : layer sq d v r bound v' ->
  contains_fieldpointer_ref v = Ok true -> exists c, contains_fieldpointer_ref v' = Ok c.
Proof.
  intros Hl Hc. destruct (remove_layer_path sq d v PReturn Hc) as (r' & n & b & w & c & Hr & Hw).
  rewrite (layer_removes _ _ _ _ _ _ Hl) in Hr. exists c. rewrite <- Hw. f_equal.
  destruct r, r'; unfold bind_layer in Hr; congruence.
Qed.

Lemma named_limits sq d s C e r bound e' : named_in s C e -> layer sq d e r bound e' ->
  2 + levels (C e') <= levels s /\ numbers (C e') = numbers s /\
  (compilable s = true -> compilable (C e') = true).
Proof.
  intros Hin Hl. pose proof (layer_smaller _ _ _ _ _ _ Hl) as Hs.
  destruct Hin as [v e body Hf| |v e He Hc| | | |]; split_and!; simpl; try done; try lia.
  - rewrite Hf. destruct (let_flat e'); lia.
  - intros _. by destruct (layer_path _ _ _ _ _ _ Hl Hc) as [c ->].
Qed.

Lemma char_arg_defined z : (-128 <= z <= 127)%Z -> char_arg z = Ok z.
Proof. intros. by apply char_arg_Ok. Qed.

Lemma traverse_seq_defined (f : Z -> pstmt -> outcome pstmt) sq ss :
  (-128 <= sq)%Z -> (sq + Z.of_nat (numbers (PSequence ss)) <= 127)%Z ->
  (forall sq s, s ∈ ss -> (-128 <= sq)%Z -> (sq + Z.of_nat (numbers s) <= 127)%Z ->
     exists s', f sq s = Ok s') ->
  exists ss', traverse_seq f sq ss = Ok ss'.
Proof.
  revert sq. induction ss as [|s ss IH]; intros sq Hsq Hn Hf; [by exists []|].
  cbn [numbers foldr] in Hn. cbn [traverse_seq].
  destruct (Hf sq s) as [s' ->]; [by left|done|lia|]. cbn [mbind outcome_bind].
  rewrite char_arg_defined by lia. cbn [mbind outcome_bind].
  destruct (IH (sq + 1)%Z) as [ss' ->]; [lia|cbn [numbers]; lia|..|by eexists].
  intros sq' x Hx. apply Hf. by right.
Qed.

Lemma levels_sequence s ss : s ∈ ss -> levels s <= levels (PSequence ss).
Proof. cbn [levels]. induction 1; simpl; lia. Qed.

Lemma flatten_operation_defined n sq d m h exprs vars :
  let op := POperation m h exprs vars in
  (forall s, flatten_cost s < flatten_cost (PSOperation m h exprs vars) ->
     (d + Z.of_nat (levels s) <= 127)%Z -> numbers s = 0 -> compilable s = true ->
     exists s', flatten_exprs_fuel n (sq + 1) d s = Ok s') ->
  (0 <= d <= 127)%Z -> (d + Z.of_nat (2 * layers op) <= 127)%Z ->
  order_accepted true (naming_order op) = true ->
  exists s', (partial ← remove_layer sq d PReturn op;
              ret ← flatten_exprs_fuel n (sq + 1) d partial;
              operation_to_statement_f true ret) = Ok s'.
Proof.
  intros op Hrec Hd Hl Ho. destruct (layer_exists sq d op) as (r & bound & e' & Hlay); [done|].
  rewrite (layer_removes _ _ _ _ _ _ Hlay). cbn [mbind outcome_bind].
  pose proof (layer_smaller _ _ _ _ _ _ Hlay) as Hs.
  assert (Hsrc := source_layer _ _ _ _ _ _ Hlay Hd eq_refl).
  set (partial := bind_layer _ _ _ _) in *.
  destruct (Hrec partial) as [ret Hret].
  - subst partial. rewrite (bind_layer_cost _ _ _ _ _ _ _ Hlay). cbn [flatten_cost]. fold op. lia.
  - assert (levels partial = S (2 * layers e')) as ->; [|lia].
    subst partial. pose proof (layer_flat _ _ _ _ _ _ Hlay) as Hf. destruct r; simpl.
    + rewrite is_var_layers in Hf. apply bool_decide_eq_true in Hf. by rewrite Hf.
    + by rewrite Hf.
  - by destruct r.
  - by destruct r.
  - rewrite Hret. cbn [mbind outcome_bind]. apply flatten_flattens in Hret; [|done].
    apply operation_to_statement_accepted.
    + by eapply flattens_operation.
    + by eapply flattens_anormal.
    + rewrite (flattens_order _ _ _ _ Hret Hsrc). subst partial.
      rewrite (layer_order _ _ _ _ _ _ Hlay) in Ho. by destruct r.
Qed.

Lemma flatten_fuel_defined n sq d s : flatten_cost s <= n ->
  (0 <= d)%Z -> (d + Z.of_nat (levels s) <= 127)%Z ->
  (-128 <= sq)%Z -> (sq + Z.of_nat (numbers s) <= 127)%Z -> compilable s = true ->
  exists s', flatten_exprs_fuel n sq d s = Ok s'.
Proof.
  revert sq d s. induction n as [|n IH]; intros sq d s Hn Hd Hl Hsq Hnum Hc;
    [by destruct s; simpl in Hn; lia|].
  assert (Hdeep : forall s', flatten_cost s' < flatten_cost s -> S (levels s') <= levels s ->
    numbers s' <= numbers s -> compilable s' = true ->
    exists s'', (d' ← char_arg (d + 1); flatten_exprs_fuel n sq d' s') = Ok s'').
  { intros s' ? ? ? ?. rewrite char_arg_defined by lia. apply IH; try done; lia. }
  assert (Hhelp : forall C e, named_in s C e -> layers e <> 0 ->
    exists s', (p ← remove_layer sq d C e; d' ← char_arg (d + 1); flatten_exprs_fuel n sq d' p) = Ok s').
  { intros C e Hin He. destruct (layer_exists sq d e He) as (r & bound & e' & Hlay).
    rewrite (layer_removes _ _ _ _ _ _ Hlay). cbn [mbind outcome_bind].
    destruct (named_limits _ _ _ _ _ _ _ _ Hin Hlay) as (H1 & H2 & H3).
    pose proof (layer_flat _ _ _ _ _ _ Hlay) as Hf.
    apply Hdeep; [by apply (named_cost _ _ _ _ _ _ _ _ Hin Hlay)|..]; destruct r; simpl;
      rewrite ?Hf; try lia; auto.
    rewrite is_var_layers in Hf. apply bool_decide_eq_true in Hf. lia. }
  cbn [flatten_exprs_fuel]. unfold flatten_step, depth_limit.
  destruct (Z.ltb_spec d 1000); [|lia].
  destruct s as [[v e] body|[v e] body|m h exprs vars|v e|e|c t e|c body|ss]; cbn [pb_expr pb_var].
  - destruct (let_flat e) eqn:He.
    + destruct (Hdeep body) as [s' ->]; simpl in *; rewrite ?He in *; try lia; [done|by eexists].
    + apply (Hhelp _ _ (named_let v e body He)). by intros [w ->]%layers_var.
  - destruct (p_is_var_reference e) eqn:He.
    + destruct (Hdeep body) as [s' ->]; simpl in *; try lia; [done|by eexists].
    + apply (Hhelp _ _ (named_remote v e body He)). by apply not_var_layers.
  - destruct (_ && _); [by eexists|].
    cbn [levels numbers compilable] in Hl, Hnum, Hc. rewrite (char_arg_defined (sq + 1)) by lia.
    apply flatten_operation_defined; [|lia|done|done].
    intros s' ? ? Hs' ?. apply IH; try done; try lia.
  - destruct (p_is_var_reference e) eqn:He.
    + simpl in Hc. destruct (contains_fieldpointer_ref v) as [[]|] eqn:Hv; [| |done].
      * apply (Hhelp _ _ (named_target v e He Hv)). by intros [w ->]%layers_var.
      * by eexists.
    + apply (Hhelp _ _ (named_source v e He)). by apply not_var_layers.
  - destruct (p_is_var_reference e) eqn:He; [by eexists|].
    apply (Hhelp _ _ (named_return e He)). by apply not_var_layers.
  - destruct (p_is_var_reference c) eqn:Hcv.
    + simpl in Hc. apply andb_true_iff in Hc as [Hct Hce]. simpl in Hl, Hnum, Hn.
      destruct (Hdeep t) as [t' ->]; simpl; try lia; [done|]. cbn [mbind outcome_bind].
      rewrite !char_arg_defined by lia. cbn [mbind outcome_bind].
      destruct (IH (sq + 1) (d + 1) e)%Z as [e' ->]; try lia; [done|by eexists].
    + apply (Hhelp _ _ (named_if c t e Hcv)). by apply not_var_layers.
  - destruct (p_is_var_reference c) eqn:Hcv.
    + destruct (Hdeep body) as [s' ->]; simpl in *; try lia; [done|by eexists].
    + apply (Hhelp _ _ (named_while c body Hcv)). by apply not_var_layers.
  - destruct (traverse_seq_defined (fun sq s => flatten_exprs_fuel n sq d s) sq ss) as [ss' ->];
      [done..| |by eexists].
    intros sq' s Hs ? ?. apply IH; try lia.
    + pose proof (sum_list_with_elem flatten_cost ss s Hs). simpl in Hn. lia.
    + pose proof (levels_sequence s ss Hs). lia.
    + simpl in Hc. by apply (proj1 (forallb_forall _ _) Hc), list_elem_of_In.
Qed.
