(* ===== verification/DesugarWhile.v ===== *)
(** * Loops get a flag variable

    Correctness of [desugar_while]: every loop of the result is the image of
    one loop of the source, under a flag of its own. *)
From S2P Require Import Prelude Labels ParseAst Flatten FlattenLayer FlattenRules.

(** ** Undoing the translation *)

Definition is_flag_loop (b : pbinding) (cond : pexpr) (els : pstmt) : bool :=
  bool_decide (pb_expr b = PVar "true" /\ cond = PVar (pb_var b)) &&
  match els with
  | PAssignment v e => bool_decide (v = PVar (pb_var b) /\ e = PVar "false")
  | _ => false
  end.

(** [let f = true in while (f) if (c) t else f = false] stands for
    [while (c) t]. *)
Fixpoint resugar (s : pstmt) : pstmt :=
  match s with
  | PLet b body =>
      match body with
      | PWhile cond (PIf c t els) =>
          if is_flag_loop b cond els then PWhile c (resugar t) else PLet b (resugar body)
      | _ => PLet b (resugar body)
      end
  | PLetRemote b body => PLetRemote b (resugar body)
  | PIf c t e => PIf c (resugar t) (resugar e)
  | PWhile c body => PWhile c (resugar body)
  | PSequence ss => PSequence (resugar <$> ss)
  | PSOperation _ _ _ _ | PAssignment _ _ | PReturn _ => s
  end.

(** Every loop tests its own flag, and the flags of loops inside each other
    come from increasing levels. *)
Fixpoint loops_flagged (lo : Z) (s : pstmt) : Prop :=
  match s with
  | PLet b body =>
      match body with
      | PWhile cond (PIf c t els) =>
          is_flag_loop b cond els = true /\
          exists sq d, pb_var b = condition_name sq d /\ (lo <= d <= 127)%Z /\
            loops_flagged (d + 1) t
      | _ => loops_flagged lo body
      end
  | PLetRemote _ body => loops_flagged lo body
  | PIf _ t e => loops_flagged lo t /\ loops_flagged lo e
  | PWhile _ _ => False
  | PSequence ss => fold_right and True (loops_flagged lo <$> ss)
  | PSOperation _ _ _ _ | PAssignment _ _ | PReturn _ => True
  end.

Lemma flags_sequence lo ss : fold_right and True (loops_flagged lo <$> ss) <->
  forall s, s ∈ ss -> loops_flagged lo s.
Proof.
  induction ss as [|s ss IH]; simpl.
  - split; [|done]. intros _ s Hs. by apply elem_of_nil in Hs.
  - rewrite IH. setoid_rewrite elem_of_cons. naive_solver.
Qed.

Lemma condition_name_inj sq d sq' d' : (0 <= d <= 127)%Z -> (0 <= d' <= 127)%Z ->
  condition_name sq d = condition_name sq' d' -> d = d'.
Proof.
  intros Hd Hd' He. injection He as _ He. unfold char_of in He.
  rewrite !Z.mod_small in He by lia. apply (f_equal nat_of_ascii) in He.
  rewrite !nat_ascii_embedding in He by lia. lia.
Qed.

Lemma condition_name_user sq d : generated_at (condition_name sq d) = None.
Proof. unfold condition_name, name_suffix. by generalize (char_of sq) (char_of d). Qed.

(** ** The translation *)

Lemma desugar_not_while sq d s c body : desugar_while sq d s <> Ok (PWhile c body).
Proof. intros Hs. destruct s; cbn in Hs; outcome_inv; done. Qed.

Lemma resugar_let b body : (forall c t, body <> PWhile c t) ->
  resugar (PLet b body) = PLet b (resugar body).
Proof. intros Hb. destruct body; try done. by destruct (Hb c body). Qed.

Lemma is_flag_loop_refl f : is_flag_loop (PBinding f (PVar "true")) (PVar f)
  (PAssignment (PVar f) (PVar "false")) = true.
Proof. unfold is_flag_loop. simpl. by rewrite !bool_decide_eq_true_2. Qed.

Lemma flagged_let lo b body : loops_flagged lo body -> loops_flagged lo (PLet b body).
Proof. by destruct body. Qed.

Lemma flagged_mono lo lo' s : (lo' <= lo)%Z -> loops_flagged lo s -> loops_flagged lo' s.
Proof.
  revert lo lo'. induction s as [b s IH|b s IH| | | |c t e IHt IHe|c s IH|ss IH] using pstmt_ind';
    intros lo lo' Hlo; try done.
  - destruct s as [| | | | | |c body|]; try exact (IH _ _ Hlo).
    destruct body; try exact (IH _ _ Hlo). cbn [loops_flagged].
    intros (? & sq & d & ? & ? & ?). split; [done|]. exists sq, d. split_and!; [done|lia..|done].
  - by apply IH.
  - intros [? ?]; split; eauto.
  - cbn [loops_flagged]. rewrite !flags_sequence. rewrite Forall_forall in IH.
    intros Hs s Hin. eapply IH; eauto.
Qed.

(** The names the translation adds at the levels from [lo] on *)
Definition flag_name (lo : Z) (n : string) : Prop :=
  n = "true"%string \/ n = "false"%string \/
  exists sq d, (lo <= d <= 127)%Z /\ n = condition_name sq d.

Lemma flag_name_mono lo lo' n : (lo' <= lo)%Z -> flag_name lo n -> flag_name lo' n.
Proof.
  intros Hlo [->|[->|(sq & d & ? & ->)]]; [by left|by right; left|right; right].
  exists sq, d. split; [lia|done].
Qed.

Record desugared (d : Z) (s s' : pstmt) : Prop := {
  desugared_back : resugar s' = s;
  desugared_flags : (0 <= d <= 127)%Z -> loops_flagged d s';
  desugared_names n : n ∈ pnames s' -> n ∈ pnames s \/ flag_name d n }.

Lemma desugar_while_spec sq d s s' : desugar_while sq d s = Ok s' -> desugared d s s'.
Proof.
  revert sq d s'. induction s as [b s IH|b s IH|m h exprs vars|v e|e|c t e IHt IHe|c s IH|ss IH]
    using pstmt_ind'; intros sq d s' Hs; cbn [desugar_while] in Hs.
  - apply bind_Ok in Hs as (? & [-> ?]%char_arg_Ok & Hs). apply bind_Ok in Hs as (body & Hb & [= <-]).
    destruct (IH _ _ _ Hb) as [H1 H2 H3].
    assert (Hw : forall c t, body <> PWhile c t) by by intros c t ->; apply desugar_not_while in Hb.
    split.
    + rewrite resugar_let by done. congruence.
    + intros Hd. apply flagged_let. eapply flagged_mono; [|apply H2]; lia.
    + intros n. simpl. rewrite !elem_of_cons, !elem_of_app. intros [?|[?|[?|?%(flag_name_mono _ d)]%H3]]; tauto || lia.
  - apply bind_Ok in Hs as (? & [-> ?]%char_arg_Ok & Hs). apply bind_Ok in Hs as (body & Hb & [= <-]).
    destruct (IH _ _ _ Hb) as [H1 H2 H3]. split.
    + simpl. congruence.
    + intros Hd. simpl. eapply flagged_mono; [|apply H2]; lia.
    + intros n. simpl. rewrite !elem_of_cons, !elem_of_app. intros [?|[?|[?|?%(flag_name_mono _ d)]%H3]]; tauto || lia.
  - injection Hs as <-. by split; [| |left].
  - injection Hs as <-. by split; [| |left].
  - injection Hs as <-. by split; [| |left].
  - apply bind_Ok in Hs as (? & [-> ?]%char_arg_Ok & Hs). apply bind_Ok in Hs as (t' & Ht & Hs).
    apply bind_Ok in Hs as (? & [-> ?]%char_arg_Ok & Hs). apply bind_Ok in Hs as (e' & He & [= <-]).
    destruct (IHt _ _ _ Ht) as [T1 T2 T3], (IHe _ _ _ He) as [E1 E2 E3]. split.
    + simpl. congruence.
    + intros Hd. simpl. split; (eapply flagged_mono; [|apply T2 || apply E2]; lia).
    + intros n. simpl. rewrite !elem_of_app. intros [?|[[?|?%(flag_name_mono _ d)]%T3|[?|?%(flag_name_mono _ d)]%E3]]; tauto || lia.
  - apply bind_Ok in Hs as (? & [-> ?]%char_arg_Ok & Hs). apply bind_Ok in Hs as (t' & Ht & [= <-]).
    destruct (IH _ _ _ Ht) as [H1 H2 H3]. split.
    + cbn [resugar]. rewrite is_flag_loop_refl. congruence.
    + intros Hd. cbn [loops_flagged]. rewrite is_flag_loop_refl. split; [done|].
      exists sq, d. split_and!; [done|lia..|]. apply H2. lia.
    + intros n. cbn [pnames pvars pb_var pb_expr].
      assert (Hflag : flag_name d (condition_name sq d)) by (right; right; exists sq, d; split; [lia|done]).
      assert (flag_name d "true") by by left. assert (flag_name d "false") by by right; left.
      rewrite !elem_of_cons, !elem_of_app, !list_elem_of_singleton.
      intros [->|[->|[->|[?|[[?|?%(flag_name_mono _ d)]%H3|[->| ->]]]]]]; tauto || lia.
  - apply bind_Ok in Hs as (ss' & [Hlen Hi]%traverse_seq_Ok & [= <-]). rewrite Forall_forall in IH.
    assert (Hss : forall (i : nat) s', ss' !! i = Some s' -> exists s, ss !! i = Some s /\ desugared d s s').
    { intros i s' Hs'. destruct (lookup_lt_is_Some_2 ss i) as [s Hs];
        [rewrite <- Hlen; by eapply lookup_lt_Some|].
      exists s. split; [done|]. apply (IH s) with (sq := (sq + Z.of_nat i)%Z);
        [by eapply list_elem_of_lookup_2|by apply Hi]. }
    split.
    + simpl. f_equal. apply list_eq_same_length with (n := length ss); rewrite ?length_fmap; try done.
      intros i x y _ (x' & -> & Hx')%list_lookup_fmap_Some Hy.
      destruct (Hss i x' Hx') as (s & Hs & [H1 _ _]). congruence.
    + intros Hd. simpl. apply flags_sequence. intros s' [i Hs']%list_elem_of_lookup.
      destruct (Hss i s' Hs') as (s & Hs & [_ H2 _]). auto.
    + intros n. simpl. intros (s' & [i Hs']%list_elem_of_lookup & Hn)%elem_of_concat_fmap_inv. destruct (Hss i s' Hs') as (s & Hs & [_ _ H3]).
      destruct (H3 n Hn) as [Hn'|]; [left|by right]. eauto with mixt.
Qed.
