(* ===== verification/FlattenCorrect.v ===== *)
(** * Correctness of [flatten_expressions]

    The properties of the two passes and of their composition. *)
From S2P Require Import Prelude Labels ParseAst Flatten FlattenLayer FlattenRules.
From S2P Require Import FlattenBounds DesugarWhile.

(** No name of the program is one [remove_layer] makes. *)
Definition user_names (s : pstmt) : Prop := forall n, n ∈ pnames s -> generated_at n = None.

Lemma user_names_below d s : user_names s -> names_below d s.
Proof. intros Hs n k Hn Hk. rewrite (Hs n Hn) in Hk. done. Qed.

Lemma binders_names s n : n ∈ binders s -> n ∈ pnames s.
Proof.
  induction s as [b s IH|b s IH| | | |c t e IHt IHe|c s IH|ss IH] using pstmt_ind'; simpl;
    rewrite ?elem_of_cons, ?elem_of_app, ?elem_of_nil; try tauto.
  intros (s & Hs & Hn)%elem_of_concat_fmap_inv. rewrite Forall_forall in IH. eauto with mixt.
Qed.

Lemma user_names_binders s : user_names s -> user_binders s.
Proof. intros Hs n Hn. by apply Hs, binders_names. Qed.

Lemma flag_name_user lo n : flag_name lo n -> generated_at n = None.
Proof. intros [->|[->|(sq & d & _ & ->)]]; [done|done|apply condition_name_user]. Qed.

Lemma desugared_user d s s' : desugared d s s' -> user_names s -> user_names s'.
Proof.
  intros Hd Hs n Hn. apply (desugared_names _ _ _ Hd) in Hn as [Hn|Hn]; [by apply Hs|].
  by eapply flag_name_user.
Qed.

Lemma flatten_exprs_flattens sq d s s' : (0 <= d <= 127)%Z -> flatten_exprs sq d s = Ok s' ->
  flattens sq d s s'.
Proof. intros Hd. by apply flatten_flattens. Qed.

(** a program that [flatten_expressions] accepts comes back in A-normal form,
    and it is the source: putting the generated declarations back into the
    places they were taken from, and the loops back for their flags, gives the
    program that went in (with [p->f] written as a dereference and a field). *)
Theorem flatten_expressions_correct a s : user_names a -> flatten_expressions a = Ok s ->
  anormal s = true /\
  exists looped, desugar_while 1 1 a = Ok looped /\ resugar looped = a /\
    inline ∅ s = inline ∅ looped.
Proof.
  intros Ha Hs. apply bind_Ok in Hs as (looped & Hl & Hs). pose proof (desugar_while_spec _ _ _ _ Hl) as Hd.
  apply flatten_exprs_flattens in Hs; [|lia]. split; [by eapply flattens_anormal|].
  exists looped. split_and!; [done|by eapply desugared_back|]. apply (flattens_inline _ _ _ _ Hs).
  left. apply user_names_below. by eapply desugared_user.
Qed.

(** The generated declarations of a flattened program never hide one
    another: under a declaration made at level [k] every other one was made at
    a level above [k], and the level is part of the name. *)
Theorem flatten_expressions_names a s : user_names a -> flatten_expressions a = Ok s ->
  binders_increase 1 s.
Proof.
  intros Ha Hs. apply bind_Ok in Hs as (looped & Hl & Hs). pose proof (desugar_while_spec _ _ _ _ Hl) as Hd.
  apply flatten_exprs_flattens in Hs; [|lia]. apply (flattens_binders _ _ _ _ Hs). left.
  split; [|done]. by eapply user_names_binders, desugared_user.
Qed.

(** [flatten_exprs] terminates: it satisfies the recursion of the source's
    overloads, in which no fuel appears, and never runs out of it. *)
Theorem flatten_exprs_terminates sq d s :
  flatten_exprs sq d s = flatten_step flatten_exprs sq d s /\
  flatten_exprs sq d s <> Err OutOfFuel.
Proof.
  split; [|by apply flatten_exprs_agree].
  transitivity (flatten_exprs_fuel (S (flatten_cost s)) sq d s).
  - symmetry. apply flatten_exprs_agree. lia.
  - cbn [flatten_exprs_fuel]. apply flatten_step_agree. intros sq' d' s' Hs.
    apply flatten_exprs_agree. lia.
Qed.

(** A program flattens when its nesting and its sequence numbers fit a
    [char], its assignments are to paths, and its operation statements name
    their operands in an order [operation_to_statement_f] has overloads for. *)
Theorem flatten_exprs_defined sq d s :
  (0 <= d)%Z -> (d + Z.of_nat (levels s) <= 127)%Z ->
  (-128 <= sq)%Z -> (sq + Z.of_nat (numbers s) <= 127)%Z ->
  compilable s = true -> exists s', flatten_exprs sq d s = Ok s' /\ anormal s' = true.
Proof.
  intros Hd Hl Hsq Hn Hc. destruct (flatten_fuel_defined (flatten_cost s) sq d s) as [s' Hs]; try done.
  exists s'. split; [done|]. eapply flattens_anormal, flatten_exprs_flattens; [|done]. lia.
Qed.

(** A program in A-normal form passes through [flatten_exprs] unchanged. *)
Theorem flatten_exprs_anormal_fixed sq d s s' : (0 <= d <= 127)%Z -> anormal s = true ->
  flatten_exprs sq d s = Ok s' -> s' = s.
Proof. intros Hd Ha Hs. eapply anormal_unchanged; [by apply flatten_exprs_flattens|done]. Qed.

(** [desugar_while] translates every loop, and only the loops: undoing the
    translation gives the source back, every loop of the result tests a flag
    declared around it, and the flags of nested loops have different names. *)
Theorem desugar_while_correct sq d s s' : (0 <= d <= 127)%Z -> desugar_while sq d s = Ok s' ->
  resugar s' = s /\ loops_flagged d s'.
Proof. intros Hd Hs. destruct (desugar_while_spec _ _ _ _ Hs). auto. Qed.

(** ** Witnesses *)

Definition check_user_names (s : pstmt) : bool :=
  forallb (fun n => bool_decide (generated_at n = None)) (pnames s).

Lemma check_user_names_sound s : check_user_names s = true -> user_names s.
Proof.
  unfold check_user_names. rewrite forallb_forall. intros Hs n Hn%list_elem_of_In.
  specialize (Hs n Hn). by apply bool_decide_eq_true in Hs.
Qed.

Definition sample_flat : pstmt :=
  Eval vm_compute in match flatten_expressions sample_source with Ok s => s | Err _ => sample_source end.

Lemma flatten_expressions_correct_witness :
  anormal sample_flat = true /\
  exists looped, desugar_while 1 1 sample_source = Ok looped /\ resugar looped = sample_source /\
    inline ∅ sample_flat = inline ∅ looped.
Proof.
  apply (flatten_expressions_correct sample_source sample_flat).
  - apply check_user_names_sound. vm_compute. reflexivity.
  - vm_compute. reflexivity.
Defined.

Lemma flatten_expressions_names_witness : binders_increase 1 sample_flat.
Proof.
  apply (flatten_expressions_names sample_source sample_flat).
  - apply check_user_names_sound. vm_compute. reflexivity.
  - vm_compute. reflexivity.
Defined.

(** [p->m(a + 1, *q)] *)
Definition sample_operation : pstmt :=
  PSOperation "m" (PFieldPtr (PVar "p") "f")
    [PBinOp "+" (PVar "a") (PConst 1); PDeref (PVar "q")] [].

Lemma flatten_exprs_defined_witness :
  exists s', flatten_exprs 1 1 sample_operation = Ok s' /\ anormal s' = true.
Proof. apply (flatten_exprs_defined 1 1 sample_operation); by vm_compute. Defined.

Lemma flatten_exprs_anormal_fixed_witness :
  flatten_exprs 1 1 sample_flat = Ok sample_flat /\
  forall s', flatten_exprs 1 1 sample_flat = Ok s' -> s' = sample_flat.
Proof.
  split; [vm_compute; reflexivity|]. intros s' Hs.
  apply (flatten_exprs_anormal_fixed 1 1 sample_flat); [lia|vm_compute; reflexivity|exact Hs].
Defined.

Lemma desugar_while_correct_witness :
  exists s', desugar_while 1 1 sample_source = Ok s' /\
    resugar s' = sample_source /\ loops_flagged 1 s'.
Proof.
  eexists. split; [vm_compute; reflexivity|].
  apply (desugar_while_correct 1 1 sample_source); [lia|vm_compute; reflexivity].
Defined.

(** An operation on a field whose arguments are two dereferences:
    [let] over two [let_remote]s, which has no visible overload. *)
Example remote_pair_rejected :
  flatten_exprs 1 1 (PSOperation "m" (PField (PVar "o") "h")
    [PDeref (PVar "p"); PDeref (PVar "q")] []) = Err NoOverload /\
  exists s, flatten_exprs 1 1 (PSOperation "m" (PVar "h")
    [PDeref (PVar "p"); PDeref (PVar "q")] []) = Ok s.
Proof. split; [vm_compute; reflexivity|]. eexists. vm_compute. reflexivity. Qed.

(** A sum of seventy ones: levels run out at 127, long before [depth_limit]. *)
Example deep_expression_rejected :
  flatten_expressions (PReturn (foldr (fun _ e => PBinOp "+" e (PConst 1)) (PConst 1) (seq 0 70)))
  = Err NarrowingError.
Proof. vm_compute. reflexivity. Qed.
