(* ===== verification/Runtime.v ===== *)
(** * Running code: exceptions and state

    The run-time library of MixT is ordinary C++: methods that mutate objects
    and may throw.  [RT S A] is a computation over a state [S]; what was
    written before a [throw] stays written. *)
From S2P Require Import Prelude.
From Stdlib Require Strings.Byte.

#[local] Open Scope Z_scope.

(** What a computation can end with instead of a value *)
Inductive exn : Type :=
| AssertFailed            (** [assert(...)] *)
| SignedOverflow          (** undefined behaviour of signed arithmetic *)
| BadCast                 (** [dynamic_cast] of a reference *)
| SerializationFailure    (** the store aborted *)
| TombNameCollision       (** derives from [SerializationFailure] *)
| OutOfRange              (** an access that is not defined *)
| SqlException            (** an exception of libpqxx that is passed on *)
| UnmatchedUse            (** [UnmatchedUseException] *)
| NoInheritManager        (** [struct dead] of [Handle::from_bytes] *).

#[global] Instance exn_eq_dec : EqDecision exn.
Proof. solve_decision. Defined.

#[global] Instance byte_eq_decision : EqDecision Byte.byte := Byte.byte_eq_dec.

Definition RT (S A : Type) : Type := S -> (A + exn) * S.

#[global] Instance RT_ret S : MRet (RT S) := fun A a s => (inl a, s).
#[global] Instance RT_bind S : MBind (RT S) := fun A B f m s =>
  match m s with
  | (inl a, s') => f a s'
  | (inr e, s') => (inr e, s')
  end.
#[global] Instance RT_fmap S : FMap (RT S) := fun A B f m s =>
  match m s with
  | (inl a, s') => (inl (f a), s')
  | (inr e, s') => (inr e, s')
  end.

Definition throw {S A} (e : exn) : RT S A := fun s => (inr e, s).
Definition get_state {S} : RT S S := fun s => (inl s, s).
Definition modify {S} (f : S -> S) : RT S unit := fun s => (inl tt, f s).

(** [assert(b)] *)
Definition assert_rt {S} (b : bool) : RT S unit :=
  if b then mret tt else throw AssertFailed.

(** [try { m } catch (...) { h }], where [h] says which exceptions it takes *)
Definition try_catch {S A} (m : RT S A) (h : exn -> option (RT S A)) : RT S A := fun s =>
  match m s with
  | (inl a, s') => (inl a, s')
  | (inr e, s') => match h e with Some k => k s' | None => (inr e, s') end
  end.

(** ** [long int] *)

Definition long_min : Z := - 2 ^ 63.
Definition long_max : Z := 2 ^ 63 - 1.
Definition int_max : Z := 2 ^ 31 - 1.
Definition int_min : Z := - 2 ^ 31.

Definition in_long (z : Z) : bool := (long_min <=? z) && (z <=? long_max).
Definition in_int (z : Z) : bool := (int_min <=? z) && (z <=? int_max).

Definition long_mul {S} (a b : Z) : RT S Z :=
  if in_long (a * b) then mret (a * b) else throw SignedOverflow.

(** ** What a computation does not touch *)

(** [frames f m]: [m] leaves [f] of the state as it is, however it ends. *)
Definition frames {S B A} (f : S -> B) (m : RT S A) : Prop :=
  forall s, f (m s).2 = f s.

Section frames.
Context {S B : Type} (f : S -> B).

Lemma frames_ret {A} (a : A) : frames f (mret a : RT S A).
Proof. done. Qed.

Lemma frames_bind {A A'} (m : RT S A) (k : A -> RT S A') :
  frames f m -> (forall a, frames f (k a)) -> frames f (m ≫= k).
Proof.
  intros Hm Hk s. unfold mbind, RT_bind. specialize (Hm s).
  destruct (m s) as [[a|e] s']; simpl in *; [by rewrite Hk|done].
Qed.

Lemma frames_throw {A} e : frames f (throw e : RT S A).
Proof. done. Qed.

Lemma frames_assert b : frames f (assert_rt b).
Proof. by destruct b. Qed.

Lemma frames_get : frames f get_state.
Proof. done. Qed.

Lemma frames_modify g : (forall s, f (g s) = f s) -> frames f (modify g).
Proof. intros Hg s. apply Hg. Qed.

Lemma frames_long_mul a b : frames f (long_mul a b).
Proof. unfold long_mul. by destruct (in_long _). Qed.

Lemma frames_try {A} (m : RT S A) h : frames f m ->
  (forall e k, h e = Some k -> frames f k) -> frames f (try_catch m h).
Proof.
  intros Hm Hh s. unfold try_catch. specialize (Hm s).
  destruct (m s) as [[a|e] s']; simpl in *; [done|].
  destruct (h e) as [k|] eqn:Hk; [by rewrite (Hh e k Hk)|done].
Qed.
End frames.

Create HintDb frames.
#[export] Hint Resolve frames_ret frames_bind frames_throw frames_assert
  frames_get frames_modify frames_long_mul frames_try : frames.

(** ** Inverting runs that end with a value *)

Lemma bind_value {S A B} (m : RT S A) (k : A -> RT S B) s b s' :
  (m ≫= k) s = (inl b, s') -> exists a s1, m s = (inl a, s1) /\ k a s1 = (inl b, s').
Proof.
  unfold mbind, RT_bind. destruct (m s) as [[a|e] s1]; [|done]. eauto.
Qed.

Lemma assert_value {S} b (s : S) x s' :
  assert_rt b s = (inl x, s') -> b = true /\ s' = s.
Proof. destruct b; [intros [=]|intros [=]]; done. Qed.

Lemma ret_value {S A} (a : A) (s : S) b s' :
  (mret a : RT S A) s = (inl b, s') -> b = a /\ s' = s.
Proof. intros [=]. done. Qed.

Lemma modify_value {S} g (s : S) x s' : modify g s = (inl x, s') -> s' = g s.
Proof. intros [=]. done. Qed.

Lemma get_value {S} (s : S) a s' : get_state s = (inl a, s') -> a = s /\ s' = s.
Proof. intros [=]. done. Qed.

Ltac run_inv := repeat match goal with
  | H : (_ ≫= _) _ = (inl _, _) |- _ =>
      let a := fresh "a" in let s := fresh "s" in
      apply bind_value in H as (a & s & ? & H)
  | H : assert_rt _ _ = (inl _, _) |- _ => apply assert_value in H as [? ->]
  | H : modify _ _ = (inl _, _) |- _ => apply modify_value in H as ->
  | H : get_state _ = (inl _, _) |- _ => apply get_value in H as [-> ->]
  | H : mret _ _ = (inl _, _) |- _ => apply ret_value in H as [? ->]
  | H : throw _ _ = (inl _, _) |- _ => discriminate H
  end.
