(* ===== verification/Clocks.v ===== *)
(** * Vector clocks

    Models [tracker/Ends.hpp], [tracker/Ends.cpp] and [tracker/ClockManager.cpp]:
    the clocks of the causal stores, and the process-wide copy of the current
    clock that another thread receives. *)
From S2P Require Import Prelude Runtime.
From stdpp Require Import vector fin finite.

#[local] Open Scope Z_scope.

(** ** [std::array<long long, s>] *)

(** [tracker::Clock]; [NUM_CAUSAL_GROUPS] is 4 *)
Definition Clock : Type := vec Z 4.

(** [ends::max] of two *)
Definition ends_max (a b : Clock) : Clock :=
  [# Z.max (a !!! 0%fin) (b !!! 0%fin); Z.max (a !!! 1%fin) (b !!! 1%fin);
     Z.max (a !!! 2%fin) (b !!! 2%fin); Z.max (a !!! 3%fin) (b !!! 3%fin)].

(** [ends::max(a, b, c, arrays...)] *)
Fixpoint ends_max_pack (a b : Clock) (arrays : list Clock) : Clock :=
  match arrays with
  | [] => ends_max a b
  | c :: arrays' => ends_max a (ends_max_pack b c arrays')
  end.

Definition no_clock : Clock := [# -1; -1; -1; -1].

(** [ends::max(begin, end)] *)
Definition ends_max_range (l : list Clock) : Clock := foldl ends_max no_clock l.

(** The loops of [ends::is_same] and [ends::prec] run through both arrays. *)
Fixpoint is_same_loop (a b : list Z) : bool :=
  match a, b with
  | x :: a', y :: b' => if x =? y then is_same_loop a' b' else false
  | _, _ => true
  end.

Definition is_same {s} (a b : vec Z s) : bool := is_same_loop a b.

Fixpoint prec_loop (a b : list Z) : bool + exn :=
  match a, b with
  | x :: a', y :: b' =>
      if (x =? -1) || (y =? -1) then inr AssertFailed
      else if x >? y then inl false else prec_loop a' b'
  | _, _ => inl true
  end.

Definition prec {s} (a b : vec Z s) : bool + exn := prec_loop a b.

(** [operator<] of namespace [ends] *)
Definition ends_lt {s} (a b : vec Z s) : bool + exn := prec a b.

(** [std::operator<] on arrays: lexicographic *)
Fixpoint lex_lt (a b : list Z) : bool :=
  match a, b with
  | x :: a', y :: b' => if x <? y then true else if y <? x then false else lex_lt a' b'
  | [], _ :: _ => true
  | _, [] => false
  end.

Definition array_lt {s} (a b : vec Z s) : bool := lex_lt a b.

(** [std::operator==] on arrays *)
Definition array_eq {s} (a b : vec Z s) : bool := bool_decide (a = b).

(** ** [ClockManager] *)

(** [feed t] is what the [volatile] array holds at the [t]-th access of the
    thread that reads it. *)
Section update_clock.
Context (feed : nat -> Clock).

(** The loop of [updateClock]: a component that is -1 is polled; it is read
    once for the test and once more for its value. *)
Fixpoint update_clock_loop (fuel : nat) (t : nat) (ix : list (fin 4)) (newc : Clock)
    : option (Clock * nat) :=
  match ix with
  | [] => Some (newc, t)
  | i :: ix' =>
      match fuel with
      | O => None
      | S fuel =>
          if feed t !!! i =? -1 then update_clock_loop fuel (S t) ix newc
          else update_clock_loop fuel (2 + t)%nat ix' (vinsert i (feed (S t) !!! i) newc)
      end
  end.

(** [newc] is not initialised. *)
Definition read_clock (fuel : nat) (t : nat) (newc : Clock) : option (Clock * nat) :=
  update_clock_loop fuel t (enum (fin 4)) newc.
End update_clock.

(** ** The order of clocks *)

Definition clock_le (a b : Clock) : Prop := forall i, a !!! i <= b !!! i.

(** No component is -1. *)
Definition received (a : Clock) : Prop := forall i, a !!! i <> -1.

#[global] Instance clock_le_preorder : PreOrder clock_le.
Proof.
  split; [by intros a i|].
  intros a b c Hab Hbc i. specialize (Hab i). specialize (Hbc i). lia.
Qed.

#[global] Instance clock_le_antisym : AntiSymm (=) clock_le.
Proof.
  intros a b Hab Hba. apply vec_eq. intros i. apply Z.le_antisymm; [apply Hab|apply Hba].
Qed.

#[global] Instance clock_le_dec a b : Decision (clock_le a b).
Proof. unfold clock_le. apply _. Defined.

#[global] Instance received_dec a : Decision (received a).
Proof. unfold received. apply _. Defined.

Lemma fin_4_ind (P : fin 4 -> Prop) :
  P 0%fin -> P 1%fin -> P 2%fin -> P 3%fin -> forall i, P i.
Proof. intros ? ? ? ? i. do 4 (inv_fin i; [done|intros i]). inv_fin i. Qed.

Lemma ends_max_lookup a b i : ends_max a b !!! i = Z.max (a !!! i) (b !!! i).
Proof. by induction i using fin_4_ind. Qed.

Lemma ends_max_lub a b c : clock_le (ends_max a b) c <-> clock_le a c /\ clock_le b c.
Proof.
  unfold clock_le. setoid_rewrite ends_max_lookup. split.
  - intros Hc. split; intros i; specialize (Hc i); lia.
  - intros [Ha Hb] i. specialize (Ha i). specialize (Hb i). lia.
Qed.

Lemma ends_max_l a b : clock_le a (ends_max a b).
Proof. intros i. rewrite ends_max_lookup. lia. Qed.

Lemma ends_max_r a b : clock_le b (ends_max a b).
Proof. intros i. rewrite ends_max_lookup. lia. Qed.

Lemma foldl_max_lub l a c :
  clock_le (foldl ends_max a l) c <-> clock_le a c /\ forall x, x ∈ l -> clock_le x c.
Proof.
  revert a. induction l as [|x l IH]; intros a; simpl.
  - split; [|by intros [? _]]. intros Ha. split; [done|]. intros x Hx. by apply elem_of_nil in Hx.
  - rewrite IH, ends_max_lub. setoid_rewrite elem_of_cons. naive_solver.
Qed.

Lemma ends_max_pack_lub arrays a b c :
  clock_le (ends_max_pack a b arrays) c <-> forall x, x ∈ a :: b :: arrays -> clock_le x c.
Proof.
  rewrite <- (Forall_forall (fun x => clock_le x c)).
  revert a b. induction arrays as [|d arrays IH]; intros a b; cbn [ends_max_pack];
    rewrite ends_max_lub; [|rewrite IH]; rewrite !Forall_cons; [|tauto].
  split; [intros [? ?]; auto|tauto].
Qed.

Lemma clock_le_list a b :
  clock_le a b <-> Forall2 Z.le (vec_to_list a) (vec_to_list b).
Proof.
  unfold clock_le. rewrite Forall2_vlookup. done.
Qed.

(** Splitting the loops of [prec] and [<] at the first component that decides *)
Lemma prec_loop_true a b : length a = length b ->
  prec_loop a b = inl true <->
  Forall2 Z.le a b /\ Forall (fun z => z <> -1) a /\ Forall (fun z => z <> -1) b.
Proof.
  revert b. induction a as [|x a IH]; intros [|y b] Hl; simpl in *; simplify_eq.
  - split; [repeat constructor|done].
  - rewrite Forall2_cons, !Forall_cons.
    destruct (Z.eqb_spec x (-1)); simpl; [naive_solver|].
    destruct (Z.eqb_spec y (-1)); simpl; [naive_solver|].
    rewrite Z.gtb_ltb. destruct (Z.ltb_spec y x).
    + split; [done|]. intros [[??] _]. lia.
    + rewrite IH by done. naive_solver lia.
Qed.

Lemma prec_loop_received a b : length a = length b ->
  Forall (fun z => z <> -1) a -> Forall (fun z => z <> -1) b ->
  prec_loop a b = inl (bool_decide (Forall2 Z.le a b)).
Proof.
  revert b. induction a as [|x a IH]; intros [|y b] Hl Ha Hb; simpl in *; simplify_eq.
  - done.
  - apply Forall_cons in Ha as [Hx Ha], Hb as [Hy Hb].
    rewrite (proj2 (Z.eqb_neq x (-1))), (proj2 (Z.eqb_neq y (-1))) by done. simpl.
    rewrite Z.gtb_ltb. destruct (Z.ltb_spec y x).
    + rewrite bool_decide_false; [done|]. intros ?%Forall2_cons. lia.
    + rewrite IH by done. f_equal. apply bool_decide_ext. rewrite Forall2_cons. tauto.
Qed.

Lemma lex_lt_le a b : Forall2 Z.le a b -> lex_lt a b = true \/ a = b.
Proof.
  induction 1 as [|x y a b Hxy _ IH]; [by right|]. simpl.
  destruct (Z.ltb_spec x y); [by left|]. assert (x = y) as -> by lia.
  rewrite Z.ltb_irrefl. destruct IH as [->| ->]; auto.
Qed.

Lemma is_same_loop_eq a b : length a = length b -> is_same_loop a b = bool_decide (a = b).
Proof.
  revert b. induction a as [|x a IH]; intros [|y b] Hl; simpl in *; simplify_eq; [done|].
  destruct (Z.eqb_spec x y) as [->|]; [rewrite IH by done|].
  - apply bool_decide_ext. naive_solver.
  - rewrite bool_decide_false; naive_solver.
Qed.

Lemma received_list a : received a <-> Forall (fun z => z <> -1) (vec_to_list a).
Proof. unfold received. by rewrite Forall_vlookup. Qed.

Lemma prec_true (a b : Clock) : prec a b = inl true <-> clock_le a b /\ received a /\ received b.
Proof.
  unfold prec. rewrite prec_loop_true by by rewrite !length_vec_to_list.
  by rewrite clock_le_list, !received_list.
Qed.

Lemma prec_received (a b : Clock) : received a -> received b ->
  prec a b = inl (bool_decide (clock_le a b)).
Proof.
  intros Ha%received_list Hb%received_list. unfold prec.
  rewrite prec_loop_received by (done || by rewrite !length_vec_to_list).
  f_equal. apply bool_decide_ext. by rewrite clock_le_list.
Qed.

(** ** Properties *)

(** [ends::max] of a range is the least clock above -1 and every member, and
    [ends::max] of two or more clocks is their least upper bound; so neither
    order nor repetition of the arguments matters. *)
Theorem ends_max_correct l a b arrays c :
  (clock_le (ends_max_range l) c <-> clock_le no_clock c /\ forall x, x ∈ l -> clock_le x c) /\
  (clock_le (ends_max_pack a b arrays) c <-> forall x, x ∈ a :: b :: arrays -> clock_le x c).
Proof. split; [apply foldl_max_lub|apply ends_max_pack_lub]. Qed.

(** [ends::prec] decides the componentwise order of clocks without a -1, is
    true on no others, and [is_same] decides equality. *)
Theorem prec_correct (a b : Clock) :
  (prec a b = inl true <-> clock_le a b /\ received a /\ received b) /\
  (received a -> received b -> prec a b = inl (bool_decide (clock_le a b))) /\
  is_same a b = bool_decide (a = b).
Proof.
  split; [apply prec_true|]. split; [apply prec_received|].
  unfold is_same. rewrite is_same_loop_eq by by rewrite !length_vec_to_list.
  apply bool_decide_ext. split; [apply vec_to_list_inj2|by intros ->].
Qed.

(** ** Reading the clock *)

Section reading.
Context (feed : nat -> Clock).

Lemma update_clock_loop_ends T fuel t ix newc :
  (forall u, (T <= u)%nat -> received (feed u)) -> (T - t + length ix <= fuel)%nat ->
  is_Some (update_clock_loop feed fuel t ix newc).
Proof.
  intros HT. revert t ix newc. induction fuel as [|fuel IH]; intros t [|i ix] newc Hf;
    simpl in *; try (by eexists); [lia|].
  destruct (Z.eqb_spec (feed t !!! i) (-1)) as [Hi|_]; apply IH; simpl; [|lia].
  assert (~ (T <= t)%nat) by (intros Ht; by apply (HT t Ht i)). lia.
Qed.

(** Every component was read at some moment of the loop, right after it was
    seen to differ from -1. *)
Lemma update_clock_loop_reads fuel t ix newc c t' : NoDup ix ->
  update_clock_loop feed fuel t ix newc = Some (c, t') ->
  (t <= t')%nat /\ forall i,
    ((i ∉ ix) /\ c !!! i = newc !!! i) \/
    exists u, (t <= u < t')%nat /\ feed u !!! i <> -1 /\ c !!! i = feed (S u) !!! i.
Proof.
  revert t ix newc. induction fuel as [|fuel IH]; intros t [|i ix] newc Hnd Hl; simpl in Hl;
    try done; try (injection Hl as <- <-; split; [done|]; intros j; left;
                   split; [apply not_elem_of_nil|done]).
  destruct (Z.eqb_spec (feed t !!! i) (-1)) as [Hi|Hi].
  - destruct (IH _ _ _ Hnd Hl) as [Ht Hc]. split; [lia|]. intros j.
    destruct (Hc j) as [?|(u & Hu & ?)]; [by left|]. right. exists u. split; [lia|done].
  - apply NoDup_cons in Hnd as [Hni Hnd]. destruct (IH _ _ _ Hnd Hl) as [Ht Hc].
    split; [lia|]. intros j.
    destruct (Hc j) as [[Hj Hcj]|(u & Hu & ?)]; [|right; exists u; split; [lia|done]].
    destruct (decide (j = i)) as [->|Hne].
    + right. exists t. split; [lia|]. split; [done|].
      rewrite Hcj. apply vlookup_insert.
    + left. rewrite elem_of_cons. split; [tauto|]. rewrite Hcj. by apply vlookup_insert_ne.
Qed.
End reading.

(** while the clock that is received only moves forward and never falls
    behind the tracker's clock, the polling loop of [updateClock] ends as soon
    as every component has arrived, the clock read lies between the clock at
    the first and at the last access, and the assertion of [updateClock]
    holds, although the components are read at different moments. *)
Theorem read_clock_correct (feed : nat -> Clock) t T (global_min newc : Clock) :
  (forall u v, (u <= v)%nat -> clock_le (feed u) (feed v)) ->
  (forall i, 0 <= global_min !!! i) ->
  (forall u i, (t <= u)%nat -> feed u !!! i = -1 \/ global_min !!! i <= feed u !!! i) ->
  (t <= T)%nat -> received (feed T) ->
  exists c t', read_clock feed (T - t + 4) t newc = Some (c, t') /\
    clock_le (feed t) c /\ clock_le c (feed t') /\ prec global_min c = inl true.
Proof.
  intros Hm Hg Hf Ht HT.
  assert (Hlate : forall u, (T <= u)%nat -> received (feed u)).
  { intros u Hu i Hi. specialize (Hm T u Hu i). specialize (Hg i).
    destruct (Hf T i Ht) as [?|?]; [by apply (HT i)|lia]. }
  destruct (update_clock_loop_ends feed T (T - t + 4) t (enum (fin 4)) newc Hlate)
    as [[c t'] Hl]; [done|].
  exists c, t'. split; [done|].
  destruct (update_clock_loop_reads _ _ _ _ _ _ _ (NoDup_enum _) Hl) as [Htt Hc].
  assert (Hread : forall i, exists u, (t <= u < t')%nat /\ feed u !!! i <> -1 /\
            c !!! i = feed (S u) !!! i).
  { intros i. destruct (Hc i) as [[Hi _]|?]; [|done]. destruct Hi. apply elem_of_enum. }
  split; [|split; [|apply prec_true; split; [|split]]].
  - intros i. destruct (Hread i) as (u & Hu & _ & ->). apply Hm. lia.
  - intros i. destruct (Hread i) as (u & Hu & _ & ->). apply Hm. lia.
  - intros i. destruct (Hread i) as (u & Hu & Hne & ->).
    destruct (Hf u i) as [?|?]; [lia|done|]. pose proof (Hm u (S u) ltac:(lia) i). lia.
  - intros i Hi. specialize (Hg i). lia.
  - intros i Hi. destruct (Hread i) as (u & Hu & Hne & Hci). specialize (Hg i).
    destruct (Hf u i) as [?|?]; [lia|done|]. pose proof (Hm u (S u) ltac:(lia) i). lia.
Qed.

(** A feed whose first component arrives late *)
Definition sample_feed (t : nat) : Clock :=
  [# if (t <? 3)%nat then -1 else Z.of_nat t; 4; 5; Z.of_nat t].

Lemma read_clock_correct_witness :
  exists c t', read_clock sample_feed 7 0 no_clock = Some (c, t') /\
    clock_le (sample_feed 0) c /\ clock_le c (sample_feed t') /\ prec [# 1; 2; 3; 0] c = inl true.
Proof.
  apply (read_clock_correct sample_feed 0 3).
  - intros u v Huv i. induction i using fin_4_ind; unfold sample_feed; simpl; [|lia..].
    destruct (Nat.ltb_spec u 3), (Nat.ltb_spec v 3); simpl; lia.
  - by apply (bool_decide_unpack _).
  - intros u i _. induction i using fin_4_ind; unfold sample_feed; simpl; [|lia..].
    destruct (Nat.ltb_spec u 3); [by left|simpl; lia].
  - lia.
  - by apply (bool_decide_unpack _).
Defined.
