(* ===== verification/Tracker.v ===== *)
(** * The tracker

    Models [tracker/Tombstone.hpp], [tracker/Tracker.hpp], [tracker/Tracker.cpp],
    [tracker/Tracker_private_declarations.hpp] and the store interface of
    [DataStore.hpp]: which tombstones a phase leaves next to what it writes,
    and which it finds next to what it reads. *)
From S2P Require Import Prelude Runtime Clocks.
From stdpp Require Import vector.

#[local] Open Scope Z_scope.

(** ** Names and tombstones *)

(** [using Name = long int] *)
Definition Name : Type := Z.

Record Tombstone : Type := MkTombstone { nonce : Z; ip_addr : Z; portno : Z }.

#[global] Instance Tombstone_eq_dec : EqDecision Tombstone.
Proof. solve_decision. Defined.

(** [operator==] and [operator<] *)
Definition tomb_eq (a b : Tombstone) : bool :=
  (nonce a =? nonce b) && (ip_addr a =? ip_addr b) && (portno a =? portno b).
Definition tomb_lt (a b : Tombstone) : bool := nonce a <? nonce b.

(** [Tombstone::name] *)
Definition tomb_name (t : Tombstone) : Name := nonce t.

(** The contents of [big_prime] *)
Definition bigprime_lin : Z := 2147483659.

Definition is_metaname (base : Z) (name : Name) : bool :=
  (name >? 0) && (Z.rem name base =? 0).

Definition make_metaname {S} (base : Z) (name : Name) : RT S Name :=
  sanity ← long_mul int_max base;
  _ ← assert_rt (sanity >? 0);
  _ ← assert_rt (name <=? int_max);
  _ ← assert_rt (name >? 0);
  _ ← assert_rt (negb (is_metaname base name));
  cand ← long_mul name base;
  _ ← assert_rt (cand >? 0);
  _ ← assert_rt (is_metaname base cand);
  mret cand.

Definition is_lin_metadata (name : Name) : bool := is_metaname bigprime_lin name.
Definition make_lin_metaname {S} (name : Name) : RT S Name := make_metaname bigprime_lin name.

(** ** The store interface *)

(** [TrackableDataStore_super] and the transaction of a [StoreContext]; the
    handle that [existing_tombstone_trk] returns is used at once, by
    [get_without_context] or by [put]. *)
Class TrackableStore (D : Type) : Type := {
  (** is the store a [StrongTrackableDataStore]? *)
  is_strong : bool;
  begin_transaction : RT D unit;
  store_commit : RT D bool;
  (** the [StoreContext] is destroyed without a commit *)
  store_abandon : D -> D;
  exists_trk : Name -> D -> bool;
  new_tomb_trk : Name -> Tombstone -> RT D unit;
  existing_tombstone_get : Name -> RT D Tombstone;
  existing_tombstone_put : Name -> Tombstone -> RT D unit
}.

(** [same_view d d'] and [wrote d n t d']: what changed among the tombstones *)
Section views.
Context {D : Type} `{!TrackableStore D} (tomb_at : D -> Name -> option Tombstone).

Definition same_view_at (n : Name) (d d' : D) : Prop :=
  tomb_at d' n = tomb_at d n /\ exists_trk n d' = exists_trk n d.
Definition same_view (d d' : D) : Prop := forall n, same_view_at n d d'.
Definition wrote (d : D) (n : Name) (t : Tombstone) (d' : D) : Prop :=
  tomb_at d' n = Some t /\ forall m, m <> n -> same_view_at m d d'.
End views.

(** What the tracker relies on: a store shows the tombstone that was written
    last, and when it gives up it throws [SerializationFailure]. *)
Class TrackableStoreLaws (D : Type) `{!TrackableStore D} : Type := {
  store_ok : D -> Prop;
  tomb_at : D -> Name -> option Tombstone;
  tomb_exists : forall d n, store_ok d -> is_Some (tomb_at d n) -> exists_trk n d = true;
  begin_view : forall d r d', store_ok d -> begin_transaction d = (r, d') ->
    (forall e, r = inr e -> e = SerializationFailure) /\
    store_ok d' /\ same_view tomb_at d d';
  new_tomb_view : forall d n t r d', store_ok d -> exists_trk n d = false ->
    new_tomb_trk n t d = (r, d') ->
    (forall e, r = inr e -> e = SerializationFailure) /\
    (r = inl tt -> store_ok d' /\ wrote tomb_at d n t d');
  put_tomb_view : forall d n t r d', store_ok d -> is_Some (tomb_at d n) ->
    existing_tombstone_put n t d = (r, d') ->
    (forall e, r = inr e -> e = SerializationFailure) /\
    (r = inl tt -> store_ok d' /\ wrote tomb_at d n t d');
  get_tomb_view : forall d n r d', store_ok d -> is_Some (tomb_at d n) ->
    existing_tombstone_get n d = (r, d') ->
    (forall e, r = inr e -> e = SerializationFailure) /\
    (forall t, r = inl t -> tomb_at d n = Some t /\ store_ok d' /\ same_view tomb_at d d')
}.

(** ** State *)

(** [Tracker::Internals]; [persistent_datastore] is the store of the session. *)
Record Internals : Type := MkInternals {
  encountered_tombstones : option (list Tombstone);
  global_min : Clock;
  new_objects_max : Clock;
  persistent_datastore : bool
}.

Definition new_tracker : Internals :=
  MkInternals (Some []) [# 0; 0; 0; 0] [# 0; 0; 0; 0] false.

(** [TrackingContext::Internals]: what a phase has found so far *)
Record TrackingContext : Type := MkContext {
  pending_nonces : option (list Tombstone);
  newer_objects : list Clock
}.

Definition new_context : TrackingContext := MkContext (Some []) [].

(** A running phase: tracker, context, whether the [PhaseContext] has a store
    context, and the store. *)
Record phase_state (D : Type) : Type := MkPhase {
  trk : Internals;
  trk_ctx : TrackingContext;
  s_ctx : bool;
  ds : D
}.
Arguments MkPhase {D} trk trk_ctx s_ctx ds.
Arguments trk {D} p.
Arguments trk_ctx {D} p.
Arguments s_ctx {D} p.
Arguments ds {D} p.

(** ** Operations *)

(** The assertion and the assignment at the end of [updateClock] *)
Definition updateClock (newc : Clock) (i : Internals) : (unit + exn) * Internals :=
  match prec (global_min i) newc with
  | inl true =>
      (inl tt, MkInternals (encountered_tombstones i) newc (new_objects_max i)
                 (persistent_datastore i))
  | inl false => (inr AssertFailed, i)
  | inr e => (inr e, i)
  end.

Definition set_persistent_store (i : Internals) : Internals :=
  MkInternals (encountered_tombstones i) (global_min i) (new_objects_max i) true.

Definition all_encountered_tombstones (i : Internals) : list Tombstone + exn :=
  match encountered_tombstones i with
  | Some l => inl l
  | None => inr AssertFailed
  end.

Definition clear_encountered_tombstones (i : Internals) : Internals :=
  MkInternals (Some []) (global_min i) (new_objects_max i) (persistent_datastore i).

Section operations.
Context {D : Type} `{!TrackableStore D}.
(** [get_ip()] *)
Context (my_ip : Z).

(** [ctx.store_context(ds, ...)]: begins the transaction when there is none. *)
Definition store_context : RT (phase_state D) unit := fun p =>
  if s_ctx p then (inl tt, p)
  else match begin_transaction (ds p) with
       | (inl _, d) => (inl tt, MkPhase (trk p) (trk_ctx p) true d)
       | (inr e, d) => (inr e, MkPhase (trk p) (trk_ctx p) false d)
       end.

Definition on_store {A} (m : RT D A) : RT (phase_state D) A := fun p =>
  let '(r, d) := m (ds p) in (r, MkPhase (trk p) (trk_ctx p) (s_ctx p) d).

(** A method of [TrackableDataStore_common]: enters the transaction and calls
    the store. *)
Definition trackable {A} (m : RT D A) : RT (phase_state D) A :=
  _ ← store_context; on_store m.

Definition exists_op (n : Name) : RT (phase_state D) bool :=
  trackable (fun d => (inl (exists_trk n d), d)).

Definition has_store_context : RT (phase_state D) bool := fun p => (inl (s_ctx p), p).

(** [rand] is what [long_rand()] returns. *)
Definition generateTombstone (rand : Z) : Tombstone := MkTombstone rand my_ip 0.

Definition writeTombstone (nonce : Z) : RT (phase_state D) unit :=
  let t := MkTombstone nonce my_ip 0 in
  p ← get_state;
  _ ← assert_rt (s_ctx p || persistent_datastore (trk p));
  b ← exists_op (tomb_name t);
  if (b : bool) then throw TombNameCollision else trackable (new_tomb_trk (tomb_name t) t).

Definition write_lin_metadata (name : Name) (nonce : Z) : RT (phase_state D) unit :=
  c ← has_store_context;
  _ ← assert_rt c;
  meta_name ← make_lin_metaname name;
  b ← exists_op meta_name;
  if (b : bool) then trackable (existing_tombstone_put meta_name (MkTombstone nonce my_ip 0))
  else trackable (new_tomb_trk meta_name (MkTombstone nonce my_ip 0)).

(** The loop of [accompanyWrite] over its [subroutine]; the value is
    [always_failed]. *)
Fixpoint accompany_attempts (n : nat) (name : Name) (nonce : Z) : RT (phase_state D) bool :=
  match n with
  | O => mret true
  | S n =>
      try_catch (_ ← write_lin_metadata name nonce; mret false)
        (fun e => if decide (e = TombNameCollision) then Some (accompany_attempts n name nonce)
                  else None)
  end.

Definition accompanyWrite (name : Name) (nonce : Z) : RT (phase_state D) unit :=
  c ← has_store_context;
  _ ← assert_rt c;
  _ ← (if is_strong then mret tt else throw BadCast);
  if is_lin_metadata name then mret tt
  else
    always_failed ← accompany_attempts 10 name nonce;
    _ ← (if (always_failed : bool) then write_lin_metadata name nonce else mret tt);
    _ ← assert_rt (negb always_failed);
    meta_name ← make_lin_metaname name;
    b ← exists_op meta_name;
    assert_rt b.

(** [pending_nonces->emplace_back(tomb)] *)
Definition push_pending (t : Tombstone) : RT (phase_state D) unit := fun p =>
  match pending_nonces (trk_ctx p) with
  | Some l => (inl tt, MkPhase (trk p) (MkContext (Some (l ++ [t])) (newer_objects (trk_ctx p)))
                         (s_ctx p) (ds p))
  | None => (inr OutOfRange, p)
  end.

Definition checkForTombstones (name : Name) : RT (phase_state D) unit :=
  _ ← assert_rt (negb (name =? 1));
  c ← has_store_context;
  _ ← assert_rt c;
  if is_lin_metadata name then mret tt
  else
    ts ← make_lin_metaname name;
    b ← exists_op ts;
    if (b : bool) then tomb ← trackable (existing_tombstone_get ts); push_pending tomb
    else mret tt.

Definition record_timestamp (s : Clock) : RT (phase_state D) unit :=
  modify (fun p => MkPhase (trk p)
    (MkContext (pending_nonces (trk_ctx p)) (newer_objects (trk_ctx p) ++ [s])) (s_ctx p) (ds p)).

(** [_commitContext] *)
Definition commitContext : RT (phase_state D) unit :=
  p ← get_state;
  _ ← assert_rt (match encountered_tombstones (trk p) with
                 | None => true
                 | Some l => (length l =? 0)%nat
                 end);
  modify (fun p => MkPhase
    (MkInternals (pending_nonces (trk_ctx p)) (global_min (trk p))
       (ends_max (new_objects_max (trk p)) (ends_max_range (newer_objects (trk_ctx p))))
       (persistent_datastore (trk p)))
    (MkContext None (newer_objects (trk_ctx p))) (s_ctx p) (ds p)).

(** [find_tombstones]: polls the store, which other sessions write to, with
    pauses that double; [hist k] is the store at the [k]-th poll and
    [sleep_for] counts milliseconds in a 64-bit integer. *)
Fixpoint find_tombstones_loop (fuel : nat) (hist : nat -> D) (t : Tombstone) (k : nat)
    (sleep_for : Z) : option (nat + exn) :=
  match fuel with
  | O => None
  | S fuel =>
      if exists_trk (tomb_name t) (hist k) then Some (inl k)
      else if in_long (sleep_for * 2) then
        find_tombstones_loop fuel hist t (S k) (sleep_for * 2)
      else Some (inr SignedOverflow)
  end.

Definition find_tombstones (hist : nat -> D) (t : Tombstone) (k : nat) : option (nat + exn) :=
  find_tombstones_loop 63 hist t k 1.

(** The function [find_tombstones] of [find_tombstones.hpp]: one after another *)
Fixpoint find_all_tombstones (hist : nat -> D) (k : nat) (ts : list Tombstone)
    : option (nat + exn) :=
  match ts with
  | [] => Some (inl k)
  | t :: ts =>
      match find_tombstones hist t k with
      | Some (inl k) => find_all_tombstones hist k ts
      | r => r
      end
  end.

(** ** What a phase does with its tracker *)

Inductive trk_op : Type :=
| ReadRemote (name : Name) (timestamp : Clock)  (** [read_tracking_actions] after a [get] *)
| WriteTombstone (nonce : Z)
| AccompanyWrite (name : Name) (nonce : Z)
| UseStore (m : RT D unit)                      (** any other use of the store *).

Definition run_op (o : trk_op) : RT (phase_state D) unit :=
  match o with
  | ReadRemote name ts =>
      _ ← store_context; _ ← checkForTombstones name; record_timestamp ts
  | WriteTombstone n => writeTombstone n
  | AccompanyWrite name n => accompanyWrite name n
  | UseStore m => trackable m
  end.

Fixpoint run_ops (os : list trk_op) : RT (phase_state D) unit :=
  match os with
  | [] => mret tt
  | o :: os => _ ← run_op o; run_ops os
  end.
End operations.
Arguments trk_op : clear implicits.
