(* ===== verification/TestingStore.v ===== *)
(** * The testing store

    Models [testing_store/TestingStore.hpp]: the in-memory store the tests run
    against.  Objects sit behind shared pointers that [put] writes through, so
    the cells are modelled as a heap of their own. *)
From S2P Require Import Prelude Runtime Clocks Tracker.

#[local] Open Scope Z_scope.

(** ** Objects *)

(** The types [TestingHandle] is used at; [ListOf] is [std::list] *)
Inductive otype : Type :=
| TyInt | TyTombstone | TyClock | ListOf (t : otype).

Inductive object : Type :=
| OInt (z : Z)
| OTombstone (t : Tombstone)
| OClock (c : Clock)
| OList (t : otype) (l : list object).

Definition otype_of (o : object) : otype :=
  match o with
  | OInt _ => TyInt
  | OTombstone _ => TyTombstone
  | OClock _ => TyClock
  | OList t _ => ListOf t
  end.

#[global] Instance otype_eq_dec : EqDecision otype.
Proof. solve_decision. Defined.

(** ** [mutils::HeteroMap]

    A map of the [mutils] submodule, which is not part of the repository:
    [hm_at T m k] is the pointer behind [at<T>(k)], [None] when there is none,
    [hm_set T m k v] stores through the reference [mut<T>(k)] returns. *)
Class HeteroMap (M : Type -> Type) : Type := {
  hm_empty : forall {V}, M V;
  hm_contains : forall {V}, M V -> Name -> bool;
  hm_at : forall {V}, otype -> M V -> Name -> option V;
  hm_set : forall {V}, otype -> M V -> Name -> V -> M V
}.

Class HeteroMapLaws (M : Type -> Type) `{HeteroMap M} : Prop := {
  hm_at_set : forall {V} T (m : M V) k v, hm_at T (hm_set T m k v) k = Some v;
  hm_at_set_ne : forall {V} T T' (m : M V) k k' v, k <> k' ->
    hm_at T' (hm_set T m k v) k' = hm_at T' m k';
  hm_contains_set : forall {V} T (m : M V) k v, hm_contains (hm_set T m k v) k = true;
  hm_contains_set_ne : forall {V} T (m : M V) k k' v, k <> k' ->
    hm_contains (hm_set T m k v) k' = hm_contains m k';
  hm_at_contains : forall {V} T (m : M V) k v, hm_at T m k = Some v -> hm_contains m k = true;
  hm_at_type : forall {V} T T' (m : M V) k v v',
    hm_at T m k = Some v -> hm_at T' m k = Some v' -> T = T';
  hm_at_empty : forall {V} T k, hm_at T (hm_empty : M V) k = None
}.

(** ** The store *)

(** [stored]: a shared pointer, which may be null *)
Abbreviation stored := (option positive).

Section testing_store.
Context {M : Type -> Type} `{HeteroMap M}.

Record TestingStore : Type := MkStore {
  object_store : M stored;
  cells : gmap positive object
}.

Definition empty_store : TestingStore := MkStore hm_empty ∅.

(** [new T{t}] and [std::make_shared<T>(t)] *)
Definition alloc (t : object) (s : TestingStore) : positive * TestingStore :=
  let l := fresh (dom (cells s)) in (l, MkStore (object_store s) (<[l := t]> (cells s))).

(** [TestingObject::put] *)
Definition put (name : Name) (t : object) : RT TestingStore unit := fun s =>
  match hm_at (otype_of t) (object_store s) name with
  | Some (Some l) => (inl tt, MkStore (object_store s) (<[l := t]> (cells s)))
  | _ =>
      let '(l, s) := alloc t s in
      (inl tt, MkStore (hm_set (otype_of t) (object_store s) name (Some l)) (cells s))
  end.

(** [TestingObject<T>::get]: the pointer itself *)
Definition get_ptr (T : otype) (name : Name) : RT TestingStore stored := fun s =>
  match hm_at T (object_store s) name with
  | Some p => (inl p, s)
  | None => (inr OutOfRange, s)
  end.

(** What a pointer shows *)
Definition deref (p : stored) : RT TestingStore object := fun s =>
  match p with
  | Some l => match cells s !! l with Some o => (inl o, s) | None => (inr OutOfRange, s) end
  | None => (inr OutOfRange, s)
  end.

Definition get (T : otype) (name : Name) : RT TestingStore object :=
  p ← get_ptr T name; deref p.

Definition isValid (name : Name) (s : TestingStore) : bool := hm_contains (object_store s) name.

(** [newObject] yields the handle, which the name stands for. *)
Definition newObject (name : Name) (init : object) : RT TestingStore Name :=
  _ ← put name init; mret name.

Definition create_new (t : object) : RT TestingStore Name := newObject 124 t.

Definition existingObject (name : Name) : RT TestingStore Name := mret name.

Definition ts_exists (n : Name) (s : TestingStore) : bool := hm_contains (object_store s) n.

(** ** The registered operations *)

Definition op_append (T : otype) (hndl : Name) (t : object) : RT TestingStore unit :=
  p ← get_ptr (ListOf T) hndl;
  o ← deref p;
  match o, p with
  | OList T' l, Some a =>
      modify (fun s => MkStore (object_store s) (<[a := OList T' (l ++ [t])]> (cells s)))
  | _, _ => throw OutOfRange
  end.

Definition op_consistent_read (T : otype) (hndl : Name) : RT TestingStore object := get T hndl.

Definition op_increment (hndl : Name) : RT TestingStore unit :=
  o ← get TyInt hndl;
  match o with
  | OInt z => if in_int (z + 1) then put hndl (OInt (z + 1)) else throw SignedOverflow
  | _ => throw OutOfRange
  end.

Definition ts_store_commit : RT TestingStore bool := mret true.

(** ** The store as a [TrackableDataStore] *)

Definition ts_get_tombstone (n : Name) : RT TestingStore Tombstone :=
  o ← get TyTombstone n;
  match o with OTombstone t => mret t | _ => throw OutOfRange end.

(** [strong]: the label of the store does not satisfy [might_track] *)
Definition testing_trackable (strong : bool) : TrackableStore TestingStore := {|
  is_strong := strong;
  begin_transaction := mret tt;
  store_commit := ts_store_commit;
  store_abandon := fun s => s;
  exists_trk := ts_exists;
  new_tomb_trk := fun n t => _ ← newObject n (OTombstone t); mret tt;
  existing_tombstone_get := ts_get_tombstone;
  existing_tombstone_put := fun n t => put n (OTombstone t)
|}.
End testing_store.
Arguments TestingStore : clear implicits.
