(* ===== verification/TestingStoreCorrect.v ===== *)
(** * The testing store keeps what is put into it

    The testing store discharges the promises of [TrackableStoreLaws], and its
    objects are shared: what was got is what is there now. *)
From S2P Require Import Prelude Runtime Clocks Tracker TestingStore.

#[local] Open Scope Z_scope.

Section testing_store.
Context {M : Type -> Type} `{HL : HeteroMapLaws M}.

(** ** The store as a map *)

(** The object of type [T] behind a name *)
Definition object_at (s : TestingStore M) (T : otype) (n : Name) : option object :=
  match hm_at T (object_store s) n with
  | Some (Some l) => cells s !! l
  | _ => None
  end.

(** No pointer is null or dangling, types are as stored, no cell has two names. *)
Record testing_ok (s : TestingStore M) : Prop := {
  ok_cells : forall T n p, hm_at T (object_store s) n = Some p ->
    exists l o, p = Some l /\ cells s !! l = Some o /\ otype_of o = T;
  ok_inj : forall T T' n n' l, hm_at T (object_store s) n = Some (Some l) ->
    hm_at T' (object_store s) n' = Some (Some l) -> n = n'
}.

(** [put] at the type of the object: nothing else was stored under the name. *)
Definition put_typed (s : TestingStore M) (n : Name) (T : otype) : Prop :=
  forall T', is_Some (hm_at T' (object_store s) n) -> T' = T.

Lemma empty_ok : testing_ok empty_store.
Proof. split; simpl; intros *; by rewrite hm_at_empty. Qed.

Lemma object_at_slot s T n p : testing_ok s -> hm_at T (object_store s) n = Some p ->
  exists l o, p = Some l /\ cells s !! l = Some o /\ otype_of o = T /\ object_at s T n = Some o.
Proof.
  intros Hok Hp. destruct (ok_cells s Hok _ _ _ Hp) as (l & o & -> & Hl & Ho).
  exists l, o. unfold object_at. by rewrite Hp.
Qed.

Lemma get_object_at s T n : testing_ok s ->
  get T n s = (match object_at s T n with Some o => inl o | None => inr OutOfRange end, s).
Proof.
  intros Hok. unfold get, get_ptr, mbind, RT_bind, object_at.
  destruct (hm_at T (object_store s) n) as [p|] eqn:Hp; cbn; [|reflexivity].
  destruct (ok_cells s Hok _ _ _ Hp) as (l & o & -> & Hl & _). cbn. by rewrite Hl.
Qed.


(** What [put] does to the map *)
Definition put_result (s : TestingStore M) (n : Name) (t : object) (s' : TestingStore M) : Prop :=
  testing_ok s' /\ object_at s' (otype_of t) n = Some t /\ hm_contains (object_store s') n = true /\
  forall n', n' <> n ->
    (forall T, object_at s' T n' = object_at s T n') /\
    hm_contains (object_store s') n' = hm_contains (object_store s) n'.

Lemma put_in_place s n t l : testing_ok s ->
  hm_at (otype_of t) (object_store s) n = Some (Some l) ->
  put_result s n t (MkStore (object_store s) (<[l := t]> (cells s))).
Proof.
  intros Hok Hl. unfold put_result, object_at. split; [split|split; [|split]]; simpl.
  - intros T n' p Hp. destruct (ok_cells s Hok _ _ _ Hp) as (l' & o & -> & Ho & HT).
    destruct (decide (l' = l)) as [->|Hne].
    + exists l, t. rewrite lookup_insert_eq. split; [done|]. split; [done|].
      pose proof (ok_inj s Hok _ _ _ _ _ Hp Hl) as ->. by eapply hm_at_type.
    + exists l', o. by rewrite lookup_insert_ne.
  - apply (ok_inj s Hok).
  - by rewrite Hl, lookup_insert_eq.
  - by eapply hm_at_contains.
  - intros n' Hn'. split; [|done]. intros T.
    destruct (hm_at T (object_store s) n') as [[l'|]|] eqn:Hl'; [|done..].
    rewrite lookup_insert_ne; [done|]. intros ->. destruct Hn'.
    by eapply (ok_inj s Hok).
Qed.

Lemma put_fresh s n t l : testing_ok s -> put_typed s n (otype_of t) ->
  hm_at (otype_of t) (object_store s) n = None -> cells s !! l = None ->
  put_result s n t (MkStore (hm_set (otype_of t) (object_store s) n (Some l))
                      (<[l := t]> (cells s))).
Proof.
  intros Hok Hty Hn Hl.
  assert (Hself : forall T p, hm_at T (hm_set (otype_of t) (object_store s) n (Some l)) n = Some p ->
            T = otype_of t /\ p = Some l).
  { intros T p Hp. pose proof (hm_at_set (otype_of t) (object_store s) n (Some l)) as Hs.
    pose proof (hm_at_type _ _ _ _ _ _ Hp Hs) as ->. split; [done|congruence]. }
  assert (Hold : forall T n' l', hm_at T (object_store s) n' = Some (Some l') -> l' <> l).
  { intros T n' l' Hp ->. destruct (ok_cells s Hok _ _ _ Hp) as (l' & o & [= <-] & Ho & _).
    congruence. }
  unfold put_result, object_at. split; [split|split; [|split]]; simpl.
  - intros T n' p Hp. destruct (decide (n' = n)) as [->|Hne].
    + destruct (Hself _ _ Hp) as [-> ->]. exists l, t. by rewrite lookup_insert_eq.
    + rewrite hm_at_set_ne in Hp by done.
      destruct (ok_cells s Hok _ _ _ Hp) as (l' & o & -> & Ho & HT).
      exists l', o. rewrite lookup_insert_ne; [done|]. intros ->. by eapply Hold.
  - intros T T' n1 n2 l' H1 H2.
    destruct (decide (n1 = n)) as [->|Hn1], (decide (n2 = n)) as [->|Hn2]; [done|..].
    + destruct (Hself _ _ H1) as [_ [= ->]]. rewrite hm_at_set_ne in H2 by done.
      by destruct (Hold _ _ _ H2).
    + destruct (Hself _ _ H2) as [_ [= ->]]. rewrite hm_at_set_ne in H1 by done.
      by destruct (Hold _ _ _ H1).
    + rewrite hm_at_set_ne in H1, H2 by done. by eapply (ok_inj s Hok).
  - by rewrite hm_at_set, lookup_insert_eq.
  - apply hm_contains_set.
  - intros n' Hn'. split; [|by apply hm_contains_set_ne].
    intros T. rewrite hm_at_set_ne by done.
    destruct (hm_at T (object_store s) n') as [[l'|]|] eqn:Hl'; [|done..].
    rewrite lookup_insert_ne; [done|]. intros ->. by eapply Hold.
Qed.

Lemma put_run s n t : testing_ok s -> put_typed s n (otype_of t) ->
  exists s', put n t s = (inl tt, s') /\ put_result s n t s'.
Proof.
  intros Hok Hty. unfold put.
  destruct (hm_at (otype_of t) (object_store s) n) as [p|] eqn:Hp.
  - destruct (ok_cells s Hok _ _ _ Hp) as (l & o & -> & _). eexists. split; [done|].
    by apply put_in_place.
  - eexists. split; [done|]. apply (put_fresh s n t (fresh (dom (cells s)))); [done..|].
    apply not_elem_of_dom. apply is_fresh.
Qed.

Lemma absent_typed s n T : hm_contains (object_store s) n = false -> put_typed s n T.
Proof.
  intros Hn T' [p Hp]. rewrite (hm_at_contains _ _ _ _ Hp) in Hn. done.
Qed.

Lemma object_typed s n T : testing_ok s -> is_Some (object_at s T n) -> put_typed s n T.
Proof.
  unfold object_at. intros Hok [o Ho] T' [p Hp].
  destruct (hm_at T (object_store s) n) eqn:Hp'; [|done]. by eapply hm_at_type.
Qed.

(** ** The store as a [TrackableDataStore] *)

Definition testing_tomb_at (s : TestingStore M) (n : Name) : option Tombstone :=
  match object_at s TyTombstone n with Some (OTombstone t) => Some t | _ => None end.

Lemma testing_tomb_object s n t : testing_ok s -> testing_tomb_at s n = Some t ->
  object_at s TyTombstone n = Some (OTombstone t).
Proof.
  unfold testing_tomb_at. intros _ Ht. by destruct (object_at s TyTombstone n) as [[]|]; simplify_eq.
Qed.

Lemma object_contains s T n : is_Some (object_at s T n) -> ts_exists n s = true.
Proof.
  unfold object_at, ts_exists. intros [o Ho].
  destruct (hm_at T (object_store s) n) eqn:Hp; [|done]. by eapply hm_at_contains.
Qed.

Lemma put_tombstone_wrote s n t : testing_ok s -> put_typed s n TyTombstone -> exists s',
  put n (OTombstone t) s = (inl tt, s') /\ testing_ok s' /\
  testing_tomb_at s' n = Some t /\ forall m, m <> n ->
    testing_tomb_at s' m = testing_tomb_at s m /\ ts_exists m s' = ts_exists m s.
Proof.
  intros Hok Hty. destruct (put_run s n (OTombstone t) Hok Hty) as (s' & Hp & Hok' & Ht & _ & Ho).
  exists s'. split; [done|]. split; [done|]. unfold testing_tomb_at, ts_exists.
  cbn [otype_of] in Ht. split; [by rewrite Ht|].
  intros m Hm. destruct (Ho m Hm) as [-> ->]. done.
Qed.

#[export] Instance testing_laws (strong : bool) :
  @TrackableStoreLaws (TestingStore M) (testing_trackable strong).
Proof.
  refine {| store_ok := testing_ok : TestingStore M -> Prop; tomb_at := testing_tomb_at |}; simpl.
  - intros s n Hok [t Ht]. eapply object_contains. rewrite (testing_tomb_object _ _ _ Hok Ht). done.
  - intros s r s' Hok [= <- <-]. split; [done|]. split; [done|]. by intros n.
  - intros s n t r s' Hok Hn Hr.
    destruct (put_tombstone_wrote s n t Hok (absent_typed s n _ Hn)) as (s1 & Hp & Hok1 & Hw).
    unfold newObject, mbind, RT_bind in Hr. rewrite Hp in Hr. injection Hr as <- <-. by split.
  - intros s n t r s' Hok [t' Ht'] Hr.
    destruct (put_tombstone_wrote s n t Hok) as (s1 & Hp & Hok1 & Hw).
    { eapply object_typed; [done|]. by rewrite (testing_tomb_object _ _ _ Hok Ht'). }
    rewrite Hp in Hr. injection Hr as <- <-. by split.
  - intros s n r s' Hok [t Ht] Hr. pose proof (testing_tomb_object _ _ _ Hok Ht) as Ho.
    unfold ts_get_tombstone, mbind, RT_bind in Hr. rewrite get_object_at, Ho in Hr by done.
    injection Hr as <- <-. split; [done|]. intros t' [= <-]. split; [done|]. split; [done|].
    by intros m.
Defined.

(** ** Properties *)

(** An object that was put is what [get] returns, at its type; puts of one
    name leave the objects under all other names alone. *)
Theorem put_get_correct (s : TestingStore M) (n : Name) (t : object) :
  testing_ok s -> put_typed s n (otype_of t) ->
  exists s', newObject n t s = (inl n, s') /\ testing_ok s' /\
    isValid n s' = true /\ get (otype_of t) n s' = (inl t, s') /\
    forall n' T, n' <> n -> isValid n' s' = isValid n' s /\ (get T n' s').1 = (get T n' s).1.
Proof.
  intros Hok Hty. destruct (put_run s n t Hok Hty) as (s' & Hp & Hok' & Ht & Hc & Ho).
  exists s'. unfold newObject, mbind, RT_bind. rewrite Hp. split; [done|]. split; [done|].
  split; [done|]. split; [by rewrite get_object_at, Ht|]. intros n' T Hn'.
  destruct (Ho n' Hn') as [Hob Hco]. split; [done|]. by rewrite !get_object_at, Hob.
Qed.

(** Objects are shared: the pointer [get] returned before a [put] to the same
    object shows the new contents after it. *)
Theorem put_shared (s : TestingStore M) (n : Name) (t : object) (p : stored) (s1 : TestingStore M) :
  testing_ok s -> get_ptr (otype_of t) n s = (inl p, s1) ->
  exists s', put n t s = (inl tt, s') /\ deref p s' = (inl t, s').
Proof.
  unfold get_ptr, put. intros Hok Hp. destruct (hm_at _ _ _) as [p'|] eqn:Hp'; [|done].
  injection Hp as -> <-. destruct (ok_cells s Hok _ _ _ Hp') as (l & o & -> & _).
  eexists. split; [done|]. cbn. by rewrite lookup_insert_eq.
Qed.

(** Every [create_new] names its object 124, so the second of two new objects
    of a type is the first: both handles show the second value. *)
Theorem create_new_shared (s : TestingStore M) (t u : object) :
  testing_ok s -> put_typed s 124 (otype_of t) -> otype_of u = otype_of t ->
  exists s1 s2, create_new t s = (inl 124, s1) /\ create_new u s1 = (inl 124, s2) /\
    get (otype_of t) 124 s1 = (inl t, s1) /\ get (otype_of t) 124 s2 = (inl u, s2).
Proof.
  intros Hok Hty Hu. destruct (put_run s 124 t Hok Hty) as (s1 & Hp1 & Hok1 & Ht & _).
  assert (Hty1 : put_typed s1 124 (otype_of u)).
  { rewrite Hu. eapply object_typed; [done|]. by rewrite Ht. }
  destruct (put_run s1 124 u Hok1 Hty1) as (s2 & Hp2 & Hok2 & Hu2 & _).
  exists s1, s2. unfold create_new, newObject, mbind, RT_bind. rewrite Hp1, Hp2.
  rewrite Hu in Hu2. by rewrite !get_object_at, Ht, Hu2.
Qed.

(** [increment] adds one to an [int] and is undefined when that overflows;
    [append] adds at the end of a list; neither touches another object. *)
Theorem operations_correct (s : TestingStore M) (n : Name) :
  testing_ok s ->
  (forall z, object_at s TyInt n = Some (OInt z) -> in_int z = true ->
     if decide (z = int_max) then op_increment n s = (inr SignedOverflow, s)
     else exists s', op_increment n s = (inl tt, s') /\ put_result s n (OInt (z + 1)) s') /\
  (forall T l o, object_at s (ListOf T) n = Some (OList T l) ->
     exists s', op_append T n o s = (inl tt, s') /\ put_result s n (OList T (l ++ [o])) s').
Proof.
  intros Hok. split.
  - intros z Hz Hin. unfold op_increment, mbind, RT_bind. rewrite get_object_at, Hz by done.
    unfold in_int in *. rewrite andb_true_iff, !Z.leb_le in Hin.
    case_decide as Hmax; [by subst|]. rewrite (proj2 (Z.leb_le _ _)) by lia.
    rewrite (proj2 (Z.leb_le _ int_max)) by lia.
    apply put_run; [done|]. eapply object_typed; [done|]. cbn [otype_of]. by rewrite Hz.
  - intros T l o Ho. unfold op_append, get_ptr, mbind, RT_bind.
    unfold object_at in Ho. destruct (hm_at _ _ n) as [[a|]|] eqn:Hp; [|done..].
    cbn. rewrite Ho. eexists. split; [done|]. by apply put_in_place.
Qed.
End testing_store.

(** ** Witnesses *)

(** A map that keeps the type next to the value *)
Definition typed_gmap (V : Type) : Type := gmap Name (otype * V).

#[export] Instance gmap_hetero : HeteroMap typed_gmap := {
  hm_empty := fun V => (∅ : gmap Name (otype * V));
  hm_contains := fun V m k => bool_decide (is_Some ((m : gmap Name (otype * V)) !! k));
  hm_at := fun V T m k =>
    '(T', v) ← (m : gmap Name (otype * V)) !! k; if decide (T = T') then Some v else None;
  hm_set := fun V T m k v => <[k := (T, v)]> (m : gmap Name (otype * V))
}.

#[export] Instance gmap_hetero_laws : HeteroMapLaws typed_gmap.
Proof.
  split; unfold typed_gmap; simpl; intros V.
  - intros. rewrite lookup_insert_eq. simpl. by case_decide.
  - intros. by rewrite lookup_insert_ne.
  - intros. by rewrite lookup_insert_eq.
  - intros. by rewrite lookup_insert_ne.
  - intros T m k v Hv. by destruct (m !! k).
  - intros T T' m k v v' Hv Hv'. destruct (m !! k) as [[T'' w]|]; simpl in *; [|done].
    repeat case_decide; naive_solver.
  - done.
Qed.

Lemma put_get_correct_witness :
  exists s', newObject 7 (OInt 3) (empty_store (M := typed_gmap)) = (inl 7, s') /\ testing_ok s' /\
    isValid 7 s' = true /\ get TyInt 7 s' = (inl (OInt 3), s') /\
    forall n' T, n' <> 7 -> isValid n' s' = isValid n' empty_store /\
      (get T n' s').1 = (get T n' empty_store).1.
Proof.
  apply (put_get_correct (M := typed_gmap) empty_store 7 (OInt 3)); [apply empty_ok|].
  by apply absent_typed.
Defined.

(** The store after one [newObject] *)
Definition one_object (o : object) : TestingStore typed_gmap :=
  (newObject 7 o empty_store).2.

Lemma one_object_ok o : testing_ok (one_object o).
Proof.
  destruct (put_run (M := typed_gmap) empty_store 7 o) as (s & Hp & Hok & _);
    [apply empty_ok|by apply absent_typed|].
  unfold one_object, newObject, mbind, RT_bind. by rewrite Hp.
Qed.

Lemma put_shared_witness : exists s',
  put 7 (OInt 4) (one_object (OInt 3)) = (inl tt, s') /\
  deref (Some 1%positive) s' = (inl (OInt 4), s').
Proof.
  apply (put_shared (one_object (OInt 3)) 7 (OInt 4) (Some 1%positive) (one_object (OInt 3)));
    [apply one_object_ok|by vm_compute].
Defined.

Lemma create_new_shared_witness : exists s1 s2,
  create_new (OInt 1) (empty_store (M := typed_gmap)) = (inl 124, s1) /\
  create_new (OInt 2) s1 = (inl 124, s2) /\
  get TyInt 124 s1 = (inl (OInt 1), s1) /\ get TyInt 124 s2 = (inl (OInt 2), s2).
Proof.
  apply (create_new_shared (M := typed_gmap) empty_store (OInt 1) (OInt 2));
    [apply empty_ok|by apply absent_typed|done].
Defined.

Lemma operations_correct_witness : exists s',
  op_increment 7 (one_object (OInt 3)) = (inl tt, s') /\
  put_result (one_object (OInt 3)) 7 (OInt 4) s'.
Proof.
  destruct (operations_correct (one_object (OInt 3)) 7 (one_object_ok _)) as [Hi _].
  exact (Hi 3 eq_refl eq_refl).
Defined.
