(* ===== verification/TrackerSpec.v ===== *)
(** * What the tracker promises

    The metadata the tracker keeps in a strong store refines a finite map from
    object names to the tombstone of their last accompanied write. *)
From S2P Require Import Prelude Runtime Clocks Tracker.

#[local] Open Scope Z_scope.

(** ** Metanames *)

(** The names [make_lin_metaname] accepts *)
Definition plain_name (n : Name) : Prop := 1 <= n <= int_max.

#[global] Instance plain_name_dec n : Decision (plain_name n).
Proof. unfold plain_name. apply _. Defined.

Lemma is_metaname_spec n : is_lin_metadata n = true <-> exists k, 1 <= k /\ n = k * bigprime_lin.
Proof.
  unfold is_lin_metadata, is_metaname. rewrite andb_true_iff, Z.gtb_lt, Z.eqb_eq. split.
  - intros [Hn Hr]. apply Z.rem_divide in Hr as [k ->]; [|done].
    exists k. unfold bigprime_lin in *. lia.
  - intros (k & Hk & ->). unfold bigprime_lin in *. split; [lia|].
    by apply Z.rem_mul.
Qed.

Lemma plain_not_metaname n : plain_name n -> is_lin_metadata n = false.
Proof.
  intros Hn. apply not_true_iff_false. rewrite is_metaname_spec. intros (k & Hk & ->).
  unfold plain_name, int_max, bigprime_lin in *. lia.
Qed.

Lemma metaname_lin n : plain_name n -> is_lin_metadata (n * bigprime_lin) = true.
Proof. intros [Hn _]. apply is_metaname_spec. by exists n. Qed.

Lemma make_lin_metaname_plain {S} n (s : S) : plain_name n ->
  make_lin_metaname n s = (inl (n * bigprime_lin), s).
Proof.
  intros Hn. pose proof (plain_not_metaname n Hn) as Hm.
  pose proof (metaname_lin n Hn) as Hc.
  unfold is_lin_metadata in *. unfold make_lin_metaname, make_metaname.
  unfold plain_name, int_max in Hn.
  assert (Hl : in_long (n * bigprime_lin) = true).
  { unfold in_long, long_min, long_max, bigprime_lin. apply andb_true_iff. lia. }
  unfold mbind, RT_bind, long_mul, assert_rt. rewrite Hm, Hl. cbn.
  rewrite (proj2 (Z.leb_le n int_max)), (proj2 (Z.gtb_lt n 0)) by (unfold int_max; lia). cbn.
  rewrite (proj2 (Z.gtb_lt (n * bigprime_lin) 0)) by (unfold bigprime_lin; lia). cbn.
  by rewrite Hc.
Qed.

Lemma make_lin_metaname_other {S} n (s : S) : ~ plain_name n ->
  make_lin_metaname n s = (inr AssertFailed, s).
Proof.
  intros Hn. unfold make_lin_metaname, make_metaname, mbind, RT_bind, long_mul, assert_rt. cbn.
  destruct (Z.leb_spec n int_max); [|done]. cbn.
  rewrite Z.gtb_ltb. destruct (Z.ltb_spec 0 n); [|done].
  exfalso. apply Hn. split; lia.
Qed.

(** ** Operations in a transaction *)

Section tracker.
Context {D : Type} `{TL : TrackableStoreLaws D} (my_ip : Z).

(** Metanames hold nothing but tombstones. *)
Definition meta_clean (d : D) : Prop :=
  forall n, is_lin_metadata n = true -> exists_trk n d = true -> is_Some (tomb_at d n).

(** The phase after an operation on its store *)
Definition with_ds (p : phase_state D) (d : D) : phase_state D :=
  MkPhase (trk p) (trk_ctx p) true d.

(** The phase after a tombstone was found *)
Definition with_found (p : phase_state D) (found : list Tombstone) (stamps : list Clock) (d : D) :=
  MkPhase (trk p)
    (MkContext ((fun l => l ++ found) <$> pending_nonces (trk_ctx p))
       (newer_objects (trk_ctx p) ++ stamps)) true d.

Lemma with_found_nil p d : with_found p [] [] d = with_ds p d.
Proof. destruct p as [? [[l|] ?] ? ?]; unfold with_found, with_ds; simpl; by rewrite ?app_nil_r. Qed.

Lemma wrote_clean d n t d' : meta_clean d -> wrote tomb_at d n t d' -> meta_clean d'.
Proof.
  intros Hc [Hn Ho] m Hm He. destruct (decide (m = n)) as [->|Hne]; [by rewrite Hn|].
  destruct (Ho m Hne) as [-> He']. apply Hc; [done|congruence].
Qed.

Lemma same_view_clean d d' : meta_clean d -> same_view tomb_at d d' -> meta_clean d'.
Proof.
  intros Hc Hs m Hm He. destruct (Hs m) as [-> He']. apply Hc; [done|congruence].
Qed.

Lemma store_context_in p : s_ctx p = true -> store_context p = (inl tt, p).
Proof. unfold store_context. by intros ->. Qed.

Lemma trackable_in {A} (m : RT D A) p : s_ctx p = true ->
  trackable m p = ((m (ds p)).1, with_ds p (m (ds p)).2).
Proof.
  intros Hp. unfold trackable, mbind, RT_bind. rewrite store_context_in by done.
  unfold on_store, with_ds. destruct (m (ds p)). by rewrite Hp.
Qed.

Lemma exists_op_in n p : s_ctx p = true -> exists_op n p = (inl (exists_trk n (ds p)), p).
Proof.
  intros Hp. unfold exists_op. rewrite trackable_in by done. simpl.
  unfold with_ds. destruct p; simpl in *. by subst.
Qed.

Lemma store_context_run p r p' : store_ok (ds p) -> store_context p = (r, p') ->
  r = inr SerializationFailure \/
  r = inl tt /\ exists d', p' = with_ds p d' /\ store_ok d' /\ same_view tomb_at (ds p) d'.
Proof.
  intros Hok Hr. unfold store_context in Hr. destruct (s_ctx p) eqn:Hp.
  - injection Hr as <- <-. right. split; [done|]. exists (ds p).
    split; [|split; [done|by intros n]]. unfold with_ds. destruct p; simpl in *. by subst.
  - destruct (begin_transaction (ds p)) as [[[]|e] d] eqn:Hb; injection Hr as <- <-;
      destruct (begin_view _ _ _ Hok Hb) as (He & Hok' & Hs).
    + right. split; [done|]. by exists d.
    + left. by rewrite (He e eq_refl).
Qed.

(** The outcome of a write: it took place, or the store gave up. *)
Definition written (p : phase_state D) (n : Name) (t : Tombstone) (r : unit + exn)
    (p' : phase_state D) : Prop :=
  exists d', p' = with_ds p d' /\
    (r = inr SerializationFailure \/ r = inl tt /\ store_ok d' /\ wrote tomb_at (ds p) n t d').

Lemma new_tomb_written p n t r p' : s_ctx p = true -> store_ok (ds p) ->
  exists_trk n (ds p) = false -> trackable (new_tomb_trk n t) p = (r, p') ->
  written p n t r p'.
Proof.
  intros Hp Hok He Hr. rewrite trackable_in in Hr by done. injection Hr as <- <-.
  destruct (new_tomb_trk n t (ds p)) as [r d'] eqn:Hn.
  destruct (new_tomb_view _ _ _ _ _ Hok He Hn) as [Hf Hw]. simpl.
  exists d'. split; [done|].
  destruct r as [[]|e]; [right; by destruct (Hw eq_refl)|left; by rewrite (Hf e eq_refl)].
Qed.

Lemma put_tomb_written p n t r p' : s_ctx p = true -> store_ok (ds p) ->
  is_Some (tomb_at (ds p) n) -> trackable (existing_tombstone_put n t) p = (r, p') ->
  written p n t r p'.
Proof.
  intros Hp Hok He Hr. rewrite trackable_in in Hr by done. injection Hr as <- <-.
  destruct (existing_tombstone_put n t (ds p)) as [r d'] eqn:Hn.
  destruct (put_tomb_view _ _ _ _ _ Hok He Hn) as [Hf Hw]. simpl.
  exists d'. split; [done|].
  destruct r as [[]|e]; [right; by destruct (Hw eq_refl)|left; by rewrite (Hf e eq_refl)].
Qed.

Lemma write_lin_metadata_run p name k r p' : s_ctx p = true -> store_ok (ds p) ->
  meta_clean (ds p) -> plain_name name -> write_lin_metadata my_ip name k p = (r, p') ->
  written p (name * bigprime_lin) (MkTombstone k my_ip 0) r p'.
Proof.
  intros Hp Hok Hc Hn Hr. pose proof (make_lin_metaname_plain name p Hn) as Hm'.
  pose proof (metaname_lin name Hn) as Hlin.
  unfold write_lin_metadata, has_store_context, mbind, RT_bind in Hr.
  rewrite Hp in Hr. cbn [assert_rt mret RT_ret] in Hr. rewrite Hm', exists_op_in in Hr by done.
  destruct (exists_trk _ _) eqn:He.
  - eapply put_tomb_written; eauto.
  - eapply new_tomb_written; eauto.
Qed.

Lemma accompany_attempts_run n p name k r p' : s_ctx p = true -> store_ok (ds p) ->
  meta_clean (ds p) -> plain_name name -> accompany_attempts my_ip (S n) name k p = (r, p') ->
  written p (name * bigprime_lin) (MkTombstone k my_ip 0)
    (match r with inl _ => inl tt | inr e => inr e end) p' /\ r <> inl true.
Proof.
  intros Hp Hok Hc Hn Hr. cbn [accompany_attempts] in Hr.
  unfold try_catch, mbind, RT_bind in Hr.
  destruct (write_lin_metadata my_ip name k p) as [r1 p1] eqn:Hw.
  pose proof (write_lin_metadata_run _ _ _ _ _ Hp Hok Hc Hn Hw) as Hwr.
  destruct r1 as [[]|e]; cbn in Hr.
  - by injection Hr as <- <-.
  - destruct Hwr as (d' & Hd & Hwr). destruct Hwr as [[= ->]|[? _]]; [|done]. cbn in Hr.
    injection Hr as <- <-. split; [|done]. exists d'. auto.
Qed.

(** ** Correctness of the operations *)

Lemma accompanyWrite_run (p : phase_state D) (name : Name) (k : Z) :
  store_ok (ds p) -> meta_clean (ds p) ->
  match accompanyWrite my_ip name k p with
  | (r, p') =>
      if negb (s_ctx p) then r = inr AssertFailed /\ p' = p
      else if negb is_strong then r = inr BadCast /\ p' = p
      else if is_lin_metadata name then r = inl tt /\ p' = p
      else if decide (plain_name name) then
        written p (name * bigprime_lin) (MkTombstone k my_ip 0) r p'
      else r = inr AssertFailed /\ p' = p
  end.
Proof.
  intros Hok Hc. destruct (accompanyWrite my_ip name k p) as [r p'] eqn:Hr.
  unfold accompanyWrite, has_store_context, mbind, RT_bind in Hr.
  destruct (s_ctx p) eqn:Hp; cbn -[accompany_attempts] in Hr; [|by injection Hr as <- <-].
  destruct is_strong; cbn -[accompany_attempts] in Hr; [|by injection Hr as <- <-].
  destruct (is_lin_metadata name); cbn -[accompany_attempts] in *; [by injection Hr as <- <-|].
  case_decide as Hn.
  - destruct (accompany_attempts my_ip 10 name k p) as [r1 p1] eqn:Ha.
    destruct (accompany_attempts_run _ _ _ _ _ _ Hp Hok Hc Hn Ha) as [Hw Hr1].
    destruct r1 as [[]|e]; cbn in Hr; [done| |by injection Hr as <- <-].
    rewrite make_lin_metaname_plain in Hr by done.
    destruct Hw as (d' & -> & [[=]|(_ & Hok' & Hw)]).
    rewrite exists_op_in in Hr by done. cbn in Hr.
    rewrite (tomb_exists d') in Hr; [|done|destruct Hw as [-> _]; done].
    injection Hr as <- <-. exists d'. auto.
  - cbn [accompany_attempts] in Hr. unfold try_catch, write_lin_metadata in Hr.
    unfold has_store_context, mbind, RT_bind in Hr. rewrite Hp in Hr. cbn in Hr.
    rewrite make_lin_metaname_other in Hr by done. cbn in Hr. by injection Hr as <- <-.
Qed.

Lemma same_view_wrote d d1 n t d' :
  same_view tomb_at d d1 -> wrote tomb_at d1 n t d' -> wrote tomb_at d n t d'.
Proof.
  intros Hs [Hn Ho]. split; [done|]. intros m Hm. destruct (Hs m), (Ho m Hm). split; congruence.
Qed.

Lemma same_view_trans d1 d2 d3 :
  same_view tomb_at d1 d2 -> same_view tomb_at d2 d3 -> same_view tomb_at d1 d3.
Proof. intros H1 H2 n. destruct (H1 n), (H2 n). split; congruence. Qed.

Lemma writeTombstone_run (p : phase_state D) (k : Z) :
  store_ok (ds p) ->
  match writeTombstone my_ip k p with
  | (r, p') =>
      if negb (s_ctx p || persistent_datastore (trk p)) then r = inr AssertFailed /\ p' = p
      else
        r = inr SerializationFailure \/
        exists d', p' = with_ds p d' /\ store_ok d' /\
          if exists_trk k (ds p) then r = inr TombNameCollision /\ same_view tomb_at (ds p) d'
          else r = inl tt /\ wrote tomb_at (ds p) k (MkTombstone k my_ip 0) d' /\
               find_tombstones (fun _ => d') (MkTombstone k my_ip 0) 0 = Some (inl 0%nat)
  end.
Proof.
  intros Hok. destruct (writeTombstone my_ip k p) as [r p'] eqn:Hr.
  unfold writeTombstone, get_state, exists_op, trackable, mbind, RT_bind in Hr.
  destruct (s_ctx p || persistent_datastore (trk p)); cbn [negb]; [|by injection Hr as <- <-].
  cbn [assert_rt mret RT_ret] in Hr. destruct (store_context p) as [r1 p1] eqn:Hs.
  destruct (store_context_run _ _ _ Hok Hs) as [->|(-> & d1 & -> & Hok1 & Hv)];
    [injection Hr as <- <-; by left|].
  cbn in Hr. change (tomb_name (MkTombstone k my_ip 0)) with k in *.
  destruct (Hv k) as [_ Hk]. rewrite Hk in Hr. destruct (exists_trk k (ds p)).
  - right. injection Hr as <- <-. exists d1. auto.
  - destruct (new_tomb_trk k (MkTombstone k my_ip 0) d1) as [r2 d2] eqn:Hn.
    destruct (new_tomb_view _ _ _ _ _ Hok1 Hk Hn) as [Hf Hw].
    unfold on_store in Hr. cbn in Hr. rewrite Hn in Hr. injection Hr as <- <-.
    destruct r2 as [[]|e]; [right|left; by rewrite (Hf e eq_refl)].
    destruct (Hw eq_refl) as [Hok2 Hw2]. exists d2. split; [done|]. split; [done|].
    split; [done|]. split; [by eapply same_view_wrote|].
    unfold find_tombstones. simpl. change (tomb_name (MkTombstone k my_ip 0)) with k.
    rewrite tomb_exists; [done|done|]. destruct Hw2 as [-> _]. done.
Qed.

Lemma checkForTombstones_run p name l r p' : s_ctx p = true -> store_ok (ds p) ->
  meta_clean (ds p) -> pending_nonces (trk_ctx p) = Some l -> name <> 1 ->
  is_lin_metadata name = false -> checkForTombstones name p = (r, p') ->
  if decide (plain_name name) then
    match tomb_at (ds p) (name * bigprime_lin) with
    | None => r = inl tt /\ p' = p
    | Some t => r = inr SerializationFailure \/
        r = inl tt /\ exists d', p' = with_found p [t] [] d' /\ store_ok d' /\
          same_view tomb_at (ds p) d'
    end
  else r = inr AssertFailed /\ p' = p.
Proof.
  intros Hp Hok Hc Hl H1 Hm Hr.
  unfold checkForTombstones, has_store_context, mbind, RT_bind in Hr.
  rewrite (proj2 (Z.eqb_neq name 1)) in Hr by done. cbn -[is_lin_metadata] in Hr.
  rewrite Hp, Hm in Hr. cbn -[is_lin_metadata] in Hr. case_decide as Hn.
  - rewrite make_lin_metaname_plain, exists_op_in in Hr by done.
    destruct (tomb_at (ds p) (name * bigprime_lin)) as [t|] eqn:Ht.
    + rewrite tomb_exists, trackable_in in Hr by (rewrite ?Ht; done).
      destruct (existing_tombstone_get _ _) as [r1 d1] eqn:Hg. cbn in Hr.
      destruct (get_tomb_view _ _ _ _ Hok (mk_is_Some _ _ Ht) Hg) as [Hf Hv].
      destruct r1 as [t'|e]; [|injection Hr as <- <-; left; by rewrite (Hf e eq_refl)].
      destruct (Hv t' eq_refl) as (Ht' & Hok1 & Hv1). right.
      unfold push_pending in Hr. cbn in Hr. rewrite Hl in Hr. injection Hr as <- <-.
      split; [done|]. exists d1. split; [|done]. unfold with_found. rewrite Hl, app_nil_r. cbn.
      congruence.
    + destruct (exists_trk _ _) eqn:He; [|by injection Hr as <- <-].
      exfalso. pose proof (Hc _ (metaname_lin _ Hn) He) as [t Ht']. congruence.
  - rewrite make_lin_metaname_other in Hr by done. by injection Hr as <- <-.
Qed.

(** ** Waiting for tombstones *)

Lemma in_long_pow j : (j <= 61)%nat -> in_long (2 ^ Z.of_nat j * 2) = true.
Proof.
  intros Hj. unfold in_long, long_min, long_max. apply andb_true_iff.
  assert (0 < 2 ^ Z.of_nat j <= 2 ^ 61) as [??]; [|lia].
  split; [lia|]. apply Z.pow_le_mono_r; lia.
Qed.

Lemma find_tombstones_loop_run (hist : nat -> D) t n : forall j k, (n + j = 62)%nat ->
  let waiting m := forall i, (i < m)%nat -> exists_trk (tomb_name t) (hist (k + i)%nat) = false in
  (exists m, (m <= n)%nat /\ waiting m /\ exists_trk (tomb_name t) (hist (k + m)%nat) = true /\
     find_tombstones_loop (S n) hist t k (2 ^ Z.of_nat j) = Some (inl (k + m)%nat)) \/
  waiting (S n) /\
     find_tombstones_loop (S n) hist t k (2 ^ Z.of_nat j) = Some (inr SignedOverflow).
Proof.
  induction n as [|n IH]; intros j k Hn waiting.
  - assert (j = 62%nat) as -> by lia. cbn [find_tombstones_loop].
    destruct (exists_trk _ (hist k)) eqn:He.
    + left. exists 0%nat. rewrite Nat.add_0_r. repeat split; [done|intros i Hi; lia|done].
    + right. split; [|done]. intros i Hi. assert (i = 0%nat) as -> by lia. by rewrite Nat.add_0_r.
  - cbn [find_tombstones_loop]. destruct (exists_trk _ (hist k)) eqn:He.
    + left. exists 0%nat. rewrite Nat.add_0_r. repeat split; [lia|intros i Hi; lia|done].
    + rewrite in_long_pow by lia.
      assert (2 ^ Z.of_nat j * 2 = 2 ^ Z.of_nat (S j)) as ->.
      { rewrite Nat2Z.inj_succ, Z.pow_succ_r by lia. lia. }
      assert (Hstep : forall m, (forall i, (i < m)%nat ->
          exists_trk (tomb_name t) (hist (S k + i)%nat) = false) -> waiting (S m)).
      { intros m Hm [|i] Hi; [by rewrite Nat.add_0_r|]. rewrite Nat.add_succ_r. apply Hm. lia. }
      destruct (IH (S j) (S k)) as [(m & Hm & Hw & Hex & Hl)|[Hw Hl]]; [lia| |].
      * left. exists (S m). rewrite Nat.add_succ_r. split; [lia|]. auto.
      * right. auto.
Qed.

(** ** The metadata as a finite map *)

(** What one step of a phase means: [m] maps object names to the tombstone of
    their last accompanied write; the result is the new map and the
    tombstones the step finds. *)
Definition spec_op (m : gmap Name Tombstone) (o : trk_op D)
    : gmap Name Tombstone * list Tombstone :=
  match o with
  | AccompanyWrite name k =>
      (if is_lin_metadata name then m else <[name := MkTombstone k my_ip 0]> m, [])
  | ReadRemote name _ =>
      (m, if is_lin_metadata name then [] else option_list (m !! name))
  | _ => (m, [])
  end.

Fixpoint spec_ops (m : gmap Name Tombstone) (os : list (trk_op D))
    : gmap Name Tombstone * list Tombstone :=
  match os with
  | [] => (m, [])
  | o :: os =>
      let '(m, found) := spec_op m o in
      let '(m, rest) := spec_ops m os in (m, found ++ rest)
  end.

Definition stamp_of (o : trk_op D) : list Clock :=
  match o with ReadRemote _ ts => [ts] | _ => [] end.

Definition represents (d : D) (m : gmap Name Tombstone) : Prop :=
  store_ok d /\ meta_clean d /\
  forall n, plain_name n -> tomb_at d (n * bigprime_lin) = m !! n.

(** Nonces are not metanames, and the rest of the program leaves metanames
    alone. *)
Definition op_ok (o : trk_op D) : Prop :=
  match o with
  | WriteTombstone k => is_lin_metadata k = false
  | UseStore m => forall d r d', store_ok d -> m d = (r, d') ->
      store_ok d' /\ forall n, is_lin_metadata n = true -> same_view_at tomb_at n d d'
  | _ => True
  end.

Lemma represents_frame d d' m : represents d m -> store_ok d' ->
  (forall n, is_lin_metadata n = true -> same_view_at tomb_at n d d') -> represents d' m.
Proof.
  intros (_ & Hc & Hm) Hok Hs. split; [done|]. split.
  - intros n Hn He. destruct (Hs n Hn) as [-> He']. apply Hc; [done|congruence].
  - intros n Hn. destruct (Hs _ (metaname_lin n Hn)) as [-> _]. by apply Hm.
Qed.

Lemma represents_insert d d' m n t : represents d m -> store_ok d' -> plain_name n ->
  wrote tomb_at d (n * bigprime_lin) t d' -> represents d' (<[n := t]> m).
Proof.
  intros (_ & Hc & Hm) Hok Hn Hw. split; [done|]. split; [by eapply wrote_clean|].
  destruct Hw as [Hw Ho]. intros n' Hn'. destruct (decide (n' = n)) as [->|Hne].
  - by rewrite Hw, lookup_insert_eq.
  - rewrite lookup_insert_ne by done. rewrite <- Hm by done. apply Ho.
    unfold bigprime_lin. lia.
Qed.

Lemma with_found_app p f1 s1 d1 f2 s2 d2 :
  with_found (with_found p f1 s1 d1) f2 s2 d2 = with_found p (f1 ++ f2) (s1 ++ s2) d2.
Proof.
  destruct p as [? [[l|] ?] ? ?]; unfold with_found; simpl; by rewrite !app_assoc.
Qed.

Lemma with_ds_self p : s_ctx p = true -> p = with_ds p (ds p).
Proof. destruct p. simpl. by intros ->. Qed.

Lemma accompany_refines p m name k p' : represents (ds p) m ->
  accompanyWrite my_ip name k p = (inl tt, p') ->
  exists d', p' = with_ds p d' /\ represents d' (spec_op m (AccompanyWrite name k)).1.
Proof.
  intros Hr Hrun. pose proof Hr as (Hok & Hc & _).
  pose proof (accompanyWrite_run p name k Hok Hc) as Ha. rewrite Hrun in Ha. simpl.
  destruct (s_ctx p) eqn:Hp; [|by destruct Ha]. destruct is_strong; [|by destruct Ha].
  cbn [negb] in Ha. destruct (is_lin_metadata name).
  - destruct Ha as [_ ->]. exists (ds p). split; [by apply with_ds_self|done].
  - case_decide as Hn; [|by destruct Ha]. destruct Ha as (d' & -> & [[=]|(_ & Hok' & Hw)]).
    exists d'. split; [done|]. by eapply represents_insert.
Qed.

Lemma write_refines p m k p' : is_lin_metadata k = false -> represents (ds p) m ->
  writeTombstone my_ip k p = (inl tt, p') ->
  exists d', p' = with_ds p d' /\ represents d' m.
Proof.
  intros Hk Hr Hrun. pose proof Hr as (Hok & Hc & _).
  pose proof (writeTombstone_run p k Hok) as Hw. rewrite Hrun in Hw.
  destruct (negb _); [by destruct Hw|].
  destruct Hw as [[=]|(d' & -> & Hok' & Hw)]. exists d'. split; [done|].
  destruct (exists_trk k (ds p)); [by destruct Hw|]. destruct Hw as (_ & [_ Hw] & _).
  eapply represents_frame; [done..|]. intros n Hn. apply Hw. congruence.
Qed.

Lemma read_refines p m l name ts p' : represents (ds p) m ->
  pending_nonces (trk_ctx p) = Some l -> run_op my_ip (ReadRemote name ts) p = (inl tt, p') ->
  exists d', p' = with_found p (spec_op m (ReadRemote name ts)).2 [ts] d' /\ represents d' m.
Proof.
  intros Hr Hl Hrun. pose proof Hr as (Hok & Hc & _). cbn [run_op] in Hrun.
  apply bind_value in Hrun as ([] & p1 & Hs & Hrun).
  destruct (store_context_run _ _ _ Hok Hs) as [[=]|(_ & d1 & -> & Hok1 & Hv1)].
  assert (Hr1 : represents d1 m) by (eapply represents_frame; eauto; intros; apply Hv1).
  pose proof Hr1 as (_ & Hc1 & Hm1).
  apply bind_value in Hrun as ([] & p2 & Hcheck & [= <-]). simpl.
  destruct (Z.eqb_spec name 1) as [->|H1].
  { unfold checkForTombstones in Hcheck. by apply bind_value in Hcheck as (? & ? & [=] & _). }
  destruct (is_lin_metadata name) eqn:Hm.
  - unfold checkForTombstones in Hcheck. rewrite Hm in Hcheck. run_inv.
    unfold has_store_context in *. simplify_eq.
    exists d1. split; [|done]. unfold with_found, with_ds. simpl. rewrite Hl. simpl.
    by rewrite app_nil_r.
  - pose proof (checkForTombstones_run (with_ds p d1) name l _ p2 eq_refl Hok1 Hc1 Hl H1 Hm
      Hcheck) as Hf.
    case_decide as Hn; [|by destruct Hf]. simpl in Hf. rewrite Hm1 in Hf by done.
    destruct (m !! name) as [t|]; simpl.
    + destruct Hf as [[=]|(_ & d2 & -> & Hok2 & Hv2)]. exists d2.
      split; [|eapply represents_frame; eauto; intros; apply Hv2].
      unfold with_found, with_ds. simpl. by rewrite app_nil_r.
    + destruct Hf as [_ ->]. exists d1. split; [|done].
      unfold with_found, with_ds. simpl. rewrite Hl. simpl. by rewrite app_nil_r.
Qed.

Lemma use_refines p m u p' : op_ok (UseStore u) -> represents (ds p) m ->
  trackable u p = (inl tt, p') -> exists d', p' = with_ds p d' /\ represents d' m.
Proof.
  intros Hu Hr Hrun. pose proof Hr as (Hok & _).
  apply bind_value in Hrun as ([] & p1 & Hs & Hrun).
  destruct (store_context_run _ _ _ Hok Hs) as [[=]|(_ & d1 & -> & Hok1 & Hv1)].
  unfold on_store in Hrun. cbn in Hrun. destruct (u d1) as [r2 d2] eqn:Hd.
  injection Hrun as -> <-. exists d2. split; [done|].
  destruct (Hu _ _ _ Hok1 Hd) as [Hok2 Hv2]. eapply represents_frame; [done..|].
  intros n Hn. destruct (Hv1 n), (Hv2 n Hn). split; congruence.
Qed.

Lemma run_op_refines o p m l p' : op_ok o -> represents (ds p) m ->
  pending_nonces (trk_ctx p) = Some l -> run_op my_ip o p = (inl tt, p') ->
  exists d', p' = with_found p (spec_op m o).2 (stamp_of o) d' /\ represents d' (spec_op m o).1.
Proof.
  intros Ho Hr Hl Hrun. destruct o as [name ts|k|name k|u].
  - eapply read_refines; eauto.
  - setoid_rewrite with_found_nil. by eapply write_refines.
  - setoid_rewrite with_found_nil. by eapply accompany_refines.
  - setoid_rewrite with_found_nil. by eapply use_refines.
Qed.

Lemma run_ops_refines os : forall p m l p', Forall op_ok os -> represents (ds p) m ->
  s_ctx p = true \/ os <> [] -> pending_nonces (trk_ctx p) = Some l ->
  run_ops my_ip os p = (inl tt, p') ->
  exists d', p' = with_found p (spec_ops m os).2 (mjoin (stamp_of <$> os)) d' /\
    represents d' (spec_ops m os).1.
Proof.
  induction os as [|o os IH]; intros p m l p' Ho Hr Hs Hl Hrun.
  - injection Hrun as <-. exists (ds p). split; [|done].
    rewrite with_found_nil. apply with_ds_self. naive_solver.
  - apply Forall_cons in Ho as [Ho Hos].
    apply bind_value in Hrun as ([] & p1 & H1 & Hrun).
    destruct (run_op_refines _ _ _ _ _ Ho Hr Hl H1) as (d1 & -> & Hr1).
    edestruct (IH (with_found p (spec_op m o).2 (stamp_of o) d1)) as (d2 & -> & Hr2);
      [exact Hos|exact Hr1|by left|by simpl; rewrite Hl|exact Hrun|].
    exists d2. simpl. destruct (spec_op m o) as [m1 f1]. simpl in *.
    destruct (spec_ops m1 os) as [m2 f2]. simpl in *. by rewrite with_found_app.
Qed.
End tracker.
