(* ===== verification/TrackerCorrect.v ===== *)
(** * Correctness of the tracker

    The operations of the tracker on every branch, and the refinement of the
    metadata map by the phases that run. *)
From S2P Require Import Prelude Runtime Clocks Tracker TrackerSpec.
From S2P Require Import TestingStore TestingStoreCorrect.
From stdpp Require Import vector.

#[local] Open Scope Z_scope.

(** [make_lin_metaname] accepts exactly the names 1 to [INT_MAX] and fails an
    assertion on others; the metanames are 64-bit names, recognised by
    [is_lin_metadata], no plain name is one, and distinct names have distinct
    metanames, so metadata never collides with objects or with each other. *)
Theorem make_lin_metaname_correct {S} (n : Name) (s : S) :
  (plain_name n ->
     make_lin_metaname n s = (inl (n * bigprime_lin), s) /\
     in_long (n * bigprime_lin) = true /\
     is_lin_metadata (n * bigprime_lin) = true /\ is_lin_metadata n = false) /\
  (~ plain_name n -> make_lin_metaname n s = (inr AssertFailed, s)) /\
  (forall m, n * bigprime_lin = m * bigprime_lin -> n = m).
Proof.
  split; [|split].
  - intros Hn. pose proof (make_lin_metaname_plain n s Hn) as Hm. split; [done|].
    split; [|split].
    + unfold in_long, long_min, long_max, bigprime_lin, plain_name, int_max in *.
      apply andb_true_iff. lia.
    + by apply metaname_lin.
    + by apply plain_not_metaname.
  - apply make_lin_metaname_other.
  - intros m. unfold bigprime_lin. lia.
Qed.

Section tracker.
Context {D : Type} `{TL : TrackableStoreLaws D} (my_ip : Z).

(** [accompanyWrite] outside a transaction or on a name that is neither plain
    nor metadata fails an assertion, on a weak store it throws [bad_cast], and
    for metadata it does nothing; for a plain name it leaves exactly the
    given tombstone under the metaname and every other tombstone as it was, or
    the store gives up.  Its retry loop never retries and its two last
    assertions hold. *)
Theorem accompanyWrite_correct (p : phase_state D) (name : Name) (k : Z) :
  store_ok (ds p) -> meta_clean (ds p) ->
  match accompanyWrite my_ip name k p with
  | (r, p') =>
      if negb (s_ctx p) then r = inr AssertFailed /\ p' = p
      else if negb is_strong then r = inr BadCast /\ p' = p
      else if is_lin_metadata name then r = inl tt /\ p' = p
      else if decide (plain_name name) then
        written p (name * bigprime_lin) (MkTombstone k my_ip 0) r p'
      else r = inr AssertFailed /\ p' = p
  end.
Proof. apply accompanyWrite_run. Qed.

(** [writeTombstone] needs a store, throws [TombNameCollision] when the
    nonce is taken, and otherwise adds the tombstone under its nonce and
    changes no other, or the store gives up; from then on
    [find_tombstones] returns at its first poll. *)
Theorem writeTombstone_correct (p : phase_state D) (k : Z) :
  store_ok (ds p) ->
  match writeTombstone my_ip k p with
  | (r, p') =>
      if negb (s_ctx p || persistent_datastore (trk p)) then r = inr AssertFailed /\ p' = p
      else
        r = inr SerializationFailure \/
        exists d', p' = with_ds p d' /\ store_ok d' /\
          if exists_trk k (ds p) then r = inr TombNameCollision /\ same_view tomb_at (ds p) d'
          else r = inl tt /\ wrote tomb_at (ds p) k (MkTombstone k my_ip 0) d' /\
               find_tombstones (fun _ => d') (MkTombstone k my_ip 0) 0 = Some (inl 0%nat)
  end.
Proof. apply writeTombstone_run. Qed.

(** [checkForTombstones] fails an assertion outside a transaction and for name
    1, ignores metadata, and otherwise appends exactly the tombstone stored
    under the metaname, if there is one, to what the phase has found. *)
Theorem checkForTombstones_correct (p : phase_state D) (name : Name) (l : list Tombstone) :
  store_ok (ds p) -> meta_clean (ds p) -> pending_nonces (trk_ctx p) = Some l ->
  match checkForTombstones name p with
  | (r, p') =>
      if (name =? 1) || negb (s_ctx p) then r = inr AssertFailed /\ p' = p
      else if is_lin_metadata name then r = inl tt /\ p' = p
      else if decide (plain_name name) then
        match tomb_at (ds p) (name * bigprime_lin) with
        | None => r = inl tt /\ p' = p
        | Some t => r = inr SerializationFailure \/
            r = inl tt /\ exists d', p' = with_found p [t] [] d' /\ store_ok d' /\
              same_view tomb_at (ds p) d'
        end
      else r = inr AssertFailed /\ p' = p
  end.
Proof.
  intros Hok Hc Hl. destruct (checkForTombstones name p) as [r p'] eqn:Hr.
  destruct (Z.eqb_spec name 1) as [H1|H1], (s_ctx p) eqn:Hp, (is_lin_metadata name) eqn:Hm;
    cbn [orb negb]; try (by eapply checkForTombstones_run);
    unfold checkForTombstones, has_store_context, mbind, RT_bind in Hr;
    [rewrite (proj2 (Z.eqb_eq name 1)) in Hr by done..|
     rewrite (proj2 (Z.eqb_neq name 1)) in Hr by done|
     rewrite (proj2 (Z.eqb_neq name 1)) in Hr by done|
     rewrite (proj2 (Z.eqb_neq name 1)) in Hr by done];
    cbn -[is_lin_metadata] in Hr; rewrite ?Hp in Hr; cbn -[is_lin_metadata] in Hr;
    rewrite ?Hm in Hr; by injection Hr as <- <-.
Qed.

(** [find_tombstones] returns at the first poll that sees the tombstone, if
    that is one of the first 63; otherwise doubling the pause overflows,
    which is undefined, so it never waits for longer. *)
Theorem find_tombstones_correct (hist : nat -> D) (t : Tombstone) (k : nat) :
  let waiting m := forall i, (i < m)%nat -> exists_trk (tomb_name t) (hist (k + i)%nat) = false in
  (exists m, (m <= 62)%nat /\ waiting m /\ exists_trk (tomb_name t) (hist (k + m)%nat) = true /\
     find_tombstones hist t k = Some (inl (k + m)%nat)) \/
  waiting 63%nat /\ find_tombstones hist t k = Some (inr SignedOverflow).
Proof. by apply (find_tombstones_loop_run hist t 62 0 k). Qed.

(** C38: the tracker refines the metadata map: a phase that runs to its end leaves
    every object of the store with the tombstone the map gives it, its context
    has found exactly the tombstones of the objects it read, in order, and
    every time stamp, and the tracker itself is unchanged.  Nonces of tombstones are not
    metanames, and what else the phase does with the store leaves the metanames alone
    ([op_ok]). *)
Theorem tracker_refines (os : list (trk_op D)) (i : Internals) (d : D) m p' :
  Forall op_ok os -> represents d m ->
  run_ops my_ip os (MkPhase i new_context false d) = (inl tt, p') ->
  represents (ds p') (spec_ops my_ip m os).1 /\
  trk_ctx p' = MkContext (Some (spec_ops my_ip m os).2) (mjoin (stamp_of <$> os)) /\
  trk p' = i.
Proof.
  intros Ho Hr Hrun. destruct (decide (os = [])) as [->|Hne].
  - injection Hrun as <-. done.
  - edestruct (run_ops_refines my_ip os (MkPhase i new_context false d)) as (d' & -> & Hr');
      [exact Ho|exact Hr|by right|done|exact Hrun|]. done.
Qed.

(** [commitContext] hands what the phase found to the tracker: the tombstones,
    in order, and the least clock above the old one and every time stamp; it
    fails an assertion while tombstones of an earlier phase are pending. *)
Theorem commitContext_correct (p : phase_state D) (found : list Tombstone) :
  pending_nonces (trk_ctx p) = Some found ->
  match commitContext p with
  | (r, p') =>
      match encountered_tombstones (trk p) with
      | Some (_ :: _) => r = inr AssertFailed /\ p' = p
      | _ =>
          r = inl tt /\ all_encountered_tombstones (trk p') = inl found /\
          global_min (trk p') = global_min (trk p) /\ ds p' = ds p /\
          forall c, clock_le (new_objects_max (trk p')) c <->
            clock_le (new_objects_max (trk p)) c /\ clock_le no_clock c /\
            forall ts, ts ∈ newer_objects (trk_ctx p) -> clock_le ts c
      end
  end.
Proof.
  intros Hf. unfold commitContext, mbind, RT_bind, get_state.
  destruct p as [[[[|x l]|] gm mx ps] [pn nw] sc d]; simpl in *; subst; try done;
    unfold all_encountered_tombstones; simpl; (split; [done|]); (split; [done|]);
    (split; [done|]); (split; [done|]); intros c; rewrite ends_max_lub;
    unfold ends_max_range; by rewrite foldl_max_lub.
Qed.
End tracker.

(** ** Witnesses: the testing store as a strong store *)

#[local] Instance strong_testing : TrackableStore (TestingStore typed_gmap) :=
  testing_trackable true.
#[local] Instance strong_testing_laws : TrackableStoreLaws (TestingStore typed_gmap) :=
  testing_laws true.

Definition session : Internals := MkInternals (Some []) [# 1; 1; 1; 1] [# 0; 0; 0; 0] true.
Definition start : phase_state (TestingStore typed_gmap) :=
  MkPhase session new_context true empty_store.

Lemma empty_clean : meta_clean (empty_store (M := typed_gmap)).
Proof. intros n _ Hn. vm_compute in Hn. done. Qed.

Lemma empty_represents : represents (empty_store (M := typed_gmap)) ∅.
Proof. split; [apply empty_ok|]. split; [apply empty_clean|done]. Qed.

Lemma accompanyWrite_correct_witness :
  exists p', accompanyWrite 127 7 42 start = (inl tt, p') /\
    written start (7 * bigprime_lin) (MkTombstone 42 127 0) (inl tt) p'.
Proof.
  pose proof (accompanyWrite_correct 127 start 7 42 (empty_ok (M := typed_gmap)) empty_clean) as Ha.
  eexists. split; [by vm_compute|]. exact Ha.
Defined.

Lemma writeTombstone_correct_witness :
  exists p', writeTombstone 127 42 start = (inl tt, p') /\
    exists d', p' = with_ds start d' /\ wrote tomb_at (ds start) 42 (MkTombstone 42 127 0) d'.
Proof.
  pose proof (writeTombstone_correct 127 start 42 (empty_ok (M := typed_gmap))) as Hw.
  eexists. split; [by vm_compute|]. destruct Hw as [Hw|(d' & Hp & _ & _ & Hw & _)]; [done|].
  exists d'. split; [exact Hp|exact Hw].
Defined.

(** The state after a write of object 7 *)
Definition after_write : phase_state (TestingStore typed_gmap) :=
  (accompanyWrite 127 7 42 start).2.

Lemma after_write_ok : store_ok (ds after_write) /\ meta_clean (ds after_write).
Proof.
  pose proof (accompanyWrite_run 127 start 7 42 (empty_ok (M := typed_gmap)) empty_clean) as Ha.
  unfold after_write. destruct (accompanyWrite 127 7 42 start) as [r p'] eqn:Hrun. simpl.
  destruct Ha as (d' & -> & [->|(_ & Hok & Hw)]).
  - exfalso. assert (Hs : (accompanyWrite 127 7 42 start).1 = inl tt) by by vm_compute.
    by rewrite Hrun in Hs.
  - split; [done|]. eapply wrote_clean; [apply empty_clean|done].
Qed.

Lemma checkForTombstones_correct_witness :
  exists p', checkForTombstones 7 after_write = (inl tt, p') /\
    exists d', p' = with_found after_write [MkTombstone 42 127 0] [] d' /\
      same_view tomb_at (ds after_write) d'.
Proof.
  destruct after_write_ok as [Hok Hc].
  pose proof (checkForTombstones_correct after_write 7 [] Hok Hc eq_refl) as Ha.
  eexists. split; [by vm_compute|]. destruct Ha as [Ha|(_ & d' & Hp & _ & Hv)]; [done|].
  exists d'. split; [exact Hp|exact Hv].
Defined.

Definition sample_ops : list (trk_op (TestingStore typed_gmap)) :=
  [WriteTombstone 42; AccompanyWrite 7 42; ReadRemote 7 [# 3; 0; 0; 1]; ReadRemote 9 [# 0; 2; 0; 0]].

Definition sample_run : (unit + exn) * phase_state (TestingStore typed_gmap) :=
  run_ops 127 sample_ops (MkPhase session new_context false empty_store).

Lemma tracker_refines_witness :
  sample_run.1 = inl tt /\ represents (ds sample_run.2) {[ 7 := MkTombstone 42 127 0 ]} /\
  trk_ctx sample_run.2 = MkContext (Some [MkTombstone 42 127 0]) [[# 3; 0; 0; 1]; [# 0; 2; 0; 0]] /\
  trk sample_run.2 = session.
Proof.
  assert (Hr : sample_run.1 = inl tt) by by vm_compute. split; [exact Hr|].
  assert (Hs : spec_ops 127 ∅ sample_ops = ({[ 7 := MkTombstone 42 127 0 ]}, [MkTombstone 42 127 0]))
    by by vm_compute.
  pose proof (tracker_refines 127 sample_ops session empty_store ∅ sample_run.2) as Href.
  rewrite Hs in Href. apply Href; [by repeat constructor|apply empty_represents|].
  transitivity (sample_run.1, sample_run.2); [apply surjective_pairing|by rewrite Hr].
Defined.

Lemma commitContext_correct_witness :
  match commitContext sample_run.2 with
  | (r, p') => r = inl tt /\
      all_encountered_tombstones (trk p') = inl [MkTombstone 42 127 0]
  end.
Proof.
  pose proof (commitContext_correct sample_run.2 [MkTombstone 42 127 0]) as Hc.
  assert (pending_nonces (trk_ctx sample_run.2) = Some [MkTombstone 42 127 0]) as Hp
    by by vm_compute.
  specialize (Hc Hp). destruct (commitContext sample_run.2) as [r p'].
  assert (encountered_tombstones (trk sample_run.2) = Some []) as He by by vm_compute.
  rewrite He in Hc. destruct Hc as (Hr & Ha & _). exact (conj Hr Ha).
Defined.
