(* ===== verification/ClientTracker.v ===== *)
(** * The client's tracker and the phases it runs

    Models [tracker/ClientTracker.hpp], [follows_in_sequence] of
    [mtl/mtlutils.hpp], and how clocks and tombstones travel between a client
    and the servers of its stores: [mtl/remote_interp.hpp], [run_phase] of
    [server/transaction_listener.hpp], and [common_interp] of
    [mtl/run_phase.hpp] with the phase itself reduced to what it does with the
    tracker. *)
From S2P Require Import Prelude Labels Runtime Clocks Tracker.
From stdpp Require Import functions vector.

#[local] Open Scope Z_scope.

(** ** State *)

(** [TombHolder<label>]; [observed_tombstones] is a [std::set], whose order
    compares nonces: one tombstone per nonce. *)
Record TombHolder : Type := MkHolder {
  obligations : list Tombstone;
  observed_tombstones : gmap Z Tombstone;
  global_min_clock : Clock;
  max_recent_clock : Clock
}.

Definition zero_clock : Clock := [# 0; 0; 0; 0].
Definition new_holder : TombHolder := MkHolder [] ∅ zero_clock zero_clock.

Definition reset_obligations (h : TombHolder) : TombHolder :=
  MkHolder [] (observed_tombstones h) (global_min_clock h) (max_recent_clock h).

(** [must_track]: the unqualified [<] and [==] are those of [std::array] *)
Definition must_track (h : TombHolder) : bool :=
  negb (array_lt (max_recent_clock h) (global_min_clock h)
        || array_eq (max_recent_clock h) (global_min_clock h)).

(** A client: one holder per label *)
Abbreviation client := (label -> TombHolder).

Definition new_client : client := fun _ => new_holder.

(** [follows_in_sequence], [None] is [mismatch] *)
Fixpoint follows_in_sequence (l : label) (args : list label) : option label :=
  match args with
  | arg1 :: (arg2 :: _) as args' =>
      if decide (l = arg1) then Some arg2 else follows_in_sequence l args'
  | _ => None
  end.

Section client_tracker.
(** [_ClientTracker<labels...>] *)
Context (labels : list label).

Definition client_must_track (c : client) : bool := existsb (fun l => must_track (c l)) labels.

Definition tombstones_for_phase (l : label) (c : client) : list Tombstone := obligations (c l).

Definition clear_tombstones (l : label) (c : client) : client :=
  <[l := reset_obligations (c l)]> c.

Definition update_clocks (l : label) (new_min recent_clock : Clock) (c : client) : client :=
  let h := c l in
  <[l := MkHolder (obligations h) (observed_tombstones h)
           (ends_max new_min (global_min_clock h))
           (ends_max (max_recent_clock h) recent_clock)]> c.

(** The body of the loop of [set_phase_after] *)
Definition observe (h : TombHolder) (tomb : Tombstone) : TombHolder :=
  match observed_tombstones h !! nonce tomb with
  | Some _ => h
  | None => MkHolder (obligations h ++ [tomb]) (<[nonce tomb := tomb]> (observed_tombstones h))
              (global_min_clock h) (max_recent_clock h)
  end.

Definition set_phase_after (l : label) (ptr : list Tombstone) (c : client) : client :=
  match follows_in_sequence l labels with
  | None => c
  | Some next => <[next := foldl observe (reset_obligations (c next)) ptr]> c
  end.

(** What a server sends back after a successful phase *)
Record reply : Type := MkReply {
  r_min_clock : Clock;
  r_recent_clock : Clock;
  r_tombstones : list Tombstone
}.

(** The client side of a successful phase, after the request was sent *)
Definition receive_reply (l : label) (r : reply) (c : client) : client :=
  let c := update_clocks l (r_min_clock r) (r_recent_clock r) c in
  let c := set_phase_after l (r_tombstones r) c in
  clear_tombstones l c.

(** A session: successful phases with their replies; the log holds the
    obligations that each request carried. *)
Fixpoint run_session (c : client) (phases : list (label * reply))
    : client * list (label * list Tombstone) :=
  match phases with
  | [] => (c, [])
  | (l, r) :: phases =>
      let request := tombstones_for_phase l c in
      let '(c, log) := run_session (receive_reply l r c) phases in
      (c, (l, request) :: log)
  end.

(** Everything that was asked of the store of a label *)
Definition asked (l : label) (log : list (label * list Tombstone)) : list Tombstone :=
  mjoin (snd <$> filter (fun e => e.1 = l) log).

(** ** The server *)

Section server.
Context {D : Type} `{!TrackableStore D}.
Context (my_ip : Z).

(** [label::can_abort] *)
Context (can_abort : bool).

(** The store context of a phase goes away without a commit. *)
Definition leave (in_txn : bool) (d : D) : D := if in_txn then store_abandon d else d.

(** One [common_interp_loop]: another session may have used the store first,
    the clock the [PhaseContext] reads, and what the phase does. *)
Record attempt : Type := MkAttempt {
  at_store : D -> D;
  at_clock : Clock;
  at_ops : list (trk_op D)
}.

(** [commit_phase] ends the transaction and leaves the tracker alone. *)
Definition common_interp_loop (a : attempt) (st : Internals * D)
    : (unit + exn) * (Internals * D) :=
  let '(i, d) := st in
  match updateClock (at_clock a) i with
  | (inr e, i) => (inr e, (i, at_store a d))
  | (inl _, i) =>
      match run_ops my_ip (at_ops a) (MkPhase i new_context false (at_store a d)) with
      | (inr e, p) => (inr e, (trk p, leave (s_ctx p) (ds p)))
      | (inl _, p) =>
          if s_ctx p then
            match store_commit (ds p) with
            | (inl _, d) => (inl tt, (trk p, d))
            | (inr e, d) => (inr e, (trk p, store_abandon d))
            end
          else (inl tt, (trk p, ds p))
      end
  end.

(** [catch (const SerializationFailure &)] *)
Definition is_serialization_failure (e : exn) : bool :=
  bool_decide (e = SerializationFailure \/ e = TombNameCollision).

(** [catch (std::exception &)]: those of a store, of libpqxx and [MyriaException] are *)
Definition is_std_exception (e : exn) : bool :=
  is_serialization_failure e || bool_decide (e = BadCast \/ e = SqlException \/ e = UnmatchedUse).

(** The retries of [common_interp]; [None] while it still has to retry *)
Fixpoint retry_loop (retries : list attempt) (st : Internals * D)
    : option ((unit + exn) * (Internals * D)) :=
  match retries with
  | [] => None
  | a :: retries =>
      match common_interp_loop a st with
      | (inr e, st) =>
          if is_serialization_failure e then retry_loop retries st else Some (inr e, st)
      | r => Some r
      end
  end.

Definition common_interp (first : attempt) (retries : list attempt) (st : Internals * D)
    : option ((unit + exn) * (Internals * D)) :=
  match common_interp_loop first st with
  | (inr e, st) =>
      if is_serialization_failure e then
        if can_abort then Some (inr SerializationFailure, st) else retry_loop retries st
      else Some (inr e, st)
  | r => Some r
  end.

(** The wait for the obligations of the client, in a context of its own *)
Definition wait_for_tombstones (clock : Clock) (hist : nat -> D) (ts : list Tombstone)
    (st : Internals * D) : (unit + exn) * (Internals * D) :=
  let '(i, d) := st in
  match updateClock clock i with
  | (inr e, i) => (inr e, (i, d))
  | (inl _, i) =>
      match begin_transaction d with
      | (inr e, d) => (inr e, (i, d))
      | (inl _, d) =>
          match find_all_tombstones hist 0 ts with
          | Some (inr e) => (inr e, (i, d))
          | Some (inl k) => (inl tt, (i, store_abandon (hist k)))
          | None => (inr OutOfRange, (i, d))
          end
      end
  end.

(** [run_phase]: a reply, or the byte that says that it failed, or a crash *)
Inductive answer : Type :=
| Success (r : reply)
| Failure
| Crash (e : exn).

Definition run_phase (clock : Clock) (hist : nat -> D) (tombstones_to_find : list Tombstone)
    (first : attempt) (retries : list attempt) (last_clock : Clock) (st : Internals * D)
    : option (answer * (Internals * D)) :=
  let failed e st := Some (if is_std_exception e then Failure else Crash e, st) in
  match wait_for_tombstones clock hist tombstones_to_find st with
  | (inr e, st) => failed e st
  | (inl _, (i, d)) =>
      match common_interp first retries (set_persistent_store i, d) with
      | None => None
      | Some (inr e, st) => failed e st
      | Some (inl _, (i, d)) =>
          match updateClock last_clock i with
          | (inr e, i) => Some (Crash e, (i, d))
          | (inl _, i) =>
              match all_encountered_tombstones i with
              | inl ts => Some (Success (MkReply (global_min i) (new_objects_max i) ts), (i, d))
              | inr e => Some (Crash e, (i, d))
              end
          end
      end
  end.
End server.

(** ** Client and servers together *)

(** A client with one session at the store of every label *)
Record system (D : Type) : Type := MkSystem {
  sys_client : client;
  sys_server : label -> Internals * D
}.
#[global] Arguments MkSystem {D} sys_client sys_server.
#[global] Arguments sys_client {D} s.
#[global] Arguments sys_server {D} s.

Section system.
Context {D : Type} (stores : label -> TrackableStore D) (my_ip : label -> Z).
Context (can_abort : label -> bool).

Definition start_system (stored_data : label -> D) : system D :=
  MkSystem new_client (fun l => (new_tracker, stored_data l)).

(** [remote_interp] of one phase, and other sessions' use of the stores *)
Inductive system_step : system D -> system D -> Prop :=
| step_success l clock hist first retries last_clock r st c servers :
    @run_phase D (stores l) (my_ip l) (can_abort l) clock hist (tombstones_for_phase l c)
      first retries last_clock (servers l) = Some (Success r, st) ->
    system_step (MkSystem c servers) (MkSystem (receive_reply l r c) (<[l := st]> servers))
| step_failure l clock hist first retries last_clock st c servers :
    @run_phase D (stores l) (my_ip l) (can_abort l) clock hist (tombstones_for_phase l c)
      first retries last_clock (servers l) = Some (Failure, st) ->
    system_step (MkSystem c servers) (MkSystem c (<[l := st]> servers))
| step_store l d c servers :
    system_step (MkSystem c servers) (MkSystem c (<[l := ((servers l).1, d)]> servers)).
End system.
End client_tracker.
Arguments MkAttempt {D} at_store at_clock at_ops.
Arguments at_store {D} a.
Arguments at_clock {D} a.
Arguments at_ops {D} a.
