(* ===== verification/ClientTrackerCorrect.v ===== *)
(** * What clients learn from their servers

    Properties of the client's tracker for whatever the servers send, and of
    the client and its servers together. *)
From S2P Require Import Prelude Labels Runtime Clocks Tracker ClientTracker.
From S2P Require Import TestingStore TestingStoreCorrect.
From stdpp Require Import functions vector.

#[local] Open Scope Z_scope.

(** ** When a client tracks *)

Lemma lex_lt_spec (a b : list Z) : length a = length b ->
  lex_lt a b = true <-> exists i x y, a !! i = Some x /\ b !! i = Some y /\ x < y /\
    take i a = take i b.
Proof.
  revert b. induction a as [|x a IH]; intros [|y b] Hl; simpl in *; simplify_eq.
  - split; [done|]. intros (i & x & y & Hx & _). by rewrite lookup_nil in Hx.
  - destruct (Z.ltb_spec x y).
    { split; [intros _; by exists 0%nat, x, y|done]. }
    destruct (Z.ltb_spec y x).
    { split; [done|]. intros ([|i] & x' & y' & Hx & Hy & Hlt & Ht); simpl in *; simplify_eq; lia. }
    rewrite IH by done. split.
    + intros (i & x' & y' & Hx & Hy & Hlt & Ht). exists (S i), x', y'. simpl.
      assert (x = y) as -> by lia. by rewrite Ht.
    + intros ([|i] & x' & y' & Hx & Hy & Hlt & Ht); simpl in *; simplify_eq; [lia|].
      by exists i, x', y'.
Qed.

Lemma lex_lt_total (a b : list Z) : length a = length b ->
  negb (lex_lt a b || bool_decide (a = b)) = lex_lt b a.
Proof.
  intros Hl. rewrite <- is_same_loop_eq by done. revert b Hl.
  induction a as [|x a IH]; intros [|y b] Hl; simpl in *; simplify_eq; [done|].
  destruct (Z.ltb_spec x y), (Z.ltb_spec y x), (Z.eqb_spec x y); try lia; try done. by apply IH.
Qed.

Lemma array_eq_list {n} (a b : vec Z n) :
  array_eq a b = bool_decide (vec_to_list a = vec_to_list b).
Proof. apply bool_decide_ext. split; [by intros ->|apply vec_to_list_inj2]. Qed.

(** [must_track] compares clocks lexicographically, since its [<] is that of
    [std::array] and not that of [ends]: it holds exactly when the first
    component in which the two clocks differ is larger in the recent clock. *)
Theorem must_track_correct (h : TombHolder) :
  must_track h = true <->
  exists i x y, vec_to_list (global_min_clock h) !! i = Some x /\
    vec_to_list (max_recent_clock h) !! i = Some y /\ x < y /\
    take i (vec_to_list (global_min_clock h)) = take i (vec_to_list (max_recent_clock h)).
Proof.
  unfold must_track, array_lt. rewrite array_eq_list, lex_lt_total, lex_lt_spec; [done|..];
    by rewrite !length_vec_to_list.
Qed.

(** An object newer than what every store has reached, in the second group,
    does not make the client track. *)
Example must_track_misses :
  let h := MkHolder [] ∅ [# 1; 0; 0; 0] [# 0; 5; 0; 0] in
  must_track h = false /\ ends_lt (max_recent_clock h) (global_min_clock h) = inl false.
Proof. by vm_compute. Qed.

(** ** What the tracker operations of a phase do not touch *)

Section frames.
Context {D : Type} `{!TrackableStore D} (my_ip : Z).

Lemma frames_store_context : frames trk (store_context : RT (phase_state D) unit).
Proof.
  intros p. unfold store_context. destruct (s_ctx p); [done|].
  by destruct (begin_transaction (ds p)) as [[[]|e] d].
Qed.

Lemma frames_on_store {A} (m : RT D A) : frames trk (on_store m).
Proof. intros p. unfold on_store. by destruct (m (ds p)). Qed.

Lemma frames_trackable {A} (m : RT D A) : frames trk (trackable m).
Proof. apply frames_bind; [apply frames_store_context|intros []; apply frames_on_store]. Qed.

Lemma frames_has_store_context : frames trk (has_store_context : RT (phase_state D) bool).
Proof. done. Qed.

Lemma frames_push_pending t : frames trk (push_pending t : RT (phase_state D) unit).
Proof. intros p. unfold push_pending. by destruct (pending_nonces (trk_ctx p)). Qed.

Lemma frames_record ts : frames trk (record_timestamp ts : RT (phase_state D) unit).
Proof. done. Qed.

Lemma frames_if {A} (b : bool) (m n : RT (phase_state D) A) :
  frames trk m -> frames trk n -> frames trk (if b then m else n).
Proof. by destruct b. Qed.

Lemma frames_exists n : frames trk (exists_op n : RT (phase_state D) bool).
Proof. apply frames_trackable. Qed.

Lemma frames_metaname name : frames trk (make_lin_metaname name : RT (phase_state D) Name).
Proof. unfold make_lin_metaname, make_metaname. repeat (apply frames_bind; [auto with frames|intros ?]). done. Qed.
End frames.

#[export] Hint Resolve frames_store_context frames_on_store frames_trackable
  frames_has_store_context frames_push_pending frames_record frames_if frames_exists
  frames_metaname : frames.

Ltac frames := repeat first
  [ progress intros | apply frames_bind | solve [auto with frames] | apply frames_if ].

Section phases.
Context {D : Type} `{!TrackableStore D} (my_ip : Z).

Lemma frames_write_lin name k : frames trk (write_lin_metadata (D := D) my_ip name k).
Proof. unfold write_lin_metadata. frames. Qed.

Lemma frames_attempts n name k : frames trk (accompany_attempts (D := D) my_ip n name k).
Proof.
  induction n as [|n IH]; simpl; [done|]. apply frames_try.
  - apply frames_bind; [apply frames_write_lin|done].
  - intros e m. case_decide; intros [= <-]. done.
Qed.

Lemma frames_run_op o : frames trk (run_op (D := D) my_ip o).
Proof.
  destruct o as [name ts|k|name k|m]; simpl.
  - unfold checkForTombstones. frames.
  - unfold writeTombstone. frames.
  - unfold accompanyWrite. pose proof (frames_attempts 10 name k). pose proof frames_write_lin.
    frames.
  - frames.
Qed.

Lemma frames_run_ops os : frames trk (run_ops (D := D) my_ip os).
Proof.
  induction os as [|o os IH]; simpl; [done|]. apply frames_bind; [apply frames_run_op|done].
Qed.
End phases.

(** ** Trackers that have nothing to tell *)

Definition quiet (i : Internals) : Prop :=
  encountered_tombstones i = Some [] /\ new_objects_max i = zero_clock /\
  clock_le zero_clock (global_min i).

Lemma updateClock_quiet newc i : quiet i -> quiet (updateClock newc i).2.
Proof.
  intros Hq. unfold updateClock. destruct (prec (global_min i) newc) as [[]|e] eqn:Hp; [|done..].
  apply prec_true in Hp as [Hle _]. destruct Hq as (He & Hm & Hg). split; [done|].
  split; [done|]. simpl. by etrans.
Qed.

Section server.
Context {D : Type} `{!TrackableStore D} (my_ip : Z) (can_abort : bool).

Lemma common_interp_loop_quiet a st : quiet st.1 -> quiet (common_interp_loop my_ip a st).2.1.
Proof.
  destruct st as [i d]. simpl. intros Hq. unfold common_interp_loop.
  pose proof (updateClock_quiet (at_clock a) i Hq) as Hu.
  destruct (updateClock (at_clock a) i) as [[[]|e] i1]; simpl in *; [|done].
  pose proof (frames_run_ops my_ip (at_ops a) (MkPhase i1 new_context false (at_store a d))) as Hf.
  destruct (run_ops _ _ _) as [[[]|e] p]; simpl in *; [|by rewrite Hf].
  destruct (s_ctx p); simpl; [|by rewrite Hf].
  destruct (store_commit (ds p)) as [[b|e] d']; simpl; by rewrite Hf.
Qed.

Lemma retry_loop_quiet retries : forall st r st', quiet st.1 ->
  retry_loop my_ip retries st = Some (r, st') -> quiet st'.1.
Proof.
  induction retries as [|a retries IH]; intros st r st' Hq Hr; simpl in Hr; [done|].
  pose proof (common_interp_loop_quiet a st Hq) as Hq1.
  destruct (common_interp_loop my_ip a st) as [[[]|e] st1]; simpl in *; [by simplify_eq|].
  destruct (is_serialization_failure e); [by eapply IH|by simplify_eq].
Qed.

Lemma common_interp_quiet first retries st r st' : quiet st.1 ->
  common_interp my_ip can_abort first retries st = Some (r, st') -> quiet st'.1.
Proof.
  intros Hq Hr. unfold common_interp in Hr.
  pose proof (common_interp_loop_quiet first st Hq) as Hq1.
  destruct (common_interp_loop my_ip first st) as [[[]|e] st1]; simpl in *; [by simplify_eq|].
  destruct (is_serialization_failure e); [|by simplify_eq].
  destruct can_abort; [by simplify_eq|]. by eapply retry_loop_quiet.
Qed.

Lemma wait_quiet clock hist ts st : quiet st.1 ->
  quiet (wait_for_tombstones clock hist ts st).2.1.
Proof.
  destruct st as [i d]. simpl. intros Hq. unfold wait_for_tombstones.
  pose proof (updateClock_quiet clock i Hq) as Hu.
  destruct (updateClock clock i) as [[[]|e] i1]; simpl in *; [|done].
  destruct (begin_transaction d) as [[[]|e] d1]; simpl; [|done].
  by destruct (find_all_tombstones hist 0 ts) as [[k|e]|].
Qed.

(** A reply with no news *)
Definition no_news (r : reply) : Prop :=
  clock_le zero_clock (r_min_clock r) /\ r_recent_clock r = zero_clock /\ r_tombstones r = [].

Lemma run_phase_quiet clock hist ts first retries last_clock st a st' : quiet st.1 ->
  run_phase my_ip can_abort clock hist ts first retries last_clock st = Some (a, st') ->
  quiet st'.1 /\ forall r, a = Success r -> no_news r.
Proof.
  intros Hq Hr. unfold run_phase in Hr. pose proof (wait_quiet clock hist ts st Hq) as Hq1.
  destruct (wait_for_tombstones clock hist ts st) as [[[]|e] [i d]]; simpl in *;
    [|injection Hr as <- <-; split; [done|intros r; by destruct (is_std_exception e)]].
  destruct (common_interp my_ip can_abort first retries (set_persistent_store i, d))
    as [[[[]|e] [i2 d2]]|] eqn:Hc; [| |done].
  - pose proof (common_interp_quiet _ _ (set_persistent_store i, d) _ _ Hq1 Hc) as Hq2. simpl in Hq2.
    pose proof (updateClock_quiet last_clock i2 Hq2) as Hq3.
    destruct (updateClock last_clock i2) as [[[]|e] i3]; simpl in *;
      [|by injection Hr as <- <-]. destruct Hq3 as (He & Hm & Hg).
    unfold all_encountered_tombstones in Hr. rewrite He in Hr. injection Hr as <- <-.
    split; [by split|]. intros r [= <-]. split; [done|]. split; [|done]. simpl. done.
  - pose proof (common_interp_quiet _ _ (set_persistent_store i, d) _ _ Hq1 Hc) as Hq2. injection Hr as <- <-.
    split; [done|]. intros r. by destruct (is_std_exception e).
Qed.
End server.

(** ** A client that hears no news *)

Definition idle (h : TombHolder) : Prop :=
  obligations h = [] /\ max_recent_clock h = zero_clock /\ clock_le zero_clock (global_min_clock h).

Lemma idle_untracked h : idle h -> must_track h = false.
Proof.
  intros (_ & Hm & Hg). unfold must_track, array_lt. rewrite Hm.
  apply negb_false_iff, orb_true_iff. apply clock_le_list, lex_lt_le in Hg as [Hg|Hg]; [by left|].
  right. rewrite array_eq_list. by apply bool_decide_eq_true.
Qed.

Lemma ends_max_zero : ends_max zero_clock zero_clock = zero_clock.
Proof. by vm_compute. Qed.

Lemma set_phase_after_none labels l c : (forall l', idle (c l')) ->
  forall l', idle (set_phase_after labels l [] c l').
Proof.
  intros Hc l'. unfold set_phase_after. destruct (follows_in_sequence l labels) as [nx|]; [|done].
  simpl. destruct (decide (l' = nx)) as [->|Hne].
  - rewrite fn_lookup_insert. by destruct (Hc nx) as (_ & Hm & Hg).
  - by rewrite fn_lookup_insert_ne.
Qed.

Lemma receive_no_news labels l r c : no_news r -> (forall l', idle (c l')) ->
  forall l', idle (receive_reply labels l r c l').
Proof.
  intros (Hmin & Hrec & Ht) Hc. unfold receive_reply. rewrite Ht.
  assert (Hu : forall l', idle (update_clocks l (r_min_clock r) (r_recent_clock r) c l')).
  { intros l'. unfold update_clocks. destruct (decide (l' = l)) as [->|Hne];
      [rewrite fn_lookup_insert|by rewrite fn_lookup_insert_ne].
    destruct (Hc l) as (Ho & Hm & Hg). split; [done|]. simpl. rewrite Hm, Hrec. split; [done|].
    etrans; [exact Hmin|apply ends_max_l]. }
  intros l'. pose proof (set_phase_after_none labels l _ Hu) as Hs.
  unfold clear_tombstones. destruct (decide (l' = l)) as [->|Hne];
    [rewrite fn_lookup_insert|by rewrite fn_lookup_insert_ne].
  by destruct (Hs l) as (_ & Hm & Hg).
Qed.

Section system.
Context {D : Type} (labels : list label) (stores : label -> TrackableStore D).
Context (my_ip : label -> Z) (can_abort : label -> bool).

(** No tracker of the system has anything to tell. *)
Definition silent (s : system D) : Prop :=
  (forall l, idle (sys_client s l)) /\ forall l, quiet (sys_server s l).1.

Lemma start_silent stored_data : silent (start_system stored_data).
Proof. by split. Qed.

Lemma insert_quiet (servers : label -> Internals * D) l st :
  (forall l', quiet (servers l').1) -> quiet st.1 ->
  forall l', quiet ((<[l := st]> servers) l').1.
Proof.
  intros Hs Hst l'. destruct (decide (l' = l)) as [->|Hne].
  - by rewrite fn_lookup_insert.
  - by rewrite fn_lookup_insert_ne.
Qed.

Lemma step_silent s s' :
  system_step labels stores my_ip can_abort s s' -> silent s -> silent s'.
Proof.
  intros Hstep [Hc Hq]. destruct Hstep as [l clock hist first retries lc r st c servers Hr
    |l clock hist first retries lc st c servers Hr|l d c servers]; simpl in *.
  - destruct (run_phase_quiet _ _ _ _ _ _ _ _ _ _ _ (Hq l) Hr) as [Hst Hn].
    split; simpl; [apply receive_no_news; [by apply Hn|done]|by apply insert_quiet].
  - destruct (run_phase_quiet _ _ _ _ _ _ _ _ _ _ _ (Hq l) Hr) as [Hst _].
    split; simpl; [done|by apply insert_quiet].
  - split; simpl; [done|]. apply insert_quiet; [done|apply Hq].
Qed.

(** C39: because no phase ever commits its tracking context, the trackers of a
    client and its servers stay silent however they run: servers never report
    a tombstone or a recent time stamp, so the client never has an obligation
    and never chooses the tracked transaction. *)
Theorem tracking_never_starts (stored_data : label -> D) (s : system D) :
  rtc (system_step labels stores my_ip can_abort) (start_system stored_data) s ->
  client_must_track labels (sys_client s) = false /\
  (forall l, tombstones_for_phase l (sys_client s) = []) /\
  (forall l, all_encountered_tombstones (sys_server s l).1 = inl [] /\
     new_objects_max (sys_server s l).1 = zero_clock).
Proof.
  intros Hs.
  assert (Hsil : silent s).
  { revert Hs. apply rtc_ind_r; [apply start_silent|]. intros s1 s2 _ Hstep. by apply step_silent. }
  destruct Hsil as [Hc Hq]. split; [|split].
  - apply not_true_iff_false. unfold client_must_track. rewrite existsb_exists.
    intros (l & _ & Hl). by rewrite idle_untracked in Hl.
  - intros l. by destruct (Hc l).
  - intros l. destruct (Hq l) as (He & Hm & _). unfold all_encountered_tombstones. by rewrite He.
Qed.
End system.

(** ** Obligations, for any replies *)

Section sessions.
Context (labels : list label).

(** Nonces that were observed *)
Definition observed (h : TombHolder) (k : Z) : Prop := is_Some (observed_tombstones h !! k).

Definition nonces (ts : list Tombstone) : list Z := nonce <$> ts.

Lemma follows_cons l a b args : follows_in_sequence l (a :: b :: args) =
  if decide (l = a) then Some b else follows_in_sequence l (b :: args).
Proof. done. Qed.

Lemma follows_in l args x : follows_in_sequence l args = Some x -> l ∈ args /\ x ∈ tail args.
Proof.
  induction args as [|a args IH]; [done|]. destruct args as [|b args]; [done|].
  rewrite follows_cons. case_decide as Hl.
  - intros [= <-]. subst. split; simpl; apply elem_of_cons; by left.
  - intros Hx. destruct (IH Hx) as [? Ht]. split; [by right|]. simpl. right. done.
Qed.

Lemma follows_inj args : NoDup args -> forall l l' x,
  follows_in_sequence l args = Some x -> follows_in_sequence l' args = Some x -> l = l'.
Proof.
  induction args as [|a args IH]; [done|]. destruct args as [|b args]; [done|].
  intros Hnd l l' x. rewrite !follows_cons. apply NoDup_cons in Hnd as [Ha Hnd].
  assert (Hb : forall k, follows_in_sequence k (b :: args) = Some b -> False).
  { intros k Hk. apply follows_in in Hk as [_ Hk]. by apply NoDup_cons in Hnd as [? _]. }
  repeat case_decide; subst; intros; simplify_eq; [done|by destruct (Hb l')|by destruct (Hb l)|by eapply IH].
Qed.

Lemma follows_ne args : NoDup args -> forall l, follows_in_sequence l args <> Some l.
Proof.
  induction args as [|a args IH]; [done|]. destruct args as [|b args]; [done|].
  intros Hnd l. rewrite follows_cons. apply NoDup_cons in Hnd as [Ha Hnd].
  case_decide; [|by apply IH]. subst. intros [= ->]. apply Ha. by left.
Qed.

(** *** One reply *)

(** The tombstones [set_phase_after] passes on: those whose nonces are new *)
Fixpoint news (known : gmap Z Tombstone) (ts : list Tombstone) : list Tombstone :=
  match ts with
  | [] => []
  | t :: ts =>
      match known !! nonce t with
      | Some _ => news known ts
      | None => t :: news (<[nonce t := t]> known) ts
      end
  end.

Lemma observe_all ts : forall h,
  obligations (foldl observe h ts) = obligations h ++ news (observed_tombstones h) ts /\
  (forall k, observed (foldl observe h ts) k <-> observed h k \/ k ∈ nonces ts) /\
  global_min_clock (foldl observe h ts) = global_min_clock h /\
  max_recent_clock (foldl observe h ts) = max_recent_clock h.
Proof.
  induction ts as [|t ts IH]; intros h; simpl.
  - rewrite app_nil_r. repeat split; try done; [by left|]. intros [?|Hk]; [done|].
    by apply elem_of_nil in Hk.
  - destruct (IH (observe h t)) as (Ho & Hk & Hg & Hm). rewrite Ho, Hg, Hm. clear IH Ho Hg Hm.
    setoid_rewrite Hk. unfold observe, observed, nonces.
    destruct (observed_tombstones h !! nonce t) as [t'|] eqn:Ht; simpl.
    + split; [done|]. split; [|done]. intros k. rewrite elem_of_cons. naive_solver.
    + rewrite <- app_assoc. split; [done|]. split; [|done]. intros k. rewrite elem_of_cons.
      destruct (decide (k = nonce t)) as [->|Hne];
        [rewrite lookup_insert_eq; naive_solver|rewrite lookup_insert_ne by done; naive_solver].
Qed.

Lemma news_spec ts : forall known,
  NoDup (nonces (news known ts)) /\
  (forall t, t ∈ news known ts -> t ∈ ts /\ known !! nonce t = None) /\
  (forall k, k ∈ nonces ts -> is_Some (known !! k) \/ k ∈ nonces (news known ts)).
Proof.
  induction ts as [|t ts IH]; intros known; simpl.
  - split; [constructor|]. split; [intros t Ht|intros k Hk]; [by apply elem_of_nil in Ht|].
    by apply elem_of_nil in Hk.
  - destruct (known !! nonce t) as [t'|] eqn:Ht.
    + destruct (IH known) as (Hnd & Hn & Hk). split; [done|]. split.
      * intros u Hu. destruct (Hn u Hu). split; [by right|done].
      * intros k [->|Hkt]%elem_of_cons; [left; by rewrite Ht|by apply Hk].
    + destruct (IH (<[nonce t := t]> known)) as (Hnd & Hn & Hk). unfold nonces in *. simpl.
      split; [apply NoDup_cons; split; [|done]|split].
      * intros (u & Hnu & Hu)%list_elem_of_fmap. destruct (Hn u Hu) as [_ Hl].
        rewrite <- Hnu, lookup_insert_eq in Hl. done.
      * intros u [->|Hu]%elem_of_cons; [split; [by left|done]|]. destruct (Hn u Hu) as [? Hl].
        split; [by right|]. apply lookup_insert_None in Hl. tauto.
      * intros k [->|Hkt]%elem_of_cons; [right; by left|]. destruct (Hk k Hkt) as [Hs|Hs].
        -- destruct (decide (k = nonce t)) as [->|Hne]; [right; by left|].
           rewrite lookup_insert_ne in Hs by done. by left.
        -- right. by right.
Qed.

Lemma set_phase_after_holder l x c ts : follows_in_sequence l labels = Some x ->
  obligations (set_phase_after labels l ts c x) = news (observed_tombstones (c x)) ts /\
  (forall k, observed (set_phase_after labels l ts c x) k <-> observed (c x) k \/ k ∈ nonces ts).
Proof.
  intros Hx. unfold set_phase_after. rewrite Hx, fn_lookup_insert.
  destruct (observe_all ts (reset_obligations (c x))) as (Ho & Hk & _). by rewrite Ho.
Qed.

Lemma set_phase_after_other l x c ts : follows_in_sequence l labels <> Some x ->
  set_phase_after labels l ts c x = c x.
Proof.
  intros Hx. unfold set_phase_after. destruct (follows_in_sequence l labels) as [nx|]; [|done].
  rewrite fn_lookup_insert_ne; [done|]. congruence.
Qed.

Lemma update_clocks_holder l a b c x :
  obligations (update_clocks l a b c x) = obligations (c x) /\
  observed_tombstones (update_clocks l a b c x) = observed_tombstones (c x).
Proof.
  unfold update_clocks. destruct (decide (x = l)) as [->|Hne].
  - by rewrite fn_lookup_insert.
  - by rewrite fn_lookup_insert_ne.
Qed.

(** *** A session, seen from one label [x] and the label [p] before it *)

Context (p x : label) (Hnd : NoDup labels) (Hpx : follows_in_sequence p labels = Some x).

Lemma receive_reply_holder l r c :
  obligations (receive_reply labels l r c x) =
    (if decide (l = p) then news (observed_tombstones (c x)) (r_tombstones r)
     else if decide (l = x) then [] else obligations (c x)) /\
  forall k, observed (receive_reply labels l r c x) k <->
    observed (c x) k \/ l = p /\ k ∈ nonces (r_tombstones r).
Proof.
  unfold receive_reply. set (c1 := update_clocks _ _ _ _).
  destruct (update_clocks_holder l (r_min_clock r) (r_recent_clock r) c x) as [Ho Hk].
  fold c1 in Ho, Hk.
  assert (Hpne : p <> x) by (intros ->; by eapply follows_ne).
  unfold clear_tombstones, observed. case_decide as Hlp; [subst l|].
  - rewrite fn_lookup_insert_ne by done.
    destruct (set_phase_after_holder p x c1 (r_tombstones r) Hpx) as [Hs Hso].
    rewrite Hs, Hk. split; [done|]. intros k. unfold observed in Hso. rewrite Hso, Hk. tauto.
  - assert (Hne : follows_in_sequence l labels <> Some x).
    { intros Hl. apply Hlp. by eapply (follows_inj labels Hnd). }
    case_decide as Hlx; [subst l; rewrite fn_lookup_insert|rewrite fn_lookup_insert_ne by done];
      simpl; rewrite set_phase_after_other, Hk by done; split; try done; tauto.
Qed.

Lemma run_session_cons c l r phases :
  (run_session labels c ((l, r) :: phases)).2 =
  (l, tombstones_for_phase l c) :: (run_session labels (receive_reply labels l r c) phases).2.
Proof. simpl. by destruct (run_session _ _ phases). Qed.

Lemma asked_cons l ts log :
  asked x ((l, ts) :: log) = if decide (l = x) then ts ++ asked x log else asked x log.
Proof. unfold asked. rewrite filter_cons. simpl. by case_decide. Qed.

Definition requested (c : client) (phases : list (label * reply)) : list Tombstone :=
  asked x (run_session labels c phases).2.

Lemma requested_cons c l r phases : requested c ((l, r) :: phases) =
  (if decide (l = x) then obligations (c x) else []) ++
  requested (receive_reply labels l r c) phases.
Proof.
  unfold requested. rewrite run_session_cons, asked_cons. case_decide as Hl; [|done].
  by rewrite Hl.
Qed.

(** Obligations are new when they are taken on. *)
Definition owed (h : TombHolder) : Prop :=
  NoDup (nonces (obligations h)) /\ forall t, t ∈ obligations h -> observed h (nonce t).

Lemma receive_owed l r c : owed (c x) -> owed (receive_reply labels l r c x).
Proof.
  intros [Hd Hobs]. destruct (receive_reply_holder l r c) as [Ho Hk]. unfold owed. rewrite Ho.
  setoid_rewrite Hk. repeat case_decide; subst.
  - destruct (news_spec (r_tombstones r) (observed_tombstones (c x))) as (Hn & Ht & _).
    split; [done|]. intros t Hin. right. split; [done|]. apply list_elem_of_fmap_2.
    by apply Ht.
  - split; [constructor|]. intros t Hin. by apply elem_of_nil in Hin.
  - split; [done|]. intros t Hin. left. by apply Hobs.
Qed.

Lemma requested_spec phases : forall c, owed (c x) ->
  NoDup (nonces (requested c phases)) /\
  forall t, t ∈ requested c phases ->
    t ∈ obligations (c x) \/
    ~ observed (c x) (nonce t) /\ exists r, (p, r) ∈ phases /\ t ∈ r_tombstones r.
Proof.
  induction phases as [|[l r] phases IH]; intros c Hc.
  - split; [constructor|]. intros t Ht. by apply elem_of_nil in Ht.
  - destruct (IH _ (receive_owed l r c Hc)) as [Hd Ht]. rewrite requested_cons.
    destruct (receive_reply_holder l r c) as [Ho Hk]. rewrite Ho in Ht.
    setoid_rewrite elem_of_cons.
    assert (Hpne : p <> x) by (intros ->; by eapply follows_ne).
    destruct (decide (l = x)) as [->|Hlx]; [|simpl].
    + rewrite decide_False in Ht by done.
      destruct Hc as [Hcd Hco]. unfold nonces in *. rewrite fmap_app. split.
      * apply NoDup_app. split; [done|]. split; [|done].
        intros k (t & -> & Hin)%list_elem_of_fmap (t' & Heq & Hin')%list_elem_of_fmap.
        destruct (Ht t' Hin') as [Hn|[Hn _]]; [by apply elem_of_nil in Hn|]. apply Hn, Hk.
        left. rewrite <- Heq. by apply Hco.
      * intros t [Hin|Hin]%elem_of_app; [by left|].
        destruct (Ht t Hin) as [Hn|(Hn & r' & Hr' & ?)]; [by apply elem_of_nil in Hn|].
        right. split; [|by exists r'; auto]. intros Hob. apply Hn, Hk. by left.
    + split; [done|]. intros t Hin. destruct (Ht t Hin) as [Hn|(Hn & r' & Hr' & Htr)].
      * destruct (decide (l = p)) as [->|Hlp].
        -- right. destruct (news_spec (r_tombstones r) (observed_tombstones (c x))) as (_ & Hs & _).
           destruct (Hs t Hn) as [Hrt Hnone]. split; [|by exists r; auto].
           unfold observed. rewrite Hnone. by intros [].
        -- by left.
      * right. split; [|by exists r'; auto]. intros Hob. apply Hn, Hk. by left.
Qed.

(** Between two phases of [p] there is one of [x], and one after the last. *)
Fixpoint paired (pending : bool) (phases : list (label * reply)) : bool :=
  match phases with
  | [] => negb pending
  | (l, _) :: phases =>
      if decide (l = p) then negb pending && paired true phases
      else if decide (l = x) then paired false phases
      else paired pending phases
  end.

Lemma requested_all phases : forall c pending, paired pending phases = true ->
  (pending = true -> forall t, t ∈ obligations (c x) -> t ∈ requested c phases) /\
  (forall r k, (p, r) ∈ phases -> k ∈ nonces (r_tombstones r) ->
     observed (c x) k \/ k ∈ nonces (requested c phases)).
Proof.
  assert (Hpne : p <> x) by (intros ->; by eapply follows_ne).
  induction phases as [|[l r] phases IH]; intros c pending Hpair; simpl in Hpair.
  - split; [by destruct pending|]. intros r k Hr. by apply elem_of_nil in Hr.
  - rewrite requested_cons. destruct (receive_reply_holder l r c) as [Ho Hk].
    unfold nonces in *. setoid_rewrite fmap_app. setoid_rewrite elem_of_app.
    setoid_rewrite elem_of_cons. destruct (decide (l = p)) as [->|Hlp].
    + apply andb_true_iff in Hpair as [Hpend Hpair]. apply negb_true_iff in Hpend as ->.
      split; [done|]. destruct (IH (receive_reply labels p r c) true Hpair) as [IH1 IH2].
      rewrite Ho in IH1.
      destruct (news_spec (r_tombstones r) (observed_tombstones (c x))) as (_ & _ & Hs).
      assert (Hr : forall k, k ∈ nonces (r_tombstones r) -> observed (c x) k \/
                k ∈ nonce <$> requested (receive_reply labels p r c) phases).
      { intros k Hkr. destruct (Hs k Hkr) as [|(t & -> & Ht)%list_elem_of_fmap]; [by left|].
        right. apply list_elem_of_fmap_2. by apply IH1. }
      intros r' k [[= ->]|Hr'] Hkr; [destruct (Hr k Hkr); auto|].
      destruct (IH2 r' k Hr' Hkr) as [Hob|]; [|auto]. apply Hk in Hob as [|[_ Hkr']]; [auto|].
      destruct (Hr k Hkr'); auto.
    + assert (Hlater : forall pend, paired pend phases = true -> forall r' k,
        (p, r') = (l, r) \/ (p, r') ∈ phases -> k ∈ nonce <$> r_tombstones r' ->
        observed (c x) k \/ k ∈ nonce <$> requested (receive_reply labels l r c) phases).
      { intros pend Hpd r' k [[= ->]|Hr'] Hkr; [done|].
        destruct (IH (receive_reply labels l r c) pend Hpd) as [_ IH2].
        destruct (IH2 r' k Hr' Hkr) as [Hob|]; [|auto]. apply Hk in Hob as [|[-> _]]; [auto|done]. }
      destruct (decide (l = x)) as [->|Hlx].
      * split; [by auto|]. intros r' k Hr' Hkr. destruct (Hlater _ Hpair r' k Hr' Hkr); auto.
      * split; [|intros r' k Hr' Hkr; destruct (Hlater _ Hpair r' k Hr' Hkr); auto].
        intros -> t Ht. right. destruct (IH (receive_reply labels l r c) true Hpair) as [IH1 _].
        apply IH1; [done|]. by rewrite Ho.
Qed.
End sessions.

(** ** Properties *)

(** After a phase, the next label's obligations are exactly the tombstones
    received whose nonce was not observed before, each nonce once; all of them
    count as observed from then on, and no other label is affected. *)
Theorem set_phase_after_correct labels l next (c : client) (ts : list Tombstone) :
  follows_in_sequence l labels = Some next ->
  let c' := set_phase_after labels l ts c in
  NoDup (nonces (obligations (c' next))) /\
  (forall t, t ∈ obligations (c' next) -> t ∈ ts /\ ~ observed (c next) (nonce t)) /\
  (forall k, k ∈ nonces ts -> observed (c next) k \/ k ∈ nonces (obligations (c' next))) /\
  (forall k, observed (c' next) k <-> observed (c next) k \/ k ∈ nonces ts) /\
  forall l', l' <> next -> c' l' = c l'.
Proof.
  intros Hl c'. destruct (set_phase_after_holder labels l next c ts Hl) as [Ho Hk].
  destruct (news_spec ts (observed_tombstones (c next))) as (Hnd & Hn & Hs).
  subst c'. rewrite Ho. split; [done|]. split; [|split; [done|split; [done|]]].
  - intros t Ht. destruct (Hn t Ht) as [? Hnone]. split; [done|].
    unfold observed. rewrite Hnone. by intros [].
  - intros l' Hl'. apply set_phase_after_other. congruence.
Qed.

(** over a whole session no tombstone is asked of a store twice, and only
    tombstones that a phase of the label before it has reported are; when every
    phase of that label is followed by one of the next label before its own
    next, every tombstone it reports is asked exactly once. *)
Theorem session_asks_once labels p x (phases : list (label * reply)) :
  NoDup labels -> follows_in_sequence p labels = Some x ->
  let ts := asked x (run_session labels new_client phases).2 in
  NoDup (nonces ts) /\
  (forall t, t ∈ ts -> exists r, (p, r) ∈ phases /\ t ∈ r_tombstones r) /\
  (paired p x false phases = true -> forall r t, (p, r) ∈ phases -> t ∈ r_tombstones r ->
     nonce t ∈ nonces ts).
Proof.
  intros Hnd Hpx ts. destruct (requested_spec labels p x Hnd Hpx phases new_client) as [Hd Ht].
  { split; [constructor|]. intros t Ht. by apply elem_of_nil in Ht. }
  split; [done|]. split.
  - intros t Hin. destruct (Ht t Hin) as [Hn|[_ ?]]; [|done]. by apply elem_of_nil in Hn.
  - intros Hpair r t Hr Hin.
    destruct (requested_all labels p x Hnd Hpx phases new_client false Hpair) as [_ Hall].
    destruct (Hall r (nonce t) Hr) as [[? Hob]|]; [by apply list_elem_of_fmap_2| |done].
    cbn in Hob. by rewrite lookup_empty in Hob.
Qed.

(** when two phases of a label run without one of the next label between
    them, the obligations of the first are lost: they were observed, so no
    later request of the session asks for them. *)
Theorem obligations_dropped labels p x (c : client) (t : Tombstone) r (phases : list (label * reply)) :
  NoDup labels -> follows_in_sequence p labels = Some x ->
  owed (c x) -> t ∈ obligations (c x) ->
  nonce t ∉ nonces (asked x (run_session labels c ((p, r) :: phases)).2).
Proof.
  intros Hnd Hpx Hc Ht.
  assert (Hpne : p <> x) by (intros ->; by eapply follows_ne).
  change (nonce t ∉ nonces (requested labels x c ((p, r) :: phases))).
  rewrite requested_cons, decide_False by done. simpl.
  intros (u & Hu & Hin)%list_elem_of_fmap.
  destruct (requested_spec labels p x Hnd Hpx phases _ (receive_owed labels p x Hnd Hpx p r c Hc))
    as [_ Hs].
  destruct (receive_reply_holder labels p x Hnd Hpx p r c) as [Ho Hk].
  rewrite decide_True in Ho by done. pose proof (proj2 Hc t Ht) as Hob. rewrite Hu in Hob.
  destruct (Hs u Hin) as [Hu'|[Hno _]]; [|apply Hno, Hk; by left].
  rewrite Ho in Hu'. destruct (news_spec (r_tombstones r) (observed_tombstones (c x))) as (_ & Hn & _).
  destruct (Hn u Hu') as [_ Hnone]. unfold observed in Hob. rewrite Hnone in Hob. by destruct Hob.
Qed.

(** ** Witnesses *)

Definition tomb (k : Z) : Tombstone := MkTombstone k 127 0.
Definition tombs_reply (ks : list Z) : reply := MkReply zero_clock zero_clock (tomb <$> ks).

Lemma set_phase_after_correct_witness :
  let c' := set_phase_after [strong; causal] strong [tomb 4; tomb 4; tomb 5] new_client in
  obligations (c' causal) = [tomb 4; tomb 5] /\ NoDup (nonces (obligations (c' causal))).
Proof.
  split; [by vm_compute|].
  apply (set_phase_after_correct [strong; causal] strong causal new_client [tomb 4; tomb 4; tomb 5]).
  by vm_compute.
Defined.

Definition sample_session : list (label * reply) :=
  [(strong, tombs_reply [4; 5]); (causal, tombs_reply []); (strong, tombs_reply [5; 6]);
   (causal, tombs_reply [])].

Lemma session_asks_once_witness :
  let ts := asked causal (run_session [strong; causal] new_client sample_session).2 in
  ts = [tomb 4; tomb 5; tomb 6] /\ NoDup (nonces ts) /\
  paired strong causal false sample_session = true.
Proof.
  split; [by vm_compute|]. split; [|by vm_compute].
  apply (session_asks_once [strong; causal] strong causal sample_session); [by_decide|by vm_compute].
Defined.

(** The client after one phase at the strong store reported a tombstone *)
Definition owing_client : client :=
  set_phase_after [strong; causal] strong [tomb 4] new_client.

Lemma obligations_dropped_witness :
  4 ∉ nonces (asked causal (run_session [strong; causal] owing_client
    [(strong, tombs_reply [6]); (causal, tombs_reply [])]).2).
Proof.
  apply (obligations_dropped [strong; causal] strong causal owing_client (tomb 4));
    [by_decide|by vm_compute| |by left].
  split; [by_decide|]. intros t [->|Ht]%elem_of_cons; [by exists (tomb 4)|].
  by apply elem_of_nil in Ht.
Defined.

(** A strong store in which object 7 was written under tombstone 42 *)
Definition marked_store : TestingStore typed_gmap :=
  ds (@accompanyWrite _ (testing_trackable true) 127 7 42
        (MkPhase new_tracker new_context true empty_store)).2.

Definition read_attempt : attempt (D := TestingStore typed_gmap) :=
  MkAttempt (fun d => d) [# 1; 1; 1; 1] [ReadRemote 7 [# 3; 0; 0; 0]].

Definition strong_stores : label -> TrackableStore (TestingStore typed_gmap) :=
  fun _ => testing_trackable true.

Lemma read_success :
  @run_phase _ (testing_trackable true) 127 false [# 1; 1; 1; 1] (fun _ => marked_store) []
    read_attempt [] [# 2; 2; 2; 2] (new_tracker, marked_store) =
  Some (Success (MkReply [# 2; 2; 2; 2] zero_clock []),
        (MkInternals (Some []) [# 2; 2; 2; 2] zero_clock true, marked_store)).
Proof. by vm_compute. Qed.

(** The system after that phase *)
Definition after_read : system (TestingStore typed_gmap) :=
  MkSystem (receive_reply [strong; causal] strong (MkReply [# 2; 2; 2; 2] zero_clock []) new_client)
    (<[strong := (MkInternals (Some []) [# 2; 2; 2; 2] zero_clock true, marked_store)]>
       (fun _ => (new_tracker, marked_store))).

Lemma after_read_reached :
  rtc (system_step [strong; causal] strong_stores (fun _ => 127) (fun _ => false))
    (start_system (fun _ => marked_store)) after_read.
Proof.
  apply rtc_once. unfold start_system, after_read.
  eapply (step_success [strong; causal] strong_stores (fun _ => 127) (fun _ => false) strong).
  apply read_success.
Qed.

Lemma tracking_never_starts_witness :
  testing_tomb_at marked_store (7 * bigprime_lin) = Some (tomb 42) /\
  client_must_track [strong; causal] (sys_client after_read) = false.
Proof.
  split; [by vm_compute|].
  apply (tracking_never_starts [strong; causal] strong_stores (fun _ => 127) (fun _ => false)
    (fun _ => marked_store) _ after_read_reached).
Defined.
