(* ===== verification/SplitAst.v ===== *)
(** * The syntax tree of one phase

    Models [mtl/AST_split.hpp]: the tree phase splitting produces.  The label is
    that of the whole tree, so the nodes carry none; bindings keep the label of
    the variable they declare.  Three statements exist only here: they advance
    the version of a variable (or of the object behind a handle) that another
    phase writes. *)
From S2P Require Import Prelude Labels TypedAst.

(** ** Nodes *)
Inductive pexpr : Type :=
| PEVar (y : ty) (v : string)
| PEField (y : ty) (s : pexpr) (f : string)
| PEConst (i : Z)
| PEBinOp (y : ty) (op : ascii) (L R : pexpr)
| PEGenerateTombstone
| PEIsValid (y : ty) (h : pexpr)
| PEOperation (y : ty) (oper_name : string) (h : pexpr) (args : list pexpr).

Record pbinding : Type := PBinding {
  pb_label : label; pb_yield : ty; pb_var : string; pb_expr : pexpr }.

Inductive pstmt : Type :=
| PLet (b : pbinding) (body : pstmt)
| PLetRemote (b : pbinding) (body : pstmt)
| POperation (oper_name : string) (h : pexpr) (args : list pexpr)
| PAssignment (var e : pexpr)
| PReturn (e : pexpr)
| PWriteTombstone (e : pexpr)
| PAccompanyWrite (e : pexpr)
| PIncrementOccurance (v : string)
| PIncrementRemoteOccurance (v : string)
| PRefreshRemoteOccurance (h : pexpr)
| PIf (c : pexpr) (t e : pstmt)
| PWhile (c : pexpr) (body : pstmt) (name : string)
| PForEach (body : pstmt) (name : string)
| PSequence (seq : list pstmt).

(** ** Induction over nested nodes *)

Section pexpr_ind.
Variable P : pexpr -> Prop.
Hypothesis Pvar : forall y v, P (PEVar y v).
Hypothesis Pfield : forall y s f, P s -> P (PEField y s f).
Hypothesis Pconst : forall i, P (PEConst i).
Hypothesis Pbinop : forall y op L R, P L -> P R -> P (PEBinOp y op L R).
Hypothesis Ptomb : P PEGenerateTombstone.
Hypothesis Pvalid : forall y h, P h -> P (PEIsValid y h).
Hypothesis Pop : forall y n h args, P h -> Forall P args -> P (PEOperation y n h args).

Fixpoint pexpr_ind' (e : pexpr) : P e :=
  match e with
  | PEVar y v => Pvar y v
  | PEField y s f => Pfield y s f (pexpr_ind' s)
  | PEConst i => Pconst i
  | PEBinOp y op L R => Pbinop y op L R (pexpr_ind' L) (pexpr_ind' R)
  | PEGenerateTombstone => Ptomb
  | PEIsValid y h => Pvalid y h (pexpr_ind' h)
  | PEOperation y n h args =>
      Pop y n h args (pexpr_ind' h)
        ((fix go l : Forall P l :=
            match l with
            | [] => Forall_nil_2 _
            | x :: l => Forall_cons_2 _ _ _ (pexpr_ind' x) (go l)
            end) args)
  end.
End pexpr_ind.

Section pstmt_ind.
Variable P : pstmt -> Prop.
Hypothesis Plet : forall b s, P s -> P (PLet b s).
Hypothesis Pletr : forall b s, P s -> P (PLetRemote b s).
Hypothesis Pop : forall n h args, P (POperation n h args).
Hypothesis Passign : forall v e, P (PAssignment v e).
Hypothesis Preturn : forall e, P (PReturn e).
Hypothesis Pwrite : forall e, P (PWriteTombstone e).
Hypothesis Paccompany : forall e, P (PAccompanyWrite e).
Hypothesis Pinc : forall v, P (PIncrementOccurance v).
Hypothesis Pincr : forall v, P (PIncrementRemoteOccurance v).
Hypothesis Prefresh : forall h, P (PRefreshRemoteOccurance h).
Hypothesis Pif : forall c t e, P t -> P e -> P (PIf c t e).
Hypothesis Pwhile : forall c s n, P s -> P (PWhile c s n).
Hypothesis Pforeach : forall s n, P s -> P (PForEach s n).
Hypothesis Pseq : forall ss, Forall P ss -> P (PSequence ss).

Fixpoint pstmt_ind' (s : pstmt) : P s :=
  match s with
  | PLet b s => Plet b s (pstmt_ind' s)
  | PLetRemote b s => Pletr b s (pstmt_ind' s)
  | POperation n h args => Pop n h args
  | PAssignment v e => Passign v e
  | PReturn e => Preturn e
  | PWriteTombstone e => Pwrite e
  | PAccompanyWrite e => Paccompany e
  | PIncrementOccurance v => Pinc v
  | PIncrementRemoteOccurance v => Pincr v
  | PRefreshRemoteOccurance h => Prefresh h
  | PIf c t e => Pif c t e (pstmt_ind' t) (pstmt_ind' e)
  | PWhile c s n => Pwhile c s n (pstmt_ind' s)
  | PForEach s n => Pforeach s n (pstmt_ind' s)
  | PSequence ss =>
      Pseq ss
        ((fix go l : Forall P l :=
            match l with
            | [] => Forall_nil_2 _
            | x :: l => Forall_cons_2 _ _ _ (pstmt_ind' x) (go l)
            end) ss)
  end.
End pstmt_ind.

(** ** Collapsing sequences *)

(** [count_sequence<s>]: how many statements a nest of sequences holds *)
Fixpoint count_sequence (s : pstmt) : nat :=
  match s with
  | PSequence seq => sum_list_with count_sequence seq
  | _ => 1
  end.

(** [is_empty_sequence<s>] *)
Definition is_empty_sequence (s : pstmt) : bool := bool_decide (count_sequence s = 0).

(** [collapse1], by overload.  Its result is what [Sequence<>::append] takes: a
    statement, appended as it is, or a [Sequence], appended member by member. *)
Fixpoint collapse1 (s : pstmt) : list pstmt :=
  match s with
  | PSequence seq =>
      (fix collapse1_seq (seq : list pstmt) : list pstmt :=
         match seq with
         | [] => []
         | s1 :: seq =>
             if is_empty_sequence s1 then collapse1_seq seq
             else match seq with
                  | [] => collapse1 s1
                  | _ => collapse1 s1 ++ collapse1_seq seq
                  end
         end) seq
  | _ => [s]
  end.

(** [collapse] *)
Definition collapse (seq : list pstmt) : pstmt :=
  PSequence (collapse1 (PSequence (collapse1 (PSequence seq)))).

(** *** What collapsing does *)

(** The statements of a nest of sequences, in order *)
Fixpoint flat (s : pstmt) : list pstmt :=
  match s with PSequence seq => concat (flat <$> seq) | _ => [s] end.

Lemma flat_cons s ss : flat (PSequence (s :: ss)) = flat s ++ flat (PSequence ss).
Proof. done. Qed.

Lemma count_flat s : count_sequence s = length (flat s).
Proof.
  induction s as [| | | | | | | | | | | | |ss IH] using pstmt_ind'; try done.
  induction IH as [|s ss Hs _ IH]; [done|]. rewrite flat_cons, length_app, <- Hs, <- IH. done.
Qed.

Lemma is_empty_flat s : is_empty_sequence s = true <-> flat s = [].
Proof.
  unfold is_empty_sequence. rewrite bool_decide_eq_true, count_flat.
  by destruct (flat s).
Qed.

Lemma collapse1_flat s : collapse1 s = flat s.
Proof.
  induction s as [| | | | | | | | | | | | |ss IH] using pstmt_ind'; try done.
  induction IH as [|s ss Hs Hss IH]; [done|]. rewrite flat_cons, <- IH. simpl.
  destruct (is_empty_sequence s) eqn:He.
  - apply is_empty_flat in He. by rewrite He.
  - rewrite Hs. destruct ss; [by rewrite app_nil_r|done].
Qed.

(** Nothing in a flat list is a sequence. *)
Lemma flat_of_flat s : concat (flat <$> flat s) = flat s.
Proof.
  induction s as [| | | | | | | | | | | | |ss IH] using pstmt_ind'; try done.
  induction IH as [|s ss Hs _ IH]; [done|].
  by rewrite flat_cons, fmap_app, concat_app, Hs, IH.
Qed.

Lemma collapse_flat seq : collapse seq = PSequence (flat (PSequence seq)).
Proof.
  unfold collapse. f_equal. rewrite !collapse1_flat. by apply flat_of_flat.
Qed.

Lemma flat_collapse seq : flat (collapse seq) = flat (PSequence seq).
Proof. rewrite collapse_flat. apply flat_of_flat. Qed.

(** ** Naming loops *)

(** Models [mtl/name_while.hpp]: the pass that runs in front of phase splitting.
    It names every loop by its position, so that a later phase can find the
    number of iterations an earlier phase made, and it rejects a [return]
    anywhere but at the end of the transaction. *)

#[local] Open Scope Z_scope.

(** [accum<seqnum, depth, returns_allowed>]; the numbers are template
    parameters of type [char]. *)
Record accum : Type := Accum { seqnum : Z; depth : Z; returns_allowed : bool }.

Definition char_max : Z := 127.

(** A computed template argument of type [char] must not narrow. *)
Definition to_char (z : Z) : outcome Z :=
  if z <=? char_max then Ok z else Err NarrowingError.

(** The characters [1, seqnum, depth] *)
Definition while_name (a : accum) : string :=
  String (ascii_of_nat 1)
    (String (ascii_of_nat (Z.to_nat (seqnum a)))
      (String (ascii_of_nat (Z.to_nat (depth a))) EmptyString)).

Definition is_return (s : stmt) : bool :=
  match s with SReturn _ _ => true | _ => false end.

Section name_while.
Context `{UserLabels}.

(** [_easy_processing], by overload; the last cases are
    [default_traverse<Easy_Processing, accum>], which rebuilds the label. *)
Fixpoint easy_processing (a : accum) (s : stmt) {struct s} : outcome stmt :=
  match s with
  | SLet l b body => body' ← easy_processing a body; Ok (SLet l b body')
  | SLetRemote l b body => body' ← easy_processing a body; Ok (SLetRemote l b body')
  | SReturn l e => _ ← assert_ok StaticAssert (returns_allowed a); Ok s
  | SWhile l c body name =>
      if decide (name = ""%string) then
        d ← to_char (depth a + 1);
        body' ← easy_processing (Accum (seqnum a) d false) body;
        Ok (SWhile l c body' (while_name a))
      else body' ← easy_processing a body; Ok (SWhile (expr_label c) c body' ""%string)
  | SIf l c t e =>
      t' ← easy_processing (Accum (seqnum a) (depth a) false) t;
      e' ← easy_processing (Accum (seqnum a) (depth a) false) e;
      Ok (SIf l c t' e')
  | SSequence l seq =>
      n ← to_char (seqnum a + 1);
      seq' ←
        (fix easy_processing_stmt (n : Z) (seq : list stmt) {struct seq} : outcome (list stmt) :=
           match seq with
           | [] => Ok []
           | s1 :: seq =>
               if is_return s1 then
                 _ ← assert_ok StaticAssert (returns_allowed a);
                 _ ← assert_ok StaticAssert (bool_decide (seq = []));
                 Ok (s1 :: seq)
               else
                 s1' ← easy_processing (Accum n (depth a) (returns_allowed a)) s1;
                 n' ← to_char (n + 1);
                 seq' ← easy_processing_stmt n' seq;
                 Ok (s1' :: seq')
           end) n seq;
      Ok (SSequence l seq')
  | SOperation _ _ _ _ => Ok s
  | SAssignment _ v e =>
      l ← resolved_label_min (expr_label v) (expr_label e); Ok (SAssignment l v e)
  | SWriteTombstone _ e => Ok (SWriteTombstone (expr_label e) e)
  | SAccompanyWrite _ e => Ok (SAccompanyWrite (expr_label e) e)
  end.

(** [easy_processing_pass] *)
Definition easy_processing_pass (s : stmt) : outcome stmt :=
  easy_processing (Accum 1 1 true) s.

End name_while.
