(* ===== verification/PhaseApi.v ===== *)
(** * What a phase needs and what it makes available

    Models the bindings of [mtl/environments.hpp] and the phase interfaces of
    [mtl/split_phase_utils.hpp] and [mtl/split_phase_impl_utils.hpp]. *)
From S2P Require Import Prelude TypeLists Labels TypedAst.

(** ** Built-in names *)

Definition list_stub_name : string := "default list".
Definition push_back_name : string := "push_back".
Definition nulled_name : string := "nulled".

(** [builtins::is_builtin<name>] *)
Definition is_builtin (v : string) : bool :=
  bool_decide (v ∈ [list_stub_name; push_back_name; nulled_name; "true"; "false"]%string).

(** ** Bindings *)

Inductive type_location : Type := local | remote.

#[global] Instance type_location_eq_dec : EqDecision type_location.
Proof. solve_decision. Defined.

(** [type_binding<name, type, label, loc>] and [while_binding<name...>].  The
    type of a remote binding is that of the handle. *)
Inductive var_binding : Type :=
| type_binding (name : string) (type : ty) (l : label) (loc : type_location)
| while_binding (name : string).

#[global] Instance var_binding_eq_dec : EqDecision var_binding.
Proof. solve_decision. Defined.

Definition binding_name (b : var_binding) : string :=
  match b with type_binding n _ _ _ | while_binding n => n end.

(** [type_binding_super<name, y>] is a base class of the binding. *)
Definition has_super (v : string) (y : ty) (b : var_binding) : bool :=
  match b with
  | type_binding n t _ local => bool_decide (n = v /\ t = y)
  | type_binding n (THandle _ t) _ remote => bool_decide (n = v /\ t = y)
  | _ => false
  end.

(** [typename T::type]: the target of a handle *)
Definition ty_type (t : ty) : outcome ty :=
  match t with
  | THandle _ t => Ok t
  | TListStub => Ok TListStub
  | _ => Err NoOverload
  end.

Section label.
Context `{UserLabels}.

(** [decide_type_label<L, R>]; two pre-endorsed labels match two
    specializations. *)
Definition decide_type_label (L R : label) : outcome label :=
  match L, R with
  | LPre _, LPre _ => Err NoOverload
  | LPre L', R => resolved_label_min (PreEndorse_notop L') (PreEndorse_notop R)
  | L, LPre R' => resolved_label_min (PreEndorse_notop L) (PreEndorse_notop R')
  | L, R => resolved_label_min L R
  end.

(** Instantiating [type_binding<name, T, l, remote>] *)
Definition remote_binding (name : string) (T : ty) (l : label) : outcome var_binding :=
  match T with
  | THandle hl t =>
      _ ← decide_type_label l hl; Ok (type_binding name T l remote)
  | _ => Err StaticAssert
  end.
End label.

(** ** Phase interfaces

    [phase_api<label, requires, provides, inherits>].  All the interfaces of a
    phase inherit the same bindings, so [inherits] is an argument of the passes
    and not a field. *)
Record phase_api : Type := Api {
  requires : list var_binding; provides : list var_binding }.

Definition no_api : phase_api := Api [] [].

(** [combined_api<a, b>] *)
Definition combined_api (a b : phase_api) : phase_api :=
  Api (requires a ++ requires b) (provides a ++ provides b).

Definition combine_all_api (a : phase_api) (bs : list phase_api) : phase_api :=
  foldl combined_api a bs.

Definition add_provides (b : var_binding) (a : phase_api) : phase_api :=
  Api (requires a) (provides a ++ [b]).

Definition add_requires (b : var_binding) (a : phase_api) : phase_api :=
  Api (requires a ++ [b]) (provides a).

(** [contains_subtype<type_binding_super<v, y>>] *)
Definition contains_subtype (v : string) (y : ty) (bs : list var_binding) : bool :=
  existsb (has_super v y) bs.

(** [contains<while_binding<name>>] *)
Definition contains_while (name : string) (bs : list var_binding) : bool :=
  existsb (fun b => bool_decide (b = while_binding name)) bs.

(** [contains_var_of_name(name, bindings)]: [contains_match] over the bindings'
    [get_binding2]. *)
Definition contains_var_of_name (v : string) (bs : list var_binding) : bool :=
  existsb (fun b => bool_decide (binding_name b = v)) bs.

(** [without_names(remove, bindings)] *)
Definition without_names (remove : list string) (bs : list var_binding) : list var_binding :=
  base.filter (fun b => binding_name b ∉ remove) bs.

(** ** Holders

    What a store keeps for a binding.  The holder of a loop name counts
    iterations ([value_holder<std::size_t, name...>]). *)
Inductive holder_type : Type :=
| type_holder (T : ty) (name : string)
| value_holder (T : ty) (name : string)
| remote_holder (T : ty) (name : string)
| while_holder (name : string).

#[global] Instance holder_type_eq_dec : EqDecision holder_type.
Proof. solve_decision. Defined.

Definition holder_name (h : holder_type) : string :=
  match h with
  | type_holder _ n | value_holder _ n | remote_holder _ n | while_holder n => n
  end.

(** [binding_to_holder] on one binding *)
Definition binding_to_holder (b : var_binding) : holder_type :=
  match b with
  | type_binding n t _ local => type_holder t n
  | type_binding n t _ remote => remote_holder t n
  | while_binding n => while_holder n
  end.

(** [holder_to_value] on one holder *)
Definition holder_to_value (h : holder_type) : holder_type :=
  match h with type_holder t n => value_holder t n | _ => h end.

Definition is_type_holder (h : holder_type) : bool :=
  match h with type_holder _ _ => true | _ => false end.
