(* ===== verification/Split.v ===== *)
(** * Splitting a transaction into phases

    Models [mtl/split_phase.hpp]: [collect_phase] cuts the statements of one
    label out of the transaction, [_split_computation] does so for every label,
    the most trusted one first.  A static check or a missing overload is an
    error of the outcome. *)
From S2P Require Import Prelude TypeLists Labels TypedAst LabelCollect SplitAst PhaseApi.
From S2P Require Import SplitAst.

(** [extracted_phase<label, api, returns, ast>] *)
Record extracted_phase : Type := Extracted {
  ex_api : phase_api; ex_returns : ty; ex_ast : pstmt }.

(** ** Cutting out the statements of one label *)

Section collect_phase.
Context `{UserLabels} `{TypeLists}.
(** The label of the phase, and what earlier phases make available *)
Variables (label : label) (inherits : list var_binding).

(** One overload takes statements of this phase's label, another those
    whose label is not equivalent to it. *)
Definition on_label {A} (label2 : Labels.label) (same other : outcome A) : outcome A :=
  equivalent ← are_equivalent label label2;
  if decide (label = label2) then same
  else if (equivalent : bool) then Err NoOverload else other.

(** The requirements of an expression and its translation; [provided] is what
    the enclosing statements of this phase provide. *)
Fixpoint collect_expr (provided : list var_binding) (e : expr)
    : outcome (list var_binding * pexpr) :=
  match e with
  | EVar label2 y v =>
      if is_builtin v then Ok ([], PEVar y v) else
      f ← flows_to label2 label;
      _ ← assert_ok StaticAssert f;
      _ ← assert_ok StaticAssert
            (contains_subtype v y provided || contains_subtype v y inherits);
      if contains_subtype v y provided then Ok ([], PEVar y v)
      else match typelist_find (has_super v y) inherits with
           | Some b => Ok ([b], PEVar y v)
           | None => Err NoOverload
           end
  | EField _ y s f => s' ← collect_expr provided s; Ok (s'.1, PEField y s'.2 f)
  | EConst i => Ok ([], PEConst i)
  | EBinOp _ y op L R =>
      L' ← collect_expr provided L; R' ← collect_expr provided R;
      Ok (L'.1 ++ R'.1, PEBinOp y op L'.2 R'.2)
  | EGenerateTombstone label2 =>
      _ ← assert_ok NoOverload (bool_decide (label2 = top)); Ok ([], PEGenerateTombstone)
  | EIsValid _ h =>
      h' ← collect_expr provided h; Ok (h'.1, PEIsValid TBool h'.2)
  | EEndorse _ _ _ _ => Err NoOverload
  | EOperation _ y n h args =>
      h' ← collect_expr provided h;
      args' ← traverse (collect_expr provided) args;
      Ok (h'.1 ++ concat (fst <$> args'), PEOperation y n h'.2 (snd <$> args'))
  end.

(** [base_var<Var>] *)
Fixpoint base_var (e : expr) : outcome string :=
  match e with
  | EVar _ _ v => Ok v
  | EField _ _ s _ => base_var s
  | _ => Err NoOverload
  end.

Definition let_binding (provided : list var_binding) (b : binding)
    : outcome (phase_api * pbinding) :=
  f ← flows_to label (b_label b);
  _ ← assert_ok StaticAssert f;
  e' ← collect_expr provided (b_expr b);
  Ok (add_provides (type_binding (b_var b) (b_yield b) (b_label b) local) (Api e'.1 []),
      PBinding (b_label b) (b_yield b) (b_var b) e'.2).

Definition let_remote_binding (provided : list var_binding) (b : binding)
    : outcome (phase_api * pbinding) :=
  f ← flows_to label (b_label b);
  _ ← assert_ok StaticAssert f;
  new_binding ← remote_binding (b_var b) (expr_yield (b_expr b)) (b_label b);
  e' ← collect_expr provided (b_expr b);
  Ok (add_provides new_binding (Api e'.1 []),
      PBinding (b_label b) (b_yield b) (b_var b) e'.2).

(** [let_ast_if_operation]: the object an operation acts on may have changed. *)
Definition let_ast_if_operation (provided : list var_binding) (basic_ast : pstmt) (e : expr)
    : outcome pstmt :=
  match e with
  | EOperation _ _ _ hndl _ =>
      h ← collect_expr provided hndl;
      Ok (PSequence [basic_ast; PRefreshRemoteOccurance h.2])
  | _ => Ok basic_ast
  end.

(** An operation in statement position *)
Definition collect_operation (provided : list var_binding) (oper_name : string)
    (hndl : expr) (args : list expr) : outcome (phase_api * pstmt) :=
  h' ← collect_expr provided hndl;
  args' ← traverse (collect_expr provided) args;
  Ok (Api (h'.1 ++ concat (fst <$> args')) [],
      if is_builtin oper_name then POperation oper_name h'.2 (snd <$> args')
      else PSequence [POperation oper_name h'.2 (snd <$> args'); PRefreshRemoteOccurance h'.2]).

(** The returned type of a statement with two parts *)
Definition join_returns (t1 t2 : ty) : outcome ty :=
  _ ← assert_ok StaticAssert (bool_decide (t1 = TVoid \/ t2 = TVoid \/ t1 = t2));
  Ok (if decide (t1 = TVoid) then t2 else t1).

(** [return_from<seq...>] *)
Fixpoint return_from (ts : list ty) : outcome ty :=
  match ts with
  | [] => Ok TVoid
  | this_type :: ts => rest_type ← return_from ts; join_returns this_type rest_type
  end.

(** [build_seq2]: the interfaces combined, from the right *)
Definition build_seq2 (apis : list phase_api) : phase_api := foldr combined_api no_api apis.

(** [build_seq1] *)
Definition build_seq1 (seq : list extracted_phase) : outcome extracted_phase :=
  returns ← return_from (ex_returns <$> seq);
  Ok (Extracted (build_seq2 (ex_api <$> seq)) returns (collapse (ex_ast <$> seq))).

(** A statement this phase skips altogether *)
Definition skipped : extracted_phase := Extracted no_api TVoid (PSequence []).

(** A statement with one operand, translated in place *)
Definition collect_unary (provided : list var_binding) (node : pexpr -> pstmt)
    (returns : ty) (e : expr) : outcome extracted_phase :=
  e' ← collect_expr provided e; Ok (Extracted (Api e'.1 []) returns (node e'.2)).

(** [collect_phase] on statements, by overload *)
Fixpoint collect_phase (provided : list var_binding) (s : stmt) : outcome extracted_phase :=
  match s with
  | SLet label2 b body =>
      on_label label2
        (binding ← let_binding provided b;
         body' ← collect_phase (provides binding.1 ++ provided) body;
         ast ← let_ast_if_operation provided (PLet binding.2 (ex_ast body')) (b_expr b);
         Ok (Extracted (combined_api binding.1 (ex_api body')) (ex_returns body') ast))
        (* the binding runs in a different phase *)
        (body' ← collect_phase provided body;
         Ok (Extracted (ex_api body') (ex_returns body')
               (PSequence [PIncrementOccurance (b_var b); ex_ast body'])))
  | SLetRemote label2 b body =>
      on_label label2
        (binding ← let_remote_binding provided b;
         body' ← collect_phase (provided ++ provides binding.1) body;
         Ok (Extracted (combined_api binding.1 (ex_api body')) (ex_returns body')
               (PLetRemote binding.2 (ex_ast body'))))
        (body' ← collect_phase provided body;
         yield ← ty_type (expr_yield (b_expr b));
         f ← flows_to label2 label;
         if (f : bool) then
           let found := typelist_find (has_super (b_var b) yield) inherits in
           _ ← assert_ok StaticAssert
                 (contains_subtype (b_var b) yield provided || bool_decide (is_Some found));
           let reqs := if contains_subtype (b_var b) yield provided then []
                       else option_list found in
           Ok (Extracted (combined_api (ex_api body') (Api reqs [])) (ex_returns body')
                 (PSequence [PIncrementRemoteOccurance (b_var b); ex_ast body']))
         else Ok body')
  | SOperation label2 oper_name hndl args =>
      on_label label2
        (r ← collect_operation provided oper_name hndl args; Ok (Extracted r.1 TVoid r.2))
        (Ok skipped)
  | SAssignment label2 var e =>
      on_label label2
        (var' ← collect_expr provided var; e' ← collect_expr provided e;
         Ok (Extracted (Api (var'.1 ++ e'.1) []) TVoid (PAssignment var'.2 e'.2)))
        (f ← flows_to label2 label; v ← base_var var;
         Ok (Extracted no_api TVoid
               (if (f : bool) then PIncrementOccurance v else PSequence [])))
  | SReturn label2 e =>
      on_label label2 (collect_unary provided PReturn (expr_yield e) e) (Ok skipped)
  | SWriteTombstone label2 e =>
      on_label label2 (collect_unary provided PWriteTombstone TVoid e) (Ok skipped)
  | SAccompanyWrite label2 e =>
      on_label label2 (collect_unary provided PAccompanyWrite TVoid e) (Ok skipped)
  | SIf label2 c t e =>
      f ← flows_to label2 label;
      if (f : bool) then
        c' ← collect_expr provided c;
        t' ← collect_phase provided t;
        e' ← collect_phase provided e;
        returns ← join_returns (ex_returns t') (ex_returns e');
        Ok (Extracted (combined_api (combined_api (Api c'.1 []) (ex_api t')) (ex_api e'))
              returns (PIf c'.2 (ex_ast t') (ex_ast e')))
      else Ok skipped
  | SWhile label2 c body name =>
      on_label label2
        (c' ← collect_expr provided c;
         body' ← collect_phase provided body;
         Ok (Extracted (add_provides (while_binding name)
                          (combined_api (Api c'.1 []) (ex_api body')))
               (ex_returns body') (PWhile c'.2 (ex_ast body') name)))
        (f ← flows_to label2 label;
         if (f : bool) then
           body' ← collect_phase provided body;
           _ ← assert_ok StaticAssert
                 (contains_while name provided || contains_while name inherits);
           Ok (Extracted (add_requires (while_binding name) (ex_api body'))
                 (ex_returns body') (PForEach (ex_ast body') name))
         else Ok skipped)
  | SSequence _ seq => seq' ← traverse (collect_phase provided) seq; build_seq1 seq'
  end.

End collect_phase.

(** ** Dropping the increments of variables a phase does not use *)

(** [remove_unused], by overload *)
Fixpoint remove_unused_stmt (reqs : list var_binding) (s : pstmt) : outcome pstmt :=
  match s with
  | PLet b body => body' ← remove_unused_stmt reqs body; Ok (PLet b body')
  | PLetRemote b body => body' ← remove_unused_stmt reqs body; Ok (PLetRemote b body')
  | PIncrementOccurance v | PIncrementRemoteOccurance v =>
      Ok (if contains_var_of_name v reqs then s else PSequence [])
  | PRefreshRemoteOccurance (PEVar (THandle _ _) v) =>
      Ok (if contains_var_of_name v reqs then s else PSequence [])
  | PRefreshRemoteOccurance _ => Err NoOverload
  | PIf c t e =>
      t' ← remove_unused_stmt reqs t; e' ← remove_unused_stmt reqs e; Ok (PIf c t' e')
  | PWhile c body name => body' ← remove_unused_stmt reqs body; Ok (PWhile c body' name)
  | PForEach body name => body' ← remove_unused_stmt reqs body; Ok (PForEach body' name)
  | PSequence seq => seq' ← traverse (remove_unused_stmt reqs) seq; Ok (PSequence seq')
  | POperation _ _ _ | PAssignment _ _ | PReturn _ | PWriteTombstone _
  | PAccompanyWrite _ => Ok s
  end.

Section passes.
Context `{TypeLists}.

Definition remove_unused (p : extracted_phase) : outcome extracted_phase :=
  ast ← remove_unused_stmt (typeset_of (requires (ex_api p))) (ex_ast p);
  Ok (Extracted (ex_api p) (ex_returns p) ast).

(** ** Dropping conditionals with nothing to do *)

(** What [clear_empty_statements] returns: the names only dropped conditions
    used, and those still used. *)
Record cleared : Type := Cleared {
  cl_ast : pstmt; remove_from_require : list string; still_require : list string }.

(** On expressions: the tree is rebuilt as it was, [remove_from_require] is
    the union of empty sets. *)
Fixpoint clear_expr (e : pexpr) : list string * list string :=
  match e with
  | PEVar _ v => ([], [v])
  | PEField _ s _ => clear_expr s
  | PEConst _ | PEGenerateTombstone => ([], [])
  | PEBinOp _ _ L R =>
      (typeset_combine (clear_expr L).1 (clear_expr R).1,
       typeset_combine (clear_expr L).2 (clear_expr R).2)
  | PEIsValid _ h => clear_expr h
  | PEOperation _ _ h args =>
      (typeset_combine_all (clear_expr h).1 ((fun a => (clear_expr a).1) <$> args),
       typeset_combine_all (clear_expr h).2 ((fun a => (clear_expr a).2) <$> args))
  end.

Definition combine_sets (a b : list string * list string) : list string * list string :=
  (typeset_combine a.1 b.1, typeset_combine a.2 b.2).

Definition cl_sets (c : cleared) : list string * list string :=
  (remove_from_require c, still_require c).

Definition cleared_with (ast : pstmt) (sets : list string * list string) : cleared :=
  Cleared ast sets.1 sets.2.

Fixpoint clear_empty_statements (s : pstmt) : outcome cleared :=
  match s with
  | PLet b body =>
      body' ← clear_empty_statements body;
      Ok (cleared_with (PLet b (cl_ast body')) (combine_sets (clear_expr (pb_expr b)) (cl_sets body')))
  | PLetRemote b body =>
      body' ← clear_empty_statements body;
      Ok (cleared_with (PLetRemote b (cl_ast body'))
            (combine_sets (clear_expr (pb_expr b)) (cl_sets body')))
  | POperation n h args => Ok (cleared_with s (clear_expr (PEOperation TVoid n h args)))
  | PAssignment v e => Ok (cleared_with s (combine_sets (clear_expr v) (clear_expr e)))
  | PReturn e | PAccompanyWrite e | PWriteTombstone e => Ok (cleared_with s (clear_expr e))
  | PIncrementOccurance _ => Ok (cleared_with s ([], []))
  | PIncrementRemoteOccurance v => Ok (cleared_with s ([], [v]))
  | PRefreshRemoteOccurance (PEVar (THandle _ _) v) => Ok (cleared_with s ([], [v]))
  | PRefreshRemoteOccurance _ => Err NoOverload
  | PIf c t e =>
      t' ← clear_empty_statements t; e' ← clear_empty_statements e;
      Ok (if is_empty_sequence (cl_ast t') && is_empty_sequence (cl_ast e')
          then Cleared (PSequence []) (clear_expr c).2 []
          else cleared_with (PIf c (cl_ast t') (cl_ast e'))
                 (combine_sets (combine_sets (clear_expr c) (cl_sets t')) (cl_sets e')))
  | PWhile c body name =>
      body' ← clear_empty_statements body;
      Ok (cleared_with (PWhile c (cl_ast body') name)
            (combine_sets (clear_expr c) (cl_sets body')))
  | PForEach body name =>
      body' ← clear_empty_statements body;
      Ok (cleared_with (PForEach (cl_ast body') name) (cl_sets body'))
  | PSequence seq =>
      seq' ← traverse clear_empty_statements seq;
      Ok (Cleared (collapse (cl_ast <$> seq'))
            (foldr typeset_combine [] (remove_from_require <$> seq'))
            (foldr typeset_combine [] (still_require <$> seq')))
  end.

(** ** The phases of a transaction *)
Context `{UserLabels}.

(** [prephase<label, returns, ast, provides, inherits, requires>] *)
Record prephase : Type := Prephase {
  pp_level : label; pp_returns : ty; pp_ast : pstmt;
  pp_provides : list holder_type; pp_inherits : list holder_type;
  pp_requirements : list holder_type }.

Definition holders_of (bs : list var_binding) : list holder_type :=
  binding_to_holder <$> typeset_of bs.

Definition transaction_prephase (l : label) (inherits : list var_binding)
    (p : extracted_phase) : prephase :=
  Prephase l (ex_returns p) (ex_ast p) (holders_of (provides (ex_api p)))
    (holders_of inherits) (holders_of (requires (ex_api p))).

(** One round of [_split_computation]: the phase of [curr_label], and what the
    next phases inherit *)
Definition split_phase (a : stmt) (inherits : list var_binding) (curr_label : label)
    : outcome (prephase * list var_binding) :=
  collected ← collect_phase curr_label inherits [] a;
  curr_phase ← remove_unused collected;
  let next_inherits := inherits ++ provides (ex_api curr_phase) in
  empty_cleared ← clear_empty_statements (ex_ast curr_phase);
  let no_longer_require :=
    typeset_subtract (remove_from_require empty_cleared) (still_require empty_cleared) in
  let edited_phase :=
    Extracted
      (Api (without_names no_longer_require (typeset_of (requires (ex_api curr_phase))))
           (provides (ex_api curr_phase)))
      (ex_returns curr_phase) (cl_ast empty_cleared) in
  final_phase ← remove_unused edited_phase;
  Ok (transaction_prephase curr_label inherits final_phase, next_inherits).

(** [_split_computation] *)
Fixpoint _split_computation (a : stmt) (inherits : list var_binding) (labels : list label)
    : outcome (list prephase) :=
  match labels with
  | [] => Ok []
  | curr_label :: rest =>
      descending ← labels_in_descending_order labels;
      _ ← assert_ok StaticAssert descending;
      r ← split_phase a inherits curr_label;
      ps ← _split_computation a r.2 rest;
      Ok (r.1 :: ps)
  end.

(** [phase<label, returns, ast, requirements, provides, owned, passthrough>] *)
Record phase : Type := Phase {
  ph_label : label; ph_returns : ty; ph_ast : pstmt;
  ph_requirements : list holder_type; ph_provides : list holder_type;
  ph_owned : list holder_type; ph_passthrough : list holder_type }.

(** [pretransaction<p1, prephases...>::processed] *)
Fixpoint processed (ps : list prephase) : list phase :=
  match ps with
  | [] => []
  | p1 :: prephases =>
      let next_requires :=
        typeset_combine_all (pp_requirements p1) (pp_requirements <$> prephases) in
      Phase (pp_level p1) (pp_returns p1) (pp_ast p1)
        (typeset_subtract (pp_requirements p1) (pp_provides p1))
        (typeset_intersect (pp_provides p1) next_requires)
        (typeset_subtract (pp_provides p1) next_requires)
        (typeset_intersect (pp_inherits p1) next_requires)
      :: processed prephases
  end.

(** [split_computation<AST, bindings...>] *)
Definition split_computation (bindings : list var_binding) (ast : stmt) : outcome (list phase) :=
  a ← easy_processing_pass ast;
  labels ← collect_proper_labels ast;
  ps ← _split_computation a bindings (reverse labels);
  Ok (processed ps).

End passes.
