(* ===== verification/Holders.v ===== *)
(** * Stores of holders

    Models [mtl/environments.hpp]: the values a running transaction keeps for
    its variables.  A variable that several phases use is a [type_holder]: the
    vector of all the versions it ever had, and the position of the version the
    phase has reached; every phase starts in front of the first version. *)
From S2P Require Import Prelude Labels TypedAst PhaseApi Runtime.

#[local] Open Scope Z_scope.

(** ** Values and the world outside a transaction *)

(** Handles and what can be done with them live in the data stores; the
    transaction only relies on their names. *)
Class Handles : Type := {
  Handle : Type;
  handle_name : Handle -> Z;
}.

(** What a variable can hold.  A list built-in is a shared pointer to a cell
    that may still be null. *)
Inductive value `{Handles} : Type :=
| VInt (i : Z)
| VBool (b : bool)
| VTombstone (name : Z)
| VStruct (fields : list (string * value))
| VHandle (h : Handle)
| VList (real_list : nat).

(** ** Holders *)

Section holders.
Context `{Handles}.

(** [type_holder<T>] *)
Record tholder : Type := THolder {
  th_t : list value; curr_pos : Z; th_bound : bool }.

(** The holders of a store, by the class of the holder; [None] in a
    [value_holder] is [mem_uninitialized]. *)
Inductive holder : Type :=
| HType (h : tholder)
| HValue (v : option value)
| HRemote (T : ty) (handles : list Handle) (curr_pos : Z).

Definition empty_tholder : tholder := THolder [] (-1) false.

(** [type_holder::reset_index] *)
Definition reset_index (h : tholder) : tholder := THolder (th_t h) (-1) (th_bound h).

(** [type_holder::push] *)
Definition th_push (h : tholder) (v : value) : tholder :=
  THolder (th_t h ++ [v]) (curr_pos h + 1) (th_bound h).

(** [curr_pos < (int)t.size() && curr_pos >= 0] *)
Definition th_in_range (h : tholder) : bool :=
  (curr_pos h <? Z.of_nat (length (th_t h))) && (0 <=? curr_pos h).

(** [type_holder::bind] *)
Definition th_bind (h : tholder) (v : value) : option tholder :=
  let h' := THolder (th_t h ++ [v]) (curr_pos h + 1) true in
  if th_in_range h' then Some h' else None.

(** [type_holder::increment] *)
Definition th_increment (h : tholder) : tholder :=
  THolder (th_t h) (curr_pos h + 1) (th_bound h).

(** [type_holder::get] *)
Definition th_get (h : tholder) : option value :=
  if th_in_range h then th_t h !! Z.to_nat (curr_pos h) else None.

(** A default-constructed holder of a class *)
Definition default_holder (h : holder_type) : holder :=
  match h with
  | type_holder _ _ => HType empty_tholder
  | value_holder _ _ | while_holder _ => HValue None
  | remote_holder T _ => HRemote T [] (-1)
  end.

(** [begin_phase] of a holder: only positions are reset. *)
Definition holder_begin_phase (h : holder) : holder :=
  match h with
  | HType h => HType (reset_index h)
  | HValue v => HValue v
  | HRemote T hs _ => HRemote T hs (-1)
  end.

(** ** Stores

    [store<holders...>]: the holders, and for every handle type of a remote
    holder the [remote_map_holder] all handles of that type share, keyed by
    object name. *)
Record store : Type := Store {
  holders : gmap string holder;
  supers : list (ty * gmap Z tholder) }.

(** [store::begin_phase] *)
Definition begin_phase (s : store) : store :=
  Store (holder_begin_phase <$> holders s)
        ((fun x : ty * gmap Z tholder => (x.1, reset_index <$> x.2)) <$> supers s).

(** [std::is_base_of<remote_map_holder<T>, store>] *)
Definition has_super_map (T : ty) (s : store) : bool :=
  existsb (fun x => bool_decide (x.1 = T)) (supers s).

(** [super[name]]: a missing entry is default-constructed. *)
Definition super_get (T : ty) (name : Z) (s : store) : tholder :=
  match List.find (fun x => bool_decide (x.1 = T)) (supers s) with
  | Some x => default empty_tholder (x.2 !! name)
  | None => empty_tholder
  end.

Definition super_set (T : ty) (name : Z) (h : tholder) (s : store) : store :=
  Store (holders s)
    ((fun x : ty * gmap Z tholder => if decide (x.1 = T) then (x.1, <[name := h]> x.2) else x) <$> supers s).

Definition set_holder (v : string) (h : holder) (s : store) : store :=
  Store (<[v := h]> (holders s)) (supers s).

(** The handle types of the remote holders of a list, without repetition
    ([virtual_holders<holders...>]) *)
Fixpoint virtual_holders (hs : list holder_type) : list ty :=
  match hs with
  | [] => []
  | remote_holder T _ :: hs =>
      if decide (T ∈ virtual_holders hs) then virtual_holders hs else T :: virtual_holders hs
  | _ :: hs => virtual_holders hs
  end.

(** A default-constructed [store<holders...>] *)
Definition empty_store (hs : list holder_type) : store :=
  Store (list_to_map ((fun h => (holder_name h, default_holder h)) <$> hs))
        ((fun T => (T, ∅)) <$> virtual_holders hs).

(** *** Reading back *)

Lemma th_get_last h : curr_pos h = Z.of_nat (length (th_t h)) - 1 -> th_get h = last (th_t h).
Proof.
  intros Hp. unfold th_get, th_in_range. rewrite Hp.
  destruct (th_t h) as [|x l] eqn:Hl using rev_ind; [done|].
  rewrite length_app, last_snoc. simpl.
  replace (_ <? _) with true by (symmetry; apply Z.ltb_lt; lia).
  replace (_ <=? _) with true by (symmetry; apply Z.leb_le; lia). simpl.
  rewrite lookup_app_r by lia.
  by replace (Z.to_nat _ - length l)%nat with 0%nat by lia.
Qed.

Lemma th_get_at h (n : nat) v : curr_pos h = Z.of_nat n -> th_t h !! n = Some v ->
  th_get h = Some v.
Proof.
  intros Hp Hv. unfold th_get, th_in_range. rewrite Hp, Nat2Z.id.
  apply lookup_lt_Some in Hv as Hlt.
  replace (_ <? _) with true by (symmetry; apply Z.ltb_lt; lia).
  by replace (_ <=? _) with true by (symmetry; apply Z.leb_le; lia).
Qed.

Lemma th_bind_some h v : -1 <= curr_pos h < Z.of_nat (length (th_t h)) ->
  th_bind h v = Some (THolder (th_t h ++ [v]) (curr_pos h + 1) true).
Proof.
  intros Hp. unfold th_bind, th_in_range. simpl. rewrite length_app. simpl.
  replace (_ <? _) with true by (symmetry; apply Z.ltb_lt; lia).
  by replace (_ <=? _) with true by (symmetry; apply Z.leb_le; lia).
Qed.

Lemma lookup_begin_phase s v :
  holders (begin_phase s) !! v = holder_begin_phase <$> holders s !! v.
Proof. apply lookup_fmap. Qed.

Lemma lookup_set_holder s v h : holders (set_holder v h s) !! v = Some h.
Proof. apply lookup_insert_eq. Qed.

Lemma lookup_set_holder_ne s v w h : v <> w ->
  holders (set_holder v h s) !! w = holders s !! w.
Proof. apply lookup_insert_ne. Qed.

End holders.
