(* ===== verification/RunPhase.v ===== *)
(** * Running a phase

    Models [mtl/run_phase.hpp] and the local half of [mtl/interp.hpp]: the
    interpreter of one phase over a store of holders, committing it, retrying an
    aborted one, and running the phases of a transaction one after the other. *)
From S2P Require Import Prelude TypeLists Labels TypedAst SplitAst PhaseApi Split Runtime Holders.
From S2P Require Import Tracking.

#[local] Open Scope Z_scope.

(** ** What the interpreter asks of stores and of the tracker

    [W]: everything outside the transaction.  [rm_*] are the virtual functions
    of handles and data stores; [trk_*] the calls into the tracker, made only
    when the label of the phase runs remotely.  [rm_end]: the [PhaseContext] is destroyed, and
    with it the transaction it may have begun. *)
Class Remote `{Handles} : Type := {
  W : Type;
  rm_get : Handle -> RT W value;
  rm_put : Handle -> value -> RT W unit;
  rm_isValid : Handle -> RT W bool;
  rm_act : string -> Handle -> list value -> RT W value;
  rm_create_new : Handle -> value -> RT W value;
  rm_nulled : Handle -> Handle;
  rm_commit : RT W unit;
  rm_end : W -> W;
  trk_read_actions : Handle -> RT W unit;
  trk_accompanyWrite : Z -> Z -> RT W unit;
  trk_writeTombstone : Z -> RT W unit;
  trk_generateTombstone : RT W Z;
}.

Section run.
Context `{Remote}.

(** Why a phase stops early: an exception, [throw ReturnedValue<y>], a phase
    that does not compile against its store, or not enough fuel. *)
Inductive stop : Type :=
| Throws (e : exn)
| Returned (v : value)
| IllFormed
| NoFuel.

(** The store of the transaction, the cells of its built-in lists ([None] is
    the null pointer), and the world *)
Record run_state : Type := RunState {
  st_store : store; st_lists : list (option (list value)); st_world : W }.

Definition Run (A : Type) : Type := run_state -> (A + stop) * run_state.

#[global] Instance Run_ret : MRet Run := fun A a s => (inl a, s).
#[global] Instance Run_bind : MBind Run := fun A B f m s =>
  match m s with
  | (inl a, s') => f a s'
  | (inr e, s') => (inr e, s')
  end.

Definition halt {A} (e : stop) : Run A := fun s => (inr e, s).
Definition get_store : Run store := fun s => (inl (st_store s), s).
Definition set_store (st : store) : Run unit :=
  fun s => (inl tt, RunState st (st_lists s) (st_world s)).

(** A call into the world *)
Definition call {A} (m : RT W A) : Run A := fun s =>
  let '(r, w) := m (st_world s) in
  (match r with inl a => inl a | inr e => inr (Throws e) end,
   RunState (st_store s) (st_lists s) w).

Definition expect {A} (e : stop) (o : option A) : Run A :=
  match o with Some a => mret a | None => halt e end.

(** ** Operators *)

(** A pure computation that may stop *)
Definition Res (A : Type) : Type := (A + stop)%type.

#[global] Instance Res_ret : MRet Res := fun A => @inl A stop.
#[global] Instance Res_bind : MBind Res := fun A B f m =>
  match m with inl a => f a | inr e => inr e end.

Definition lift {A} (r : Res A) : Run A := fun s => (r, s).

(** Integral promotion *)
Definition promote (v : value) : Res Z :=
  match v with VInt i => inl i | VBool b => inl (if b then 1 else 0) | _ => inr IllFormed end.

(** [int] arithmetic is undefined outside the range. *)
Definition arith (z : Z) : Res value :=
  if in_int z then inl (VInt z) else inr (Throws SignedOverflow).

(** [L op R] for the operators that evaluate both operands *)
Definition binop (op : ascii) (l r : value) : Res value :=
  a ← promote l; b ← promote r;
  if decide (op = "+"%char) then arith (a + b)
  else if decide (op = "-"%char) then arith (a - b)
  else if decide (op = "*"%char) then arith (a * b)
  else if decide (op = "/"%char) then
    if decide (b = 0) then inr (Throws SignedOverflow) else arith (Z.quot a b)
  else if decide (op = "="%char) then inl (VBool (a =? b))
  else if decide (op = ">"%char) then inl (VBool (b <? a))
  else if decide (op = "<"%char) then inl (VBool (a <? b))
  else inr IllFormed.

(** A condition *)
Definition truth (v : value) : Res bool := z ← promote v; inl (negb (z =? 0)).

(** [x.field(F{})] *)
Definition get_field (v : value) (f : string) : Res value :=
  match v with
  | VStruct fs =>
      match List.find (fun x => bool_decide (x.1 = f)) fs with
      | Some x => inl x.2
      | None => inr IllFormed
      end
  | _ => inr IllFormed
  end.

Definition set_field (v : value) (f : string) (w : value) : Res value :=
  match v with
  | VStruct fs =>
      if existsb (fun x => bool_decide (x.1 = f)) fs
      then inl (VStruct ((fun x : string * value =>
                  if decide (x.1 = f) then (x.1, w) else x) <$> fs))
      else inr IllFormed
  | _ => inr IllFormed
  end.

(** ** Holders in the store *)

(** [s.get(name)]: two holders or none of the name do not compile. *)
Definition find_holder (v : string) : Run holder :=
  s ← get_store; expect IllFormed (holders s !! v).

(** [handle.at(curr_pos)] *)
Definition handle_at (hs : list Handle) (pos : Z) : Run Handle :=
  if (pos <? Z.of_nat (length hs)) && (0 <=? pos)
  then expect (Throws AssertFailed) (hs !! Z.to_nat pos)
  else halt (Throws AssertFailed).

(** [name.get(s, ctx)] *)
Definition holder_get (v : string) : Run value :=
  h ← find_holder v;
  match h with
  | HType h => expect (Throws AssertFailed) (th_get h)
  | HValue o => expect (Throws AssertFailed) o
  | HRemote T hs pos =>
      hndl ← handle_at hs pos;
      s ← get_store;
      expect (Throws AssertFailed) (th_get (super_get T (handle_name hndl) s))
  end.

(** [name.push(s, ctx, x)]: a remote holder writes through its last handle. *)
Definition holder_push (v : string) (x : value) : Run unit :=
  h ← find_holder v;
  s ← get_store;
  match h with
  | HType h => set_store (set_holder v (HType (th_push h x)) s)
  | HValue None => halt (Throws AssertFailed)
  | HValue (Some _) => set_store (set_holder v (HValue (Some x)) s)
  | HRemote T hs pos =>
      hndl ← handle_at hs pos;
      set_store (super_set T (handle_name hndl)
                   (th_push (super_get T (handle_name hndl) s) x) s);;
      back ← expect (Throws AssertFailed) (last hs);
      call (rm_put back x)
  end.

Definition as_handle (v : value) : Run Handle :=
  match v with VHandle h => mret h | _ => halt IllFormed end.

(** [name.bind(s, ctx, dsm, x)]; [tracked]: the phase context is a
    [TrackedPhaseContext]. *)
Definition holder_bind (tracked : bool) (v : string) (x : value) : Run unit :=
  h ← find_holder v;
  s ← get_store;
  match h with
  | HType h =>
      h' ← expect (Throws AssertFailed) (th_bind h x); set_store (set_holder v (HType h') s)
  | HValue _ => set_store (set_holder v (HValue (Some x)) s)
  | HRemote T hs pos =>
      t ← as_handle x;
      set_store (set_holder v (HRemote T (hs ++ [t]) (pos + 1)) s);;
      hndl ← handle_at (hs ++ [t]) (pos + 1);
      target ← call (rm_get hndl);
      s ← get_store;
      h' ← expect (Throws AssertFailed) (th_bind (super_get T (handle_name hndl) s) target);
      set_store (super_set T (handle_name hndl) h' s);;
      if (tracked : bool) then call (trk_read_actions hndl) else mret tt
  end.

(** [remote_holder::increment] *)
Definition increment_super (T : ty) (hs : list Handle) (pos : Z) : Run unit :=
  hndl ← handle_at hs pos;
  s ← get_store;
  set_store (super_set T (handle_name hndl)
               (th_increment (super_get T (handle_name hndl) s)) s).

(** [name.increment(s)]: value holders have no such member. *)
Definition holder_increment (v : string) : Run unit :=
  h ← find_holder v;
  s ← get_store;
  match h with
  | HType h => set_store (set_holder v (HType (th_increment h)) s)
  | HValue _ => halt IllFormed
  | HRemote T hs pos => if 0 <=? pos then increment_super T hs pos else mret tt
  end.

(** [name.increment_remote(s)] *)
Definition holder_increment_remote (v : string) : Run unit :=
  h ← find_holder v;
  s ← get_store;
  match h with
  | HRemote T hs pos =>
      set_store (set_holder v (HRemote T hs (pos + 1)) s);;
      handle_at hs (pos + 1);; increment_super T hs (pos + 1)
  | _ => halt IllFormed
  end.

(** [name.get_remote(ctx)] *)
Definition holder_get_remote (v : string) : Run Handle :=
  h ← find_holder v;
  match h with HRemote _ hs pos => handle_at hs pos | _ => halt IllFormed end.

(** ** The interpreter

    Section variables: the [true]/[false] of [PhaseContext<label>] (whether the
    label runs remotely, so that the tracker is called), and the fuel of every
    [while] loop. *)
Section interpreter.
Variables (tracked : bool) (fuel : nat).

(** [default list] is a fresh list every time it is read. *)
Definition fresh_list : Run value := fun s =>
  (inl (VList (length (st_lists s))),
   RunState (st_store s) (st_lists s ++ [None]) (st_world s)).

(** [push_back]: the cell gets a list if it holds a null pointer. *)
Definition list_push_back (l : nat) (x : value) : Run unit := fun s =>
  match st_lists s !! l with
  | Some c =>
      (inl tt, RunState (st_store s) (<[l := Some (default [] c ++ [x])]> (st_lists s)) (st_world s))
  | None => (inr IllFormed, s)
  end.

(** A variable reference; the built-in names have holders of their own. *)
Definition run_var (v : string) : Run value :=
  if decide (v = "true"%string) then mret (VBool true)
  else if decide (v = "false"%string) then mret (VBool false)
  else if decide (v = list_stub_name) then fresh_list
  else holder_get v.

Fixpoint mapM_run {A B} (f : A -> Run B) (l : list A) : Run (list B) :=
  match l with
  | [] => mret []
  | x :: l => y ← f x; ys ← mapM_run f l; mret (y :: ys)
  end.

(** [_run_phase] on [Operation<name, expr, args...>] *)
Definition run_operation (oper_name : string) (h : value) (args : Run (list value)) : Run value :=
  if decide (oper_name = nulled_name) then
    hndl ← as_handle h; mret (VHandle (rm_nulled hndl))
  else if decide (oper_name = push_back_name) then
    match h with
    | VList l =>
        xs ← args;
        match xs with [x] => list_push_back l x;; mret h | _ => halt IllFormed end
    | _ => halt IllFormed
    end
  else
    hndl ← as_handle h;
    xs ← args;
    if decide (oper_name = "new"%string) then
      match xs with [x] => call (rm_create_new hndl x) | _ => halt IllFormed end
    else call (rm_act oper_name hndl xs).

(** [run_phase] on expressions *)
Fixpoint run_expr (e : pexpr) : Run value :=
  match e with
  | PEVar _ v => run_var v
  | PEField _ s f => x ← run_expr s; lift (get_field x f)
  | PEConst i => mret (VInt i)
  | PEBinOp _ op L R =>
      if decide (op = "&"%char) then
        l ← run_expr L; bl ← lift (truth l);
        if (bl : bool) then r ← run_expr R; br ← lift (truth r); mret (VBool br)
        else mret (VBool false)
      else if decide (op = "|"%char) then
        l ← run_expr L; bl ← lift (truth l);
        if (bl : bool) then mret (VBool true)
        else r ← run_expr R; br ← lift (truth r); mret (VBool br)
      else l ← run_expr L; r ← run_expr R; lift (binop op l r)
  | PEGenerateTombstone => n ← call trk_generateTombstone; mret (VTombstone n)
  | PEIsValid _ h =>
      x ← run_expr h; hndl ← as_handle x; b ← call (rm_isValid hndl); mret (VBool b)
  | PEOperation _ n h args =>
      x ← run_expr h; run_operation n x (mapM_run run_expr args)
  end.

(** [s.get(tombstone_str{}).get(s, ctx).name()] *)
Definition tombstone_name (v : string) : Run Z :=
  x ← run_var v;
  match x with VTombstone n => mret n | _ => halt IllFormed end.

(** [while (condition_val) { ++i; push(i); run(then); condition_val = ...; }] *)
Fixpoint while_loop (n : nat) (cond : Run bool) (body : Run unit) (name : string) (i : Z)
    : Run unit :=
  condition_val ← cond;
  if (condition_val : bool) then
    match n with
    | O => halt NoFuel
    | S n =>
        if in_int (i + 1) then
          holder_push name (VInt (i + 1));; body;; while_loop n cond body name (i + 1)
        else halt (Throws SignedOverflow)
    end
  else mret tt.

(** [for (i = 0; i < bound; ++i) run(then)] *)
Fixpoint repeat_run (n : nat) (body : Run unit) : Run unit :=
  match n with O => mret tt | S n => body;; repeat_run n body end.

(** [run_phase] on statements *)
Fixpoint run_stmt (s : pstmt) : Run unit :=
  match s with
  | PLet b body | PLetRemote b body =>
      x ← run_expr (pb_expr b); holder_bind tracked (pb_var b) x;; run_stmt body
  | POperation n h args =>
      x ← run_expr h; run_operation n x (mapM_run run_expr args);; mret tt
  | PAssignment (PEVar _ v) e => x ← run_expr e; holder_push v x
  | PAssignment (PEField _ (PEVar _ v) f) e =>
      strct ← run_var v; x ← run_expr e; y ← lift (set_field strct f x); holder_push v y
  | PAssignment _ _ => halt IllFormed
  | PReturn e => x ← run_expr e; halt (Returned x)
  | PWriteTombstone (PEVar _ v) =>
      if tracked then n ← tombstone_name v; call (trk_writeTombstone n) else halt IllFormed
  | PWriteTombstone _ => halt IllFormed
  | PAccompanyWrite (PEVar _ v) | PAccompanyWrite (PEField _ (PEVar _ v) _) =>
      if tracked then
        hndl ← holder_get_remote v; n ← tombstone_name tombstone_str;
        call (trk_accompanyWrite (handle_name hndl) n)
      else halt IllFormed
  | PAccompanyWrite _ => halt IllFormed
  | PIncrementOccurance v => holder_increment v
  | PIncrementRemoteOccurance v => holder_increment_remote v
  | PRefreshRemoteOccurance (PEVar (THandle l T) v) =>
      st ← get_store;
      if has_super_map (THandle l T) st then
        x ← run_var v; hndl ← as_handle x;
        target ← call (rm_get hndl);
        st ← get_store;
        set_store (super_set (THandle l T) (handle_name hndl)
                     (th_push (super_get (THandle l T) (handle_name hndl) st) target) st)
      else mret tt
  | PRefreshRemoteOccurance _ => halt IllFormed
  | PIf c t e =>
      x ← run_expr c; b ← lift (truth x); if (b : bool) then run_stmt t else run_stmt e
  | PWhile c body name =>
      holder_bind tracked name (VInt 0);;
      while_loop fuel (x ← run_expr c; lift (truth x)) (run_stmt body) name 0
  | PForEach body name =>
      x ← holder_get name;
      match x with VInt bound => repeat_run (Z.to_nat bound) (run_stmt body) | _ => halt IllFormed end
  | PSequence seq =>
      (fix run_seq (seq : list pstmt) : Run unit :=
         match seq with [] => mret tt | s1 :: seq => run_stmt s1;; run_seq seq end) seq
  end.

(** The statements of a sequence, one after the other *)
Fixpoint run_list (seq : list pstmt) : Run unit :=
  match seq with [] => mret tt | s1 :: seq => run_stmt s1;; run_list seq end.

End interpreter.

(** ** Committing, retrying, and the phases in order *)

Section interp.
Context `{UserLabels} `{TypeLists}.
(** Bounds the iterations of a loop and the attempts of a phase *)
Variable fuel : nat.

Definition is_serialization_failure (e : stop) : bool :=
  match e with
  | Throws SerializationFailure | Throws TombNameCollision => true
  | _ => false
  end.

(** [run_phase1]: the phase works on a copy of the store, which replaces the
    store when the phase commits.  Lists and the world are shared with the copy. *)
Definition run_phase1 (tracked : bool) (p : phase) : Run (option value) := fun s =>
  let fail e s' := (inr e, RunState (st_store s) (st_lists s') (st_world s')) in
  let commit r s' :=
    match call rm_commit s' with
    | (inl _, s'') => (inl r, s'')
    | (inr e, s'') => fail e s''
    end in
  match run_stmt tracked fuel (ph_ast p)
          (RunState (begin_phase (st_store s)) (st_lists s) (st_world s)) with
  | (inl _, s') =>
      (* a phase that should return ends with an exception *)
      if decide (ph_returns p = TVoid) then commit None s' else fail IllFormed s'
  | (inr (Returned v), s') =>
      if decide (ph_returns p = TVoid) then fail (Returned v) s' else commit (Some v) s'
  | (inr e, s') => fail e s'
  end.

Definition end_phase (s : run_state) : run_state :=
  RunState (st_store s) (st_lists s) (rm_end (st_world s)).

(** [common_interp_loop]: the [PhaseContext] is a local variable. *)
Definition common_interp_loop (tracked : bool) (p : phase) : Run (option value) := fun s =>
  let '(r, s') := run_phase1 tracked p s in (r, end_phase s').

(** [common_interp]: phases of a label that cannot abort are tried again. *)
Fixpoint common_interp_fuel (n : nat) (tracked can_abort : bool) (p : phase)
    : Run (option value) := fun s =>
  match n with
  | O => (inr NoFuel, s)
  | S n =>
      match common_interp_loop tracked p s with
      | (inr e, s') =>
          if is_serialization_failure e && negb can_abort
          then common_interp_fuel n tracked can_abort p s' else (inr e, s')
      | r => r
      end
  end.

Definition common_interp (p : phase) : Run (option value) :=
  match traits_of (ph_label p) with
  | Ok tr => common_interp_fuel (S fuel) (run_remotely tr) (can_abort tr) p
  | Err _ => halt IllFormed
  end.

(** [dispatch_to_runner] without remote servers: what the last phase returns
    is what the transaction returns. *)
Fixpoint dispatch_to_runner (phases : list phase) : Run (option value) :=
  match phases with
  | [] => halt IllFormed
  | [phase1] => common_interp phase1
  | phase1 :: phases => common_interp phase1;; dispatch_to_runner phases
  end.

(** *** The store of a transaction *)

(** [store<holders...>::remove<name>] *)
Fixpoint remove_name (name : string) (hs : list holder_type) : list holder_type :=
  match hs with
  | [] => []
  | h :: hs => if decide (holder_name h = name) then hs else h :: remove_name name hs
  end.

(** [store<holders...>::replace<envs...>] *)
Definition replace (hs envs : list holder_type) : list holder_type :=
  foldl (fun hs e =>
    (if decide (holder_name e ∈ holder_name <$> hs) then remove_name (holder_name e) hs else hs)
      ++ [e]) hs envs.

(** [transaction<phases...>::all_store<env...>] *)
Definition all_store (phases : list phase) (env : list holder_type) : list holder_type :=
  match phases with
  | [] => env
  | p1 :: phases' =>
      replace
        (typeset_combine
          (typeset_combine
            (typeset_combine_all (ph_provides p1) (ph_provides <$> phases'))
            (foldl typeset_intersect (ph_requirements p1) (ph_requirements <$> phases')))
          (holder_to_value <$>
             typeset_combine_all (ph_owned p1) (ph_owned <$> phases')))
        env
  end.

(** An argument of the transaction: [value<type, name...>{v}] *)
Record argument : Type := Argument { arg_name : string; arg_type : ty; arg_value : value }.

(** [store(dsm, values...)] binds the last argument first. *)
Definition bind_arguments (args : list argument) (s : store) : store :=
  foldr (fun a s => set_holder (arg_name a) (HValue (Some (arg_value a))) s) s args.

Definition arg_holder (a : argument) : holder_type := value_holder (arg_type a) (arg_name a).

(** [begin_interp2]: a store with two holders of one name is rejected. *)
Definition begin_interp (phases : list phase) (args : list argument) (w : W)
    : (option value + stop) * run_state :=
  let hs := all_store phases (arg_holder <$> args) in
  let s := RunState (bind_arguments args (empty_store hs)) [] w in
  if decide (NoDup (holder_name <$> hs)) then dispatch_to_runner phases s
  else (inr IllFormed, s).

End interp.

End run.
