(* ===== verification/RunPhaseCorrect.v ===== *)
(** * Phases are transactions

    Facts about [mtl/run_phase.hpp] that hold for any phase: an attempt that stops
    leaves the store of the transaction as it was, attempts are repeated for the
    labels that cannot abort and only for those, and the phases that follow one
    that stopped do not run. *)
From S2P Require Import Prelude TypeLists Labels TypedAst SplitAst PhaseApi Split Runtime Holders.
From S2P Require Import RunPhase.

(** ** One attempt *)

Section attempts.
Context `{Remote} `{UserLabels} `{TypeLists}.
Variables (fuel : nat) (p : phase).

Lemma call_store {A} (m : RT W A) s r s' : call m s = (r, s') -> st_store s' = st_store s.
Proof. unfold call. destruct (m (st_world s)) as [r0 w]. by intros [= _ <-]. Qed.

Lemma phase1_store tracked s e s' : run_phase1 fuel tracked p s = (inr e, s') ->
  st_store s' = st_store s.
Proof.
  unfold run_phase1. destruct (run_stmt _ _ _ _) as [[u|e0] s1].
  - destruct (decide _); [destruct (call _ _) as [[?|?] s2]|]; by intros [= _ <-].
  - destruct e0; try by intros [= _ <-].
    destruct (decide _); [by intros [= _ <-]|].
    destruct (call _ _) as [[?|?] s2]; by intros [= _ <-].
Qed.

Lemma phase1_commits tracked s r s' : run_phase1 fuel tracked p s = (inl r, s') ->
  exists s1 w, rm_commit (st_world s1) = (inl tt, w) /\ st_world s' = w /\
    st_store s' = st_store s1 /\
    run_stmt tracked fuel (ph_ast p)
      (RunState (begin_phase (st_store s)) (st_lists s) (st_world s)) =
      (match r with Some v => inr (Returned v) | None => inl tt end, s1).
Proof.
  unfold run_phase1, call.
  destruct (run_stmt _ _ _ _) as [[[]|e0] s1] eqn:Hrun.
  - destruct (decide _); [|done].
    destruct (rm_commit (st_world s1)) as [[[]|?] w] eqn:Hc; [|done].
    intros [= <- <-]. by exists s1, w.
  - destruct e0; try done. destruct (decide _); [done|].
    destruct (rm_commit (st_world s1)) as [[[]|?] w] eqn:Hc; [|done].
    intros [= <- <-]. by exists s1, w.
Qed.

Lemma attempt_store tracked s e s' : common_interp_loop fuel tracked p s = (inr e, s') ->
  st_store s' = st_store s.
Proof.
  unfold common_interp_loop. destruct (run_phase1 fuel tracked p s) as [r s1] eqn:Hr.
  intros [= -> <-]. by apply phase1_store in Hr.
Qed.

(** C31: an attempt at a phase is atomic for the store: if it stops, for whatever
  reason, the store of the transaction is what it was; if it succeeds, the data
  stores have committed and the new store is the one the phase worked on. *)
Theorem attempt_atomic tracked s r s' : common_interp_loop fuel tracked p s = (r, s') ->
  match r with
  | inr _ => st_store s' = st_store s
  | inl v => exists s1 w, rm_commit (st_world s1) = (inl tt, w) /\ st_world s' = rm_end w /\
      st_store s' = st_store s1 /\
      run_stmt tracked fuel (ph_ast p)
        (RunState (begin_phase (st_store s)) (st_lists s) (st_world s)) =
        (match v with Some v => inr (Returned v) | None => inl tt end, s1)
  end.
Proof.
  intros Hl. destruct r; [|by eapply attempt_store].
  revert Hl. unfold common_interp_loop. destruct (run_phase1 fuel tracked p s) as [r s1] eqn:Hr.
  intros [= -> <-]. apply phase1_commits in Hr as (s2 & w & ? & <- & ? & ?). by exists s2, (st_world s1).
Qed.

(** ** Repeated attempts *)

(** [n] attempts in a row fail to serialize. *)
Inductive fails (tracked : bool) : nat -> run_state -> run_state -> Prop :=
| fails_0 s : fails tracked 0 s s
| fails_S n s e s1 s2 : common_interp_loop fuel tracked p s = (inr e, s1) ->
    is_serialization_failure e = true -> fails tracked n s1 s2 -> fails tracked (S n) s s2.

Lemma fails_store tracked n s s' : fails tracked n s s' -> st_store s' = st_store s.
Proof. induction 1 as [|n s e s1 s2 Hl _ _ IH]; [done|]. by rewrite IH, (attempt_store _ _ _ _ Hl). Qed.

Lemma retries tracked n m s s1 r s' : fails tracked n s s1 -> n < m ->
  common_interp_loop fuel tracked p s1 = (r, s') ->
  match r with inr e => is_serialization_failure e = false | inl _ => True end ->
  common_interp_fuel fuel m tracked false p s = (r, s').
Proof.
  intros Hf. revert m. induction Hf as [s|n s e s1 s2 Hl He Hf IH]; intros m Hm Hr Hs;
    (destruct m as [|m]; [lia|]); cbn [common_interp_fuel].
  - rewrite Hr. destruct r as [v|e]; [done|]. by rewrite Hs.
  - rewrite Hl, He. cbn [andb negb]. apply IH; [lia|done..].
Qed.

(** C32: a phase of a label that cannot abort is tried until it serializes: after
  any number of failures the attempt that does not fail to serialize gives the
  result, and it works on the store the transaction had before the first one. *)
Theorem common_interp_retries tr n s s1 r s' :
  traits_of (ph_label p) = Ok tr -> can_abort tr = false ->
  fails (run_remotely tr) n s s1 -> n <= fuel ->
  common_interp_loop fuel (run_remotely tr) p s1 = (r, s') ->
  match r with inr e => is_serialization_failure e = false | inl _ => True end ->
  common_interp fuel p s = (r, s') /\ st_store s1 = st_store s.
Proof.
  intros Ht Ha Hf Hn Hr Hs. split; [|by eapply fails_store].
  unfold common_interp. rewrite Ht, Ha. eapply retries; [done|lia|done..].
Qed.

(** a phase of a label that can abort is tried once, and what stops it stops
  the transaction: the failure is passed on and the store is what it was. *)
Theorem common_interp_aborts tr s e s' : traits_of (ph_label p) = Ok tr -> can_abort tr = true ->
  common_interp_loop fuel (run_remotely tr) p s = (inr e, s') ->
  common_interp fuel p s = (inr e, s') /\ st_store s' = st_store s /\
  (forall ps, dispatch_to_runner fuel (p :: ps) s = (inr e, s')).
Proof.
  intros Ht Ha Hl.
  assert (Hc : common_interp fuel p s = (inr e, s')).
  { unfold common_interp. rewrite Ht, Ha. cbn [common_interp_fuel]. rewrite Hl.
    by rewrite andb_false_r. }
  split_and!; [done|by eapply attempt_store|]. intros [|q ps]; [done|].
  cbn [dispatch_to_runner]. unfold mbind, Run_bind. by rewrite Hc.
Qed.
End attempts.

(** ** Witnesses *)

Module World.
(** A world that refuses the first commits *)
#[local] Instance no_handles : Handles := {| Handle := Z; handle_name := fun z => z |}.
#[local] Instance refusing : Remote := {|
  W := nat;
  rm_get := fun _ => throw AssertFailed; rm_put := fun _ _ => throw AssertFailed;
  rm_isValid := fun _ => throw AssertFailed; rm_act := fun _ _ _ => throw AssertFailed;
  rm_create_new := fun _ _ => throw AssertFailed; rm_nulled := fun h => h;
  rm_commit := fun w => match w with O => (inl tt, O) | S w => (inr SerializationFailure, w) end;
  rm_end := fun w => w;
  trk_read_actions := fun _ => mret tt; trk_accompanyWrite := fun _ _ => mret tt;
  trk_writeTombstone := fun _ => mret tt; trk_generateTombstone := mret 0%Z |}.

(** [x = 1] in the phase of [causal] or of [strong] *)
Definition assign_one (l : label) : phase :=
  Phase l TVoid (PAssignment (PEVar TInt "x") (PEConst 1)) [] [] [] [].
Definition start (w : nat) : run_state :=
  RunState (Store {[ "x" := HValue (Some (VInt 0)) ]} []) [] w.
Definition changed : run_state :=
  RunState (Store {[ "x" := HValue (Some (VInt 1)) ]} []) [] 0.

Lemma attempt_atomic_witness :
  common_interp_loop 5 false (assign_one strong) (start 1) = (inr (Throws SerializationFailure), start 0) /\
  st_store (start 0) = st_store (start 1).
Proof.
  split; [vm_compute; reflexivity|].
  apply (attempt_atomic 5 (assign_one strong) false (start 1) (inr (Throws SerializationFailure))).
  vm_compute. reflexivity.
Defined.

Lemma common_interp_retries_witness :
  common_interp 5 (assign_one causal) (start 2) = (inl None, changed) /\
  st_store (start 0) = st_store (start 2).
Proof.
  apply (common_interp_retries 5 (assign_one causal) causal_traits 2 (start 2) (start 0)).
  - vm_compute. reflexivity.
  - vm_compute. reflexivity.
  - eapply (fails_S _ _ _ 1 _ _ (start 1)); [vm_compute; reflexivity|vm_compute; reflexivity|].
    eapply (fails_S _ _ _ 0 _ _ (start 0)); [vm_compute; reflexivity|vm_compute; reflexivity|].
    apply fails_0.
  - lia.
  - vm_compute. reflexivity.
  - exact Logic.I.
Defined.

Lemma common_interp_aborts_witness :
  common_interp 5 (assign_one strong) (start 1) = (inr (Throws SerializationFailure), start 0) /\
  st_store (start 0) = st_store (start 1) /\
  (forall ps, dispatch_to_runner 5 (assign_one strong :: ps) (start 1) =
    (inr (Throws SerializationFailure), start 0)).
Proof.
  apply (common_interp_aborts 5 (assign_one strong) strong_traits); vm_compute; reflexivity.
Defined.
End World.

(** ** What a phase does to the world is what its calls do *)

(** A statement touches the world only by the calls of [Remote]: what every call keeps,
    a statement and an attempt at a phase keep, however they end. *)

#[local] Open Scope Z_scope.

Section world.
Context `{Remote}.
Variable I : W -> Prop.

Definition keeps_call {A} (m : RT W A) : Prop := forall w, I w -> I (m w).2.

(** The calls of a phase; the tracker is called by the phases of remote labels. *)
Class calls_keep : Prop := {
  get_call h : keeps_call (rm_get h);
  put_call h x : keeps_call (rm_put h x);
  isValid_call h : keeps_call (rm_isValid h);
  act_call n h xs : keeps_call (rm_act n h xs);
  create_new_call h x : keeps_call (rm_create_new h x);
  read_actions_call h : keeps_call (trk_read_actions h);
  accompanyWrite_call n m : keeps_call (trk_accompanyWrite n m);
  writeTombstone_call n : keeps_call (trk_writeTombstone n);
  generateTombstone_call : keeps_call trk_generateTombstone;
}.

Definition world_keeps {A} (m : Run A) : Prop := forall s, I (st_world s) -> I (st_world (m s).2).

Lemma world_same {A} (m : Run A) : (forall s, st_world (m s).2 = st_world s) -> world_keeps m.
Proof. intros Hm s Hs. by rewrite Hm. Qed.

Lemma world_ret {A} (a : A) : world_keeps (mret a).
Proof. by intros s. Qed.
Lemma world_bind {A B} (m : Run A) (f : A -> Run B) :
  world_keeps m -> (forall a, world_keeps (f a)) -> world_keeps (m ≫= f).
Proof.
  intros Hm Hf s Hs. specialize (Hm s Hs). unfold mbind, Run_bind.
  destruct (m s) as [[a|e] s1]; simpl in *; [by apply Hf|done].
Qed.
Lemma world_halt {A} e : world_keeps (halt (A := A) e).
Proof. by intros s. Qed.
Lemma world_lift {A} (r : Res A) : world_keeps (lift r).
Proof. by intros s. Qed.
Lemma world_get_store : world_keeps get_store.
Proof. by intros s. Qed.
Lemma world_set_store st : world_keeps (set_store st).
Proof. by intros s. Qed.
Lemma world_expect {A} e (o : option A) : world_keeps (expect e o).
Proof. destruct o; by intros s. Qed.
Lemma world_find v : world_keeps (find_holder v).
Proof. apply world_bind; [apply world_get_store|]. intros s. apply world_expect. Qed.
Lemma world_handle_at hs pos : world_keeps (handle_at hs pos).
Proof. unfold handle_at. destruct (_ && _); [apply world_expect|apply world_halt]. Qed.
Lemma world_as_handle v : world_keeps (as_handle v).
Proof. destruct v; by intros s. Qed.
Lemma world_fresh_list : world_keeps fresh_list.
Proof. by intros s. Qed.
Lemma world_push_back l x : world_keeps (list_push_back l x).
Proof. apply world_same. intros s. unfold list_push_back. by destruct (_ !! l). Qed.
Lemma world_call {A} (m : RT W A) : keeps_call m -> world_keeps (call m).
Proof. intros Hm s Hs. unfold call. specialize (Hm _ Hs). by destruct (m (st_world s)). Qed.
End world.

Create HintDb world.
#[export] Hint Resolve world_ret world_halt world_lift world_get_store world_set_store world_expect
  world_find world_handle_at world_as_handle world_fresh_list world_push_back world_call : world.
#[export] Hint Resolve get_call put_call isValid_call act_call create_new_call read_actions_call
  accompanyWrite_call writeTombstone_call generateTombstone_call : world.

(** A computation built from steps that keep the world's invariant *)
Ltac world_steps := repeat match goal with
  | |- world_keeps _ (_ ≫= _) => apply world_bind; [|intros ?]
  | |- world_keeps _ (if ?b then _ else _) => destruct b
  | |- world_keeps _ (match ?x with _ => _ end) => destruct x
  | |- world_keeps _ _ => solve [eauto with world]
  end.

Section statements.
Context `{Remote}.
Variable I : W -> Prop.
Context `{!calls_keep I}.
#[local] Abbreviation world_keeps := (world_keeps I).

Lemma world_push v x : world_keeps (holder_push v x).
Proof. unfold holder_push. world_steps. Qed.
Lemma world_bind_var tracked v x : world_keeps (holder_bind tracked v x).
Proof. unfold holder_bind. world_steps. Qed.
Lemma world_increment v : world_keeps (holder_increment v).
Proof. unfold holder_increment, increment_super. world_steps. Qed.
Lemma world_increment_remote v : world_keeps (holder_increment_remote v).
Proof. unfold holder_increment_remote, increment_super. world_steps. Qed.
Lemma world_get v : world_keeps (holder_get v).
Proof. unfold holder_get. world_steps. Qed.
Lemma world_get_remote v : world_keeps (holder_get_remote v).
Proof. unfold holder_get_remote. world_steps. Qed.
#[local] Hint Resolve world_push world_bind_var world_increment world_increment_remote
  world_get world_get_remote : world.
Lemma world_var v : world_keeps (run_var v).
Proof. unfold run_var. world_steps. Qed.
#[local] Hint Resolve world_var : world.
Lemma world_tombstone v : world_keeps (tombstone_name v).
Proof. unfold tombstone_name. world_steps. Qed.
#[local] Hint Resolve world_tombstone : world.

Lemma world_mapM {A B} (f : A -> Run B) l : Forall (fun a => world_keeps (f a)) l ->
  world_keeps (mapM_run f l).
Proof. induction 1; cbn [mapM_run]; world_steps. Qed.
Lemma world_operation n h args : world_keeps args -> world_keeps (run_operation n h args).
Proof. intros Ha. unfold run_operation. world_steps. Qed.

Lemma world_expr e : world_keeps (run_expr e).
Proof.
  induction e as [y v|y s f IH|i|y op L R IHL IHR| |y h IH|y n h args IHh IHa] using pexpr_ind';
    cbn [run_expr]; world_steps.
  apply world_operation, world_mapM, IHa.
Qed.
#[local] Hint Resolve world_expr : world.

Lemma world_while n cond body name i : world_keeps cond -> world_keeps body ->
  world_keeps (while_loop n cond body name i).
Proof.
  intros Hc Hb. revert i. induction n as [|n IH]; intros i; cbn [while_loop]; world_steps.
Qed.
Lemma world_repeat n body : world_keeps body -> world_keeps (repeat_run n body).
Proof. intros Hb. induction n; cbn [repeat_run]; world_steps. Qed.
#[local] Hint Resolve world_while world_repeat : world.

Lemma world_stmt tracked fuel p : world_keeps (run_stmt tracked fuel p).
Proof.
  induction p as [b p IH|b p IH|n h args|v e|e|e|e|v|v|h|c t e IHt IHe|c p name IH|p name IH|ss IH]
    using pstmt_ind'; cbn [run_stmt]; world_steps.
  - apply world_operation, world_mapM, Forall_forall. intros x _. apply world_expr.
  - apply world_while; [world_steps|done].
  - induction IH; world_steps.
Qed.

(** The state an attempt starts from *)
Definition phase_start (s : run_state) : run_state :=
  RunState (begin_phase (st_store s)) (st_lists s) (st_world s).

(** A commit, and the end of the phase, may change what the statements keep. *)
Lemma phase1_world fuel tracked p s r s' : run_phase1 fuel tracked p s = (r, s') -> I (st_world s) ->
  exists s1, I (st_world s1) /\
    match r with
    | inl v => run_stmt tracked fuel (ph_ast p) (phase_start s) =
          (match v with Some x => inr (Returned x) | None => inl tt end, s1) /\
        (rm_commit (st_world s1)) = (inl tt, st_world s')
    | inr e => st_world s' = st_world s1 \/
        exists v e', e = Throws e' /\
          run_stmt tracked fuel (ph_ast p) (phase_start s) =
            (match v with Some x => inr (Returned x) | None => inl tt end, s1) /\
          rm_commit (st_world s1) = (inr e', st_world s')
    end.
Proof.
  intros Hrun HI. pose proof (world_stmt tracked fuel (ph_ast p) (phase_start s) HI) as Hk.
  destruct (run_stmt tracked fuel (ph_ast p) (phase_start s)) as [r1 s1] eqn:Hr1. exists s1.
  split; [done|]. revert Hrun. unfold run_phase1, call. fold (phase_start s). rewrite Hr1.
  destruct (rm_commit (st_world s1)) as [[[]|e'] w] eqn:Hc;
    destruct r1 as [[]|[e|v| |]]; repeat case_decide; intros [= <- <-]; simpl; eauto;
    right; [by exists None, e'|by exists (Some v), e'].
Qed.
End statements.
