(* ===== verification/SplitSpec.v ===== *)
(** * What a transaction means before it is split

    The specification phase splitting is held to: a transaction over local
    variables, run as one program over one environment.  [exec] is that
    interpreter; [run] is the same execution with every version of every variable
    remembered, which is what the phases of the split program reproduce. *)
From S2P Require Import Prelude TypeLists Labels TypedAst LabelCollect PhaseApi Runtime Holders.
From S2P Require Import RunPhase.

(** ** The fragment the specification gives a meaning to *)

Fixpoint is_local_expr (e : expr) : bool :=
  match e with
  | EVar _ _ v =>
      bool_decide (v = "true" \/ v = "false")%string || negb (is_builtin v)
  | EField _ _ s _ => is_local_expr s
  | EConst _ => true
  | EBinOp _ _ _ L R => is_local_expr L && is_local_expr R
  | _ => false
  end.

(** An assigned variable, or a field of one *)
Definition is_local_target (e : expr) : bool :=
  match e with
  | EVar _ _ v | EField _ _ (EVar _ _ v) _ => negb (is_builtin v)
  | _ => false
  end.

Fixpoint is_local (s : stmt) : bool :=
  match s with
  | SLet _ b body => is_local_expr (b_expr b) && is_local body
  | SAssignment _ v e => is_local_target v && is_local_expr e
  | SReturn _ e => is_local_expr e
  | SIf _ c t e => is_local_expr c && is_local t && is_local e
  | SWhile _ c body _ => is_local_expr c && is_local body
  | SSequence _ seq => forallb is_local seq
  | _ => false
  end.

(** Take apart a hypothesis [... = inl _] built from binds. *)
Lemma res_bind_inl `{Remote} {A B} (m : Res A) (f : A -> Res B) b :
  (m ≫= f) = inl b -> exists a, m = inl a /\ f a = inl b.
Proof. unfold mbind, Res_bind. destruct m; [eauto|done]. Qed.

Ltac res_inv := repeat match goal with
  | H : (_ ≫= _) = inl _ |- _ =>
      let a := fresh "a" in apply res_bind_inl in H as (a & ? & H)
  | H : inl _ = inl _ |- _ => injection H as H; subst
  | H : inr _ = inl _ |- _ => discriminate H
  end.

Section spec.
Context `{Remote}.

(** ** The reference interpreter *)

Fixpoint eval (env : string -> option value) (e : expr) : Res value :=
  match e with
  | EVar _ _ v =>
      if decide (v = "true"%string) then inl (VBool true)
      else if decide (v = "false"%string) then inl (VBool false)
      else match env v with Some x => inl x | None => inr (Throws AssertFailed) end
  | EField _ _ s f => x ← eval env s; get_field x f
  | EConst i => inl (VInt i)
  | EBinOp _ _ op L R =>
      if decide (op = "&"%char) then
        l ← eval env L; bl ← truth l;
        if (bl : bool) then r ← eval env R; br ← truth r; inl (VBool br) else inl (VBool false)
      else if decide (op = "|"%char) then
        l ← eval env L; bl ← truth l;
        if (bl : bool) then inl (VBool true) else r ← eval env R; br ← truth r; inl (VBool br)
      else l ← eval env L; r ← eval env R; binop op l r
  | _ => inr IllFormed
  end.

(** The values of the variables in scope *)
Abbreviation env := (gmap string value).

(** What an assignment to [var] stores when the assigned expression is [x] *)
Definition assigned_value (env : string -> option value) (var : expr) (x : value)
    : Res (string * value) :=
  match var with
  | EVar _ _ v => match env v with Some _ => inl (v, x) | None => inr (Throws AssertFailed) end
  | EField _ _ (EVar _ _ v) f =>
      match env v with
      | Some s => y ← set_field s f x; inl (v, y)
      | None => inr (Throws AssertFailed)
      end
  | _ => inr IllFormed
  end.

(** [fuel] bounds the iterations of every loop.  The result is the final
    environment, and the returned value once the transaction has returned. *)
Fixpoint exec_loop (n : nat) (cond : env -> Res bool) (body : env -> Res (env * option value))
    (s : env) : Res (env * option value) :=
  b ← cond s;
  if (b : bool) then
    match n with
    | O => inr NoFuel
    | S n =>
        r ← body s;
        match r.2 with Some _ => inl r | None => exec_loop n cond body r.1 end
    end
  else inl (s, None).

Fixpoint exec (fuel : nat) (st : stmt) (s : env) : Res (env * option value) :=
  match st with
  | SLet _ b body =>
      x ← eval (fun v => s !! v) (b_expr b); exec fuel body (<[b_var b := x]> s)
  | SAssignment _ var e =>
      x ← eval (fun v => s !! v) e;
      w ← assigned_value (fun v => s !! v) var x;
      inl (<[w.1 := w.2]> s, None)
  | SReturn _ e => x ← eval (fun v => s !! v) e; inl (s, Some x)
  | SIf _ c t e =>
      x ← eval (fun v => s !! v) c; b ← truth x;
      if (b : bool) then exec fuel t s else exec fuel e s
  | SWhile _ c body _ =>
      exec_loop fuel (fun s => x ← eval (fun v => s !! v) c; truth x) (exec fuel body) s
  | SSequence _ seq =>
      (fix exec_seq (seq : list stmt) (s : env) : Res (env * option value) :=
         match seq with
         | [] => inl (s, None)
         | s1 :: seq =>
             r ← exec fuel s1 s;
             match r.2 with Some _ => inl r | None => exec_seq seq r.1 end
         end) seq s
  | _ => inr IllFormed
  end.

(** What the transaction returns on its arguments *)
Definition exec_transaction (fuel : nat) (st : stmt) (args : list argument) : Res value :=
  r ← exec fuel st (list_to_map ((fun a => (arg_name a, arg_value a)) <$> args));
  match r.2 with Some v => inl v | None => inr IllFormed end.

(** ** Executions with all versions *)

(** Every version of every variable with the label of the statement that
    wrote it, and how often every loop iterated each time it was entered *)
Record hist : Type := Hist {
  vers : string -> list (label * value); counts : string -> list nat }.

Definition cur (h : hist) (x : string) : option value := snd <$> last (vers h x).

Definition upd {A} (f : string -> list A) (x : string) (a : A) (y : string) : list A :=
  if decide (x = y) then f y ++ [a] else f y.

Definition write (x : string) (l : label) (v : value) (h : hist) : hist :=
  Hist (upd (vers h) x (l, v)) (counts h).
Definition finish (w : string) (k : nat) (h : hist) : hist :=
  Hist (vers h) (upd (counts h) w k).

(** [N] bounds the iterations of a loop. *)
Section run.
Variable N : nat.

Inductive run : stmt -> hist -> hist -> option value -> Prop :=
| run_let l b body h x h' r :
    eval (cur h) (b_expr b) = inl x ->
    run body (write (b_var b) l x h) h' r ->
    run (SLet l b body) h h' r
| run_assignment l var e h x v y :
    eval (cur h) e = inl x -> assigned_value (cur h) var x = inl (v, y) ->
    run (SAssignment l var e) h (write v l y h) None
| run_return l e h x :
    eval (cur h) e = inl x -> run (SReturn l e) h h (Some x)
| run_if l c t e h x b h' r :
    eval (cur h) c = inl x -> truth x = inl b ->
    run (if (b : bool) then t else e) h h' r ->
    run (SIf l c t e) h h' r
| run_while l c body w h h' k :
    loop c body h h' k -> k <= N ->
    run (SWhile l c body w) h (finish w k h') None
| run_nil l h : run (SSequence l []) h h None
| run_cons l s ss h h1 h' r :
    run s h h1 None -> run (SSequence l ss) h1 h' r ->
    run (SSequence l (s :: ss)) h h' r
| run_cons_return l s ss h h' v :
    run s h h' (Some v) -> run (SSequence l (s :: ss)) h h' (Some v)
with loop : expr -> stmt -> hist -> hist -> nat -> Prop :=
| loop_end c body h x :
    eval (cur h) c = inl x -> truth x = inl false -> loop c body h h 0
| loop_step c body h x h1 h' k :
    eval (cur h) c = inl x -> truth x = inl true ->
    run body h h1 None -> loop c body h1 h' k ->
    loop c body h h' (S k).

Scheme run_ind' := Minimality for run Sort Prop
  with loop_ind' := Minimality for loop Sort Prop.
Combined Scheme run_loop_ind from run_ind', loop_ind'.
End run.

(** ** The reference interpreter produces such executions *)

(** [return] only as the very last statement *)
Fixpoint returns_at_tail (tail : bool) (s : stmt) : bool :=
  match s with
  | SLet _ _ body | SLetRemote _ _ body => returns_at_tail tail body
  | SReturn _ _ => tail
  | SIf _ _ t e => returns_at_tail false t && returns_at_tail false e
  | SWhile _ _ body _ => returns_at_tail false body
  | SSequence _ seq =>
      (fix go (seq : list stmt) : bool :=
         match seq with
         | [] => true
         | [s] => returns_at_tail tail s
         | s :: seq => returns_at_tail false s && go seq
         end) seq
  | _ => true
  end.

Lemma eval_ext f g e : (forall x, f x = g x) -> eval f e = eval g e.
Proof.
  intros Hfg. induction e using expr_ind'; simpl; rewrite ?Hfg; try done.
  - by rewrite IHe.
  - by rewrite IHe1, IHe2.
Qed.

Lemma assigned_value_ext f g var x : (forall x, f x = g x) ->
  assigned_value f var x = assigned_value g var x.
Proof. intros Hfg. destruct var as [|? ? [] ?| | | | | |]; simpl; by rewrite ?Hfg. Qed.

Lemma cur_write x l v h y : cur (write x l v h) y = if decide (x = y) then Some v else cur h y.
Proof. unfold cur, write, upd; simpl. case_decide; [by rewrite last_snoc|done]. Qed.

Definition agree (s : env) (h : hist) : Prop := forall x, s !! x = cur h x.

Lemma agree_write s h x l v : agree s h -> agree (<[x := v]> s) (write x l v h).
Proof.
  intros Hs y. rewrite cur_write. case_decide; [subst; apply lookup_insert_eq|].
  rewrite lookup_insert_ne by done. apply Hs.
Qed.

Lemma tail_cons tail l s ss : returns_at_tail tail (SSequence l (s :: ss)) = true ->
  returns_at_tail (bool_decide (ss = []) && tail) s = true /\
  returns_at_tail tail (SSequence l ss) = true.
Proof. simpl. destruct ss as [|s' ss]; [done|]. by rewrite andb_true_iff. Qed.

Lemma exec_loop_no_return n cond body s r :
  (forall s r, body s = inl r -> r.2 = None) ->
  exec_loop n cond body s = inl r -> r.2 = None.
Proof.
  intros Hbody. revert s. induction n as [|n IH]; intros s Hr; simpl in Hr; res_inv;
    (destruct a; res_inv; try done).
  rename a into r1. rewrite (Hbody s r1) in Hr by done. eauto.
Qed.

Lemma exec_no_return fuel st s r : returns_at_tail false st = true ->
  exec fuel st s = inl r -> r.2 = None.
Proof.
  revert s r. induction st as [| | | | | | |l c t e IHt IHe|l c st w IH|l ss IH] using stmt_ind';
    intros s r Ht Hr; simpl in Ht, Hr; res_inv; try done; eauto.
  - apply andb_true_iff in Ht as [Ht He]. destruct a0; eauto.
  - eapply exec_loop_no_return; [|exact Hr]. eauto.
  - revert s Hr. induction IH as [|st ss Hst Hss IH]; intros s Hr; res_inv; [done|].
    apply (tail_cons false l) in Ht as [Ht1 Ht2]. rewrite andb_false_r in Ht1.
    rewrite (Hst s a) in Hr by done. eauto.
Qed.

Lemma exec_loop_run c body fuel n s h r : n <= fuel ->
  returns_at_tail false body = true ->
  (forall s h r, exec fuel body s = inl r -> agree s h ->
    exists h', run fuel body h h' r.2 /\ agree r.1 h') ->
  exec_loop n (fun s => x ← eval (fun v => s !! v) c; truth x) (exec fuel body) s = inl r ->
  agree s h ->
  r.2 = None /\ exists h' k, loop fuel c body h h' k /\ k <= n /\ agree r.1 h'.
Proof.
  intros Hn Ht Hbody. revert s h Hn. induction n as [|n IH]; intros s h Hn Hr Ha;
    simpl in Hr; res_inv; rewrite (eval_ext _ (cur h)) in * by done;
    (destruct a; res_inv; try (split; [done|]; exists h, 0; split_and!;
       [by eapply loop_end|lia|done])).
  rename a into r1. pose proof (exec_no_return fuel body s r1 Ht ltac:(done)) as Hnone.
  destruct (Hbody s h r1 ltac:(done) Ha) as (h1 & Hrun & Ha1). rewrite Hnone in *.
  destruct (IH r1.1 h1 ltac:(lia) Hr Ha1) as (? & h' & k & Hl & Hk & Ha').
  split; [done|]. exists h', (S k). split_and!; [by eapply loop_step|lia|done].
Qed.

Lemma exec_run tail fuel st s h r : returns_at_tail tail st = true ->
  exec fuel st s = inl r -> agree s h ->
  exists h', run fuel st h h' r.2 /\ agree r.1 h'.
Proof.
  revert tail s h r. induction st as [l b st IH|? ? ? ?|l n hd args|l v e|l e|? ?|? ?|l c t e IHt IHe|l c st w IH|l ss IH]
    using stmt_ind'; intros tail s h r Ht Hr Ha; simpl in Ht, Hr; res_inv;
    rewrite ?(eval_ext _ (cur h)), ?(assigned_value_ext _ (cur h)) in * by done; try done.
  - destruct (IH tail _ (write (b_var b) l a h) r Ht Hr) as (h' & Hrun & Ha');
      [by apply agree_write|]. exists h'. split; [by eapply run_let|done].
  - destruct a0 as [x y]. exists (write x l y h). split; [by eapply run_assignment|by apply agree_write].
  - exists h. split; [by apply run_return|done].
  - apply andb_true_iff in Ht as [Ht He].
    assert (Hb : exists h', run fuel (if (a0 : bool) then t else e) h h' r.2 /\ agree r.1 h')
      by (destruct a0; eauto).
    destruct Hb as (h' & Hrun & Ha'). exists h'. split; [by eapply run_if|done].
  - destruct (exec_loop_run c st fuel fuel s h r) as (Hnone & h' & k & Hl & Hk & Ha');
      [lia|done|eauto|done|done|]. rewrite Hnone.
    exists (finish w k h'). split; [by apply run_while|done].
  - revert s h Ha Hr. induction IH as [|st ss Hst Hss IH]; intros s h Ha Hr; res_inv.
    { exists h. split; [constructor|done]. }
    apply (tail_cons tail l) in Ht as [Ht1 Ht2].
    destruct (Hst _ s h a Ht1 ltac:(done) Ha) as (h1 & Hrun & Ha1).
    destruct a as [s1 [v|]]; simpl in *; res_inv; [exists h1; split; [by constructor|done]|].
    destruct (IH Ht2 s1 h1 Ha1 Hr) as (h' & Hrun' & Ha'). exists h'.
    split; [by eapply run_cons|done].
Qed.

End spec.
