(* ===== verification/SplitProj.v ===== *)
(** * What a phase keeps of a transaction

    [proj l R s ps]: the statements [ps] are what the phase of label [l] keeps of
    the local statement [s] when [R] are the names it requires from earlier
    phases.  The passes of [Split] produce such statements: [collect_phase] keeps
    every increment, [remove_unused] drops those of names the phase does not
    require, [clear_empty_statements] drops conditionals with nothing to do. *)
From S2P Require Import Prelude TypeLists Labels TypedAst SplitAst PhaseApi Split Runtime.
From S2P Require Import Holders RunPhase SplitSpec.

Fixpoint translate (e : expr) : pexpr :=
  match e with
  | EVar _ y v => PEVar y v
  | EField _ y s f => PEField y (translate s) f
  | EConst i => PEConst i
  | EBinOp _ y op L R => PEBinOp y op (translate L) (translate R)
  | EGenerateTombstone _ => PEGenerateTombstone
  | EIsValid _ h => PEIsValid TBool (translate h)
  | EEndorse _ _ _ h => translate h
  | EOperation _ y n h args => PEOperation y n (translate h) (translate <$> args)
  end.

(** The variables an expression reads *)
Fixpoint expr_vars (e : expr) : list string :=
  match e with
  | EVar _ _ v => if is_builtin v then [] else [v]
  | EField _ _ s _ => expr_vars s
  | EConst _ | EGenerateTombstone _ => []
  | EBinOp _ _ _ L R => expr_vars L ++ expr_vars R
  | EIsValid _ h | EEndorse _ _ _ h => expr_vars h
  | EOperation _ _ _ h args => expr_vars h ++ concat (expr_vars <$> args)
  end.

Fixpoint pexpr_vars (e : pexpr) : list string :=
  match e with
  | PEVar _ v => if is_builtin v then [] else [v]
  | PEField _ s _ => pexpr_vars s
  | PEConst _ | PEGenerateTombstone => []
  | PEBinOp _ _ L R => pexpr_vars L ++ pexpr_vars R
  | PEIsValid _ h => pexpr_vars h
  | PEOperation _ _ h args => pexpr_vars h ++ concat (pexpr_vars <$> args)
  end.

(** The variables a phase reads or writes; increments do neither. *)
Fixpoint uses (s : pstmt) : list string :=
  match s with
  | PLet b body | PLetRemote b body => pexpr_vars (pb_expr b) ++ uses body
  | POperation _ h args => pexpr_vars h ++ concat (pexpr_vars <$> args)
  | PAssignment v e => pexpr_vars v ++ pexpr_vars e
  | PReturn e | PWriteTombstone e | PAccompanyWrite e => pexpr_vars e
  | PIf c t e => pexpr_vars c ++ uses t ++ uses e
  | PWhile c body _ => pexpr_vars c ++ uses body
  | PForEach body _ => uses body
  | PSequence seq => concat (uses <$> seq)
  | PIncrementOccurance _ | PIncrementRemoteOccurance _ | PRefreshRemoteOccurance _ => []
  end.

Definition uses_all (ps : list pstmt) : list string := concat (uses <$> ps).

(** The variable an assignment writes *)
Definition target_name (v : expr) : string :=
  match v with EVar _ _ x | EField _ _ (EVar _ _ x) _ => x | _ => ""%string end.

(** The variables a statement declares and the loops it contains, each with the
    label of the statement *)
Fixpoint decls (s : stmt) : list (label * var_binding) :=
  match s with
  | SLet l b body =>
      (l, type_binding (b_var b) (b_yield b) (b_label b) local) :: decls body
  | SLetRemote l b body =>
      (l, type_binding (b_var b) (expr_yield (b_expr b)) (b_label b) remote) :: decls body
  | SIf _ _ t e => decls t ++ decls e
  | SWhile l _ body w => (l, while_binding w) :: decls body
  | SSequence _ seq => concat (decls <$> seq)
  | _ => []
  end.

Section proj.
Context `{UserLabels}.
Variable l : label.

Inductive proj (R : string -> bool) : stmt -> list pstmt -> Prop :=
| proj_let b body p :
    proj R body (flat p) ->
    proj R (SLet l b body)
      [PLet (PBinding (b_label b) (b_yield b) (b_var b) (translate (b_expr b))) p]
| proj_let_skip l2 b body ps :
    l <> l2 -> proj R body ps ->
    proj R (SLet l2 b body)
      ((if R (b_var b) then [PIncrementOccurance (b_var b)] else []) ++ ps)
| proj_assign v e :
    proj R (SAssignment l v e) [PAssignment (translate v) (translate e)]
| proj_assign_skip l2 v e :
    l <> l2 ->
    proj R (SAssignment l2 v e)
      (if flowsb l2 l && R (target_name v) then [PIncrementOccurance (target_name v)] else [])
| proj_return e : proj R (SReturn l e) [PReturn (translate e)]
| proj_return_skip l2 e : l <> l2 -> proj R (SReturn l2 e) []
| proj_if l2 c t e pt pe :
    flowsb l2 l = true -> proj R t (flat pt) -> proj R e (flat pe) ->
    proj R (SIf l2 c t e) [PIf (translate c) pt pe]
| proj_if_empty l2 c t e :
    flowsb l2 l = true -> proj R t [] -> proj R e [] -> proj R (SIf l2 c t e) []
| proj_if_skip l2 c t e : flowsb l2 l = false -> proj R (SIf l2 c t e) []
| proj_while c body w p :
    proj R body (flat p) -> proj R (SWhile l c body w) [PWhile (translate c) p w]
| proj_foreach l2 c body w p :
    l <> l2 -> flowsb l2 l = true -> proj R body (flat p) ->
    proj R (SWhile l2 c body w) [PForEach p w]
| proj_while_skip l2 c body w :
    l <> l2 -> flowsb l2 l = false -> proj R (SWhile l2 c body w) []
| proj_nil l2 : proj R (SSequence l2 []) []
| proj_cons l2 s ss ps pss :
    proj R s ps -> proj R (SSequence l2 ss) pss ->
    proj R (SSequence l2 (s :: ss)) (ps ++ pss).

(** ** [collect_phase] *)

Lemma translate_vars e : pexpr_vars (translate e) = expr_vars e.
Proof.
  induction e as [| | | | | | |l0 y n h args IHh IHargs] using expr_ind'; simpl;
    try done; [by f_equal|].
  rewrite IHh. do 2 f_equal. rewrite <- list_fmap_compose.
  clear -IHargs. induction IHargs as [|x args Hx _ IH]; simpl; [done|by f_equal].
Qed.

Lemma has_super_name v y b : has_super v y b = true -> binding_name b = v.
Proof.
  destruct b as [n t l0 []|n]; [destruct t|destruct t|]; simpl; try done;
    intros Hb%bool_decide_eq_true; naive_solver.
Qed.

Lemma existsb_elem {A} (f : A -> bool) l0 : existsb f l0 = true <-> exists x, x ∈ l0 /\ f x = true.
Proof. rewrite existsb_exists. by setoid_rewrite list_elem_of_In. Qed.

Lemma contains_subtype_name v y bs : contains_subtype v y bs = true -> v ∈ binding_name <$> bs.
Proof.
  intros (b & Hb & Hs)%existsb_elem. apply has_super_name in Hs as <-.
  by apply list_elem_of_fmap_2.
Qed.

Lemma contains_var_name v bs : contains_var_of_name v bs = true <-> v ∈ binding_name <$> bs.
Proof.
  unfold contains_var_of_name. rewrite existsb_elem, list_elem_of_fmap.
  setoid_rewrite bool_decide_eq_true. naive_solver.
Qed.

Context `{TypeListLaws}.
Variable inherits : list var_binding.

(** Where the variables of a translated expression come from *)
Definition covered (provided reqs : list var_binding) (xs : list string) : Prop :=
  forall x, x ∈ xs -> x ∈ binding_name <$> provided \/ x ∈ binding_name <$> reqs.

Lemma covered_app p r1 r2 xs ys : covered p r1 xs -> covered p r2 ys -> covered p (r1 ++ r2) (xs ++ ys).
Proof.
  intros Hx Hy z [Hz|Hz]%elem_of_app; rewrite fmap_app, elem_of_app;
    [destruct (Hx z Hz)|destruct (Hy z Hz)]; auto.
Qed.

Lemma covered_nil p r : covered p r [].
Proof. by intros x Hx%elem_of_nil. Qed.

Lemma collect_expr_spec provided e r : collect_expr l inherits provided e = Ok r ->
  r.2 = translate e /\ covered provided r.1 (expr_vars e).
Proof.
  revert r. induction e as [l0 y v|l0 y s f IH|i|l0 y op L R IHL IHR|l0|l0 h IH|l0 y le h IH|l0 y n h args IHh IHargs]
    using expr_ind'; intros r Hr; cbn [collect_expr] in Hr; outcome_inv; simpl.
  - destruct (is_builtin v) eqn:Hv; outcome_inv; [split; [done|apply covered_nil]|].
    destruct (contains_subtype v y provided) eqn:Hp; outcome_inv.
    + split; [done|]. intros z ->%list_elem_of_singleton. left. by eapply contains_subtype_name.
    + destruct (typelist_find _ _) as [b|] eqn:Hf; outcome_inv. split; [done|].
      intros z ->%list_elem_of_singleton. right. simpl.
      apply typelist_find_some in Hf as [_ Hb%has_super_name]. subst. by left.
  - destruct (IH _ ltac:(done)) as [-> Hc]. done.
  - split; [done|apply covered_nil].
  - destruct (IHL _ ltac:(done)) as [-> HL]. destruct (IHR _ ltac:(done)) as [-> HR].
    split; [done|by apply covered_app].
  - split; [done|apply covered_nil].
  - destruct (IH _ ltac:(done)) as [-> Hc]. done.
  - destruct (IHh _ ltac:(done)) as [-> Hc].
    assert (Hargs : snd <$> x0 = translate <$> args /\
      covered provided (concat (fst <$> x0)) (concat (expr_vars <$> args))).
    { match goal with Ht : traverse _ _ = Ok _ |- _ => apply traverse_Ok in Ht; rename Ht into Htr end.
      clear -IHargs Htr. induction Htr as [|e r es rs Her _ IH]; [split; [done|apply covered_nil]|].
      apply Forall_cons in IHargs as [He IHargs]. destruct (He _ Her) as [Hr Hc].
      destruct (IH IHargs) as [Hrs Hcs]. simpl. rewrite Hr.
      split; [by f_equal|by apply covered_app]. }
    destruct Hargs as [-> Hcs]. split; [done|by apply covered_app].
Qed.

Lemma on_label_Ok {A} l2 (same other : outcome A) r : on_label l l2 same other = Ok r ->
  (l = l2 /\ same = Ok r) \/ (l <> l2 /\ other = Ok r).
Proof.
  unfold on_label. intros Hr. outcome_inv. case_decide; [by left|right].
  by destruct x; outcome_inv.
Qed.

Lemma flowsb_Ok a b r : flows_to a b = Ok r -> flowsb a b = r.
Proof.
  unfold flowsb. intros ->. destruct r; [by apply bool_decide_eq_true|].
  by apply bool_decide_eq_false.
Qed.

Lemma base_var_target v x : is_local_target v = true -> base_var v = Ok x -> target_name v = x.
Proof. by destruct v as [|? ? [] ?| | | | | |]; simpl; intros; outcome_inv. Qed.

Lemma uses_all_app ps qs : uses_all (ps ++ qs) = uses_all ps ++ uses_all qs.
Proof. unfold uses_all. by rewrite fmap_app, concat_app. Qed.

Lemma uses_sequence s ss : uses (PSequence (s :: ss)) = uses s ++ uses (PSequence ss).
Proof. done. Qed.

Lemma uses_flat p : uses p = uses_all (flat p).
Proof.
  induction p as [| | | | | | | | | | | | |ss IH] using pstmt_ind';
    try (unfold uses_all; simpl; by rewrite ?app_nil_r).
  induction IH as [|s ss Hs _ IH]; [done|].
  by rewrite uses_sequence, flat_cons, uses_all_app, Hs, IH.
Qed.

(** The variables of a phase are bound by it, or in scope, or required. *)
Definition accounted (provided : list var_binding) (a : phase_api) (xs : list string) : Prop :=
  covered provided (requires a ++ provides a) xs.

Lemma accounted_names p a xs x : accounted p a xs -> x ∈ xs ->
  x ∈ binding_name <$> p \/ x ∈ binding_name <$> requires a \/ x ∈ binding_name <$> provides a.
Proof.
  intros Ha Hx. destruct (Ha x Hx) as [?|Hr]; [by left|].
  rewrite fmap_app, elem_of_app in Hr. tauto.
Qed.

Lemma accounted_nil p a : accounted p a [].
Proof. apply covered_nil. Qed.

Lemma accounted_expr p reqs xs : covered p reqs xs -> accounted p (Api reqs []) xs.
Proof. intros Hc. unfold accounted. simpl. by rewrite app_nil_r. Qed.

Lemma accounted_app p a b xs ys : accounted p a xs -> accounted p b ys ->
  accounted p (combined_api a b) (xs ++ ys).
Proof.
  intros Ha Hb x [Hx|Hx]%elem_of_app; simpl;
    [destruct (accounted_names _ _ _ x Ha Hx)|destruct (accounted_names _ _ _ x Hb Hx)];
    rewrite ?fmap_app, ?elem_of_app; tauto.
Qed.

(** A statement that provides the bindings [bs] to its body *)
Lemma accounted_let p reqs bs a xs ys : covered p reqs xs -> accounted (bs ++ p) a ys ->
  accounted p (combined_api (Api reqs bs) a) (xs ++ ys).
Proof.
  intros Hx Hy x [Hin|Hin]%elem_of_app; simpl;
    [specialize (Hx x Hin)|destruct (accounted_names _ _ _ x Hy Hin)];
    rewrite ?fmap_app, ?elem_of_app in *; tauto.
Qed.

Lemma accounted_more p a b xs : accounted p a xs ->
  (forall x, x ∈ requires a -> x ∈ requires b) -> (forall x, x ∈ provides a -> x ∈ provides b) ->
  accounted p b xs.
Proof.
  intros Ha Hr Hp x Hx. destruct (accounted_names _ _ _ x Ha Hx) as [?|Hx']; [by left|right].
  rewrite fmap_app, elem_of_app. destruct Hx' as [Hx'|Hx']; [left|right];
    apply list_elem_of_fmap in Hx' as (y & -> & Hy); apply list_elem_of_fmap_2; auto.
Qed.

Lemma collect_phase_proj provided s r : is_local s = true ->
  collect_phase l inherits provided s = Ok r ->
  proj (fun _ => true) s (flat (ex_ast r)) /\ accounted provided (ex_api r) (uses (ex_ast r)).
Proof.
  revert provided r.
  induction s as [l2 b s IH| |l2 n hd args|l2 v e|l2 e|l2 e|l2 e|l2 c t e IHt IHe|l2 c s w IH|l2 ss IH]
    using stmt_ind'; intros provided r Hloc Hr; cbn [is_local] in Hloc; try done;
    cbn [collect_phase] in Hr; rewrite ?andb_true_iff in Hloc.
  - destruct Hloc as [He Hloc].
    apply on_label_Ok in Hr as [[<- Hr]|[Hne Hr]]; outcome_inv.
    + destruct (IH _ _ Hloc ltac:(done)) as [Hp Ha]. unfold let_binding in *. outcome_inv.
      match goal with Hc : collect_expr _ _ _ _ = Ok _ |- _ =>
        destruct (collect_expr_spec _ _ _ Hc) as [Ht Hcov] end.
      match goal with Hl : let_ast_if_operation _ _ _ _ ?e = Ok ?a |- _ =>
        assert (a = PLet (PBinding (b_label b) (b_yield b) (b_var b) (translate (b_expr b))) (ex_ast x0))
          as -> by (destruct e; simpl in Hl, Ht; outcome_inv; by rewrite ?Ht) end.
      split; [by apply proj_let|]. simpl. rewrite translate_vars. by apply accounted_let.
    + destruct (IH _ _ Hloc ltac:(done)) as [Hp Ha]. split.
      * simpl. rewrite app_nil_r. by apply (proj_let_skip (fun _ => true)).
      * simpl. by rewrite app_nil_r.
  - destruct Hloc as [Hv He]. apply on_label_Ok in Hr as [[<- Hr]|[Hne Hr]]; outcome_inv.
    + destruct (collect_expr_spec provided v _ ltac:(done)) as [-> Hcv].
      destruct (collect_expr_spec provided e _ ltac:(done)) as [-> Hce].
      split; [by apply proj_assign|]. simpl. rewrite !translate_vars.
      by apply accounted_expr, covered_app.
    + match goal with Hb : base_var v = Ok _ |- _ => rewrite <- (base_var_target v _ Hv Hb) end.
      split; [|destruct x; simpl; apply accounted_nil].
      pose proof (proj_assign_skip (fun _ => true) l2 v e Hne) as Hp.
      erewrite flowsb_Ok in Hp by done. rewrite andb_true_r in Hp. by destruct x.
  - unfold collect_unary in Hr. apply on_label_Ok in Hr as [[<- Hr]|[Hne Hr]]; outcome_inv.
    + destruct (collect_expr_spec provided e _ ltac:(done)) as [-> Hce].
      split; [apply proj_return|]. simpl. rewrite translate_vars. by apply accounted_expr.
    + split; [by apply proj_return_skip|apply accounted_nil].
  - destruct Hloc as [[Hc Ht] He]. outcome_inv. destruct x; outcome_inv.
    + destruct (collect_expr_spec provided c _ ltac:(done)) as [-> Hcc].
      destruct (IHt _ _ Ht ltac:(done)) as [Hpt Hat]. destruct (IHe _ _ He ltac:(done)) as [Hpe Hae].
      split; [apply proj_if; [by eapply flowsb_Ok|done..]|]. simpl. rewrite translate_vars, app_assoc.
      apply accounted_app; [|done]. apply accounted_app; [by apply accounted_expr|done].
    + split; [apply proj_if_skip; by eapply flowsb_Ok|apply accounted_nil].
  - destruct Hloc as [Hc Hloc]. apply on_label_Ok in Hr as [[<- Hr]|[Hne Hr]]; outcome_inv.
    + destruct (collect_expr_spec provided c _ ltac:(done)) as [-> Hcc].
      destruct (IH _ _ Hloc ltac:(done)) as [Hp Ha].
      split; [by apply proj_while|]. simpl. rewrite translate_vars.
      eapply accounted_more; [by apply accounted_app; [apply accounted_expr|]|done|].
      simpl. intros y Hy. by apply elem_of_app; left.
    + destruct x; outcome_inv.
      * destruct (IH _ _ Hloc ltac:(done)) as [Hp Ha].
        split; [apply proj_foreach; [done|by eapply flowsb_Ok|done]|]. simpl.
        eapply accounted_more; [done| |done]. simpl. intros y Hy. by apply elem_of_app; left.
      * split; [apply proj_while_skip; [done|by eapply flowsb_Ok]|apply accounted_nil].
  - outcome_inv. unfold build_seq1 in Hr. outcome_inv. cbn [ex_ast ex_api].
    rewrite uses_flat, flat_collapse.
    match goal with Ht : traverse _ _ = Ok _ |- _ => apply traverse_Ok in Ht; rename Ht into Htr end.
    clear -IH Htr Hloc. induction Htr as [|s r ss rs Hs _ IHs]; [split; [constructor|apply accounted_nil]|].
    cbn [forallb] in Hloc. apply andb_true_iff in Hloc as [Hl Hloc].
    apply Forall_cons in IH as [IHs1 IH]. destruct (IHs1 _ _ Hl Hs) as [Hp Ha].
    destruct (IHs IH Hloc) as [Hps Has]. rewrite !fmap_cons, flat_cons, uses_all_app.
    split; [by apply proj_cons|]. rewrite <- uses_flat. by apply accounted_app.
Qed.

(** ** The passes over a phase act statement by statement *)

Lemma traverse_app {A B} (f : A -> outcome B) xs ys rs :
  traverse f (xs ++ ys) = Ok rs <->
  exists r1 r2, traverse f xs = Ok r1 /\ traverse f ys = Ok r2 /\ rs = r1 ++ r2.
Proof using Type.
  setoid_rewrite traverse_Ok. rewrite Forall2_app_inv_l. naive_solver.
Qed.

Lemma flat_sequence_app ps qs : flat (PSequence (ps ++ qs)) = flat (PSequence ps) ++ flat (PSequence qs).
Proof using Type. simpl. by rewrite fmap_app, concat_app. Qed.

Section pass.
(** A pass that rebuilds a sequence member by member *)
Variables (A : Type) (pass : pstmt -> outcome A) (ast : A -> pstmt).
Hypothesis pass_sequence : forall seq r, pass (PSequence seq) = Ok r ->
  exists rs, traverse pass seq = Ok rs /\ flat (ast r) = flat (PSequence (ast <$> rs)).

Lemma pass_flat p r : pass p = Ok r ->
  exists rs, traverse pass (flat p) = Ok rs /\ flat (ast r) = flat (PSequence (ast <$> rs)).
Proof using pass_sequence.
  revert r. induction p as [| | | | | | | | | | | | |ss IH] using pstmt_ind'; intros r Hr;
    try (exists [r]; split; [cbn [flat traverse]; by rewrite Hr|];
         rewrite fmap_cons, flat_cons; simpl; by rewrite app_nil_r).
  apply pass_sequence in Hr as (rs & Hrs%traverse_Ok & ->).
  induction Hrs as [|p r0 ss rs Hp _ IHs]; [by exists []|].
  apply Forall_cons in IH as [Hf IH]. destruct (Hf r0 Hp) as (r1 & Ht1 & Hr1).
  destruct (IHs IH) as (r2 & Ht2 & Hr2). exists (r1 ++ r2). split.
  - rewrite flat_cons. apply traverse_app. eauto.
  - by rewrite fmap_cons, flat_cons, Hr1, Hr2, fmap_app, flat_sequence_app.
Qed.
End pass.

(** ** [remove_unused] *)

Lemma remove_unused_flat reqs p p' : remove_unused_stmt reqs p = Ok p' ->
  exists rs, traverse (remove_unused_stmt reqs) (flat p) = Ok rs /\ flat p' = flat (PSequence rs).
Proof using Type.
  intros Hp. destruct (pass_flat _ (remove_unused_stmt reqs) id) with (p := p) (r := p')
    as (rs & Ht & Hf); [|done|].
  - intros seq r Hr. cbn in Hr. outcome_inv. exists x. by rewrite list_fmap_id.
  - exists rs. by rewrite list_fmap_id in Hf.
Qed.

Lemma remove_unused_increment reqs (b : bool) v rs :
  traverse (remove_unused_stmt reqs) (if b then [PIncrementOccurance v] else []) = Ok rs ->
  flat (PSequence rs) = if b && contains_var_of_name v reqs then [PIncrementOccurance v] else [].
Proof using Type.
  destruct b; cbn; intros Hr; outcome_inv; [|done]. by destruct (contains_var_of_name v reqs).
Qed.

(** Use the induction hypotheses on the bodies a pass rebuilt. *)
Ltac pass_bodies flat_lemma :=
  repeat match goal with
  | Hr : ?pass ?p = Ok ?r, IH : forall rs, traverse _ (flat ?p) = Ok rs -> _ |- _ =>
      let rs := fresh "rs" in let Ht := fresh "Ht" in let Hf := fresh "Hf" in
      destruct (flat_lemma _ _ _ Hr) as (rs & Ht & Hf);
      specialize (IH rs Ht); rewrite <- Hf in IH; clear Hr
  end.

Lemma remove_unused_proj reqs R s ps rs : proj R s ps ->
  traverse (remove_unused_stmt reqs) ps = Ok rs ->
  proj (fun x => R x && contains_var_of_name x reqs) s (flat (PSequence rs)).
Proof using Type.
  intros Hp. revert rs. induction Hp; intros rs Hrs; cbn [traverse] in Hrs; outcome_inv;
    try (by constructor); cbn [remove_unused_stmt] in *; outcome_inv;
    pass_bodies remove_unused_flat; try (by constructor).
  - apply traverse_app in Hrs as (r1 & r2 & Hr1%remove_unused_increment & Hr2 & ->).
    rewrite flat_sequence_app, Hr1. apply (proj_let_skip (fun x => R x && _)); auto.
  - apply remove_unused_increment in Hrs as ->. rewrite <- andb_assoc.
    by apply (proj_assign_skip (fun x => R x && _)).
  - apply proj_if_empty; [done|by apply (IHHp1 [])|by apply (IHHp2 [])].
  - apply traverse_app in Hrs as (r1 & r2 & Hr1 & Hr2 & ->).
    rewrite flat_sequence_app. constructor; auto.
Qed.

Lemma remove_unused_uses reqs p p' : remove_unused_stmt reqs p = Ok p' -> uses p' = uses p.
Proof using Type.
  revert p'. induction p as [b p IH|b p IH| | | | | |v|v|h|c t e IHt IHe|c p w IH|p w IH|ss IH]
    using pstmt_ind'; intros p' Hp; cbn [remove_unused_stmt] in Hp; outcome_inv; try done.
  - simpl. by rewrite (IH x).
  - simpl. by rewrite (IH x).
  - by destruct (contains_var_of_name v reqs).
  - by destruct (contains_var_of_name v reqs).
  - destruct h as [[] v| | | | | |]; outcome_inv. by destruct (contains_var_of_name v reqs).
  - simpl. by rewrite (IHt x), (IHe x0).
  - simpl. by rewrite (IH x).
  - simpl. by rewrite (IH x).
  - match goal with Ht : traverse _ _ = Ok _ |- _ => apply traverse_Ok in Ht; rename Ht into Htr end.
    induction Htr as [|p q ss qs Hp _ IHs]; [done|]. apply Forall_cons in IH as [Hf IH].
    by rewrite !uses_sequence, (Hf q Hp), IHs.
Qed.

(** ** [clear_empty_statements] *)

Lemma clear_flat p c : clear_empty_statements p = Ok c ->
  exists cs, traverse clear_empty_statements (flat p) = Ok cs /\
    flat (cl_ast c) = flat (PSequence (cl_ast <$> cs)).
Proof using Type.
  apply (pass_flat _ clear_empty_statements cl_ast). clear. intros seq r Hr. cbn in Hr.
  outcome_inv. exists x. split; [done|]. apply flat_collapse.
Qed.

Lemma clear_increment (b : bool) v cs :
  traverse clear_empty_statements (if b then [PIncrementOccurance v] else []) = Ok cs ->
  flat (PSequence (cl_ast <$> cs)) = if b then [PIncrementOccurance v] else [].
Proof using Type. destruct b; cbn; intros Hr; by outcome_inv. Qed.

Ltac clear_bodies :=
  repeat match goal with
  | Hr : clear_empty_statements ?p = Ok ?r,
    IH : forall rs, traverse _ (flat ?p) = Ok rs -> _ |- _ =>
      let rs := fresh "rs" in let Ht := fresh "Ht" in let Hf := fresh "Hf" in
      destruct (clear_flat _ _ Hr) as (rs & Ht & Hf);
      specialize (IH rs Ht); rewrite <- Hf in IH; clear Hr
  end.

Lemma clear_proj R s ps cs : proj R s ps -> traverse clear_empty_statements ps = Ok cs ->
  proj R s (flat (PSequence (cl_ast <$> cs))).
Proof using Type.
  intros Hp. revert cs. induction Hp; intros cs Hcs; cbn [traverse] in Hcs; outcome_inv;
    try (by constructor); cbn [clear_empty_statements] in *; outcome_inv; clear_bodies;
    try (by constructor).
  - apply traverse_app in Hcs as (r1 & r2 & Hr1%clear_increment & Hr2 & ->).
    rewrite fmap_app, flat_sequence_app, Hr1. apply proj_let_skip; auto.
  - apply clear_increment in Hcs as ->. by apply proj_assign_skip.
  - destruct (is_empty_sequence (cl_ast x0)) eqn:Hn0; [|by constructor].
    destruct (is_empty_sequence (cl_ast x1)) eqn:Hn1; [|by constructor].
    apply is_empty_flat in Hn0, Hn1. rewrite Hn0, Hn1 in *. by apply proj_if_empty.
  - apply traverse_app in Hcs as (r1 & r2 & Hr1 & Hr2 & ->).
    rewrite fmap_app, flat_sequence_app. constructor; auto.
Qed.

Lemma clear_expr_vars e x : x ∈ pexpr_vars e -> x ∈ (clear_expr e).2.
Proof.
  induction e as [y v|y s f IH|i|y op L R IHL IHR| |y h IH|y n h args IHh IHargs] using pexpr_ind';
    simpl; try done.
  - destruct (is_builtin v); [by intros ?%elem_of_nil|done].
  - rewrite elem_of_typeset_combine, elem_of_app. tauto.
  - rewrite elem_of_typeset_combine_all, elem_of_app. intros [Hx|Hx]; [auto|right].
    apply elem_of_concat_fmap_inv in Hx as (a & Ha & Hx).
    exists (clear_expr a).2. split; [by apply (list_elem_of_fmap_2 (fun a => (clear_expr a).2))|].
    rewrite Forall_forall in IHargs. by apply IHargs.
Qed.

Lemma elem_of_combined (x : string) ss : x ∈ foldr typeset_combine [] ss <-> exists s, s ∈ ss /\ x ∈ s.
Proof.
  induction ss as [|s ss IH]; simpl.
  - split; [by intros ?%elem_of_nil|]. by intros (s & ?%elem_of_nil & _).
  - rewrite elem_of_typeset_combine, IH. setoid_rewrite elem_of_cons. naive_solver.
Qed.

Lemma uses_sequence_elem x ss : x ∈ uses (PSequence ss) <-> exists s, s ∈ ss /\ x ∈ uses s.
Proof using Type.
  simpl. rewrite elem_of_concat. setoid_rewrite list_elem_of_fmap. naive_solver.
Qed.

Lemma uses_collapse seq : uses (collapse seq) = uses (PSequence seq).
Proof using Type. by rewrite uses_flat, flat_collapse, <- uses_flat. Qed.

(** A cleared phase uses what it still requires, and nothing new. *)
Lemma clear_uses p c x : clear_empty_statements p = Ok c -> x ∈ uses (cl_ast c) ->
  x ∈ still_require c /\ x ∈ uses p.
Proof.
  pose proof clear_expr_vars as He.
  revert c. induction p as [b p IH|b p IH|n h args| | | | |v|v|h|c t e IHt IHe|c p w IH|p w IH|ss IH]
    using pstmt_ind'; intros r Hr Hx; cbn [clear_empty_statements] in Hr; outcome_inv;
    try (simpl in *; rewrite ?elem_of_typeset_combine, ?elem_of_app in *; naive_solver);
    try (by apply elem_of_nil in Hx).
  - split; [|done]. by apply (He (PEOperation TVoid n h args)).
  - destruct h as [[] v| | | | | |]; outcome_inv. by apply elem_of_nil in Hx.
  - destruct (_ && _); [by apply elem_of_nil in Hx|]. simpl in *.
    rewrite ?elem_of_typeset_combine, ?elem_of_app in *. naive_solver.
  - cbn [cl_ast still_require] in *. rewrite uses_collapse in Hx.
    apply uses_sequence_elem in Hx as (a & (c & -> & Hc)%list_elem_of_fmap & Hx).
    rewrite elem_of_combined, uses_sequence_elem, Forall_forall in *.
    match goal with Ht : traverse _ _ = Ok _ |- _ => apply traverse_Ok in Ht; rename Ht into Htr end.
    apply list_elem_of_lookup in Hc as (i & Hi).
    destruct (Forall2_lookup_r _ _ _ _ _ Htr Hi) as (p & Hp%list_elem_of_lookup_2 & Hpc).
    apply list_elem_of_lookup_2 in Hi.
    destruct (IH p Hp c Hpc Hx) as [Hs Hu]. split; [|by exists p].
    exists (still_require c). split; [by apply list_elem_of_fmap_2|done].
Qed.

(** ** The phase [split_phase] makes *)

Lemma proj_ext R R' s ps : (forall x, R x = R' x) -> proj R s ps -> proj R' s ps.
Proof using Type.
  intros HR. induction 1; rewrite ?HR; first [by apply proj_if_skip | by constructor].
Qed.

(** Every required binding is one an earlier phase makes available. *)
Definition from_inherits (a : phase_api) : Prop :=
  forall b, b ∈ requires a -> b ∈ inherits.

Lemma collect_expr_inherits provided e r b :
  collect_expr l inherits provided e = Ok r -> b ∈ r.1 -> b ∈ inherits.
Proof.
  revert r. induction e as [l0 y v|l0 y s f IH|i|l0 y op L R IHL IHR|l0|l0 h IH|l0 y le h IH|l0 y n h args IHh IHargs]
    using expr_ind'; intros r Hr Hb; cbn [collect_expr] in Hr; outcome_inv; simpl in *;
    try (by apply elem_of_nil in Hb); try by eapply IH.
  - destruct (is_builtin v); outcome_inv; [by apply elem_of_nil in Hb|].
    destruct (contains_subtype v y provided); outcome_inv; [by apply elem_of_nil in Hb|].
    destruct (typelist_find _ _) as [b'|] eqn:Hf; outcome_inv.
    apply list_elem_of_singleton in Hb as ->. by destruct (typelist_find_some _ _ _ Hf).
  - apply elem_of_app in Hb as [Hb|Hb]; [by eapply IHL|by eapply IHR].
  - apply elem_of_app in Hb as [Hb|Hb]; [by eapply IHh|].
    apply elem_of_concat_fmap_inv in Hb as (a & Ha & Hb).
    match goal with Ht : traverse _ _ = Ok _ |- _ => apply traverse_Ok in Ht; rename Ht into Htr end.
    apply list_elem_of_lookup in Ha as (i & Hi).
    destruct (Forall2_lookup_r _ _ _ _ _ Htr Hi) as (e & He%list_elem_of_lookup_2 & Hea).
    rewrite Forall_forall in IHargs. by eapply IHargs.
Qed.

Lemma contains_while_elem w bs : contains_while w bs = true -> while_binding w ∈ bs.
Proof.
  intros (b & Hb & Hw)%existsb_elem. apply bool_decide_eq_true in Hw. by subst.
Qed.

Definition no_loops (bs : list var_binding) : Prop := forall w, while_binding w ∉ bs.

Record collected_api (s : stmt) (a : phase_api) : Prop := {
  api_requires : from_inherits a;
  api_provides b : b ∈ provides a -> (l, b) ∈ decls s }.

Lemma collected_none s : collected_api s no_api.
Proof using Type. by split; intros b ?%elem_of_nil. Qed.

Lemma collected_expr s provided e r : collect_expr l inherits provided e = Ok r ->
  collected_api s (Api r.1 []).
Proof.
  intros Hr. split; [intros b Hb; by eapply collect_expr_inherits|by intros b ?%elem_of_nil].
Qed.

Lemma collected_app s a1 a2 : collected_api s a1 -> collected_api s a2 ->
  collected_api s (combined_api a1 a2).
Proof using Type. intros [Hr1 Hp1] [Hr2 Hp2]. split; intros b [Hb|Hb]%elem_of_app; auto. Qed.

Lemma collected_provide s b a : collected_api s a -> (l, b) ∈ decls s ->
  collected_api s (add_provides b a).
Proof using Type.
  intros [Hr Hp] Hb. split; [done|].
  by intros b' [Hb'| ->%list_elem_of_singleton]%elem_of_app; auto.
Qed.

Lemma collected_require s b a : collected_api s a -> b ∈ inherits ->
  collected_api s (add_requires b a).
Proof using Type.
  intros [Hr Hp] Hb. split; [|done].
  by intros b' [Hb'| ->%list_elem_of_singleton]%elem_of_app; auto.
Qed.

Lemma collected_within s s1 a : collected_api s1 a ->
  (forall d, d ∈ decls s1 -> d ∈ decls s) -> collected_api s a.
Proof using Type. intros [Hr Hp] Hd. split; auto. Qed.

Lemma collect_phase_api provided s r : is_local s = true -> no_loops provided ->
  collect_phase l inherits provided s = Ok r -> collected_api s (ex_api r).
Proof.
  revert provided r.
  induction s as [l2 b s IH| |l2 n hd args|l2 v e|l2 e|l2 e|l2 e|l2 c t e IHt IHe|l2 c s w IH|l2 ss IH]
    using stmt_ind'; intros provided r Hloc Hnl Hr; cbn [is_local] in Hloc; try done;
    cbn [collect_phase] in Hr; rewrite ?andb_true_iff in Hloc; unfold collect_unary in Hr;
    try (apply on_label_Ok in Hr as [[<- Hr]|[Hne Hr]]; outcome_inv);
    cbn [ex_api]; try apply collected_none.
  - unfold let_binding in *. outcome_inv. cbn [fst snd] in *.
    apply collected_app; [apply collected_provide|].
    + by eapply collected_expr.
    + by left.
    + eapply collected_within; [eapply IH; [apply Hloc| |done]|by right].
      intros w [Hw|Hw]%elem_of_cons; [done|by apply (Hnl w)].
  - eapply collected_within; [by eapply IH; [apply Hloc| |]|by right].
  - apply (collected_app _ (Api _ []) (Api _ [])); by eapply collected_expr.
  - by eapply collected_expr.
  - outcome_inv. destruct x; outcome_inv; [|apply collected_none]. destruct Hloc as [[Hc Ht] He].
    repeat apply collected_app; [by eapply collected_expr|..];
      (eapply collected_within; [first [by eapply IHt|by eapply IHe]|]);
      intros d Hd; apply elem_of_app; auto.
  - apply collected_provide; [|by left]. apply collected_app; [by eapply collected_expr|].
    eapply collected_within; [by eapply IH; [apply Hloc| |]|by right].
  - destruct x; outcome_inv; [|apply collected_none].
    match goal with Hw : _ || _ = true |- _ =>
      apply orb_true_iff in Hw as [Hw|Hw]; apply contains_while_elem in Hw; [by apply Hnl in Hw|] end.
    apply collected_require; [|done].
    eapply collected_within; [by eapply IH; [apply Hloc| |]|by right].
  - outcome_inv. unfold build_seq1 in Hr. outcome_inv. cbn [ex_api].
    match goal with Ht : traverse _ _ = Ok _ |- _ => apply traverse_Ok in Ht; rename Ht into Htr end.
    clear -IH Htr Hloc Hnl. induction Htr as [|s r ss rs Hs _ IHs]; [apply collected_none|].
    cbn [forallb] in Hloc. apply andb_true_iff in Hloc as [Hl Hloc].
    apply Forall_cons in IH as [IHs1 IH]. rewrite fmap_cons.
    apply (collected_app (SSequence l2 (s :: ss)) _ (build_seq2 (ex_api <$> rs)));
      (eapply collected_within; [first [by eapply IHs1|by apply IHs]|]);
      intros d Hd; apply elem_of_app; auto.
Qed.

(** ** The phase [split_phase] makes *)

Lemma binding_holder_name b : holder_name (binding_to_holder b) = binding_name b.
Proof using Type. by destruct b as [n t lb []|n]. Qed.

Definition requires_name (p : prephase) (x : string) : bool :=
  bool_decide (x ∈ holder_name <$> pp_requirements p).

Record phase_of (a : stmt) (r : extracted_phase) (p : prephase) : Prop := {
  po_collect : collect_phase l inherits [] a = Ok r;
  po_level : pp_level p = l;
  po_returns : pp_returns p = ex_returns r;
  po_provides : pp_provides p = holders_of (provides (ex_api r));
  po_inherits : pp_inherits p = holders_of inherits;
  po_required : exists bs, pp_requirements p = holders_of bs /\ forall b, b ∈ bs -> b ∈ inherits;
  po_decls b : b ∈ provides (ex_api r) -> (l, b) ∈ decls a;
  po_proj : proj (requires_name p) a (flat (pp_ast p));
  po_uses x : x ∈ uses (pp_ast p) ->
    requires_name p x = true \/ x ∈ binding_name <$> provides (ex_api r) }.

Lemma po_requires a r p h : phase_of a r p -> h ∈ pp_requirements p ->
  exists b, b ∈ inherits /\ h = binding_to_holder b.
Proof.
  intros Hp Hh. destruct (po_required _ _ _ Hp) as (bs & Heq & Hbs). rewrite Heq in Hh.
  apply list_elem_of_fmap in Hh as (b & -> & Hb). exists b. split; [|done].
  by apply Hbs, elem_of_typeset_of.
Qed.

Lemma names_of_holders bs x : (x ∈ (holder_name <$> holders_of bs)) <-> x ∈ (binding_name <$> bs).
Proof.
  unfold holders_of. rewrite <- list_fmap_compose, !list_elem_of_fmap.
  setoid_rewrite elem_of_typeset_of. unfold compose. by setoid_rewrite binding_holder_name.
Qed.

Lemma elem_of_without_names b ns bs : b ∈ without_names ns bs <-> (binding_name b ∉ ns) /\ b ∈ bs.
Proof using Type. unfold without_names. by rewrite list_elem_of_filter. Qed.

Lemma names_of_typeset bs x : (x ∈ (binding_name <$> typeset_of bs)) <-> x ∈ (binding_name <$> bs).
Proof. rewrite !list_elem_of_fmap. by setoid_rewrite elem_of_typeset_of. Qed.

Lemma names_without ns bs x :
  x ∈ (binding_name <$> without_names ns bs) <-> (x ∉ ns) /\ x ∈ (binding_name <$> bs).
Proof using Type.
  rewrite !list_elem_of_fmap. setoid_rewrite elem_of_without_names. naive_solver.
Qed.

(** Three passes over a projection *)
Lemma passes_proj R a p p1 c p2 reqs1 reqs2 : proj R a (flat p) ->
  remove_unused_stmt reqs1 p = Ok p1 -> clear_empty_statements p1 = Ok c ->
  remove_unused_stmt reqs2 (cl_ast c) = Ok p2 ->
  proj (fun x => R x && contains_var_of_name x reqs1 && contains_var_of_name x reqs2) a (flat p2).
Proof using Type.
  intros Hp Hr1 Hc Hr2.
  destruct (remove_unused_flat _ _ _ Hr1) as (r1 & Ht1 & Hf1).
  destruct (clear_flat _ _ Hc) as (r2 & Ht2 & Hf2).
  destruct (remove_unused_flat _ _ _ Hr2) as (r3 & Ht3 & Hf3).
  rewrite Hf3. apply (remove_unused_proj reqs2 (fun x => R x && _) a (flat (cl_ast c))); [|done].
  rewrite Hf2. apply (clear_proj _ a (flat p1)); [|done].
  rewrite Hf1. by apply (remove_unused_proj reqs1 R a (flat p)).
Qed.

Lemma split_phase_spec a p next : is_local a = true ->
  split_phase a inherits l = Ok (p, next) ->
  exists r, phase_of a r p /\ next = inherits ++ provides (ex_api r).
Proof.
  intros Hloc Hs. unfold split_phase, remove_unused in Hs. outcome_inv. cbn [ex_api ex_ast] in *.
  exists x. split; [|done].
  destruct (collect_phase_proj _ _ _ Hloc H2) as [Hp Ha].
  assert (Hnl : no_loops []) by by intros w ?%elem_of_nil.
  destruct (collect_phase_api _ _ _ Hloc Hnl H2) as [Hr Hd].
  cbn [requires provides] in *.
  set (nlr := typeset_subtract (remove_from_require x1) (still_require x1)) in *.
  set (reqs2 := without_names nlr (typeset_of (requires (ex_api x)))) in *.
  assert (Hreq2 : forall y, y ∈ (binding_name <$> reqs2) <->
      (y ∉ nlr) /\ y ∈ (binding_name <$> requires (ex_api x))).
  { intros y. unfold reqs2. by rewrite names_without, names_of_typeset. }
  split; try done; cbn [transaction_prephase pp_requirements ex_api requires].
  - exists reqs2. split; [done|]. intros b [_ Hb]%elem_of_without_names.
    by apply Hr, elem_of_typeset_of.
  - eapply proj_ext; [|eapply passes_proj; [exact Hp|done..]].
    intros y. unfold requires_name. cbn. apply eq_true_iff_eq.
    rewrite andb_true_iff, !contains_var_name, bool_decide_eq_true, names_of_holders,
      !names_of_typeset, Hreq2. tauto.
  - intros y Hy. cbn in Hy. erewrite remove_unused_uses in Hy by done.
    apply (clear_uses _ _ _ H4) in Hy as [Hstill Hy]. erewrite remove_unused_uses in Hy by done.
    destruct (accounted_names _ _ _ y Ha Hy) as [Hn|[Hn|Hn]]; [by apply elem_of_nil in Hn| |by right].
    left. unfold requires_name. cbn. rewrite bool_decide_eq_true, names_of_holders, Hreq2.
    split; [|done]. unfold nlr. rewrite elem_of_typeset_subtract. tauto.
Qed.


(** the phase [split_phase] makes for the label [l] of a local transaction is
  its projection to [l]: the statements of that label, the conditionals and loops
  whose label flows to [l] around them, and an increment for every skipped write of
  a variable the phase requires.  What the phase reads or writes it requires from
  earlier phases or declares itself, and the next phases inherit what it declares. *)
Theorem split_phase_correct a p next : is_local a = true ->
  split_phase a inherits l = Ok (p, next) ->
  pp_level p = l /\ proj (requires_name p) a (flat (pp_ast p)) /\
  (forall x, x ∈ uses (pp_ast p) ->
    requires_name p x = true \/ exists b, (l, b) ∈ decls a /\ binding_name b = x) /\
  (forall h, h ∈ pp_requirements p -> exists b, b ∈ inherits /\ h = binding_to_holder b) /\
  (forall b, b ∈ next -> b ∈ inherits \/ (l, b) ∈ decls a).
Proof.
  intros Hloc Hs. destruct (split_phase_spec a p next Hloc Hs) as (r & Hp & ->).
  split_and!; [by eapply po_level|by eapply po_proj| | |].
  - intros x Hx. destruct (po_uses _ _ _ Hp x Hx) as [?|(b & -> & Hb)%list_elem_of_fmap]; [by left|right].
    exists b. split; [by eapply po_decls|done].
  - intros h. by apply (po_requires a r).
  - intros b [Hb|Hb]%elem_of_app; [by left|right]. by eapply po_decls.
Qed.

End proj.
