(* ===== verification/SplitHist.v ===== *)
(** * Well-labelled transactions and their histories

    The condition under which the phases of a transaction compute what the
    transaction computes, and what it says about the versions of its variables: in
    the order the transaction writes them they go from more to less trusted labels,
    which is the order the phases write them in. *)
From S2P Require Import Prelude TypeLists Labels TypedAst LabelCollect PhaseApi Runtime Holders.
From S2P Require Import SplitAst Split RunPhase SplitSpec SplitProj.

(** ** The condition *)

(** What is known of a transaction: for every variable the label of its [let],
    its own label and its type; the assigned variables; the label of every loop;
    the loops outside any other loop; the arguments; the labels. *)
Record info : Type := Info {
  i_vars : gmap string (label * label * ty);
  i_assigned : list string;
  i_loops : gmap string label;
  i_once : list string;
  i_args : list string;
  i_labels : list label }.

Definition decl_name (d : label * var_binding) : string := binding_name d.2.

(** The names a statement declares *)
Definition decl_names (s : stmt) : list string := decl_name <$> decls s.

Fixpoint assigned (s : stmt) : list string :=
  match s with
  | SLet _ _ body | SLetRemote _ _ body | SWhile _ _ body _ => assigned body
  | SAssignment _ v _ => [target_name v]
  | SIf _ _ t e => assigned t ++ assigned e
  | SSequence _ seq => concat (assigned <$> seq)
  | _ => []
  end.

(** The loops that are not inside a loop *)
Fixpoint outer_loops (s : stmt) : list string :=
  match s with
  | SLet _ _ body | SLetRemote _ _ body => outer_loops body
  | SWhile _ _ _ w => [w]
  | SIf _ _ t e => outer_loops t ++ outer_loops e
  | SSequence _ seq => concat (outer_loops <$> seq)
  | _ => []
  end.

Section labelled.
Context `{UserLabels}.
Variable I : info.

(** Every variable the expression reads may be read at label [l]. *)
Fixpoint reads_ok (l : label) (e : expr) : bool :=
  match e with
  | EVar _ y v =>
      is_builtin v ||
      match i_vars I !! v with
      | Some (_, lx, t) => bool_decide (y = t) && flowsb lx l
      | None => false
      end
  | EField _ _ s _ => reads_ok l s
  | EConst _ => true
  | EBinOp _ _ _ L R => reads_ok l L && reads_ok l R
  | _ => false
  end.

(** A statement runs at a label its operands and the conditions around it
    flow to; [pc] is the label of the innermost such condition.
    - A [let] inside a loop writes at the label of its variable, or the variable
      is never assigned.
    - A loop inside a loop is not entered by the phases after its own.  *)
Fixpoint labelled (in_loop : bool) (pc : label) (s : stmt) : bool :=
  match s with
  | SLet l b body =>
      bool_decide (l ∈ i_labels I) && flowsb pc l && reads_ok l (b_expr b) &&
      bool_decide (i_vars I !! b_var b = Some (l, b_label b, b_yield b)) &&
      bool_decide (b_var b ∉ i_args I) &&
      (negb in_loop || bool_decide (l = b_label b) || bool_decide (b_var b ∉ i_assigned I)) &&
      labelled in_loop pc body
  | SAssignment l v e =>
      bool_decide (l ∈ i_labels I) && flowsb pc l && reads_ok l e && reads_ok l v &&
      bool_decide (l = expr_label v) &&
      match i_vars I !! target_name v with
      | Some (_, lx, _) => bool_decide (l = lx)
      | None => false
      end &&
      bool_decide (target_name v ∈ i_assigned I) && bool_decide (target_name v ∉ i_args I)
  | SReturn l e =>
      bool_decide (l = bottom) && bool_decide (l ∈ i_labels I) && flowsb pc l && reads_ok l e &&
      bool_decide (expr_yield e <> TVoid)
  | SIf l c t e =>
      bool_decide (l ∈ i_labels I) && flowsb pc l && reads_ok l c &&
      labelled in_loop l t && labelled in_loop l e
  | SWhile l c body w =>
      bool_decide (l ∈ i_labels I) && flowsb pc l && reads_ok l c &&
      bool_decide (i_loops I !! w = Some l) &&
      (if in_loop
       then forallb (fun m => bool_decide (m = l) || negb (flowsb l m)) (i_labels I)
       else bool_decide (w ∈ i_once I)) &&
      (negb in_loop || bool_decide (w ∉ i_once I)) &&
      labelled true l body
  | SSequence _ seq => forallb (labelled in_loop pc) seq
  | _ => false
  end.

(** Let labels flow to the labels of their variables, a variable is written
    at labels of the program, arguments have the label [top], and names are distinct. *)
Definition var_ok (x : string) (v : label * label * ty) : bool :=
  bool_decide (v.1.1 ∈ top :: i_labels I) && bool_decide (v.1.2 ∈ top :: i_labels I) &&
  flowsb v.1.1 v.1.2 && bool_decide (i_loops I !! x = None) && negb (is_builtin x) &&
  (bool_decide (x ∈ i_args I) ||
   bool_decide (v.1.1 ∈ i_labels I) &&
   (bool_decide (x ∉ i_assigned I) || bool_decide (v.1.2 ∈ i_labels I))).

Definition is_argument (x : string) : bool :=
  match i_vars I !! x with
  | Some (m, lx, _) => bool_decide (m = top /\ lx = top)
  | None => false
  end.

Definition info_ok : bool :=
  bool_decide (map_Forall (fun x v => var_ok x v = true) (i_vars I)) &&
  forallb is_argument (i_args I) &&
  bool_decide (map_Forall (fun _ m => m ∈ i_labels I) (i_loops I)).

End labelled.

(** Take apart boolean conjunctions and decisions. *)
Ltac bool_inv := repeat match goal with
  | Hb : _ && _ = true |- _ =>
      let Hl := fresh "Hb" in let Hr := fresh "Hb" in apply andb_true_iff in Hb as [Hl Hr]
  | Hb : bool_decide _ = true |- _ => apply bool_decide_eq_true in Hb
  | Hb : negb _ = true |- _ => apply negb_true_iff in Hb
  | Hb : match i_vars ?I !! ?x with _ => _ end = true |- _ =>
      let Hx := fresh "Hx" in destruct (i_vars I !! x) as [[[? ?] ?]|] eqn:Hx; [|discriminate Hb]
  end.

(** ** Facts about executions *)

Section facts.
Context `{LabelOrder D} `{Handles} `{!Remote}.
Variables (I : info) (N : nat).
Hypothesis labels_D : forall l, l ∈ top :: i_labels I -> D l.
Hypothesis Iok : info_ok I = true.

Lemma var_spec x m lx y : i_vars I !! x = Some (m, lx, y) ->
  D m /\ D lx /\ flowsb m lx = true /\ i_loops I !! x = None /\ is_builtin x = false.
Proof.
  intros Hx. apply andb_true_iff in Iok as [[Hv _]%andb_true_iff _]. apply bool_decide_eq_true in Hv.
  specialize (Hv x _ Hx). unfold var_ok in Hv. cbn [fst snd] in Hv. apply andb_true_iff in Hv as [Hv _].
  rewrite !andb_true_iff, !bool_decide_eq_true, negb_true_iff in Hv.
  destruct Hv as [[[[Hm Hl] Hf] Hi] Hb]. auto.
Qed.

Lemma var_labels x m lx y : i_vars I !! x = Some (m, lx, y) -> x ∉ i_args I ->
  m ∈ i_labels I /\ (x ∈ i_assigned I -> lx ∈ i_labels I).
Proof.
  intros Hx Ha. apply andb_true_iff in Iok as [[Hv _]%andb_true_iff _]. apply bool_decide_eq_true in Hv.
  specialize (Hv x _ Hx). unfold var_ok in Hv. cbn [fst snd] in Hv. apply andb_true_iff in Hv as [_ Hv].
  rewrite (bool_decide_eq_false_2 (x ∈ i_args I)) in Hv by done. cbn [orb] in Hv.
  apply andb_true_iff in Hv as [Hm%bool_decide_eq_true Hl]. split; [done|]. intros Has.
  rewrite bool_decide_eq_false_2 in Hl by tauto. by apply bool_decide_eq_true in Hl.
Qed.

Lemma loop_label w m : i_loops I !! w = Some m -> m ∈ i_labels I.
Proof.
  intros Hw. apply andb_true_iff in Iok as [_ Hl]. apply bool_decide_eq_true in Hl. by apply (Hl w).
Qed.

Lemma flowsb_trans a b c : D a -> D b -> D c -> flowsb a b = true -> flowsb b c = true ->
  flowsb a c = true.
Proof. rewrite !flowsb_true. apply flows_trans. Qed.

Lemma flowsb_refl a : D a -> flowsb a a = true.
Proof. rewrite flowsb_true. apply flows_refl. Qed.

Lemma flowsb_antisym a b : D a -> D b -> flowsb a b = true -> flowsb b a = true -> a = b.
Proof. rewrite !flowsb_true. apply flows_antisym. Qed.

(** *** Histories only grow *)

Definition extends (h h' : hist) : Prop :=
  (forall x, vers h x `prefix_of` vers h' x) /\ (forall w, counts h w `prefix_of` counts h' w).

Lemma extends_refl h : extends h h.
Proof. by split. Qed.

Lemma extends_trans h1 h2 h3 : extends h1 h2 -> extends h2 h3 -> extends h1 h3.
Proof. intros [??] [??]. split; intros; etrans; eauto. Qed.

Lemma upd_prefix {A} (f : string -> list A) x a y : f y `prefix_of` upd f x a y.
Proof. unfold upd. case_decide; [by eexists|done]. Qed.

Lemma extends_write x l v h : extends h (write x l v h).
Proof. split; [|done]. intros y. apply upd_prefix. Qed.

Lemma extends_finish w k h : extends h (finish w k h).
Proof. split; [done|]. intros y. apply upd_prefix. Qed.

Lemma run_extends : (forall s h h' r, run N s h h' r -> extends h h') /\
  (forall c body h h' k, loop N c body h h' k -> extends h h').
Proof.
  apply run_loop_ind; intros; try apply extends_refl;
    eauto using extends_trans, extends_write, extends_finish.
Qed.

(** *** What an execution leaves alone *)

Lemma vers_write x l v h y : vers (write x l v h) y =
  if decide (x = y) then vers h y ++ [(l, v)] else vers h y.
Proof. done. Qed.

Lemma counts_finish w k h y : counts (finish w k h) y =
  if decide (w = y) then counts h y ++ [k] else counts h y.
Proof. done. Qed.

Definition untouched (ns : list string) (h h' : hist) : Prop :=
  forall x, x ∉ ns -> (vers h x = [] -> vers h' x = []) /\ counts h' x = counts h x.

Lemma untouched_trans ns h1 h2 h3 : untouched ns h1 h2 -> untouched ns h2 h3 -> untouched ns h1 h3.
Proof.
  intros Ha Hb x Hx. destruct (Ha x Hx), (Hb x Hx). split; [auto|congruence].
Qed.

Lemma untouched_within ns ns' h h' : (forall x, x ∈ ns -> x ∈ ns') ->
  untouched ns h h' -> untouched ns' h h'.
Proof. intros Hs Hu x Hx. apply Hu. auto. Qed.

Lemma assigned_value_bound (env : string -> option value) var x w :
  assigned_value env var x = inl w -> w.1 = target_name var /\ is_Some (env w.1).
Proof.
  destruct var as [|? ? [] ?| | | | | |]; simpl; try done.
  - destruct (env v) eqn:Hv; [|done]. intros [= <-]. simpl. rewrite Hv. eauto.
  - destruct (env v) eqn:Hv; [|done]. intros Hr. res_inv. simpl. rewrite Hv. eauto.
Qed.

Lemma cur_bound h x : is_Some (cur h x) -> vers h x <> [].
Proof. unfold cur. intros [v Hv] Hn. by rewrite Hn in Hv. Qed.

Lemma run_untouched : (forall s h h' r, run N s h h' r -> untouched (decl_names s) h h') /\
  (forall c body h h' k, loop N c body h h' k -> untouched (decl_names body) h h').
Proof.
  apply run_loop_ind; try done.
  - intros l b body h x h' r _ _ IH y [Hy Hyb]%not_elem_of_cons.
    destruct (IH y Hyb) as [Hv Hc]. rewrite vers_write in Hv. cbn in Hy.
    rewrite decide_False in Hv by done. done.
  - intros l var e h x v y _ [Hn Hb]%assigned_value_bound z _. split; [|done].
    rewrite vers_write. case_decide; [|done]. simpl in *. subst. by intros ?%cur_bound.
  - intros l c t e h x b h' r _ _ _ IH. eapply untouched_within; [|exact IH].
    intros y Hy. unfold decl_names. cbn [decls]. rewrite fmap_app, elem_of_app. destruct b; auto.
  - intros l c body w h h' k _ IH _ y [Hy Hyb]%not_elem_of_cons. cbn in Hy.
    rewrite counts_finish, decide_False by done. by apply IH.
  - intros l s ss h h1 h' r _ IH1 _ IH2. unfold decl_names in *. cbn [decls].
    rewrite fmap_cons. cbn [concat]. rewrite fmap_app.
    eapply untouched_trans; eapply untouched_within; [|exact IH1| |exact IH2];
      intros x Hx; apply elem_of_app; auto.
  - intros l s ss h h' v _ IH. unfold decl_names in *. cbn [decls].
    rewrite fmap_cons. cbn [concat]. rewrite fmap_app.
    eapply untouched_within; [|exact IH]. intros x Hx; apply elem_of_app; auto.
  - intros c body h x h1 h' k _ _ _ IH1 _ IH2. by eapply untouched_trans.
Qed.

(** *** The histories of well-labelled transactions *)

Definition written_at (x : string) (m lx : label) (w : label * value) : Prop :=
  w.1 = m \/ (w.1 = lx /\ x ∈ i_assigned I).

(** The versions of a variable, from more to less trusted writers *)
Definition by_trust : list (label * value) -> Prop :=
  StronglySorted (fun w1 w2 => flowsb w1.1 w2.1 = true).

Record hist_ok (h : hist) : Prop := {
  ho_labels x m lx y : i_vars I !! x = Some (m, lx, y) -> Forall (written_at x m lx) (vers h x);
  ho_trust x m lx y : i_vars I !! x = Some (m, lx, y) -> by_trust (vers h x);
  ho_once w : w ∈ i_once I -> length (counts h w) <= 1 }.

(** The names have not been used yet. *)
Definition unused (ns : list string) (h : hist) : Prop :=
  forall x, x ∈ ns -> vers h x = [] /\ counts h x = [].

Lemma by_trust_snoc ws w : by_trust ws -> Forall (fun w1 => flowsb w1.1 w.1 = true) ws ->
  by_trust (ws ++ [w]).
Proof.
  induction 1 as [|w1 ws Hs IH Hf]; simpl; intros Hw; [by repeat constructor|].
  apply Forall_cons in Hw as [Hw1 Hw]. constructor; [by apply IH|].
  apply Forall_app. split; [done|by constructor].
Qed.

Lemma hist_ok_write h x l v m lx y : hist_ok h -> i_vars I !! x = Some (m, lx, y) ->
  written_at x m lx (l, v) ->
  Forall (fun w => flowsb w.1 l = true) (vers h x) -> hist_ok (write x l v h).
Proof.
  intros Hh Hx Hw Hall. split; [| |apply Hh]; intros z mz lz yz Hz;
    rewrite vers_write; case_decide as Hxz; try by eapply Hh.
  - subst z. rewrite Hx in Hz. injection Hz as <- <- <-.
    apply Forall_app. split; [by eapply Hh|by constructor].
  - subst z. apply by_trust_snoc; [by eapply Hh|done].
Qed.

(** A [let] may write its variable. *)
Lemma let_writes h x l lx y v (in_loop : bool) : hist_ok h -> i_vars I !! x = Some (l, lx, y) ->
  negb in_loop || bool_decide (l = lx) || bool_decide (x ∉ i_assigned I) = true ->
  (in_loop = false -> vers h x = []) -> hist_ok (write x l v h).
Proof.
  intros Hh Hx Hc Hu. destruct (var_spec x l lx y Hx) as (HD & _ & _ & _ & _).
  eapply hist_ok_write; [done|done|by left|].
  destruct in_loop; simpl in Hc; [|by rewrite Hu].
  eapply Forall_impl; [by eapply Hh|]. intros w Hw. cbn beta in Hw.
  apply orb_true_iff in Hc as [Hc|Hc]; apply bool_decide_eq_true in Hc;
    destruct Hw as [Hw|[Hw ?]]; rewrite Hw; subst; try done; by apply flowsb_refl.
Qed.

Lemma assignment_writes h x m lx y v : hist_ok h -> i_vars I !! x = Some (m, lx, y) ->
  x ∈ i_assigned I -> hist_ok (write x lx v h).
Proof.
  intros Hh Hx Ha. destruct (var_spec x m lx y Hx) as (_ & HD & Hf & _ & _).
  eapply hist_ok_write; [done|done|by right|].
  eapply Forall_impl; [by eapply Hh|]. intros w Hw. cbn beta in Hw.
  destruct Hw as [Hw|[Hw ?]]; rewrite Hw; [done|by apply flowsb_refl].
Qed.

Lemma unused_cons_write ns x l v h : x ∉ ns -> unused ns h -> unused ns (write x l v h).
Proof.
  intros Hx Hu z Hz. rewrite vers_write. rewrite decide_False; [by apply Hu|by intros ->].
Qed.

Lemma unused_after ns ns' h h' : unused ns h -> untouched ns' h h' ->
  (forall x, x ∈ ns -> x ∉ ns') -> unused ns h'.
Proof.
  intros Hu Hn Hd x Hx. destruct (Hu x Hx) as [Hv Hc].
  destruct (Hn x (Hd x Hx)) as [Hv' Hc']. rewrite Hc'. auto.
Qed.

Lemma unused_within ns ns' h : (forall x, x ∈ ns -> x ∈ ns') -> unused ns' h -> unused ns h.
Proof. intros Hs Hu x Hx. auto. Qed.

Lemma decl_names_sequence l s ss : decl_names (SSequence l (s :: ss)) = decl_names s ++ decl_names (SSequence l ss).
Proof. unfold decl_names. cbn [decls]. by rewrite fmap_cons, <- fmap_app. Qed.

Lemma decl_names_let l b s : decl_names (SLet l b s) = b_var b :: decl_names s.
Proof. done. Qed.

Lemma decl_names_while l c s w : decl_names (SWhile l c s w) = w :: decl_names s.
Proof. done. Qed.

Lemma decl_names_if l c t e : decl_names (SIf l c t e) = decl_names t ++ decl_names e.
Proof. unfold decl_names. cbn [decls]. by rewrite <- fmap_app. Qed.

(** A sequence shares no names between its members. *)
Lemma sequence_unused (b : bool) l s ss h h' : NoDup (decl_names (SSequence l (s :: ss))) ->
  (b = false -> unused (decl_names (SSequence l (s :: ss))) h) ->
  untouched (decl_names s) h h' ->
  (b = false -> unused (decl_names s) h) /\ (b = false -> unused (decl_names (SSequence l ss)) h') /\
  NoDup (decl_names s) /\ NoDup (decl_names (SSequence l ss)).
Proof.
  rewrite decl_names_sequence. intros (Hn1 & Hd & Hn2)%NoDup_app Hu Hun.
  split_and!; try done; intros Hb; specialize (Hu Hb).
  - eapply unused_within; [|exact Hu]. intros x Hx. apply elem_of_app. by left.
  - eapply unused_after; [|exact Hun|].
    + eapply unused_within; [|exact Hu]. intros x Hx. apply elem_of_app. by right.
    + intros x Hx Hx'. by apply (Hd x).
Qed.

Lemma run_hist_ok :
  (forall s h h' r, run N s h h' r -> forall in_loop pc, labelled I in_loop pc s = true ->
    NoDup (decl_names s) -> (in_loop = false -> unused (decl_names s) h) ->
    hist_ok h -> hist_ok h') /\
  (forall c body h h' k, loop N c body h h' k -> forall pc, labelled I true pc body = true ->
    NoDup (decl_names body) -> hist_ok h -> hist_ok h').
Proof.
  apply run_loop_ind.
  - intros l b body h x h' r _ _ IH in_loop pc Hl Hn Hu Hh. cbn [labelled] in Hl.
    rewrite decl_names_let in Hn, Hu. apply NoDup_cons in Hn as [Hnb Hn]. apply andb_true_iff in Hl as [Hl Hbody].
    apply andb_true_iff in Hl as [Hl Hc]. bool_inv.
    apply (IH in_loop pc); [done|done| |].
    + intros Hb. apply unused_cons_write; [done|]. intros z Hz. apply Hu; [done|by right].
    + eapply let_writes; [done|done|done|]. intros Hb. apply Hu; [done|by left].
  - intros l var e h x v y _ [Hn _]%assigned_value_bound in_loop pc Hl _ _ Hh.
    cbn [labelled] in Hl. bool_inv. simpl in Hn. rewrite Hn. subst.
    by eapply assignment_writes.
  - intros l e h x _ in_loop pc _ _ _ Hh. done.
  - intros l c t e h x b h' r _ _ _ IH in_loop pc Hl Hn Hu Hh. cbn [labelled] in Hl. bool_inv.
    rewrite decl_names_if in Hn, Hu. apply NoDup_app in Hn as (Hn1 & _ & Hn2).
    apply (IH in_loop l); [by destruct b|by destruct b| |done].
    intros Hb. eapply unused_within; [|by apply Hu]. intros z Hz. apply elem_of_app. destruct b; auto.
  - intros l c body w h h' k Hrun IH Hk in_loop pc Hl Hn Hu Hh. cbn [labelled] in Hl.
    rewrite decl_names_while in Hn, Hu. apply NoDup_cons in Hn as [Hnw Hn]. apply andb_true_iff in Hl as [Hl Hbody].
    apply andb_true_iff in Hl as [Hl Hw].
    destruct (IH l Hbody Hn Hh) as [Hlab Htr Honce]. split; [done|done|].
    intros z Hz. rewrite counts_finish. destruct (decide (w = z)) as [<-|]; [|by apply Honce].
    destruct in_loop; simpl in Hw; [by apply bool_decide_eq_true in Hw|].
    destruct (proj2 run_untouched _ _ _ _ _ Hrun w Hnw) as [_ ->].
    destruct (Hu eq_refl w) as [_ ->]; [by left|done].
  - done.
  - intros l s ss h h1 h' r Hr1 IH1 _ IH2 in_loop pc Hl Hn Hu Hh. cbn [labelled forallb] in *. bool_inv.
    destruct (sequence_unused in_loop l s ss h h1 Hn Hu) as (Hu1 & Hu2 & Hn1 & Hn2);
      [by eapply (proj1 run_untouched)|].
    apply (IH2 in_loop pc); [done|done|done|]. by apply (IH1 in_loop pc).
  - intros l s ss h h' v Hr1 IH in_loop pc Hl Hn Hu Hh. cbn [labelled forallb] in *. bool_inv.
    destruct (sequence_unused in_loop l s ss h h' Hn Hu) as (Hu1 & _ & Hn1 & _);
      [by eapply (proj1 run_untouched)|]. by apply (IH in_loop pc).
  - done.
  - intros c body h x h1 h' k _ _ Hr1 IH1 _ IH2 pc Hl Hn Hh.
    apply (IH2 pc); [done|done|]. by apply (IH1 true pc).
Qed.

(** Arguments are never written. *)
Lemma run_arguments :
  (forall s h h' r, run N s h h' r -> forall in_loop pc, labelled I in_loop pc s = true ->
    forall x, x ∈ i_args I -> vers h' x = vers h x) /\
  (forall c body h h' k, loop N c body h h' k -> forall pc, labelled I true pc body = true ->
    forall x, x ∈ i_args I -> vers h' x = vers h x).
Proof.
  apply run_loop_ind; try done.
  - intros l b body h x h' r _ _ IH in_loop pc Hl z Hz. cbn [labelled] in Hl.
    apply andb_true_iff in Hl as [Hl Hbody]. rewrite (IH in_loop pc Hbody z Hz), vers_write.
    apply decide_False. intros <-. bool_inv. done.
  - intros l var e h x v y _ [Hn _]%assigned_value_bound in_loop pc Hl z Hz.
    cbn [labelled] in Hl. bool_inv. rewrite vers_write. apply decide_False. simpl in Hn. intros <-. by subst v.
  - intros l c t e h x b h' r _ _ _ IH in_loop pc Hl z Hz. cbn [labelled] in Hl. bool_inv.
    apply (IH in_loop l); [by destruct b|done].
  - intros l c body w h h' k _ IH _ in_loop pc Hl z Hz. cbn [labelled] in Hl.
    apply andb_true_iff in Hl as [Hl Hbody]. by apply (IH l).
  - intros l s ss h h1 h' r _ IH1 _ IH2 in_loop pc Hl z Hz. cbn [labelled forallb] in *. bool_inv.
    rewrite (IH2 in_loop pc), (IH1 in_loop pc); done.
  - intros l s ss h h' v _ IH in_loop pc Hl z Hz. cbn [labelled forallb] in *. bool_inv.
    by apply (IH in_loop pc).
  - intros c body h x h1 h' k _ _ _ IH1 _ IH2 pc Hl z Hz.
    rewrite (IH2 pc), (IH1 true pc); done.
Qed.

(** *** What less trusted statements write *)

(** The versions written by statements that flow to [l], by those strictly
    more trusted than [l], and at [l] itself *)
Definition seen (l : label) (ws : list (label * value)) : list (label * value) :=
  base.filter (fun w => flowsb w.1 l = true) ws.
Definition above (l : label) (ws : list (label * value)) : list (label * value) :=
  base.filter (fun w => flowsb w.1 l = true /\ w.1 <> l) ws.
Definition at_label (l : label) (ws : list (label * value)) : list (label * value) :=
  base.filter (fun w => w.1 = l) ws.

(** Nothing changed for the label [l]. *)
Definition same_for (l : label) (h h' : hist) : Prop :=
  (forall x, seen l (vers h' x) = seen l (vers h x)) /\
  (forall w m, i_loops I !! w = Some m -> flowsb m l = true -> counts h' w = counts h w).

Lemma same_for_trans l h1 h2 h3 : same_for l h1 h2 -> same_for l h2 h3 -> same_for l h1 h3.
Proof.
  intros [Hv1 Hc1] [Hv2 Hc2]. split; intros.
  - by rewrite Hv2, Hv1.
  - by erewrite Hc2, Hc1.
Qed.

Lemma same_for_write l x m v h : flowsb m l = false -> same_for l h (write x m v h).
Proof.
  intros Hm. split; [|done]. intros z. rewrite vers_write. case_decide; [|done].
  unfold seen. rewrite filter_app, filter_cons_False by (simpl; congruence). apply app_nil_r.
Qed.

Lemma run_same_for l : D l ->
  (forall s h h' r, run N s h h' r -> forall in_loop pc, labelled I in_loop pc s = true ->
    D pc -> flowsb pc l = false -> same_for l h h') /\
  (forall c body h h' k, loop N c body h h' k -> forall pc, labelled I true pc body = true ->
    D pc -> flowsb pc l = false -> same_for l h h').
Proof.
  intros Hl.
  assert (Hlow : forall pc m, m ∈ i_labels I -> D pc -> flowsb pc m = true ->
    flowsb pc l = false -> D m /\ flowsb m l = false).
  { intros pc m Hm%(list_elem_of_further _ top)%labels_D Hpc Hpm Hpl. split; [done|].
    destruct (flowsb m l) eqn:Hml; [|done]. by rewrite (flowsb_trans pc m l) in Hpl. }
  apply run_loop_ind; try done.
  - intros m b body h x h' r _ _ IH in_loop pc Hlab Hpc Hn. cbn [labelled] in Hlab.
    apply andb_true_iff in Hlab as [Hlab Hbody]. bool_inv.
    destruct (Hlow pc m) as [_ Hml]; [done..|].
    eapply same_for_trans; [by apply same_for_write|by apply (IH in_loop pc)].
  - intros m var e h x v y _ _ in_loop pc Hlab Hpc Hn. cbn [labelled] in Hlab. bool_inv.
    apply same_for_write. by eapply (Hlow pc m).
  - intros m c t e h x b h' r _ _ _ IH in_loop pc Hlab Hpc Hn. cbn [labelled] in Hlab. bool_inv.
    destruct (Hlow pc m) as [HD Hml]; [done..|]. apply (IH in_loop m); [by destruct b|done..].
  - intros m c body w h h' k _ IH _ in_loop pc Hlab Hpc Hn. cbn [labelled] in Hlab.
    apply andb_true_iff in Hlab as [Hlab Hbody]. bool_inv.
    destruct (Hlow pc m) as [HD Hml]; [done..|].
    eapply same_for_trans; [by apply (IH m)|]. split; [done|].
    intros z mz Hz Hzl. rewrite counts_finish. rewrite decide_False; [done|]. intros <-. congruence.
  - intros m s ss h h1 h' r _ IH1 _ IH2 in_loop pc Hlab Hpc Hn. cbn [labelled forallb] in *. bool_inv.
    eapply same_for_trans; [by apply (IH1 in_loop pc)|by apply (IH2 in_loop pc)].
  - intros m s ss h h' v _ IH in_loop pc Hlab Hpc Hn. cbn [labelled forallb] in *. bool_inv.
    by apply (IH in_loop pc).
  - intros c body h x h1 h' k _ _ _ IH1 _ IH2 pc Hlab Hpc Hn.
    eapply same_for_trans; [by apply (IH1 true pc)|by apply (IH2 pc)].
Qed.

(** *** Versions in the order of the phases *)

Lemma seen_all l ws : Forall (fun w => flowsb w.1 l = true) ws -> seen l ws = ws.
Proof.
  induction 1 as [|w ws Hw _ IH]; [done|]. unfold seen in *. by rewrite filter_cons_True, IH.
Qed.

Lemma above_at_seen l ws : D l -> length (seen l ws) = length (above l ws) + length (at_label l ws).
Proof.
  intros Hl. unfold seen, above, at_label. induction ws as [|w ws IH]; [done|].
  destruct (decide (w.1 = l)) as [Hw|Hw].
  - rewrite filter_cons_True by (rewrite Hw; by apply flowsb_refl).
    rewrite filter_cons_False by (intros [? ?]; congruence). rewrite (filter_cons_True (fun w => w.1 = l)) by done.
    simpl. lia.
  - rewrite (filter_cons_False (fun w => w.1 = l)) by done.
    destruct (flowsb w.1 l) eqn:Hf.
    + rewrite filter_cons_True by done. rewrite filter_cons_True by done. simpl. lia.
    + rewrite filter_cons_False by congruence. rewrite filter_cons_False by (intros [? ?]; congruence). done.
Qed.

Lemma by_trust_split l ws : D l -> Forall (fun w => D w.1) ws -> by_trust ws ->
  seen l ws = above l ws ++ at_label l ws.
Proof.
  intros Hl HD Hs. unfold seen, above, at_label.
  induction Hs as [|w ws Hs IH Hf]; [done|]. apply Forall_cons in HD as [HDw HD].
  destruct (decide (w.1 = l)) as [Hw|Hw].
  - assert (Hnil : base.filter (fun w => flowsb w.1 l = true /\ w.1 <> l) ws = []).
    { clear -Hf Hw HD Hl H0. induction Hf as [|w' ws Hw' _ IH]; [done|].
      apply Forall_cons in HD as [HDw HD]. rewrite filter_cons_False; [by apply IH|].
      intros [Hwl Hne]. apply Hne. rewrite Hw in Hw'. by apply flowsb_antisym. }
    rewrite filter_cons_True by (rewrite Hw; by apply flowsb_refl).
    rewrite filter_cons_False by (intros [? ?]; congruence). rewrite (filter_cons_True (fun w => w.1 = l)) by done.
    rewrite IH by done. by rewrite Hnil.
  - rewrite (filter_cons_False (fun w => w.1 = l)) by done.
    destruct (flowsb w.1 l) eqn:Hfl.
    + rewrite filter_cons_True by done. rewrite filter_cons_True by done. by rewrite IH.
    + rewrite filter_cons_False by congruence. rewrite filter_cons_False by (intros [? ?]; congruence). by rewrite IH.
Qed.

Lemma prefix_app_cases {A} (ws xs ys : list A) : ws `prefix_of` xs ++ ys ->
  ws `prefix_of` xs \/ exists zs, ws = xs ++ zs /\ zs `prefix_of` ys.
Proof.
  intros [k Hk]. symmetry in Hk. apply app_eq_inv in Hk as [(zs & -> & Hz)|(zs & -> & Hz)].
  - right. exists zs. split; [done|]. by exists k.
  - left. by exists zs.
Qed.

Lemma at_label_above l ws : at_label l (above l ws) = [].
Proof.
  unfold at_label, above. induction ws as [|w ws IH]; [done|].
  destruct (decide (flowsb w.1 l = true /\ w.1 <> l)) as [Hw|Hw].
  - rewrite filter_cons_True by done. by rewrite filter_cons_False by (by destruct Hw).
  - by rewrite filter_cons_False by done.
Qed.

Lemma at_label_prefix l zs ws : zs `prefix_of` at_label l ws -> at_label l zs = zs.
Proof.
  intros [k Hk]. assert (Hall : Forall (fun w => w.1 = l) zs).
  { apply Forall_forall. intros w Hw.
    assert (Hin : w ∈ at_label l ws) by (rewrite Hk; apply elem_of_app; by left).
    by apply list_elem_of_filter in Hin as [? _]. }
  clear Hk. unfold at_label. induction Hall as [|w zs Hw _ IH]; [done|].
  by rewrite filter_cons_True, IH.
Qed.

(** What a phase sees of a variable it may read: the versions of earlier
    phases, then its own, start with the versions written so far. *)
Lemma readable_prefix l fin ws : D l -> Forall (fun w => D w.1) fin -> by_trust fin ->
  Forall (fun w => flowsb w.1 l = true) fin -> ws `prefix_of` fin ->
  ws `prefix_of` above l fin ++ at_label l ws.
Proof.
  intros Hl HD Ht Hf Hw.
  rewrite <- (seen_all l fin Hf), (by_trust_split l fin Hl HD Ht) in Hw.
  apply prefix_app_cases in Hw as [Hw|(zs & -> & Hz)]; [by apply prefix_app_r|].
  assert (Heq : at_label l (above l fin ++ zs) = zs).
  { unfold at_label at 1. rewrite filter_app.
    change (at_label l (above l fin) ++ at_label l zs = zs).
    by rewrite at_label_above, (at_label_prefix l zs fin Hz). }
  by rewrite Heq.
Qed.

Lemma above_prefix l ws fin : ws `prefix_of` fin -> length (above l ws) <= length (above l fin).
Proof.
  intros [k ->]. unfold above. rewrite filter_app, length_app. lia.
Qed.

(** Labels of versions are labels of the program. *)
Lemma versions_D h x m lx y : hist_ok h -> i_vars I !! x = Some (m, lx, y) ->
  Forall (fun w => D w.1) (vers h x).
Proof.
  intros Hh Hx. destruct (var_spec x m lx y Hx) as (Hm & Hlx & _).
  eapply Forall_impl; [by eapply Hh|]. intros w [Hw|[Hw _]]; cbn beta; by rewrite Hw.
Qed.

(** Versions of a variable that may be read at [l] flow to [l]. *)
Lemma versions_flow h x m lx y l : hist_ok h -> i_vars I !! x = Some (m, lx, y) ->
  D l -> flowsb lx l = true -> Forall (fun w => flowsb w.1 l = true) (vers h x).
Proof.
  intros Hh Hx Hl Hf. destruct (var_spec x m lx y Hx) as (Hm & Hlx & Hfl & _).
  eapply Forall_impl; [by eapply Hh|]. intros w [Hw|[Hw _]]; cbn beta; rewrite Hw; [|done].
  by apply (flowsb_trans m lx l).
Qed.

End facts.
