(* ===== verification/SplitSim.v ===== *)
(** * One phase reproduces its part of an execution

    While the transaction runs from one history to the next, the statements the
    phase of label [l] keeps of it ([proj]) keep the store in step: the vector of
    a shared variable holds the versions of earlier phases followed by those of
    this one, and the position of the phase in it is that of the version the
    transaction has reached. *)
From S2P Require Import Prelude TypeLists Labels TypedAst LabelCollect PhaseApi Runtime Holders.
From S2P Require Import SplitAst Split RunPhase SplitSpec SplitProj SplitHist.

#[local] Open Scope Z_scope.

(** ** Runs that end normally *)

Section steps.
Context `{Remote}.

Lemma run_bind {A B} (m : Run A) (f : A -> Run B) s a s' :
  m s = (inl a, s') -> (m ≫= f) s = f a s'.
Proof. unfold mbind, Run_bind. by intros ->. Qed.

Lemma run_bind_stop {A B} (m : Run A) (f : A -> Run B) s e s' :
  m s = (inr e, s') -> (m ≫= f) s = (inr e, s').
Proof. unfold mbind, Run_bind. by intros ->. Qed.

(** A computation that yields a value and changes nothing *)
Definition yields {A} (m : Run A) (s : run_state) (a : A) : Prop := m s = (inl a, s).

Lemma yields_bind {A B} (m : Run A) (f : A -> Run B) s a : yields m s a -> (m ≫= f) s = f a s.
Proof. apply run_bind. Qed.

Lemma lift_inl {A} (r : Res A) a s : r = inl a -> yields (lift r) s a.
Proof. by intros ->. Qed.

Lemma yields_mret {A} (a : A) s : yields (mret a) s a.
Proof. done. Qed.

Lemma find_holder_some v h s : holders (st_store s) !! v = Some h -> yields (find_holder v) s h.
Proof. intros Hv. unfold yields, find_holder. rewrite (run_bind _ _ s (st_store s) s) by done. by rewrite Hv. Qed.

Definition with_holder (v : string) (h : holder) (s : run_state) : run_state :=
  RunState (set_holder v h (st_store s)) (st_lists s) (st_world s).

Lemma with_holder_lookup v h s : holders (st_store (with_holder v h s)) !! v = Some h.
Proof. apply lookup_insert_eq. Qed.

Lemma with_holder_ne v h s w : v <> w ->
  holders (st_store (with_holder v h s)) !! w = holders (st_store s) !! w.
Proof. apply lookup_insert_ne. Qed.

Lemma with_holder_id v hd s : holders (st_store s) !! v = Some hd -> with_holder v hd s = s.
Proof. destruct s as [[hs ss] ls w]. unfold with_holder, set_holder. cbn. intros Hv. by rewrite insert_id. Qed.

Section interpreter.
Variables (tracked : bool) (fuel : nat).
#[local] Abbreviation run_list := (run_list tracked fuel).
#[local] Abbreviation run_stmt := (run_stmt tracked fuel).

Lemma run_list_app ps qs s : run_list (ps ++ qs) s = (run_list ps;; run_list qs) s.
Proof.
  revert s. induction ps as [|p ps IH]; intros s; [done|]. simpl.
  unfold mbind, Run_bind in *. destruct (run_stmt p s) as [[]]; [apply IH|done].
Qed.

Lemma run_sequence ss s : run_stmt (PSequence ss) s = run_list ss s.
Proof.
  simpl. revert s. induction ss as [|p ss IH]; intros s; [done|].
  cbn [RunPhase.run_list]. unfold mbind, Run_bind in *. by destruct (run_stmt p s) as [[]].
Qed.

Lemma run_list_single p s : run_list [p] s = run_stmt p s.
Proof. simpl. unfold mbind, Run_bind. by destruct (run_stmt p s) as [[[]|]]. Qed.

(** Flattening a statement does not change what it does. *)
Lemma run_flat p s : run_stmt p s = run_list (flat p) s.
Proof.
  revert s. induction p as [| | | | | | | | | | | | |ss IH] using pstmt_ind';
    intros s; try (unfold flat; by rewrite run_list_single).
  rewrite run_sequence. revert s. induction IH as [|p ss Hp _ IH]; intros s; [done|].
  rewrite flat_cons, run_list_app. cbn [RunPhase.run_list].
  unfold mbind, Run_bind. rewrite Hp. by destruct (run_list (flat p) s) as [[]].
Qed.

Lemma run_list_snoc_ok ps qs s s' : run_list ps s = (inl tt, s') ->
  run_list (ps ++ qs) s = run_list qs s'.
Proof. intros Hp. rewrite run_list_app. by rewrite (run_bind _ _ _ _ _ Hp). Qed.

(** *** Reading, writing and stepping over a variable *)

Lemma get_shared v h x s : holders (st_store s) !! v = Some (HType h) -> th_get h = Some x ->
  yields (holder_get v) s x.
Proof.
  intros Hv Hx. unfold yields, holder_get. rewrite (yields_bind _ _ _ _ (find_holder_some _ _ _ Hv)).
  by rewrite Hx.
Qed.

Lemma get_plain v x s : holders (st_store s) !! v = Some (HValue (Some x)) -> yields (holder_get v) s x.
Proof. intros Hv. unfold yields, holder_get. by rewrite (yields_bind _ _ _ _ (find_holder_some _ _ _ Hv)). Qed.

Lemma push_shared v h x s : holders (st_store s) !! v = Some (HType h) ->
  holder_push v x s = (inl tt, with_holder v (HType (th_push h x)) s).
Proof. intros Hv. unfold holder_push. by rewrite (yields_bind _ _ _ _ (find_holder_some _ _ _ Hv)). Qed.

Lemma push_value v x0 x s : holders (st_store s) !! v = Some (HValue (Some x0)) ->
  holder_push v x s = (inl tt, with_holder v (HValue (Some x)) s).
Proof. intros Hv. unfold holder_push. by rewrite (yields_bind _ _ _ _ (find_holder_some _ _ _ Hv)). Qed.

Lemma bind_shared v h x s : holders (st_store s) !! v = Some (HType h) ->
  -1 <= curr_pos h < Z.of_nat (length (th_t h)) ->
  holder_bind tracked v x s =
    (inl tt, with_holder v (HType (THolder (th_t h ++ [x]) (curr_pos h + 1) true)) s).
Proof.
  intros Hv Hp. unfold holder_bind. rewrite (yields_bind _ _ _ _ (find_holder_some _ _ _ Hv)).
  rewrite (run_bind _ _ s (st_store s) s) by done. by rewrite (th_bind_some h x Hp).
Qed.

Lemma bind_plain v o x s : holders (st_store s) !! v = Some (HValue o) ->
  holder_bind tracked v x s = (inl tt, with_holder v (HValue (Some x)) s).
Proof. intros Hv. unfold holder_bind. by rewrite (yields_bind _ _ _ _ (find_holder_some _ _ _ Hv)). Qed.

Lemma increment_shared v h s : holders (st_store s) !! v = Some (HType h) ->
  holder_increment v s = (inl tt, with_holder v (HType (th_increment h)) s).
Proof. intros Hv. unfold holder_increment. by rewrite (yields_bind _ _ _ _ (find_holder_some _ _ _ Hv)). Qed.

End interpreter.
End steps.

(** Step over operands whose values are known. *)
Ltac yield_steps := repeat match goal with
  | Hr : ?r = inl ?a |- context [(lift ?r ≫= _) _] =>
      rewrite (yields_bind _ _ _ _ (lift_inl r a _ Hr))
  | Hy : yields ?m ?s ?a |- context [(?m ≫= _) ?s] => rewrite (yields_bind _ _ _ _ Hy)
  | Hy : forall v, ?r = inl v -> yields ?m ?s v, Hr : ?r = inl ?a |- context [(?m ≫= _) ?s] =>
      rewrite (yields_bind _ _ _ _ (Hy a Hr))
  end.

(** ** The store in step with a history *)

Section sim.
Context `{LabelOrder D} `{Handles} `{!Remote}.
Variables (I : info) (N : nat).
Hypothesis labels_D : forall l, l ∈ top :: i_labels I -> D l.
Hypothesis Iok : info_ok I = true.

(** The phase, the names it requires, the variables only their own phase uses,
    and the history the whole transaction ends with *)
Variables (l : label) (R owned : string -> bool) (fin : hist).
Hypothesis l_D : D l.
Hypothesis l_label : l ∈ i_labels I.
Hypothesis fin_ok : hist_ok I fin.
Hypothesis R_spec : forall x m lx y, R x = true -> i_vars I !! x = Some (m, lx, y) ->
  x ∉ i_args I -> owned x = false /\ flowsb m l = true.

Variables (tracked : bool) (fuel : nat).
Hypothesis N_fuel : (N <= fuel)%nat.
Hypothesis N_int : Z.of_nat N <= int_max.

#[local] Abbreviation run_list := (run_list tracked fuel).
#[local] Abbreviation run_stmt := (run_stmt tracked fuel).

(** The number of iterations the phase finds for a loop *)
Definition known_counts (m : label) (w : string) (h : hist) : list nat :=
  if decide (m = l) then counts h w else counts fin w.

Record in_step (h : hist) (s : run_state) : Prop := {
  is_arg x : x ∈ i_args I ->
    exists v, cur h x = Some v /\ holders (st_store s) !! x = Some (HValue (Some v));
  is_owned x m lx y : i_vars I !! x = Some (m, lx, y) -> x ∉ i_args I -> owned x = true ->
    exists o, holders (st_store s) !! x = Some (HValue o) /\
      forall w, m = l -> last (at_label l (vers h x)) = Some w -> o = Some w.2;
  is_shared x m lx y : i_vars I !! x = Some (m, lx, y) -> x ∉ i_args I -> owned x = false ->
    exists th, holders (st_store s) !! x = Some (HType th) /\
      th_t th = snd <$> (above l (vers fin x) ++ at_label l (vers h x)) /\
      (R x = true \/ m = l -> curr_pos th = Z.of_nat (length (seen l (vers h x))) - 1);
  is_counter w m : i_loops I !! w = Some m ->
    exists o, holders (st_store s) !! w = Some (HValue o);
  is_loop w m : i_loops I !! w = Some m -> flowsb m l = true ->
    exists o, holders (st_store s) !! w = Some (HValue o) /\
      forall k, w ∈ i_once I -> known_counts m w h = [k] -> o = Some (VInt (Z.of_nat k)) }.

(** A variable the phase may use *)
Definition usable (x : string) : Prop :=
  R x = true \/ forall m lx y, i_vars I !! x = Some (m, lx, y) -> m = l.

Lemma labels_only x m lx y h : hist_ok I h -> i_vars I !! x = Some (m, lx, y) ->
  m = l -> lx = l -> at_label l (vers h x) = vers h x.
Proof.
  intros Hh Hx Hm Hlx. pose proof (ho_labels _ _ Hh x m lx y Hx) as Hw.
  unfold at_label. induction Hw as [|w ws Hw _ IH]; [done|].
  rewrite filter_cons_True, IH; [done|]. destruct Hw as [Hw|[Hw _]]; by rewrite Hw.
Qed.

(** Reading a variable the phase may read gives its current value. *)
Lemma read_var h s x m lx y v : hist_ok I h -> extends h fin -> in_step h s ->
  i_vars I !! x = Some (m, lx, y) -> flowsb lx l = true -> usable x ->
  cur h x = Some v -> yields (holder_get x) s v.
Proof.
  intros Hh He Hs Hx Hf Hu Hv.
  destruct (decide (x ∈ i_args I)) as [Ha|Ha].
  { destruct (is_arg _ _ Hs x Ha) as (v' & Hv' & Hl). rewrite Hv in Hv'. injection Hv' as <-.
    by apply get_plain. }
  assert (Hcur : exists w, last (vers h x) = Some w /\ w.2 = v).
  { unfold cur in Hv. destruct (last (vers h x)) as [w|]; [|done]. injection Hv as <-. eauto. }
  destruct Hcur as (w & Hw & <-).
  destruct (owned x) eqn:Ho.
  - destruct Hu as [Hr|Hml]; [by destruct (R_spec x m lx y Hr Hx Ha); congruence|].
    assert (m = l) as -> by by eapply Hml.
    destruct (is_owned _ _ Hs x l lx y Hx Ha Ho) as (o & Hl & Hlast).
    assert (lx = l) as ->.
    { destruct (var_spec I labels_D Iok x l lx y Hx) as (? & ? & ? & _).
      by apply flowsb_antisym. }
    rewrite (labels_only x l l y) in Hlast by done.
    apply get_plain. by rewrite Hl, (Hlast w eq_refl Hw).
  - destruct (is_shared _ _ Hs x m lx y Hx Ha Ho) as (th & Hl & Ht & Hp).
    eapply get_shared; [exact Hl|].
    apply last_Some in Hw as [ws Hws].
    apply (th_get_at _ (length ws)).
    + rewrite Hp.
      * rewrite seen_all by (by eapply versions_flow). rewrite Hws, length_app. simpl. lia.
      * destruct Hu as [?|Hml]; [by left|right]. by eapply Hml.
    + rewrite Ht, list_lookup_fmap.
      assert (Hpre : vers h x `prefix_of` above l (vers fin x) ++ at_label l (vers h x)).
      { apply (readable_prefix (D := D)); [done|by eapply versions_D|by eapply fin_ok| |apply He].
        by eapply versions_flow. }
      rewrite (prefix_lookup_Some (vers h x) _ (length ws) w); [done| |done].
      by rewrite Hws, list_lookup_middle.
Qed.

(** Expressions the phase keeps mean what they mean in the transaction. *)
Lemma run_translate h s e v : hist_ok I h -> extends h fin -> in_step h s ->
  is_local_expr e = true -> reads_ok I l e = true ->
  (forall x, x ∈ expr_vars e -> usable x) ->
  eval (cur h) e = inl v -> yields (run_expr (translate e)) s v.
Proof.
  intros Hh He Hs. revert v.
  induction e as [lv y x|le y e f IH|i|le y op L R' IHL IHR| | | |] using expr_ind';
    intros v Hloc Hr Hu Hv; cbn [is_local_expr] in Hloc; cbn [reads_ok] in Hr;
    cbn [expr_vars] in Hu; try done.
  - cbn [translate RunPhase.run_expr]. unfold run_var. cbn [eval] in Hv.
    destruct (decide (x = "true")%string); [by res_inv|].
    destruct (decide (x = "false")%string); [by res_inv|].
    apply orb_true_iff in Hloc as [Hx%bool_decide_eq_true|Hx%negb_true_iff]; [tauto|].
    rewrite Hx in Hr, Hu. cbn [orb] in Hr.
    destruct (i_vars I !! x) as [[[m lx] t]|] eqn:Hi; [|done].
    apply andb_true_iff in Hr as [_ Hf].
    destruct (decide (x = list_stub_name)) as [->|]; [done|].
    destruct (cur h x) as [v'|] eqn:Hc; [|done]. injection Hv as ->.
    eapply read_var; [done..| |done]. apply Hu. by left.
  - cbn [eval] in Hv. res_inv. cbn [translate RunPhase.run_expr].
    unfold yields. rewrite (yields_bind _ _ _ _ (IH _ Hloc Hr Hu ltac:(done))).
    by apply lift_inl.
  - cbn [eval] in Hv. by res_inv.
  - apply andb_true_iff in Hloc as [HlL HlR]. apply andb_true_iff in Hr as [HrL HrR].
    assert (HuL : forall x, x ∈ expr_vars L -> usable x) by (intros; apply Hu, elem_of_app; auto).
    assert (HuR : forall x, x ∈ expr_vars R' -> usable x) by (intros; apply Hu, elem_of_app; auto).
    pose proof (fun v => IHL v HlL HrL HuL) as HL. pose proof (fun v => IHR v HlR HrR HuR) as HR.
    cbn [eval] in Hv. cbn [translate RunPhase.run_expr]. unfold yields.
    destruct (decide (op = "&"%char)); [|destruct (decide (op = "|"%char))]; res_inv.
    + yield_steps. destruct a0; res_inv; [by yield_steps|done].
    + yield_steps. destruct a0; res_inv; [done|by yield_steps].
    + yield_steps. by apply lift_inl.
Qed.

(** *** Writing a variable *)

(** Only the holder of [x] and the versions of [x] changed. *)
Lemma in_step_var h h' s x hd m lx y : in_step h s ->
  i_vars I !! x = Some (m, lx, y) -> x ∉ i_args I ->
  (forall z, z <> x -> vers h' z = vers h z) -> counts h' = counts h ->
  (owned x = true -> exists o, hd = HValue o /\
    forall w, m = l -> last (at_label l (vers h' x)) = Some w -> o = Some w.2) ->
  (owned x = false -> exists th, hd = HType th /\
    th_t th = snd <$> (above l (vers fin x) ++ at_label l (vers h' x)) /\
    (R x = true \/ m = l -> curr_pos th = Z.of_nat (length (seen l (vers h' x))) - 1)) ->
  in_step h' (with_holder x hd s).
Proof.
  intros Hs Hx Ha Hv Hc Ho Hsh. split.
  - intros z Hz. assert (z <> x) by by intros ->. destruct (is_arg _ _ Hs z Hz) as (v & Hcv & Hl).
    exists v. rewrite with_holder_ne by done. unfold cur. by rewrite Hv.
  - intros z mz lz yz Hz Hza Hoz. destruct (decide (z = x)) as [->|].
    + rewrite Hx in Hz. injection Hz as <- <- <-. destruct (Ho Hoz) as (o & -> & Hlast).
      exists o. split; [apply with_holder_lookup|done].
    + rewrite with_holder_ne, Hv by done. by eapply is_owned.
  - intros z mz lz yz Hz Hza Hoz. destruct (decide (z = x)) as [->|].
    + rewrite Hx in Hz. injection Hz as <- <- <-. destruct (Hsh Hoz) as (th & -> & Ht).
      exists th. split; [apply with_holder_lookup|done].
    + rewrite with_holder_ne, Hv by done. by eapply is_shared.
  - intros w mw Hw. rewrite with_holder_ne; [by eapply is_counter|].
    intros ->. destruct (var_spec I labels_D Iok w m lx y Hx) as (_ & _ & _ & Hn & _). congruence.
  - intros w mw Hw Hf. assert (w <> x).
    { intros ->. destruct (var_spec I labels_D Iok x m lx y Hx) as (_ & _ & _ & Hn & _). congruence. }
    rewrite with_holder_ne by done. unfold known_counts. rewrite Hc. by apply (is_loop _ _ Hs).
Qed.

(** Only variables and the loops [ns] are touched. *)
Definition loops_kept (ns : list string) (s s' : run_state) : Prop :=
  forall w, i_vars I !! w = None -> w ∉ ns -> holders (st_store s') !! w = holders (st_store s) !! w.

Lemma loops_kept_refl ns s : loops_kept ns s s.
Proof. done. Qed.

Lemma loops_kept_trans ns s1 s2 s3 : loops_kept ns s1 s2 -> loops_kept ns s2 s3 -> loops_kept ns s1 s3.
Proof. intros Ha Hb w Hv Hw. by rewrite Hb, Ha. Qed.

Lemma loops_kept_within ns ns' s s' : (forall x, x ∈ ns -> x ∈ ns') ->
  loops_kept ns s s' -> loops_kept ns' s s'.
Proof. intros Hn Hk w Hv Hw. apply Hk; auto. Qed.

Lemma with_holder_kept ns x hd s : is_Some (i_vars I !! x) \/ x ∈ ns -> loops_kept ns s (with_holder x hd s).
Proof.
  intros Hx w Hv Hw. apply with_holder_ne. intros ->. rewrite Hv in Hx.
  destruct Hx as [[? Hx]|]; [done|tauto].
Qed.

Lemma vers_write_ne x m v h z : z <> x -> vers (write x m v h) z = vers h z.
Proof. intros Hz. rewrite vers_write. by apply decide_False. Qed.

Lemma vers_write_eq x m v h : vers (write x m v h) x = vers h x ++ [(m, v)].
Proof. rewrite vers_write. by apply decide_True. Qed.

Lemma at_label_snoc ws m v : at_label l (ws ++ [(m, v)]) = at_label l ws ++ (if decide (m = l) then [(m, v)] else []).
Proof. unfold at_label. rewrite filter_app. by case_decide; [rewrite filter_cons_True|rewrite filter_cons_False]. Qed.

Lemma seen_snoc ws m v : seen l (ws ++ [(m, v)]) = seen l ws ++ (if flowsb m l then [(m, v)] else []).
Proof.
  unfold seen. rewrite filter_app. destruct (flowsb m l) eqn:Hf;
    [by rewrite filter_cons_True|by rewrite filter_cons_False by (simpl; congruence)].
Qed.

(** A new version by this phase *)
Lemma write_own h s x m lx y v hd : in_step h s -> i_vars I !! x = Some (m, lx, y) ->
  x ∉ i_args I -> R x = true \/ m = l ->
  (owned x = true -> hd = HValue (Some v)) ->
  (owned x = false -> exists th b, holders (st_store s) !! x = Some (HType th) /\
    hd = HType (THolder (th_t th ++ [v]) (curr_pos th + 1) b)) ->
  in_step (write x l v h) (with_holder x hd s) /\ loops_kept [] s (with_holder x hd s).
Proof.
  intros Hs Hx Ha Hp Ho Hsh. split; [|apply with_holder_kept; eauto].
  assert (Hl : flowsb l l = true) by by apply flowsb_refl.
  eapply in_step_var; [done..|by apply vers_write_ne|done| |]; rewrite vers_write_eq, at_label_snoc,
    decide_True by done.
  - intros ->%Ho. exists (Some v). split; [done|]. intros w _. rewrite last_snoc. by intros [= <-].
  - intros Hno. destruct (is_shared _ _ Hs x m lx y Hx Ha Hno) as (th & Hth & Ht & Hpos).
    destruct (Hsh Hno) as (th' & b & Hth' & ->). rewrite Hth in Hth'. injection Hth' as <-.
    specialize (Hpos Hp). eexists. split; [done|]. cbn [th_t curr_pos].
    rewrite seen_snoc, Hl, Ht, Hpos, app_assoc, (fmap_app snd _ [_]), length_app. simpl.
    split; [done|lia].
Qed.

(** A [let] of this phase *)
Lemma bind_own h s x lx y v : in_step h s -> extends (write x l v h) fin ->
  i_vars I !! x = Some (l, lx, y) -> x ∉ i_args I ->
  exists s', holder_bind tracked x v s = (inl tt, s') /\ in_step (write x l v h) s' /\
    loops_kept [] s s'.
Proof.
  intros Hs He Hx Ha. destruct (owned x) eqn:Ho.
  - destruct (is_owned _ _ Hs x l lx y Hx Ha Ho) as (o & Ho' & _).
    eexists. split; [by eapply bind_plain|]. eapply write_own; [done..|by right|done|congruence].
  - destruct (is_shared _ _ Hs x l lx y Hx Ha Ho) as (th & Hth & Ht & Hp).
    specialize (Hp (or_intror eq_refl)).
    assert (Hlen : (length (seen l (vers h x)) <= length (th_t th))%nat).
    { rewrite Ht, length_fmap, length_app, (above_at_seen l) by done.
      assert (vers h x `prefix_of` vers fin x) by (eapply extends_trans; [apply extends_write|done]).
      apply Nat.add_le_mono_r. by apply above_prefix. }
    eexists. split; [eapply bind_shared; [done|lia]|].
    eapply write_own; [done..|by right|congruence|eauto].
Qed.

(** An assignment of this phase *)
Lemma push_own h s x m y v : hist_ok I h -> in_step h s -> i_vars I !! x = Some (m, l, y) ->
  x ∉ i_args I -> is_Some (cur h x) -> usable x ->
  exists s', holder_push x v s = (inl tt, s') /\ in_step (write x l v h) s' /\ loops_kept [] s s'.
Proof.
  intros Hh Hs Hx Ha Hc Hu.
  assert (Hpos : R x = true \/ m = l).
  { destruct Hu as [?|Hml]; [by left|right; by eapply Hml]. }
  destruct (owned x) eqn:Ho.
  - destruct (is_owned _ _ Hs x m l y Hx Ha Ho) as (o & Ho' & Hlast).
    destruct Hpos as [Hr| ->]; [destruct (R_spec x m l y Hr Hx Ha); congruence|].
    rewrite (labels_only x l l y) in Hlast by done. unfold cur in Hc.
    destruct (last (vers h x)) as [w|] eqn:Hlw; [|by destruct Hc].
    rewrite (Hlast w) in Ho' by done.
    eexists. split; [by eapply push_value|]. eapply write_own; [done..|by right|done|congruence].
  - destruct (is_shared _ _ Hs x m l y Hx Ha Ho) as (th & Hth & _).
    eexists. split; [by eapply push_shared|]. eapply write_own; [done..|congruence|].
    intros _. exists th. by eexists.
Qed.

(** A write of another phase *)
Lemma skip_write h s x m lx y l2 v : in_step h s -> i_vars I !! x = Some (m, lx, y) ->
  x ∉ i_args I -> l2 <> l -> (m = l -> flowsb l2 l = false) ->
  exists s', run_list (if flowsb l2 l && R x then [PIncrementOccurance x] else []) s = (inl tt, s') /\
    in_step (write x l2 v h) s' /\ loops_kept [] s s'.
Proof.
  intros Hs Hx Ha Hl2 Hm.
  assert (Hw : forall hd, (owned x = true -> holders (st_store s) !! x = Some hd) ->
    (owned x = false -> exists th p, holders (st_store s) !! x = Some (HType th) /\
      hd = HType (THolder (th_t th) (curr_pos th + p) (th_bound th)) /\
      (R x = true \/ m = l -> p = if flowsb l2 l then 1 else 0)) ->
    in_step (write x l2 v h) (with_holder x hd s) /\ loops_kept [] s (with_holder x hd s)).
  { intros hd Ho Hsh. split; [|apply with_holder_kept; eauto].
    eapply in_step_var; [done..|by apply vers_write_ne|done| |]; rewrite vers_write_eq, at_label_snoc,
      decide_False, app_nil_r by done.
    - intros Hown. destruct (is_owned _ _ Hs x m lx y Hx Ha Hown) as (o & Ho' & Hlast).
      rewrite (Ho Hown) in Ho'. injection Ho' as ->. eauto.
    - intros Hno. destruct (is_shared _ _ Hs x m lx y Hx Ha Hno) as (th & Hth & Ht & Hpos).
      destruct (Hsh Hno) as (th' & p & Hth' & -> & Hp). rewrite Hth in Hth'. injection Hth' as <-.
      eexists. split; [done|]. cbn [th_t curr_pos]. split; [done|]. intros Hc.
      rewrite (Hpos Hc), (Hp Hc), seen_snoc, length_app. destruct (flowsb l2 l); simpl; lia. }
  destruct (flowsb l2 l && R x) eqn:Hinc.
  - apply andb_true_iff in Hinc as [Hf Hr]. destruct (R_spec x m lx y Hr Hx Ha) as [Hno _].
    destruct (is_shared _ _ Hs x m lx y Hx Ha Hno) as (th & Hth & _).
    eexists. split; [rewrite run_list_single; by apply increment_shared|].
    apply Hw; [congruence|]. intros _. exists th, 1. by rewrite Hf.
  - exists s. split; [done|].
    assert (Hsame : exists hd, holders (st_store s) !! x = Some hd /\
      (owned x = false -> exists th, hd = HType th)).
    { destruct (owned x) eqn:Ho.
      - destruct (is_owned _ _ Hs x m lx y Hx Ha Ho) as (o & ? & _). by eexists.
      - destruct (is_shared _ _ Hs x m lx y Hx Ha Ho) as (th & ? & _). eexists. eauto. }
    destruct Hsame as (hd & Hhd & Hty).
    specialize (Hw hd). rewrite (with_holder_id x hd s Hhd) in Hw. apply Hw; [done|]. intros [th ->]%Hty. exists th, 0.
    split; [done|]. split; [f_equal; destruct th; cbn; f_equal; lia|]. intros [Hr| ->].
    + rewrite Hr, andb_true_r in Hinc. by rewrite Hinc.
    + by rewrite Hm.
Qed.

(** *** Loops *)

Lemma arg_var x : x ∈ i_args I -> exists y, i_vars I !! x = Some (top, top, y).
Proof.
  intros Hx. apply andb_true_iff in Iok as [[_ Ha]%andb_true_iff _]. rewrite forallb_forall in Ha.
  apply list_elem_of_In, Ha in Hx. unfold is_argument in Hx.
  destruct (i_vars I !! x) as [[[m lx] y]|]; [|done]. apply bool_decide_eq_true in Hx as [-> ->]. eauto.
Qed.

Lemma loop_not_var w m : i_loops I !! w = Some m -> i_vars I !! w = None.
Proof.
  intros Hw. destruct (i_vars I !! w) as [[[m' lx] y]|] eqn:Hx; [|done].
  destruct (var_spec I labels_D Iok w m' lx y Hx) as (_ & _ & _ & Hn & _). congruence.
Qed.

(** Only the counts of the loop [w] changed. *)
Lemma in_step_loop h h' s w o : in_step h s -> i_loops I !! w = Some l ->
  vers h' = vers h -> (forall z, z <> w -> counts h' z = counts h z) ->
  (forall k, w ∈ i_once I -> counts h' w = [k] -> o = Some (VInt (Z.of_nat k))) ->
  in_step h' (with_holder w (HValue o) s).
Proof.
  intros Hs Hw Hv Hc Hk. pose proof (loop_not_var w l Hw) as Hn.
  assert (Hne : forall z m lx y, i_vars I !! z = Some (m, lx, y) -> w <> z) by (intros; congruence).
  split.
  - intros z Hz. destruct (arg_var z Hz) as [y Hy]. destruct (is_arg _ _ Hs z Hz) as (v & Hcv & Hl).
    exists v. rewrite with_holder_ne by eauto. unfold cur. by rewrite Hv.
  - intros z m lx y Hz. rewrite with_holder_ne, Hv by eauto. by eapply is_owned.
  - intros z m lx y Hz. rewrite with_holder_ne, Hv by eauto. by eapply is_shared.
  - intros z m Hz. destruct (decide (z = w)) as [->|].
    + exists o. apply with_holder_lookup.
    + rewrite with_holder_ne by done. by eapply is_counter.
  - intros z m Hz Hf. destruct (decide (z = w)) as [->|].
    + exists o. split; [apply with_holder_lookup|]. rewrite Hw in Hz. injection Hz as <-.
      unfold known_counts. rewrite decide_True by done. auto.
    + rewrite with_holder_ne by done. unfold known_counts. rewrite Hc by done.
      by apply (is_loop _ _ Hs).
Qed.

(** The loop has not been left before. *)
Lemma first_time w k h : extends (finish w k h) fin -> w ∈ i_once I -> counts h w = [].
Proof.
  intros He Hw. destruct He as [_ Hc]. specialize (Hc w). apply prefix_length in Hc.
  rewrite counts_finish, decide_True, length_app in Hc by done.
  pose proof (ho_once _ _ fin_ok w Hw). simpl in Hc. destruct (counts h w); [done|simpl in *; lia].
Qed.

Lemma finish_loop h s w k : in_step h s -> i_loops I !! w = Some l ->
  extends (finish w k h) fin ->
  holders (st_store s) !! w = Some (HValue (Some (VInt (Z.of_nat k)))) -> in_step (finish w k h) s.
Proof.
  intros Hs Hw He Hl. rewrite <- (with_holder_id w _ s Hl). eapply in_step_loop; [done..| |].
  - intros z Hz. rewrite counts_finish. by apply decide_False.
  - intros k' Ho Hk. rewrite counts_finish, decide_True, (first_time w k h) in Hk by done.
    by injection Hk as ->.
Qed.

(** *** What the phase does not see *)

Lemma at_label_seen ws : at_label l (seen l ws) = at_label l ws.
Proof.
  assert (Hl : flowsb l l = true) by by apply flowsb_refl.
  unfold at_label, seen. induction ws as [|w ws IH]; [done|].
  destruct (flowsb w.1 l) eqn:Hf.
  - rewrite (filter_cons_True (fun w => flowsb w.1 l = true)) by done.
    destruct (decide (w.1 = l)); [by rewrite !filter_cons_True, IH|by rewrite !filter_cons_False, IH].
  - rewrite (filter_cons_False (fun w => flowsb w.1 l = true)) by congruence.
    rewrite (filter_cons_False (fun w => w.1 = l)) by congruence. done.
Qed.

Lemma in_step_same h h' s : in_step h s -> same_for I l h h' ->
  (forall x, x ∈ i_args I -> vers h' x = vers h x) -> in_step h' s.
Proof.
  intros Hs [Hv Hc] Ha.
  assert (Hat : forall x, at_label l (vers h' x) = at_label l (vers h x)).
  { intros x. rewrite <- at_label_seen, Hv. apply at_label_seen. }
  split.
  - intros x Hx. unfold cur. rewrite Ha by done. by apply is_arg.
  - intros x m lx y. rewrite Hat. by apply is_owned.
  - intros x m lx y. rewrite Hat, Hv. by apply is_shared.
  - intros w m. by apply (is_counter _ _ Hs).
  - intros w m Hw Hf. unfold known_counts. rewrite (Hc w m Hw Hf). by apply is_loop.
Qed.

Lemma flowsb_bottom a : D a -> D bottom -> flowsb a bottom = true.
Proof.
  intros Ha Hb. rewrite flowsb_true. destruct (flows_total a bottom Ha Hb) as [|Hf]; [done|].
  cbn in Hf. injection Hf as Hf. apply bool_decide_eq_true in Hf as ->. by apply flows_refl.
Qed.

(** *** The simulation *)

Lemma uses_all_single p : uses_all [p] = uses p.
Proof. unfold uses_all. simpl. apply app_nil_r. Qed.

Lemma tail_weaken s : returns_at_tail false s = true -> returns_at_tail true s = true.
Proof.
  induction s as [| | | | | | | | |l2 ss IH] using stmt_ind'; intros Ht; try done; [by apply IHs..|].
  induction IH as [|s1 ss Hs1 _ IH]; [done|]. apply tail_cons in Ht as [Ht1 Ht2].
  rewrite andb_false_r in Ht1. specialize (IH Ht2). simpl in *. destruct ss; [auto|].
  by rewrite Ht1.
Qed.

Lemma run_no_return s h h' r : run N s h h' r -> returns_at_tail false s = true -> r = None.
Proof.
  intros Hr. revert s h h' r Hr.
  apply (run_ind' N (fun s h h' r => returns_at_tail false s = true -> r = None) (fun _ _ _ _ _ => True));
    try done; simpl; intros; auto.
  - match goal with Ht : _ && _ = true |- _ => apply andb_true_iff in Ht as [??] end. destruct b; auto.
  - match goal with Ht : _ = true |- _ => apply (tail_cons false l0) in Ht as [??] end. auto.
  - match goal with Ht : _ = true |- _ => apply (tail_cons false l0) in Ht as [Ht _] end.
    rewrite andb_false_r in *. auto.
Qed.

(** What is known when a statement is about to run *)
Record ready (in_loop : bool) (pc : label) (s : stmt) (h : hist) : Prop := {
  rd_local : is_local s = true;
  rd_labelled : labelled I in_loop pc s = true;
  rd_pc : D pc;
  rd_names : NoDup (decl_names s);
  rd_unused : in_loop = false -> unused (decl_names s) h;
  rd_tail : returns_at_tail true s = true;
  rd_hist : hist_ok I h }.

Lemma own_label_D m : m ∈ i_labels I -> D m.
Proof. intros Hm. apply labels_D. by right. Qed.

Lemma ready_let in_loop pc m b s h v : ready in_loop pc (SLet m b s) h ->
  ready in_loop pc s (write (b_var b) m v h) /\ is_local_expr (b_expr b) = true /\
  reads_ok I m (b_expr b) = true /\ i_vars I !! b_var b = Some (m, b_label b, b_yield b) /\
  b_var b ∉ i_args I.
Proof.
  intros [Hloc Hl Hpc Hn Hu Ht Hh]. cbn [is_local labelled] in *. rewrite decl_names_let in *.
  apply NoDup_cons in Hn as [Hnb Hn]. apply andb_true_iff in Hloc as [Hle Hloc].
  apply andb_true_iff in Hl as [Hl Hbody]. apply andb_true_iff in Hl as [Hl Hc]. bool_inv.
  split; [|done]. split; try done.
  - intros Hil. apply unused_cons_write; [done|]. intros z Hz. apply Hu; [done|by right].
  - eapply let_writes; [done..|]. intros Hil. apply Hu; [done|by left].
Qed.

Lemma ready_if in_loop pc m c t e (b : bool) h : ready in_loop pc (SIf m c t e) h ->
  ready in_loop m (if b then t else e) h /\ is_local_expr c = true /\ reads_ok I m c = true /\
  D m /\ flowsb pc m = true.
Proof.
  intros [Hloc Hl Hpc Hn Hu Ht Hh]. cbn [is_local labelled returns_at_tail] in *.
  rewrite decl_names_if in *. bool_inv. apply NoDup_app in Hn as (Hn1 & _ & Hn2).
  assert (D m) by by apply own_label_D. split; [|done]. split; try done; try (by destruct b).
  - intros Hil. eapply unused_within; [|by apply Hu]. intros z Hz. apply elem_of_app. destruct b; auto.
  - destruct b; by apply tail_weaken.
Qed.

Lemma ready_while in_loop pc m c body w h : ready in_loop pc (SWhile m c body w) h ->
  ready true m body h /\ is_local_expr c = true /\ reads_ok I m c = true /\ D m /\
  i_loops I !! w = Some m /\ (w ∉ decl_names body) /\ returns_at_tail false body = true /\
  (m <> l -> flowsb m l = true -> w ∈ i_once I).
Proof.
  intros [Hloc Hl Hpc Hn Hu Ht Hh]. cbn [is_local labelled returns_at_tail] in *.
  rewrite decl_names_while in *. apply NoDup_cons in Hn as [Hnw Hn].
  apply andb_true_iff in Hl as [Hl Hbody]. apply andb_true_iff in Hl as [Hl Hc].
  apply andb_true_iff in Hl as [Hl Ho]. bool_inv.
  assert (D m) by by apply own_label_D. split_and!; try done.
  - split; try done. by apply tail_weaken.
  - intros Hne Hf. destruct in_loop; [|by apply bool_decide_eq_true in Ho].
    pose proof l_label as Hll. rewrite forallb_forall in Ho.
    apply list_elem_of_In, Ho, orb_true_iff in Hll as [Hll|Hll].
    + apply bool_decide_eq_true in Hll. congruence.
    + rewrite Hf in Hll. done.
Qed.

Lemma ready_cons in_loop pc m s ss h h' r : ready in_loop pc (SSequence m (s :: ss)) h ->
  run N s h h' r ->
  ready in_loop pc s h /\ (r = None -> ready in_loop pc (SSequence m ss) h') /\
  (r <> None -> ss = []).
Proof.
  intros [Hloc Hl Hpc Hn Hu Ht Hh] Hr. cbn [is_local labelled forallb] in Hloc, Hl.
  apply andb_true_iff in Hloc as [Hloc1 Hloc2]. apply andb_true_iff in Hl as [Hl1 Hl2].
  destruct (sequence_unused in_loop m s ss h h' Hn Hu) as (Hu1 & Hu2 & Hn1 & Hn2);
    [by eapply (proj1 (run_untouched N))|].
  apply tail_cons in Ht as [Ht1 Ht2]. split_and!.
  - split; try done. destruct (bool_decide (ss = [])); [done|by apply tail_weaken].
  - intros _. split; try done. by eapply (proj1 (run_hist_ok I N labels_D Iok)).
  - intros Hsome. case_bool_decide; [done|]. destruct Hsome. by eapply run_no_return.
Qed.

(** How the phase ends *)
Definition ending (r : option value) : unit + stop :=
  match r with
  | Some v => if decide (l = bottom) then inr (Returned v) else inl tt
  | None => inl tt
  end.

Definition reaches (m : Run unit) (s : run_state) (e : unit + stop) (h' : hist) (ns : list string)
    : Prop :=
  exists s', m s = (e, s') /\ in_step h' s' /\ loops_kept ns s s'.

Lemma reaches_within m s e h ns ns' : (forall x, x ∈ ns -> x ∈ ns') ->
  reaches m s e h ns -> reaches m s e h ns'.
Proof. intros Hn (s' & ? & ? & ?). exists s'. split_and!; [done..|]. by eapply loops_kept_within. Qed.

Lemma reaches_then (m m' : Run unit) s h1 h2 e ns : reaches m s (inl tt) h1 ns ->
  (forall s1, in_step h1 s1 -> reaches m' s1 e h2 ns) -> reaches (m;; m') s e h2 ns.
Proof.
  intros (s1 & Hm & Hs1 & Hk) Hm'. destruct (Hm' s1 Hs1) as (s2 & Hm2 & Hs2 & Hk2).
  exists s2. rewrite (run_bind _ _ _ _ _ Hm). split_and!; [done..|]. by eapply loops_kept_trans.
Qed.

Lemma reaches_ext (m m' : Run unit) s e h ns : m s = m' s -> reaches m' s e h ns -> reaches m s e h ns.
Proof. unfold reaches. by intros ->. Qed.

(** A whole statement is a list of statements *)
Definition phase_runs (s : stmt) (h h' : hist) (r : option value) : Prop :=
  forall in_loop pc ps st, ready in_loop pc s h -> proj l R s ps ->
    (forall x, x ∈ uses_all ps -> usable x) -> extends h' fin -> in_step h st ->
    reaches (run_list ps) st (ending r) h' (decl_names s).

Lemma reaches_flat p st e h ns : reaches (run_list (flat p)) st e h ns -> reaches (run_stmt p) st e h ns.
Proof. apply reaches_ext. apply run_flat. Qed.

Lemma reaches_single p st e h ns : reaches (run_stmt p) st e h ns -> reaches (run_list [p]) st e h ns.
Proof. apply reaches_ext. apply run_list_single. Qed.

Lemma sim_let m b body h x h' r : eval (cur h) (b_expr b) = inl x ->
  run N body (write (b_var b) m x h) h' r -> phase_runs body (write (b_var b) m x h) h' r ->
  phase_runs (SLet m b body) h h' r.
Proof.
  intros Hx Hrun IH in_loop pc ps st Hrd Hp Hu He Hs. destruct (ready_let _ _ _ _ _ _ x Hrd) as
    (Hrd' & Hloc & Hreads & Hvar & Harg).
  assert (He1 : extends (write (b_var b) m x h) fin)
    by (eapply extends_trans; [by eapply (proj1 (run_extends N))|done]).
  inversion Hp; subst; clear Hp.
  - apply reaches_single. cbn [RunPhase.run_stmt pb_expr pb_var].
    rewrite uses_all_single in Hu.
    assert (Hy : yields (run_expr (translate (b_expr b))) st x).
    { eapply run_translate; [by apply Hrd| |done..| |done].
      - eapply extends_trans; [apply extends_write|done].
      - intros z Hz. apply Hu. cbn. apply elem_of_app. left. by rewrite translate_vars. }
    eapply reaches_ext; [by rewrite (yields_bind _ _ _ _ Hy)|].
    eapply reaches_then.
    + eapply reaches_within; [|by eapply bind_own]. by intros z Hz%elem_of_nil.
    + intros s1 Hs1. apply reaches_flat. eapply reaches_within; [|eapply IH; try done].
      * intros z Hz. rewrite decl_names_let. by right.
      * intros z Hz. apply Hu. cbn. apply elem_of_app. right. by rewrite uses_flat.
  - eapply reaches_ext; [apply run_list_app|].
    rewrite uses_all_app in Hu. eapply reaches_then.
    + eapply reaches_within; [|eapply reaches_ext; [|by eapply (skip_write h st _ m _ _ m x)]].
      * by intros z Hz%elem_of_nil.
      * destruct (R (b_var b)) eqn:Hr; [|by rewrite andb_false_r].
        destruct (R_spec _ _ _ _ Hr Hvar Harg) as [_ ->]. done.
    + intros s1 Hs1. eapply reaches_within; [|eapply IH; try done].
      * intros z Hz. rewrite decl_names_let. by right.
      * intros z Hz. apply Hu, elem_of_app. by right.
Qed.

Lemma reads_weaken e m : reads_ok I m e = true -> D m -> flowsb m l = true -> reads_ok I l e = true.
Proof.
  intros Hr Hm Hf. induction e as [lv y x| | | | | | |] using expr_ind'; cbn [reads_ok] in *; auto.
  - destruct (is_builtin x); [done|]. cbn [orb] in *.
    destruct (i_vars I !! x) as [[[mx lx] t]|] eqn:Hx; [|done].
    apply andb_true_iff in Hr as [-> Hr]. cbn [andb].
    destruct (var_spec I labels_D Iok x mx lx t Hx) as (_ & ? & _).
    by apply (flowsb_trans lx m l).
  - apply andb_true_iff in Hr as [??]. apply andb_true_iff. auto.
Qed.

(** What is known about an assignment *)
Lemma ready_assignment in_loop pc m var e h : ready in_loop pc (SAssignment m var e) h ->
  is_local_target var = true /\ is_local_expr e = true /\ reads_ok I m e = true /\
  reads_ok I m var = true /\ (target_name var ∉ i_args I) /\
  exists ml y, i_vars I !! target_name var = Some (ml, m, y).
Proof.
  intros [Hloc Hl _ _ _ _ _]. cbn [is_local labelled] in *. bool_inv. subst. split_and!; try done.
  eauto.
Qed.

Lemma run_target h s var x v y m : hist_ok I h -> extends h fin -> in_step h s ->
  is_local_target var = true -> reads_ok I m var = true -> m = l ->
  usable (target_name var) -> assigned_value (cur h) var x = inl (v, y) ->
  forall e, yields (run_expr e) s x ->
  run_stmt (PAssignment (translate var) e) s = holder_push v y s.
Proof.
  intros Hh He Hs Ht Hr -> Hu Ha e Hy. destruct var as [lv yv z|l1 y1 [lv yv z| | | | | | |] f| | | | | |]; try done;
    cbn [is_local_target target_name assigned_value translate] in Ht, Hu, Ha |- *; try done.
  - destruct (cur h z); [|done]. injection Ha as <- <-. cbn [RunPhase.run_stmt]. by yield_steps.
  - destruct (cur h z) as [v0|] eqn:Hc; [|done]. res_inv. cbn [RunPhase.run_stmt].
    assert (Hz : yields (run_expr (translate (EVar lv yv v))) s v0).
    { apply (run_translate h); [done..| |exact Hr| |].
      - cbn. by rewrite Ht, orb_true_r.
      - intros z' Hz'. cbn in Hz'. apply negb_true_iff in Ht. rewrite Ht in Hz'.
        by apply list_elem_of_singleton in Hz' as ->.
      - cbn [eval]. apply negb_true_iff in Ht. unfold is_builtin in Ht. apply bool_decide_eq_false in Ht.
        rewrite !decide_False, Hc; [done|..]; intros ->; apply Ht; set_solver. }
    cbn [translate RunPhase.run_expr] in Hz. by yield_steps.
Qed.

Lemma sim_assignment m var e h x v y : eval (cur h) e = inl x ->
  assigned_value (cur h) var x = inl (v, y) ->
  phase_runs (SAssignment m var e) h (write v m y h) None.
Proof.
  intros Hx Hv in_loop pc ps st Hrd Hp Hu He Hs.
  destruct (ready_assignment _ _ _ _ _ _ Hrd) as (Hlt & Hle & Hre & Hrv & Harg & ml & yl & Hvar).
  destruct (assigned_value_bound _ _ _ _ Hv) as [Hn Hb]. cbn [fst] in Hn, Hb.
  assert (He1 : extends h fin) by (eapply extends_trans; [apply extends_write|done]).
  inversion Hp; subst; clear Hp.
  - apply reaches_single. rewrite uses_all_single in Hu. cbn [uses] in Hu.
    assert (Hus : usable (target_name var)).
    { apply Hu, elem_of_app. left. rewrite translate_vars.
      destruct var as [? ? z|? ? [? ? z| | | | | | |] ?| | | | | |]; try done; cbn in Hlt |- *;
        apply negb_true_iff in Hlt; rewrite Hlt; by left. }
    eapply reaches_ext.
    + apply (run_target h st var x (target_name var) y l); try done; [by apply Hrd|].
      apply (run_translate h); [by apply Hrd|done..| |done].
      intros z Hz. apply Hu, elem_of_app. right. by rewrite translate_vars.
    + eapply reaches_within; [|eapply push_own; [by apply Hrd|done..]]. by intros z Hz%elem_of_nil.
  - eapply reaches_within; [|eapply skip_write; [done|exact Hvar|done|congruence|]].
    + by intros z Hz%elem_of_nil.
    + intros ->. destruct (flowsb m l) eqn:Hf; [|done].
      destruct (var_spec I labels_D Iok _ _ _ _ Hvar) as (_ & HDm & Hlm & _).
      assert (m = l) by by apply flowsb_antisym. congruence.
Qed.

Lemma sim_return m e h x : eval (cur h) e = inl x -> phase_runs (SReturn m e) h h (Some x).
Proof.
  intros Hx in_loop pc ps st Hrd Hp Hu He Hs. destruct Hrd as [Hloc Hl _ _ _ _ Hh].
  cbn [is_local labelled] in *. bool_inv. subst m. unfold ending.
  inversion Hp; subst; clear Hp.
  - assert (reads_ok I l e = true) by congruence.
    rewrite decide_True by done. apply reaches_single. rewrite uses_all_single in Hu.
    assert (Hy : yields (run_expr (translate e)) st x).
    { apply (run_translate h); try done. intros z Hz. apply Hu. cbn. by rewrite translate_vars. }
    exists st. split_and!; [|done..]. cbn [RunPhase.run_stmt]. by yield_steps.
  - rewrite decide_False by congruence. by exists st.
Qed.

(** A conditional or a loop the phase skips altogether *)
Lemma skip_ending in_loop pc s h h' r : ready in_loop pc s h -> run N s h h' r ->
  forall m, D m -> flowsb m l = false -> ending r = inl tt.
Proof.
  intros Hrd Hr m Hm Hf. destruct r as [v|]; [|done]. unfold ending.
  rewrite decide_False; [done|]. intros Hl.
  rewrite Hl, flowsb_bottom in Hf; [done|done|]. by rewrite <- Hl.
Qed.

Lemma sim_skip in_loop m s h h' r st : ready in_loop m s h -> run N s h h' r ->
  D m -> flowsb m l = false -> in_step h st ->
  reaches (run_list []) st (ending r) h' (decl_names s).
Proof.
  intros Hrd Hr Hm Hf Hs. exists st. erewrite skip_ending by done. split_and!; [done| |done].
  eapply in_step_same; [done|eapply (proj1 (run_same_for I N labels_D l l_D)); try done; by apply Hrd|].
  intros x Hx. eapply (proj1 (run_arguments I N)); try done. by apply Hrd.
Qed.

Lemma sim_if m c t e h x (b : bool) h' r : eval (cur h) c = inl x -> truth x = inl b ->
  run N (if b then t else e) h h' r -> phase_runs (if b then t else e) h h' r ->
  phase_runs (SIf m c t e) h h' r.
Proof.
  intros Hx Hb Hrun IH in_loop pc ps st Hrd Hp Hu He Hs.
  destruct (ready_if _ _ _ _ _ _ b _ Hrd) as (Hrd' & Hloc & Hreads & Hm & _).
  assert (He1 : extends h fin)
    by (eapply extends_trans; [by eapply (proj1 (run_extends N))|done]).
  eapply (reaches_within _ _ _ _ (decl_names (if b then t else e))).
  { intros z Hz. rewrite decl_names_if. apply elem_of_app. destruct b; auto. }
  inversion Hp; subst; clear Hp.
  - apply reaches_single. rewrite uses_all_single in Hu. cbn [uses] in Hu.
    assert (Hy : yields (run_expr (translate c)) st x).
    { apply (run_translate h); [by apply Hrd|done..| | |done].
      - by eapply reads_weaken.
      - intros z Hz. apply Hu, elem_of_app. left. by rewrite translate_vars. }
    eapply reaches_ext.
    { cbn [RunPhase.run_stmt]. yield_steps. reflexivity. }
    assert (Hbr : proj l R (if b then t else e) (flat (if b then pt else pe))) by by destruct b.
    eapply (reaches_ext _ (run_stmt (if b then pt else pe))); [by destruct b|].
    apply reaches_flat. eapply IH; try done.
    intros z Hz. apply Hu. rewrite !elem_of_app, !uses_flat. destruct b; auto.
  - eapply IH; [done| |done..]. by destruct b.
  - by eapply sim_skip.
Qed.

Lemma sim_cons m s ss h h1 h' r : run N s h h1 None -> phase_runs s h h1 None ->
  run N (SSequence m ss) h1 h' r -> phase_runs (SSequence m ss) h1 h' r ->
  phase_runs (SSequence m (s :: ss)) h h' r.
Proof.
  intros Hr1 IH1 Hr2 IH2 in_loop pc ps st Hrd Hp Hu He Hs.
  destruct (ready_cons _ _ _ _ _ _ _ _ Hrd Hr1) as (Hrd1 & Hrd2 & _).
  assert (He1 : extends h1 fin)
    by (eapply extends_trans; [by eapply (proj1 (run_extends N))|done]).
  inversion Hp; subst; clear Hp. rewrite uses_all_app in Hu.
  eapply reaches_ext; [apply run_list_app|]. rewrite decl_names_sequence. eapply reaches_then.
  - eapply reaches_within; [|eapply IH1; try done]; intros z Hz; [|apply Hu]; apply elem_of_app; auto.
  - intros s1 Hs1.
    eapply reaches_within; [|eapply IH2; [by apply Hrd2|done| |done..]]; intros z Hz; [|apply Hu];
      apply elem_of_app; auto.
Qed.

Lemma sim_cons_return m s ss h h' v : run N s h h' (Some v) -> phase_runs s h h' (Some v) ->
  phase_runs (SSequence m (s :: ss)) h h' (Some v).
Proof.
  intros Hr1 IH1 in_loop pc ps st Hrd Hp Hu He Hs.
  destruct (ready_cons _ _ _ _ _ _ _ _ Hrd Hr1) as (Hrd1 & _ & Hss). rewrite Hss in * by done.
  inversion Hp as [| | | | | | | | | | | | |? ? ? ps1 pss Hp1 Hp2]; subst; clear Hp.
  inversion Hp2; subst; clear Hp2. rewrite app_nil_r in *.
  eapply reaches_within; [|by eapply IH1]. intros z Hz. rewrite decl_names_sequence.
  apply elem_of_app. by left.
Qed.

(** *** Loops of this phase and of earlier ones *)

(** One iteration of the body *)
Definition loop_runs (c : expr) (body : stmt) (h h' : hist) (k : nat) : Prop :=
  forall m p st, ready true m body h -> returns_at_tail false body = true ->
    proj l R body (flat p) -> (forall x, x ∈ uses p -> usable x) ->
    extends h' fin -> in_step h st ->
    reaches (repeat_run k (run_stmt p)) st (inl tt) h' (decl_names body) /\
    forall w i n, i_loops I !! w = Some l -> w ∉ decl_names body ->
      is_local_expr c = true -> reads_ok I l c = true -> (forall x, x ∈ expr_vars c -> usable x) ->
      (w ∈ i_once I -> counts h' w = []) ->
      0 <= i -> i + Z.of_nat k <= int_max -> (k <= n)%nat ->
      holders (st_store st) !! w = Some (HValue (Some (VInt i))) ->
      exists st', while_loop n (x ← run_expr (translate c); lift (truth x)) (run_stmt p) w i st
          = (inl tt, st') /\ in_step h' st' /\ loops_kept (w :: decl_names body) st st' /\
        holders (st_store st') !! w = Some (HValue (Some (VInt (i + Z.of_nat k)))).

Lemma condition_yields h s c x b : hist_ok I h -> extends h fin -> in_step h s ->
  is_local_expr c = true -> reads_ok I l c = true -> (forall y, y ∈ expr_vars c -> usable y) ->
  eval (cur h) c = inl x -> truth x = inl b ->
  yields (x ← run_expr (translate c); lift (truth x)) s b.
Proof.
  intros Hh He Hs Hc Hr Hu Hx Hb.
  assert (Hy : yields (run_expr (translate c)) s x) by by apply (run_translate h).
  unfold yields. yield_steps. by apply lift_inl.
Qed.

Lemma sim_loop_end c body h x : eval (cur h) c = inl x -> truth x = inl false ->
  loop_runs c body h h 0.
Proof.
  intros Hx Hb m p st Hrd Ht Hp Hu He Hs. split; [by exists st|].
  intros w i n Hw Hwn Hc Hr Huc Hcnt Hi Hk Hn Hl. exists st. rewrite Z.add_0_r.
  assert (Hy : yields (x ← run_expr (translate c); lift (truth x)) st false).
  { apply (condition_yields h _ _ x); try done. by apply Hrd. }
  split_and!; try done. destruct n; cbn [while_loop]; by yield_steps.
Qed.

Lemma sim_loop_step c body h x h1 h' k : eval (cur h) c = inl x -> truth x = inl true ->
  run N body h h1 None -> phase_runs body h h1 None -> loop N c body h1 h' k ->
  loop_runs c body h1 h' k -> loop_runs c body h h' (S k).
Proof.
  intros Hx Hb Hr1 IH1 Hr2 IH2 m p st Hrd Ht Hp Hu He Hs.
  assert (He1 : extends h1 fin)
    by (eapply extends_trans; [by eapply (proj2 (run_extends N))|done]).
  assert (He0 : extends h fin)
    by (eapply extends_trans; [by eapply (proj1 (run_extends N))|done]).
  assert (Hrd1 : ready true m body h1).
  { destruct Hrd as [? ? ? ? ? ? ?]. split; try done.
    by eapply (proj1 (run_hist_ok I N labels_D Iok)). }
  assert (Hbody : forall s, in_step h s -> reaches (run_stmt p) s (inl tt) h1 (decl_names body)).
  { intros s Hs'. apply reaches_flat. eapply (IH1 true m); try done. by rewrite <- uses_flat. }
  split.
  { cbn [repeat_run]. eapply reaches_then; [by apply Hbody|]. intros s1 Hs1. by eapply IH2. }
  intros w i n Hw Hwn Hc Hr Huc Hcnt Hi Hk Hn Hl. destruct n as [|n]; [lia|].
  cbn [while_loop].
  assert (Hy : yields (x ← run_expr (translate c); lift (truth x)) st true).
  { apply (condition_yields h _ _ x); try done. by apply Hrd. }
  yield_steps. replace (in_int (i + 1)) with true by (symmetry; unfold in_int, int_min; lia).
  rewrite (run_bind _ _ _ _ _ (push_value w (VInt i) (VInt (i + 1)) st Hl)).
  destruct (Hbody (with_holder w (HValue (Some (VInt (i + 1)))) st)) as (s1 & Hm1 & Hs1 & Hk1).
  { eapply in_step_loop; [done..|]. intros k' Ho Hk'.
    assert (Hnil : counts h w `prefix_of` counts h' w).
    { assert (extends h h') as [_ Hc'].
      { eapply extends_trans; [by eapply (proj1 (run_extends N))|by eapply (proj2 (run_extends N))]. }
      apply Hc'. }
    rewrite (Hcnt Ho), Hk' in Hnil. by apply prefix_nil_inv in Hnil. }
  rewrite (run_bind _ _ _ _ _ Hm1).
  destruct (IH2 m p s1 Hrd1 Ht Hp Hu He Hs1) as [_ Hloop].
  destruct (Hloop w (i + 1) n Hw Hwn Hc Hr Huc Hcnt) as (st' & Hm & Hs' & Hk' & Hl');
    [lia|lia|lia| |].
  { rewrite Hk1 by (done || by eapply loop_not_var). apply with_holder_lookup. }
  exists st'. split_and!; [done|done| |by rewrite Hl'; do 4 f_equal; lia].
  eapply loops_kept_trans; [|exact Hk'].
  eapply loops_kept_trans; [apply with_holder_kept; right; by left|].
  eapply loops_kept_within; [|exact Hk1]. by right.
Qed.

Lemma finish_other h s w k m : in_step h s -> i_loops I !! w = Some m -> m <> l ->
  in_step (finish w k h) s.
Proof.
  intros Hs Hw Hm. split; try apply Hs. intros z mz Hz Hf. unfold known_counts.
  rewrite counts_finish. destruct (decide (mz = l)) as [Hl|Hl].
  - rewrite decide_False by (intros ->; congruence).
    destruct (is_loop _ _ Hs z mz Hz Hf) as (o & Ho & Hk). exists o. split; [done|].
    unfold known_counts in Hk. by rewrite decide_True in Hk.
  - destruct (is_loop _ _ Hs z mz Hz Hf) as (o & Ho & Hk). exists o. split; [done|].
    unfold known_counts in Hk. by rewrite decide_False in Hk.
Qed.

Lemma final_count w k h : extends (finish w k h) fin -> w ∈ i_once I -> counts fin w = [k].
Proof.
  intros He Hw. pose proof (first_time w k h He Hw) as Hn. destruct He as [_ Hc].
  specialize (Hc w). rewrite counts_finish, decide_True, Hn in Hc by done.
  destruct Hc as [ks Hks]. pose proof (ho_once _ _ fin_ok w Hw) as Hlen.
  rewrite Hks in *. destruct ks; [done|simpl in Hlen; lia].
Qed.

Lemma loops_kept_while w ns s1 s2 x : loops_kept (w :: ns) (with_holder w x s1) s2 ->
  loops_kept (w :: ns) s1 s2.
Proof. intros Hk. eapply loops_kept_trans; [apply with_holder_kept; right; by left|done]. Qed.

Lemma sim_while_own c body w h h' k st p in_loop pc : loop N c body h h' k -> (k <= N)%nat ->
  loop_runs c body h h' k -> ready in_loop pc (SWhile l c body w) h ->
  proj l R body (flat p) ->
  (forall x, x ∈ pexpr_vars (translate c) ++ uses p -> usable x) ->
  extends (finish w k h') fin -> in_step h st ->
  reaches (run_stmt (PWhile (translate c) p w)) st (inl tt) (finish w k h') (w :: decl_names body).
Proof.
  intros Hr Hk IH Hrd Hp Hu He Hs.
  destruct (ready_while _ _ _ _ _ _ _ Hrd) as (Hrd' & Hloc & Hreads & _ & Hw & Hwn & Ht & _).
  assert (He1 : extends h' fin) by (eapply extends_trans; [apply extends_finish|done]).
  assert (Hl : flowsb l l = true) by by apply flowsb_refl.
  assert (Hcnt : w ∈ i_once I -> counts h' w = []) by by apply (first_time w k).
  assert (Hcnt0 : w ∈ i_once I -> counts h w = []).
  { intros Ho. specialize (Hcnt Ho). destruct (proj2 (run_extends N) _ _ _ _ _ Hr) as [_ Hc].
    specialize (Hc w). rewrite Hcnt in Hc. by apply prefix_nil_inv in Hc. }
  destruct (is_loop _ _ Hs w l Hw Hl) as (o & Ho & _).
  cbn [RunPhase.run_stmt]. unfold reaches. rewrite (run_bind _ _ _ _ _ (bind_plain _ w o (VInt 0) st Ho)).
  assert (Hs0 : in_step h (with_holder w (HValue (Some (VInt 0))) st)).
  { eapply in_step_loop; [done..|]. intros k' Hon Hk'. by rewrite (Hcnt0 Hon) in Hk'. }
  destruct (IH l p _ Hrd' Ht Hp ltac:(intros; apply Hu, elem_of_app; auto) He1 Hs0) as [_ Hloop].
  destruct (Hloop w 0 fuel Hw Hwn Hloc Hreads) as (st' & Hm & Hs' & Hkept & Hlast);
    [|done|done|lia|lia|apply with_holder_lookup|].
  { intros x Hx. apply Hu, elem_of_app. left. by rewrite translate_vars. }
  exists st'. split_and!; [done|by apply finish_loop|by eapply loops_kept_while].
Qed.

Lemma sim_while m c body w h h' k : loop N c body h h' k -> (k <= N)%nat ->
  loop_runs c body h h' k -> phase_runs (SWhile m c body w) h (finish w k h') None.
Proof.
  intros Hr Hk IH in_loop pc ps st Hrd Hp Hu He Hs. rewrite decl_names_while.
  assert (He1 : extends h' fin) by (eapply extends_trans; [apply extends_finish|done]).
  inversion Hp; subst; clear Hp; [apply reaches_single; rewrite uses_all_single in Hu; by eapply sim_while_own| |];
    destruct (ready_while _ _ _ _ _ _ _ Hrd) as (Hrd' & Hloc & Hreads & Hm & Hw & Hwn & Ht & Honce).
  - apply reaches_single. rewrite uses_all_single in Hu. cbn [RunPhase.run_stmt].
    destruct (is_loop _ _ Hs w m Hw ltac:(done)) as (o & Ho & Hknown).
    unfold known_counts in Hknown. rewrite decide_False in Hknown by congruence.
    rewrite (Hknown k) in Ho; [|by apply Honce|apply (final_count w k h'); [done|by apply Honce]].
    eapply reaches_ext; [by rewrite (yields_bind _ _ _ _ (get_plain w _ st Ho)), Nat2Z.id|].
    destruct (IH m p st Hrd' Ht ltac:(done) Hu He1 Hs) as [(st' & Hm' & Hs' & Hkept) _].
    exists st'. split_and!; [done|by eapply finish_other|].
    eapply loops_kept_within; [|done]. by right.
  - exists st. split_and!; [done| |done]. eapply finish_other; [|done|done].
    eapply in_step_same; [done|eapply (proj2 (run_same_for I N labels_D l l_D)); try done; by apply Hrd'|].
    intros x Hx. eapply (proj2 (run_arguments I N)); try done. by apply Hrd'.
Qed.

Theorem phase_simulates s h h' r : run N s h h' r -> phase_runs s h h' r.
Proof.
  apply (run_ind' N phase_runs loop_runs); intros.
  - by eapply sim_let.
  - by eapply sim_assignment.
  - by eapply sim_return.
  - by eapply sim_if.
  - by eapply sim_while.
  - intros in_loop pc ps st _ Hp _ _ Hs. inversion Hp; subst. by exists st.
  - by eapply sim_cons.
  - by eapply sim_cons_return.
  - by eapply sim_loop_end.
  - by eapply sim_loop_step.
Qed.

End sim.
