(* ===== verification/SplitPhases.v ===== *)
(** * The phases of a transaction

    What [_split_computation] makes of a local transaction: which phase every
    variable belongs to, which earlier phase a required variable comes from, what
    the phases return, and the holders of the store the phases share. *)
From S2P Require Import Prelude TypeLists Labels TypedAst LabelCollect SplitAst PhaseApi.
From S2P Require Import Split Runtime Holders RunPhase SplitSpec SplitProj SplitHist.

(** ** One phase per label *)

Section phases.
Context `{UserLabels} `{TypeListLaws}.

Inductive phases_of (a : stmt) : list var_binding -> list label -> list prephase -> Prop :=
| phases_nil inherits : phases_of a inherits [] []
| phases_cons inherits l ls r p ps :
    phase_of l inherits a r p -> phases_of a (inherits ++ provides (ex_api r)) ls ps ->
    phases_of a inherits (l :: ls) (p :: ps).

Lemma split_computation_phases a inherits ls ps : is_local a = true ->
  _split_computation a inherits ls = Ok ps -> phases_of a inherits ls ps.
Proof.
  intros Hloc. revert inherits ps. induction ls as [|l ls IH]; intros inherits ps Hs;
    cbn [_split_computation] in Hs; outcome_inv; [constructor|].
  match goal with Hp : split_phase _ _ _ = Ok ?q |- _ => destruct q as [p next];
    destruct (split_phase_spec l inherits a p next Hloc Hp) as (r & Hr & ->) end.
  econstructor; [done|]. by apply IH.
Qed.

Lemma split_computation_descending a inherits ls ps : _split_computation a inherits ls = Ok ps ->
  labels_in_descending_order ls = Ok true.
Proof.
  destruct ls as [|l ls]; [done|]. cbn [_split_computation]. intros Hs. outcome_inv.
  match goal with Hd : labels_in_descending_order _ = Ok ?b |- _ => by destruct b; outcome_inv end.
Qed.

Lemma phases_labels a inherits ls ps : phases_of a inherits ls ps -> pp_level <$> ps = ls.
Proof.
  induction 1 as [|inherits l ls r p ps Hp _ IH]; [done|].
  rewrite fmap_cons, IH. by rewrite (po_level _ _ _ _ _ Hp).
Qed.

(** Where the bindings a phase inherits come from: [base], or a statement of an
    earlier label *)
Definition inherited (a : stmt) (base : list var_binding) (earlier : list label)
    (bs : list var_binding) : Prop :=
  forall b, b ∈ bs -> b ∈ base \/ exists m, m ∈ earlier /\ (m, b) ∈ decls a.

Lemma inherited_base a base : inherited a base [] base.
Proof. by left. Qed.

Lemma inherited_next a base earlier bs l r p : inherited a base earlier bs ->
  phase_of l bs a r p -> inherited a base (earlier ++ [l]) (bs ++ provides (ex_api r)).
Proof.
  intros Hi Hp b [Hb|Hb]%elem_of_app.
  - destruct (Hi b Hb) as [|(m & Hm & Hd)]; [by left|right]. exists m. rewrite elem_of_app. auto.
  - right. exists l. split; [apply elem_of_app; right; by left|]. by eapply po_decls.
Qed.

(** Every holder a phase requires is one of [base] or of an earlier phase. *)
Lemma required_from a base earlier bs l r p h : inherited a base earlier bs ->
  phase_of l bs a r p -> h ∈ pp_requirements p ->
  exists b, h = binding_to_holder b /\
    (b ∈ base \/ exists m, m ∈ earlier /\ (m, b) ∈ decls a).
Proof.
  intros Hi Hp Hh. destruct (po_requires _ _ _ _ _ _ Hp Hh) as (b & Hb & ->). exists b. auto.
Qed.

(** Any one of the phases *)
Lemma phase_at a base earlier bs ls ps q : phases_of a bs ls ps -> inherited a base earlier bs ->
  q ∈ ps -> exists l bs' r earlier', inherited a base earlier' bs' /\ phase_of l bs' a r q.
Proof.
  intros Hps. revert earlier. induction Hps as [|bs l ls r p ps Hp _ IH]; intros earlier Hi Hq;
    [by apply elem_of_nil in Hq|].
  apply elem_of_cons in Hq as [->|Hq]; [by exists l, bs, r, earlier|].
  by eapply IH; [eapply inherited_next|].
Qed.

(** ** What the phases return *)

Lemma join_returns_Ok t1 t2 t : join_returns t1 t2 = Ok t -> t = if decide (t1 = TVoid) then t2 else t1.
Proof. unfold join_returns. intros Hj. by outcome_inv. Qed.

Lemma return_from_void ts t : return_from ts = Ok t -> Forall (fun t => t = TVoid) ts -> t = TVoid.
Proof.
  revert t. induction ts as [|t1 ts IH]; intros t Hr Hall; cbn [return_from] in Hr; outcome_inv; [done|].
  apply Forall_cons in Hall as [-> Hall].
  match goal with Hj : join_returns _ _ = Ok _ |- _ => apply join_returns_Ok in Hj end.
  rewrite decide_True in * by done. subst. by apply IH.
Qed.

Lemma return_from_some ts t t0 : return_from ts = Ok t -> t0 ∈ ts -> t0 <> TVoid -> t <> TVoid.
Proof.
  revert t. induction ts as [|t1 ts IH]; intros t Hr Hin Hne; [by apply elem_of_nil in Hin|].
  cbn [return_from] in Hr. outcome_inv.
  match goal with Hj : join_returns _ _ = Ok _ |- _ => apply join_returns_Ok in Hj end.
  case_decide; subst; [|done]. apply elem_of_cons in Hin as [->|Hin]; [done|by eapply IH].
Qed.

Lemma collect_sequence l inherits provided l2 s ss r :
  collect_phase l inherits provided (SSequence l2 (s :: ss)) = Ok r ->
  exists r1 rs, collect_phase l inherits provided s = Ok r1 /\
    collect_phase l inherits provided (SSequence l2 ss) = Ok rs /\
    join_returns (ex_returns r1) (ex_returns rs) = Ok (ex_returns r).
Proof.
  cbn [collect_phase traverse]. unfold build_seq1. intros Hr. outcome_inv.
  match goal with Hf : return_from _ = Ok _ |- _ =>
    rewrite fmap_cons in Hf; cbn [return_from] in Hf end. outcome_inv.
  match goal with Ht : traverse _ _ = Ok _, Hf : return_from _ = Ok _ |- _ =>
    eexists _, _; split; [done|]; rewrite Ht; cbn [mbind outcome_bind]; rewrite Hf end. done.
Qed.

Variable I : info.

(** Only the phase of [bottom] returns. *)
Lemma collect_returns_void l inherits provided s r (in_loop : bool) pc : l <> bottom ->
  labelled I in_loop pc s = true -> collect_phase l inherits provided s = Ok r ->
  ex_returns r = TVoid.
Proof.
  intros Hlb. revert in_loop pc provided r.
  induction s as [l2 b s IH| |l2 n hd args|l2 v e|l2 e|l2 e|l2 e|l2 c t e IHt IHe|l2 c s w IH|l2 ss IH]
    using stmt_ind'; intros il pc provided r Hl Hr; cbn [labelled] in Hl; try done;
    cbn [collect_phase] in Hr; unfold collect_unary in Hr;
    try (apply on_label_Ok in Hr as [[<- Hr]|[Hne Hr]]; outcome_inv); cbn [ex_returns]; try done.
  - apply andb_true_iff in Hl as [_ Hl]. by eapply IH.
  - apply andb_true_iff in Hl as [_ Hl]. by eapply IH.
  - bool_inv. congruence.
  - bool_inv. outcome_inv. destruct x; outcome_inv; [|done]. cbn [ex_returns].
    match goal with Hj : join_returns _ _ = Ok _ |- _ => apply join_returns_Ok in Hj; rewrite Hj end.
    rewrite decide_True by by eapply IHt. by eapply IHe.
  - apply andb_true_iff in Hl as [_ Hl]. by eapply IH.
  - apply andb_true_iff in Hl as [_ Hl]. destruct x; outcome_inv; [|done]. cbn [ex_returns]. by eapply IH.
  - outcome_inv. unfold build_seq1 in Hr. outcome_inv. cbn [ex_returns].
    eapply return_from_void; [done|].
    match goal with Ht : traverse _ _ = Ok _ |- _ => apply traverse_Ok in Ht; rename Ht into Htr end.
    apply Forall_fmap. clear -IH Htr Hl Hlb.
    induction Htr as [|s r ss rs Hs _ IHs]; [constructor|]. cbn [forallb] in Hl. bool_inv.
    apply Forall_cons in IH as [IHs1 IH]. constructor; [by eapply IHs1|by apply IHs].
Qed.
End phases.

Section returned.
Context `{UserLabels} `{TypeListLaws} `{Handles} `{!Remote}.
Variables (I : info) (N : nat).
Hypothesis bottom_low : forall m, m ∈ i_labels I -> flowsb m bottom = true.

(** The phase of [bottom] has a result type when the transaction returns. *)
Lemma run_returns s h h' r : run N s h h' r -> forall (in_loop : bool) pc inherits provided rr,
  r <> None -> labelled I in_loop pc s = true ->
  collect_phase bottom inherits provided s = Ok rr -> ex_returns rr <> TVoid.
Proof.
  intros Hr. revert s h h' r Hr.
  apply (run_ind' N (fun s h h' r => forall (in_loop : bool) pc inherits provided rr,
    r <> None -> labelled I in_loop pc s = true ->
    collect_phase bottom inherits provided s = Ok rr -> ex_returns rr <> TVoid)
    (fun _ _ _ _ _ => True)); try done.
  - intros l b body h x h' r _ _ IH il pc inh prov rr Hne Hl Hr. cbn [labelled] in Hl.
    apply andb_true_iff in Hl as [_ Hl]. cbn [collect_phase] in Hr.
    apply on_label_Ok in Hr as [[<- Hr]|[_ Hr]]; outcome_inv; cbn [ex_returns]; by eapply IH.
  - intros l e h x _ il pc inh prov rr _ Hl Hr. cbn [labelled] in Hl. bool_inv. subst l.
    cbn [collect_phase] in Hr. unfold collect_unary in Hr.
    apply on_label_Ok in Hr as [[_ Hr]|[? _]]; [|done]. by outcome_inv.
  - intros l c t e h x b h' r _ _ _ IH il pc inh prov rr Hne Hl Hr. cbn [labelled] in Hl. bool_inv.
    cbn [collect_phase] in Hr. outcome_inv.
    match goal with Hf : flows_to _ _ = Ok ?f |- _ => apply flowsb_Ok in Hf;
      rewrite bottom_low in Hf by done; subst f end. outcome_inv. cbn [ex_returns].
    match goal with Hj : join_returns _ _ = Ok _ |- _ => apply join_returns_Ok in Hj; rewrite Hj end.
    destruct b; case_decide; try done; [exfalso|]; by eapply IH.
  - intros l s ss h h1 h' r _ _ _ IH il pc inh prov rr Hne Hl Hr. cbn [labelled forallb] in Hl.
    apply andb_true_iff in Hl as [_ Hl].
    destruct (collect_sequence _ _ _ _ _ _ _ Hr) as (r1 & rs & _ & Hs & Hj).
    apply join_returns_Ok in Hj. rewrite Hj. case_decide; [|done]. by eapply IH.
  - intros l s ss h h' v _ IH il pc inh prov rr Hne Hl Hr. cbn [labelled forallb] in Hl.
    apply andb_true_iff in Hl as [Hl _].
    destruct (collect_sequence _ _ _ _ _ _ _ Hr) as (r1 & rs & H1' & _ & Hj).
    apply join_returns_Ok in Hj. rewrite Hj. rewrite decide_False; by eapply IH.
Qed.

Lemma run_some_bottom s h h' r : run N s h h' r -> forall (in_loop : bool) pc,
  r <> None -> labelled I in_loop pc s = true -> bottom ∈ i_labels I.
Proof.
  intros Hr. revert s h h' r Hr.
  apply (run_ind' N (fun s h h' r => forall (in_loop : bool) pc,
    r <> None -> labelled I in_loop pc s = true -> bottom ∈ i_labels I) (fun _ _ _ _ _ => True)); try done.
  - intros l b body h x h' r _ _ IH il pc Hne Hl. cbn [labelled] in Hl.
    apply andb_true_iff in Hl as [_ Hl]. by eapply IH.
  - intros l e h x _ il pc _ Hl. cbn [labelled] in Hl. bool_inv. by subst.
  - intros l c t e h x b h' r _ _ _ IH il pc Hne Hl. cbn [labelled] in Hl. bool_inv.
    destruct b; by eapply IH.
  - intros l s ss h h1 h' r _ _ _ IH il pc Hne Hl. cbn [labelled forallb] in Hl. bool_inv.
    by eapply (IH il pc).
  - intros l s ss h h' v _ IH il pc Hne Hl. cbn [labelled forallb] in Hl. bool_inv.
    by eapply (IH il pc).
Qed.
End returned.

(** ** Transactions that split *)

(** The condition of [SplitHist], computed from a transaction and its arguments,
    and the names of the transaction: every declared name belongs to one phase,
    which provides it. *)

(** ** The information about a transaction *)

Section program.
Context `{UserLabels} `{Handles}.

(** What [transaction.hpp] passes to [split_computation] *)
Definition builtin_bindings : list var_binding :=
  [type_binding "true" TBool top local; type_binding "false" TBool top local;
   type_binding list_stub_name TListStub bottom local].
Definition arg_binding (a : argument) : var_binding :=
  type_binding (arg_name a) (arg_type a) top local.
Definition initial_bindings (args : list argument) : list var_binding :=
  builtin_bindings ++ (arg_binding <$> args).

Definition var_decl (d : label * var_binding) : option (string * (label * label * ty)) :=
  match d with
  | (l, type_binding n t lx _) => Some (n, (l, lx, t))
  | (_, while_binding _) => None
  end.
Definition loop_decl (d : label * var_binding) : option (string * label) :=
  match d with (l, while_binding w) => Some (w, l) | _ => None end.
Definition arg_info (a : argument) : string * (label * label * ty) :=
  (arg_name a, (top, top, arg_type a)).

Definition info_of (args : list argument) (labels : list label) (a : stmt) : info := {|
  i_vars := list_to_map ((arg_info <$> args) ++ omap var_decl (decls a));
  i_assigned := assigned a;
  i_loops := list_to_map (omap loop_decl (decls a));
  i_once := outer_loops a;
  i_args := arg_name <$> args;
  i_labels := labels |}.

Definition all_names (args : list argument) (a : stmt) : list string :=
  (binding_name <$> initial_bindings args) ++ decl_names a.

(** The transactions phase splitting is right about *)
Definition splittable (args : list argument) (labels : list label) (a : stmt) : bool :=
  let I := info_of args labels a in
  is_local a && labelled I false top a && info_ok I &&
  bool_decide (NoDup (all_names args a)) && returns_at_tail true a.
End program.

(** ** Names *)

Section names.
Context `{UserLabels} `{Handles}.
Variables (args : list argument) (labels : list label) (a : stmt).
#[local] Abbreviation I := (info_of args labels a).
Hypothesis local_a : is_local a = true.
Hypothesis names : NoDup (all_names args a).

Lemma decl_names_NoDup : NoDup (decl_names a).
Proof. by apply NoDup_app in names as (_ & _ & ?). Qed.

Lemma base_names_NoDup : NoDup (binding_name <$> initial_bindings args).
Proof. by apply NoDup_app in names as (? & _ & _). Qed.

Lemma arg_names_base x : x ∈ (arg_name <$> args) -> x ∈ binding_name <$> initial_bindings args.
Proof.
  intros Hx. unfold initial_bindings. rewrite fmap_app, elem_of_app. right.
  by rewrite <- list_fmap_compose.
Qed.

Lemma arg_names_NoDup : NoDup (arg_name <$> args).
Proof.
  pose proof base_names_NoDup as Hn. unfold initial_bindings in Hn.
  rewrite fmap_app, <- list_fmap_compose in Hn. by apply NoDup_app in Hn as (_ & _ & ?).
Qed.

Lemma decl_not_base x : x ∈ decl_names a -> x ∉ binding_name <$> initial_bindings args.
Proof. apply NoDup_app in names as (_ & Hd & _). intros Hx Hb. by apply (Hd x). Qed.

Lemma decl_not_arg x : x ∈ decl_names a -> x ∉ i_args I.
Proof. intros Hx Ha. by apply (decl_not_base x), arg_names_base. Qed.

(** A declared name has one declaration. *)
Lemma decl_unique m b m' b' : (m, b) ∈ decls a -> (m', b') ∈ decls a ->
  binding_name b = binding_name b' -> m = m' /\ b = b'.
Proof.
  intros Hb Hb' Hn.
  assert ((m, b) = (m', b')) as [= -> ->]; [|done].
  by apply (NoDup_fmap_elem decl_name (decls a)); [apply decl_names_NoDup|..].
Qed.

Lemma decl_name_in m b : (m, b) ∈ decls a -> binding_name b ∈ decl_names a.
Proof. intros Hb. by apply (list_elem_of_fmap_2 decl_name (decls a) (m, b)). Qed.

Lemma var_decl_name d x v : var_decl d = Some (x, v) -> decl_name d = x.
Proof. destruct d as [l [n t lx loc|w]]; simpl; [by intros [= <- <-]|done]. Qed.

Lemma loop_decl_name d w m : loop_decl d = Some (w, m) -> d = (m, while_binding w).
Proof. destruct d as [l [n t lx loc|w']]; simpl; [done|by intros [= <- <-]]. Qed.

(** The names of some of the declarations are distinct. *)
Lemma omap_names {A} (f : label * var_binding -> option (string * A)) (ds : list (label * var_binding)) :
  (forall d x v, f d = Some (x, v) -> decl_name d = x) ->
  NoDup (decl_name <$> ds) -> NoDup (fst <$> omap f ds) /\
  (forall x, x ∈ (fst <$> omap f ds) -> x ∈ (decl_name <$> ds)).
Proof.
  intros Hf. induction ds as [|d ds IH]; intros Hn; [split; [constructor|done]|].
  rewrite fmap_cons in Hn. apply NoDup_cons in Hn as [Hd Hn]. destruct (IH Hn) as [IH1 IH2].
  rewrite fmap_cons. simpl. destruct (f d) as [[x v]|] eqn:Hfd.
  - rewrite fmap_cons. simpl. split.
    + constructor; [|done]. intros Hx. apply Hd. rewrite (Hf _ _ _ Hfd). by apply IH2.
    + intros y [->|Hy]%elem_of_cons; [rewrite (Hf _ _ _ Hfd); by left|right; by apply IH2].
  - split; [done|]. intros y Hy. right. by apply IH2.
Qed.

Lemma info_vars_names : NoDup (fst <$> (arg_info <$> args) ++ omap var_decl (decls a)).
Proof.
  destruct (omap_names var_decl (decls a) var_decl_name decl_names_NoDup) as [Hn Hin].
  rewrite fmap_app, <- list_fmap_compose. apply NoDup_app. split_and!; [apply arg_names_NoDup| |done].
  intros x Hx Hd. by apply (decl_not_arg x); [apply Hin|].
Qed.

Lemma arg_lookup b : b ∈ args -> i_vars I !! arg_name b = Some (top, top, arg_type b).
Proof.
  intros Hb. apply elem_of_list_to_map_1; [apply info_vars_names|].
  apply elem_of_app. left. by apply (list_elem_of_fmap_2 arg_info).
Qed.

Lemma decl_lookup m x t lx loc : (m, type_binding x t lx loc) ∈ decls a ->
  i_vars I !! x = Some (m, lx, t).
Proof.
  intros Hd. apply elem_of_list_to_map_1; [apply info_vars_names|].
  apply elem_of_app. right. apply list_elem_of_omap. by exists (m, type_binding x t lx loc).
Qed.

Lemma loop_lookup m w : (m, while_binding w) ∈ decls a -> i_loops I !! w = Some m.
Proof.
  intros Hd. apply elem_of_list_to_map_1.
  - apply (omap_names loop_decl (decls a)); [|apply decl_names_NoDup].
    by intros d x v ->%loop_decl_name.
  - apply list_elem_of_omap. by exists (m, while_binding w).
Qed.

(** [let]s of local transactions bind local variables. *)
Lemma decls_local s m b : is_local s = true -> (m, b) ∈ decls s ->
  match b with type_binding _ _ _ loc => loc = local | while_binding _ => True end.
Proof.
  intros Hs Hb. induction s as [| | | | | | | | |l2 ss IH] using stmt_ind'; cbn [is_local] in Hs; try done;
    cbn [decls] in Hb; rewrite ?andb_true_iff in Hs.
  - apply elem_of_cons in Hb as [[= -> ->]|Hb]; [done|apply IHs; tauto].
  - by apply elem_of_nil in Hb.
  - by apply elem_of_nil in Hb.
  - apply elem_of_app in Hb as [Hb|Hb]; [apply IHs1; tauto|apply IHs2; tauto].
  - apply elem_of_cons in Hb as [[= -> ->]|Hb]; [done|apply IHs; tauto].
  - apply elem_of_concat_fmap_inv in Hb as (s & Hin & Hb). rewrite forallb_forall in Hs.
    rewrite Forall_forall in IH. apply (IH s); [done|by apply Hs, list_elem_of_In|done].
Qed.

Lemma lookup_decl x m lx t : i_vars I !! x = Some (m, lx, t) -> x ∉ i_args I ->
  (m, type_binding x t lx local) ∈ decls a.
Proof.
  intros Hx Ha. apply elem_of_list_to_map_2, elem_of_app in Hx as [Hx|Hx].
  - apply list_elem_of_fmap in Hx as (b & [= -> _ _ _] & Hb). destruct Ha. by apply list_elem_of_fmap_2.
  - apply list_elem_of_omap in Hx as (d & Hd & Hv). destruct d as [l' [n t' l'' loc|w]]; [|done].
    injection Hv as -> -> -> ->. by pose proof (decls_local a m _ local_a Hd) as ->.
Qed.

Lemma lookup_loop w m : i_loops I !! w = Some m -> (m, while_binding w) ∈ decls a.
Proof.
  intros Hw. apply elem_of_list_to_map_2, list_elem_of_omap in Hw as (d & Hd & ->%loop_decl_name).
  done.
Qed.
End names.
