(* ===== verification/SplitStore.v ===== *)
(** * The store of a split transaction

    Every declared variable is provided by the phase of its statement.  It is owned
    by that phase (and its holder is a plain value) exactly when no phase requires
    it; [all_store] has one holder for every name. *)
From S2P Require Import Prelude TypeLists Labels TypedAst LabelCollect SplitAst PhaseApi.
From S2P Require Import Split Runtime Holders RunPhase SplitSpec SplitProj SplitHist SplitPhases.
From S2P Require Import SplitPhases.

(** ** A phase provides the declarations of its label *)

Section provides.
Context `{LabelOrder D} `{TypeListLaws}.
Variable I : info.
Hypothesis labels_D : forall l, l ∈ top :: i_labels I -> D l.

Lemma decls_above s (il : bool) pc m b : labelled I il pc s = true -> D pc -> (m, b) ∈ decls s ->
  flowsb pc m = true /\ m ∈ i_labels I.
Proof.
  assert (HD : forall m, m ∈ i_labels I -> D m) by (intros; apply labels_D; by right).
  revert il pc. induction s as [l2 b2 s IH| | | | | | |l2 c t e IHt IHe|l2 c s w IH|l2 ss IH] using stmt_ind';
    intros il pc Hl Hpc Hb; cbn [labelled] in Hl; try done; cbn [decls] in Hb;
    try by apply elem_of_nil in Hb.
  - apply andb_true_iff in Hl as [Hl Hbody]. apply elem_of_cons in Hb as [[= -> ->]|Hb]; [|by eapply IH].
    by bool_inv.
  - apply andb_true_iff in Hl as [Hl He]. apply andb_true_iff in Hl as [Hl Ht]. bool_inv.
    assert (flowsb l2 m = true /\ m ∈ i_labels I) as [Hf Hm]
      by (apply elem_of_app in Hb as [Hb|Hb]; [eapply IHt|eapply IHe]; eauto).
    split; [apply (flowsb_trans pc l2 m); auto|done].
  - apply andb_true_iff in Hl as [Hl Hbody]. bool_inv.
    apply elem_of_cons in Hb as [[= -> ->]|Hb]; [done|].
    destruct (IH true l2) as [Hf Hm]; auto. split; [apply (flowsb_trans pc l2 m); auto|done].
  - apply elem_of_concat_fmap_inv in Hb as (s & Hin & Hb). rewrite forallb_forall in Hl.
    rewrite Forall_forall in IH. apply (IH s Hin il); [by apply Hl, list_elem_of_In|done..].
Qed.

Lemma collect_provides l inherits provided s (il : bool) pc r b : D l ->
  is_local s = true -> labelled I il pc s = true -> D pc ->
  collect_phase l inherits provided s = Ok r -> (l, b) ∈ decls s -> b ∈ provides (ex_api r).
Proof.
  assert (HD : forall m, m ∈ i_labels I -> D m) by (intros; apply labels_D; by right).
  intros Hld. revert il pc provided r.
  induction s as [l2 b2 s IH| |l2 n hd args|l2 v e|l2 e|l2 e|l2 e|l2 c t e IHt IHe|l2 c s w IH|l2 ss IH]
    using stmt_ind'; intros il pc provided r Hloc Hl Hpc Hr Hb; cbn [is_local] in Hloc; try done;
    cbn [labelled] in Hl; cbn [decls] in Hb; try (by apply elem_of_nil in Hb);
    cbn [collect_phase] in Hr; rewrite ?andb_true_iff in Hloc;
    try (apply on_label_Ok in Hr as [[<- Hr]|[Hne Hr]]; outcome_inv); cbn [ex_api].
  - apply andb_true_iff in Hl as [Hl Hbody]. unfold let_binding in *. outcome_inv. cbn [fst snd] in *.
    cbn [combined_api add_provides provides]. rewrite !elem_of_app.
    apply elem_of_cons in Hb as [[= ->]|Hb]; [left; right; by left|right]. by eapply IH; [apply Hloc|..].
  - apply andb_true_iff in Hl as [Hl Hbody]. apply elem_of_cons in Hb as [[= ? ?]|Hb]; [congruence|].
    by eapply IH; [apply Hloc|..].
  - apply andb_true_iff in Hl as [Hl He]. apply andb_true_iff in Hl as [Hl Ht]. bool_inv. outcome_inv.
    match goal with Hf : flows_to _ _ = Ok ?f |- _ => apply flowsb_Ok in Hf;
      destruct f; outcome_inv end.
    + cbn [ex_api combined_api provides]. rewrite !elem_of_app.
      apply elem_of_app in Hb as [Hb|Hb]; [left; right; eapply IHt|right; eapply IHe]; try done; auto; tauto.
    + exfalso. assert (flowsb l2 l = true); [|congruence].
      apply elem_of_app in Hb as [Hb|Hb]; [by eapply (decls_above t); auto|by eapply (decls_above e); auto].
  - apply andb_true_iff in Hl as [Hl Hbody]. bool_inv. cbn [add_provides combined_api provides].
    rewrite !elem_of_app. apply elem_of_cons in Hb as [[= ->]|Hb]; [right; by left|left; right].
    eapply IH; try done; auto; tauto.
  - apply andb_true_iff in Hl as [Hl Hbody]. bool_inv.
    apply elem_of_cons in Hb as [[= ? ?]|Hb]; [congruence|].
    match goal with Hf : flows_to _ _ = Ok ?f |- _ => apply flowsb_Ok in Hf;
      destruct f; outcome_inv end; [cbn [ex_api add_requires provides]; eapply IH; try done; auto; tauto|].
    exfalso. assert (flowsb l2 l = true); [|congruence]. by eapply (decls_above s); auto.
  - outcome_inv. unfold build_seq1 in Hr. outcome_inv. cbn [ex_api].
    match goal with Ht : traverse _ _ = Ok _ |- _ => apply traverse_Ok in Ht; rename Ht into Htr end.
    clear -IH Htr Hloc Hl Hb Hpc. induction Htr as [|s r ss rs Hs _ IHs]; [by apply elem_of_nil in Hb|].
    cbn [forallb] in Hloc, Hl. apply andb_true_iff in Hloc as [Hloc1 Hloc].
    apply andb_true_iff in Hl as [Hl1 Hl]. apply Forall_cons in IH as [IHs1 IH].
    rewrite fmap_cons in Hb. cbn [concat] in Hb. rewrite fmap_cons.
    change (b ∈ provides (ex_api r) ++ provides (build_seq2 (ex_api <$> rs))).
    apply elem_of_app. apply elem_of_app in Hb as [Hb|Hb]; [left; by eapply IHs1|right; by apply IHs].
Qed.
End provides.

(** ** Replacing holders *)

Section replace.
Context `{TypeListLaws} `{Handles}.

Lemma remove_name_elem n hs : NoDup (holder_name <$> hs) ->
  NoDup (holder_name <$> remove_name n hs) /\
  forall h, h ∈ remove_name n hs <-> h ∈ hs /\ holder_name h <> n.
Proof.
  induction hs as [|h0 hs IH]; intros Hn; simpl.
  { split; [done|]. intros h. rewrite elem_of_nil. tauto. }
  rewrite fmap_cons in Hn. apply NoDup_cons in Hn as [Hh0 Hn]. destruct (IH Hn) as [IHn IHe].
  case_decide as Hname.
  - split; [done|]. intros h. rewrite elem_of_cons. split.
    + intros Hh. split; [by right|]. intros Heq. apply Hh0. rewrite Hname, <- Heq.
      by apply list_elem_of_fmap_2.
    + by intros [[->|] ?].
  - split.
    + rewrite fmap_cons. constructor; [|done]. intros (h & Heq & [Hh _]%IHe)%list_elem_of_fmap.
      apply Hh0. rewrite Heq. by apply list_elem_of_fmap_2.
    + intros h. rewrite !elem_of_cons, IHe. naive_solver.
Qed.

Lemma replace_elem hs envs : NoDup (holder_name <$> hs) -> NoDup (holder_name <$> envs) ->
  NoDup (holder_name <$> replace hs envs) /\
  forall h, h ∈ replace hs envs <-> h ∈ envs \/ (h ∈ hs /\ holder_name h ∉ holder_name <$> envs).
Proof.
  revert hs. induction envs as [|e envs IH]; intros hs Hn He.
  { split; [done|]. intros h. cbn. rewrite !elem_of_nil. tauto. }
  rewrite fmap_cons in He. apply NoDup_cons in He as [Hne He].
  destruct (remove_name_elem (holder_name e) hs Hn) as [Hr Hre].
  set (hs' := if decide (holder_name e ∈ holder_name <$> hs) then remove_name (holder_name e) hs else hs).
  assert (Hhs' : NoDup (holder_name <$> hs') /\ forall h, h ∈ hs' <-> h ∈ hs /\ holder_name h <> holder_name e).
  { unfold hs'. case_decide as Hin; [done|]. split; [done|]. intros h. split; [|tauto].
    intros Hh. split; [done|]. intros Heq. apply Hin. rewrite <- Heq. by apply list_elem_of_fmap_2. }
  destruct Hhs' as [Hn' He'].
  assert (Hn'' : NoDup (holder_name <$> hs' ++ [e])).
  { rewrite fmap_app. apply NoDup_app. split_and!; [done| |apply NoDup_singleton].
    intros x (h & -> & [_ Hh]%He')%list_elem_of_fmap Hx%list_elem_of_singleton. done. }
  destruct (IH _ Hn'' He) as [IHn IHe]. split; [done|]. intros h. cbn [replace foldl].
  change (foldl _ _ envs) with (replace (hs' ++ [e]) envs).
  rewrite IHe, elem_of_app, list_elem_of_singleton, He', elem_of_cons, fmap_cons, not_elem_of_cons.
  split; [|naive_solver]. intros [?|[[?| ->] Hh]]; naive_solver.
Qed.

Lemma lookup_empty_store hs h : NoDup (holder_name <$> hs) -> h ∈ hs ->
  holders (empty_store hs) !! holder_name h = Some (default_holder h).
Proof.
  intros Hn Hh. apply elem_of_list_to_map_1.
  - by rewrite <- list_fmap_compose.
  - by apply (list_elem_of_fmap_2 (fun h => (holder_name h, default_holder h))).
Qed.

Lemma bind_arguments_supers bs s : supers (bind_arguments bs s) = supers s.
Proof. by induction bs. Qed.

Lemma bind_arguments_other args s x : x ∉ arg_name <$> args ->
  holders (bind_arguments args s) !! x = holders s !! x.
Proof.
  induction args as [|b args IH]; intros Hx; [done|]. rewrite fmap_cons in Hx.
  apply not_elem_of_cons in Hx as [Hb Hx]. cbn [bind_arguments foldr].
  rewrite lookup_set_holder_ne by done. by apply IH.
Qed.

Lemma bind_arguments_arg args s b : NoDup (arg_name <$> args) -> b ∈ args ->
  holders (bind_arguments args s) !! arg_name b = Some (HValue (Some (arg_value b))).
Proof.
  induction args as [|b0 args IH]; intros Hn Hb; [by apply elem_of_nil in Hb|].
  rewrite fmap_cons in Hn. apply NoDup_cons in Hn as [Hb0 Hn]. cbn [bind_arguments foldr].
  apply elem_of_cons in Hb as [->|Hb]; [apply lookup_set_holder|].
  rewrite lookup_set_holder_ne; [by apply IH|]. intros Heq. apply Hb0. rewrite Heq.
  by apply list_elem_of_fmap_2.
Qed.
End replace.

(** ** Owned and shared names *)

Section owned.
Context `{LabelOrder D} `{TypeListLaws} `{Handles}.
Variables (args : list argument) (labels : list label) (a : stmt).
#[local] Abbreviation I := (info_of args labels a).
Hypothesis labels_D : forall l, l ∈ top :: labels -> D l.
Hypothesis local_a : is_local a = true.
Hypothesis names : NoDup (all_names args a).
Hypothesis labelled_a : labelled I false top a = true.

(** No phase requires the name. *)
Definition is_owned_by (ps : list prephase) (x : string) : bool :=
  negb (existsb (fun p => requires_name p x) ps).

(** The holder of a declared name in the store *)
Definition decl_holder (ps : list prephase) (b : var_binding) : holder_type :=
  if is_owned_by ps (binding_name b) then holder_to_value (binding_to_holder b)
  else binding_to_holder b.

(** What a phase requires of a declared name is that declaration, by an
    earlier phase. *)
Lemma required_declared earlier bs l r p m b : inherited a (initial_bindings args) earlier bs ->
  phase_of l bs a r p -> (m, b) ∈ decls a -> requires_name p (binding_name b) = true ->
  m ∈ earlier /\ binding_to_holder b ∈ pp_requirements p.
Proof.
  intros Hi Hp Hb Hr. apply bool_decide_eq_true, list_elem_of_fmap in Hr as (h & Hn & Hh).
  destruct (required_from _ _ _ _ _ _ _ _ Hi Hp Hh) as (b' & -> & [Hb'|(m' & Hm' & Hb')]).
  - exfalso. rewrite binding_holder_name in Hn. apply (decl_not_base args a names (binding_name b)).
    + by eapply decl_name_in.
    + rewrite Hn. by apply list_elem_of_fmap_2.
  - rewrite binding_holder_name in Hn.
    destruct (decl_unique args a names m b m' b') as [-> ->]; done.
Qed.

Lemma processed_cons p ps : exists nr,
  (forall h, h ∈ nr <-> exists q, q ∈ p :: ps /\ h ∈ pp_requirements q) /\
  processed (p :: ps) = Phase (pp_level p) (pp_returns p) (pp_ast p)
    (typeset_subtract (pp_requirements p) (pp_provides p))
    (typeset_intersect (pp_provides p) nr) (typeset_subtract (pp_provides p) nr)
    (typeset_intersect (pp_inherits p) nr) :: processed ps.
Proof.
  eexists. split; [|done]. intros h. rewrite elem_of_typeset_combine_all.
  setoid_rewrite list_elem_of_fmap. setoid_rewrite elem_of_cons. naive_solver.
Qed.

(** Provided and owned holders are those of declarations. *)
Lemma phase_holders bs ls ps earlier : phases_of a bs ls ps ->
  inherited a (initial_bindings args) earlier bs -> NoDup (earlier ++ ls) ->
  forall ph h, ph ∈ processed ps ->
    (h ∈ ph_provides ph -> exists m b, (m, b) ∈ decls a /\ h = binding_to_holder b /\
       is_owned_by ps (binding_name b) = false) /\
    (h ∈ ph_owned ph -> exists m b, m ∈ ls /\ (m, b) ∈ decls a /\ h = binding_to_holder b /\
       is_owned_by ps (binding_name b) = true).
Proof.
  intros Hp. revert earlier. induction Hp as [|bs l ls r p ps Hp Hps IH]; intros earlier Hi Hn ph h Hph;
    [by apply elem_of_nil in Hph|].
  destruct (processed_cons p ps) as (nr & Hnr & Heq). rewrite Heq in Hph. clear Heq.
  assert (Hdecl : forall h, h ∈ pp_provides p -> exists b, (l, b) ∈ decls a /\ h = binding_to_holder b).
  { intros h' Hh. rewrite (po_provides _ _ _ _ _ Hp) in Hh.
    apply list_elem_of_fmap in Hh as (b & -> & Hb). exists b. split; [|done].
    by apply elem_of_typeset_of, (po_decls _ _ _ _ _ Hp) in Hb. }
  assert (Hi' := inherited_next _ _ _ _ _ _ _ Hi Hp).
  assert (Hn' : NoDup ((earlier ++ [l]) ++ ls)) by by rewrite <- app_assoc.
  apply elem_of_cons in Hph as [->|Hph].
  - cbn [ph_provides ph_owned]. split; intros Hh.
    + apply elem_of_typeset_intersect in Hh as [Hh Hreq]. destruct (Hdecl h Hh) as (b & Hb & ->).
      exists l, b. split_and!; [done..|]. apply Hnr in Hreq as (q & Hq & Hreq).
      apply negb_false_iff, existsb_elem. exists q. split; [done|].
      apply bool_decide_eq_true, list_elem_of_fmap. exists (binding_to_holder b).
      by rewrite binding_holder_name.
    + apply elem_of_typeset_subtract in Hh as [Hh Hreq]. destruct (Hdecl h Hh) as (b & Hb & ->).
      exists l, b. split_and!; [by left|done..|]. apply negb_true_iff, not_true_iff_false.
      intros (q & Hq & Hr)%existsb_elem. apply Hreq, Hnr. exists q. split; [done|].
      assert (Hphases : phases_of a bs (l :: ls) (p :: ps)) by (econstructor; done).
      destruct (phase_at _ _ _ _ _ _ _ Hphases Hi Hq) as (m' & bs' & r' & earlier' & Hi'' & Hp').
      by destruct (required_declared _ _ _ _ _ _ _ Hi'' Hp' Hb Hr).
  - destruct (IH _ Hi' Hn' ph h Hph) as [IHp IHo]. split; intros Hh.
    + destruct (IHp Hh) as (m & b & Hb & -> & Ho). exists m, b. split_and!; [done..|].
      apply negb_false_iff. cbn [existsb]. apply orb_true_iff. right. by apply negb_false_iff in Ho.
    + destruct (IHo Hh) as (m & b & Hm & Hb & -> & Ho). exists m, b. split_and!; [by right|done..|].
      apply negb_true_iff. cbn [existsb]. apply orb_false_iff. split; [|by apply negb_true_iff in Ho].
      apply not_true_iff_false. intros Hr. destruct (required_declared _ _ _ _ _ _ _ Hi Hp Hb Hr) as [Hm' _].
      apply NoDup_app in Hn as (_ & Hd & _). apply (Hd m Hm'). by right.
Qed.

Lemma declared_in_phase bs ls ps m b : phases_of a bs ls ps -> m ∈ ls -> D m -> (m, b) ∈ decls a ->
  exists ph, ph ∈ processed ps /\
    (binding_to_holder b ∈ ph_provides ph \/ binding_to_holder b ∈ ph_owned ph).
Proof.
  intros Hp Hm HD Hb. induction Hp as [|bs l ls r p ps Hp Hps IH]; [by apply elem_of_nil in Hm|].
  destruct (processed_cons p ps) as (nr & _ & ->).
  apply elem_of_cons in Hm as [->|Hm].
  - eexists. split; [by left|]. cbn [ph_provides ph_owned].
    assert (Hh : binding_to_holder b ∈ pp_provides p).
    { rewrite (po_provides _ _ _ _ _ Hp). apply list_elem_of_fmap_2, elem_of_typeset_of.
      eapply (collect_provides I labels_D); [exact HD|exact local_a|exact labelled_a| | |exact Hb].
      - apply labels_D. by left.
      - by eapply po_collect. }
    rewrite elem_of_typeset_intersect, elem_of_typeset_subtract.
    destruct (decide (binding_to_holder b ∈ nr)); auto.
  - destruct (IH Hm) as (ph & Hph & Hin). exists ph. split; [by right|done].
Qed.

(** ** The holders all phases share *)

Variable ps : list prephase.
Hypothesis ps_phases : phases_of a (initial_bindings args) labels ps.
Hypothesis labels_NoDup : NoDup labels.
Hypothesis some_phase : ps <> [].

(** [all_store] before the arguments *)
Definition phases_store (phases : list phase) : list holder_type :=
  match phases with
  | [] => []
  | p1 :: phases' =>
      typeset_combine
        (typeset_combine
          (typeset_combine_all (ph_provides p1) (ph_provides <$> phases'))
          (foldl typeset_intersect (ph_requirements p1) (ph_requirements <$> phases')))
        (holder_to_value <$> typeset_combine_all (ph_owned p1) (ph_owned <$> phases'))
  end.

Lemma all_store_phases env : all_store (processed ps) env = replace (phases_store (processed ps)) env.
Proof. destruct ps as [|p ps']; [done|]. by destruct (processed_cons p ps') as (nr & _ & ->). Qed.

Lemma owned_holder b : is_owned_by ps (binding_name b) = true ->
  decl_holder ps b = holder_to_value (binding_to_holder b).
Proof. unfold decl_holder. by intros ->. Qed.

Lemma shared_holder b : is_owned_by ps (binding_name b) = false ->
  decl_holder ps b = binding_to_holder b.
Proof. unfold decl_holder. by intros ->. Qed.

Lemma foldl_intersect_sub {A} `{EqDecision A} (s : list A) ts x : x ∈ foldl typeset_intersect s ts -> x ∈ s.
Proof.
  revert s. induction ts as [|t ts IH]; intros s Hx; [done|].
  apply IH in Hx. by apply elem_of_typeset_intersect in Hx as [? _].
Qed.

Lemma foldl_intersect_NoDup {A} `{EqDecision A} (s : list A) ts : NoDup s -> NoDup (foldl typeset_intersect s ts).
Proof.
  revert s. induction ts as [|t ts IH]; intros s Hs; [done|]. by apply IH, NoDup_typeset_intersect.
Qed.

Lemma elem_of_all {A} `{EqDecision A} (f : phase -> list A) p phases x :
  x ∈ typeset_combine_all (f p) (f <$> phases) <-> exists q, q ∈ p :: phases /\ x ∈ f q.
Proof.
  rewrite elem_of_typeset_combine_all. setoid_rewrite list_elem_of_fmap.
  setoid_rewrite elem_of_cons. naive_solver.
Qed.

(** The first phase can only require what the transaction starts with. *)
Lemma first_phase : exists p1 phases, processed ps = p1 :: phases /\
  forall h, h ∈ ph_requirements p1 -> exists b, b ∈ initial_bindings args /\ h = binding_to_holder b.
Proof.
  destruct ps_phases as [bs|bs l ls r p ps' Hp Hps]; [done|].
  destruct (processed_cons p ps') as (nr & _ & ->). eexists _, _. split; [done|].
  intros h [Hin _]%elem_of_typeset_subtract.
  destruct (required_from _ _ _ _ _ _ _ _ (inherited_base a _) Hp Hin) as (b & -> & [?|(m & Hm & _)]);
    [by exists b|by apply elem_of_nil in Hm].
Qed.

(** Every holder belongs to an initial binding or to a declaration. *)
Lemma phases_store_holders h : h ∈ phases_store (processed ps) ->
  (exists b, b ∈ initial_bindings args /\ h = binding_to_holder b) \/
  (exists m b, (m, b) ∈ decls a /\ h = decl_holder ps b).
Proof.
  pose proof (phase_holders _ _ _ [] ps_phases (inherited_base a _) labels_NoDup) as Hh.
  destruct first_phase as (p1 & phases & Heq & Hfirst). rewrite Heq in Hh |- *. cbn [phases_store].
  rewrite !elem_of_typeset_combine, elem_of_all. intros [[(q & Hq & Hin)|Hin]|Hin].
  - right. destruct (proj1 (Hh q h Hq) Hin) as (m & b & Hb & -> & Ho). exists m, b.
    split; [done|]. by rewrite shared_holder.
  - left. by apply Hfirst, (foldl_intersect_sub _ (ph_requirements <$> phases)).
  - right. apply list_elem_of_fmap in Hin as (h0 & -> & Hin). apply elem_of_all in Hin as (q & Hq & Hin).
    destruct (proj2 (Hh q h0 Hq) Hin) as (m & b & _ & Hb & -> & Ho). exists m, b.
    split; [done|]. by rewrite owned_holder.
Qed.

Lemma holder_to_value_name h : holder_name (holder_to_value h) = holder_name h.
Proof. by destruct h. Qed.

Lemma decl_holder_name b : holder_name (decl_holder ps b) = binding_name b.
Proof.
  unfold decl_holder. case_match; rewrite ?holder_to_value_name; apply binding_holder_name.
Qed.

(** *** One holder for every name *)

Lemma NoDup_holders bs : (forall b b', b ∈ bs -> b' ∈ bs -> binding_name b = binding_name b' -> b = b') ->
  NoDup (holders_of bs).
Proof.
  intros Hbs. apply NoDup_fmap_on; [apply NoDup_typeset_of|]. intros b b'.
  rewrite !elem_of_typeset_of. intros Hb Hb' Heq. apply Hbs; [done..|].
  by rewrite <- !binding_holder_name, Heq.
Qed.

Lemma initial_unique b b' : b ∈ initial_bindings args -> b' ∈ initial_bindings args ->
  binding_name b = binding_name b' -> b = b'.
Proof. apply NoDup_fmap_elem. by eapply base_names_NoDup. Qed.

Lemma phases_NoDup bs ls qs : phases_of a bs ls qs -> forall ph, ph ∈ processed qs ->
  NoDup (ph_provides ph) /\ NoDup (ph_owned ph).
Proof.
  induction 1 as [|bs l ls r p qs Hp Hps IH]; intros ph Hph; [by apply elem_of_nil in Hph|].
  destruct (processed_cons p qs) as (nr & _ & Heq). rewrite Heq in Hph.
  apply elem_of_cons in Hph as [->|Hph]; [|by apply IH]. cbn [ph_provides ph_owned].
  assert (Hn : NoDup (pp_provides p)).
  { rewrite (po_provides _ _ _ _ _ Hp). apply NoDup_holders.
    intros b b' Hb%(po_decls _ _ _ _ _ Hp) Hb'%(po_decls _ _ _ _ _ Hp) Hname.
    by destruct (decl_unique args a names _ _ _ _ Hb Hb' Hname). }
  split; [by apply NoDup_typeset_intersect|by apply NoDup_typeset_subtract].
Qed.

Lemma first_phase_NoDup : exists p1 phases, processed ps = p1 :: phases /\ NoDup (ph_requirements p1).
Proof.
  inversion ps_phases as [|bs l ls r p ps' Hp Hps]; subst; [done|].
  destruct (processed_cons p ps') as (nr & _ & ->). eexists _, _. split; [done|].
  apply NoDup_typeset_subtract. destruct (po_required _ _ _ _ _ Hp) as (rs & -> & Hrs).
  apply NoDup_holders. intros b b' Hb%Hrs Hb'%Hrs. by apply initial_unique.
Qed.

Lemma phases_store_NoDup : NoDup (phases_store (processed ps)).
Proof.
  pose proof (phases_NoDup _ _ _ ps_phases) as Hn.
  pose proof (phase_holders _ _ _ [] ps_phases (inherited_base a _) labels_NoDup) as Hh.
  destruct first_phase_NoDup as (p1 & phases & Heq & Hreq). rewrite Heq in Hn, Hh |- *.
  assert (Hall : forall f : phase -> list holder_type, (forall ph, ph ∈ p1 :: phases -> NoDup (f ph)) ->
    NoDup (typeset_combine_all (f p1) (f <$> phases))).
  { intros f Hf. apply NoDup_typeset_combine_all; [apply Hf; by left|].
    apply Forall_forall. intros l (ph & -> & Hph)%list_elem_of_fmap. apply Hf. by right. }
  cbn [phases_store]. repeat apply NoDup_typeset_combine.
  - apply Hall. intros ph Hph. by apply Hn.
  - by apply foldl_intersect_NoDup.
  - apply NoDup_fmap_on; [apply Hall; intros ph Hph; by apply Hn|].
    intros h h' (q & Hq & Hin)%elem_of_all (q' & Hq' & Hin')%elem_of_all Hv.
    destruct (proj2 (Hh q h Hq) Hin) as (m & b & _ & Hb & -> & _).
    destruct (proj2 (Hh q' h' Hq') Hin') as (m' & b' & _ & Hb' & -> & _).
    assert (binding_name b = binding_name b') as Hname.
    { rewrite <- !binding_holder_name. rewrite <- (holder_to_value_name (binding_to_holder b)), Hv.
      apply holder_to_value_name. }
    by destruct (decl_unique args a names _ _ _ _ Hb Hb' Hname) as [_ ->].
Qed.

Lemma phases_store_names : NoDup (holder_name <$> phases_store (processed ps)).
Proof.
  apply NoDup_fmap_on; [apply phases_store_NoDup|].
  intros h h' Hh Hh' Hname.
  destruct (phases_store_holders h Hh) as [(b & Hb & ->)|(m & b & Hb & ->)],
    (phases_store_holders h' Hh') as [(b' & Hb' & ->)|(m' & b' & Hb' & ->)];
    rewrite ?binding_holder_name, ?decl_holder_name in Hname.
  - by rewrite (initial_unique b b').
  - exfalso. apply (decl_not_base args a names (binding_name b')); [by eapply decl_name_in|].
    rewrite <- Hname. by apply list_elem_of_fmap_2.
  - exfalso. apply (decl_not_base args a names (binding_name b)); [by eapply decl_name_in|].
    rewrite Hname. by apply list_elem_of_fmap_2.
  - by destruct (decl_unique args a names _ _ _ _ Hb Hb' Hname) as [_ ->].
Qed.

(** Every declaration has its holder. *)
Lemma declared_in_store m b : m ∈ labels -> (m, b) ∈ decls a ->
  decl_holder ps b ∈ phases_store (processed ps).
Proof.
  intros Hm Hb. pose proof (phase_holders _ _ _ [] ps_phases (inherited_base a _) labels_NoDup) as Hh.
  assert (D m) by (apply labels_D; by right).
  destruct (declared_in_phase _ _ _ m b ps_phases Hm) as (ph & Hph & Hin); [done..|].
  assert (Hname : forall b', binding_to_holder b = binding_to_holder b' -> binding_name b = binding_name b').
  { intros b' Heq. by rewrite <- !binding_holder_name, Heq. }
  destruct first_phase as (p1 & phases & Heq & _). rewrite Heq in Hh, Hph |- *. cbn [phases_store].
  rewrite !elem_of_typeset_combine, elem_of_all. destruct Hin as [Hin|Hin].
  - destruct (proj1 (Hh ph _ Hph) Hin) as (m' & b' & _ & Hbb & Ho).
    rewrite shared_holder by (by rewrite (Hname b' Hbb)). eauto.
  - destruct (proj2 (Hh ph _ Hph) Hin) as (m' & b' & _ & _ & Hbb & Ho).
    rewrite owned_holder by (by rewrite (Hname b' Hbb)). right.
    apply list_elem_of_fmap_2, elem_of_all. eauto.
Qed.

(** *** The store the transaction starts with *)

Definition first_store : store :=
  bind_arguments args (empty_store (all_store (processed ps) (arg_holder <$> args))).

Lemma arg_holder_names : holder_name <$> (arg_holder <$> args) = arg_name <$> args.
Proof. by rewrite <- list_fmap_compose. Qed.

Lemma all_store_elem :
  NoDup (holder_name <$> all_store (processed ps) (arg_holder <$> args)) /\
  forall h, h ∈ phases_store (processed ps) -> holder_name h ∉ arg_name <$> args ->
    h ∈ all_store (processed ps) (arg_holder <$> args).
Proof.
  rewrite all_store_phases. pose proof (arg_names_NoDup args a names) as Hargs.
  rewrite <- arg_holder_names in Hargs.
  destruct (replace_elem _ (arg_holder <$> args) phases_store_names Hargs) as [Hn He].
  split; [done|]. intros h Hh Ha. apply He. right. by rewrite arg_holder_names.
Qed.

Lemma first_store_arg b : b ∈ args ->
  holders first_store !! arg_name b = Some (HValue (Some (arg_value b))).
Proof. apply bind_arguments_arg. by eapply arg_names_NoDup. Qed.

Lemma first_store_decl m b : m ∈ labels -> (m, b) ∈ decls a ->
  holders first_store !! binding_name b = Some (default_holder (decl_holder ps b)).
Proof.
  intros Hm Hb. assert (Ha : binding_name b ∉ arg_name <$> args).
  { apply (decl_not_arg args [] a names). by eapply decl_name_in. }
  unfold first_store. rewrite bind_arguments_other by done.
  destruct all_store_elem as [Hn He]. rewrite <- decl_holder_name.
  apply lookup_empty_store; [done|]. apply He; [by eapply declared_in_store|].
  by rewrite decl_holder_name.
Qed.
End owned.
