(* ===== verification/SplitCorrect.v ===== *)
(** * Running the phases is running the transaction

    From one phase to the next the store holds, for every shared variable, the
    versions written at the labels of the phases so far.  With [phase_simulates]
    for each phase, the phases in order return what the transaction returns. *)
From stdpp Require Import sorting.
From S2P Require Import Prelude TypeLists Labels TypedAst LabelCollect SplitAst PhaseApi.
From S2P Require Import Split Runtime Holders RunPhase SplitSpec SplitProj SplitHist SplitSim.
From S2P Require Import SplitPhases SplitStore.

#[local] Open Scope Z_scope.

Lemma filter_same {A} (P Q : A -> Prop) `{forall x, Decision (P x), forall x, Decision (Q x)} l :
  Forall (fun x => P x <-> Q x) l -> base.filter P l = base.filter Q l.
Proof.
  induction 1 as [|x l Hx _ IH]; [done|]. destruct (decide (P x)).
  - rewrite !filter_cons_True by tauto. by rewrite IH.
  - rewrite !filter_cons_False by tauto. done.
Qed.

Lemma descending_NoDup `{UserLabels} ls :
  StronglySorted (fun x y => x <> y /\ flowsb x y = true) ls -> NoDup ls.
Proof.
  induction 1 as [|x l _ IH Hall]; [by apply NoDup_nil_2|]. apply NoDup_cons. split; [|done].
  intros Hx. rewrite Forall_forall in Hall. by destruct (Hall x Hx).
Qed.

Section correct.
Context `{LabelOrder D} `{TypeListLaws} `{Handles} `{!Remote}.
Variables (args : list argument) (labels : list label) (a : stmt) (ps : list prephase) (fuel : nat).
#[local] Abbreviation I := (info_of args labels a).
Hypothesis labels_D : forall l, l ∈ top :: labels -> D l.
Hypothesis split_ok : splittable args labels a = true.
Hypothesis ps_phases : phases_of a (initial_bindings args) labels ps.
Hypothesis descending : StronglySorted (fun x y => x <> y /\ flowsb x y = true) labels.
Hypothesis fuel_int : Z.of_nat fuel <= int_max.

Lemma split_parts : is_local a = true /\ labelled I false top a = true /\ info_ok I = true /\
  NoDup (all_names args a) /\ returns_at_tail true a = true.
Proof. unfold splittable in split_ok. by rewrite !andb_true_iff, bool_decide_eq_true in split_ok; tauto. Qed.

Lemma Iok : info_ok I = true.
Proof. apply split_parts. Qed.

Lemma names_NoDup : NoDup (all_names args a).
Proof. apply split_parts. Qed.

(** ** Where the transaction starts *)

Definition arg_values : gmap string value :=
  list_to_map ((fun b => (arg_name b, arg_value b)) <$> args).
Definition args_hist : hist :=
  Hist (fun x => match arg_values !! x with Some v => [(top, v)] | None => [] end) (fun _ => []).

Lemma arg_values_arg b : b ∈ args -> arg_values !! arg_name b = Some (arg_value b).
Proof.
  intros Hb. apply elem_of_list_to_map_1.
  - rewrite <- list_fmap_compose. apply (arg_names_NoDup args a names_NoDup).
  - by apply (list_elem_of_fmap_2 (fun b => (arg_name b, arg_value b))).
Qed.

Lemma arg_values_none x : x ∉ i_args I -> arg_values !! x = None.
Proof. intros Hx. apply not_elem_of_list_to_map_1. by rewrite <- list_fmap_compose. Qed.

Lemma args_hist_agree : agree arg_values args_hist.
Proof. intros x. unfold cur. cbn. by destruct (arg_values !! x). Qed.

Lemma arg_values_some x v : arg_values !! x = Some v -> x ∈ i_args I.
Proof.
  intros Hx. destruct (decide (x ∈ i_args I)) as [|Hn]; [done|]. by rewrite arg_values_none in Hx.
Qed.

Lemma args_hist_ok : hist_ok I args_hist.
Proof.
  split; intros x; cbn [args_hist vers counts].
  - intros m lx y Hx. destruct (arg_values !! x) eqn:Hv; [|done].
    apply arg_values_some, list_elem_of_fmap in Hv as (b & -> & Hb).
    rewrite (arg_lookup args labels a names_NoDup b Hb) in Hx. injection Hx as <- <- _.
    repeat constructor.
  - intros m lx y _. destruct (arg_values !! x); repeat constructor.
  - intros _. simpl. lia.
Qed.

Lemma args_hist_ready : ready (D := D) I false top a args_hist.
Proof.
  destruct split_parts as (Hloc & Hl & _ & Hn & Ht). split; try done.
  - apply labels_D. by left.
  - by apply (decl_names_NoDup args a).
  - intros _ x Hx. split; [|done]. cbn. by rewrite arg_values_none by by apply decl_not_arg.
  - apply args_hist_ok.
Qed.

(** ** From one phase to the next *)

Variables (fin : hist) (v : value).
Hypothesis runs : run fuel a args_hist fin (Some v).

Lemma fin_ok : hist_ok I fin.
Proof.
  destruct args_hist_ready as [? ? ? ? ? ? ?].
  eapply (proj1 (run_hist_ok I fuel labels_D Iok)); done.
Qed.

(** Versions are written at labels that have phases. *)
Lemma version_labels x m lx y : i_vars I !! x = Some (m, lx, y) -> x ∉ i_args I ->
  Forall (fun w => w.1 ∈ labels) (vers fin x).
Proof.
  intros Hx Ha. destruct (var_labels I Iok x m lx y Hx Ha) as [Hm Hl].
  eapply Forall_impl; [by apply (ho_labels _ _ fin_ok x m lx y)|].
  intros w [Hw|[Hw ?]]; cbn beta; rewrite Hw; auto.
Qed.

Section step.
Variables (earlier later : list label) (l : label).
Hypothesis here : labels = earlier ++ l :: later.

Lemma l_in : l ∈ labels.
Proof. rewrite here. apply elem_of_app. right. by left. Qed.

Lemma l_good : D l.
Proof. apply labels_D. right. apply l_in. Qed.

(** The labels that flow to [l] are those of the phases so far. *)
Lemma flows_here m : m ∈ labels -> (flowsb m l = true <-> m ∈ earlier ++ [l]) /\
  (flowsb m l = true /\ m <> l <-> m ∈ earlier).
Proof.
  intros Hm. pose proof descending as Hs. pose proof Hm as Hm'. rewrite here in Hs, Hm'.
  assert (HDm : D m) by (apply labels_D; by right). pose proof l_good as HDl.
  assert (Hl : flowsb l l = true) by by apply flowsb_refl.
  assert (Hbefore : forall z, z ∈ earlier -> z <> l /\ flowsb z l = true).
  { intros z Hz. apply StronglySorted_app in Hs as (Hs & _). destruct (Hs z l Hz); [by left|done]. }
  assert (Hafter : forall z, z ∈ later -> l <> z /\ flowsb l z = true).
  { intros z Hz. apply StronglySorted_app in Hs as (_ & _ & Hs).
    apply StronglySorted_inv in Hs as [_ Hall]. rewrite Forall_forall in Hall. by apply Hall. }
  rewrite elem_of_app, list_elem_of_singleton. apply elem_of_app in Hm' as [Hin|[->|Hin]%elem_of_cons].
  - destruct (Hbefore m Hin). tauto.
  - split; [tauto|]. split; [tauto|]. intros Hin. by destruct (Hbefore l Hin).
  - destruct (Hafter m Hin) as [Hne Hf].
    assert (Hno : flowsb m l <> true) by (intros Hc; apply Hne; by apply flowsb_antisym).
    split; (split; [tauto|]).
    + intros [Hm'|Hm']; [by destruct (Hbefore m Hm')|congruence].
    + intros Hm'. by destruct (Hbefore m Hm').
Qed.

Lemma above_here x m lx y : i_vars I !! x = Some (m, lx, y) -> x ∉ i_args I ->
  above l (vers fin x) = base.filter (fun w => w.1 ∈ earlier) (vers fin x).
Proof.
  intros Hx Ha. apply filter_same. eapply Forall_impl; [by eapply version_labels|].
  intros w Hw. by apply flows_here.
Qed.

Lemma seen_here x m lx y : i_vars I !! x = Some (m, lx, y) -> x ∉ i_args I ->
  above l (vers fin x) ++ at_label l (vers fin x) =
  base.filter (fun w => w.1 ∈ earlier ++ [l]) (vers fin x).
Proof.
  intros Hx Ha. rewrite <- (by_trust_split (D := D)).
  - apply filter_same. eapply Forall_impl; [by eapply version_labels|].
    intros w Hw. by apply flows_here.
  - apply l_good.
  - by eapply (versions_D I labels_D Iok); [apply fin_ok|].
  - by eapply (ho_trust _ _ fin_ok).
Qed.
End step.

Definition owned (x : string) : bool := is_owned_by ps x.

(** The store between two phases *)
Record boundary (earlier : list label) (s : run_state) : Prop := {
  bd_arg b : b ∈ args -> holders (st_store s) !! arg_name b = Some (HValue (Some (arg_value b)));
  bd_owned x m lx y : i_vars I !! x = Some (m, lx, y) -> x ∉ i_args I -> owned x = true ->
    exists o, holders (st_store s) !! x = Some (HValue o);
  bd_shared x m lx y : i_vars I !! x = Some (m, lx, y) -> x ∉ i_args I -> owned x = false ->
    exists th, holders (st_store s) !! x = Some (HType th) /\
      th_t th = snd <$> base.filter (fun w => w.1 ∈ earlier) (vers fin x);
  bd_loop w m : i_loops I !! w = Some m ->
    exists o, holders (st_store s) !! w = Some (HValue o) /\
      forall k, m ∈ earlier -> w ∈ i_once I -> counts fin w = [k] -> o = Some (VInt (Z.of_nat k)) }.

Lemma first_boundary ls w : labels <> [] -> boundary [] (RunState (first_store args ps) ls w).
Proof.
  intros Hne. destruct split_parts as (Hloc & Hl & _ & Hn & _).
  assert (Hps : ps <> []).
  { intros ->. pose proof (phases_labels _ _ _ _ ps_phases) as Hlabels. by rewrite <- Hlabels in Hne. }
  pose proof (descending_NoDup labels descending) as Hnd.
  assert (Hdecl : forall m b, m ∈ labels -> (m, b) ∈ decls a ->
    holders (first_store args ps) !! binding_name b = Some (default_holder (decl_holder ps b))).
  { intros m b. eapply (first_store_decl (D := D)); done. }
  split; cbn [st_store].
  - intros b Hb. by apply (first_store_arg args a).
  - intros x m lx y Hx Ha Ho. destruct (var_labels I Iok x m lx y Hx Ha) as [Hm _].
    apply (lookup_decl args labels a Hloc) in Hx; [|done].
    eexists. rewrite (Hdecl m _ Hm Hx : _ !! x = _). unfold decl_holder. cbn [binding_name].
    unfold owned in Ho. by rewrite Ho.
  - intros x m lx y Hx Ha Ho. destruct (var_labels I Iok x m lx y Hx Ha) as [Hm _].
    apply (lookup_decl args labels a Hloc) in Hx; [|done].
    eexists. rewrite (Hdecl m _ Hm Hx : _ !! x = _). unfold decl_holder. cbn [binding_name].
    unfold owned in Ho. rewrite Ho. split; [done|]. cbn.
    rewrite (filter_same _ (fun _ => False)); [|apply Forall_forall; by intros w' _; rewrite elem_of_nil].
    clear. induction (vers fin x) as [|w' ws IH]; [done|].
    by rewrite filter_cons_False by (intros []).
  - intros z m Hz. pose proof (loop_label I Iok z m Hz) as Hm.
    apply (lookup_loop args labels a) in Hz. exists None.
    rewrite (Hdecl m _ Hm Hz : _ !! z = _). split; [|by intros k ?%elem_of_nil].
    unfold decl_holder. cbn [binding_name]. by case_match.
Qed.

Section boundaries.
Variables (earlier later : list label) (l : label) (R : string -> bool).
Hypothesis here : labels = earlier ++ l :: later.

Lemma phase_begins s : boundary earlier s ->
  in_step I l R owned fin args_hist
    (RunState (begin_phase (st_store s)) (st_lists s) (st_world s)).
Proof.
  intros Hs. split; cbn [st_store].
  - intros x (b & -> & Hb)%list_elem_of_fmap. exists (arg_value b).
    rewrite lookup_begin_phase, (bd_arg _ _ Hs b Hb). split; [|done].
    rewrite <- args_hist_agree. by apply arg_values_arg.
  - intros x m lx y Hx Ha Ho. destruct (bd_owned _ _ Hs x m lx y Hx Ha Ho) as (o & Hl).
    exists o. rewrite lookup_begin_phase, Hl. split; [done|]. cbn. by rewrite arg_values_none.
  - intros x m lx y Hx Ha Ho. destruct (bd_shared _ _ Hs x m lx y Hx Ha Ho) as (th & Hl & Ht).
    exists (reset_index th). rewrite lookup_begin_phase, Hl. split; [done|].
    cbn [args_hist vers]. rewrite arg_values_none by done. split; [|done].
    cbn [reset_index th_t]. rewrite Ht, (above_here earlier later l here x m lx y) by done.
    by rewrite app_nil_r.
  - intros w m Hw. destruct (bd_loop _ _ Hs w m Hw) as (o & Hl & _). exists o.
    by rewrite lookup_begin_phase, Hl.
  - intros w m Hw Hf. destruct (bd_loop _ _ Hs w m Hw) as (o & Hl & Hk). exists o.
    rewrite lookup_begin_phase, Hl. split; [done|]. intros k Ho Hc. unfold known_counts in Hc.
    case_decide as Hm; [done|]. apply Hk; [|done..].
    by apply (flows_here earlier later l here m (loop_label I Iok w m Hw)).
Qed.

Lemma arg_final b : b ∈ args -> cur fin (arg_name b) = Some (arg_value b).
Proof.
  intros Hb. destruct split_parts as (_ & Hl & _). unfold cur.
  rewrite (proj1 (run_arguments I fuel) _ _ _ _ runs false top Hl).
  - rewrite <- arg_values_arg by done. symmetry. apply args_hist_agree.
  - by apply list_elem_of_fmap_2.
Qed.

Lemma phase_ends s : in_step I l R owned fin fin s -> boundary (earlier ++ [l]) s.
Proof.
  intros Hs. split.
  - intros b Hb. destruct (is_arg _ _ _ _ _ _ _ Hs (arg_name b)) as (v' & Hv & Hl);
      [by apply list_elem_of_fmap_2|]. rewrite arg_final in Hv by done. congruence.
  - intros x m lx y Hx Ha Ho. destruct (is_owned _ _ _ _ _ _ _ Hs x m lx y Hx Ha Ho) as (o & Hl & _). eauto.
  - intros x m lx y Hx Ha Ho. destruct (is_shared _ _ _ _ _ _ _ Hs x m lx y Hx Ha Ho) as (th & Hl & Ht & _).
    exists th. split; [done|]. by rewrite Ht, (seen_here earlier later l here x m lx y).
  - intros w m Hw. pose proof (flows_here earlier later l here m (loop_label I Iok w m Hw)) as [Hf _].
    destruct (decide (m ∈ earlier ++ [l])) as [Hin|Hin].
    + destruct (is_loop _ _ _ _ _ _ _ Hs w m Hw) as (o & Hl & Hk); [by apply Hf|].
      exists o. split; [done|]. intros k _ Ho Hc. apply Hk; [done|]. unfold known_counts. by case_decide.
    + destruct (is_counter _ _ _ _ _ _ _ Hs w m Hw) as (o & Hl). exists o. by split.
Qed.
End boundaries.

(** *** Running one phase *)

Section phase.
Variables (earlier later : list label) (l : label).
Hypothesis here : labels = earlier ++ l :: later.
Variables (bs : list var_binding) (r : extracted_phase) (p : prephase).
Hypothesis p_phase : phase_of l bs a r p.
Hypothesis bs_inherited : inherited a (initial_bindings args) earlier bs.
Hypothesis p_in : p ∈ ps.

Lemma required_spec x m lx y : requires_name p x = true -> i_vars I !! x = Some (m, lx, y) ->
  x ∉ i_args I -> owned x = false /\ flowsb m l = true.
Proof.
  intros Hr Hx Ha. destruct split_parts as (Hloc & _ & _ & Hn & _). split.
  - apply negb_false_iff, existsb_elem. by exists p.
  - apply (lookup_decl args labels a Hloc) in Hx as Hd; [|done].
    destruct (required_declared args a Hn _ _ _ _ _ _ _ bs_inherited p_phase Hd Hr) as [Hm _].
    destruct (var_labels I Iok x m lx y Hx Ha) as [Hml _].
    assert (m ∈ earlier ++ [l]) by (apply elem_of_app; by left).
    by apply (flows_here earlier later l here m Hml).
Qed.

Lemma uses_usable x : x ∈ uses (pp_ast p) -> usable I l (requires_name p) x.
Proof.
  intros Hx. destruct split_parts as (Hloc & _ & _ & Hn & _).
  destruct (po_uses _ _ _ _ _ p_phase x Hx) as [Hr|Hp]; [by left|right].
  intros m lx y Hi. apply list_elem_of_fmap in Hp as (b & -> & Hb%(po_decls _ _ _ _ _ p_phase)).
  apply (lookup_decl args labels a Hloc) in Hi as Hd;
    [|by eapply decl_not_arg, decl_name_in].
  by destruct (decl_unique args a Hn _ _ _ _ Hb Hd eq_refl).
Qed.

Lemma phase_result tracked s : boundary earlier s ->
  exists s', run_stmt tracked fuel (pp_ast p)
      (RunState (begin_phase (st_store s)) (st_lists s) (st_world s)) = (ending l (Some v), s') /\
    boundary (earlier ++ [l]) s'.
Proof.
  intros Hs. rewrite run_flat.
  destruct (phase_simulates I fuel labels_D Iok l (requires_name p) owned fin
    (l_good earlier later l here) (l_in earlier later l here) fin_ok required_spec tracked fuel
    (le_n fuel) fuel_int a args_hist fin (Some v) runs false top (flat (pp_ast p))
    (RunState (begin_phase (st_store s)) (st_lists s) (st_world s)) args_hist_ready
    (po_proj _ _ _ _ _ p_phase)) as (s' & Hrun & Hs' & _).
  - intros x. rewrite <- uses_flat. apply uses_usable.
  - apply extends_refl.
  - by eapply phase_begins.
  - exists s'. split; [done|by eapply phase_ends].
Qed.

Lemma phase_returns : (ex_returns r = TVoid) <-> l <> bottom.
Proof.
  destruct split_parts as (_ & Hl & _). split.
  - intros Hr Hlb. pose proof (po_collect _ _ _ _ _ p_phase) as Hc. rewrite Hlb in Hc.
    eapply (run_returns I fuel); [..|exact runs|done|exact Hl|exact Hc|exact Hr].
    intros m Hm. apply (flowsb_bottom (D := D)); [apply labels_D; by right|].
    rewrite <- Hlb. by apply (l_good earlier later l).
  - intros Hlb. by eapply (collect_returns_void I); [|exact Hl|by eapply po_collect].
Qed.

Hypothesis commits : forall w, exists w', rm_commit w = (inl tt, w').
Hypothesis traits : forall m, m ∈ labels -> exists tr, traits_of m = Ok tr.

Lemma common_interp_phase ph s : ph_label ph = l -> ph_ast ph = pp_ast p ->
  ph_returns ph = ex_returns r -> boundary earlier s ->
  exists s', common_interp fuel ph s = (inl (if decide (l = bottom) then Some v else None), s') /\
    boundary (earlier ++ [l]) s'.
Proof.
  intros Hlab Hast Hret Hs.
  destruct (traits l (l_in earlier later l here)) as (tr & Htr).
  destruct (phase_result (run_remotely tr) s Hs) as (s1 & Hrun & Hs1).
  destruct (commits (st_world s1)) as (w' & Hw').
  exists (RunState (st_store s1) (st_lists s1) (rm_end w')).
  split; [|destruct Hs1; by split]. unfold common_interp. rewrite Hlab, Htr.
  cbn [common_interp_fuel]. unfold common_interp_loop, run_phase1. rewrite Hast, Hrun. unfold ending.
  assert (Hcall : call rm_commit s1 = (inl tt, RunState (st_store s1) (st_lists s1) w'))
    by (unfold call; by rewrite Hw').
  pose proof phase_returns as Hv. rewrite Hret. destruct (decide (l = bottom)) as [Hl|Hl].
  - rewrite (decide_False (P := ex_returns r = TVoid)) by tauto. by rewrite Hcall.
  - rewrite (decide_True (P := ex_returns r = TVoid)) by tauto. by rewrite Hcall.
Qed.
End phase.

(** *** All of them *)

Hypothesis commits : forall w, exists w', rm_commit w = (inl tt, w').
Hypothesis traits : forall m, m ∈ labels -> exists tr, traits_of m = Ok tr.

Lemma bottom_in : bottom ∈ labels.
Proof.
  destruct split_parts as (_ & Hl & _). by eapply (run_some_bottom I fuel) in runs.
Qed.

Lemma last_bottom earlier l : labels = earlier ++ [l] -> l = bottom.
Proof.
  intros Hl. pose proof bottom_in as Hb.
  pose proof (flows_here earlier [] l Hl bottom Hb) as [[_ Hf] _].
  assert (Hfl : flowsb bottom l = true) by (apply Hf; by rewrite <- Hl).
  apply flowsb_true in Hfl. cbn in Hfl. injection Hfl as Hfl. by apply bool_decide_eq_true in Hfl.
Qed.

(** The first [n] phases *)
Fixpoint run_first (n : nat) (phases : list phase) : Run unit :=
  match n, phases with
  | S n, p :: phases => common_interp fuel p;; run_first n phases
  | _, _ => mret tt
  end.

Lemma first_phases n bs ls qs earlier s : phases_of a bs ls qs ->
  inherited a (initial_bindings args) earlier bs -> labels = earlier ++ ls ->
  (forall q, q ∈ qs -> q ∈ ps) -> boundary earlier s ->
  exists s', run_first n (processed qs) s = (inl tt, s') /\ boundary (earlier ++ take n ls) s'.
Proof.
  intros Hq. revert n earlier s. induction Hq as [|bs l ls r p qs Hp Hqs IH];
    intros [|n] earlier s Hi Hl Hin Hs; try (exists s; cbn [take]; by rewrite app_nil_r).
  destruct (processed_cons p qs) as (nr & _ & ->). cbn [run_first].
  set (ph := Phase (pp_level p) _ _ _ _ _ _).
  destruct (common_interp_phase earlier ls l Hl bs r p Hp Hi ltac:(apply Hin; by left) commits traits
    ph s (po_level _ _ _ _ _ Hp) eq_refl (po_returns _ _ _ _ _ Hp) Hs) as (s1 & Hrun & Hs1).
  rewrite (run_bind _ _ _ _ _ Hrun). cbn [take].
  destruct (IH n (earlier ++ [l]) s1) as (s' & Hd & Hb); [by eapply inherited_next|by rewrite <- app_assoc| |done|].
  { intros q Hq'. apply Hin. by right. }
  exists s'. by rewrite <- app_assoc in Hb.
Qed.

Lemma dispatch_phases bs ls qs earlier s : phases_of a bs ls qs ->
  inherited a (initial_bindings args) earlier bs -> labels = earlier ++ ls -> ls <> [] ->
  (forall q, q ∈ qs -> q ∈ ps) -> boundary earlier s ->
  exists s', dispatch_to_runner fuel (processed qs) s = (inl (Some v), s').
Proof.
  intros Hq. revert earlier s. induction Hq as [|bs l ls r p qs Hp Hqs IH]; intros earlier s Hi Hl Hne Hin Hs;
    [done|].
  destruct (processed_cons p qs) as (nr & _ & ->).
  set (ph := Phase (pp_level p) _ _ _ _ _ _).
  destruct (common_interp_phase earlier ls l Hl bs r p Hp Hi ltac:(apply Hin; by left) commits traits
    ph s (po_level _ _ _ _ _ Hp) eq_refl (po_returns _ _ _ _ _ Hp) Hs) as (s1 & Hrun & Hs1).
  destruct ls as [|l' ls'].
  - assert (qs = []) as -> by by inversion Hqs. exists s1. cbn [processed dispatch_to_runner]. rewrite Hrun.
    by rewrite decide_True by by eapply last_bottom.
  - assert (exists p' qs', qs = p' :: qs') as (p' & qs' & ->) by (inversion Hqs; eauto).
    destruct (IH (earlier ++ [l]) s1) as (s' & Hd); [by eapply inherited_next|by rewrite <- app_assoc|done| |done|].
    { intros q Hq'. apply Hin. by right. }
    exists s'. destruct (processed_cons p' qs') as (nr' & _ & Heq). rewrite Heq in Hd |- *.
    cbn [dispatch_to_runner]. rewrite (run_bind _ _ _ _ _ Hrun). exact Hd.
Qed.
End correct.

(** ** Naming loops does not change the transaction *)

Section naming.
Context `{UserLabels} `{Handles} `{!Remote}.

Lemma exec_loop_ext n c (body body' : gmap string value -> Res (gmap string value * option value)) s :
  (forall s, body s = body' s) -> exec_loop n c body s = exec_loop n c body' s.
Proof.
  intros Hb. revert s. induction n as [|n IH]; intros s; simpl; destruct (c s) as [[]|]; try done.
  cbn. rewrite Hb. destruct (body' s) as [[s1 [r|]]|]; try done. apply IH.
Qed.

Lemma easy_processing_exec fuel acc s s' st : easy_processing acc s = Ok s' ->
  exec fuel s' st = exec fuel s st.
Proof.
  revert acc s' st.
  induction s as [l b s IH| |l n hd args|l v e|l e|l e|l e|l c t e IHt IHe|l c s w IH|l ss IH]
    using stmt_ind'; intros acc s' st Hs; cbn [easy_processing] in Hs; outcome_inv; try done.
  - cbn [exec]. destruct (eval _ _); [|done]. by eapply IH.
  - cbn [exec]. destruct (eval _ _) as [x2|]; [|done]. cbn. destruct (truth x2) as [[]|]; [..|done];
      [by eapply IHt|by eapply IHe].
  - case_decide; outcome_inv; cbn [exec]; apply exec_loop_ext; intros st'; by eapply IH.
  - match goal with Hn : to_char _ = Ok ?n, Hf : _ ?n ss = Ok ?ss' |- _ =>
      clear Hn; revert n ss' st Hf end.
    cbn [exec]. induction IH as [|s ss Hs1 _ IHs]; intros n ss' st Hs; outcome_inv; [done|].
    destruct (is_return s); outcome_inv; [done|]. rewrite (Hs1 _ _ _ ltac:(eassumption)).
    destruct (exec fuel s st) as [[s1 [r|]]|]; try done. cbn. by eapply IHs.
Qed.
End naming.

(** ** The transaction and its phases *)

Section transaction.
Context `{LabelOrder D} `{TypeListLaws} `{Handles} `{!Remote}.
Variables (ast a : stmt) (args : list argument) (ls : list label) (phases : list phase).
Hypothesis top_D : D top.
Hypothesis ast_D : forall x, mentions ast x -> D x.
Hypothesis named : easy_processing_pass ast = Ok a.
Hypothesis its_labels : collect_proper_labels ast = Ok ls.
Hypothesis split : split_computation (initial_bindings args) ast = Ok phases.
Hypothesis good : splittable args (reverse ls) a = true.

Lemma reverse_labels_D l : l ∈ top :: reverse ls -> D l.
Proof.
  intros [->|Hl]%elem_of_cons; [done|]. destruct (proper_labels_spec ast ls ast_D its_labels) as [Hm _].
  rewrite elem_of_reverse, Hm in Hl. by apply ast_D.
Qed.

Lemma reverse_labels_descending : StronglySorted (fun x y => x <> y /\ flowsb x y = true) (reverse ls).
Proof.
  destruct (proper_labels_spec ast ls ast_D its_labels) as [_ Hasc].
  clear -Hasc. unfold ascending in Hasc. induction Hasc as [|x l Hs IH Hall]; [constructor|].
  rewrite reverse_cons. apply StronglySorted_app. split_and!; [|done|by repeat constructor].
  intros y z Hy Hz%list_elem_of_singleton. subst z. rewrite elem_of_reverse in Hy.
  rewrite Forall_forall in Hall. destruct (Hall y Hy). rewrite flowsb_true. by split.
Qed.

Lemma its_phases : exists ps, _split_computation a (initial_bindings args) (reverse ls) = Ok ps /\
  phases = processed ps /\ phases_of a (initial_bindings args) (reverse ls) ps.
Proof.
  unfold split_computation in split. rewrite named, its_labels in split.
  cbn [mbind outcome_bind] in split. apply bind_Ok in split as (ps & Hps & [= <-]).
  exists ps. split_and!; [done..|]. eapply split_computation_phases; [|done].
  by apply (split_parts args (reverse ls)).
Qed.

Lemma start_well_formed ps : phases_of a (initial_bindings args) (reverse ls) ps -> reverse ls <> [] ->
  NoDup (holder_name <$> all_store (processed ps) (arg_holder <$> args)) /\
  forall h, h ∈ phases_store (processed ps) -> holder_name h ∉ arg_name <$> args ->
    h ∈ all_store (processed ps) (arg_holder <$> args).
Proof.
  intros Hps Hne. destruct (split_parts args (reverse ls) a good) as (_ & Hl & _ & Hn & _).
  apply (all_store_elem args (reverse ls) a reverse_labels_D Hn Hl ps Hps
    (descending_NoDup _ reverse_labels_descending)).
  intros ->. by rewrite <- (phases_labels _ _ _ _ Hps) in Hne.
Qed.

Section run.
Variables (fuel : nat) (v : value) (w : W).
Hypothesis fuel_int : Z.of_nat fuel <= int_max.
Hypothesis commits : forall w, exists w', rm_commit w = (inl tt, w').
Hypothesis traits : forall l, l ∈ ls -> exists tr, traits_of l = Ok tr.
Hypothesis returns : exec_transaction fuel ast args = inl v.

Lemma its_run : exists fin, run fuel a (args_hist args) fin (Some v).
Proof.
  destruct (split_parts args (reverse ls) a good) as (_ & _ & _ & _ & Ht).
  pose proof returns as Hexec. unfold exec_transaction in Hexec. res_inv.
  match goal with He : exec _ _ _ = inl ?r |- _ =>
    rewrite <- (easy_processing_exec fuel _ ast a _ named) in He;
    destruct (exec_run true fuel a _ (args_hist args) r Ht He) as (fin & Hrun & _);
      [by apply (args_hist_agree args)|destruct r.2 as [v'|]; [|done]] end.
  injection Hexec as ->. eauto.
Qed.

Lemma labels_nonempty fin : run fuel a (args_hist args) fin (Some v) -> reverse ls <> [].
Proof.
  intros Hrun Hnil. pose proof (bottom_in args (reverse ls) a fuel good fin v Hrun) as Hb.
  rewrite Hnil in Hb. by apply elem_of_nil in Hb.
Qed.

Lemma reverse_traits l : l ∈ reverse ls -> exists tr, traits_of l = Ok tr.
Proof. rewrite elem_of_reverse. apply traits. Qed.

Lemma split_runs :
  exists s, begin_interp fuel phases args w = (inl (Some v), s).
Proof.
  destruct its_run as (fin & Hrun). pose proof (labels_nonempty fin Hrun) as Hne.
  destruct its_phases as (ps & _ & -> & Hps).
  destruct (start_well_formed ps Hps Hne) as [Hnames _].
  unfold begin_interp. rewrite decide_True by done.
  apply (dispatch_phases args (reverse ls) a ps fuel reverse_labels_D good reverse_labels_descending
    fuel_int fin v Hrun commits reverse_traits (initial_bindings args) (reverse ls) ps []);
    try done; [apply inherited_base|].
  by eapply (first_boundary args (reverse ls) a ps reverse_labels_D good Hps reverse_labels_descending).
Qed.

(** C24: running the phases that [split_computation] makes of a transaction, in
  order and each on its own copy of the store, returns what the transaction
  returns when it is run as one program.  The transaction is [splittable]: local, labelled
  consistently, without a name declared twice, returning at the end, its loops and
  conditionals keeping versions in step; it returns within a fuel of at most [int_max],
  commits succeed, and the labels are totally ordered and have traits. *)
Theorem split_computation_correct :
  exists s, begin_interp fuel phases args w = (inl (Some v), s).
Proof. apply split_runs. Qed.

(** C25: between any two phases the store is in step with one execution of the
  whole transaction: a variable shared between phases holds its versions
  written at the labels of the phases so far, in the order of the execution;
  arguments are unchanged; the counter of an outer loop is the number of its
  iterations.  The conditions are those of the theorem before: the transaction is
  [splittable] and returns within a fuel of at most [int_max], commits succeed, and the
  labels are totally ordered and have traits. *)
Theorem phase_boundaries :
  exists ps fin, phases = processed ps /\ run fuel a (args_hist args) fin (Some v) /\
  forall n, exists s,
    run_first fuel n phases (RunState (first_store args ps) [] w) = (inl tt, s) /\
    boundary args (reverse ls) a ps fin (take n (reverse ls)) s.
Proof.
  destruct its_run as (fin & Hrun). pose proof (labels_nonempty fin Hrun) as Hne.
  destruct its_phases as (ps & _ & -> & Hps). exists ps, fin. split_and!; [done..|]. intros n.
  apply (first_phases args (reverse ls) a ps fuel reverse_labels_D good reverse_labels_descending
    fuel_int fin v Hrun commits reverse_traits n (initial_bindings args) (reverse ls) ps []);
    try done; [apply inherited_base|].
  by eapply (first_boundary args (reverse ls) a ps reverse_labels_D good Hps reverse_labels_descending).
Qed.
End run.

(** C26: the store of the split of a [splittable] transaction, so of one in which no name is
  declared twice, has one holder for every name; a declared variable that some phase
  requires is kept with all its versions, one that none requires is a plain value, and so
  are arguments. *)
Theorem split_store_typed : ls <> [] ->
  exists ps, phases = processed ps /\
    NoDup (holder_name <$> all_store phases (arg_holder <$> args)) /\
    (forall b, b ∈ args -> arg_holder b ∈ all_store phases (arg_holder <$> args)) /\
    (forall m x t lx, (m, type_binding x t lx local) ∈ decls a ->
      (if existsb (fun p => requires_name p x) ps then type_holder t x else value_holder t x)
        ∈ all_store phases (arg_holder <$> args)).
Proof.
  intros Hne. destruct its_phases as (ps & _ & -> & Hps).
  destruct (split_parts args (reverse ls) a good) as (_ & Hl & Hiok & Hn & _).
  assert (Hne' : reverse ls <> []) by (intros Hr; apply Hne; by rewrite <- (reverse_involutive ls), Hr).
  destruct (start_well_formed ps Hps Hne') as [Hnames Hin].
  assert (Hps0 : ps <> []) by (intros ->; by rewrite <- (phases_labels _ _ _ _ Hps) in Hne').
  pose proof (descending_NoDup _ reverse_labels_descending) as Hnd.
  exists ps. split_and!; [done|done| |].
  - intros b Hb. rewrite (all_store_phases args (reverse ls) a ps Hps Hps0). apply replace_elem.
    + by eapply phases_store_names; [exact reverse_labels_D|..].
    + rewrite arg_holder_names. by eapply arg_names_NoDup.
    + left. by apply list_elem_of_fmap_2.
  - intros m x t lx Hd. apply (decl_lookup args (reverse ls) a Hn) in Hd as Hx.
    assert (Ha : x ∉ arg_name <$> args)
      by (apply (decl_not_arg args (reverse ls) a Hn); by apply (decl_name_in a) in Hd).
    destruct (var_labels _ Hiok x m lx t Hx Ha) as [Hm _].
    assert (Heq : (if existsb (fun p => requires_name p x) ps then type_holder t x else value_holder t x)
      = decl_holder ps (type_binding x t lx local)).
    { unfold decl_holder, is_owned_by. cbn. by destruct (existsb _ ps). }
    rewrite Heq. apply Hin; [|by rewrite decl_holder_name].
    eapply declared_in_store; [exact reverse_labels_D|by apply (split_parts args (reverse ls) a good)|done..].
Qed.
End transaction.
