(* ===== verification/SplitExamples.v ===== *)
(** * Split transactions, run

    Concrete transactions with the labels of the repository: one that
    [split_computation_correct] is about, and four that phase splitting gets wrong
    because they are outside its condition. *)
From S2P Require Import Prelude TypeLists Labels TypedAst LabelCollect SplitAst PhaseApi.
From S2P Require Import Split Runtime Holders RunPhase SplitSpec SplitHist SplitProj SplitPhases.
From S2P Require Import SplitStore SplitCorrect.
Import Reference.

#[local] Open Scope string_scope.

(** ** A world without objects that counts commits *)

#[local] Instance no_handles : Handles := {| Handle := Z; handle_name := fun z => z |}.
#[local] Instance no_objects : Remote := {|
  W := nat;
  rm_get := fun _ => throw AssertFailed; rm_put := fun _ _ => throw AssertFailed;
  rm_isValid := fun _ => throw AssertFailed; rm_act := fun _ _ _ => throw AssertFailed;
  rm_create_new := fun _ _ => throw AssertFailed; rm_nulled := fun h => h;
  rm_commit := fun w => (inl tt, S w);
  rm_end := fun w => w;
  trk_read_actions := fun _ => mret tt; trk_accompanyWrite := fun _ _ => mret tt;
  trk_writeTombstone := fun _ => mret tt; trk_generateTombstone := mret 0%Z |}.

(** What the phases of a transaction return *)
Definition run_phases (fuel : nat) (ast : stmt) (args : list argument) : outcome (option value + stop) :=
  phases ← split_computation (initial_bindings args) ast;
  Ok (begin_interp fuel phases args 0).1.

(** ** Notation for the examples *)

Definition var (l : label) (x : string) : expr := EVar l TInt x.
Definition flag (l : label) (x : string) : expr := EVar l TBool x.
Definition op (l : label) (o : ascii) (a b : expr) : expr := EBinOp l TInt o a b.
Definition less (l : label) (a b : expr) : expr := EBinOp l TBool "<" a b.
Definition let_in (sl vl : label) (x : string) (e : expr) (s : stmt) : stmt :=
  SLet sl (Binding vl TInt x e) s.
Definition incr (l : label) (x : string) (e : expr) : stmt :=
  SAssignment l (var l x) (op l "+" (var l x) e).

(** ** A transaction that splits: the sum of the first numbers *)

Definition sum_to : stmt :=
  let_in strong strong "i" (EConst 0) (let_in causal causal "acc" (EConst 0)
   (SSequence strong
     [SWhile strong (less strong (var strong "i") (var top "n"))
       (SSequence strong
         [incr strong "i" (EConst 1); incr causal "acc" (var strong "i")]) "";
      SReturn bottom (var causal "acc")])).

Definition sum_args : list argument := [Argument "n" TInt (VInt 4)].

Definition or_else {A} (d : A) (o : outcome A) : A := match o with Ok a => a | Err _ => d end.

Definition sum_named : stmt := or_else sum_to (easy_processing_pass sum_to).
Definition sum_phases : list phase := or_else [] (split_computation (initial_bindings sum_args) sum_to).
Definition sum_labels : list label := [bottom; causal; strong; top].

(** Discharge a hypothesis of the theorems about [sum_to]. *)
Ltac sum_to_hyp := first
  [ reflexivity | vm_compute; reflexivity | vm_compute; discriminate
  | apply (bool_decide_eq_true (top ∈ sql_labels)); vm_compute; reflexivity
  | match goal with |- forall x, mentions _ x -> _ =>
      let x := fresh in let Hx := fresh in intros x Hx;
      apply (bool_decide_eq_true (x ∈ sql_labels)); revert x Hx;
      apply forall_mentions; vm_compute; reflexivity end
  | let w := fresh in intros w; exists (S w); reflexivity
  | let l := fresh in let Hl := fresh in intros l Hl;
    repeat (apply elem_of_cons in Hl as [->|Hl]; [by eexists|]); by apply elem_of_nil in Hl ].

Lemma split_computation_correct_witness :
  exists s, begin_interp 10 sum_phases sum_args 0 = (inl (Some (VInt 10)), s).
Proof.
  apply (split_computation_correct (D := fun l => l ∈ sql_labels) sum_to sum_named sum_args sum_labels);
    sum_to_hyp.
Defined.

Lemma phase_boundaries_witness :
  exists ps fin, sum_phases = processed ps /\ run 10 sum_named (args_hist sum_args) fin (Some (VInt 10)) /\
  forall n, exists s,
    run_first 10 n sum_phases (RunState (first_store sum_args ps) [] 0) = (inl tt, s) /\
    boundary sum_args (reverse sum_labels) sum_named ps fin (take n (reverse sum_labels)) s.
Proof.
  apply (phase_boundaries (D := fun l => l ∈ sql_labels) sum_to sum_named sum_args sum_labels);
    sum_to_hyp.
Defined.

Lemma split_store_typed_witness :
  exists ps, sum_phases = processed ps /\
    NoDup (holder_name <$> all_store sum_phases (arg_holder <$> sum_args)) /\
    (forall b, b ∈ sum_args -> arg_holder b ∈ all_store sum_phases (arg_holder <$> sum_args)) /\
    (forall m x t lx, (m, type_binding x t lx local) ∈ decls sum_named ->
      (if existsb (fun p => requires_name p x) ps then type_holder t x else value_holder t x)
        ∈ all_store sum_phases (arg_holder <$> sum_args)).
Proof.
  apply (split_store_typed (D := fun l => l ∈ sql_labels) sum_to sum_named sum_args sum_labels);
    sum_to_hyp.
Defined.

(** The phase of [causal], after those of [top] and [strong] *)
Definition sum_inherits : list var_binding :=
  initial_bindings sum_args ++
  [type_binding "i" TInt strong local; while_binding (while_name (Accum 2 1 true))].
Definition sum_causal : outcome (prephase * list var_binding) := split_phase sum_named sum_inherits causal.

Lemma split_phase_correct_witness :
  exists p next, sum_causal = Ok (p, next) /\ pp_level p = causal /\
    proj causal (requires_name p) sum_named (flat (pp_ast p)) /\
    (forall x, x ∈ uses (pp_ast p) ->
      requires_name p x = true \/ exists b, (causal, b) ∈ decls sum_named /\ binding_name b = x) /\
    (forall h, h ∈ pp_requirements p -> exists b, b ∈ sum_inherits /\ h = binding_to_holder b) /\
    (forall b, b ∈ next -> b ∈ sum_inherits \/ (causal, b) ∈ decls sum_named).
Proof.
  destruct sum_causal as [[p next]|e] eqn:Hs; [|vm_compute in Hs; discriminate].
  exists p, next. split; [reflexivity|].
  apply (split_phase_correct causal sum_inherits sum_named p next); [vm_compute; reflexivity|exact Hs].
Defined.

(** ** Where splitting changes the result *)

(** The [let] of [z] runs in the phase of [top], its assignment in that of [bottom]. *)
Definition let_in_loop : stmt :=
  let_in top top "i" (EConst 0) (let_in top bottom "w" (EConst 5) (let_in top bottom "acc" (EConst 0)
   (SSequence top
     [SWhile top (less top (var top "i") (EConst 2))
       (let_in top bottom "z" (EConst 0) (SSequence top
         [incr bottom "z" (var bottom "w");
          SAssignment bottom (var bottom "acc")
            (op bottom "+" (op bottom "*" (var bottom "acc") (EConst 2)) (var bottom "z"));
          incr top "i" (EConst 1)])) "";
      SReturn bottom (var bottom "acc")]))).

(** An inner loop that makes a different number of iterations each time *)
Definition loop_in_loop : stmt :=
  let_in top top "i" (EConst 0) (let_in top top "j" (EConst 0) (let_in top bottom "acc" (EConst 0)
   (SSequence top
     [SWhile top (less top (var top "i") (EConst 3))
       (SSequence top
         [SAssignment top (var top "j") (EConst 0);
          SWhile top (less top (var top "j") (var top "i"))
            (SSequence top [incr top "j" (EConst 1); incr bottom "acc" (EConst 1)]) "";
          incr top "i" (EConst 1)]) "";
      SReturn bottom (var bottom "acc")]))).

(** Two loops with one name: the first is in a nested sequence. *)
Definition loops_of_one_name : stmt :=
  let_in top top "i" (EConst 0) (let_in top top "j" (EConst 0) (let_in top bottom "acc" (EConst 0)
   (SSequence top
     [SIf top (EVar top TBool "true")
       (SSequence top
         [SWhile top (less top (var top "i") (EConst 3))
            (SSequence top [incr top "i" (EConst 1); incr bottom "acc" (EConst 1)]) ""])
       (SSequence top []);
      SWhile top (less top (var top "j") (EConst 1))
        (SSequence top [incr top "j" (EConst 1); incr bottom "acc" (EConst 10)]) "";
      SReturn bottom (var bottom "acc")]))).

(** Statements after a [return] that is not a member of their sequence *)
Definition dead_code : stmt :=
  let_in top top "y" (EConst 1)
   (SSequence top
     [let_in top top "x" (EConst 7) (SReturn bottom (var top "x"));
      SAssignment top (var top "y") (op top "/" (var top "y") (EConst 0))]).

(** A [let] in a loop that runs in an earlier phase than the assignments of
  its variable loses them: [push] appends the new version after those of the later
  iterations, but the position only moves to the next one. *)
Theorem let_in_loop_diverges :
  exec_transaction 10 let_in_loop [] = inl (VInt 15) /\
  run_phases 10 let_in_loop [] = Ok (inl (Some (VInt 10))).
Proof. vm_compute. split; reflexivity. Qed.

(** A later phase repeats an inner loop as often as its last entry, whichever
  entry it is at: the count is one value, not a version per entry. *)
Theorem loop_in_loop_diverges :
  exec_transaction 10 loop_in_loop [] = inl (VInt 3) /\
  run_phases 10 loop_in_loop [] = Ok (inl (Some (VInt 6))).
Proof. vm_compute. split; reflexivity. Qed.

(** A loop at the start of a nested sequence has the name of the statement
  that follows the nested sequence, when that is a loop, and later phases repeat
  the one as often as the other. *)
Theorem loop_names_collide :
  (exists w, (outer_loops <$> easy_processing_pass loops_of_one_name) = Ok [w; w]) /\
  exec_transaction 10 loops_of_one_name [] = inl (VInt 13) /\
  run_phases 10 loops_of_one_name [] = Ok (inl (Some (VInt 11))).
Proof. split; [eexists; vm_compute; reflexivity|]. vm_compute. split; reflexivity. Qed.

(** The check for dead code only looks at the members of a sequence. *)
Example dead_code_runs :
  exec_transaction 10 dead_code [] = inl (VInt 7) /\
  run_phases 10 dead_code [] = Ok (inr (Throws SignedOverflow)).
Proof. vm_compute. split; reflexivity. Qed.
