(* ===== verification/Recollapse.v ===== *)
(** * Putting generated declarations back, and relabelling

    Models [mtl/recollapse.hpp], which inlines the variables flattening generated
    where only one phase uses them, so that they need no place in the store, and
    [mtl/relabel.hpp], which moves a phase made for a pre-endorsed label to the
    label itself. *)
From S2P Require Import Prelude TypeLists Labels TypedAst SplitAst PhaseApi Split.

(** ** [recollapse.hpp] *)

Definition anorm_str : string := "anorm".

(** [name::begins_with(anorm_str{})] *)
Definition begins_with_anorm (name : string) : bool := String.prefix anorm_str name.

(** [anorm_names2(accum, names)] *)
Fixpoint anorm_names2 (accum names : list string) : list string :=
  match names with
  | [] => accum
  | name1 :: names =>
      if begins_with_anorm name1 then anorm_names2 (accum ++ [name1]) names
      else anorm_names2 accum names
  end.

Definition anorm_names (vars : list holder_type) : list string :=
  anorm_names2 [] (holder_name <$> vars).

Section recollapse.
Context `{TypeLists}.

(** [type_association_map<entries...>] *)
Definition sub_map : Type := list (string * pexpr).

Definition sub_get (m : sub_map) (v : string) : option pexpr :=
  snd <$> typelist_find (fun entry => bool_decide (entry.1 = v)) m.

(** [_recollapse] on expressions, by overload *)
Fixpoint recollapse_expr (m : sub_map) (e : pexpr) : pexpr :=
  match e with
  | PEField y s f => PEField y (recollapse_expr m s) f
  | PEVar y v => match sub_get m v with Some e' => e' | None => e end
  | PEConst _ | PEGenerateTombstone => e
  | PEBinOp y op L R => PEBinOp y op (recollapse_expr m L) (recollapse_expr m R)
  | PEIsValid y h => PEIsValid y (recollapse_expr m h)
  | PEOperation y n h args =>
      PEOperation y n (recollapse_expr m h) (recollapse_expr m <$> args)
  end.

(** [_recollapse] on a binding: [remove_this_binding], [new_map] and [binding] *)
Definition recollapse_binding (candidates : list string) (m : sub_map) (b : pbinding)
    : bool * sub_map * pbinding :=
  let new_e := recollapse_expr m (pb_expr b) in
  let candidate := bool_decide (pb_var b ∈ candidates) in
  (candidate, if candidate then (pb_var b, new_e) :: m else m,
   PBinding (pb_label b) (pb_yield b) (pb_var b) new_e).

(** [static_assert(!candidates::contains<v>())] *)
Definition not_candidate (candidates : list string) (v : string) : outcome unit :=
  assert_ok StaticAssert (bool_decide (v ∉ candidates)).

(** [_recollapse] on statements, by overload *)
Fixpoint recollapse_stmt (candidates : list string) (m : sub_map) (s : pstmt) : outcome pstmt :=
  match s with
  | POperation n h args => Ok (POperation n (recollapse_expr m h) (recollapse_expr m <$> args))
  | PLet b body =>
      let '(remove_this_binding, new_map, newb) := recollapse_binding candidates m b in
      new_body ← recollapse_stmt candidates new_map body;
      Ok (if (remove_this_binding : bool) then new_body else PLet newb new_body)
  | PLetRemote b body =>
      let '(_, _, newb) := recollapse_binding candidates m b in
      new_body ← recollapse_stmt candidates m body;
      Ok (PLetRemote newb new_body)
  | PAssignment L R => Ok (PAssignment (recollapse_expr m L) (recollapse_expr m R))
  | PReturn R => Ok (PReturn (recollapse_expr m R))
  | PAccompanyWrite R => Ok (PAccompanyWrite (recollapse_expr m R))
  | PWriteTombstone R => Ok (PWriteTombstone (recollapse_expr m R))
  | PIncrementOccurance v | PIncrementRemoteOccurance v | PRefreshRemoteOccurance (PEVar _ v) =>
      _ ← not_candidate candidates v; Ok s
  | PRefreshRemoteOccurance _ => Err NoOverload
  | PIf c t e =>
      t' ← recollapse_stmt candidates m t; e' ← recollapse_stmt candidates m e;
      Ok (PIf (recollapse_expr m c) t' e')
  | PWhile c t name =>
      t' ← recollapse_stmt candidates m t; Ok (PWhile (recollapse_expr m c) t' name)
  | PForEach t name => t' ← recollapse_stmt candidates m t; Ok (PForEach t' name)
  | PSequence seq => seq' ← traverse (recollapse_stmt candidates m) seq; Ok (PSequence seq')
  end.

(** [mutils::without_names(names, owns)]: as for bindings, now for holders *)
Definition without_holders (names : list string) (owns : list holder_type) : list holder_type :=
  base.filter (fun h => holder_name h ∉ names) owns.

Definition recollapse_phase (p : phase) : outcome phase :=
  let names := anorm_names (ph_owned p) in
  new_ast ← recollapse_stmt names [] (ph_ast p);
  Ok (Phase (ph_label p) (ph_returns p) new_ast (ph_requirements p) (ph_provides p)
        (without_holders names (ph_owned p)) (ph_passthrough p)).

(** [recollapse(transaction<phases...>)] *)
Definition recollapse (phases : list phase) : outcome (list phase) :=
  traverse recollapse_phase phases.

End recollapse.

(** ** [relabel.hpp]

    Nodes carry the label of their phase in their class, so relabelling rebuilds
    them; in this model only bindings show a label.  The overload for bindings
    takes those of the old label only. *)

Definition relabel_binding (newl l : label) (b : pbinding) : outcome pbinding :=
  _ ← assert_ok NoOverload (bool_decide (pb_label b = l));
  Ok (PBinding newl (pb_yield b) (pb_var b) (pb_expr b)).

(** [__relabel<newl, l>] on statements, by overload *)
Fixpoint relabel_stmt (newl l : label) (s : pstmt) : outcome pstmt :=
  match s with
  | PLet b body =>
      b' ← relabel_binding newl l b; body' ← relabel_stmt newl l body; Ok (PLet b' body')
  | PLetRemote b body =>
      b' ← relabel_binding newl l b; body' ← relabel_stmt newl l body; Ok (PLetRemote b' body')
  | PIf c t e => t' ← relabel_stmt newl l t; e' ← relabel_stmt newl l e; Ok (PIf c t' e')
  | PWhile c t name => t' ← relabel_stmt newl l t; Ok (PWhile c t' name)
  | PForEach t name => t' ← relabel_stmt newl l t; Ok (PForEach t' name)
  | PSequence seq => seq' ← traverse (relabel_stmt newl l) seq; Ok (PSequence seq')
  | POperation _ _ _ | PAssignment _ _ | PReturn _ | PAccompanyWrite _ | PWriteTombstone _
  | PIncrementOccurance _ | PIncrementRemoteOccurance _ | PRefreshRemoteOccurance _ => Ok s
  end.

(** [runnable_transaction::relabel(phase)] *)
Definition relabel_phase (p : phase) : outcome phase :=
  match ph_label p with
  | LPre l =>
      ast ← relabel_stmt l (LPre l) (ph_ast p);
      Ok (Phase l (ph_returns p) ast (ph_requirements p) (ph_provides p) (ph_owned p)
            (ph_passthrough p))
  | _ => Ok p
  end.

(** [runnable_transaction::relabel(transaction<phases...>)] *)
Definition relabel (phases : list phase) : outcome (list phase) := traverse relabel_phase phases.
