(* ===== verification/RunFrames.v ===== *)
(** * What running a statement leaves alone

    Holders keep their class, expressions leave the store as it is, and reading
    [x] gives the same before and after a statement that does not [disturb] it:
    one that neither declares, assigns nor steps over [x] and, when [x] is bound
    to a remote object, touches no remote object at all (two handles may be of
    one object). *)
From S2P Require Import Prelude Labels TypedAst PhaseApi Runtime Holders SplitAst RunPhase SplitSim.

#[local] Open Scope Z_scope.

(** The variables a statement or expression may read *)
Fixpoint reads (e : pexpr) : list string :=
  match e with
  | PEVar _ v => [v]
  | PEField _ s _ => reads s
  | PEConst _ | PEGenerateTombstone => []
  | PEBinOp _ _ L R => reads L ++ reads R
  | PEIsValid _ h => reads h
  | PEOperation _ _ h args => reads h ++ concat (reads <$> args)
  end.

(** Expressions without calls: their value depends on the store alone. *)
Fixpoint pure (e : pexpr) : bool :=
  match e with
  | PEVar _ v => negb (bool_decide (v = list_stub_name))
  | PEField _ s _ => pure s
  | PEConst _ => true
  | PEBinOp _ _ L R => pure L && pure R
  | PEGenerateTombstone | PEIsValid _ _ | PEOperation _ _ _ _ => false
  end.

(** The variable an assignment is to *)
Definition assigned_name (e : pexpr) : string :=
  match e with PEVar _ v | PEField _ (PEVar _ v) _ => v | _ => ""%string end.

Section disturbs.
Variable rem : string -> bool.

(** Writing [v] may change what [x] reads. *)
Definition hits (v x : string) : bool := bool_decide (x = v) || rem x && rem v.

Fixpoint disturbs (s : pstmt) (x : string) : bool :=
  match s with
  | PLet b body | PLetRemote b body => hits (pb_var b) x || disturbs body x
  | PAssignment v _ => hits (assigned_name v) x
  | PIncrementOccurance v | PIncrementRemoteOccurance v => hits v x
  | PRefreshRemoteOccurance _ => rem x
  | PIf _ t e => disturbs t x || disturbs e x
  | PWhile _ body name => hits name x || disturbs body x
  | PForEach body _ => disturbs body x
  | PSequence seq => existsb (fun s => disturbs s x) seq
  | POperation _ _ _ | PReturn _ | PWriteTombstone _ | PAccompanyWrite _ => false
  end.
End disturbs.

(** ** The objects of a store, by type *)

Section supers.
Context `{Handles}.

(** The objects behind the handles of type [T] *)
Definition super_of (T : ty) (s : store) : option (gmap Z tholder) :=
  snd <$> List.find (fun x => bool_decide (x.1 = T)) (supers s).

Lemma super_get_of T n s : super_get T n s = default empty_tholder (super_of T s ≫= (!!) n).
Proof. unfold super_get, super_of. by destruct (List.find _ _). Qed.

Lemma has_super_map_of T s : has_super_map T s = bool_decide (is_Some (super_of T s)).
Proof.
  unfold has_super_map, super_of. induction (supers s) as [|x l IH]; [done|]. simpl.
  destruct (bool_decide (x.1 = T)); [by rewrite bool_decide_true by eauto|]. apply IH.
Qed.

Lemma super_of_set T n h s T' : super_of T' (super_set T n h s) =
  if decide (T' = T) then <[n := h]> <$> super_of T s else super_of T' s.
Proof.
  unfold super_of, super_set. cbn [supers]. induction (supers s) as [|x l IH]; [by case_decide|].
  rewrite fmap_cons. cbn [List.find].
  assert (Hx : (if decide (x.1 = T) then (x.1, <[n := h]> x.2) else x).1 = x.1) by (by destruct (decide (x.1 = T))).
  rewrite Hx. destruct (decide (x.1 = T')) as [Hd|Hd].
  - rewrite bool_decide_true by done. destruct (decide (T' = T)) as [Ht|Ht].
    + assert (Hxt : x.1 = T) by congruence. rewrite bool_decide_true by done.
      by destruct (decide (x.1 = T)).
    + assert (Hxt : x.1 <> T) by congruence.
      by destruct (decide (x.1 = T)).
  - rewrite bool_decide_false by done. rewrite IH. destruct (decide (T' = T)) as [Ht|Ht]; [|done].
    by rewrite (bool_decide_false (x.1 = T)) by congruence.
Qed.

End supers.

(** ** Kinds of holders *)

Inductive kind : Type := Versions | Plain | Remote_object (T : ty).
Definition kind_of `{Handles} (h : holder) : kind :=
  match h with HType _ => Versions | HValue _ => Plain | HRemote T _ _ => Remote_object T end.

Section frames.
Context `{Remote}.
Variable rem : string -> bool.

Definition kinds (s : run_state) : gmap string kind := kind_of <$> holders (st_store s).

(** The remote variables of a store are among [rem]. *)
Definition remotes_known (s : run_state) : Prop :=
  forall x T, kinds s !! x = Some (Remote_object T) -> rem x = true.

(** [x] reads the same in both stores. *)
Definition reads_same (s s' : run_state) (x : string) : Prop :=
  holders (st_store s') !! x = holders (st_store s) !! x /\
  (rem x = true -> forall T, super_of T (st_store s') = super_of T (st_store s)).

Definition keeps (hit : string -> bool) (s s' : run_state) : Prop :=
  kinds s' = kinds s /\ forall x, hit x = false -> reads_same s s' x.

Definition framed {A} (hit : string -> bool) (m : Run A) : Prop :=
  forall s, remotes_known s -> keeps hit s (m s).2.

Definition nothing : string -> bool := fun _ => false.

Lemma keeps_refl hit s : keeps hit s s.
Proof. split; [done|]. by intros. Qed.

Lemma keeps_trans hit s s1 s2 : keeps hit s s1 -> keeps hit s1 s2 -> keeps hit s s2.
Proof.
  intros [Hk Hx] [Hk1 Hx1]. split; [by rewrite Hk1|]. intros x Hn.
  destruct (Hx x Hn) as [Hh Hs], (Hx1 x Hn) as [Hh1 Hs1].
  split; [by rewrite Hh1|]. intros Hr T. by rewrite (Hs1 Hr), (Hs Hr).
Qed.

Lemma keeps_weaken (hit hit' : string -> bool) s s' :
  (forall x, hit' x = false -> hit x = false) -> keeps hit s s' -> keeps hit' s s'.
Proof. intros Hw [Hk Hx]. split; [done|]. auto. Qed.

Lemma remotes_kept hit s s' : keeps hit s s' -> remotes_known s -> remotes_known s'.
Proof. intros [Hk _] Hr x T. rewrite Hk. apply Hr. Qed.

Lemma same_store_keeps hit s s' : st_store s' = st_store s -> keeps hit s s'.
Proof. intros Hs. unfold keeps, kinds, reads_same. by rewrite Hs. Qed.

(** *** Computations *)

Lemma framed_weaken {A} (hit hit' : string -> bool) (m : Run A) :
  (forall x, hit' x = false -> hit x = false) -> framed hit m -> framed hit' m.
Proof. intros Hw Hm s Hs. by eapply keeps_weaken; [|apply Hm]. Qed.

Lemma framed_bind {A B} hit (m : Run A) (f : A -> Run B) :
  framed hit m -> (forall a, framed hit (f a)) -> framed hit (m ≫= f).
Proof.
  intros Hm Hf s Hs. specialize (Hm s Hs). unfold mbind, Run_bind.
  destruct (m s) as [[a|e] s1]; simpl in *; [|done].
  eapply keeps_trans; [done|]. apply Hf. by eapply remotes_kept.
Qed.

Lemma framed_same {A} hit (m : Run A) : (forall s, st_store (m s).2 = st_store s) -> framed hit m.
Proof. intros Hm s _. by apply same_store_keeps. Qed.

Lemma framed_ret {A} hit (a : A) : framed hit (mret a).
Proof. by apply framed_same. Qed.
Lemma framed_halt {A} hit e : framed hit (halt (A := A) e).
Proof. by apply framed_same. Qed.
Lemma framed_lift {A} hit (r : Res A) : framed hit (lift r).
Proof. by apply framed_same. Qed.
Lemma framed_get_store hit : framed hit get_store.
Proof. by apply framed_same. Qed.
Lemma framed_expect {A} hit e (o : option A) : framed hit (expect e o).
Proof. destruct o; by apply framed_same. Qed.
Lemma call_keeps {A} (m : RT W A) s : st_store (call m s).2 = st_store s.
Proof. unfold call. by destruct (m (st_world s)). Qed.
Lemma framed_call {A} hit (m : RT W A) : framed hit (call m).
Proof. apply framed_same, call_keeps. Qed.
Lemma framed_find hit v : framed hit (find_holder v).
Proof. apply framed_bind; [apply framed_get_store|]. intros s. apply framed_expect. Qed.
Lemma framed_handle_at hit hs pos : framed hit (handle_at hs pos).
Proof. unfold handle_at. destruct (_ && _); [apply framed_expect|apply framed_halt]. Qed.
Lemma framed_as_handle hit v : framed hit (as_handle v).
Proof. destruct v; by apply framed_same. Qed.
Lemma framed_if {A} hit (b : bool) (m m' : Run A) :
  framed hit m -> framed hit m' -> framed hit (if b then m else m').
Proof. by destruct b. Qed.
Lemma framed_fresh_list hit : framed hit fresh_list.
Proof. by apply framed_same. Qed.
Lemma framed_push_back hit l x : framed hit (list_push_back l x).
Proof. apply framed_same. intros s. unfold list_push_back. by destruct (_ !! l). Qed.
End frames.

Create HintDb framed.
#[export] Hint Resolve framed_ret framed_halt framed_lift framed_get_store framed_expect
  framed_call framed_find framed_handle_at framed_as_handle framed_if framed_fresh_list
  framed_push_back : framed.

(** Frame a computation built from framed steps. *)
Ltac framed_steps := repeat match goal with
  | |- framed _ _ (_ ≫= _) => apply framed_bind; [|intros ?]
  | |- framed _ _ (if ?b then _ else _) => first [apply framed_if | destruct b]
  | |- framed _ _ (match ?x with _ => _ end) => destruct x
  | |- framed _ _ _ => solve [eauto with framed]
  end.

(** ** Statements *)

Section statements.
Context `{Remote}.
Variable rem : string -> bool.
#[local] Abbreviation keeps := (keeps rem).
#[local] Abbreviation framed := (framed rem).
#[local] Abbreviation hits := (hits rem).
#[local] Abbreviation disturbs := (disturbs rem).

Lemma keeps_holder v h h' s : holders (st_store s) !! v = Some h -> kind_of h' = kind_of h ->
  keeps (hits v) s (with_holder v h' s).
Proof.
  intros Hv Hk. split.
  - unfold kinds, with_holder, set_holder. cbn. rewrite fmap_insert, Hk, <- fmap_insert.
    by rewrite insert_id.
  - intros x Hx. unfold RunFrames.hits in Hx. split; [|done].
    apply with_holder_ne. intros ->. by rewrite bool_decide_true in Hx.
Qed.

(** A change of the remote objects *)
Lemma keeps_supers hit T n th s : (forall x, hit x = false -> rem x = false) ->
  keeps hit s (RunState (super_set T n th (st_store s)) (st_lists s) (st_world s)).
Proof. intros Hr. split; [done|]. intros x Hx. split; [done|]. intros Hx'. by rewrite Hr in Hx'. Qed.

Lemma hits_remote v x : rem v = true -> hits v x = false -> rem x = false.
Proof. unfold RunFrames.hits. intros ->. by destruct (rem x); rewrite ?orb_true_r. Qed.

Lemma keeps_remote v T n th s : rem v = true ->
  keeps (hits v) s (RunState (super_set T n th (st_store s)) (st_lists s) (st_world s)).
Proof. intros Hr. apply keeps_supers. intros x. by apply hits_remote. Qed.

Lemma keeps_remotes s T v hs p : remotes_known rem s ->
  holders (st_store s) !! v = Some (HRemote T hs p) -> rem v = true.
Proof.
  intros Hr Hv. apply (Hr v T). unfold kinds. by rewrite lookup_fmap, Hv.
Qed.

(** Frame an operation on the holder of [v]: [f] is what it does with a holder. *)
Lemma framed_on_holder v (f : holder -> store -> Run unit) :
  (forall h s, remotes_known rem s -> holders (st_store s) !! v = Some h ->
    keeps (hits v) s (f h (st_store s) s).2) ->
  framed (hits v) (h ← find_holder v; s ← get_store; f h s).
Proof.
  intros Hf s Hs. unfold find_holder, get_store, expect, mbind, Run_bind. cbn.
  destruct (holders (st_store s) !! v) as [h|] eqn:Hv; [|apply keeps_refl].
  by apply Hf.
Qed.

Lemma framed_push v x : framed (hits v) (holder_push v x).
Proof.
  apply framed_on_holder. intros h s Hs Hv. destruct h as [h|[y|]|T hs p].
  - by eapply (keeps_holder v).
  - by eapply (keeps_holder v).
  - apply keeps_refl.
  - pose proof (keeps_remotes s T v hs p Hs Hv) as Hr. unfold mbind, Run_bind, handle_at, expect.
    destruct (_ && _); [|apply keeps_refl]. destruct (hs !! Z.to_nat p); [|apply keeps_refl]. cbn.
    eapply keeps_trans; [by apply (keeps_remote v)|].
    destruct (last hs); [|apply keeps_refl]. apply same_store_keeps, call_keeps.
Qed.

Lemma framed_bind_var tracked v x : framed (hits v) (holder_bind tracked v x).
Proof.
  apply framed_on_holder. intros h s Hs Hv. destruct h as [h|o|T hs p].
  - unfold th_bind. destruct (th_in_range _); [|apply keeps_refl]. by eapply (keeps_holder v).
  - by eapply (keeps_holder v).
  - pose proof (keeps_remotes s T v hs p Hs Hv) as Hr. destruct x; try apply keeps_refl.
    unfold as_handle, mbind, Run_bind, set_store, get_store. cbn.
    eapply keeps_trans; [by eapply (keeps_holder v _ (HRemote T (hs ++ [_]) (p + 1)))|].
    unfold handle_at, expect. destruct (_ && _); [|apply keeps_refl].
    destruct (_ !! Z.to_nat _) as [hndl|]; [|apply keeps_refl]. cbn.
    destruct (call (rm_get hndl) _) as [r s1] eqn:Hc.
    apply (f_equal (fun x => st_store x.2)) in Hc. rewrite call_keeps in Hc. cbn in Hc.
    destruct r as [target|e]; [|by apply same_store_keeps].
    eapply keeps_trans; [by apply same_store_keeps|]. unfold th_bind.
    destruct (th_in_range _); [|apply keeps_refl]. cbn.
    eapply keeps_trans; [by apply (keeps_remote v)|].
    apply same_store_keeps. destruct (tracked : bool); [apply call_keeps|done].
Qed.

Lemma framed_increment_super v T hs p s : rem v = true ->
  keeps (hits v) s (increment_super T hs p s).2.
Proof.
  intros Hr. unfold increment_super, handle_at, expect, mbind, Run_bind.
  destruct (_ && _); [|apply keeps_refl]. destruct (hs !! Z.to_nat p); [|apply keeps_refl].
  by apply (keeps_remote v).
Qed.

Lemma framed_increment v : framed (hits v) (holder_increment v).
Proof.
  apply framed_on_holder. intros h s Hs Hv. destruct h as [h|o|T hs p].
  - by eapply (keeps_holder v).
  - apply keeps_refl.
  - destruct (0 <=? p); [|apply keeps_refl].
    by eapply framed_increment_super, keeps_remotes.
Qed.

Lemma framed_increment_remote v : framed (hits v) (holder_increment_remote v).
Proof.
  apply framed_on_holder. intros h s Hs Hv. destruct h as [h|o|T hs p]; [apply keeps_refl..|].
  pose proof (keeps_remotes s T v hs p Hs Hv) as Hr. unfold mbind, Run_bind, set_store. cbn.
  eapply keeps_trans; [by eapply (keeps_holder v _ (HRemote T hs (p + 1)))|].
  unfold handle_at, expect.
  destruct (_ && _); [|apply keeps_refl]. destruct (hs !! _); [|apply keeps_refl]. cbn.
  by apply framed_increment_super.
Qed.

Lemma framed_get hit v : framed hit (holder_get v).
Proof. unfold holder_get. framed_steps. Qed.

Lemma framed_get_remote hit v : framed hit (holder_get_remote v).
Proof. unfold holder_get_remote. framed_steps. Qed.

Lemma framed_var hit v : framed hit (run_var v).
Proof. unfold run_var. repeat case_decide; framed_steps. apply framed_get. Qed.

Lemma framed_mapM {A B} hit (f : A -> Run B) l : Forall (fun a => framed hit (f a)) l ->
  framed hit (mapM_run f l).
Proof. induction 1; cbn [mapM_run]; framed_steps; auto. Qed.

Lemma framed_operation hit n h args : framed hit args -> framed hit (run_operation n h args).
Proof. intros Ha. unfold run_operation. repeat case_decide; framed_steps; auto. Qed.

Lemma framed_expr hit e : framed hit (run_expr e).
Proof.
  induction e as [y v|y s f IH|i|y op L R IHL IHR| |y h IH|y n h args IHh IHa] using pexpr_ind';
    cbn [run_expr]; repeat case_decide; framed_steps; auto.
  - apply framed_var.
  - apply framed_operation, framed_mapM, IHa.
Qed.

Lemma framed_tombstone hit v : framed hit (tombstone_name v).
Proof. unfold tombstone_name. framed_steps. apply framed_var. Qed.

Lemma framed_while hit n cond body name i : framed hit cond -> framed hit body ->
  (forall x, hit x = false -> hits name x = false) -> framed hit (while_loop n cond body name i).
Proof.
  intros Hc Hb Hn. revert i. induction n as [|n IH]; intros i; cbn [while_loop]; framed_steps; auto.
  eapply framed_weaken; [apply Hn|apply framed_push].
Qed.

Lemma framed_repeat hit n body : framed hit body -> framed hit (repeat_run n body).
Proof. intros Hb. induction n; cbn [repeat_run]; framed_steps; auto. Qed.

Lemma framed_refresh T v : framed rem
  (st ← get_store;
   if has_super_map T st then
     x ← run_var v; hndl ← as_handle x; target ← call (rm_get hndl); st ← get_store;
     set_store (super_set T (handle_name hndl)
       (th_push (super_get T (handle_name hndl) st) target) st)
   else mret tt).
Proof.
  apply framed_bind; [apply framed_get_store|intros st]. apply framed_if; [|apply framed_ret].
  apply framed_bind; [apply framed_var|intros x].
  apply framed_bind; [apply framed_as_handle|intros hndl].
  apply framed_bind; [apply framed_call|intros target].
  intros s _. by apply keeps_supers.
Qed.

Variables (tracked : bool) (fuel : nat).
#[local] Abbreviation run_stmt := (run_stmt tracked fuel).

Ltac disturbs_weaken :=
  let x := fresh "x" in intros x; cbn [RunFrames.disturbs existsb assigned_name];
  rewrite ?orb_false_iff; naive_solver.

(** A statement keeps what it does not disturb. *)
Lemma run_stmt_framed p : framed (disturbs p) (run_stmt p).
Proof.
  induction p as [b p IH|b p IH|n h args|v e|e|e|e|v|v|h|c t e IHt IHe|c p name IH|p name IH|ss IH]
    using pstmt_ind'; cbn [RunPhase.run_stmt].
  10: { destruct h; try apply framed_halt. destruct y; try apply framed_halt. apply framed_refresh. }
  all: framed_steps; eauto using framed_expr, framed_var, framed_get, framed_get_remote,
    framed_tombstone, framed_operation, framed_mapM.
  all: try (eapply framed_weaken;
    [|apply framed_push || apply framed_bind_var || apply framed_increment
      || apply framed_increment_remote || apply IH || apply IHt || apply IHe];
    by disturbs_weaken).
  - apply framed_operation, framed_mapM, Forall_forall. intros x _. apply framed_expr.
  - apply framed_while; [framed_steps; apply framed_expr| |by disturbs_weaken].
    eapply framed_weaken; [|apply IH]. by disturbs_weaken.
  - by apply framed_repeat.
  - assert (Hs : forall ss', Forall (fun p => framed (disturbs p) (run_stmt p)) ss' ->
      framed (fun x => existsb (fun s => disturbs s x) ss')
        ((fix run_seq (seq : list pstmt) : Run unit :=
          match seq with [] => mret tt | s1 :: seq => run_stmt s1;; run_seq seq end) ss')).
    { induction 1 as [|s1 ss' H1 _ IHss]; [apply framed_ret|].
      apply framed_bind; [|intros _]; (eapply framed_weaken; [|apply H1 || apply IHss]);
        by disturbs_weaken. }
    by apply Hs.
Qed.
End statements.

(** ** Pure expressions *)

Section pure.
Context `{Remote}.

(** What stops a pure expression *)
Definition soft (e : stop) : bool :=
  match e with
  | Throws AssertFailed | Throws SignedOverflow | IllFormed => true
  | _ => false
  end.

Definition soft_res {A} (r : A + stop) : bool := match r with inl _ => false | inr e => soft e end.

(** A computation that depends on what [xs] read only, changes nothing, and
    either yields a value or stops softly *)
Definition reading {A} (rem : string -> bool) (xs : list string) (m : Run A) : Prop :=
  forall s, remotes_known rem s -> exists r, m s = (r, s) /\
    (soft_res r = true \/ exists a, r = inl a) /\
    forall s', (forall x, x ∈ xs -> reads_same rem s s' x) -> m s' = (r, s').

Lemma reading_bind {A B} rem xs ys (m : Run A) (f : A -> Run B) :
  reading rem xs m -> (forall a, reading rem ys (f a)) -> reading rem (xs ++ ys) (m ≫= f).
Proof.
  intros Hm Hf s Hs. destruct (Hm s Hs) as (r & Hr & Hsoft & Hsame).
  destruct r as [a|e].
  - destruct (Hf a s Hs) as (r & Hr' & Hsoft' & Hsame'). exists r.
    split; [by rewrite (run_bind _ _ _ _ _ Hr)|]. split; [done|]. intros s' Hx.
    rewrite (run_bind _ _ s' a s'); [apply Hsame'|apply Hsame]; set_solver.
  - exists (inr e). split; [by rewrite (run_bind_stop _ _ _ _ _ Hr)|].
    split; [left; by destruct Hsoft as [|[? ?]]|]. intros s' Hx.
    apply run_bind_stop. apply Hsame. set_solver.
Qed.

Lemma reading_ret {A} rem xs (a : A) : reading rem xs (mret a).
Proof. intros s _. exists (inl a). eauto. Qed.

Lemma reading_if {A} rem xs (b : bool) (m m' : Run A) :
  reading rem xs m -> reading rem xs m' -> reading rem xs (if b then m else m').
Proof. by destruct b. Qed.

Lemma reading_lift {A} rem xs (r : Res A) : (forall e, r = inr e -> soft e = true) ->
  reading rem xs (lift r).
Proof. intros Hr s _. exists r. destruct r; eauto 10. Qed.

Lemma reading_weaken {A} rem xs ys (m : Run A) : xs ⊆ ys -> reading rem xs m -> reading rem ys m.
Proof.
  intros Hxy Hm s Hs. destruct (Hm s Hs) as (r & Hr & Hsoft & Hsame). exists r.
  split_and!; [done..|]. intros s' Hx. apply Hsame. auto.
Qed.

Lemma binop_soft op a b e : binop op a b = inr e -> soft e = true.
Proof.
  unfold binop, arith, mbind, Res_bind, promote. destruct a, b; try by intros [= <-].
  all: repeat case_decide; repeat case_match; intros [=]; by subst.
Qed.

Lemma truth_soft v e : truth v = inr e -> soft e = true.
Proof. unfold truth, mbind, Res_bind, promote. destruct v; intros [=]; by subst. Qed.

Lemma get_field_soft v f e : get_field v f = inr e -> soft e = true.
Proof. destruct v; simpl; try by intros [= <-]. case_match; intros [=]; by subst. Qed.

Lemma reading_get rem v : reading rem [v] (holder_get v).
Proof.
  intros s Hs. exists (holder_get v s).1.
  assert (Hd : (holder_get v s).2 = s /\ (soft_res (holder_get v s).1 = true \/
      exists a, (holder_get v s).1 = inl a)).
  { unfold holder_get, find_holder, handle_at, expect, get_store, mbind, Run_bind. cbn.
    destruct (holders _ !! v) as [[h|[o|]|T hs p]|]; cbn; try naive_solver.
    - destruct (th_get h); cbn; naive_solver.
    - destruct (_ && _); [|cbn; naive_solver].
      destruct (hs !! _); cbn; [destruct (th_get _)|]; cbn; naive_solver. }
  destruct Hd as [Hs2 Hsoft]. split_and!; [rewrite (surjective_pairing (holder_get v s)) at 1; by rewrite Hs2|done|].
  intros s' Hx. destruct (Hx v) as [Hh Hsup]; [by apply list_elem_of_singleton|].
  unfold holder_get, find_holder, handle_at, expect, get_store, mbind, Run_bind. cbn.
  rewrite Hh. destruct (holders (st_store s) !! v) as [[h|[o|]|T hs p]|] eqn:Hv; try done.
  - cbn. by destruct (th_get h).
  - assert (Hr : rem v = true) by (apply (Hs v T); unfold kinds; by rewrite lookup_fmap, Hv).
    specialize (Hsup Hr). cbn. destruct (_ && _); [|done]. destruct (hs !! _) as [hndl|]; [|done]. cbn.
    rewrite !super_get_of, Hsup. by destruct (th_get _).
Qed.

(** The value of a pure expression depends on what its variables read. *)
Lemma pure_reading rem e : pure e = true -> reading rem (reads e) (run_expr e).
Proof.
  induction e as [y v|y s f IH|i|y op L R IHL IHR| |y h IH|y n h args IHh IHa] using pexpr_ind';
    cbn [pure run_expr reads]; try done.
  - intros Hv. apply negb_true_iff, bool_decide_eq_false in Hv. unfold run_var.
    repeat case_decide; [apply reading_ret..|done|apply reading_get].
  - intros Hp. rewrite <- (app_nil_r (reads s)). apply reading_bind; [by apply IH|].
    intros x. apply reading_lift. intros e. apply get_field_soft.
  - intros _. apply reading_ret.
  - intros [HL HR]%andb_true_iff. specialize (IHL HL). specialize (IHR HR).
    assert (Ht : forall x, reading rem [] (lift (truth x)))
      by (intros x; apply reading_lift, truth_soft).
    assert (HbR : reading rem (reads R) (r ← run_expr R; br ← lift (truth r); mret (VBool br))).
    { rewrite <- (app_nil_r (reads R)). apply reading_bind; [done|]. intros x.
      apply (reading_bind rem [] []); [apply Ht|]. intros b. apply reading_ret. }
    repeat case_decide; apply reading_bind; try done; intros x.
    + apply (reading_bind rem [] (reads R)); [apply Ht|]. intros b.
      apply reading_if; [done|apply reading_ret].
    + apply (reading_bind rem [] (reads R)); [apply Ht|]. intros b.
      apply reading_if; [apply reading_ret|done].
    + rewrite <- (app_nil_r (reads R)). apply reading_bind; [done|]. intros z.
      apply reading_lift. intros e. apply binop_soft.
Qed.
End pure.

