(* ===== verification/RecollapseRuns.v ===== *)
(** * Runs on a store without the inlined variables

    The relation between the store of a phase and that of its recollapsed form,
    the computations that do the same on both, and the values of the inlined
    variables. *)
From S2P Require Import Prelude TypeLists Labels TypedAst SplitAst PhaseApi Split Runtime Holders.
From S2P Require Import RunPhase SplitSim RunFrames Recollapse.

#[local] Open Scope Z_scope.

(** ** Stores without the inlined variables *)

Section erased.
Context `{Remote}.
(** The names of the inlined variables *)
Variable C : list string.

Record erased (s s' : run_state) : Prop := {
  er_lists : st_lists s' = st_lists s;
  er_world : st_world s' = st_world s;
  er_holders x : holders (st_store s') !! x =
    if decide (x ∈ C) then None else holders (st_store s) !! x;
  er_supers T : super_of T (st_store s') = super_of T (st_store s) }.

Lemma erased_same_store s s' ls w : erased s s' ->
  erased (RunState (st_store s) ls w) (RunState (st_store s') ls w).
Proof. intros He. split; try done; apply He. Qed.

Lemma erased_holder v h s s' : v ∉ C -> erased s s' ->
  erased (with_holder v h s) (with_holder v h s').
Proof.
  intros Hv He. split; try apply He. intros x. unfold with_holder, set_holder. cbn.
  destruct (decide (x = v)) as [->|Hne].
  - rewrite !lookup_insert_eq. by rewrite decide_False.
  - rewrite !lookup_insert_ne by done. apply He.
Qed.

Lemma erased_super T n h s s' : erased s s' ->
  erased (RunState (super_set T n h (st_store s)) (st_lists s) (st_world s))
    (RunState (super_set T n h (st_store s')) (st_lists s') (st_world s')).
Proof.
  intros He. split; try apply He. intros T'. cbn [st_store]. rewrite !super_of_set.
  case_decide; by rewrite (er_supers _ _ He).
Qed.

Lemma erased_super_get T n s s' : erased s s' ->
  super_get T n (st_store s') = super_get T n (st_store s).
Proof. intros He. by rewrite !super_get_of, (er_supers _ _ He). Qed.

Lemma erased_lookup v s s' : v ∉ C -> erased s s' ->
  holders (st_store s') !! v = holders (st_store s) !! v.
Proof. intros Hv He. rewrite (er_holders _ _ He). by rewrite decide_False. Qed.

(** ** Runs on both stores *)

(** [m'] ends on the second store as [m] does on the first. *)
Definition same_run {A} (m m' : Run A) (s s' : run_state) : Prop :=
  exists s1', m' s' = ((m s).1, s1') /\ erased (m s).2 s1'.

(** The same, unless [m] stops softly *)
Definition follows {A} (m m' : Run A) (s s' : run_state) : Prop :=
  soft_res (m s).1 = true \/ same_run m m' s s'.

Lemma same_follows {A} (m m' : Run A) s s' : same_run m m' s s' -> follows m m' s s'.
Proof. by right. Qed.

Lemma same_run_bind {A B} (m m' : Run A) (f f' : A -> Run B) s s' : same_run m m' s s' ->
  (forall a s1 s1', m s = (inl a, s1) -> erased s1 s1' -> same_run (f a) (f' a) s1 s1') ->
  same_run (m ≫= f) (m' ≫= f') s s'.
Proof.
  intros (s1' & Hm & He) Hf. unfold same_run, mbind, Run_bind. rewrite Hm.
  destruct (m s) as [[a|e] s1] eqn:Hs; cbn in *; [by apply Hf|eauto].
Qed.

Lemma follows_bind {A B} (m m' : Run A) (f f' : A -> Run B) s s' : follows m m' s s' ->
  (forall a s1 s1', m s = (inl a, s1) -> erased s1 s1' -> follows (f a) (f' a) s1 s1') ->
  follows (m ≫= f) (m' ≫= f') s s'.
Proof.
  intros [Hsoft|(s1' & Hm & He)] Hf.
  - left. unfold mbind, Run_bind. by destruct (m s) as [[a|e] s1].
  - unfold follows, same_run, mbind, Run_bind. rewrite Hm.
    destruct (m s) as [[a|e] s1] eqn:Hs; cbn in *; [by apply Hf|eauto].
Qed.

Definition agree {A} (m m' : Run A) : Prop := forall s s', erased s s' -> same_run m m' s s'.

Lemma agree_run_bind {A B} (m m' : Run A) (f f' : A -> Run B) : agree m m' ->
  (forall a, agree (f a) (f' a)) -> agree (m ≫= f) (m' ≫= f').
Proof. intros Hm Hf s s' He. apply same_run_bind; [by apply Hm|]. intros. by apply Hf. Qed.

Lemma agree_ret {A} (a : A) : agree (mret a) (mret a).
Proof. intros s s' He. by exists s'. Qed.
Lemma agree_halt {A} e : agree (halt (A := A) e) (halt e).
Proof. intros s s' He. by exists s'. Qed.
Lemma agree_lift {A} (r : Res A) : agree (lift r) (lift r).
Proof. intros s s' He. by exists s'. Qed.
Lemma agree_expect {A} e (o : option A) : agree (expect e o) (expect e o).
Proof. destruct o; [apply agree_ret|apply agree_halt]. Qed.
Lemma agree_call {A} (m : RT W A) : agree (call m) (call m).
Proof.
  intros s s' He. unfold same_run, call. rewrite (er_world _ _ He), (er_lists _ _ He).
  destruct (m (st_world s)) as [[a|e] w]; cbn; eexists; (split; [done|by apply erased_same_store]).
Qed.
Lemma agree_handle_at hs pos : agree (handle_at hs pos) (handle_at hs pos).
Proof. unfold handle_at. destruct (_ && _); [apply agree_expect|apply agree_halt]. Qed.
Lemma agree_as_handle v : agree (as_handle v) (as_handle v).
Proof. destruct v; try apply agree_halt. apply agree_ret. Qed.
Lemma agree_if {A} (b : bool) (m m' n n' : Run A) :
  agree m m' -> agree n n' -> agree (if b then m else n) (if b then m' else n').
Proof. by destruct b. Qed.
Lemma agree_fresh_list : agree fresh_list fresh_list.
Proof.
  intros s s' He. unfold same_run, fresh_list. rewrite (er_lists _ _ He), (er_world _ _ He).
  eexists. split; [done|by apply erased_same_store].
Qed.
Lemma agree_push_back l x : agree (list_push_back l x) (list_push_back l x).
Proof.
  intros s s' He. unfold same_run, list_push_back. rewrite (er_lists _ _ He), (er_world _ _ He).
  destruct (_ !! l); eexists; (split; [done|]); [by apply erased_same_store|done].
Qed.
Lemma agree_find v : v ∉ C -> agree (find_holder v) (find_holder v).
Proof.
  intros Hv s s' He. unfold same_run, find_holder, mbind, Run_bind. cbn.
  rewrite (erased_lookup v s s' Hv He). destruct (_ !! v); cbn; eauto.
Qed.
End erased.

Create HintDb agree.
#[export] Hint Resolve agree_ret agree_halt agree_lift agree_expect agree_call agree_handle_at
  agree_as_handle agree_if agree_fresh_list agree_push_back agree_find : agree.

Ltac agree_steps := repeat match goal with
  | |- agree _ (_ ≫= _) (_ ≫= _) => apply agree_run_bind; [|intros ?]
  | |- agree _ (if ?b then _ else _) _ => first [apply agree_if | destruct b]
  | |- agree _ (match ?x with _ => _ end) _ => destruct x
  | |- agree _ _ _ => solve [eauto with agree]
  end.

(** ** Operations on the other variables *)

Section others.
Context `{Remote}.
Variable C : list string.
#[local] Abbreviation agree := (agree C).
#[local] Abbreviation erased := (erased C).
#[local] Abbreviation same_run := (same_run C).

Lemma agree_on_holder v (f : holder -> store -> Run unit) : v ∉ C ->
  (forall h s s', erased s s' -> holders (st_store s) !! v = Some h ->
    same_run (f h (st_store s)) (f h (st_store s')) s s') ->
  agree (h ← find_holder v; s ← get_store; f h s) (h ← find_holder v; s ← get_store; f h s).
Proof.
  intros Hv Hf s s' He. unfold RecollapseRuns.same_run.
  destruct (holders (st_store s) !! v) as [h|] eqn:Hh.
  - assert (Hh' : holders (st_store s') !! v = Some h) by by rewrite (erased_lookup C v s s').
    rewrite !(yields_bind _ _ _ _ (find_holder_some _ _ _ Hh)).
    rewrite (yields_bind _ _ _ _ (find_holder_some _ _ _ Hh')). by apply Hf.
  - assert (Hh' : holders (st_store s') !! v = None) by by rewrite (erased_lookup C v s s').
    exists s'. unfold find_holder, get_store, expect, mbind, Run_bind. cbn. by rewrite Hh, Hh'.
Qed.

Lemma same_set_holder v h s s' : v ∉ C -> erased s s' ->
  same_run (set_store (set_holder v h (st_store s))) (set_store (set_holder v h (st_store s'))) s s'.
Proof. intros Hv He. eexists. split; [done|]. by apply erased_holder. Qed.

Lemma same_set_super T n h s s' : erased s s' ->
  same_run (set_store (super_set T n h (st_store s))) (set_store (super_set T n h (st_store s'))) s s'.
Proof. intros He. eexists. split; [done|]. by apply erased_super. Qed.

Lemma same_ret {A} (a : A) s s' : erased s s' -> same_run (mret a) (mret a) s s'.
Proof. apply agree_ret. Qed.
Lemma same_halt {A} e s s' : erased s s' -> same_run (halt (A := A) e) (halt e) s s'.
Proof. apply agree_halt. Qed.

(** [handle_at] yields a handle or stops. *)
Lemma handle_at_cases hs pos : (exists h, handle_at hs pos = mret h) \/
  handle_at hs pos = halt (Throws AssertFailed).
Proof.
  unfold handle_at, expect. destruct (_ && _); [|by right].
  destruct (hs !! _); [left; eauto|by right].
Qed.

Lemma expect_cases {A} e (o : option A) : (exists a, o = Some a /\ expect e o = mret a) \/
  expect e o = halt e.
Proof. destruct o; [left; eauto|by right]. Qed.

Lemma same_run_value {A B} (a : A) (m : Run A) (f f' : A -> Run B) s s' : m = mret a ->
  same_run (f a) (f' a) s s' -> same_run (m ≫= f) (m ≫= f') s s'.
Proof. by intros ->. Qed.

Lemma same_run_get_store {B} (f f' : store -> Run B) s s' :
  same_run (f (st_store s)) (f' (st_store s')) s s' ->
  same_run (get_store ≫= f) (get_store ≫= f') s s'.
Proof. done. Qed.

(** Changing the object behind a handle *)
Lemma same_super T n f s s' : erased s s' ->
  same_run (set_store (super_set T n (f (super_get T n (st_store s))) (st_store s)))
    (set_store (super_set T n (f (super_get T n (st_store s'))) (st_store s'))) s s'.
Proof. intros He. rewrite (erased_super_get C T n s s' He). by apply same_set_super. Qed.

Lemma agree_push v x : v ∉ C -> agree (holder_push v x) (holder_push v x).
Proof.
  intros Hv. apply agree_on_holder; [done|]. intros h s s' He Hh.
  destruct h as [h|[y|]|T hs p]; [by apply same_set_holder..|by apply same_halt|].
  destruct (handle_at_cases hs p) as [(hndl & ->)| ->]; [|by apply same_halt].
  change (same_run
    (set_store (super_set T (handle_name hndl) (th_push (super_get T (handle_name hndl) (st_store s)) x) (st_store s));;
     back ← expect (Throws AssertFailed) (last hs); call (rm_put back x))
    (set_store (super_set T (handle_name hndl) (th_push (super_get T (handle_name hndl) (st_store s')) x) (st_store s'));;
     back ← expect (Throws AssertFailed) (last hs); call (rm_put back x)) s s').
  apply same_run_bind; [by apply (same_super _ _ (fun h => th_push h x))|].
  intros _ s1 s1' _ He1. apply agree_run_bind; [apply agree_expect|intros; apply agree_call|done].
Qed.

Lemma same_increment_super T hs p s s' : erased s s' ->
  same_run (increment_super T hs p) (increment_super T hs p) s s'.
Proof.
  intros He. unfold increment_super.
  destruct (handle_at_cases hs p) as [(hndl & ->)| ->]; [|by apply same_halt].
  by apply (same_super T (handle_name hndl) th_increment).
Qed.

Lemma agree_increment v : v ∉ C -> agree (holder_increment v) (holder_increment v).
Proof.
  intros Hv. apply agree_on_holder; [done|]. intros h s s' He Hh.
  destruct h as [h|o|T hs p]; [by apply same_set_holder|by apply same_halt|].
  destruct (0 <=? p); [by apply same_increment_super|by apply same_ret].
Qed.

Lemma agree_increment_remote v : v ∉ C ->
  agree (holder_increment_remote v) (holder_increment_remote v).
Proof.
  intros Hv. apply agree_on_holder; [done|]. intros h s s' He Hh.
  destruct h as [h|o|T hs p]; [by apply same_halt..|].
  apply same_run_bind; [by apply same_set_holder|]. intros _ s1 s1' _ He1.
  destruct (handle_at_cases hs (p + 1)) as [(hndl & ->)| ->]; [|by apply same_halt].
  by apply same_increment_super.
Qed.

Lemma agree_bind_var tracked v x : v ∉ C -> agree (holder_bind tracked v x) (holder_bind tracked v x).
Proof.
  intros Hv. apply agree_on_holder; [done|]. intros h s s' He Hh. destruct h as [h|o|T hs p].
  - destruct (expect_cases (Throws AssertFailed) (th_bind h x)) as [(h' & _ & ->)| ->];
      [by apply same_set_holder|by apply same_halt].
  - by apply same_set_holder.
  - destruct x as [| | | |t|]; try by apply same_halt.
    apply (same_run_value t); [done|].
    apply same_run_bind; [by apply same_set_holder|]. intros _ s1 s1' _ He1.
    apply same_run_bind; [by apply agree_handle_at|]. intros hndl s2 s2' _ He2.
    apply same_run_bind; [by apply agree_call|]. intros target s3 s3' _ He3.
    apply same_run_get_store. rewrite (erased_super_get C T _ s3 s3' He3).
    destruct (expect_cases (Throws AssertFailed) (th_bind (super_get T (handle_name hndl) (st_store s3))
      target)) as [(h' & _ & Heq)|Heq]; [|rewrite Heq; by apply same_halt].
    apply (same_run_value h'); [done|].
    apply same_run_bind; [by apply same_set_super|]. intros _ s4 s4' _ He4.
    apply agree_if; [apply agree_call|apply agree_ret|done].
Qed.

Lemma agree_get v : v ∉ C -> agree (holder_get v) (holder_get v).
Proof.
  intros Hv. apply agree_run_bind; [by apply agree_find|]. intros [h|o|T hs p].
  - apply agree_expect.
  - apply agree_expect.
  - apply agree_run_bind; [apply agree_handle_at|]. intros hndl s s' He.
    apply same_run_get_store. rewrite (erased_super_get C T _ s s' He). by apply agree_expect.
Qed.

Lemma agree_get_remote v : v ∉ C -> agree (holder_get_remote v) (holder_get_remote v).
Proof. intros Hv. unfold holder_get_remote. agree_steps. Qed.

Lemma agree_var v : v ∉ C -> agree (run_var v) (run_var v).
Proof. intros Hv. unfold run_var. repeat case_decide; agree_steps. by apply agree_get. Qed.

Lemma agree_tombstone v : v ∉ C -> agree (tombstone_name v) (tombstone_name v).
Proof. intros Hv. unfold tombstone_name. agree_steps. by apply agree_var. Qed.

Lemma agree_refresh T x : agree
  (hndl ← as_handle x; target ← call (rm_get hndl); st ← get_store;
   set_store (super_set T (handle_name hndl)
     (th_push (super_get T (handle_name hndl) st) target) st))
  (hndl ← as_handle x; target ← call (rm_get hndl); st ← get_store;
   set_store (super_set T (handle_name hndl)
     (th_push (super_get T (handle_name hndl) st) target) st)).
Proof.
  apply agree_run_bind; [apply agree_as_handle|]. intros hndl.
  apply agree_run_bind; [apply agree_call|]. intros target s s' He.
  apply same_run_get_store. by apply (same_super T _ (fun h => th_push h target)).
Qed.

Lemma agree_mapM {A B} (f f' : A -> Run B) l : Forall (fun a => agree (f a) (f' a)) l ->
  agree (mapM_run f l) (mapM_run f' l).
Proof. induction 1; cbn [mapM_run]; agree_steps; auto. Qed.
End others.

(** ** The values of inlined variables *)

Section inlined.
Context `{TypeListLaws} `{Remote}.
Variables (rem : string -> bool) (C : list string).
Hypothesis C_anorm : forall v, v ∈ C -> begins_with_anorm v = true.
#[local] Abbreviation agree := (agree C).
#[local] Abbreviation erased := (erased C).
#[local] Abbreviation same_run := (same_run C).
#[local] Abbreviation framed := (framed rem).

(** In [s] every variable of [m] has the value of the expression that is inlined
    for it. *)
Record fine (m : sub_map) (s : run_state) : Prop := {
  fi_remotes : remotes_known rem s;
  fi_plain v k : v ∈ C -> kinds s !! v = Some k -> k = Plain;
  fi_live v e : (v, e) ∈ m -> v ∈ C /\ pure e = true /\ (forall x, x ∈ reads e -> x ∉ C) /\
    exists y, holders (st_store s) !! v = Some (HValue (Some y)) /\ run_expr e s = (inl y, s) }.

Lemma fine_keeps m m' hit s s' : fine m s -> keeps rem hit s s' ->
  (forall v e, (v, e) ∈ m' -> (v, e) ∈ m /\ hit v = false /\ forall x, x ∈ reads e -> hit x = false) ->
  fine m' s'.
Proof.
  intros Hf Hk Hm. split.
  - eapply remotes_kept; [done|apply Hf].
  - intros v k Hv. rewrite (proj1 Hk). by apply (fi_plain _ _ Hf).
  - intros v e (Hin & Hv & He)%Hm. destruct (fi_live _ _ Hf v e Hin) as (HC & Hp & Hx & y & Hy & Hr).
    split_and!; [done..|]. exists y. destruct Hk as [_ Hk]. destruct (Hk v Hv) as [Hvh _].
    split; [by rewrite Hvh|].
    destruct (pure_reading rem e Hp s (fi_remotes _ _ Hf)) as (r & Hr' & _ & Hsame).
    rewrite Hr in Hr'. injection Hr' as <-. apply Hsame. intros x Hin'. by apply Hk, He.
Qed.

Lemma fine_sub m m' s : (forall en, en ∈ m' -> en ∈ m) -> fine m s -> fine m' s.
Proof.
  intros Hm Hf. eapply (fine_keeps m m' nothing); [done|apply keeps_refl|].
  intros v e Hin. split_and!; [by apply Hm|done|done].
Qed.

Lemma fine_quiet {A} m s (n : Run A) a s1 : framed nothing n -> n s = (a, s1) -> fine m s -> fine m s1.
Proof.
  intros Hn Hs Hf. eapply (fine_keeps m m nothing); [done| |done].
  specialize (Hn s (fi_remotes _ _ Hf)). by rewrite Hs in Hn.
Qed.

(** *** Expressions *)

Variable m : sub_map.
Variable sub : sub_map.

(** The entries of [m] are among those of the map the pass carries, which has one
    entry for a name, and only for inlined variables. *)
Record sub_ok : Prop := {
  so_unique : NoDup sub.*1;
  so_live v e : (v, e) ∈ m -> (v, e) ∈ sub;
  so_names v : v ∈ sub.*1 -> v ∈ C }.
Hypothesis ok : sub_ok.

Lemma sub_get_live v e : (v, e) ∈ m -> sub_get sub v = Some e.
Proof.
  intros Hin%(so_live ok). unfold sub_get.
  destruct (typelist_find _ _) as [[w e']|] eqn:Hf.
  - apply typelist_find_some in Hf as [Hin' Hw%bool_decide_eq_true]. cbn in Hw. subst w. cbn. f_equal.
    pose proof (NoDup_fmap_elem fst sub (v, e) (v, e') (so_unique ok) Hin Hin' eq_refl). congruence.
  - apply (typelist_find_none _ _ Hf) in Hin. cbn in Hin. by rewrite bool_decide_true in Hin.
Qed.

Lemma sub_get_other v : v ∉ C -> sub_get sub v = None.
Proof.
  intros Hv. unfold sub_get. destruct (typelist_find _ _) as [[w e']|] eqn:Hf; [|done].
  apply typelist_find_some in Hf as [Hin Hw%bool_decide_eq_true]. cbn in Hw. subst w.
  exfalso. apply Hv, (so_names ok). by apply (list_elem_of_fmap_2 fst) in Hin.
Qed.

(** The inlined variables an expression reads are among those of [m]. *)
Definition known (e : pexpr) : bool :=
  forallb (fun x => bool_decide (x ∉ C) || bool_decide (x ∈ m.*1)) (reads e).

Definition matches {A} (n n' : Run A) : Prop :=
  forall s s', fine m s -> erased s s' -> same_run n n' s s'.

Lemma agree_matches {A} (n n' : Run A) : agree n n' -> matches n n'.
Proof. intros Ha s s' _. apply Ha. Qed.

Lemma matches_bind {A B} (n n' : Run A) (f f' : A -> Run B) : framed nothing n -> matches n n' ->
  (forall a, matches (f a) (f' a)) -> matches (n ≫= f) (n' ≫= f').
Proof.
  intros Hq Hn Hf s s' Hs He. apply same_run_bind; [by apply Hn|].
  intros a s1 s1' Hr He1. apply Hf; [|done]. by eapply fine_quiet.
Qed.

Lemma matches_if {A} (b : bool) (n n' k k' : Run A) :
  matches n n' -> matches k k' -> matches (if b then n else k) (if b then n' else k').
Proof. by destruct b. Qed.

Lemma matches_mapM l l' : Forall2 (fun e e' => matches (run_expr e) (run_expr e')) l l' ->
  matches (mapM_run run_expr l) (mapM_run run_expr l').
Proof.
  induction 1 as [|e e' l l' He _ IH]; cbn [mapM_run]; [by apply agree_matches, agree_ret|].
  apply matches_bind; [apply framed_expr|done|]. intros y.
  apply matches_bind; [|done|intros ys; apply agree_matches, agree_ret].
  apply framed_mapM, Forall_forall. intros x _. apply framed_expr.
Qed.

Lemma matches_operation n h args args' : framed nothing args -> matches args args' ->
  matches (run_operation n h args) (run_operation n h args').
Proof.
  intros Hq Ha. unfold run_operation. case_decide; [apply agree_matches; agree_steps|].
  case_decide.
  - destruct h; try apply agree_matches, agree_halt.
    apply matches_bind; [done..|]. intros xs. apply agree_matches. agree_steps.
  - apply matches_bind; [apply framed_as_handle|apply agree_matches, agree_as_handle|]. intros hndl.
    apply matches_bind; [done..|]. intros xs. apply agree_matches. case_decide; agree_steps.
Qed.

Lemma matches_var y v : known (PEVar y v) = true ->
  matches (run_var v) (run_expr (recollapse_expr sub (PEVar y v))).
Proof.
  intros Hk. cbn [recollapse_expr]. destruct (decide (v ∈ C)) as [HC|HC].
  - pose proof (C_anorm v HC) as Hv. assert (Hm : v ∈ m.*1).
    { unfold known in Hk. cbn in Hk. rewrite andb_true_r in Hk.
      apply orb_true_iff in Hk as [Hk%bool_decide_eq_true|Hk%bool_decide_eq_true]; done. }
    apply list_elem_of_fmap in Hm as ([v' e] & -> & Hin). cbn in *.
    rewrite (sub_get_live _ _ Hin). intros s s' Hs He.
    destruct (fi_live _ _ Hs v' e Hin) as (_ & Hp & Hx & x & Hh & Hr).
    assert (Hvar : run_var v' s = (inl x, s)).
    { unfold run_var. repeat case_decide; try (subst; by vm_compute in Hv).
      by apply get_plain. }
    unfold RecollapseRuns.same_run. rewrite Hvar. exists s'. split; [|done].
    destruct (pure_reading rem e Hp s (fi_remotes _ _ Hs)) as (r & Hr' & _ & Hsame).
    rewrite Hr in Hr'. injection Hr' as <-. apply Hsame. intros z Hz. split.
    + apply (erased_lookup C); auto.
    + intros _. apply (er_supers _ _ _ He).
  - rewrite (sub_get_other v HC). cbn. by apply agree_matches, agree_var.
Qed.

Lemma known_app e e1 e2 : reads e = reads e1 ++ reads e2 -> known e = known e1 && known e2.
Proof. intros Hr. unfold known. by rewrite Hr, forallb_app. Qed.

Lemma known_args h args y n : known (PEOperation y n h args) = true ->
  known h = true /\ Forall (fun e => known e = true) args.
Proof.
  unfold known. cbn [reads]. rewrite forallb_app. intros [Hh Ha]%andb_true_iff. split; [done|].
  induction args as [|e args IH]; [constructor|]. simpl in Ha.
  rewrite forallb_app in Ha. apply andb_true_iff in Ha as [He Ha]. auto.
Qed.

(** An expression and its recollapsed form have the same value and effect. *)
Lemma matches_expr e : known e = true -> matches (run_expr e) (run_expr (recollapse_expr sub e)).
Proof.
  induction e as [y v|y s f IH|i|y op L R IHL IHR| |y h IH|y n h args IHh IHa] using pexpr_ind';
    intros Hk.
  - change (run_expr (PEVar y v)) with (run_var v). by apply matches_var.
  - cbn [run_expr recollapse_expr]. apply matches_bind; [apply framed_expr|by apply IH|].
    intros x. apply agree_matches, agree_lift.
  - apply agree_matches, agree_ret.
  - rewrite (known_app _ L R) in Hk by done. apply andb_true_iff in Hk as [HL%IHL HR%IHR].
    cbn [run_expr recollapse_expr]. repeat case_decide;
      repeat first [ apply matches_bind; [solve [framed_steps; apply framed_expr]
                      |done || (apply agree_matches, agree_lift)|intros ?]
                   | apply matches_if | (apply agree_matches; solve [agree_steps]) ].
  - cbn [run_expr recollapse_expr]. apply agree_matches. agree_steps.
  - cbn [run_expr recollapse_expr]. apply matches_bind; [apply framed_expr|by apply IH|].
    intros x. apply agree_matches. agree_steps.
  - apply known_args in Hk as [Hh Ha]. cbn [run_expr recollapse_expr].
    apply matches_bind; [apply framed_expr|by apply IHh|]. intros x.
    apply matches_operation.
    + apply framed_mapM, Forall_forall. intros e _. apply framed_expr.
    + apply matches_mapM. rewrite list.Forall2_fmap_r. clear Hh IHh.
      induction args as [|e args IHargs]; [constructor|].
      apply Forall_cons in IHa as [IHe IHa]. apply Forall_cons in Ha as [He Ha].
      constructor; auto.
Qed.

(** What is inlined for a pure expression is pure and reads no inlined variable. *)
Lemma pure_recollapse e s : fine m s -> pure e = true -> known e = true ->
  pure (recollapse_expr sub e) = true /\ forall x, x ∈ reads (recollapse_expr sub e) -> x ∉ C.
Proof.
  intros Hs. induction e as [y v|y e f IH|i|y op L R IHL IHR| | |] using pexpr_ind'; try done.
  - intros Hp Hk. cbn [recollapse_expr]. destruct (decide (v ∈ C)) as [HC|HC].
    + unfold known in Hk. cbn in Hk. rewrite andb_true_r in Hk.
      apply orb_true_iff in Hk as [Hk%bool_decide_eq_true|Hk%bool_decide_eq_true]; [done|].
      apply list_elem_of_fmap in Hk as ([v' e] & -> & Hin). cbn in *.
      rewrite (sub_get_live _ _ Hin). by destruct (fi_live _ _ Hs v' e Hin) as (_ & ? & ? & _).
    + rewrite (sub_get_other v HC). split; [done|]. cbn. intros x Hx%list_elem_of_singleton. by subst.
  - intros _ _. split; [done|]. by intros x Hx%elem_of_nil.
  - intros [HL HR]%andb_true_iff. rewrite (known_app _ L R) by done.
    intros [HkL HkR]%andb_true_iff. destruct (IHL HL HkL), (IHR HR HkR). cbn.
    split; [by apply andb_true_iff|]. intros x [?|?]%elem_of_app; auto.
Qed.
End inlined.
