(* ===== verification/RecollapseStmt.v ===== *)
(** * Inlining generated declarations is invisible

    The statements of a recollapsed phase run as those of the phase it came from,
    on a store without the inlined variables.  The two runs differ only where an
    inlined expression stops the original one ([soft]): it is then evaluated
    later, or not at all. *)
From S2P Require Import Prelude TypeLists Labels TypedAst SplitAst PhaseApi Split Runtime Holders.
From S2P Require Import RunPhase SplitSim RunFrames Recollapse RecollapseRuns.

(** ** Statements *)

Section statements.
Context `{TypeListLaws} `{Remote}.
Variables (rem : string -> bool) (C : list string).
Hypothesis C_anorm : forall v, v ∈ C -> begins_with_anorm v = true.
#[local] Abbreviation agree := (agree C).
#[local] Abbreviation erased := (erased C).
#[local] Abbreviation follows := (follows C).
#[local] Abbreviation framed := (framed rem).
#[local] Abbreviation fine := (fine rem C).

(** The entries that keep their value when [p] runs *)
Definition steady (p : pstmt) (m : sub_map) : sub_map :=
  List.filter (fun en => negb (disturbs rem p en.1)
    && forallb (fun x => negb (disturbs rem p x)) (reads en.2)) m.

(** Every inlined variable is declared once, as the value of a pure expression,
    not assigned, and read only where that expression still has this value. *)
Fixpoint recollapsible (cand : list string) (sub m : sub_map) (p : pstmt) : bool :=
  let known e := known C m e in
  let other v := bool_decide (v ∉ C) in
  match p with
  | PLet b body =>
      known (pb_expr b) &&
      if bool_decide (pb_var b ∈ cand) then
        let entry := (pb_var b, recollapse_expr sub (pb_expr b)) in
        pure (pb_expr b) && negb (rem (pb_var b)) && bool_decide (pb_var b ∉ sub.*1) &&
        recollapsible cand (entry :: sub) (entry :: m) body
      else other (pb_var b) &&
        recollapsible cand sub (steady (PIncrementOccurance (pb_var b)) m) body
  | PLetRemote b body =>
      known (pb_expr b) && other (pb_var b) &&
      recollapsible cand sub (steady (PIncrementOccurance (pb_var b)) m) body
  | POperation _ h args => known h && forallb known args
  | PAssignment v e => forallb other (reads v) && known e
  | PReturn e => known e
  | PWriteTombstone e => forallb other (reads e)
  | PAccompanyWrite e => forallb other (reads e) && other Tracking.tombstone_str
  | PIncrementOccurance v | PIncrementRemoteOccurance v => other v
  | PRefreshRemoteOccurance (PEVar _ v) => other v
  | PRefreshRemoteOccurance _ => false
  | PIf c t e => known c && recollapsible cand sub m t && recollapsible cand sub m e
  | PWhile c body name =>
      let m' := steady p m in
      other name && RecollapseRuns.known C m' c && recollapsible cand sub m' body
  | PForEach body name => other name && recollapsible cand sub (steady p m) body
  | PSequence seq =>
      (fix go (m : sub_map) (seq : list pstmt) : bool :=
         match seq with
         | [] => true
         | s1 :: seq => recollapsible cand sub m s1 && go (steady s1 m) seq
         end) m seq
  end.

Lemma elem_of_steady p m v e : (v, e) ∈ steady p m ->
  (v, e) ∈ m /\ disturbs rem p v = false /\ forall x, x ∈ reads e -> disturbs rem p x = false.
Proof.
  unfold steady. rewrite list_elem_of_In, filter_In, <- list_elem_of_In. cbn.
  intros [Hin [Hv%negb_true_iff He]%andb_true_iff]. split_and!; [done..|].
  intros x Hx. rewrite forallb_forall in He. apply negb_true_iff, He. by apply list_elem_of_In.
Qed.

Lemma sub_ok_weaken m m' sub : sub_ok C m sub -> (forall en, en ∈ m' -> en ∈ m) -> sub_ok C m' sub.
Proof.
  intros Hok Hm. split; [apply (so_unique _ _ _ Hok)| |apply (so_names _ _ _ Hok)].
  intros v e Hin. by apply (so_live _ _ _ Hok), Hm.
Qed.

Lemma sub_ok_steady p m sub : sub_ok C m sub -> sub_ok C (steady p m) sub.
Proof. intros Hok. eapply sub_ok_weaken; [done|]. intros [v e] Hin. by apply (elem_of_steady p). Qed.

Definition sfollows {A} (m : sub_map) (n n' : Run A) : Prop :=
  forall s s', fine m s -> erased s s' -> follows n n' s s'.

Lemma matches_sfollows {A} m (n n' : Run A) : matches rem C m n n' -> sfollows m n n'.
Proof. intros Hn s s' Hs He. right. by apply Hn. Qed.

Lemma agree_sfollows {A} m (n n' : Run A) : agree n n' -> sfollows m n n'.
Proof. intros Hn s s' _ He. right. by apply Hn. Qed.

Lemma sfollows_bind {A B} m m' hit (n n' : Run A) (f f' : A -> Run B) : framed hit n ->
  (forall v e, (v, e) ∈ m' -> (v, e) ∈ m /\ hit v = false /\ forall x, x ∈ reads e -> hit x = false) ->
  sfollows m n n' -> (forall a, sfollows m' (f a) (f' a)) -> sfollows m (n ≫= f) (n' ≫= f').
Proof.
  intros Hn Hm Hf Hk s s' Hs He. apply follows_bind; [by apply Hf|].
  intros a s1 s1' Hr He1. apply Hk; [|done].
  specialize (Hn s (fi_remotes _ _ _ _ Hs)). rewrite Hr in Hn. by eapply fine_keeps.
Qed.

Lemma sfollows_quiet {A B} m (n n' : Run A) (f f' : A -> Run B) : framed nothing n ->
  sfollows m n n' -> (forall a, sfollows m (f a) (f' a)) -> sfollows m (n ≫= f) (n' ≫= f').
Proof. intros Hn. by apply (sfollows_bind m m nothing). Qed.

Lemma sfollows_if {A} m (b : bool) (n n' k k' : Run A) :
  sfollows m n n' -> sfollows m k k' -> sfollows m (if b then n else k) (if b then n' else k').
Proof. by destruct b. Qed.

Lemma other_reads e : forallb (fun v => bool_decide (v ∉ C)) (reads e) = true ->
  forall x, x ∈ reads e -> x ∉ C.
Proof.
  rewrite forallb_forall. intros Hf x Hx%list_elem_of_In%Hf. by apply bool_decide_eq_true in Hx.
Qed.

Lemma recollapse_other sub m e : sub_ok C m sub -> (forall x, x ∈ reads e -> x ∉ C) ->
  recollapse_expr sub e = e.
Proof.
  intros Hok. induction e as [y v|y s f IH|i|y op L R IHL IHR| |y h IH|y n h args IHh IHa]
    using pexpr_ind'; intros Hr; cbn [recollapse_expr reads] in *; try done.
  - rewrite (sub_get_other C m sub Hok) by (apply Hr; by apply list_elem_of_singleton). done.
  - by rewrite IH.
  - rewrite IHL, IHR; [done|..]; intros x Hx; apply Hr, elem_of_app; auto.
  - by rewrite IH.
  - rewrite IHh by (intros x Hx; apply Hr, elem_of_app; auto). f_equal.
    assert (Hargs : forall x, x ∈ concat (reads <$> args) -> x ∉ C)
      by (intros x Hx; apply Hr, elem_of_app; auto).
    clear Hr IHh. induction IHa as [|e args He _ IH]; [done|]. rewrite fmap_cons.
    cbn [concat fmap list_fmap] in Hargs.
    rewrite He by (intros x Hx; apply Hargs, elem_of_app; auto).
    f_equal. apply IH. intros x Hx. apply Hargs, elem_of_app. auto.
Qed.

Lemma known_mapM m sub args : sub_ok C m sub -> forallb (known C m) args = true ->
  matches rem C m (mapM_run run_expr args) (mapM_run run_expr (recollapse_expr sub <$> args)).
Proof.
  intros Hok Ha. apply matches_mapM. rewrite list.Forall2_fmap_r.
  apply Forall_Forall2_diag, Forall_forall. intros e He. apply matches_expr; [done..|].
  rewrite forallb_forall in Ha. by apply Ha, list_elem_of_In.
Qed.

Variables (tracked : bool) (fuel : nat).
#[local] Abbreviation run_stmt := (run_stmt tracked fuel).

Lemma sfollows_expr m sub e : sub_ok C m sub -> known C m e = true ->
  sfollows m (run_expr e) (run_expr (recollapse_expr sub e)).
Proof. intros Hok Hk. by apply matches_sfollows, matches_expr. Qed.

(** What [hit] names leaves the values of [m] alone. *)
Definition untouched (hit : string -> bool) (m : sub_map) : Prop :=
  forall v e, (v, e) ∈ m -> hit v = false /\ forall x, x ∈ reads e -> hit x = false.

Lemma steady_untouched p m : untouched (disturbs rem p) (steady p m).
Proof. intros v e Hin. by apply elem_of_steady in Hin as (_ & ? & ?). Qed.

Lemma sfollows_kept {A B} m hit (n n' : Run A) (f f' : A -> Run B) : framed hit n ->
  untouched hit m -> sfollows m n n' -> (forall a, sfollows m (f a) (f' a)) ->
  sfollows m (n ≫= f) (n' ≫= f').
Proof. intros Hn Hu. apply (sfollows_bind m m hit); [done|]. intros v e Hin. by destruct (Hu v e Hin). Qed.

Lemma sfollows_while m hit n cond cond' body body' name : name ∉ C ->
  untouched hit m -> (forall x, hit x = false -> hits rem name x = false) ->
  framed nothing cond -> framed hit body -> sfollows m cond cond' -> sfollows m body body' ->
  forall i, sfollows m (while_loop n cond body name i) (while_loop n cond' body' name i).
Proof.
  intros Hname Hu Hn Hq Hb Hc Hbody. induction n as [|n IH]; intros i; cbn [while_loop];
    (apply sfollows_quiet; [done..|]); intros b.
  - apply agree_sfollows. agree_steps.
  - apply sfollows_if; [|apply agree_sfollows, agree_ret].
    apply sfollows_if; [|apply agree_sfollows, agree_halt].
    apply (sfollows_kept m hit); [|done|by apply agree_sfollows, agree_push|intros _].
    { eapply framed_weaken; [apply Hn|apply framed_push]. }
    apply (sfollows_kept m hit); [done..|]. intros _. apply IH.
Qed.

Lemma sfollows_repeat m hit n body body' : untouched hit m -> framed hit body ->
  sfollows m body body' -> sfollows m (repeat_run n body) (repeat_run n body').
Proof.
  intros Hu Hb Hbody. induction n as [|n IH]; cbn [repeat_run]; [apply agree_sfollows, agree_ret|].
  by apply (sfollows_kept m hit).
Qed.

(** *** A declaration that is inlined *)

Lemma erased_inlined v h s s' : v ∈ C -> erased s s' -> erased (with_holder v h s) s'.
Proof.
  intros Hv He. split; try apply He. intros x. rewrite (er_holders _ _ _ He).
  destruct (decide (x ∈ C)) as [|Hx]; [done|]. symmetry. apply with_holder_ne. by intros ->.
Qed.

Lemma erased_remotes s s' : erased s s' -> remotes_known rem s -> remotes_known rem s'.
Proof.
  intros He Hs x T. unfold kinds. rewrite lookup_fmap, (er_holders _ _ _ He).
  destruct (decide (x ∈ C)); [done|]. intros Hx. apply (Hs x T). unfold kinds. by rewrite lookup_fmap.
Qed.

Lemma sub_ok_entry m sub v e : sub_ok C m sub -> v ∈ C -> v ∉ sub.*1 ->
  sub_ok C ((v, e) :: m) ((v, e) :: sub).
Proof.
  intros Hok HC Hv. split.
  - rewrite fmap_cons. apply NoDup_cons. split; [done|apply (so_unique _ _ _ Hok)].
  - intros w e'. rewrite !elem_of_cons. intros [->|Hin]; [by left|]. right. by apply (so_live _ _ _ Hok).
  - intros w. rewrite fmap_cons, elem_of_cons. intros [->|Hin]; [done|]. by apply (so_names _ _ _ Hok).
Qed.

Lemma sfollows_inlined m sub v e body body' : sub_ok C m sub -> known C m e = true ->
  pure e = true -> rem v = false -> v ∈ C -> v ∉ sub.*1 ->
  sfollows ((v, recollapse_expr sub e) :: m) body body' ->
  sfollows (A := unit) m (x ← run_expr e; holder_bind tracked v x;; body) body'.
Proof.
  intros Hok Hk Hp Hrem HC Hv Hbody s s' Hs He.
  destruct (pure_reading rem e Hp s (fi_remotes _ _ _ _ Hs)) as (r & Hr & Hsoft & _).
  destruct r as [x|stp]; [|left; unfold mbind, Run_bind; rewrite Hr; by destruct Hsoft as [|[? ?]]].
  set (e' := recollapse_expr sub e).
  destruct (holders (st_store s) !! v) as [h|] eqn:Hh; cycle 1.
  { left. rewrite (run_bind _ _ _ _ _ Hr).
    unfold holder_bind, find_holder, get_store, expect, mbind, Run_bind. cbn. by rewrite Hh. }
  assert (exists o, h = HValue o) as (o & ->).
  { assert (Hkind : kinds s !! v = Some (kind_of h)) by (unfold kinds; by rewrite lookup_fmap, Hh).
    pose proof (fi_plain _ _ _ _ Hs v (kind_of h) HC Hkind). destruct h; naive_solver. }
  unfold RecollapseRuns.follows, RecollapseRuns.same_run.
  rewrite (run_bind _ _ _ _ _ Hr), (run_bind _ _ _ _ _ (bind_plain tracked v o x s Hh)).
  apply Hbody; [|by apply erased_inlined].
  destruct (pure_recollapse rem C m sub Hok e s Hs Hp Hk) as [Hp' Hreads].
  assert (Hvars : forall w ew, (w, ew) ∈ m -> w <> v).
  { intros w ew Hin ->. apply Hv. apply (so_live _ _ _ Hok) in Hin. by apply (list_elem_of_fmap_2 fst) in Hin. }
  assert (Hhits : forall y, y <> v -> hits rem v y = false).
  { intros y Hy. unfold hits. by rewrite bool_decide_false, Hrem, andb_false_r. }
  assert (Hfine : fine m (with_holder v (HValue (Some x)) s)).
  { eapply (fine_keeps rem C m m (hits rem v)); [done|by eapply keeps_holder|].
    intros w ew Hin. split_and!; [done|by eapply Hhits, Hvars|].
    intros y Hy. apply Hhits. destruct (fi_live _ _ _ _ Hs w ew Hin) as (_ & _ & Hne & _).
    intros ->. by apply (Hne v). }
  split; [apply Hfine..|]. intros w ew. rewrite elem_of_cons. intros [[= -> ->]|Hin]; [|by apply Hfine].
  split_and!; [done..|]. exists x. split; [apply with_holder_lookup|].
  destruct (matches_expr rem C C_anorm m sub Hok e Hk s s' Hs He) as (s1' & Hr' & _). rewrite Hr in Hr'. cbn in Hr'.
  destruct (pure_reading rem e' Hp' s' (erased_remotes s s' He (fi_remotes _ _ _ _ Hs))) as (r & Hr2 & _ & Hsame).
  fold e' in Hr'. rewrite Hr' in Hr2. injection Hr2 as <- <-. apply Hsame. intros y Hy. split.
  - rewrite with_holder_ne by (intros ->; by apply (Hreads y)).
    symmetry. apply (erased_lookup C); auto.
  - intros _ T. symmetry. apply (er_supers _ _ _ He).
Qed.

(** *** The statements of a phase *)

Variable cand : list string.
Hypothesis cand_C : forall v, v ∈ cand -> v ∈ C.

(** [p] and its recollapsed form, under any map that is correct for [m] *)
Definition recollapses (p : pstmt) : Prop := forall m sub p', sub_ok C m sub ->
  recollapsible cand sub m p = true -> recollapse_stmt cand sub p = Ok p' ->
  sfollows m (run_stmt p) (run_stmt p').

Lemma recollapses_let b body : recollapses body -> recollapses (PLet b body).
Proof.
  intros IH m sub p' Hok [Hk Hr]%andb_true_iff Hp. cbn [recollapse_stmt recollapse_binding] in Hp.
  outcome_inv. case_bool_decide as Hcand.
  - apply andb_true_iff in Hr as [[[Hpure Hrem%negb_true_iff]%andb_true_iff
      Hv%bool_decide_eq_true]%andb_true_iff Hr].
    eapply sfollows_inlined; [done..|by apply cand_C|done|].
    eapply IH; [|done..]. apply sub_ok_entry; auto.
  - apply andb_true_iff in Hr as [Hv%bool_decide_eq_true Hr]. cbn [RunPhase.run_stmt].
    apply sfollows_quiet; [apply framed_expr|by apply sfollows_expr|]. intros val.
    eapply sfollows_bind; [apply framed_bind_var|apply (elem_of_steady (PIncrementOccurance (pb_var b)))
      |by apply agree_sfollows, agree_bind_var|].
    intros _. eapply IH; [by apply sub_ok_steady|done..].
Qed.

Lemma recollapses_let_remote b body : recollapses body -> recollapses (PLetRemote b body).
Proof.
  intros IH m sub p' Hok [[Hk Hv%bool_decide_eq_true]%andb_true_iff Hr]%andb_true_iff Hp.
  cbn [recollapse_stmt recollapse_binding] in Hp. outcome_inv. cbn [RunPhase.run_stmt].
  apply sfollows_quiet; [apply framed_expr|by apply sfollows_expr|]. intros val.
  eapply sfollows_bind; [apply framed_bind_var|apply (elem_of_steady (PIncrementOccurance (pb_var b)))
      |by apply agree_sfollows, agree_bind_var|].
  intros _. eapply IH; [by apply sub_ok_steady|done..].
Qed.

Lemma recollapses_assignment v e : recollapses (PAssignment v e).
Proof.
  intros m sub p' Hok [Hv Hk]%andb_true_iff [= <-].
  rewrite (recollapse_other sub m v Hok (other_reads v Hv)). cbn [RunPhase.run_stmt].
  pose proof (other_reads v Hv) as Hvs.
  destruct v as [y v|y s f| | | | |]; try by apply agree_sfollows, agree_halt.
  - apply sfollows_quiet; [apply framed_expr|by apply sfollows_expr|]. intros val.
    apply agree_sfollows, agree_push, Hvs. by apply list_elem_of_singleton.
  - destruct s as [y' v|y' s' f'| | | | |]; try by apply agree_sfollows, agree_halt.
    assert (v ∉ C) by (apply Hvs; by apply list_elem_of_singleton).
    apply sfollows_quiet; [apply framed_var|by apply agree_sfollows, agree_var|]. intros strct.
    apply sfollows_quiet; [apply framed_expr|by apply sfollows_expr|]. intros val.
    apply agree_sfollows, agree_run_bind; [apply agree_lift|]. intros y0. by apply agree_push.
Qed.

Lemma recollapses_accompany e : recollapses (PAccompanyWrite e).
Proof.
  intros m sub p' Hok [Hv Ht%bool_decide_eq_true]%andb_true_iff [= <-].
  rewrite (recollapse_other sub m e Hok (other_reads e Hv)). apply agree_sfollows.
  pose proof (other_reads e Hv) as Hvs. cbn [RunPhase.run_stmt].
  assert (Ha : forall v, v ∉ C -> agree
    (if tracked then hndl ← holder_get_remote v; n ← tombstone_name Tracking.tombstone_str;
       call (trk_accompanyWrite (handle_name hndl) n) else halt IllFormed)
    (if tracked then hndl ← holder_get_remote v; n ← tombstone_name Tracking.tombstone_str;
       call (trk_accompanyWrite (handle_name hndl) n) else halt IllFormed)).
  { intros v Hv'. agree_steps; [by apply agree_get_remote|by apply agree_tombstone]. }
  destruct e as [y v|y s f| | | | |]; try apply agree_halt; [|destruct s; try apply agree_halt];
    apply Ha, Hvs; by apply list_elem_of_singleton.
Qed.

Lemma recollapses_refresh h : recollapses (PRefreshRemoteOccurance h).
Proof.
  intros m sub p' Hok Hv Hp. destruct h as [y v| | | | | |]; try done.
  apply bool_decide_eq_true in Hv. cbn [recollapse_stmt] in Hp. outcome_inv.
  cbn [RunPhase.run_stmt]. destruct y; try by apply agree_sfollows, agree_halt.
  apply agree_sfollows. intros s s' He. apply same_run_get_store.
  rewrite !has_super_map_of, (er_supers _ _ _ He).
  apply agree_if; [|apply agree_ret|done].
  apply agree_run_bind; [by apply agree_var|]. intros x. apply agree_refresh.
Qed.

Lemma recollapses_while c body name : recollapses body -> recollapses (PWhile c body name).
Proof.
  intros IH m sub p' Hok [[Hname%bool_decide_eq_true Hc]%andb_true_iff Hr]%andb_true_iff Hp.
  cbn [recollapse_stmt] in Hp. outcome_inv. cbn [RunPhase.run_stmt].
  eapply (sfollows_bind _ _ (hits rem name));
    [apply framed_bind_var| |by apply agree_sfollows, agree_bind_var|intros _].
  { intros v e Hin. apply (elem_of_steady (PWhile c body name)) in Hin as (Hin & Hv & He).
    split; [done|]. cbn in Hv, He.
    split; [by apply orb_false_iff in Hv as []|]. intros z Hz.
    by apply He, orb_false_iff in Hz as []. }
  apply (sfollows_while _ (disturbs rem (PWhile c body name))); [done|apply steady_untouched|..].
  - intros z Hz. cbn in Hz. by apply orb_false_iff in Hz as [].
  - framed_steps. apply framed_expr.
  - eapply framed_weaken; [|apply run_stmt_framed]. intros z Hz. cbn in Hz. by apply orb_false_iff in Hz as [].
  - apply sfollows_quiet; [apply framed_expr|apply sfollows_expr; [by apply sub_ok_steady|done]|].
    intros val. apply agree_sfollows, agree_lift.
  - eapply IH; [by apply sub_ok_steady|done..].
Qed.

Lemma recollapses_foreach body name : recollapses body -> recollapses (PForEach body name).
Proof.
  intros IH m sub p' Hok [Hname%bool_decide_eq_true Hr]%andb_true_iff Hp.
  cbn [recollapse_stmt] in Hp. outcome_inv. cbn [RunPhase.run_stmt].
  eapply (sfollows_bind _ _ nothing); [apply framed_get| |by apply agree_sfollows, agree_get|].
  { intros v e Hin. apply (elem_of_steady (PForEach body name)) in Hin as (Hin & _). split; done. }
  intros val. destruct val; try by apply agree_sfollows, agree_halt.
  apply (sfollows_repeat _ (disturbs rem body)); [apply (steady_untouched (PForEach body name))|apply run_stmt_framed|].
  eapply IH; [by apply sub_ok_steady|done..].
Qed.

Lemma recollapses_sequence ss : Forall recollapses ss -> recollapses (PSequence ss).
Proof.
  intros Hss m sub p' Hok Hr Hp. cbn [recollapse_stmt] in Hp. outcome_inv.
  rename x into ss'. match goal with Ht : traverse _ _ = _ |- _ => rename Ht into Htr end.
  revert m ss' Hok Hr Htr. induction Hss as [|s1 ss Hs1 _ IH]; intros m ss' Hok Hr Htr;
    cbn [traverse] in Htr; outcome_inv; [apply agree_sfollows, agree_ret|].
  cbn [recollapsible] in Hr. apply andb_true_iff in Hr as [Hr1 Hr].
  eapply sfollows_bind; [apply run_stmt_framed|apply elem_of_steady|by eapply Hs1|intros _].
  eapply IH; [by apply sub_ok_steady|done..].
Qed.

Lemma recollapse_follows p : recollapses p.
Proof.
  induction p as [b p IH|b p IH|n h args|v e|e|e|e|v|v|h|c t e IHt IHe|c p name IH|p name IH|ss IH]
    using pstmt_ind'.
  - by apply recollapses_let.
  - by apply recollapses_let_remote.
  - intros m sub p' Hok [Hh Ha]%andb_true_iff [= <-]. cbn [RunPhase.run_stmt].
    apply sfollows_quiet; [apply framed_expr|by apply sfollows_expr|]. intros x.
    assert (Hq : framed nothing (mapM_run run_expr args))
      by (apply framed_mapM, Forall_forall; intros e _; apply framed_expr).
    apply matches_sfollows, matches_bind; [by apply framed_operation| |].
    + apply matches_operation; [done|]. by apply known_mapM.
    + intros _. apply agree_matches, agree_ret.
  - apply recollapses_assignment.
  - intros m sub p' Hok Hk [= <-]. cbn [RunPhase.run_stmt].
    apply sfollows_quiet; [apply framed_expr|by apply sfollows_expr|]. intros x.
    apply agree_sfollows, agree_halt.
  - intros m sub p' Hok Hv [= <-]. rewrite (recollapse_other sub m e Hok (other_reads e Hv)).
    apply agree_sfollows. pose proof (other_reads e Hv) as Hvs. cbn [RunPhase.run_stmt].
    destruct e; try apply agree_halt. agree_steps. apply agree_tombstone, Hvs.
    by apply list_elem_of_singleton.
  - apply recollapses_accompany.
  - intros m sub p' Hok Hv%bool_decide_eq_true Hp. cbn [recollapse_stmt] in Hp. outcome_inv.
    by apply agree_sfollows, agree_increment.
  - intros m sub p' Hok Hv%bool_decide_eq_true Hp. cbn [recollapse_stmt] in Hp. outcome_inv.
    by apply agree_sfollows, agree_increment_remote.
  - apply recollapses_refresh.
  - intros m sub p' Hok [[Hc Ht]%andb_true_iff He]%andb_true_iff Hp.
    cbn [recollapse_stmt] in Hp. outcome_inv. cbn [RunPhase.run_stmt].
    apply sfollows_quiet; [apply framed_expr|by apply sfollows_expr|]. intros val.
    apply sfollows_quiet; [apply framed_lift|apply agree_sfollows, agree_lift|]. intros b.
    apply sfollows_if; [by eapply IHt|by eapply IHe].
  - by apply recollapses_while.
  - by apply recollapses_foreach.
  - by apply recollapses_sequence.
Qed.
End statements.
