(* ===== verification/RecollapseCorrect.v ===== *)
(** * Recollapsed transactions

    A transaction whose phases are recollapsed returns what it returned before,
    and leaves the data stores as it left them. *)
From S2P Require Import Prelude TypeLists Labels TypedAst SplitAst PhaseApi Split Runtime Holders.
From S2P Require Import RunPhase SplitSim SplitStore RunFrames Recollapse RecollapseRuns RecollapseStmt.

#[local] Open Scope Z_scope.

(** ** Which transactions *)

Section inlinable.
Context `{TypeLists} `{Handles}.

Definition inlined_names (phases : list phase) : list string :=
  concat ((fun p => anorm_names (ph_owned p)) <$> phases).

Definition is_remote_of (x : string) (h : holder_type) : bool :=
  match h with remote_holder _ n => bool_decide (n = x) | _ => false end.

(** The names of the remote variables *)
Definition remote_names (phases : list phase) (x : string) : bool :=
  existsb (fun p => existsb (is_remote_of x) (ph_provides p ++ ph_requirements p ++ ph_owned p)) phases.

Definition is_plain (h : holder_type) : bool :=
  match h with type_holder _ _ | value_holder _ _ => true | _ => false end.

(** Only one phase has the inlined variables, each holds a plain value, and the
    statements satisfy [recollapsible]; the lists of holders are sets. *)
Definition inlinable_phase (C : list string) (rem : string -> bool) (p : phase) : bool :=
  bool_decide (NoDup (ph_provides p)) && bool_decide (NoDup (ph_requirements p)) &&
  forallb (fun h => bool_decide (holder_name h ∉ C)) (ph_provides p ++ ph_requirements p) &&
  forallb (fun h => bool_decide (holder_name h ∉ C) || is_plain h) (ph_owned p) &&
  recollapsible rem C (anorm_names (ph_owned p)) [] [] (ph_ast p).

Definition inlinable (phases : list phase) (args : list argument) : bool :=
  let C := inlined_names phases in
  bool_decide (NoDup (holder_name <$> phases_store phases)) &&
  bool_decide (NoDup (holder_name <$> concat (ph_owned <$> phases))) &&
  bool_decide (NoDup (arg_name <$> args)) &&
  forallb (fun x => bool_decide (x ∉ C)) (arg_name <$> args) &&
  forallb (inlinable_phase C (remote_names phases)) phases.
End inlinable.

(** ** The phases *)

Section phases.
Context `{UserLabels} `{TypeListLaws} `{Remote}.
Variables (rem : string -> bool) (C : list string) (fuel : nat).
Hypothesis C_anorm : forall v, v ∈ C -> begins_with_anorm v = true.
#[local] Abbreviation fine := (fine rem C []).
#[local] Abbreviation erased := (erased C).
#[local] Abbreviation follows := (follows C).

Lemma fine_kinds s s' : kinds s' = kinds s -> fine s -> fine s'.
Proof.
  intros Hk Hs. split.
  - intros x T. rewrite Hk. apply Hs.
  - intros v k. rewrite Hk. apply Hs.
  - by intros v e Hin%elem_of_nil.
Qed.

Lemma kinds_begin_phase s ls w :
  kinds (RunState (begin_phase (st_store s)) ls w) = kinds s.
Proof.
  unfold kinds. cbn. apply map_eq. intros x. rewrite !lookup_fmap.
  by destruct (holders (st_store s) !! x) as [[]|].
Qed.

Lemma super_of_begin_phase T s :
  super_of T (begin_phase s) = (fun m : gmap Z tholder => reset_index <$> m) <$> super_of T s.
Proof.
  unfold super_of. cbn. induction (supers s) as [|x l IH]; [done|]. rewrite fmap_cons. cbn [List.find fst].
  by destruct (bool_decide (x.1 = T)).
Qed.

Lemma erased_begin_phase s s' ls w : erased s s' ->
  erased (RunState (begin_phase (st_store s)) ls w) (RunState (begin_phase (st_store s')) ls w).
Proof.
  intros He. split; [done..| |]; cbn [st_store].
  - intros x. cbn. rewrite !lookup_fmap, (er_holders _ _ _ He). by destruct (decide (x ∈ C)).
  - intros T. by rewrite !super_of_begin_phase, (er_supers _ _ _ He).
Qed.

(** [p'] does what [p] does. *)
Record phase_follows (p p' : phase) : Prop := {
  pf_label : ph_label p' = ph_label p;
  pf_returns : ph_returns p' = ph_returns p;
  pf_runs tracked s s' : fine s -> erased s s' ->
    follows (run_stmt tracked fuel (ph_ast p)) (run_stmt tracked fuel (ph_ast p')) s s' }.

Lemma attempt_kinds tracked p s : remotes_known rem s ->
  kinds (common_interp_loop fuel tracked p s).2 = kinds s.
Proof.
  intros Hr. unfold common_interp_loop.
  assert (kinds (run_phase1 fuel tracked p s).2 = kinds s) as Hk1;
    [|by destruct (run_phase1 fuel tracked p s)].
  unfold run_phase1.
  pose proof (run_stmt_framed rem tracked fuel (ph_ast p)
    (RunState (begin_phase (st_store s)) (st_lists s) (st_world s))) as Hk.
  destruct Hk as [Hk _]; [intros x T; rewrite kinds_begin_phase; apply Hr|].
  rewrite kinds_begin_phase in Hk. unfold call.
  destruct (run_stmt _ _ _ _) as [[u|e] s1]; cbn in Hk.
  - destruct (decide _); [|done]. by destruct (rm_commit _) as [[?|?] w].
  - destruct e; try done. destruct (decide _); [done|]. by destruct (rm_commit _) as [[?|?] w].
Qed.

Lemma phase1_follows tracked p p' s s' : phase_follows p p' -> fine s -> erased s s' ->
  follows (run_phase1 fuel tracked p) (run_phase1 fuel tracked p') s s'.
Proof.
  intros Hp Hs He. unfold run_phase1. rewrite (pf_returns _ _ Hp).
  unfold follows, same_run. cbn zeta.
  rewrite (er_lists _ _ _ He), (er_world _ _ _ He).
  assert (Hs0 : fine (RunState (begin_phase (st_store s)) (st_lists s) (st_world s)))
    by (eapply fine_kinds; [apply kinds_begin_phase|done]).
  assert (Hfail : forall ls w, erased (RunState (st_store s) ls w) (RunState (st_store s') ls w))
    by (intros; by apply erased_same_store).
  destruct (pf_runs _ _ Hp tracked _ _ Hs0 (erased_begin_phase s s' _ _ He)) as [Hsoft|(s1' & Hrun & He1)].
  - left. destruct (run_stmt _ _ _ _) as [[u|e] s1]; [done|]. cbn in Hsoft. by destruct e.
  - right. rewrite Hrun. destruct (run_stmt tracked fuel (ph_ast p) _) as [r s1]. cbn [fst snd] in *.
    unfold call. rewrite (er_world _ _ _ He1), (er_lists _ _ _ He1).
    destruct r as [u|e]; [|destruct e; cbn; eauto]; destruct (decide _); cbn; eauto;
      destruct (rm_commit _) as [[?|?] w]; cbn; eexists; (split; [done|]); auto;
      by apply erased_same_store.
Qed.

Lemma attempt_follows tracked p p' s s' : phase_follows p p' -> fine s -> erased s s' ->
  follows (common_interp_loop fuel tracked p) (common_interp_loop fuel tracked p') s s'.
Proof.
  intros Hp Hs He. destruct (phase1_follows tracked p p' s s' Hp Hs He) as [Hsoft|(s1 & Hrun & He1)];
    unfold follows, same_run, common_interp_loop.
  - left. by destruct (run_phase1 fuel tracked p s).
  - right. rewrite Hrun. destruct (run_phase1 fuel tracked p s) as [r s2]. cbn [fst snd] in *.
    eexists. split; [done|]. unfold end_phase. rewrite (er_world _ _ _ He1), (er_lists _ _ _ He1).
    by apply erased_same_store.
Qed.

Lemma retries_follow tracked can_abort p p' : phase_follows p p' -> forall n s s', fine s -> erased s s' ->
  follows (common_interp_fuel fuel n tracked can_abort p) (common_interp_fuel fuel n tracked can_abort p') s s'.
Proof.
  intros Hp n. induction n as [|n IH]; intros s s' Hs He; cbn [common_interp_fuel].
  { right. by exists s'. }
  pose proof (attempt_kinds tracked p s (fi_remotes _ _ _ _ Hs)) as Hk.
  unfold follows, same_run.
  destruct (attempt_follows tracked p p' s s' Hp Hs He) as [Hsoft|(s1' & Hrun & He1)].
  - left. destruct (common_interp_loop _ _ _ _) as [[u|e] s1]; [done|]. cbn in Hsoft.
    by destruct e as [[]| | |].
  - rewrite Hrun. destruct (common_interp_loop _ _ p s) as [r s1]. cbn [fst snd] in *.
    destruct r as [u|e]; [right; eauto|].
    destruct (is_serialization_failure e && negb can_abort); [|right; eauto].
    apply IH; [by eapply fine_kinds|done].
Qed.

Lemma retries_kinds tracked can_abort p n s : remotes_known rem s ->
  kinds (common_interp_fuel fuel n tracked can_abort p s).2 = kinds s.
Proof.
  revert s. induction n as [|n IH]; intros s Hs; cbn [common_interp_fuel]; [done|].
  pose proof (attempt_kinds tracked p s Hs) as Hk.
  destruct (common_interp_loop _ _ p s) as [[u|e] s1]; [done|]. cbn in Hk.
  destruct (_ && _); [|done]. rewrite IH; [done|]. intros x T. rewrite Hk. apply Hs.
Qed.

Lemma phase_kinds p s : remotes_known rem s -> kinds (common_interp fuel p s).2 = kinds s.
Proof. intros Hs. unfold common_interp. destruct (traits_of _); [by apply retries_kinds|done]. Qed.

Lemma interp_follows p p' s s' : phase_follows p p' -> fine s -> erased s s' ->
  follows (common_interp fuel p) (common_interp fuel p') s s'.
Proof.
  intros Hp Hs He. unfold common_interp. rewrite (pf_label _ _ Hp).
  destruct (traits_of _); [by apply retries_follow|by left].
Qed.

Lemma dispatch_follows ps ps' : Forall2 phase_follows ps ps' -> forall s s', fine s -> erased s s' ->
  follows (dispatch_to_runner fuel ps) (dispatch_to_runner fuel ps') s s'.
Proof.
  induction 1 as [|p p' ps ps' Hp Hps IH]; intros s s' Hs He; [by left|].
  pose proof (interp_follows p p' s s' Hp Hs He) as Hf.
  destruct Hps as [|q q' qs qs' Hq Hqs]; [done|].
  cbn [dispatch_to_runner]. apply follows_bind; [done|]. intros a s1 s1' Hr He1.
  apply IH; [|done]. eapply fine_kinds; [|done].
  pose proof (phase_kinds p s (fi_remotes _ _ _ _ Hs)) as Hk. by rewrite Hr in Hk.
Qed.
End phases.

(** ** The pass *)

Section pass.
Context `{UserLabels} `{TypeListLaws} `{Remote}.

Lemma elem_of_anorm_names2 v accum names :
  v ∈ anorm_names2 accum names <-> v ∈ accum \/ v ∈ names /\ begins_with_anorm v = true.
Proof.
  revert accum. induction names as [|n names IH]; intros accum; cbn [anorm_names2].
  - rewrite elem_of_nil. tauto.
  - destruct (begins_with_anorm n) eqn:Hn; rewrite IH, elem_of_cons, ?elem_of_app, ?list_elem_of_singleton;
      naive_solver congruence.
Qed.

Lemma elem_of_anorm_names v hs :
  v ∈ anorm_names hs <-> v ∈ holder_name <$> hs /\ begins_with_anorm v = true.
Proof. unfold anorm_names. rewrite elem_of_anorm_names2, elem_of_nil. tauto. Qed.

Lemma elem_of_inlined v phases :
  v ∈ inlined_names phases <-> exists p, p ∈ phases /\ v ∈ anorm_names (ph_owned p).
Proof.
  split; [by apply elem_of_concat_fmap_inv|]. intros (p & Hp & Hv). by apply (elem_of_concat_fmap (fun p => anorm_names (ph_owned p)) _ p).
Qed.

Lemma inlined_anorm phases v : v ∈ inlined_names phases -> begins_with_anorm v = true.
Proof. intros (p & _ & [_ Hv]%elem_of_anorm_names)%elem_of_inlined. done. Qed.

(** Recollapsing never fails on these phases. *)
Lemma recollapse_stmt_defined rem C cand p : (forall v, v ∈ cand -> v ∈ C) ->
  forall sub m, recollapsible rem C cand sub m p = true ->
  exists p', recollapse_stmt cand sub p = Ok p'.
Proof.
  intros HC. assert (Hnot : forall v, bool_decide (v ∉ C) = true -> not_candidate cand v = Ok tt).
  { intros v Hv%bool_decide_eq_true. unfold not_candidate. rewrite bool_decide_true; [done|]. auto. }
  induction p as [b p IH|b p IH|n h args|v e|e|e|e|v|v|h|c t e IHt IHe|c p name IH|p name IH|ss IH]
    using pstmt_ind'; intros sub m Hr; cbn [recollapsible] in Hr; cbn [recollapse_stmt recollapse_binding];
    rewrite ?andb_true_iff in Hr; try (by eexists).
  - destruct Hr as [_ Hr]. case_bool_decide as Hc; rewrite !andb_true_iff in Hr; destruct_and! Hr;
      (edestruct IH as [x ->]; [eassumption|]); by eexists.
  - destruct_and! Hr. edestruct IH as [x ->]; [eassumption|]. by eexists.
  - rewrite Hnot by done. by eexists.
  - rewrite Hnot by done. by eexists.
  - destruct h; try done. rewrite Hnot by done. by eexists.
  - destruct_and! Hr. edestruct IHt as [t' ->]; [eassumption|].
    edestruct IHe as [e' ->]; [eassumption|]. by eexists.
  - destruct_and! Hr. edestruct IH as [x ->]; [eassumption|]. by eexists.
  - destruct_and! Hr. edestruct IH as [x ->]; [eassumption|]. by eexists.
  - assert (Hs : exists ss', traverse (recollapse_stmt cand sub) ss = Ok ss').
    { revert m Hr. induction IH as [|s1 ss Hs1 _ IHss]; intros m Hr; [by eexists|].
      apply andb_true_iff in Hr as [Hr1 Hr]. cbn [traverse].
      destruct (Hs1 _ _ Hr1) as [s1' ->], (IHss _ Hr) as [ss' ->]. by eexists. }
    destruct Hs as [ss' ->]. by eexists.
Qed.
End pass.

(** ** A whole transaction *)

Section transaction.
Context `{UserLabels} `{TypeListLaws} `{Remote}.
Variables (phases : list phase) (args : list argument) (fuel : nat).
Hypothesis good : inlinable phases args = true.
#[local] Abbreviation C := (inlined_names phases).
#[local] Abbreviation rem := (remote_names phases).

Lemma good_parts : NoDup (holder_name <$> phases_store phases) /\
  NoDup (holder_name <$> concat (ph_owned <$> phases)) /\ NoDup (arg_name <$> args) /\
  (forall x, x ∈ arg_name <$> args -> x ∉ C) /\
  (forall p, p ∈ phases -> inlinable_phase C rem p = true).
Proof.
  pose proof good as Hg. unfold inlinable in Hg. rewrite !andb_true_iff in Hg. destruct_and! Hg.
  repeat match goal with Hb : bool_decide _ = true |- _ => apply bool_decide_eq_true in Hb end.
  split_and!; [done..| |]; intros x Hx%list_elem_of_In;
    match goal with Hf : forallb _ ?l = true, Hx : In _ ?l |- _ =>
      rewrite forallb_forall in Hf; apply Hf in Hx end; [by apply bool_decide_eq_true in Hx|done].
Qed.

Record phase_parts (p : phase) : Prop := {
  pp_provided : NoDup (ph_provides p);
  pp_required : NoDup (ph_requirements p);
  pp_others h : h ∈ ph_provides p \/ h ∈ ph_requirements p -> holder_name h ∉ C;
  pp_plain h : h ∈ ph_owned p -> holder_name h ∈ C -> is_plain h = true;
  pp_ast : recollapsible rem C (anorm_names (ph_owned p)) [] [] (ph_ast p) = true }.

Lemma phase_good p : p ∈ phases -> phase_parts p.
Proof.
  intros Hin. destruct good_parts as (_ & _ & _ & _ & Hp). specialize (Hp p Hin).
  unfold inlinable_phase in Hp. rewrite !andb_true_iff, !forallb_forall, !bool_decide_eq_true in Hp.
  destruct Hp as ((((Hp & Hr) & Hother) & Hplain) & Hast). split; [done..| | |done].
  - intros h Hh. apply (proj1 (bool_decide_eq_true _)), Hother, list_elem_of_In, elem_of_app. tauto.
  - intros h Hh%list_elem_of_In Hc. apply Hplain, orb_true_iff in Hh as [Hh%bool_decide_eq_true|]; done.
Qed.

(** What recollapsing does to a phase *)
Record recollapsed (p p' : phase) : Prop := {
  rc_follows : phase_follows rem C fuel p p';
  rc_provides : ph_provides p' = ph_provides p;
  rc_requirements : ph_requirements p' = ph_requirements p;
  rc_owned : ph_owned p' = without_holders (anorm_names (ph_owned p)) (ph_owned p) }.

Lemma sub_ok_nil : sub_ok C [] [].
Proof. split; [constructor|by intros v e Hin%elem_of_nil|by intros v Hin%elem_of_nil]. Qed.

Lemma recollapse_phase_good p : p ∈ phases ->
  exists p', recollapse_phase p = Ok p' /\ recollapsed p p'.
Proof.
  intros Hin. pose proof (phase_good p Hin) as Hp. unfold recollapse_phase.
  assert (Hcand : forall v, v ∈ anorm_names (ph_owned p) -> v ∈ C)
    by (intros v Hv; apply elem_of_inlined; eauto).
  destruct (recollapse_stmt_defined rem C _ _ Hcand _ _ (pp_ast _ Hp)) as [ast Hast].
  rewrite Hast. eexists. split; [done|]. split; [|done..]. split; [done..|]. cbn. intros tracked s s'.
  eapply (recollapse_follows rem C (inlined_anorm phases) tracked fuel _ Hcand);
    [apply sub_ok_nil|apply (pp_ast _ Hp)|done].
Qed.

Lemma recollapse_good : exists phases', recollapse phases = Ok phases' /\ Forall2 recollapsed phases phases'.
Proof.
  assert (Hps : forall ps, (forall p, p ∈ ps -> p ∈ phases) ->
    exists ps', recollapse ps = Ok ps' /\ Forall2 recollapsed ps ps'); [|by apply Hps].
  induction ps as [|p ps IH]; intros Hin; [by eexists|].
  destruct (recollapse_phase_good p) as (p' & Hp & Hr); [apply Hin; by left|].
  destruct IH as (ps' & Hps & Hrs); [intros q Hq; apply Hin; by right|].
  unfold recollapse in *. cbn [traverse]. rewrite Hp. cbn. rewrite Hps. eauto.
Qed.

(** *** The holders of both stores *)

(** What all phases require *)
Definition required_by_all (ls : list (list holder_type)) : list holder_type :=
  match ls with [] => [] | l :: ls => foldl typeset_intersect l ls end.

Lemma elem_of_phases_store ps h : h ∈ phases_store ps <->
  (exists q, q ∈ ps /\ h ∈ ph_provides q) \/ h ∈ required_by_all (ph_requirements <$> ps) \/
  exists q o, q ∈ ps /\ o ∈ ph_owned q /\ h = holder_to_value o.
Proof.
  destruct ps as [|p ps].
  { cbn. rewrite !elem_of_nil. setoid_rewrite elem_of_nil. naive_solver. }
  cbn [phases_store]. rewrite !elem_of_typeset_combine, elem_of_all, list_elem_of_fmap.
  setoid_rewrite elem_of_all. naive_solver.
Qed.

Lemma required_by_all_some ps h : h ∈ required_by_all (ph_requirements <$> ps) ->
  exists q, q ∈ ps /\ h ∈ ph_requirements q.
Proof.
  destruct ps as [|p ps]; [by intros Hh%elem_of_nil|]. intros Hh%foldl_intersect_sub.
  exists p. split; [by left|done].
Qed.

Section both.
Variable phases' : list phase.
Hypothesis both : Forall2 recollapsed phases phases'.

Lemma fmap_both {A} (f : phase -> A) : (forall p p', recollapsed p p' -> f p' = f p) ->
  f <$> phases' = f <$> phases.
Proof.
  intros Hf. assert (Hall : forall ps ps', Forall2 recollapsed ps ps' -> f <$> ps' = f <$> ps); [|by apply Hall].
  induction 1 as [|p p' ps ps' Hp _ IH]; [done|]. by rewrite !fmap_cons, IH, (Hf _ _ Hp).
Qed.

Lemma requirements_both : ph_requirements <$> phases' = ph_requirements <$> phases.
Proof. apply fmap_both. intros p p' Hr. apply (rc_requirements _ _ Hr). Qed.

Lemma in_both p' : p' ∈ phases' -> exists p, p ∈ phases /\ recollapsed p p'.
Proof.
  intros [i Hi]%list_elem_of_lookup. destruct (Forall2_lookup_r _ _ _ _ _ both Hi) as (p & Hp & Hr).
  exists p. split; [by eapply list_elem_of_lookup_2|done].
Qed.

Lemma from_both p : p ∈ phases -> exists p', p' ∈ phases' /\ recollapsed p p'.
Proof.
  intros [i Hi]%list_elem_of_lookup. destruct (Forall2_lookup_l _ _ _ _ _ both Hi) as (p' & Hp & Hr).
  exists p'. split; [by eapply list_elem_of_lookup_2|done].
Qed.

Lemma owned_both p p' h : p ∈ phases -> recollapsed p p' ->
  h ∈ ph_owned p' <-> h ∈ ph_owned p /\ holder_name h ∉ C.
Proof.
  intros Hp Hr. rewrite (rc_owned _ _ Hr). unfold without_holders. rewrite list_elem_of_filter.
  split.
  - intros [Hn Hh]. split; [done|]. intros Hc. apply Hn.
    apply elem_of_inlined in Hc as (q & _ & Hq).
    apply elem_of_anorm_names in Hq as [_ Hanorm]. apply elem_of_anorm_names.
    split; [by apply list_elem_of_fmap_2|done].
  - intros [Hh Hn]. split; [|done]. intros Hc. apply Hn, elem_of_inlined. eauto.
Qed.

Lemma store_both h : h ∈ phases_store phases' <-> h ∈ phases_store phases /\ holder_name h ∉ C.
Proof.
  rewrite !elem_of_phases_store, requirements_both. split.
  - intros [(q & (p & Hp & Hr)%in_both & Hh)|[Hh|(q & o & (p & Hp & Hr)%in_both & Ho & ->)]].
    + rewrite (rc_provides _ _ Hr) in Hh. split; [eauto|]. apply (pp_others _ (phase_good p Hp)). by left.
    + split; [eauto|]. apply required_by_all_some in Hh as (p & Hp & Hh).
      apply (pp_others _ (phase_good p Hp)). by right.
    + apply (owned_both p q o Hp Hr) in Ho as [Ho Hc]. rewrite holder_to_value_name. eauto 10.
  - intros [[(p & Hp & Hh)|[Hh|(p & o & Hp & Ho & ->)]] Hc]; [|by eauto|].
    + destruct (from_both p Hp) as (p' & Hp' & Hr). left. exists p'. by rewrite (rc_provides _ _ Hr).
    + destruct (from_both p Hp) as (p' & Hp' & Hr). right. right. exists p', o. split_and!; [done| |done].
      apply (owned_both p p' o Hp Hr). by rewrite holder_to_value_name in Hc.
Qed.

Lemma owned_elem_of p o : p ∈ phases -> o ∈ ph_owned p -> o ∈ concat (ph_owned <$> phases).
Proof. intros Hp. by apply (elem_of_concat_fmap ph_owned). Qed.

Lemma NoDup_concat_elem {A} (ls : list (list A)) l : NoDup (concat ls) -> l ∈ ls -> NoDup l.
Proof.
  intros Hn (l1 & l2 & ->)%list_elem_of_split. rewrite concat_app in Hn. cbn in Hn.
  apply NoDup_app in Hn as (_ & _ & Hn). by apply NoDup_app in Hn as (Hn & _ & _).
Qed.

Lemma NoDup_phases_store ps : (forall p, p ∈ ps -> NoDup (ph_provides p)) ->
  (forall p, p ∈ ps -> NoDup (ph_requirements p)) -> (forall p, p ∈ ps -> NoDup (ph_owned p)) ->
  (forall p q h h', p ∈ ps -> q ∈ ps -> h ∈ ph_owned p -> h' ∈ ph_owned q ->
    holder_name h = holder_name h' -> h = h') ->
  NoDup (phases_store ps).
Proof.
  intros Hpr Hrq Hown Hinj. destruct ps as [|p ps]; [constructor|].
  assert (Hall : forall f : phase -> list holder_type, (forall q, q ∈ p :: ps -> NoDup (f q)) ->
    NoDup (typeset_combine_all (f p) (f <$> ps))).
  { intros f Hf. apply NoDup_typeset_combine_all; [apply Hf; by left|].
    apply Forall_forall. intros l (q & -> & Hq)%list_elem_of_fmap. apply Hf. by right. }
  apply NoDup_typeset_combine; [apply NoDup_typeset_combine|].
  - by apply Hall.
  - apply foldl_intersect_NoDup, Hrq. by left.
  - apply NoDup_fmap_on; [by apply Hall|].
    intros h h' (q & Hq & Hh)%elem_of_all (q' & Hq' & Hh')%elem_of_all Heq.
    apply (Hinj q q'); [done..|]. by rewrite <- holder_to_value_name, Heq, holder_to_value_name.
Qed.

Lemma NoDup_store_both : NoDup (holder_name <$> phases_store phases').
Proof.
  destruct good_parts as (Hn & Ho & _). apply NoDup_fmap_on.
  - apply NoDup_phases_store.
    + intros p' (p & Hp & Hr)%in_both. rewrite (rc_provides _ _ Hr). apply (phase_good p Hp).
    + intros p' (p & Hp & Hr)%in_both. rewrite (rc_requirements _ _ Hr). apply (phase_good p Hp).
    + intros p' (p & Hp & Hr)%in_both. rewrite (rc_owned _ _ Hr). apply NoDup_filter.
      apply (NoDup_concat_elem (ph_owned <$> phases)); [by apply (NoDup_fmap_1 holder_name)|by apply list_elem_of_fmap_2].
    + intros p' q' h h' (p & Hp & Hr)%in_both (q & Hq & Hr')%in_both
        [Hh _]%(owned_both p p' h Hp Hr) [Hh' _]%(owned_both q q' h' Hq Hr') Heq.
      apply (NoDup_fmap_elem holder_name _ h h' Ho); [by apply (owned_elem_of p)|by apply (owned_elem_of q)|done].
  - intros h h' [Hh _]%store_both [Hh' _]%store_both Heq.
    by apply (NoDup_fmap_elem holder_name _ h h' Hn).
Qed.

(** *** The stores both start with *)

Definition start_holders (ps : list phase) : list holder_type :=
  replace (phases_store ps) (arg_holder <$> args).

Definition start_state (ps : list phase) (w : W) : run_state :=
  RunState (bind_arguments args (empty_store (start_holders ps))) [] w.

(** A holder of the phases whose name an argument does not have *)
Definition own_holder (ps : list phase) (h : holder_type) : Prop :=
  h ∈ phases_store ps /\ holder_name h ∉ arg_name <$> args.

Lemma elem_of_start ps h : NoDup (holder_name <$> phases_store ps) ->
  NoDup (holder_name <$> start_holders ps) /\
  (h ∈ start_holders ps <-> h ∈ arg_holder <$> args \/ own_holder ps h).
Proof.
  intros Hn. destruct good_parts as (_ & _ & Ha & _).
  rewrite <- arg_holder_names in Ha. destruct (replace_elem _ (arg_holder <$> args) Hn Ha) as [Hd He].
  split; [done|]. unfold start_holders, own_holder. by rewrite He, arg_holder_names.
Qed.

Lemma lookup_start ps w x d : NoDup (holder_name <$> phases_store ps) -> x ∉ arg_name <$> args ->
  holders (st_store (start_state ps w)) !! x = Some d <->
  exists h, own_holder ps h /\ holder_name h = x /\ d = default_holder h.
Proof.
  intros Hn Hx. cbn. rewrite bind_arguments_other by done.
  destruct (elem_of_start ps (type_holder TVoid "") Hn) as [Hd _]. split.
  - intros Hl%elem_of_list_to_map_2. apply list_elem_of_fmap in Hl as (h & [= -> ->] & Hh).
    apply (elem_of_start ps h Hn) in Hh as [Hh|Hh]; [|by exists h].
    exfalso. apply Hx. rewrite <- arg_holder_names. by apply list_elem_of_fmap_2.
  - intros (h & Hh & <- & ->). apply lookup_empty_store; [done|]. apply elem_of_start; [done|by right].
Qed.

Lemma own_both h : own_holder phases' h <-> own_holder phases h /\ holder_name h ∉ C.
Proof. unfold own_holder. rewrite store_both. tauto. Qed.

Lemma inlined_plain h : h ∈ phases_store phases -> holder_name h ∈ C ->
  exists T, h = value_holder T (holder_name h).
Proof.
  intros [(p & Hp & Hh)|[(p & Hp & Hh)%required_by_all_some|(p & o & Hp & Ho & ->)]]%elem_of_phases_store Hc.
  - by destruct (pp_others _ (phase_good p Hp) h (or_introl Hh)).
  - by destruct (pp_others _ (phase_good p Hp) h (or_intror Hh)).
  - rewrite holder_to_value_name in Hc. pose proof (pp_plain _ (phase_good p Hp) o Ho Hc).
    destruct o; try done; cbn; eauto.
Qed.

Lemma remote_known h T x : h ∈ phases_store phases -> h = remote_holder T x -> rem x = true.
Proof.
  intros Hh ->. unfold remote_names. apply existsb_exists.
  assert (Hin : exists p h, p ∈ phases /\ h ∈ ph_provides p ++ ph_requirements p ++ ph_owned p /\
      is_remote_of x h = true).
  { assert (Hx : is_remote_of x (remote_holder T x) = true) by by apply bool_decide_eq_true.
    apply elem_of_phases_store in Hh as [(p & Hp & Hh)|[(p & Hp & Hh)%required_by_all_some|(p & o & Hp & Ho & Heq)]].
    - exists p, (remote_holder T x). rewrite !elem_of_app. auto.
    - exists p, (remote_holder T x). rewrite !elem_of_app. auto.
    - exists p, o. rewrite !elem_of_app. destruct o; try done. injection Heq as <- <-. auto. }
  destruct Hin as (p & h & Hp & Hin & Hr). exists p. split; [by apply list_elem_of_In|].
  apply existsb_exists. exists h. split; [by apply list_elem_of_In|done].
Qed.

Lemma elem_of_virtual_holders T hs : T ∈ virtual_holders hs <-> exists n, remote_holder T n ∈ hs.
Proof.
  induction hs as [|h hs IH]; cbn [virtual_holders].
  { setoid_rewrite elem_of_nil. naive_solver. }
  setoid_rewrite elem_of_cons.
  destruct h as [U n|U n|U n|n]; try (rewrite IH; naive_solver).
  case_decide as Hd; [|rewrite elem_of_cons]; rewrite ?IH; naive_solver.
Qed.

Lemma super_of_start T ps w : super_of T (st_store (start_state ps w)) =
  if decide (T ∈ virtual_holders (start_holders ps)) then Some ∅ else None.
Proof.
  unfold super_of. cbn [st_store start_state]. rewrite bind_arguments_supers. cbn [supers empty_store].
  induction (virtual_holders _) as [|U l IH]; [by rewrite decide_False by apply not_elem_of_nil|].
  rewrite fmap_cons. cbn [List.find fst]. case_bool_decide as HU.
  - rewrite decide_True; [done|]. subst. by left.
  - rewrite IH. destruct (decide (T ∈ l)); [rewrite decide_True by by right|rewrite decide_False by set_solver]; done.
Qed.

Lemma start_erased w : erased C (start_state phases w) (start_state phases' w).
Proof.
  destruct good_parts as (Hn & _ & Ha & Hac & _). pose proof NoDup_store_both as Hn'.
  split; [done..| |].
  - intros x. destruct (decide (x ∈ arg_name <$> args)) as [Hx|Hx].
    { rewrite decide_False by auto. apply list_elem_of_fmap in Hx as (b & -> & Hb). cbn.
      by rewrite !bind_arguments_arg. }
    apply option_eq. intros d. rewrite (lookup_start phases' w x d Hn' Hx). setoid_rewrite own_both.
    destruct (decide (x ∈ C)) as [Hc|Hc].
    + split; [|done]. by intros (h & [_ Hh] & <- & _).
    + rewrite (lookup_start phases w x d Hn Hx). split.
      * intros (h & [Hh _] & ? & ?). eauto.
      * intros (h & Hh & <- & ?). eauto.
  - intros T. rewrite !super_of_start.
    assert (Hiff : T ∈ virtual_holders (start_holders phases') <-> T ∈ virtual_holders (start_holders phases)).
    { rewrite !elem_of_virtual_holders. f_equiv. intros n.
      rewrite (proj2 (elem_of_start phases' _ Hn')), (proj2 (elem_of_start phases _ Hn)), own_both.
      split; [naive_solver|]. intros [?|Hh]; [by left|]. right. split; [done|]. intros Hc.
      by destruct (inlined_plain _ (proj1 Hh) Hc). }
    do 2 destruct (decide _); naive_solver.
Qed.

Lemma start_fine w : fine rem C [] (start_state phases w).
Proof.
  destruct good_parts as (Hn & _ & Ha & Hac & _).
  assert (Hkind : forall x k, kinds (start_state phases w) !! x = Some k -> k = Plain \/
    exists h, own_holder phases h /\ holder_name h = x /\ k = kind_of (default_holder h)).
  { intros x k. unfold kinds. rewrite lookup_fmap. intros (d & Hd & ->)%fmap_Some.
    destruct (decide (x ∈ arg_name <$> args)) as [Hx|Hx].
    - apply list_elem_of_fmap in Hx as (b & -> & Hb). cbn in Hd.
      rewrite bind_arguments_arg in Hd by done. injection Hd as <-. by left.
    - apply (lookup_start phases w x d Hn Hx) in Hd as (h & ? & ? & ->). eauto. }
  split.
  - intros x T [?|(h & [Hh _] & <- & Hk)]%Hkind; [done|].
    destruct h; try done. by eapply remote_known.
  - intros v k Hv [?|(h & [Hh _] & <- & ->)]%Hkind; [done|].
    by destruct (inlined_plain h Hh Hv) as [T ->].
  - by intros v e Hin%elem_of_nil.
Qed.

Lemma begin_follows w r s : phases <> [] -> begin_interp fuel phases args w = (r, s) -> soft_res r = false ->
  exists s', begin_interp fuel phases' args w = (r, s') /\ erased C s s'.
Proof.
  intros Hne. destruct good_parts as (Hn & _ & _ & _).
  assert (Hb : forall ps, ps <> [] -> NoDup (holder_name <$> phases_store ps) ->
    begin_interp fuel ps args w = dispatch_to_runner fuel ps (start_state ps w)).
  { intros ps Hps Hd. destruct (elem_of_start ps (type_holder TVoid "") Hd) as [Hd' _].
    unfold begin_interp. destruct ps as [|p ps]; [done|]. by rewrite decide_True. }
  assert (Hne' : phases' <> []) by (intros ->; by apply Forall2_nil_inv_r in both).
  rewrite (Hb phases Hne Hn), (Hb phases' Hne' NoDup_store_both). intros Hr Hsoft.
  assert (Hf : Forall2 (phase_follows rem C fuel) phases phases')
    by (eapply Forall2_impl; [exact both|]; intros p p' Hp; apply Hp).
  destruct (dispatch_follows rem C fuel _ _ Hf _ _ (start_fine w) (start_erased w)) as [Hs|(s' & Hs & He)];
    rewrite Hr in Hs; cbn [fst snd] in Hs; [by rewrite Hs in Hsoft|].
  rewrite Hr in He. eauto.
Qed.
End both.

Lemma recollapse_begin w r s : begin_interp fuel phases args w = (r, s) -> soft_res r = false ->
  exists phases' s', recollapse phases = Ok phases' /\ begin_interp fuel phases' args w = (r, s') /\
    erased C s s'.
Proof.
  intros Hr Hsoft. destruct recollapse_good as (phases' & Hrec & Hboth). exists phases'.
  assert (Hne : phases <> []).
  { intros Hnil. revert Hr Hsoft. rewrite Hnil. unfold begin_interp.
    destruct (decide _); by intros [= <- _]. }
  destruct (begin_follows phases' Hboth w r s Hne Hr Hsoft) as (s' & Hs' & He). eauto.
Qed.

(** C27: recollapsing [inlinable] phases succeeds and is invisible: unless
  the transaction stops with an assertion, undefined arithmetic or a type error,
  the recollapsed phases return the same and leave the data stores and every
  other variable as they were, without the inlined variables in their store.  Phases are
  [inlinable] when what is inlined is declared in one phase only, is a pure expression, and
  is read only while that expression still has the value, and when no name is declared
  twice. *)
Theorem recollapse_correct w r s : begin_interp fuel phases args w = (r, s) -> soft_res r = false ->
  exists phases' s', recollapse phases = Ok phases' /\ begin_interp fuel phases' args w = (r, s') /\
    st_world s' = st_world s /\ st_lists s' = st_lists s /\
    forall x, holders (st_store s') !! x =
      if decide (x ∈ inlined_names phases) then None else holders (st_store s) !! x.
Proof.
  intros Hr Hsoft. destruct (recollapse_begin w r s Hr Hsoft) as (phases' & s' & Hrec & Hs' & He).
  exists phases', s'. split_and!; [done..|apply He|apply He|apply (er_holders _ _ _ He)].
Qed.
End transaction.
