(* ===== verification/BackEnd.v ===== *)
(** * From a labelled transaction to the phases that run

    [mtl/transaction.hpp] splits a transaction, recollapses its phases and moves
    those of pre-endorsed labels to the labels themselves.  What runs then is what
    the transaction is as one program. *)
From S2P Require Import Prelude TypeLists Labels TypedAst LabelCollect SplitAst PhaseApi.
From S2P Require Import Split Runtime Holders RunPhase SplitSpec SplitHist SplitProj SplitPhases.
From S2P Require Import SplitStore SplitCorrect RunFrames Recollapse RecollapseRuns SplitPhases.
From S2P Require Import RecollapseStmt RecollapseCorrect.

#[local] Open Scope Z_scope.

(** [resume_compilation_inferred]: also the last steps of [compile] *)
Definition resume_compilation_inferred `{UserLabels} `{TypeLists} (bindings : list var_binding)
    (tracked : stmt) : outcome (list phase) :=
  split ← split_computation bindings tracked;
  recollapsed ← recollapse split;
  relabel recollapsed.

(** ** Relabelling *)

(** The labels of the variables a phase declares *)
Fixpoint declared_labels (s : pstmt) : list label :=
  match s with
  | PLet b body | PLetRemote b body => pb_label b :: declared_labels body
  | PIf _ t e => declared_labels t ++ declared_labels e
  | PWhile _ body _ | PForEach body _ => declared_labels body
  | PSequence seq => concat (declared_labels <$> seq)
  | _ => []
  end.

Lemma defined_bind {A B} (m : outcome A) (f : A -> outcome B) (P Q : Prop) :
  ((exists x, m = Ok x) <-> P) -> (forall x, m = Ok x -> (exists y, f x = Ok y) <-> Q) ->
  (exists y, (m ≫= f) = Ok y) <-> P /\ Q.
Proof.
  intros HP HQ. setoid_rewrite bind_Ok. split.
  - intros (y & x & Hx & Hy). split; [by apply HP; exists x|]. apply (HQ x Hx). by exists y.
  - intros [[x Hx]%HP Hq]. apply (HQ x Hx) in Hq as [y Hy]. eauto.
Qed.

Lemma defined_map {A B} (m : outcome A) (g : A -> B) (P : Prop) :
  ((exists x, m = Ok x) <-> P) -> (exists y, (x ← m; Ok (g x)) = Ok y) <-> P.
Proof. intros HP. rewrite (defined_bind m _ P True HP); [tauto|]. intros x _. split; eauto. Qed.

Definition all_labels (l : label) (ls : list label) : Prop := forall x, x ∈ ls -> x = l.

Lemma all_labels_app l ls ls' : all_labels l (ls ++ ls') <-> all_labels l ls /\ all_labels l ls'.
Proof. unfold all_labels. setoid_rewrite elem_of_app. naive_solver. Qed.

Lemma relabel_binding_defined newl l b :
  (exists b', relabel_binding newl l b = Ok b') <-> all_labels l [pb_label b].
Proof.
  unfold relabel_binding, all_labels. setoid_rewrite list_elem_of_singleton.
  case_bool_decide; cbn; naive_solver.
Qed.

(** Relabelling succeeds when all declarations are of the label it replaces. *)
Lemma relabel_stmt_defined newl l s :
  (exists s', relabel_stmt newl l s = Ok s') <-> all_labels l (declared_labels s).
Proof.
  induction s as [b s IH|b s IH| | | | | | | | |c t e IHt IHe|c s n IH|s n IH|ss IH] using pstmt_ind';
    cbn [relabel_stmt declared_labels];
    try (split; [by intros _ x Hx%elem_of_nil|by eexists]).
  - change (pb_label b :: declared_labels s) with ([pb_label b] ++ declared_labels s). rewrite all_labels_app.
    apply defined_bind; [apply relabel_binding_defined|].
    intros ? _. by apply defined_map.
  - change (pb_label b :: declared_labels s) with ([pb_label b] ++ declared_labels s). rewrite all_labels_app.
    apply defined_bind; [apply relabel_binding_defined|].
    intros ? _. by apply defined_map.
  - rewrite all_labels_app. apply defined_bind; [done|]. intros ? _. by apply defined_map.
  - by apply defined_map.
  - by apply defined_map.
  - apply defined_map. induction IH as [|s ss Hs _ IH]; [split; [by intros _ x Hx%elem_of_nil|by eexists]|].
    rewrite fmap_cons. cbn [concat traverse]. rewrite all_labels_app.
    apply defined_bind; [done|]. intros ? _. by apply defined_map.
Qed.

(** *** Computations that are equal everywhere *)

Section same.
Context `{Remote}.

Lemma run_bind_ext {A B} (m : Run A) (f g : A -> Run B) s :
  (forall a s, f a s = g a s) -> (m ≫= f) s = (m ≫= g) s.
Proof. intros Hf. unfold mbind, Run_bind. by destruct (m s) as [[]]. Qed.

Lemma run_bind_ext_l {A B} (m n : Run A) (f : A -> Run B) s : (forall s, m s = n s) -> (m ≫= f) s = (n ≫= f) s.
Proof. intros Hm. unfold mbind, Run_bind. by rewrite Hm. Qed.

Lemma while_loop_ext n cond body body' name i s : (forall s, body s = body' s) ->
  while_loop n cond body name i s = while_loop n cond body' name i s.
Proof.
  intros Hb. revert i s. induction n as [|n IH]; intros i s; [done|]. cbn [while_loop].
  apply run_bind_ext. intros b s1. destruct b; [|done]. destruct (in_int _); [|done].
  apply run_bind_ext. intros _ s2. rewrite (run_bind_ext_l _ _ _ _ Hb).
  apply run_bind_ext. intros _ s3. apply IH.
Qed.

Lemma repeat_run_ext n body body' s : (forall s, body s = body' s) ->
  repeat_run n body s = repeat_run n body' s.
Proof.
  intros Hb. revert s. induction n as [|n IH]; intros s; [done|]. cbn [repeat_run].
  rewrite (run_bind_ext_l _ _ _ _ Hb). apply run_bind_ext. auto.
Qed.
End same.

(** Relabelled statements run as before: no step depends on the label of a
    binding. *)
Lemma relabel_stmt_runs `{Remote} tracked fuel newl l s s' : relabel_stmt newl l s = Ok s' ->
  forall st, run_stmt tracked fuel s' st = run_stmt tracked fuel s st.
Proof.
  revert s'. assert (Hb : forall b b', relabel_binding newl l b = Ok b' ->
    pb_var b' = pb_var b /\ pb_expr b' = pb_expr b).
  { intros b b' Hb. unfold relabel_binding in Hb. by outcome_inv. }
  induction s as [b s IH|b s IH| | | | | | | | |c t e IHt IHe|c s n IH|s n IH|ss IH] using pstmt_ind';
    intros s' Hs st; cbn [relabel_stmt] in Hs; outcome_inv; cbn [run_stmt]; try done.
  - destruct (Hb _ _ ltac:(eassumption)) as [-> ->]. do 2 (apply run_bind_ext; intros ? ?). by apply IH.
  - destruct (Hb _ _ ltac:(eassumption)) as [-> ->]. do 2 (apply run_bind_ext; intros ? ?). by apply IH.
  - do 2 (apply run_bind_ext; intros ? ?). case_match; [by apply IHt|by apply IHe].
  - apply run_bind_ext. intros _ s1. apply while_loop_ext. by apply IH.
  - apply run_bind_ext. intros v s1. destruct v; try done. apply repeat_run_ext. by apply IH.
  - match goal with Ht : traverse _ _ = Ok ?x |- _ => rename x into ss', Ht into Htr end.
    revert ss' Htr st. induction IH as [|s ss Hs _ IH]; intros ss' Htr st; cbn [traverse] in Htr;
      outcome_inv; [done|].
    rewrite (run_bind_ext_l _ _ _ _ (Hs _ ltac:(eassumption))).
    apply run_bind_ext. intros _ s1. by apply IH.
Qed.

(** Relabelling a phase of a pre-endorsed label fails exactly when the phase
  declares a variable of another label; where it succeeds the phase belongs to
  the label itself and its statements run as before.  Other phases are left as
  they are. *)
Theorem relabel_phase_correct `{Remote} (p : phase) :
  ((forall l, ph_label p <> LPre l) -> relabel_phase p = Ok p) /\
  forall l, ph_label p = LPre l ->
    ((exists p', relabel_phase p = Ok p') <-> forall x, x ∈ declared_labels (ph_ast p) -> x = LPre l) /\
    forall p', relabel_phase p = Ok p' -> ph_label p' = l /\ ph_returns p' = ph_returns p /\
      ph_provides p' = ph_provides p /\ ph_requirements p' = ph_requirements p /\
      ph_owned p' = ph_owned p /\
      forall tracked fuel s, run_stmt tracked fuel (ph_ast p') s = run_stmt tracked fuel (ph_ast p) s.
Proof.
  split.
  - intros Hl. unfold relabel_phase. destruct (ph_label p) as [| | |l]; [done..|by destruct (Hl l)].
  - intros l Hl. unfold relabel_phase. rewrite Hl. split.
    + apply (defined_map _ (fun ast => Phase _ _ ast _ _ _ _)), relabel_stmt_defined.
    + intros p' Hp. outcome_inv. split_and!; try done. intros tracked fuel s. by eapply relabel_stmt_runs.
Qed.

(** ** The phases that run *)

Section back_end.
Context `{LabelOrder D} `{TypeListLaws} `{Handles} `{!Remote}.

Definition pre_endorsed (l : label) : bool := match l with LPre _ => true | _ => false end.

Lemma relabel_none (phases : list phase) :
  (forall p, p ∈ phases -> pre_endorsed (ph_label p) = false) -> relabel phases = Ok phases.
Proof.
  unfold relabel. induction phases as [|p ps IH]; intros Hp; [done|]. cbn [traverse].
  assert (Hr : relabel_phase p = Ok p).
  { unfold relabel_phase. specialize (Hp p (list_elem_of_here _ _)). by destruct (ph_label p). }
  rewrite Hr. cbn. rewrite IH; [done|]. intros q Hq. apply Hp. by right.
Qed.

Lemma processed_labels ps : ph_label <$> processed ps = pp_level <$> ps.
Proof. induction ps as [|p ps IH]; [done|]. cbn [processed]. by rewrite !fmap_cons, IH. Qed.

Lemma recollapse_labels phases phases' : recollapse phases = Ok phases' ->
  ph_label <$> phases' = ph_label <$> phases.
Proof.
  unfold recollapse. revert phases'. induction phases as [|p ps IH]; intros phases' Hr;
    cbn [traverse] in Hr; outcome_inv; [done|].
  rewrite !fmap_cons. erewrite IH by eassumption. f_equal.
  unfold recollapse_phase in *. by outcome_inv.
Qed.

Variables (ast a : stmt) (args : list argument) (ls : list label) (phases : list phase).
Hypothesis top_D : D top.
Hypothesis ast_D : forall x, mentions ast x -> D x.
Hypothesis named : easy_processing_pass ast = Ok a.
Hypothesis its_labels : collect_proper_labels ast = Ok ls.
Hypothesis split : split_computation (initial_bindings args) ast = Ok phases.
Hypothesis good : splittable args (reverse ls) a = true.
Hypothesis inlined : inlinable phases args = true.
Hypothesis no_endorsement : forallb (fun l => negb (pre_endorsed l)) ls = true.
Variables (fuel : nat) (v : value) (w : W).
Hypothesis fuel_int : Z.of_nat fuel <= int_max.
Hypothesis commits : forall w, exists w', rm_commit w = (inl tt, w').
Hypothesis traits : forall l, l ∈ ls -> exists tr, traits_of l = Ok tr.
Hypothesis returns : exec_transaction fuel ast args = inl v.

Lemma back_end_runs : exists compiled s,
  resume_compilation_inferred (initial_bindings args) ast = Ok compiled /\
  begin_interp fuel compiled args w = (inl (Some v), s).
Proof.
  destruct (split_runs ast a args ls phases top_D ast_D named its_labels split good fuel v w
    fuel_int commits traits returns) as [s Hs].
  destruct (recollapse_begin phases args fuel inlined w _ _ Hs eq_refl) as (phases' & s' & Hr & Hs' & _).
  exists phases', s'. split; [|done]. unfold resume_compilation_inferred. rewrite split. cbn. rewrite Hr. cbn.
  apply relabel_none. intros p Hp. apply (list_elem_of_fmap_2 ph_label) in Hp.
  rewrite (recollapse_labels _ _ Hr) in Hp.
  destruct (its_phases ast a args ls phases named its_labels split good) as (ps & _ & -> & Hps).
  rewrite processed_labels, (phases_labels _ _ _ _ Hps), elem_of_reverse in Hp.
  rewrite forallb_forall in no_endorsement. by apply negb_true_iff, no_endorsement, list_elem_of_In.
Qed.

(** C7: the phases the back end makes of a labelled transaction without endorsements (split,
  recollapsed and relabelled) exist and return what the transaction returns as one
  program, if it returns within a fuel of at most [int_max] and commits succeed.  The
  transaction is [splittable]: local, labelled consistently, without a name declared twice,
  returning at the end, its loops and conditionals keeping versions in step; and its split
  phases are [inlinable].  The labels are totally ordered and have traits. *)
Theorem back_end_correct : exists compiled s,
  resume_compilation_inferred (initial_bindings args) ast = Ok compiled /\
  begin_interp fuel compiled args w = (inl (Some v), s).
Proof. apply back_end_runs. Qed.
End back_end.
