(* ===== verification/BackEndExamples.v ===== *)
(** * A transaction in A-normal form, compiled and run *)
From S2P Require Import Prelude TypeLists Labels TypedAst LabelCollect SplitAst PhaseApi.
From S2P Require Import Split Runtime Holders RunPhase SplitSpec SplitHist SplitProj SplitPhases.
From S2P Require Import SplitStore SplitCorrect SplitExamples RunFrames Recollapse RecollapseRuns.
From S2P Require Import RecollapseStmt RecollapseCorrect BackEnd.
Import Reference.

#[local] Existing Instances no_handles no_objects.
#[local] Open Scope string_scope.

(** The sum of the first squares; flattening named the two operands. *)
Definition anorm (n : nat) : string := "anorm" ++ String (ascii_of_nat n) "".

Definition squares : stmt :=
  let_in strong strong "i" (EConst 0) (let_in causal causal "acc" (EConst 0)
   (SSequence strong
     [SWhile strong (less strong (var strong "i") (var top "n"))
       (SSequence strong
         [let_in strong strong (anorm 1) (op strong "+" (var strong "i") (EConst 1))
            (SAssignment strong (var strong "i") (var strong (anorm 1)));
          let_in causal causal (anorm 2) (op causal "*" (var strong "i") (var strong "i"))
            (incr causal "acc" (var causal (anorm 2)))]) "";
      SReturn bottom (var causal "acc")])).

Definition squares_named : stmt := or_else squares (easy_processing_pass squares).
Definition squares_phases : list phase :=
  or_else [] (split_computation (initial_bindings sum_args) squares).
Definition squares_labels : list label := [bottom; causal; strong; top].

Lemma squares_inlinable : inlinable squares_phases sum_args = true.
Proof. vm_compute. reflexivity. Qed.

Lemma recollapse_correct_witness :
  exists phases' s', recollapse squares_phases = Ok phases' /\
    begin_interp 10 phases' sum_args 0%nat = (inl (Some (VInt 30)), s') /\ st_world s' = 4%nat /\
    st_lists s' = [] /\
    forall x, holders (st_store s') !! x =
      if decide (x ∈ inlined_names squares_phases) then None
      else holders (st_store (begin_interp 10 squares_phases sum_args 0%nat).2) !! x.
Proof.
  assert (Hrun : begin_interp 10 squares_phases sum_args 0%nat =
    (inl (Some (VInt 30)), (begin_interp 10 squares_phases sum_args 0%nat).2)) by (vm_compute; reflexivity).
  destruct (recollapse_correct squares_phases sum_args 10 squares_inlinable _ _ _ Hrun)
    as (phases' & s' & Hr & Hs & Hw & Hl & Hh); [reflexivity|].
  exists phases', s'. split; [exact Hr|]. split; [exact Hs|].
  split; [rewrite Hw; vm_compute; reflexivity|]. split; [rewrite Hl; vm_compute; reflexivity|exact Hh].
Defined.

Lemma back_end_correct_witness : exists compiled s,
  resume_compilation_inferred (initial_bindings sum_args) squares = Ok compiled /\
  begin_interp 10 compiled sum_args 0%nat = (inl (Some (VInt 30)), s).
Proof.
  apply (back_end_correct (D := fun l => l ∈ sql_labels) squares squares_named sum_args squares_labels
    squares_phases); sum_to_hyp.
Defined.

(** The names really are inlined. *)
Example squares_inlined : inlined_names squares_phases = [anorm 1; anorm 2] /\
  exists phases', recollapse squares_phases = Ok phases' /\ inlined_names phases' = [].
Proof. split; [vm_compute; reflexivity|]. eexists. vm_compute. split; reflexivity. Qed.

(** A pre-endorsed phase may declare a variable of a less trusted label
    ([let_binding] accepts it), but then it cannot be relabelled. *)
Example relabel_rejects : relabel_phase (Phase (LPre strong) TVoid
  (PLet (PBinding causal TInt "x" (PEConst 1)) (PSequence [])) [] [] [] []) = Err NoOverload.
Proof. reflexivity. Qed.
