(* ===== verification/Wire.v ===== *)
(** * What travels between a client and its servers

    Models [mtl/environments_serialization.hpp]: how the holders a phase requires
    are written to a connection and read back into the store of a server, and how
    those it provides come back.  The serialization of single values is that of
    [mutils-serialization], a submodule that is not in the repository: a codec
    for each type with the law its functions promise ([from_bytes] after
    [to_bytes] gives the value back and says how much it has used). *)
From stdpp Require Import sorting.
From Stdlib Require Import Strings.Byte.
From S2P Require Import Prelude TypeLists Labels TypedAst PhaseApi Runtime Holders RunPhase RunFrames.

#[local] Open Scope Z_scope.

(** ** The serialization library *)

Record codec (A : Type) : Type := Codec {
  to_bytes : A -> list byte;
  from_bytes : list byte -> option (A * list byte) }.
Arguments to_bytes {A} c a.
Arguments from_bytes {A} c bs.

Definition codec_ok {A} (P : A -> Prop) (c : codec A) : Prop :=
  forall a rest, P a -> from_bytes c (to_bytes c a ++ rest) = Some (a, rest).

Class WireFormat `{Handles} : Type := {
  value_codec : codec value;
  values_codec : codec (list value);
  handles_codec : codec (list Handle);
  name_codec : codec Z;
  int_codec : codec Z;
  size_codec : codec Z;
  bool_codec : codec bool;
  string_codec : codec string;
  (** The bytes of a value of the class of a holder that was never bound, all zero *)
  zero_value : holder_type -> value;
  (** [mutils::typename_str<T>::f()] *)
  typename_str : ty -> string;
  (** [mutils::type_name<T>()] of a holder, and of the type set a phase requires or provides *)
  type_name : holder_type -> string;
  typeset_name : list holder_type -> string;
  (** The build has assertions ([NDEBUG] is not defined). *)
  debug : bool;
}.

(** Values without pointers: a list built-in is written as its elements, so the
    pointer that is read back is another one. *)
Fixpoint sendable `{Handles} (v : value) : bool :=
  match v with
  | VList _ => false
  | VStruct fs => forallb (fun f => sendable f.2) fs
  | _ => true
  end.

(** A C string ends at its first null byte. *)
Definition no_null (s : string) : Prop := x00 ∉ String.list_byte_of_string s.

Class WireLaws `{WireFormat} : Prop := {
  value_ok : codec_ok (fun v => sendable v = true) value_codec;
  values_ok : codec_ok (fun vs => forallb sendable vs = true) values_codec;
  handles_ok : codec_ok (fun _ => True) handles_codec;
  name_ok : codec_ok (fun _ => True) name_codec;
  int_ok : codec_ok (fun z => in_int z = true) int_codec;
  size_ok : codec_ok (fun z => 0 <= z < 2 ^ 64) size_codec;
  bool_ok : codec_ok (fun _ => True) bool_codec;
  string_ok : codec_ok (fun _ => True) string_codec;
  zero_sendable r : sendable (zero_value r) = true;
  typename_no_null T : no_null (typename_str T);
  typeset_no_null hs : no_null (typeset_name hs);
}.

(** ** Reading from a connection *)

Section reader.
Context `{Remote}.

Definition Reader (A : Type) : Type := list byte -> Res (A * list byte).

#[global] Instance Reader_ret : MRet Reader := fun A a bs => inl (a, bs).
#[global] Instance Reader_bind : MBind Reader := fun A B f m bs =>
  match m bs with inl (a, rest) => f a rest | inr e => inr e end.

(** [c.receive(x)], and [from_bytes] at the front of the buffer followed by
    [mark_used]; reading past the end is undefined. *)
Definition receive {A} (c : codec A) : Reader A := fun bs =>
  match from_bytes c bs with Some r => inl r | None => inr (Throws OutOfRange) end.

(** [c.receive_data(n, buf)] *)
Definition receive_data (n : nat) : Reader (list byte) := fun bs =>
  if (n <=? length bs)%nat then inl (take n bs, drop n bs) else inr (Throws OutOfRange).

Definition assert_read (b : bool) : Reader unit := fun bs =>
  if b then inl (tt, bs) else inr (Throws AssertFailed).

Definition lift_read {A} (r : Res A) : Reader A := fun bs => a ← r; inl (a, bs).

(** The reader gives [a] and leaves what follows [bs]. *)
Definition reads_back {A} (m : Reader A) (bs : list byte) (a : A) : Prop :=
  forall rest, m (bs ++ rest) = inl (a, rest).

Lemma reads_back_ret {A} (a : A) : reads_back (mret a) [] a.
Proof. by intros rest. Qed.

Lemma reads_back_bind {A B} (m : Reader A) (f : A -> Reader B) bs bs' a b :
  reads_back m bs a -> reads_back (f a) bs' b -> reads_back (m ≫= f) (bs ++ bs') b.
Proof.
  intros Hm Hf rest. rewrite <- app_assoc. unfold mbind, Reader_bind. rewrite Hm. apply Hf.
Qed.

Lemma reads_back_receive {A} (P : A -> Prop) (c : codec A) a : codec_ok P c -> P a ->
  reads_back (receive c) (to_bytes c a) a.
Proof. intros Hc Ha rest. unfold receive. by rewrite Hc. Qed.

Lemma reads_back_data bs : reads_back (receive_data (length bs)) bs bs.
Proof.
  intros rest. unfold receive_data. rewrite length_app.
  replace (_ <=? _)%nat with true by (symmetry; apply Nat.leb_le; lia).
  by rewrite take_app_length, drop_app_length.
Qed.

Lemma reads_back_assert b : b = true -> reads_back (assert_read b) [] tt.
Proof. by intros -> rest. Qed.

Lemma reads_back_lift {A} (r : Res A) a : r = inl a -> reads_back (lift_read r) [] a.
Proof. by intros -> rest. Qed.

(** A part that only a debug build reads and writes *)
Lemma reads_back_if (b : bool) (m : Reader unit) bs : (b = true -> reads_back m bs tt) ->
  reads_back (if b then m else mret tt) (if b then bs else []) tt.
Proof. intros Hm. destruct b; [by apply Hm|apply reads_back_ret]. Qed.

(** ** Reading into an object

    What is received is assigned to the object as soon as it is read, so that the object
    keeps what it has got when something that follows cannot be read. *)
Definition Filler (S A : Type) : Type := S -> list byte -> Res (A * list byte) * S.

#[global] Instance Filler_ret {S} : MRet (Filler S) := fun A a t bs => (inl (a, bs), t).
#[global] Instance Filler_bind {S} : MBind (Filler S) := fun A B f m t bs =>
  match m t bs with
  | (inl (a, rest), t') => f a t' rest
  | (inr e, t') => (inr e, t')
  end.

Definition reading {S A} (m : Reader A) : Filler S A := fun t bs => (m bs, t).
Definition assign {S} (f : S -> S) : Filler S unit := fun t bs => (inl (tt, bs), f t).

(** A member of the object *)
Definition on_member {S T A} (get : S -> T) (set : T -> S -> S) (m : Filler T A) : Filler S A :=
  fun t bs => let '(r, x) := m (get t) bs in (r, set x t).

(** The object [t] becomes [t'] and the result is [a], whatever follows [bs]. *)
Definition fills {S A} (m : Filler S A) (t : S) (bs : list byte) (a : A) (t' : S) : Prop :=
  forall rest, m t (bs ++ rest) = (inl (a, rest), t').

Lemma fills_ret {S A} (t : S) (a : A) : fills (mret a) t [] a t.
Proof. by intros rest. Qed.

Lemma fills_assign {S} (f : S -> S) t : fills (assign f) t [] tt (f t).
Proof. by intros rest. Qed.

Lemma fills_bind {S A B} (m : Filler S A) (f : A -> Filler S B) t t' t'' bs bs' a b :
  fills m t bs a t' -> fills (f a) t' bs' b t'' -> fills (m ≫= f) t (bs ++ bs') b t''.
Proof.
  intros Hm Hf rest. rewrite <- app_assoc. unfold mbind, Filler_bind. rewrite Hm. apply Hf.
Qed.

Lemma fills_last {S A B} (m : Filler S A) (f : A -> Filler S B) t t' t'' bs a b :
  fills m t bs a t' -> fills (f a) t' [] b t'' -> fills (m ≫= f) t bs b t''.
Proof. intros Hm Hf. rewrite <- (app_nil_r bs). by eapply fills_bind. Qed.

Lemma fills_first {S A B} (m : Filler S A) (f : A -> Filler S B) t t' t'' bs a b :
  fills m t [] a t' -> fills (f a) t' bs b t'' -> fills (m ≫= f) t bs b t''.
Proof. intros Hm Hf. by eapply (fills_bind _ _ _ _ _ []). Qed.

Lemma fills_reading {S A} (m : Reader A) (t : S) bs a : reads_back m bs a -> fills (reading m) t bs a t.
Proof. intros Hm rest. unfold reading. by rewrite Hm. Qed.

Lemma fills_on_member {S T A} (get : S -> T) set (m : Filler T A) t bs a x : fills m (get t) bs a x ->
  fills (on_member get set m) t bs a (set x t).
Proof. intros Hm rest. unfold on_member. by rewrite Hm. Qed.

(** Whatever is read, [R] holds between the object before and after. *)
Definition leaves {S A} (R : relation S) (m : Filler S A) : Prop := forall t bs, R t (m t bs).2.

Lemma filler_leaves_bind {S A B} (R : relation S) (m : Filler S A) (f : A -> Filler S B) : Transitive R ->
  leaves R m -> (forall a, leaves R (f a)) -> leaves R (m ≫= f).
Proof.
  intros HR Hm Hf t bs. unfold mbind, Filler_bind. specialize (Hm t bs).
  destruct (m t bs) as [[[a rest]|e] t']; [|done]. by etrans; [|apply Hf].
Qed.

Lemma leaves_reading {S A} (R : relation S) (m : Reader A) : Reflexive R -> leaves R (reading m).
Proof. by intros HR t bs. Qed.
End reader.

(** ** Holders *)

Section wire.
Context `{Remote} `{!WireFormat}.

(** A name in a debug build, so that the two sides can compare what they send *)
Definition send_nonce (name : string) : list byte :=
  if debug then String.list_byte_of_string name ++ [x00] else [].

(** [remote_name != my_name] compares up to the first null byte. *)
Fixpoint c_string (bs : list byte) : list byte :=
  match bs with
  | [] => []
  | b :: bs => if decide (b = x00) then [] else b :: c_string bs
  end.

Definition receive_nonce (name : string) : Reader unit :=
  if debug then
    remote ← receive_data (String.length name + 1);
    assert_read (bool_decide (c_string remote = String.list_byte_of_string name))
  else mret tt.

(** [c.send(mutils::bytes_size(name), name)], and its counterpart *)
Definition send_string (name : string) : list byte :=
  to_bytes size_codec (Z.of_nat (length (to_bytes string_codec name))) ++ to_bytes string_codec name.

Definition receive_string : Reader string :=
  size ← receive size_codec;
  bs ← receive_data (Z.to_nat size);
  lift_read (match from_bytes string_codec bs with
             | Some r => inl r.1 | None => inr (Throws OutOfRange) end).

Definition send_type_name (r : holder_type) : list byte :=
  if debug then send_string (type_name r) else [].

Definition receive_type_name (r : holder_type) : Reader unit :=
  if debug then n ← receive_string; assert_read (bool_decide (n = type_name r)) else mret tt.

(** [typename_str<type_holder<T, str...>>::f()]; the bracket is never closed. *)
Definition type_holder_name (T : ty) (n : string) : string :=
  "type_holder<" ++ typename_str T ++ "," ++ n.

Definition held_type (r : holder_type) : ty :=
  match r with
  | type_holder T _ | value_holder T _ => T
  | remote_holder T _ => match T with THandle _ U => U | _ => TVoid end
  | while_holder _ => TInt
  end.

(** [serialize_holder] and [receive_holder] for [type_holder<T, str...>] *)
Definition serialize_type_holder (name : string) (t : tholder) : list byte :=
  send_nonce name ++ to_bytes values_codec (th_t t) ++ send_nonce name
    ++ (to_bytes int_codec (curr_pos t) ++ to_bytes bool_codec (th_bound t)) ++ send_nonce name.

Definition receive_type_holder (my_name : string) : Filler tholder unit :=
  reading (receive_nonce my_name);;
  t ← reading (receive values_codec);
  assign (fun h => THolder t (curr_pos h) (th_bound h));;
  reading (receive_nonce my_name);;
  pos ← reading (receive int_codec);
  assign (fun h => THolder (th_t h) pos (th_bound h));;
  bound ← reading (receive bool_codec);
  assign (fun h => THolder (th_t h) (curr_pos h) bound);;
  reading (receive_nonce my_name).

(** The overloads of [serialize_holder], by the class of the holder.  A
    [value_holder] that was never bound sends its zeroed memory. *)
Definition serialize_holder (r : holder_type) (h : holder) : list byte :=
  match h with
  | HType t => serialize_type_holder (type_holder_name (held_type r) (holder_name r)) t
  | HValue v => send_type_name r ++ to_bytes value_codec (default (zero_value r) v)
  | HRemote _ hs pos =>
      send_type_name r ++ to_bytes handles_codec hs ++ to_bytes int_codec pos
  end.

(** The members of a holder that are received on their own *)
Definition type_part (h : holder) : tholder := match h with HType t => t | _ => empty_tholder end.
Definition set_handle (hs : list Handle) (h : holder) : holder :=
  match h with HRemote T _ pos => HRemote T hs pos | _ => h end.
Definition set_remote_pos (pos : Z) (h : holder) : holder :=
  match h with HRemote T hs _ => HRemote T hs pos | _ => h end.

(** The overloads of [receive_holder], by the class of the holder; a [value_holder] is
    bound afterwards. *)
Definition receive_holder (r : holder_type) : Filler holder unit := fun h =>
  match h with
  | HType _ =>
      on_member type_part (fun t _ => HType t)
        (receive_type_holder (type_holder_name (held_type r) (holder_name r))) h
  | HValue _ =>
      (reading (receive_type_name r);; v ← reading (receive value_codec);
       assign (fun _ => HValue (Some v))) h
  | HRemote _ _ _ =>
      (reading (receive_type_name r);;
       hs ← reading (receive handles_codec); assign (set_handle hs);;
       pos ← reading (receive int_codec); assign (set_remote_pos pos)) h
  end.

(** *** The objects behind the handles of a type *)

Definition simple_nonce : Z := 141341313.

Definition send_simple_nonce : list byte :=
  if debug then to_bytes size_codec simple_nonce else [].

Definition receive_simple_nonce : Reader unit :=
  if debug then n ← receive size_codec; assert_read (n =? simple_nonce) else mret tt.

Definition stored (T : ty) : ty := match T with THandle _ U => U | _ => TVoid end.

Definition entry_le (x y : Z * tholder) : Prop := x.1 <= y.1.
#[local] Instance entry_le_dec : RelDecision entry_le := fun x y => Z_le_dec x.1 y.1.

(** The entries of a [std::map], by increasing name *)
Definition entries (m : gmap Z tholder) : list (Z * tholder) :=
  merge_sort entry_le (map_to_list m).

Definition serialize_entry (T : ty) (p : Z * tholder) : list byte :=
  to_bytes name_codec p.1 ++ serialize_type_holder (type_holder_name (stored T) "") p.2
    ++ send_simple_nonce.

(** [serialize_holder] for [remote_map_holder<T>]; [is_initialized] is set by the
    constructors of stores. *)
Definition serialize_remote_map (T : ty) (super : gmap Z tholder) : list byte :=
  (if debug then to_bytes bool_codec true else [])
    ++ send_nonce (typename_str T)
    ++ to_bytes size_codec (Z.of_nat (size super))
    ++ concat (serialize_entry T <$> entries super)
    ++ send_nonce (typename_str T).

(** The entries are received into those that are there; [t.super[key]] makes one that is
    not, which stays when the rest of it cannot be read. *)
Fixpoint receive_entries (n : nat) (T : ty) : Filler (gmap Z tholder) unit :=
  match n with
  | O => mret tt
  | S n =>
      key ← reading (receive name_codec);
      on_member (fun m => default empty_tholder (m !! key)) (fun entry m => <[key := entry]> m)
        (receive_type_holder (type_holder_name (stored T) ""));;
      reading receive_simple_nonce;;
      receive_entries n T
  end.

(** [assert(t.super.size() == map_size)] *)
Definition check_size (map_size : Z) : Filler (gmap Z tholder) unit := fun super bs =>
  (if debug then assert_read (Z.of_nat (size super) =? map_size) bs else inl (tt, bs), super).

Definition receive_remote_map (T : ty) : Filler (gmap Z tholder) unit :=
  reading (if debug then receive bool_codec;; mret tt else mret tt);;
  reading (receive_nonce (typename_str T));;
  map_size ← reading (receive size_codec);
  receive_entries (Z.to_nat map_size) T;;
  check_size map_size;;
  reading (receive_nonce (typename_str T)).

(** ** Stores *)

(** [std::is_same<typename T::label, label>] *)
Definition map_of_label (l : label) (T : ty) : bool :=
  match T with THandle l' _ => bool_decide (l' = l) | _ => false end.

(** [send_remote_maps<label>] *)
Definition send_remote_maps (l : label) (s : store) : list byte :=
  let maps := base.filter (fun x => map_of_label l x.1 = true) (supers s) in
  (if debug then to_bytes size_codec (Z.of_nat (length maps)) else [])
    ++ concat ((fun x => serialize_remote_map x.1 x.2) <$> maps).

(** The built-in names have overloads that send nothing. *)
Definition is_constant_name (v : string) : bool :=
  bool_decide (v ∈ ["true"; "false"; list_stub_name]%string).

(** [send_holder_values]; a name the store does not have does not compile. *)
Definition send_holder_values (s : store) (r : holder_type) : Res (list byte) :=
  if is_constant_name (holder_name r) then inl []
  else match holders s !! holder_name r with
       | Some h => inl (serialize_holder r h)
       | None => inr IllFormed
       end.

Fixpoint send_all (s : store) (rs : list holder_type) : Res (list byte) :=
  match rs with
  | [] => inl []
  | r :: rs => b ← send_holder_values s r; bs ← send_all s rs; inl (b ++ bs)
  end.

(** [send_store_values<label>(requires, s, c)] *)
Definition send_store_values (l : label) (rs : list holder_type) (s : store) : Res (list byte) :=
  hs ← send_all s rs;
  inl (send_nonce (typeset_name rs) ++ send_remote_maps l s ++ send_nonce (typeset_name rs) ++ hs).

(** The maps of the label are received one after another, up to the first that cannot
    be read. *)
Fixpoint receive_maps (l : label) : Filler (list (ty * gmap Z tholder)) unit := fun maps bs =>
  match maps with
  | [] => (inl (tt, bs), [])
  | (T, m) :: maps =>
      let '(r, m') := (if map_of_label l T then receive_remote_map T else mret tt) m bs in
      match r with
      | inl (_, rest) =>
          let '(r', maps') := receive_maps l maps rest in (r', (T, m') :: maps')
      | inr e => (inr e, (T, m') :: maps)
      end
  end.

(** [receive_remote_maps<label>]: the number of maps is only logged. *)
Definition receive_remote_maps (l : label) : Filler store unit :=
  reading (if debug then receive size_codec;; mret tt else mret tt);;
  on_member supers (fun maps s => Store (holders s) maps) (receive_maps l).

Definition receive_holder_values (r : holder_type) : Filler store unit := fun s bs =>
  if is_constant_name (holder_name r) then (inl (tt, bs), s)
  else match holders s !! holder_name r with
       | Some h => let '(x, h') := receive_holder r h bs in (x, set_holder (holder_name r) h' s)
       | None => (inr IllFormed, s)
       end.

Fixpoint receive_all (rs : list holder_type) : Filler store unit :=
  match rs with
  | [] => mret tt
  | r :: rs => receive_holder_values r;; receive_all rs
  end.

(** [receive_store_values<label>(provides, s, c)] *)
Definition receive_store_values (l : label) (rs : list holder_type) : Filler store unit :=
  reading (receive_nonce (typeset_name rs));;
  receive_remote_maps l;;
  reading (receive_nonce (typeset_name rs));;
  receive_all rs.

(** ** Round trips *)

(** A holder whose parts fit the wire *)
Definition tholder_fits (t : tholder) : Prop :=
  forallb sendable (th_t t) = true /\ in_int (curr_pos t) = true.

Definition holder_fits (h : holder) : Prop :=
  match h with
  | HType t => tholder_fits t
  | HValue v => forall x, v = Some x -> sendable x = true
  | HRemote _ _ pos => in_int pos = true
  end.

(** What the receiving holder is afterwards *)
Definition received (r : holder_type) (h h0 : holder) : holder :=
  match h, h0 with
  | HValue v, _ => HValue (Some (default (zero_value r) v))
  | HRemote _ hs pos, HRemote T _ _ => HRemote T hs pos
  | _, _ => h
  end.

Definition same_class (h h0 : holder) : bool :=
  match h, h0 with
  | HType _, HType _ | HValue _, HValue _ => true
  | HRemote T _ _, HRemote T0 _ _ => bool_decide (T0 = T)
  | _, _ => false
  end.

Context `{!WireLaws}.

Lemma c_string_back bs : x00 ∉ bs -> c_string (bs ++ [x00]) = bs.
Proof.
  induction bs as [|b bs IH]; intros Hb; [done|]. apply not_elem_of_cons in Hb as [Hb Hbs].
  simpl. rewrite decide_False by congruence. by rewrite IH.
Qed.

Lemma length_bytes s : length (String.list_byte_of_string s) = String.length s.
Proof. unfold String.list_byte_of_string. induction s; simpl; [done|]. congruence. Qed.

Lemma bytes_app s t : String.list_byte_of_string (s ++ t) =
  String.list_byte_of_string s ++ String.list_byte_of_string t.
Proof.
  unfold String.list_byte_of_string. induction s as [|a s IH]; [done|].
  change (String a s +:+ t) with (String a (s +:+ t)). simpl. by rewrite IH.
Qed.

Lemma nonce_back name : no_null name -> reads_back (receive_nonce name) (send_nonce name) tt.
Proof.
  intros Hn. unfold receive_nonce, send_nonce. apply reads_back_if. intros _.
  rewrite <- (app_nil_r (_ ++ [x00])). eapply reads_back_bind.
  - replace (String.length name + 1)%nat with (length (String.list_byte_of_string name ++ [x00]))
      by by rewrite length_app, length_bytes.
    apply reads_back_data.
  - apply reads_back_assert, bool_decide_eq_true. by apply c_string_back.
Qed.

Lemma string_back name : Z.of_nat (length (to_bytes string_codec name)) < 2 ^ 64 ->
  reads_back receive_string (send_string name) name.
Proof.
  intros Hn. eapply reads_back_bind; [apply (reads_back_receive _ _ _ size_ok); lia|].
  rewrite <- (app_nil_r (to_bytes string_codec name)) at 2. rewrite Nat2Z.id.
  eapply reads_back_bind; [apply reads_back_data|]. apply reads_back_lift.
  pose proof (string_ok name [] I) as Hs. rewrite app_nil_r in Hs. by rewrite Hs.
Qed.

(** A debug build measures the names it sends. *)
Definition names_measured : Prop := forall r, Z.of_nat (length (to_bytes string_codec (type_name r))) < 2 ^ 64.

Lemma type_name_back r : names_measured -> reads_back (receive_type_name r) (send_type_name r) tt.
Proof.
  intros Hn. unfold receive_type_name, send_type_name. apply reads_back_if. intros _.
  rewrite <- (app_nil_r (send_string _)). eapply reads_back_bind; [by apply string_back|].
  by apply reads_back_assert, bool_decide_eq_true.
Qed.

(** What is received into a [type_holder] replaces all of it. *)
Lemma type_holder_back name t t0 : no_null name -> tholder_fits t ->
  fills (receive_type_holder name) t0 (serialize_type_holder name t) tt t.
Proof.
  intros Hn [Hv Hp]. unfold receive_type_holder, serialize_type_holder.
  eapply fills_bind; [by apply fills_reading, nonce_back|].
  eapply fills_bind; [by apply fills_reading, (reads_back_receive _ _ _ values_ok)|].
  eapply fills_first; [apply fills_assign|].
  eapply fills_bind; [by apply fills_reading, nonce_back|]. rewrite <- app_assoc.
  eapply fills_bind; [by apply fills_reading, (reads_back_receive _ _ _ int_ok)|].
  eapply fills_first; [apply fills_assign|].
  eapply fills_bind; [by apply fills_reading, (reads_back_receive _ _ _ bool_ok)|].
  eapply fills_first; [apply fills_assign|]. destruct t. by apply fills_reading, nonce_back.
Qed.

Lemma type_holder_name_no_null T n : no_null n -> no_null (type_holder_name T n).
Proof.
  intros Hn. unfold no_null, type_holder_name. rewrite !bytes_app, !elem_of_app.
  pose proof (typename_no_null T) as HT. unfold no_null in *.
  assert (Hb : x00 ∉ String.list_byte_of_string "type_holder<")
    by (apply (bool_decide_eq_true_1 (_ ∉ _)); vm_compute; reflexivity).
  assert (Hc : x00 ∉ String.list_byte_of_string ",") by (apply (bool_decide_eq_true_1 (_ ∉ _)); vm_compute; reflexivity).
  tauto.
Qed.

Lemma holder_back r h h0 : no_null (holder_name r) -> names_measured -> holder_fits h ->
  same_class h h0 = true ->
  fills (receive_holder r) h0 (serialize_holder r h) tt (received r h h0).
Proof.
  intros Hr Hm Hh Hk. destruct h as [t|v|T hs pos], h0 as [t0|v0|T0 hs0 pos0]; try done; simpl in *.
  - intros rest. cbn [receive_holder]. revert rest.
    apply (fills_on_member type_part (fun t _ => HType t) _ (HType t0)). by apply type_holder_back; [apply type_holder_name_no_null|].
  - intros rest. cbn [receive_holder]. revert rest.
    eapply fills_bind; [by apply fills_reading, type_name_back|].
    eapply fills_last; [|apply (fills_assign (fun _ => HValue (Some (default (zero_value r) v))) (HValue v0))].
    apply fills_reading, (reads_back_receive _ _ _ value_ok). destruct v; simpl; [by apply Hh|apply zero_sendable].
  - intros rest. cbn [receive_holder]. revert rest.
    eapply fills_bind; [by apply fills_reading, type_name_back|].
    eapply fills_bind; [by apply fills_reading, (reads_back_receive _ _ _ handles_ok)|].
    eapply fills_first; [apply fills_assign|].
    eapply fills_last; [by apply fills_reading, (reads_back_receive _ _ _ int_ok)|].
    apply (fills_assign (set_remote_pos pos) (HRemote T0 hs pos0)).
Qed.

(** ** The objects behind handles *)

Lemma entries_perm m : entries m ≡ₚ map_to_list m.
Proof. apply merge_sort_Permutation. Qed.

Lemma simple_nonce_back : reads_back receive_simple_nonce send_simple_nonce tt.
Proof.
  apply reads_back_if. intros _. rewrite <- (app_nil_r (to_bytes _ _)).
  eapply reads_back_bind; [by apply (reads_back_receive _ _ _ size_ok)|]. by apply reads_back_assert.
Qed.

Lemma no_null_empty : no_null "".
Proof. intros Hx%elem_of_nil. done. Qed.

Lemma entries_back T es m : Forall (fun p => tholder_fits p.2) es ->
  fills (receive_entries (length es) T) m (concat (serialize_entry T <$> es)) tt
    (foldl (fun m p => <[p.1 := p.2]> m) m es).
Proof.
  intros Hes. revert m. induction Hes as [|p es Hp Hes IH]; intros m; [apply fills_ret|].
  rewrite fmap_cons. cbn [concat length receive_entries foldl]. unfold serialize_entry at 1.
  rewrite <- !app_assoc.
  eapply fills_bind; [by apply fills_reading, (reads_back_receive _ _ _ name_ok)|].
  eapply fills_bind.
  { apply (fills_on_member (fun m => default empty_tholder (m !! p.1)) (fun entry m => <[p.1 := entry]> m)).
    by apply type_holder_back; [apply type_holder_name_no_null, no_null_empty|]. }
  eapply fills_bind; [apply fills_reading, simple_nonce_back|]. apply IH.
Qed.

Lemma foldl_entries (es : list (Z * tholder)) (m m0 : gmap Z tholder) : NoDup es.*1 ->
  (forall k t, (k, t) ∈ es -> m !! k = Some t) -> (forall k, k ∉ es.*1 -> m0 !! k = m !! k) ->
  foldl (fun m p => <[p.1 := p.2]> m) m0 es = m.
Proof.
  revert m0. induction es as [|[k t] es IH]; intros m0 Hn Hm Hm0; simpl.
  - apply map_eq. intros k. apply Hm0. by apply not_elem_of_nil.
  - apply NoDup_cons in Hn as [Hk Hn]. apply IH; [done|set_solver|].
    intros k' Hk'. destruct (decide (k = k')) as [<-|Hne].
    + rewrite lookup_insert_eq. symmetry. apply Hm. by left.
    + rewrite lookup_insert_ne by done. apply Hm0. set_solver.
Qed.

(** The objects of the sender replace those of the receiver, which has no others. *)
Lemma remote_map_back T m m0 : map_Forall (fun _ t => tholder_fits t) m ->
  Z.of_nat (size m) < 2 ^ 64 -> (forall k, m !! k = None -> m0 !! k = None) ->
  fills (receive_remote_map T) m0 (serialize_remote_map T m) tt m.
Proof.
  intros Hm Hs Hm0. unfold receive_remote_map, serialize_remote_map.
  eapply fills_bind.
  { apply fills_reading, reads_back_if. intros _. rewrite <- (app_nil_r (to_bytes _ _)).
    eapply reads_back_bind; [by apply (reads_back_receive _ _ _ bool_ok)|]. apply reads_back_ret. }
  eapply fills_bind; [apply fills_reading, nonce_back, typename_no_null|].
  eapply fills_bind; [apply fills_reading, (reads_back_receive _ _ _ size_ok); lia|].
  pose proof (entries_perm m) as Hp.
  replace (Z.to_nat (Z.of_nat (size m))) with (length (entries m))
    by by rewrite Nat2Z.id, Hp, length_map_to_list.
  eapply fills_bind; [apply entries_back|].
  { rewrite Hp. by apply map_Forall_to_list in Hm; eapply Forall_impl; [apply Hm|intros []]. }
  rewrite (foldl_entries (entries m) m m0).
  - eapply fills_first; [|apply fills_reading, nonce_back, typename_no_null].
    intros rest. unfold check_size. rewrite Z.eqb_refl. by destruct debug.
  - rewrite Hp. apply NoDup_fst_map_to_list.
  - intros k t. rewrite Hp. apply elem_of_map_to_list.
  - intros k Hk. destruct (m !! k) as [t|] eqn:Hkt; [|by apply Hm0]. exfalso. apply Hk.
    rewrite Hp. apply list_elem_of_fmap. exists (k, t). by split; [|apply elem_of_map_to_list].
Qed.

Definition map_fits (m : gmap Z tholder) : Prop :=
  map_Forall (fun _ t => tholder_fits t) m /\ Z.of_nat (size m) < 2 ^ 64.

(** The maps of a label of the receiver, and none of its own entries *)
Definition maps_of (l : label) (s : store) : list (ty * gmap Z tholder) :=
  base.filter (fun x => map_of_label l x.1 = true) (supers s).

Definition maps_match (l : label) (s s0 : store) : Prop :=
  Forall2 (fun x x0 => x.1 = x0.1 /\ forall k, x.2 !! k = None -> x0.2 !! k = None)
    (maps_of l s) (maps_of l s0).

(** The receiver's maps with those of the label replaced by [ms] *)
Fixpoint merge_maps (l : label) (maps0 ms : list (ty * gmap Z tholder)) : list (ty * gmap Z tholder) :=
  match maps0 with
  | [] => []
  | x0 :: maps0 =>
      if map_of_label l x0.1 then
        match ms with
        | x :: ms => (x0.1, x.2) :: merge_maps l maps0 ms
        | [] => x0 :: merge_maps l maps0 []
        end
      else x0 :: merge_maps l maps0 ms
  end.

Lemma maps_back l maps0 ms : Forall (fun x => map_fits x.2) ms ->
  Forall2 (fun x x0 => x.1 = x0.1 /\ forall k, x.2 !! k = None -> x0.2 !! k = None) ms
    (base.filter (fun x => map_of_label l x.1 = true) maps0) ->
  fills (receive_maps l) maps0 (concat ((fun x => serialize_remote_map x.1 x.2) <$> ms)) tt
    (merge_maps l maps0 ms).
Proof.
  revert ms. induction maps0 as [|[T m0] maps0 IH]; intros ms Hf Hm rest.
  - by apply Forall2_nil_inv_r in Hm as ->.
  - rewrite filter_cons in Hm. cbn [receive_maps merge_maps fst].
    destruct (decide (map_of_label l (T, m0).1 = true)) as [HT|HT]; simpl in HT.
    + rewrite HT. apply Forall2_cons_inv_r in Hm as ([T' m] & ms' & [HT' Hk] & Hm & ->).
      simpl in HT', Hk. subst T'. apply Forall_cons in Hf as [[Hmf Hs] Hf]. simpl in Hmf, Hs.
      rewrite fmap_cons. cbn [concat]. rewrite <- app_assoc, (remote_map_back T m m0) by done.
      by rewrite (IH ms') by done.
    + apply not_true_iff_false in HT. rewrite HT. unfold mret at 1, Filler_ret at 1. by rewrite (IH ms) by done.
Qed.

Lemma merge_maps_types l maps0 ms : (merge_maps l maps0 ms).*1 = maps0.*1.
Proof.
  revert ms. induction maps0 as [|[T m0] maps0 IH]; intros ms; [done|]. cbn [merge_maps fst].
  destruct (map_of_label l T); [destruct ms|]; rewrite !fmap_cons; cbn [fst]; by rewrite IH.
Qed.

Lemma find_merge_maps l T maps0 ms :
  (base.filter (fun x => map_of_label l x.1 = true) maps0).*1 = ms.*1 ->
  snd <$> List.find (fun x => bool_decide (x.1 = T)) (merge_maps l maps0 ms) =
  if map_of_label l T then snd <$> List.find (fun x => bool_decide (x.1 = T)) ms
  else snd <$> List.find (fun x => bool_decide (x.1 = T)) maps0.
Proof.
  revert ms. induction maps0 as [|[T0 m0] maps0 IH]; intros ms Hm.
  - destruct ms; [|done]. by destruct (map_of_label l T).
  - rewrite filter_cons in Hm. cbn [merge_maps fst].
    destruct (decide (map_of_label l (T0, m0).1 = true)) as [HT|HT]; simpl in HT.
    + rewrite HT. destruct ms as [|[T1 m1] ms]; [done|]. injection Hm as <- Hm. simpl.
      specialize (IH ms Hm). case_bool_decide as HTT; simpl; [subst T0; by rewrite HT|].
      exact IH.
    + apply not_true_iff_false in HT. rewrite HT. simpl. specialize (IH ms Hm).
      case_bool_decide as HTT; simpl; [subst T0; by rewrite HT|exact IH].
Qed.

Lemma find_maps_of l T s : map_of_label l T = true ->
  snd <$> List.find (fun x => bool_decide (x.1 = T)) (maps_of l s) = super_of T s.
Proof.
  intros HT. unfold maps_of, super_of. induction (supers s) as [|[T0 m0] ms IH]; [done|].
  rewrite filter_cons. destruct (decide _) as [H'|H']; simpl in *; case_bool_decide; simpl; try done.
  by subst.
Qed.

(** A required name that both stores have, with contents that fit the wire *)
Definition holder_ready (s s0 : store) (r : holder_type) : Prop :=
  is_constant_name (holder_name r) = false /\ no_null (holder_name r) /\
  exists h h0, holders s !! holder_name r = Some h /\ holders s0 !! holder_name r = Some h0 /\
    holder_fits h /\ same_class h h0 = true.

Lemma holders_back rs s s0 : names_measured -> NoDup (holder_name <$> rs) ->
  (forall r, r ∈ rs -> holder_ready s s0 r) ->
  exists bs s1, send_all s rs = inl bs /\ fills (receive_all rs) s0 bs tt s1 /\
    supers s1 = supers s0 /\
    (forall r h h0, r ∈ rs -> holders s !! holder_name r = Some h ->
       holders s0 !! holder_name r = Some h0 -> holders s1 !! holder_name r = Some (received r h h0)) /\
    (forall x, x ∉ holder_name <$> rs -> holders s1 !! x = holders s0 !! x).
Proof.
  intros Hm. revert s0. induction rs as [|r rs IH]; intros s0 Hn Hr.
  { exists [], s0. split_and!; [done|apply fills_ret|done| |done]. by intros r h h0 Hin%elem_of_nil. }
  apply NoDup_cons in Hn as [Hrn Hn].
  destruct (Hr r) as (Hc & Hnull & h & h0 & Hh & Hh0 & Hf & Hk); [by left|].
  set (s1 := set_holder (holder_name r) (received r h h0) s0).
  destruct (IH s1 Hn) as (bs & s2 & Hb & Hback & Hsup & Hin & Hout).
  { intros r' Hr'. destruct (Hr r') as (Hc' & Hnull' & h' & h0' & Hh' & Hh0' & Hf' & Hk'); [by right|].
    split; [done|]. split; [done|]. exists h', h0'. split_and!; try done.
    unfold s1. rewrite lookup_set_holder_ne; [done|]. intros He. apply Hrn. rewrite He.
    by apply list_elem_of_fmap_2. }
  exists (serialize_holder r h ++ bs), s2. cbn [send_all]. unfold send_holder_values. rewrite Hc, Hh.
  cbn [mbind Res_bind]. rewrite Hb. split_and!; [done| |by rewrite Hsup|..].
  - cbn [receive_all]. eapply fills_bind; [|exact Hback].
    intros rest. unfold receive_holder_values. rewrite Hc, Hh0. by rewrite (holder_back r h h0).
  - intros r' h' h0' [->|Hr']%elem_of_cons Hh' Hh0'.
    + assert (h' = h) as -> by congruence. assert (h0' = h0) as -> by congruence.
      rewrite Hout by done. apply lookup_set_holder.
    + apply (Hin r' h' h0' Hr' Hh'). unfold s1. rewrite lookup_set_holder_ne; [done|].
      intros He. apply Hrn. rewrite He. by apply list_elem_of_fmap_2.
  - intros x Hx. rewrite fmap_cons in Hx. apply not_elem_of_cons in Hx as [Hx1 Hx2].
    rewrite Hout by done. unfold s1. by rewrite lookup_set_holder_ne by congruence.
Qed.

(** What a store has received from [s] *)
Record delivered (l : label) (rs : list holder_type) (s s0 s1 : store) : Prop := {
  delivered_holder r h h0 : r ∈ rs -> holders s !! holder_name r = Some h ->
    holders s0 !! holder_name r = Some h0 -> holders s1 !! holder_name r = Some (received r h h0);
  delivered_other x : x ∉ holder_name <$> rs -> holders s1 !! x = holders s0 !! x;
  delivered_types : (supers s1).*1 = (supers s0).*1;
  delivered_supers T : super_of T s1 = if map_of_label l T then super_of T s else super_of T s0 }.

Definition sendable_to (l : label) (rs : list holder_type) (s s0 : store) : Prop :=
  NoDup (holder_name <$> rs) /\ (forall r, r ∈ rs -> holder_ready s s0 r) /\
  Forall (fun x => map_fits x.2) (maps_of l s) /\ maps_match l s s0 /\
  Z.of_nat (length (maps_of l s)) < 2 ^ 64.

Lemma store_back l rs s s0 : names_measured -> sendable_to l rs s s0 ->
  exists bs s1, send_store_values l rs s = inl bs /\
    fills (receive_store_values l rs) s0 bs tt s1 /\ delivered l rs s s0 s1.
Proof.
  intros Hm (Hn & Hr & Hf & Hmatch & Hlen).
  set (s' := Store (holders s0) (merge_maps l (supers s0) (maps_of l s))).
  destruct (holders_back rs s s' Hm Hn Hr) as (bs & s1 & Hb & Hback & Hsup & Hin & Hout).
  eexists _, s1. unfold send_store_values. rewrite Hb. split; [done|].
  assert (Hmaps : fills (receive_remote_maps l) s0 (send_remote_maps l s) tt s').
  { unfold receive_remote_maps, send_remote_maps. fold (maps_of l s).
    eapply fills_bind.
    { apply fills_reading, reads_back_if. intros _. rewrite <- (app_nil_r (to_bytes _ _)).
      eapply reads_back_bind; [apply (reads_back_receive _ _ _ size_ok); lia|]. apply reads_back_ret. }
    apply (fills_on_member supers (fun maps s => Store (holders s) maps)). by apply maps_back. }
  split.
  - unfold receive_store_values. eapply fills_bind; [apply fills_reading, nonce_back, typeset_no_null|].
    eapply fills_bind; [exact Hmaps|].
    eapply fills_bind; [apply fills_reading, nonce_back, typeset_no_null|]. exact Hback.
  - split; [exact Hin|exact Hout|rewrite Hsup; apply merge_maps_types|]. intros T. unfold super_of at 1. rewrite Hsup. unfold s'. cbn [supers].
    rewrite find_merge_maps.
    + destruct (map_of_label l T) eqn:HT; [by apply find_maps_of|done].
    + fold (maps_of l s0). clear -Hmatch. unfold maps_match in Hmatch.
      induction Hmatch as [|x x0 ms ms0 [Hx _] _ IH]; [done|]. by rewrite !fmap_cons, IH, Hx.
Qed.

(** C6: What a store was written as is read back, whatever follows it: the required
  names hold what they held at the sender (a [value_holder] that was never bound
  holds zeroes), all the objects behind handles of the label are the sender's,
  and nothing else of the receiver changes. *)
Theorem store_values_roundtrip l rs s s0 bs : names_measured -> sendable_to l rs s s0 ->
  send_store_values l rs s = inl bs -> exists s1,
    (forall rest, receive_store_values l rs s0 (bs ++ rest) = (inl (tt, rest), s1)) /\
    (forall r h h0, r ∈ rs -> holders s !! holder_name r = Some h ->
       holders s0 !! holder_name r = Some h0 -> holders s1 !! holder_name r = Some (received r h h0)) /\
    (forall x, x ∉ holder_name <$> rs -> holders s1 !! x = holders s0 !! x) /\
    (forall T, super_of T s1 = if map_of_label l T then super_of T s else super_of T s0).
Proof.
  intros Hm Hs Hb. destruct (store_back l rs s s0 Hm Hs) as (bs' & s1 & Hb' & Hback & [Hh Ho _ Hsup]).
  assert (bs' = bs) as -> by congruence. by exists s1.
Qed.

(** ** Anything that is read changes only what was asked for *)

(** Only the holders of these names and the maps of these types may differ. *)
Definition only (N : string -> Prop) (M : ty -> Prop) (s s' : store) : Prop :=
  (forall x, ~ N x -> holders s' !! x = holders s !! x) /\
  (forall T, ~ M T -> super_of T s' = super_of T s) /\
  ((supers s').*1 = (supers s).*1).

#[local] Instance only_refl N M : Reflexive (only N M).
Proof. by intros s. Qed.
#[local] Instance only_trans N M : Transitive (only N M).
Proof.
  intros s s' s'' (Hh & HT & Ht) (Hh' & HT' & Ht'). split_and!; [..|by rewrite Ht'].
  - intros x Hx. by rewrite Hh', Hh.
  - intros T HM. by rewrite HT', HT.
Qed.

Lemma receive_all_leaves N M rs : (forall r, r ∈ rs -> N (holder_name r)) ->
  leaves (only N M) (receive_all rs).
Proof.
  induction rs as [|r rs IH]; intros Hrs; cbn [receive_all]; [by intros s bs|].
  apply filler_leaves_bind; [apply _| |intros _; apply IH; intros r' Hr'; apply Hrs; by right].
  intros s bs. unfold receive_holder_values. destruct (is_constant_name _); [done|].
  destruct (holders s !! holder_name r) as [h|]; [|done]. destruct (receive_holder r h bs) as [x h'].
  split; [|done]. intros y Hy. apply lookup_set_holder_ne. intros <-. apply Hy, Hrs. by left.
Qed.

Lemma receive_maps_leaves l maps bs :
  (receive_maps l maps bs).2.*1 = maps.*1 /\
  forall T, map_of_label l T = false ->
    snd <$> List.find (fun x => bool_decide (x.1 = T)) (receive_maps l maps bs).2 =
    snd <$> List.find (fun x => bool_decide (x.1 = T)) maps.
Proof.
  revert bs. induction maps as [|[T0 m0] maps IH]; intros bs; cbn [receive_maps]; [done|].
  destruct ((if map_of_label l T0 then receive_remote_map T0 else mret tt) m0 bs) as [r m] eqn:Hr.
  assert (Hm : forall T, map_of_label l T = false -> T0 = T -> m = m0).
  { intros T HT <-. rewrite HT in Hr. by injection Hr. }
  destruct r as [[u rest]|e]; [destruct (IH rest) as [Ht Hf];
    destruct (receive_maps l maps rest) as [r' maps']|]; cbn [snd] in *; rewrite !fmap_cons; cbn [fst];
    (split; [by rewrite ?Ht|]); intros T HT; cbn; case_bool_decide as He; cbn; auto; by rewrite (Hm T).
Qed.

Lemma receive_store_leaves l rs :
  leaves (only (.∈ holder_name <$> rs) (fun T => map_of_label l T = true)) (receive_store_values l rs).
Proof.
  unfold receive_store_values. apply filler_leaves_bind; [apply _|by apply leaves_reading, _|intros _].
  apply filler_leaves_bind; [apply _| |intros _; apply filler_leaves_bind; [apply _|by apply leaves_reading, _|intros _]].
  - unfold receive_remote_maps. apply filler_leaves_bind; [apply _|by apply leaves_reading, _|intros _].
    intros s bs. unfold on_member. pose proof (receive_maps_leaves l (supers s) bs) as [Ht Hf].
    destruct (receive_maps l (supers s) bs) as [r maps]. split; [done|]. split; [|done].
    intros T HT%not_true_iff_false. by apply Hf.
  - apply receive_all_leaves. intros r Hr. by apply list_elem_of_fmap_2.
Qed.
End wire.
