(* ===== verification/RemoteSim.v ===== *)
(** * A phase on two stores

    Two stores that hold the same for the names of a phase run it alike: with the
    same result, the same calls into the world, and the same holders afterwards.
    One store may have a value where the other has a [value_holder] that was
    never bound, which is what is left of it on the wire. *)
From S2P Require Import Prelude TypeLists Labels TypedAst PhaseApi Runtime Holders SplitAst Split.
From S2P Require Import Tracking RunPhase SplitSim RunFrames Wire.

#[local] Open Scope Z_scope.

(** The names a phase may write, the others it only steps over *)
Fixpoint written (s : pstmt) : list string :=
  match s with
  | PLet b body | PLetRemote b body => pb_var b :: written body
  | PAssignment v _ => [assigned_name v]
  | PIf _ t e => written t ++ written e
  | PWhile _ body name => name :: written body
  | PForEach body _ => written body
  | PSequence seq => concat (written <$> seq)
  | POperation _ _ _ | PReturn _ | PWriteTombstone _ | PAccompanyWrite _
  | PIncrementOccurance _ | PIncrementRemoteOccurance _ | PRefreshRemoteOccurance _ => []
  end.

(** ** What a phase refers to *)

Section within.
(** The names, the handle types, and whether list built-ins may be used *)
Variables (X : string -> bool) (Ts : ty -> bool) (lists : bool).

Definition var_within (v : string) : bool :=
  bool_decide (v = "true" \/ v = "false")%string || (if decide (v = list_stub_name) then lists else X v).

Fixpoint expr_within (e : pexpr) : bool :=
  match e with
  | PEVar _ v => var_within v
  | PEField _ s _ => expr_within s
  | PEConst _ | PEGenerateTombstone => true
  | PEBinOp _ _ L R => expr_within L && expr_within R
  | PEIsValid _ h => expr_within h
  | PEOperation _ n h args =>
      (lists || negb (bool_decide (n = push_back_name))) && expr_within h && forallb expr_within args
  end.

Fixpoint stmt_within (s : pstmt) : bool :=
  match s with
  | PLet b body | PLetRemote b body => expr_within (pb_expr b) && X (pb_var b) && stmt_within body
  | POperation n h args => expr_within (PEOperation TVoid n h args)
  | PAssignment v e => expr_within v && expr_within e && X (assigned_name v)
  | PReturn e => expr_within e
  | PWriteTombstone e => expr_within e
  | PAccompanyWrite e => expr_within e && X (assigned_name e) && var_within tombstone_str
  | PIncrementOccurance v | PIncrementRemoteOccurance v => X v
  | PRefreshRemoteOccurance (PEVar T v) => Ts T && var_within v
  | PRefreshRemoteOccurance _ => true
  | PIf c t e => expr_within c && stmt_within t && stmt_within e
  | PWhile c body name => expr_within c && X name && stmt_within body
  | PForEach body name => X name && stmt_within body
  | PSequence seq => forallb stmt_within seq
  end.
End within.

(** ** Related states *)

Section sim.
Context `{Remote}.
Variables (X W : string -> bool) (Ts : ty -> bool) (lists : bool).
(** The states the two runs started from *)
Variables k k0 : run_state.

Definition holder_le (h h0 : holder) : Prop :=
  h0 = h \/ h = HValue None /\ exists v, h0 = HValue (Some v) /\ sendable v = true.

(** What a phase does not write it keeps, but for positions; holders stay of their
    class, and no object is forgotten. *)
Record kept_from (k s : run_state) : Prop := {
  kf_kind x : kind_of <$> holders (st_store s) !! x = kind_of <$> holders (st_store k) !! x;
  kf_types : (supers (st_store s)).*1 = (supers (st_store k)).*1;
  kf_objects T i : super_of T (st_store s) ≫= (.!! i) = None -> super_of T (st_store k) ≫= (.!! i) = None;
  kf_holder x : W x = false ->
    holder_begin_phase <$> holders (st_store s) !! x = holder_begin_phase <$> holders (st_store k) !! x;
  kf_super T : Ts T = false -> super_of T (st_store s) = super_of T (st_store k);
  kf_lists : lists = false -> st_lists s = st_lists k }.

Record agree (s s0 : run_state) : Prop := {
  ag_holder x h : X x = true -> holders (st_store s) !! x = Some h ->
    exists h0, holders (st_store s0) !! x = Some h0 /\ holder_le h h0;
  ag_remote x T hs p : X x = true -> holders (st_store s) !! x = Some (HRemote T hs p) -> Ts T = true;
  ag_super T : Ts T = true -> super_of T (st_store s0) = super_of T (st_store s);
  ag_world : st_world s0 = st_world s;
  ag_lists : lists = true -> st_lists s0 = st_lists s;
  ag_kept : kept_from k s;
  ag_kept0 : kept_from k0 s0 }.

(** The results a transaction can go on from, and the exceptions a server answers *)
Definition definite {A} (r : A + stop) : bool :=
  match r with
  | inl _ | inr (Returned _) | inr (Throws SerializationFailure)
  | inr (Throws TombNameCollision) | inr (Throws BadCast)
  | inr (Throws SqlException) | inr (Throws UnmatchedUse) => true
  | inr _ => false
  end.

Definition follows {A} (r r0 : (A + stop) * run_state) : Prop :=
  definite r.1 = true -> r0.1 = r.1 /\ agree r.2 r0.2.

Definition sim {A} (m : Run A) : Prop := forall s s0, agree s s0 -> follows (m s) (m s0).

(** *** Computations *)

Lemma sim_bind {A B} (m : Run A) (f : A -> Run B) : sim m -> (forall a, sim (f a)) -> sim (m ≫= f).
Proof.
  intros Hm Hf s s0 Hs Hd. specialize (Hm s s0 Hs). unfold mbind, Run_bind in *.
  destruct (m s) as [[a|e] s1]; simpl in *.
  - destruct Hm as [Ha Hs1]; [done|]. destruct (m s0) as [r0 s2]. simpl in *. subst r0.
    by apply Hf.
  - destruct Hm as [Ha Hs1]; [done|]. destruct (m s0) as [r0 s2]. simpl in *. by subst r0.
Qed.

Lemma follows_same {A} (r : A + stop) s s0 : agree s s0 -> follows (r, s) (r, s0).
Proof. by intros Hs _. Qed.
Lemma sim_same {A} (r : A + stop) : sim (fun s => (r, s)).
Proof. intros s s0. apply follows_same. Qed.
Lemma sim_ret {A} (a : A) : sim (mret a).
Proof. apply (sim_same (inl a)). Qed.
Lemma sim_halt {A} e : sim (halt (A := A) e).
Proof. apply (sim_same (inr e)). Qed.
Lemma sim_lift {A} (r : Res A) : sim (lift r).
Proof. apply (sim_same r). Qed.
Lemma sim_expect {A} e (o : option A) : sim (expect e o).
Proof. destruct o; [apply sim_ret|apply sim_halt]. Qed.
Lemma sim_cond {A} (b : bool) (m m' : Run A) : sim m -> sim m' -> sim (if b then m else m').
Proof. by destruct b. Qed.
Lemma sim_handle_at hs pos : sim (handle_at hs pos).
Proof. unfold handle_at. destruct (_ && _); [apply sim_expect|apply sim_halt]. Qed.
Lemma sim_as_handle v : sim (as_handle v).
Proof. destruct v; apply sim_same. Qed.

Lemma sim_call {A} (m : RT (RunPhase.W) A) : sim (call m).
Proof.
  intros s s0 Hs _. unfold call. rewrite (ag_world _ _ Hs). destruct (m (st_world s)) as [r w].
  split; [done|]. destruct Hs as [? ? ? ? ? [] []]. by repeat constructor.
Qed.

Lemma sim_fresh_list : lists = true -> sim fresh_list.
Proof.
  intros Hl s s0 Hs _. unfold fresh_list. rewrite (ag_lists _ _ Hs Hl).
  split; [done|]. destruct Hs as [? ? ? ? ? [] []]. constructor; auto; constructor; auto; congruence.
Qed.

Lemma sim_push_back l x : lists = true -> sim (list_push_back l x).
Proof.
  intros Hl s s0 Hs. unfold list_push_back. rewrite (ag_lists _ _ Hs Hl).
  destruct (st_lists s !! l); [|done]. intros _. split; [done|].
  destruct Hs as [? ? ? ? ? [] []]. constructor; auto; constructor; auto; congruence.
Qed.

(** *** Holders *)

Lemma kept_holder k1 s x h h' : kept_from k1 s -> holders (st_store s) !! x = Some h ->
  kind_of h' = kind_of h -> (W x = false -> holder_begin_phase h' = holder_begin_phase h) -> kept_from k1 (with_holder x h' s).
Proof.
  intros [HK Ht Ho Hk Hs Hl] Hh Hkind Hb. constructor; try done.
  - intros y. rewrite <- HK. cbn. destruct (decide (x = y)) as [<-|Hne]; [|by rewrite lookup_insert_ne].
    rewrite lookup_insert_eq, Hh. simpl. by rewrite Hkind.
  - intros y Hy. rewrite <- Hk by done. cbn.
    destruct (decide (x = y)) as [<-|Hne]; [|by rewrite lookup_insert_ne].
    rewrite lookup_insert_eq, Hh. simpl. by rewrite Hb.
Qed.

Lemma agree_holder s s0 x h h1 h' h1' : agree s s0 -> X x = true ->
  holders (st_store s) !! x = Some h -> holders (st_store s0) !! x = Some h1 -> holder_le h' h1' ->
  kind_of h' = kind_of h -> kind_of h1' = kind_of h1 ->
  (W x = false -> holder_begin_phase h' = holder_begin_phase h /\
                  holder_begin_phase h1' = holder_begin_phase h1) ->
  agree (with_holder x h' s) (with_holder x h1' s0).
Proof.
  intros Hs Hx Hh Hh1 Hle HT HT1 HW. destruct Hs. constructor; try done; cbn.
  - intros y j Hy. destruct (decide (x = y)) as [<-|Hne].
    + rewrite !lookup_insert_eq. intros [= <-]. eauto.
    + rewrite !lookup_insert_ne by done. by apply ag_holder0.
  - intros y T hs p Hy. destruct (decide (x = y)) as [<-|Hne].
    + rewrite lookup_insert_eq. intros [= ->]. destruct h as [| |T' hs' p']; simplify_eq/=. eauto.
    + rewrite lookup_insert_ne by done. by apply ag_remote0.
  - eapply kept_holder; [done..|]. intros HWx. by apply HW.
  - eapply kept_holder; [done..|]. intros HWx. by apply HW.
Qed.

Lemma kept_super k1 s T n th : kept_from k1 s -> Ts T = true ->
  kept_from k1 (RunState (super_set T n th (st_store s)) (st_lists s) (st_world s)).
Proof.
  intros [HK Ht Ho Hk Hs Hl] HT. constructor; try done; cbn [st_store].
  - rewrite <- Ht. unfold super_set. cbn [supers]. rewrite <- list_fmap_compose. apply list_fmap_ext.
    intros j x _. cbn. by case_decide.
  - intros T' i Hi. apply Ho. rewrite super_of_set in Hi. destruct (decide (T' = T)) as [->|]; [|done].
    destruct (super_of T (st_store s)) as [m|]; [|done]. simpl in *.
    destruct (decide (n = i)) as [<-|Hne]; [by rewrite lookup_insert_eq in Hi|].
    by rewrite lookup_insert_ne in Hi.
  - intros T' HT'. rewrite super_of_set. rewrite decide_False by (intros ->; congruence). by apply Hs.
Qed.

Lemma agree_super s s0 T n th : agree s s0 -> Ts T = true ->
  agree (RunState (super_set T n th (st_store s)) (st_lists s) (st_world s))
        (RunState (super_set T n th (st_store s0)) (st_lists s0) (st_world s0)).
Proof.
  intros [] HT. constructor; try done; [|by apply kept_super..].
  intros T' HT'. cbn [st_store]. rewrite !super_of_set.
  destruct (decide (T' = T)) as [->|]; by rewrite ag_super0.
Qed.

Lemma agree_super_get s s0 T n : agree s s0 -> Ts T = true ->
  super_get T n (st_store s0) = super_get T n (st_store s).
Proof. intros Hs HT. by rewrite !super_get_of, (ag_super _ _ Hs T HT). Qed.

(** A computation with the holder of [v] *)
Lemma sim_found {A} v (f : holder -> Run A) : X v = true ->
  (forall s s0 h h0, agree s s0 -> holders (st_store s) !! v = Some h ->
     holders (st_store s0) !! v = Some h0 -> holder_le h h0 -> follows (f h s) (f h0 s0)) ->
  sim (h ← find_holder v; f h).
Proof.
  intros Hv Hf s s0 Hs. unfold find_holder, get_store, expect, mbind, Run_bind. cbn.
  destruct (holders (st_store s) !! v) as [h|] eqn:Hh; [|done].
  destruct (ag_holder _ _ Hs v h Hv Hh) as (h0 & Hh0 & Hle). rewrite Hh0. by apply Hf.
Qed.

Lemma sim_on_holder {A} v (f : holder -> store -> Run A) : X v = true ->
  (forall s s0 h h0, agree s s0 -> holders (st_store s) !! v = Some h ->
     holders (st_store s0) !! v = Some h0 -> holder_le h h0 ->
     follows (f h (st_store s) s) (f h0 (st_store s0) s0)) ->
  sim (h ← find_holder v; s ← get_store; f h s).
Proof. intros Hv Hf. by apply sim_found. Qed.

Lemma sim_super_get T n : Ts T = true ->
  sim (s ← get_store; expect (Throws AssertFailed) (th_get (super_get T n s))).
Proof.
  intros HT s s0 Hs. unfold get_store, mbind, Run_bind. rewrite (agree_super_get s s0) by done.
  by apply sim_expect.
Qed.

(** The two stores differ in what a holder that was never bound would give. *)
Lemma sim_get v : X v = true -> sim (holder_get v).
Proof.
  intros Hv. apply sim_found; [done|]. intros s s0 h h0 Hs Hh Hh0 Hle.
  destruct Hle as [->|(-> & x & -> & _)]; [|done]. revert Hs. destruct h as [h|o|T hs p].
  - apply sim_expect.
  - apply sim_expect.
  - intros Hs. pose proof (ag_remote _ _ Hs v T hs p Hv Hh) as HT. revert Hs.
    apply sim_bind; [apply sim_handle_at|]. intros hndl. by apply sim_super_get.
Qed.

Lemma sim_get_remote v : X v = true -> sim (holder_get_remote v).
Proof.
  intros Hv. apply sim_found; [done|]. intros s s0 h h0 Hs Hh Hh0 Hle.
  destruct Hle as [->|(-> & x & -> & _)]; [|done]. destruct h; try done. by apply sim_handle_at.
Qed.

Lemma sim_push v x : X v = true -> W v = true -> sim (holder_push v x).
Proof.
  intros Hv HW. apply sim_on_holder; [done|]. intros s s0 h h0 Hs Hh Hh0 Hle.
  destruct Hle as [->|(-> & y & -> & _)]; [|done]. destruct h as [h|[y|]|T hs p]; [| |done|].
  - intros _. split; [done|]. eapply (agree_holder s s0 v); try done; [by left|congruence].
  - intros _. split; [done|]. eapply (agree_holder s s0 v); try done; [by left|congruence].
  - pose proof (ag_remote _ _ Hs v T hs p Hv Hh) as HT. unfold mbind, Run_bind, handle_at, expect.
    destruct (_ && _); [|done]. destruct (hs !! Z.to_nat p) as [hndl|]; [|done]. cbn.
    rewrite (agree_super_get s s0) by done. destruct (last hs); [|done].
    apply sim_call. by apply agree_super.
Qed.

(** Reading the object behind a handle that was just bound *)
Lemma sim_bind_object tracked T hs pos : Ts T = true ->
  sim (hndl ← handle_at hs pos;
       target ← call (rm_get hndl);
       s ← get_store;
       h' ← expect (Throws AssertFailed) (th_bind (super_get T (handle_name hndl) s) target);
       set_store (super_set T (handle_name hndl) h' s);;
       if (tracked : bool) then call (trk_read_actions hndl) else mret tt).
Proof.
  intros HT. apply sim_bind; [apply sim_handle_at|]. intros hndl.
  apply sim_bind; [apply sim_call|]. intros target s s0 Hs.
  unfold mbind at 1 4, Run_bind at 1 4, get_store. rewrite (agree_super_get s s0) by done.
  unfold th_bind. destruct (th_in_range _); [|done]. cbn.
  destruct (tracked : bool); [apply sim_call; by apply agree_super|].
  intros _. split; [done|]. by apply agree_super.
Qed.

Lemma sim_bind_var tracked v x : X v = true -> W v = true -> sim (holder_bind tracked v x).
Proof.
  intros Hv HW. apply sim_on_holder; [done|]. intros s s0 h h0 Hs Hh Hh0 Hle.
  destruct Hle as [->|(-> & y & -> & _)].
  - destruct h as [h|o|T hs p].
    + unfold th_bind. destruct (th_in_range _); [|done]. intros _. split; [done|].
      eapply (agree_holder s s0 v); try done; [by left|congruence].
    + intros _. split; [done|]. eapply (agree_holder s s0 v); try done; [by left|congruence].
    + pose proof (ag_remote _ _ Hs v T hs p Hv Hh) as HT. destruct x as [| | | |t|]; try done.
      apply (sim_bind_object tracked T (hs ++ [t]) (p + 1) HT).
      eapply (agree_holder s s0 v); try done; [by left|congruence].
  - intros _. split; [done|]. eapply (agree_holder s s0 v); try done; [by left|congruence].
Qed.

Lemma sim_increment_super T hs p : Ts T = true -> sim (increment_super T hs p).
Proof.
  intros HT. apply sim_bind; [apply sim_handle_at|]. intros hndl s s0 Hs _.
  unfold get_store, mbind, Run_bind, set_store. cbn. rewrite (agree_super_get s s0) by done.
  split; [done|]. by apply agree_super.
Qed.

Lemma sim_increment v : X v = true -> sim (holder_increment v).
Proof.
  intros Hv. apply sim_on_holder; [done|]. intros s s0 h h0 Hs Hh Hh0 Hle.
  destruct Hle as [->|(-> & y & -> & _)]; [|done]. destruct h as [h|o|T hs p]; [|done|].
  - intros _. split; [done|]. eapply (agree_holder s s0 v); try done; by left.
  - destruct (0 <=? p); [|done]. apply sim_increment_super; [|done]. by eapply ag_remote.
Qed.

Lemma sim_increment_remote v : X v = true -> sim (holder_increment_remote v).
Proof.
  intros Hv. apply sim_on_holder; [done|]. intros s s0 h h0 Hs Hh Hh0 Hle.
  destruct Hle as [->|(-> & y & -> & _)]; [|done]. destruct h as [h|o|T hs p]; [done..|].
  unfold set_store, mbind at 1, Run_bind at 1. cbn [fst snd].
  apply (sim_bind (handle_at hs (p + 1))); [apply sim_handle_at| |].
  - intros _. apply sim_increment_super. by eapply ag_remote.
  - eapply (agree_holder s s0 v); try done; by left.
Qed.
End sim.

Create HintDb sim.
#[export] Hint Resolve sim_ret sim_halt sim_lift sim_expect sim_call sim_cond sim_handle_at sim_as_handle
  sim_fresh_list sim_push_back sim_get sim_get_remote sim_push sim_bind_var sim_increment
  sim_increment_remote : sim.

(** Relate a computation built from related steps. *)
Ltac sim_steps := repeat match goal with
  | |- sim _ _ _ _ _ _ (_ ≫= _) => apply sim_bind; [|intros ?]
  | |- sim _ _ _ _ _ _ (if ?b then _ else _) => first [apply sim_cond | destruct b]
  | |- sim _ _ _ _ _ _ (match ?x with _ => _ end) => destruct x
  | |- sim _ _ _ _ _ _ _ => solve [eauto with sim]
  end.

Section statements.
Context `{Remote}.
Variables (X W : string -> bool) (Ts : ty -> bool) (lists : bool) (k k0 : run_state).
#[local] Abbreviation sim := (sim X W Ts lists k k0).
#[local] Abbreviation expr_within := (expr_within X lists).
#[local] Abbreviation stmt_within := (stmt_within X Ts lists).

Lemma sim_var v : var_within X lists v = true -> sim (run_var v).
Proof.
  unfold var_within, run_var. intros Hv. destruct (decide (v = "true"%string)); [apply sim_ret|].
  destruct (decide (v = "false"%string)); [apply sim_ret|].
  rewrite bool_decide_false in Hv by tauto. simpl in Hv.
  destruct (decide (v = list_stub_name)); [by apply sim_fresh_list|by apply sim_get].
Qed.

Lemma sim_mapM {A B} (f : A -> Run B) l : (forall a, a ∈ l -> sim (f a)) -> sim (mapM_run f l).
Proof.
  intros Hf. induction l as [|a l IH]; cbn [mapM_run]; sim_steps.
  - apply Hf. by left.
  - apply IH. intros b Hb. apply Hf. by right.
Qed.

Lemma sim_operation n h args : lists || negb (bool_decide (n = push_back_name)) = true -> sim args ->
  sim (run_operation n h args).
Proof.
  intros Hn Ha. unfold run_operation. destruct (decide (n = nulled_name)); [sim_steps|].
  destruct (decide (n = push_back_name)); [|sim_steps; done].
  rewrite bool_decide_true, orb_false_r in Hn by done. sim_steps; done.
Qed.

Lemma sim_expr e : expr_within e = true -> sim (run_expr e).
Proof.
  induction e as [y v|y s f IH|i|y op L R IHL IHR| |y h IH|y n h args IHh IHa] using pexpr_ind';
    cbn [run_expr RemoteSim.expr_within]; rewrite ?andb_true_iff; intros He.
  - by apply sim_var.
  - sim_steps; auto.
  - apply sim_ret.
  - destruct He as [HL HR]. repeat case_decide; sim_steps; auto.
  - sim_steps.
  - sim_steps; auto.
  - destruct He as [[Hn Hh] Ha]. sim_steps; auto. apply sim_operation; [done|].
    apply sim_mapM. intros b Hin. rewrite Forall_forall in IHa. apply IHa; [done|].
    by apply (proj1 (forallb_forall _ _) Ha), list_elem_of_In.
Qed.

Lemma sim_tombstone v : var_within X lists v = true -> sim (tombstone_name v).
Proof. intros Hv. unfold tombstone_name. apply sim_bind; [by apply sim_var|]. intros x. sim_steps. Qed.

Lemma sim_loop n cond body name : X name = true -> W name = true -> sim cond -> sim body ->
  forall i, sim (while_loop n cond body name i).
Proof.
  intros HX HW Hc Hb. induction n as [|n IH]; intros i; cbn [while_loop]; sim_steps; auto.
Qed.

Lemma sim_repeat n body : sim body -> sim (repeat_run n body).
Proof. intros Hb. induction n; cbn [repeat_run]; sim_steps; auto. Qed.

Lemma sim_store_test {A} (c : store -> bool) (m m' : Run A) :
  (forall s s0, agree X W Ts lists k k0 s s0 -> c (st_store s0) = c (st_store s)) ->
  sim m -> sim m' -> sim (st ← get_store; if c st then m else m').
Proof.
  intros Hc Hm Hm' s s0 Hs. unfold get_store, mbind, Run_bind. rewrite (Hc s s0 Hs).
  by apply sim_cond.
Qed.

Lemma sim_refresh T v : Ts T = true -> var_within X lists v = true -> sim
  (st ← get_store;
   if has_super_map T st then
     x ← run_var v; hndl ← as_handle x; target ← call (rm_get hndl); st ← get_store;
     set_store (super_set T (handle_name hndl)
       (th_push (super_get T (handle_name hndl) st) target) st)
   else mret tt).
Proof.
  intros HT Hv. apply sim_store_test; [|apply sim_bind; [by apply sim_var|]; intros x|apply sim_ret].
  { intros s s0 Hs. by rewrite !has_super_map_of, (ag_super _ _ _ _ _ _ _ _ Hs T HT). }
  apply sim_bind; [apply sim_as_handle|]. intros hndl.
  apply sim_bind; [apply sim_call|]. intros target s s0 Hs _.
  unfold mbind, Run_bind, get_store, set_store. rewrite (agree_super_get _ _ _ _ _ _ s s0) by done.
  split; [done|]. by apply agree_super.
Qed.

Variables (tracked : bool) (fuel : nat).
#[local] Abbreviation run_stmt := (run_stmt tracked fuel).

(** Two stores that agree run a phase alike. *)
Lemma sim_stmt p : stmt_within p = true -> (forall x, x ∈ written p -> W x = true) -> sim (run_stmt p).
Proof.
  induction p as [b p IH|b p IH|n h args|v e|e|e|e|v|v|h|c t e IHt IHe|c p name IH|p name IH|ss IH]
    using pstmt_ind'; cbn [RunPhase.run_stmt RemoteSim.stmt_within written]; rewrite ?andb_true_iff; intros Hp HW.
  - destruct Hp as [[He Hx] Hp]. sim_steps; [by apply sim_expr| |].
    + apply sim_bind_var; [done|]. apply HW. by left.
    + apply IH; [done|]. intros x Hin. apply HW. by right.
  - destruct Hp as [[He Hx] Hp]. sim_steps; [by apply sim_expr| |].
    + apply sim_bind_var; [done|]. apply HW. by left.
    + apply IH; [done|]. intros x Hin. apply HW. by right.
  - cbn [RemoteSim.expr_within] in Hp. rewrite !andb_true_iff in Hp. destruct Hp as [[Hn Hh] Ha].
    sim_steps; [by apply sim_expr|]. apply sim_operation; [done|]. apply sim_mapM. intros b Hin.
    apply sim_expr. by apply (proj1 (forallb_forall _ _) Ha), list_elem_of_In.
  - destruct Hp as [[Hv He] Hx]. assert (HWv : W (assigned_name v) = true) by (apply HW; by left).
    destruct v as [y v|y [y' v| | | | | |] f| | | | |]; try apply sim_halt; cbn [assigned_name] in Hx, HWv.
    + sim_steps; by apply sim_expr.
    + sim_steps; [by apply sim_var|by apply sim_expr].
  - sim_steps. by apply sim_expr.
  - destruct e; try apply sim_halt. sim_steps. by apply sim_tombstone.
  - destruct Hp as [[He Hx] Ht].
    destruct e as [y v|y [y' v| | | | | |] f| | | | |]; try apply sim_halt; cbn [assigned_name] in Hx;
      (sim_steps; by apply sim_tombstone).
  - by apply sim_increment.
  - by apply sim_increment_remote.
  - destruct h; try apply sim_halt. destruct y; try apply sim_halt.
    apply andb_true_iff in Hp as [HT Hv]. by apply sim_refresh.
  - destruct Hp as [[Hc Ht] He]. sim_steps; [by apply sim_expr|apply IHt|apply IHe]; try done;
      intros x Hin; apply HW, elem_of_app; auto.
  - destruct Hp as [[Hc Hx] Hp].
    assert (W name = true) by (apply HW; by left).
    sim_steps. apply sim_loop; [done|done| |].
    + sim_steps. by apply sim_expr.
    + apply IH; [done|]. intros x Hin. apply HW. by right.
  - destruct Hp as [Hx Hp]. sim_steps. apply sim_repeat. by apply IH.
  - assert (Hss : forall ss', (forall p, p ∈ ss' -> sim (run_stmt p)) ->
      sim ((fix run_seq (seq : list pstmt) : Run unit :=
          match seq with [] => mret tt | s1 :: seq => run_stmt s1;; run_seq seq end) ss')).
    { induction ss' as [|s1 ss' IHss]; intros Hss; [apply sim_ret|].
      apply sim_bind; [|intros _]; [apply Hss; by left|]. apply IHss. intros p Hin. apply Hss. by right. }
    apply Hss. intros p Hin. rewrite Forall_forall in IH. apply IH; [done| |].
    + by apply (proj1 (forallb_forall _ _) Hp), list_elem_of_In.
    + intros x Hx. apply HW. by eapply elem_of_concat_fmap.
Qed.
End statements.
