(* ===== verification/RemoteRun.v ===== *)
(** * Phases on servers

    Models [mtl/remote_interp.hpp], [run_phase] and [transaction_listener] of
    [server/transaction_listener.hpp], [StoreRelay::process_everything] of
    [server/StoreRelay.hpp] and the remote half of [mtl/interp.hpp]: a client
    writes what a phase requires into a message, the server of its label reads it
    into a store of its own, runs the phase there and sends back what the phase
    provides.  All messages are the bytes that travel. *)
From stdpp Require Import pretty.
From Stdlib Require Import Strings.Byte.
From S2P Require Import Prelude TypeLists Labels TypedAst PhaseApi Split Runtime Holders RunPhase.
From S2P Require Import Clocks Tracker ClientTracker RunFrames Wire.

#[local] Open Scope Z_scope.

(** [Tracker.v] and [ClientTracker.v] have definitions of these names for the tracker. *)
#[local] Abbreviation common_interp := RunPhase.common_interp.
#[local] Abbreviation is_serialization_failure := RunPhase.is_serialization_failure.

(** What servers and clients use beside the serialization of stores: the codecs
    of the library for what else is in a message, [std::hash], [int_rand] (one
    number for each message), the printed form of a phase, the text of an
    exception, and the tracker of a server's session. *)
Class Servers `{Remote} `{!WireFormat} : Type := {
  bytes_codec : codec (list byte);
  tombstones_codec : codec (list Tombstone);
  clock_codec : codec Clock;
  std_hash : string -> Z;
  print_phase : phase -> string;
  int_rand : phase -> Z;
  what : exn -> string;
  description : label -> string;
  trk_find_tombstones : list Tombstone -> RT W unit;
  trk_set_persistent_store : RT W unit;
  trk_updateClock : RT W unit;
  trk_reply : RT W reply;
}.

Class ServerLaws `{Servers} : Prop := {
  bytes_ok : codec_ok (fun _ => True) bytes_codec;
  tombstones_ok : codec_ok (fun _ => True) tombstones_codec;
  clock_ok : codec_ok (fun _ => True) clock_codec;
  hash_range s : 0 <= std_hash s < 2 ^ 64;
  rand_range p : 0 <= int_rand p < 2 ^ 64;
  phase_measured p : Z.of_nat (length (to_bytes string_codec (print_phase p))) < 2 ^ 64;
  what_measured e : Z.of_nat (length (to_bytes string_codec (what e))) < 2 ^ 64;
}.

(** *** The stores of servers *)

(** [intersect_names<left, right>] *)
Fixpoint intersect_names `{TypeLists} (left right : list holder_type) : list holder_type :=
  match left with
  | [] => []
  | leftfirst :: leftset =>
      typeset_combine
        (if decide (holder_name leftfirst ∈ holder_name <$> right) then [leftfirst] else [])
        (intersect_names leftset right)
  end.

(** [store<holders...>::restrict_to_phase<phase>] *)
Definition restrict_to_phase `{TypeLists} (hs : list holder_type) (p : phase) : list holder_type :=
  intersect_names hs
    (typeset_combine (ph_requirements p) (typeset_combine (ph_provides p) (ph_owned p))).

(** [number_remote_phases]: the first phase is not counted. *)
Fixpoint count_remote `{UserLabels} (phases : list phase) : outcome nat :=
  match phases with
  | [] => Ok O
  | p :: phases =>
      tr ← traits_of (ph_label p); n ← count_remote phases;
      Ok ((if run_remotely tr then 1 else 0) + n)%nat
  end.

Definition number_remote_phases `{UserLabels} (phases : list phase) : outcome nat :=
  count_remote (tail phases).

Section remote.
Context `{Servers} `{UserLabels} `{TypeLists}.
Variable fuel : nat.

(** [phase::txnID()] *)
Definition txnID (p : phase) : Z := std_hash (print_phase p).

(** Parse what was received. *)
Definition read_from {A} (m : Reader A) (bs : list byte) : Run A :=
  lift (r ← m bs; inl r.1).

(** Receive into the store, which keeps what was received before something went wrong. *)
Definition receive_into (m : Filler store unit) (bs : list byte) : Run unit := fun s =>
  let '(r, st) := m (st_store s) bs in
  (match r with inl _ => inl tt | inr e => inr e end, RunState st (st_lists s) (st_world s)).

(** [try]: what stops the computation becomes its result. *)
Definition attempt_run {A} (m : Run A) : Run (A + stop) := fun s =>
  let '(r, s') := m s in (inl r, s').

(** ** The server *)

(** In a debug build a request carries a random number and the phase in words. *)
Definition request_header (p : phase) : list byte :=
  if debug then to_bytes size_codec (int_rand p) ++ send_string (print_phase p) else [].

Definition receive_header (p : phase) : Reader (option Z) :=
  if debug then
    txn_nonce ← receive size_codec;
    remote_phase_str ← receive_string;
    assert_read (bool_decide (remote_phase_str = print_phase p));;
    mret (Some txn_nonce)
  else mret None.

Definition echo_nonce (txn_nonce : option Z) : list byte :=
  match txn_nonce with Some n => to_bytes size_codec n | None => [] end.

(** [c.send(transaction_successful, trk.min_clock(), trk.recent_clock(),
    trk.all_encountered_tombstones(), lc.data)] *)
Definition success_message (r : reply) (data : list byte) : list byte :=
  to_bytes bool_codec true ++ to_bytes clock_codec (r_min_clock r)
    ++ to_bytes clock_codec (r_recent_clock r) ++ to_bytes tombstones_codec (r_tombstones r)
    ++ to_bytes bytes_codec data.

Definition failure_message (e : exn) : list byte :=
  to_bytes bool_codec false ++ (if debug then send_string (what e) else []).

(** What the [try] of [run_phase] does *)
Definition run_here (p : phase) (tombstones_to_find : list Tombstone) : Run unit :=
  call (trk_find_tombstones tombstones_to_find);;
  call trk_set_persistent_store;;
  common_interp fuel p;;
  mret tt.

(** What [run_phase] answers after its [try] ended with [r] *)
Definition respond (p : phase) (txn_nonce : option Z) (r : unit + stop) : Run (list byte) :=
  match r with
  | inl _ =>
      s ← get_store;
      lc ← lift (send_store_values (ph_label p) (ph_provides p) s);
      call trk_updateClock;;
      r ← call trk_reply;
      mret (echo_nonce txn_nonce ++ success_message r lc)
  | inr (Throws e) =>
      if is_std_exception e then mret (echo_nonce txn_nonce ++ failure_message e) else halt (Throws e)
  | inr e => halt e
  end.

(** The data behind a pointer into the message *)
Definition what_is_left : Reader (list byte) := fun bs => inl (bs, bs).

(** [run_phase<phase, store<holders...>>] on the rest of a message; what is left
    of the run is the store of the server. *)
Definition run_phase (p : phase) (hs : list holder_type) (data : list byte) : Run (list byte) :=
  msg ← read_from (ts ← receive tombstones_codec; lc ← receive bytes_codec; mret (ts, lc)) data;
  req ← read_from (n ← receive_header p; values ← what_is_left; mret (n, values)) msg.2;
  set_store (empty_store hs);;
  receive_into (receive_store_values (ph_label p) (ph_requirements p)) req.2;;
  r ← attempt_run (run_here p msg.1);
  respond p req.1 r.

(** [transaction_listener<phase, store, tracked_phase, tracked_store>] *)
Record listener : Type := Listener {
  normal_phase : phase; normal_store : list holder_type;
  tracked_phase : phase; tracked_store : list holder_type }.

Definition run_if_match (li : listener) (id : Z) (data : list byte) : option (Run (list byte)) :=
  if id =? txnID (normal_phase li) then Some (run_phase (normal_phase li) (normal_store li) data)
  else if id =? txnID (tracked_phase li) then Some (run_phase (tracked_phase li) (tracked_store li) data)
  else None.

Definition no_match_text (id : Z) : string :=
  "Error: no match found.  Selected txn id was " ++ pretty id.

(** The text goes out in every build; the session ends afterwards. *)
Definition no_match_message (id : Z) : list byte :=
  to_bytes bool_codec false ++ send_string (no_match_text id).

Fixpoint find_match (ls : list listener) (id : Z) (data : list byte) : option (Run (list byte)) :=
  match ls with
  | [] => None
  | li :: ls =>
      match run_if_match li id data with Some m => Some m | None => find_match ls id data end
  end.

(** [StoreRelay::StoreSession::process_everything] of the server of [l] *)
Definition process_everything (l : label) (phases : list listener) (msg : list byte) : Run (list byte) :=
  r ← read_from (id ← receive size_codec; data ← what_is_left; mret (id, data)) msg;
  if debug && (r.1 =? 0) then mret (send_string (description l))
  else match find_match phases r.1 r.2 with
       | Some m => m
       | None => mret (no_match_message r.1)
       end.

(** ** The client *)

(** The listeners of every server *)
Variable served : label -> list listener.

(** One exchange with the server of [l]: it has no part of the client's store,
    and when it dies the connection is lost. *)
Definition exchange (l : label) (msg : list byte) : Run (list byte) := fun s =>
  match process_everything l (served l) msg (RunState (Store ∅ []) [] (st_world s)) with
  | (inl bs, s') => (inl bs, RunState (st_store s) (st_lists s) (st_world s'))
  | (inr e, s') => (inr (match e with NoFuel => NoFuel | _ => Throws AssertFailed end),
                    RunState (st_store s) (st_lists s) (st_world s'))
  end.

(** [ConnectionReference(c)]: a debug build asks who is there. *)
Definition connect (l : label) : Run unit :=
  if debug then
    bs ← exchange l (to_bytes size_codec 0);
    d ← read_from receive_string bs;
    (if decide (d = description l) then mret tt else halt (Throws AssertFailed))
  else mret tt.

(** [failure_str.size() > 24 && failure_str[24] == 'S'] *)
Definition says_no_match (failure_str : string) : bool :=
  bool_decide (String.get 24 failure_str = Some "S"%char).

Definition receive_answer (p : phase) : Reader (option (reply * list byte)) :=
  (if debug then n ← receive size_codec; assert_read (n =? int_rand p) else mret tt);;
  successful ← receive bool_codec;
  if (successful : bool) then
    new_min_clock ← receive clock_codec;
    new_recent_clock ← receive clock_codec;
    new_tombstones ← receive tombstones_codec;
    data ← receive bytes_codec;
    mret (Some (MkReply new_min_clock new_recent_clock new_tombstones, data))
  else
    (if debug then failure_str ← receive_string; assert_read (negb (says_no_match failure_str))
     else mret tt);;
    mret None.

(** The labels of the client's tracker *)
Variable labels : list label.

(** [remote_interp<phase>]: the client's tracker is passed along, its store filled from
    the answer as it is read. *)
Definition remote_interp (p : phase) (c : client) : Run client :=
  s ← get_store;
  values ← lift (send_store_values (ph_label p) (ph_requirements p) s);
  bs ← exchange (ph_label p)
    (to_bytes size_codec (txnID p)
       ++ to_bytes tombstones_codec (tombstones_for_phase (ph_label p) c)
       ++ to_bytes bytes_codec (request_header p ++ values));
  answer ← read_from (receive_answer p) bs;
  match answer with
  | Some (r, data) =>
      let c := update_clocks (ph_label p) (r_min_clock r) (r_recent_clock r) c in
      let c := set_phase_after labels (ph_label p) (r_tombstones r) c in
      receive_into (receive_store_values (ph_label p) (ph_provides p)) data;;
      mret (clear_tombstones (ph_label p) c)
  | None => halt (Throws SerializationFailure)
  end.

(** [label::run_remotely] of the label of a phase; [None] where it is not defined *)
Definition runs_remotely (p : phase) : option bool :=
  match traits_of (ph_label p) with Ok tr => Some (run_remotely tr) | Err _ => None end.

(** [dispatch_to_runner<run_remotely = true_type>]; [here p] and [remote p c]: how
    a phase runs at the client, and at the server of its label. *)
Fixpoint dispatch_with (here : phase -> Run (option value)) (remote : phase -> client -> Run client)
    (phases : list phase) (c : client) : Run (client * option value) :=
  match phases with
  | [] => halt IllFormed
  | phase1 :: phases =>
      b ← expect IllFormed (runs_remotely phase1);
      r ← (if (b : bool) then c' ← remote phase1 c; mret (c', None)
           else v ← here phase1; mret (c, v));
      match phases with
      | [] => mret r
      | _ => dispatch_with here remote phases r.1
      end
  end.

Definition dispatch_remotely : list phase -> client -> Run (client * option value) :=
  dispatch_with (common_interp fuel) remote_interp.

(** [begin_interp2<split, connection_pack, run_remotely>] *)
Definition begin_with (dispatch : list phase -> client -> Run (client * option value))
    (phases : list phase) (args : list argument) (c : client) (w : W)
    : ((client * option value) + stop) * run_state :=
  let hs := all_store phases (arg_holder <$> args) in
  let s := RunState (bind_arguments args (empty_store hs)) [] w in
  if decide (NoDup (holder_name <$> hs)) then dispatch phases c s
  else (inr IllFormed, s).

Definition begin_remote : list phase -> list argument -> client -> W ->
    ((client * option value) + stop) * run_state := begin_with dispatch_remotely.

(** [transaction_struct<number_remote_phases, ...>::run_remote] with [begin_interp]:
    the specialization for 0 has no such member; a client that has to track runs
    the transaction with tombstones. *)
Definition run_remote (with_tracking split : list phase) (args : list argument) (c : client) (w : W)
    : ((client * option value) + stop) * run_state :=
  match number_remote_phases split with
  | Ok (S _) => begin_remote (if client_must_track labels c then with_tracking else split) args c w
  | _ => (inr IllFormed, RunState (empty_store []) [] w)
  end.

(** ** What a phase at a server is meant to be

    The phase run directly on the client's store by the server's session, with
    nothing written to a connection. *)
Definition holder_fits_b (h : holder) : bool :=
  match h with
  | HType t => forallb sendable (th_t t) && in_int (curr_pos t)
  | HValue (Some v) => sendable v
  | HValue None => true
  | HRemote _ _ pos => in_int pos
  end.

Definition map_fits_b (m : gmap Z tholder) : bool :=
  bool_decide (map_Forall (fun _ t => forallb sendable (th_t t) && in_int (curr_pos t) = true) m)
    && (Z.of_nat (size m) <? 2 ^ 64).

(** No value that is a pointer, no position beyond an [int] *)
Definition store_fits (s : store) : bool :=
  bool_decide (map_Forall (fun _ h => holder_fits_b h = true) (holders s))
    && forallb (fun x => map_fits_b x.2) (supers s).

Definition check_fits : Run unit :=
  s ← get_store; if store_fits s then mret tt else halt IllFormed.

(** What nobody catches at the server *)
Definition must {A} (m : Run A) : Run A := fun s =>
  match m s with (inl a, s') => (inl a, s') | (inr _, s') => (inr (Throws AssertFailed), s') end.

Definition in_place (p : phase) (c : client) : Run client :=
  r ← attempt_run (run_here p (tombstones_for_phase (ph_label p) c));
  match r with
  | inl _ =>
      must (call trk_updateClock);;
      r ← must (call trk_reply);
      check_fits;;
      mret (receive_reply labels (ph_label p) r c)
  | inr (Throws e) =>
      if is_std_exception e then halt (Throws SerializationFailure) else halt (Throws AssertFailed)
  | inr _ => halt IllFormed
  end.

(** The transaction with its phases run where the store is *)
Definition dispatch_in_place : list phase -> client -> Run (client * option value) :=
  dispatch_with (fun p => v ← common_interp fuel p; check_fits;; mret v) in_place.

Definition begin_in_place : list phase -> list argument -> client -> W ->
    ((client * option value) + stop) * run_state := begin_with dispatch_in_place.
End remote.
