(* ===== verification/RemoteInterp.v ===== *)
(** * A phase, attempts and commit included, on two stores

    What holds for the statements of a phase holds for [common_interp]: two
    stores that agree at the beginning of a phase give the same result, and agree
    at its end. *)
From Stdlib Require Import Strings.Byte.
From S2P Require Import Prelude TypeLists Labels TypedAst PhaseApi Split Runtime Holders RunPhase.
From S2P Require Import Clocks Tracker ClientTracker RunFrames Wire RemoteSim RemoteRun.

#[local] Open Scope Z_scope.
#[local] Abbreviation common_interp := RunPhase.common_interp.
#[local] Abbreviation common_interp_loop := RunPhase.common_interp_loop.
#[local] Abbreviation is_serialization_failure := RunPhase.is_serialization_failure.

(** ** The beginning of a phase *)

Section positions.
Context `{Remote}.

Definition begun (s : run_state) : run_state :=
  RunState (begin_phase (st_store s)) (st_lists s) (st_world s).

Lemma holder_begin_begin h : holder_begin_phase (holder_begin_phase h) = holder_begin_phase h.
Proof. by destruct h. Qed.

Lemma kind_of_begin h : kind_of (holder_begin_phase h) = kind_of h.
Proof. by destruct h. Qed.

Definition reset_map (m : gmap Z tholder) : gmap Z tholder := reset_index <$> m.

Lemma super_of_begin T s : super_of T (begin_phase s) = reset_map <$> super_of T s.
Proof.
  unfold super_of, begin_phase. cbn [supers]. induction (supers s) as [|[T' m] ms IH]; [done|].
  cbn. by case_bool_decide.
Qed.

Lemma types_begin s : (supers (begin_phase s)).*1 = (supers s).*1.
Proof. unfold begin_phase. cbn [supers]. rewrite <- list_fmap_compose. by apply list_fmap_ext. Qed.

Lemma holder_le_begin h h0 : holder_le h h0 -> holder_le (holder_begin_phase h) (holder_begin_phase h0).
Proof. intros [->|(-> & v & -> & Hv)]; [by left|]. right. split; [done|]. by exists v. Qed.

Lemma same_class_kind h h0 : same_class h h0 = true <-> kind_of h0 = kind_of h.
Proof.
  destruct h as [h|v|T hs p], h0 as [h0|v0|T0 hs0 p0]; simpl; try (split; (done || congruence)).
  rewrite bool_decide_eq_true. split; [by intros ->|congruence].
Qed.

(** [x] in all the maps of a store *)
Lemma supers_forall (P : gmap Z tholder -> Prop) s : NoDup (supers s).*1 ->
  Forall (fun x => P x.2) (supers s) <-> (forall T m, super_of T s = Some m -> P m).
Proof.
  intros Hn. unfold super_of. induction (supers s) as [|[T m] ms IH]; [by split|].
  apply NoDup_cons in Hn as [HT Hn]. rewrite Forall_cons, (IH Hn). cbn. split.
  - intros [Hm Hms] T' m'. case_bool_decide; [by intros [= <-]|apply Hms].
  - intros Hms. split; [apply (Hms T); by rewrite bool_decide_true|].
    intros T' m' HT'. apply (Hms T'). rewrite bool_decide_false; [done|]. intros <-. apply HT.
    destruct (List.find _ ms) as [[T0 m0]|] eqn:Hf; [|done].
    apply List.find_some in Hf as [Hin Heq%bool_decide_eq_true]. simpl in Heq. subst.
    apply list_elem_of_fmap. exists (T, m0). split; [done|]. by apply list_elem_of_In.
Qed.
End positions.

(** ** One phase on two stores *)

Section interp.
Context `{Remote} `{UserLabels} `{TypeLists}.
Variables (X W : string -> bool) (Ts : ty -> bool) (lists : bool) (k k0 : run_state).
#[local] Abbreviation agree := (agree X W Ts lists k k0).
#[local] Abbreviation sim := (sim X W Ts lists k k0).

(** The stores agree when a phase begins. *)
Definition starts (s s0 : run_state) : Prop := agree (begun s) (begun s0).

(** Stores from one pair of states, lists and the world from another *)
Lemma agree_mix s s0 s1 s2 : agree s s0 -> agree s1 s2 ->
  agree (RunState (st_store s) (st_lists s1) (st_world s1)) (RunState (st_store s0) (st_lists s2) (st_world s2)).
Proof. intros [? ? ? ? ? [] []] [? ? ? ? ? [] []]. by repeat constructor. Qed.

Lemma starts_mix s s0 s1 s2 : starts s s0 -> agree s1 s2 ->
  starts (RunState (st_store s) (st_lists s1) (st_world s1)) (RunState (st_store s0) (st_lists s2) (st_world s2)).
Proof. intros Hs Hs1. exact (agree_mix _ _ _ _ Hs Hs1). Qed.

(** [m] and [m0], started from stores that agree at the beginning of a phase *)
Definition sim_from {A} (m : Run A) (after : run_state -> run_state -> Prop) : Prop :=
  forall s s0, starts s s0 -> definite (m s).1 = true ->
    (m s0).1 = (m s).1 /\
    match (m s).1 with inl _ => after (m s).2 (m s0).2 | inr _ => starts (m s).2 (m s0).2 end.

Lemma sim_from_call {A} (m : RT (RunPhase.W) A) : sim_from (call m) starts.
Proof.
  intros s s0 Hs Hd. destruct (sim_call X W Ts lists k k0 m _ _ Hs) as [Hr Ha]; unfold call, begun in *.
  - by destruct (m _).
  - cbn [st_world] in *. destruct (m (st_world s)) as [r w], (m (st_world s0)) as [r0 w0]. simpl in *.
    split; [done|]. by destruct r.
Qed.

Lemma sim_from_bind {A B} (m : Run A) (f : A -> Run B) after :
  sim_from m starts -> (forall a, sim_from (f a) after) -> sim_from (m ≫= f) after.
Proof.
  intros Hm Hf s s0 Hs Hd. specialize (Hm s s0 Hs). unfold mbind, Run_bind in *.
  destruct (m s) as [[a|e] s1]; simpl in *.
  - destruct Hm as [Ha Hs1]; [done|]. destruct (m s0) as [r0 s2]. simpl in *. subst r0. by apply Hf.
  - destruct Hm as [Ha Hs1]; [done|]. destruct (m s0) as [r0 s2]. simpl in *. by subst r0.
Qed.

Variables (fuel : nat) (p : phase).
Hypothesis Hwithin : stmt_within X Ts lists (ph_ast p) = true.
Hypothesis Hwritten : forall x, x ∈ written (ph_ast p) -> W x = true.

Lemma definite_failure {A} e : is_serialization_failure e = true -> definite (A := A) (inr e) = true.
Proof. by destruct e as [[]| | |]. Qed.

(** A phase that ran to its end *)
Definition committed (s : run_state) (r : option value) : run_state -> (option value + stop) * run_state := fun s' =>
  match call rm_commit s' with
  | (inl _, s'') => (inl r, s'')
  | (inr e, s'') => (inr e, RunState (st_store s) (st_lists s'') (st_world s''))
  end.

Definition same_end {A} (m m0 : (A + stop) * run_state) (after : run_state -> run_state -> Prop) : Prop :=
  definite m.1 = true -> m0.1 = m.1 /\ match m.1 with inl _ => after m.2 m0.2 | inr _ => starts m.2 m0.2 end.

Lemma committed_same s s0 r s1 s2 : starts s s0 -> agree s1 s2 ->
  same_end (committed s r s1) (committed s0 r s2) agree.
Proof.
  intros Hs Ha. unfold committed, same_end.
  pose proof (sim_call X W Ts lists k k0 rm_commit _ _ Ha) as Hc. unfold follows in Hc.
  destruct (call rm_commit s1) as [[[]|e] s1'], (call rm_commit s2) as [r' s2'];
    simpl in *; intros Hd; destruct (Hc Hd) as [-> Ha']; (split; [done|]); [done|by apply starts_mix].
Qed.

Lemma failed_same {A} s s0 (e : stop) s1 s2 : starts s s0 -> agree s1 s2 ->
  same_end (inr e : A + stop, RunState (st_store s) (st_lists s1) (st_world s1))
    (inr e, RunState (st_store s0) (st_lists s2) (st_world s2)) agree.
Proof. intros Hs Ha _. split; [done|]. by apply starts_mix. Qed.

Lemma sim_phase1 tracked : sim_from (run_phase1 fuel tracked p) agree.
Proof.
  intros s s0 Hs. change (same_end (run_phase1 fuel tracked p s) (run_phase1 fuel tracked p s0) agree).
  unfold run_phase1.
  pose proof (sim_stmt X W Ts lists k k0 tracked fuel (ph_ast p) Hwithin Hwritten _ _ Hs) as Hrun.
  unfold begun, follows in Hrun.
  destruct (run_stmt _ _ _ (RunState (begin_phase (st_store s)) _ _)) as [[[]|e] s1],
    (run_stmt _ _ _ (RunState (begin_phase (st_store s0)) _ _)) as [r s2]; cbn [fst snd] in Hrun.
  - destruct Hrun as [-> Ha]; [done|]. fold (committed s None s1) (committed s0 None s2).
    destruct (decide _); [by apply committed_same|by apply failed_same].
  - destruct (definite (A := unit) (inr e)) eqn:He.
    + destruct Hrun as [-> Ha]; [done|]. destruct e as [e|v| |]; try by apply failed_same.
      fold (committed s (Some v) s1) (committed s0 (Some v) s2).
      destruct (decide _); [by apply failed_same|by apply committed_same].
    + intros Hd. destruct e as [e|v| |]; try done. simpl in *. congruence.
Qed.

Lemma agree_end s s0 : agree s s0 -> agree (end_phase s) (end_phase s0).
Proof. intros [? ? ? Hw ? [] []]. unfold end_phase. rewrite Hw. by repeat constructor. Qed.

Lemma sim_attempt tracked : sim_from (common_interp_loop fuel tracked p) agree.
Proof.
  intros s s0 Hs Hd. pose proof (sim_phase1 tracked s s0 Hs) as Hr. revert Hd.
  unfold RunPhase.common_interp_loop.
  destruct (run_phase1 fuel tracked p s) as [r s1], (run_phase1 fuel tracked p s0) as [r0 s2].
  cbn [fst snd] in *. intros Hd. destruct (Hr Hd) as [-> Ha]. split; [done|].
  destruct r; [by apply agree_end|].
  exact (agree_end _ _ Ha).
Qed.

Lemma sim_attempts n tracked can_abort :
  sim_from (common_interp_fuel fuel n tracked can_abort p) agree.
Proof.
  induction n as [|n IH]; intros s s0 Hs; cbn [common_interp_fuel]; [done|].
  pose proof (sim_attempt tracked s s0 Hs) as Ha.
  destruct (common_interp_loop fuel tracked p s) as [[v|e] s1]; cbn [fst snd] in *.
  - destruct Ha as [Hr Ha]; [done|].
    destruct (common_interp_loop fuel tracked p s0) as [r s2]. cbn [fst snd] in *. by subst r.
  - destruct (is_serialization_failure e) eqn:He; cbn [andb].
    + destruct Ha as [Hr Ha]; [by apply definite_failure|].
      destruct (common_interp_loop fuel tracked p s0) as [r s2]. cbn [fst snd] in *. subst r.
      rewrite He. destruct (negb can_abort); [by apply IH|done].
    + intros Hd. destruct (Ha Hd) as [Hr Ha'].
      destruct (common_interp_loop fuel tracked p s0) as [r s2]. cbn [fst snd] in *. subst r. by rewrite He.
Qed.

(** Two stores that agree run a phase alike, attempts and commit included. *)
Lemma sim_common_interp : sim_from (common_interp fuel p) agree.
Proof.
  unfold RunPhase.common_interp. destruct (traits_of (ph_label p)); [apply sim_attempts|].
  by intros s s0 Hs Hd.
Qed.

Lemma sim_from_done {A} (m : Run A) after : sim_from m after -> sim_from (m;; mret tt) after.
Proof.
  intros Hm s s0 Hs Hd. specialize (Hm s s0 Hs). unfold mbind, Run_bind in *.
  destruct (m s) as [[a|e] s1]; destruct Hm as [Hr Ha]; simpl in *; try done;
    destruct (m s0) as [r0 s2]; simpl in *; by subst r0.
Qed.
End interp.
