(* ===== verification/RemoteCorrect.v ===== *)
(** * Phases at servers do what they would do here

    A phase that its server runs on what was sent to it leaves the client with the
    store it would have if the phase had run on the client's store directly, and
    so does a transaction whose phases run in several places. *)
From Stdlib Require Import Strings.Byte.
From S2P Require Import Prelude TypeLists Labels TypedAst PhaseApi Split Runtime Holders RunPhase.
From S2P Require Import SplitStore Clocks Tracker ClientTracker RunFrames Wire RemoteSim RemoteRun RemoteInterp.

#[local] Open Scope Z_scope.
#[local] Abbreviation common_interp := RunPhase.common_interp.
#[local] Abbreviation common_interp_loop := RunPhase.common_interp_loop.

(** ** Transactions that can be distributed *)

Section plan.
Context `{Servers} `{UserLabels} `{TypeLists}.

Definition phase_names (p : phase) : list string :=
  holder_name <$> (ph_requirements p ++ ph_provides p ++ ph_owned p).

(** What a phase does not get from the others *)
Definition declared_at (p : phase) : list string :=
  base.filter (fun x => x ∉ holder_name <$> ph_requirements p) (phase_names p).

Definition later_names (ps : list phase) (x : string) : bool :=
  existsb (fun p => bool_decide (x ∈ phase_names p)) ps.

Definition runs_there (p : phase) : bool := bool_decide (runs_remotely p = Some true).

#[global] Instance no_null_dec s : Decision (no_null s).
Proof. unfold no_null. apply _. Defined.

(** Names that a connection can carry *)
Definition sendable_names (hs rs : list holder_type) : bool :=
  bool_decide (NoDup (holder_name <$> rs)) &&
  forallb (fun r => negb (is_constant_name (holder_name r)) && bool_decide (no_null (holder_name r))
                    && bool_decide (holder_name r ∈ holder_name <$> hs)) rs.

(** A phase can run at its server: it returns nothing, uses only its own
    variables and no list built-ins, the remote objects it uses are of its label,
    both sides have the same object maps of that label, and what it writes is
    provided if a later phase refers to it. *)
Definition remotable (hs : list holder_type) (p : phase) (ps : list phase) : bool :=
  let l := ph_label p in
  bool_decide (ph_returns p = TVoid) && (Z.of_nat (length (virtual_holders hs)) <? 2 ^ 64) &&
  stmt_within (fun x => bool_decide (x ∈ phase_names p)) (map_of_label l) false (ph_ast p) &&
  sendable_names hs (ph_requirements p) && sendable_names hs (ph_provides p) &&
  forallb (fun r => match r with
                    | remote_holder T n => bool_decide (n ∉ phase_names p) || map_of_label l T
                    | _ => true end) hs &&
  bool_decide (base.filter (fun T => map_of_label l T = true) (virtual_holders hs) =
               base.filter (fun T => map_of_label l T = true) (virtual_holders (restrict_to_phase hs p))) &&
  forallb (fun x => bool_decide (x ∈ holder_name <$> ph_provides p) || negb (later_names ps x))
    (written (ph_ast p)).

(** Every phase can run where it has to, and nothing is written before the phase
    that declares it runs at its server. *)
Fixpoint distributable (hs : list holder_type) (phases : list phase) : bool :=
  match phases with
  | [] => true
  | p :: ps =>
      (if runs_there p then remotable hs p ps
       else stmt_within (later_names phases) (fun _ => true) true (ph_ast p)) &&
      forallb (fun q => negb (runs_there q) ||
        forallb (fun x => bool_decide (x ∉ declared_at q)) (written (ph_ast p))) ps &&
      distributable hs ps
  end.

(** Arguments are holders of their own that a connection can carry, and no phase at
    a server declares them again. *)
Definition arguments_apart (hs : list holder_type) (phases : list phase) (args : list argument) : bool :=
  bool_decide (NoDup (arg_name <$> args)) &&
  forallb (fun a => bool_decide (arg_holder a ∈ hs) && sendable (arg_value a) &&
    forallb (fun q => negb (runs_there q) || bool_decide (arg_name a ∉ declared_at q)) phases) args.
End plan.

(** ** Messages *)

Section messages.
Context `{Servers} `{UserLabels} `{TypeLists} `{!WireLaws} `{!ServerLaws}.
Variable fuel : nat.

Lemma read_from_back {A} (m : Reader A) bs rest a : reads_back m bs a -> read_from m (bs ++ rest) = mret a.
Proof. intros Hm. unfold read_from. by rewrite Hm. Qed.

Lemma read_from_all {A} (m : Reader A) bs a : reads_back m bs a -> read_from m bs = mret a.
Proof. intros Hm. rewrite <- (app_nil_r bs). by apply read_from_back. Qed.

Lemma receive_into_all m bs st s : fills m (st_store s) bs tt st ->
  receive_into m bs s = (inl tt, RunState st (st_lists s) (st_world s)).
Proof. intros Hm. specialize (Hm []). rewrite app_nil_r in Hm. unfold receive_into. by rewrite Hm. Qed.

Definition nonce_of (p : phase) : option Z := if debug then Some (int_rand p) else None.

Lemma header_back p : reads_back (receive_header p) (request_header p) (nonce_of p).
Proof.
  unfold receive_header, request_header, nonce_of. destruct debug; [|apply reads_back_ret].
  eapply reads_back_bind; [apply (reads_back_receive _ _ _ size_ok), rand_range|].
  rewrite <- (app_nil_r (send_string _)). eapply reads_back_bind; [apply string_back, phase_measured|].
  rewrite <- (app_nil_l []). eapply reads_back_bind; [|apply reads_back_ret].
  by apply reads_back_assert, bool_decide_eq_true.
Qed.

(** The server runs the phase on the store it was sent. *)
Lemma run_phase_reads p rs ts values st s :
  fills (receive_store_values (ph_label p) (ph_requirements p)) (empty_store rs) values tt st ->
  run_phase fuel p rs (to_bytes tombstones_codec ts ++ to_bytes bytes_codec (request_header p ++ values)) s =
  (r ← attempt_run (run_here fuel p ts); respond p (nonce_of p) r) (RunState st (st_lists s) (st_world s)).
Proof.
  intros Hst. unfold run_phase.
  rewrite (read_from_all _ _ (ts, request_header p ++ values)).
  2:{ eapply reads_back_bind; [by apply (reads_back_receive _ _ _ tombstones_ok)|].
      rewrite <- (app_nil_r (to_bytes bytes_codec _)).
      eapply reads_back_bind; [by apply (reads_back_receive _ _ _ bytes_ok)|apply reads_back_ret]. }
  unfold mbind at 1, Run_bind at 1. unfold mret at 1, Run_ret at 1. cbn [fst snd].
  assert (Hr : read_from (n ← receive_header p; d ← what_is_left; mret (n, d))
    (request_header p ++ values) = mret (nonce_of p, values)).
  { unfold read_from, mbind at 2, Reader_bind. by rewrite header_back. }
  rewrite Hr. unfold mbind at 1, Run_bind at 1. unfold mret at 1, Run_ret at 1. cbn [fst snd].
  unfold mbind at 1, Run_bind at 1. cbn [set_store].
  unfold mbind at 1, Run_bind at 1. by rewrite (receive_into_all _ _ _ (RunState _ _ _) Hst).
Qed.

Lemma success_back p r data : reads_back (receive_answer p) (echo_nonce (nonce_of p) ++ success_message r data)
  (Some (r, data)).
Proof.
  unfold receive_answer, success_message, nonce_of, echo_nonce.
  replace (match (if debug then Some (int_rand p) else None) with Some n => _ | None => [] end)
    with (if debug then to_bytes size_codec (int_rand p) else []) by by destruct debug.
  eapply reads_back_bind.
  { apply reads_back_if. intros _. rewrite <- (app_nil_r (to_bytes _ _)).
    eapply reads_back_bind; [apply (reads_back_receive _ _ _ size_ok), rand_range|].
    apply reads_back_assert, Z.eqb_refl. }
  eapply reads_back_bind; [by apply (reads_back_receive _ _ _ bool_ok)|].
  eapply reads_back_bind; [by apply (reads_back_receive _ _ _ clock_ok)|].
  eapply reads_back_bind; [by apply (reads_back_receive _ _ _ clock_ok)|].
  eapply reads_back_bind; [by apply (reads_back_receive _ _ _ tombstones_ok)|].
  rewrite <- (app_nil_r (to_bytes bytes_codec data)).
  eapply reads_back_bind; [by apply (reads_back_receive _ _ _ bytes_ok)|]. destruct r. apply reads_back_ret.
Qed.

Lemma failure_back p e : (debug = true -> says_no_match (what e) = false) ->
  reads_back (receive_answer p) (echo_nonce (nonce_of p) ++ failure_message e) None.
Proof.
  intros He. unfold receive_answer, failure_message, nonce_of, echo_nonce.
  replace (match (if debug then Some (int_rand p) else None) with Some n => _ | None => [] end)
    with (if debug then to_bytes size_codec (int_rand p) else []) by by destruct debug.
  eapply reads_back_bind.
  { apply reads_back_if. intros _. rewrite <- (app_nil_r (to_bytes _ _)).
    eapply reads_back_bind; [apply (reads_back_receive _ _ _ size_ok), rand_range|].
    apply reads_back_assert, Z.eqb_refl. }
  eapply reads_back_bind; [by apply (reads_back_receive _ _ _ bool_ok)|].
  rewrite <- (app_nil_r (if debug then _ else [])).
  eapply reads_back_bind; [|apply reads_back_ret]. apply reads_back_if. intros Hd.
  rewrite <- (app_nil_r (send_string _)). eapply reads_back_bind; [apply string_back, what_measured|].
  apply reads_back_assert. by rewrite He.
Qed.

(** The server of a label runs a phase on the part of the store it was built for. *)
Definition serves (served : label -> list listener) (hs : list holder_type) (p : phase) : Prop :=
  (debug = true -> txnID p <> 0) /\
  forall data, find_match fuel (served (ph_label p)) (txnID p) data =
    Some (run_phase fuel p (restrict_to_phase hs p) data).

(** It has a listener for the phase, and none before it has the same number. *)
Definition registered (served : label -> list listener) (hs : list holder_type) (p : phase) : Prop :=
  (debug = true -> txnID p <> 0) /\
  exists before tracked tracked_store after,
    served (ph_label p) = before ++ Listener p (restrict_to_phase hs p) tracked tracked_store :: after /\
    forall li, li ∈ before -> txnID (normal_phase li) <> txnID p /\ txnID (tracked_phase li) <> txnID p.

Lemma registered_serves served hs p : registered served hs p -> serves served hs p.
Proof.
  intros (Hid & before & tp & tst & after & Hs & Hbefore). split; [done|]. intros data. rewrite Hs. clear Hs.
  induction before as [|li ls IH]; cbn [app find_match]; unfold run_if_match at 1.
  - cbn [normal_phase normal_store]. by rewrite Z.eqb_refl.
  - destruct (Hbefore li) as [Hn Ht]; [by left|].
    rewrite !(proj2 (Z.eqb_neq _ _)) by congruence. apply IH. intros li' Hli. apply Hbefore. by right.
Qed.

Lemma exchange_runs served hs p ts values st s : serves served hs p ->
  fills (receive_store_values (ph_label p) (ph_requirements p))
    (empty_store (restrict_to_phase hs p)) values tt st ->
  exchange fuel served (ph_label p)
    (to_bytes size_codec (txnID p) ++ to_bytes tombstones_codec ts
       ++ to_bytes bytes_codec (request_header p ++ values)) s =
  match (r ← attempt_run (run_here fuel p ts); respond p (nonce_of p) r) (RunState st [] (st_world s)) with
  | (inl bs, s') => (inl bs, RunState (st_store s) (st_lists s) (st_world s'))
  | (inr e, s') => (inr (match e with NoFuel => NoFuel | _ => Throws AssertFailed end),
                    RunState (st_store s) (st_lists s) (st_world s'))
  end.
Proof.
  intros [Hid Hf] Hst. unfold exchange, process_everything.
  set (data := to_bytes tombstones_codec ts ++ _).
  assert (Hr : read_from (id ← receive size_codec; d ← what_is_left; mret (id, d))
    (to_bytes size_codec (txnID p) ++ data) = mret (txnID p, data)).
  { unfold read_from. cbv [mbind Reader_bind receive]. by rewrite (size_ok _ data) by apply hash_range. }
  rewrite Hr. cbn [fst snd]. unfold mbind at 1, Run_bind at 1. cbn [mret Run_ret fst snd].
  replace (debug && (txnID p =? 0)) with false.
  2:{ symmetry. apply andb_false_iff. destruct debug; [right|by left]. by apply Z.eqb_neq, Hid. }
  rewrite Hf. unfold data. by rewrite (run_phase_reads p _ ts values st).
Qed.
End messages.

(** ** What the in-place run and the client have in common between phases *)

Section sync.
Context `{Servers} `{UserLabels} `{TypeLists} `{!TypeListLaws} `{!WireLaws}.
Variable hs : list holder_type.
Hypothesis Hnames : NoDup (holder_name <$> hs).

Definition kinds_of_store (s : store) : Prop := forall x,
  kind_of <$> holders s !! x = kind_of <$> holders (empty_store hs) !! x.

Record sync (ps : list phase) (s s0 : run_state) : Prop := {
  sy_holder x h : later_names ps x = true -> holders (st_store s) !! x = Some h ->
    exists h0, holders (st_store s0) !! x = Some h0 /\
      holder_le (holder_begin_phase h) (holder_begin_phase h0) /\ holder_fits h0;
  sy_kind : kinds_of_store (st_store s);
  sy_kind0 : kinds_of_store (st_store s0);
  sy_fresh q x : q ∈ ps -> runs_there q = true -> x ∈ declared_at q ->
    holder_begin_phase <$> holders (st_store s) !! x =
    holder_begin_phase <$> holders (empty_store hs) !! x;
  sy_super T : reset_map <$> super_of T (st_store s0) = reset_map <$> super_of T (st_store s);
  sy_types : (supers (st_store s)).*1 = virtual_holders hs;
  sy_types0 : (supers (st_store s0)).*1 = virtual_holders hs;
  sy_fits T m : super_of T (st_store s0) = Some m -> map_fits m;
  sy_world : st_world s0 = st_world s;
  sy_lists : st_lists s0 = st_lists s }.

Lemma NoDup_virtual_holders rs : NoDup (virtual_holders rs).
Proof.
  induction rs as [|[| |T n|] rs IH]; simpl; try done; [constructor|].
  case_decide; [done|]. by apply NoDup_cons.
Qed.

Lemma super_of_in T s m : super_of T s = Some m -> (T, m) ∈ supers s.
Proof.
  unfold super_of. destruct (List.find _ _) as [[T' m']|] eqn:Hf; [|done]. intros [= <-].
  apply List.find_some in Hf as [Hin Heq%bool_decide_eq_true]. simpl in Heq. subst.
  by apply list_elem_of_In.
Qed.

Lemma store_fits_holder s x h : store_fits s = true -> holders s !! x = Some h -> holder_fits h.
Proof.
  intros [Hf _]%andb_true_iff Hh. apply bool_decide_eq_true in Hf. specialize (Hf x h Hh).
  destruct h as [t|[v|]|T hs' p]; simpl in *; [by apply andb_true_iff in Hf| |done..].
  by intros ? [= <-].
Qed.

Lemma store_fits_super s T m : store_fits s = true -> super_of T s = Some m -> map_fits m.
Proof.
  intros [_ Hf]%andb_true_iff Hm%super_of_in.
  apply list_elem_of_In in Hm. apply (proj1 (forallb_forall _ _) Hf) in Hm.
  apply andb_true_iff in Hm as [Hm Hs]. apply bool_decide_eq_true in Hm. split; [|by apply Z.ltb_lt].
  eapply map_Forall_impl; [exact Hm|]. intros i t Ht. by apply andb_true_iff in Ht.
Qed.

(** *** The store of a server *)

Lemma elem_of_intersect_names left right r :
  r ∈ intersect_names left right <-> r ∈ left /\ holder_name r ∈ holder_name <$> right.
Proof.
  induction left as [|r1 left IH]; cbn [intersect_names].
  - split; [by intros ?%elem_of_nil|by intros [?%elem_of_nil _]].
  - rewrite elem_of_typeset_combine, IH, elem_of_cons. case_decide as Hr1.
    + rewrite list_elem_of_singleton. naive_solver.
    + split; [|naive_solver]. intros [?%elem_of_nil|?]; [done|tauto].
Qed.

Lemma NoDup_intersect_names left right : NoDup (intersect_names left right).
Proof.
  induction left as [|r1 left IH]; cbn [intersect_names]; [constructor|].
  apply NoDup_typeset_combine; [|done]. case_decide; [apply NoDup_singleton|constructor].
Qed.

Lemma elem_of_restrict r p :
  r ∈ restrict_to_phase hs p <-> r ∈ hs /\ holder_name r ∈ phase_names p.
Proof.
  unfold restrict_to_phase, phase_names. rewrite elem_of_intersect_names. apply and_iff_compat_l.
  rewrite !list_elem_of_fmap. setoid_rewrite elem_of_typeset_combine. setoid_rewrite elem_of_typeset_combine.
  setoid_rewrite elem_of_app. setoid_rewrite elem_of_app. done.
Qed.

Lemma names_inj r r' : r ∈ hs -> r' ∈ hs -> holder_name r = holder_name r' -> r = r'.
Proof.
  intros (i & Hi)%list_elem_of_lookup (j & Hj)%list_elem_of_lookup Heq.
  assert (i = j) as ->; [|congruence].
  apply (NoDup_lookup (holder_name <$> hs) i j (holder_name r)); [done|by rewrite list_lookup_fmap, Hi|].
  by rewrite list_lookup_fmap, Hj, Heq.
Qed.

Lemma NoDup_restrict p : NoDup (holder_name <$> restrict_to_phase hs p).
Proof.
  apply NoDup_fmap_2_strong; [|apply NoDup_intersect_names].
  intros r r' [Hr _]%elem_of_restrict [Hr' _]%elem_of_restrict. by apply names_inj.
Qed.

Lemma restrict_lookup p x : x ∈ phase_names p ->
  holders (empty_store (restrict_to_phase hs p)) !! x = holders (empty_store hs) !! x.
Proof.
  intros Hx. destruct (decide (x ∈ holder_name <$> hs)) as [(r & -> & Hr)%list_elem_of_fmap|Hn].
  - rewrite !lookup_empty_store; try done; [apply NoDup_restrict|by apply elem_of_restrict].
  - unfold empty_store; cbn [holders].
    rewrite !not_elem_of_list_to_map_1; [done|..]; rewrite <- list_fmap_compose; [done|].
    intros (r & -> & [Hr _]%elem_of_restrict)%list_elem_of_fmap. by apply Hn, list_elem_of_fmap_2.
Qed.

(** *** What can be sent *)

Lemma super_of_elem T m s : NoDup (supers s).*1 -> (T, m) ∈ supers s -> super_of T s = Some m.
Proof.
  unfold super_of. induction (supers s) as [|[T' m'] ms IH]; [by intros _ ?%elem_of_nil|].
  intros [HT Hn]%NoDup_cons [[= <- <-]|Hin]%elem_of_cons; cbn; [by rewrite bool_decide_true|].
  rewrite bool_decide_false; [by apply IH|]. intros ->. apply HT. by apply (list_elem_of_fmap_2 fst) in Hin.
Qed.

Lemma types_of_label l s :
  (maps_of l s).*1 = base.filter (fun T => map_of_label l T = true) (supers s).*1.
Proof.
  unfold maps_of. induction (supers s) as [|[T m] ms IH]; [done|].
  rewrite fmap_cons, !filter_cons. cbn [fst].
  destruct (decide (map_of_label l T = true)); rewrite ?fmap_cons; cbn [fst]; by rewrite IH.
Qed.

Lemma elem_of_maps_of l T m s : NoDup (supers s).*1 -> (T, m) ∈ maps_of l s ->
  map_of_label l T = true /\ super_of T s = Some m.
Proof. intros Hn [HT Hm]%list_elem_of_filter. split; [done|by apply super_of_elem]. Qed.

Lemma Forall2_fst {A B} (R : A * B -> A * B -> Prop) (xs ys : list (A * B)) : xs.*1 = ys.*1 ->
  (forall a b b', (a, b) ∈ xs -> (a, b') ∈ ys -> R (a, b) (a, b')) -> Forall2 R xs ys.
Proof.
  revert ys. induction xs as [|[a b] xs IH]; intros [|[a' b'] ys]; try done.
  intros [= -> Heq] HR. constructor; [apply HR; by left|]. apply IH; [done|].
  intros c d d' Hd Hd'. apply HR; by right.
Qed.

Lemma sendable_names_spec rs : sendable_names hs rs = true ->
  NoDup (holder_name <$> rs) /\ forall r, r ∈ rs ->
    is_constant_name (holder_name r) = false /\ no_null (holder_name r) /\ holder_name r ∈ holder_name <$> hs.
Proof.
  intros [Hn%bool_decide_eq_true Hf]%andb_true_iff. split; [done|]. intros r Hr%list_elem_of_In.
  apply (proj1 (forallb_forall _ _) Hf) in Hr.
  rewrite !andb_true_iff, negb_true_iff, !bool_decide_eq_true in Hr. tauto.
Qed.

Definition known_kinds (rs : list holder_type) (s : store) : Prop := forall r, r ∈ rs ->
  kind_of <$> holders s !! holder_name r = kind_of <$> holders (empty_store hs) !! holder_name r.

Lemma can_send l rs s s1 : sendable_names hs rs = true -> known_kinds rs s -> known_kinds rs s1 ->
  (forall r h, r ∈ rs -> holders s !! holder_name r = Some h -> holder_fits h) ->
  (maps_of l s).*1 = (maps_of l s1).*1 -> NoDup (supers s).*1 -> NoDup (supers s1).*1 ->
  (forall T m, map_of_label l T = true -> super_of T s = Some m -> map_fits m) ->
  (forall T i, map_of_label l T = true -> super_of T s ≫= (.!! i) = None -> super_of T s1 ≫= (.!! i) = None) ->
  Z.of_nat (length (maps_of l s)) < 2 ^ 64 -> sendable_to l rs s s1.
Proof.
  intros [Hn Hrs]%sendable_names_spec Hk Hk1 Hf Ht Hd Hd1 Hm Ho Hlen. split; [done|]. split_and!; [|..|done].
  - intros r Hr. destruct (Hrs r Hr) as (Hc & Hnull & (r' & Hrr & Hr')%list_elem_of_fmap).
    split; [done|]. split; [done|]. specialize (Hk r Hr). specialize (Hk1 r Hr).
    rewrite Hrr, (lookup_empty_store hs r' Hnames Hr') in Hk, Hk1. rewrite <- Hrr in Hk, Hk1.
    destruct (holders s !! holder_name r) as [h|] eqn:Hh; [|done].
    destruct (holders s1 !! holder_name r) as [h1|] eqn:Hh1; [|done].
    exists h, h1. split_and!; [done..|by eapply Hf|]. apply same_class_kind. simpl in *. congruence.
  - apply Forall_forall. intros [T m] [HT Hm']%elem_of_maps_of; [by eapply Hm|done].
  - apply Forall2_fst; [done|]. intros T m m1 [HT Hs]%elem_of_maps_of [_ Hs1]%elem_of_maps_of; [|done..].
    split; [done|]. intros i Hi. specialize (Ho T i HT). rewrite Hs, Hs1 in Ho. by apply Ho.
Qed.

(** *** What arrives *)

Lemma received_kind r h0 h1 : kind_of h1 = kind_of h0 -> kind_of (received r h0 h1) = kind_of h1.
Proof. destruct h0, h1; intros; simplify_eq/=; done. Qed.

Lemma received_fits r h0 h1 : kind_of h1 = kind_of h0 -> holder_fits h0 -> holder_fits (received r h0 h1).
Proof.
  destruct h0 as [|v|], h1; intros; simplify_eq/=; try done. intros x [= <-].
  destruct v; simpl; [eauto|apply zero_sendable].
Qed.

Lemma reset_reset (m : gmap Z tholder) : reset_map (reset_map m) = reset_map m.
Proof. unfold reset_map. rewrite <- map_fmap_compose. by apply map_fmap_ext. Qed.

Lemma received_le r h h0 h1 : holder_le (holder_begin_phase h) (holder_begin_phase h0) ->
  holder_fits h0 -> kind_of h1 = kind_of h0 ->
  holder_le (holder_begin_phase h) (holder_begin_phase (received r h0 h1)).
Proof.
  intros Hle Hf Hk. destruct h0 as [t0|v0|T0 hs0 p0], h1 as [t1|v1|T1 hs1 p1]; simplify_eq/=; try done.
  destruct h as [t|v|T hs' p]; [by destruct Hle as [?|[? _]]| |by destruct Hle as [?|[? _]]].
  destruct Hle as [[= ->]|([= ->] & w & [= ->] & Hw)]; simpl.
  - destruct v as [v|]; [by left|]. right. split; [done|]. eexists. split; [done|apply zero_sendable].
  - right. eauto.
Qed.

(** *** One phase at its server *)

Section phase.
Variables (p : phase) (ps : list phase).
#[local] Abbreviation l := (ph_label p).
#[local] Abbreviation X := (fun x => bool_decide (x ∈ phase_names p)).
#[local] Abbreviation W := (fun x => bool_decide (x ∈ written (ph_ast p))).
#[local] Abbreviation Ts := (map_of_label l).

(** [remotable], condition by condition *)
Record fit_to_move : Prop := {
  fm_void : ph_returns p = TVoid;
  fm_size : Z.of_nat (length (virtual_holders hs)) < 2 ^ 64;
  fm_within : stmt_within X Ts false (ph_ast p) = true;
  fm_requires : sendable_names hs (ph_requirements p) = true;
  fm_provides : sendable_names hs (ph_provides p) = true;
  fm_remote T n : remote_holder T n ∈ hs -> n ∈ phase_names p -> Ts T = true;
  fm_maps : base.filter (fun T => Ts T = true) (virtual_holders hs) =
            base.filter (fun T => Ts T = true) (virtual_holders (restrict_to_phase hs p));
  fm_written x : x ∈ written (ph_ast p) -> x ∈ holder_name <$> ph_provides p \/ later_names ps x = false }.

Lemma remotable_spec : remotable hs p ps = true -> fit_to_move.
Proof.
  unfold remotable. rewrite !andb_true_iff, !bool_decide_eq_true, Z.ltb_lt.
  intros [[[[[[[Hv Hl] Hw] Hr] Hp] Hre] Hm] Hx]. split; try done.
  - intros T n Hin%list_elem_of_In Hn. apply (proj1 (forallb_forall _ _) Hre) in Hin.
    apply orb_true_iff in Hin as [Hin|Hin]; [|done]. by apply bool_decide_eq_true in Hin.
  - intros x Hin%list_elem_of_In. apply (proj1 (forallb_forall _ _) Hx) in Hin.
    apply orb_true_iff in Hin as [Hin|Hin]; [left|right].
    + by apply bool_decide_eq_true in Hin.
    + by apply negb_true_iff in Hin.
Qed.

Lemma kept_refl W' Ts' lists s : kept_from W' Ts' lists s s.
Proof. by split. Qed.

Lemma kinds_in s x h : kinds_of_store s -> holders s !! x = Some h ->
  exists r, r ∈ hs /\ x = holder_name r /\ kind_of h = kind_of (default_holder r).
Proof.
  intros Hk Hh. specialize (Hk x). rewrite Hh in Hk.
  destruct (holders (empty_store hs) !! x) as [h'|] eqn:Hx; [|done]. injection Hk as Hk.
  unfold empty_store in Hx. cbn [holders] in Hx. apply elem_of_list_to_map_2 in Hx.
  apply list_elem_of_fmap in Hx as (r & [= -> ->] & Hr). eauto.
Qed.

Lemma names_declared x : x ∈ phase_names p ->
  x ∈ holder_name <$> ph_requirements p \/ x ∈ declared_at p.
Proof.
  intros Hx. destruct (decide (x ∈ holder_name <$> ph_requirements p)); [by left|right].
  by apply list_elem_of_filter.
Qed.

Lemma later_names_here x : x ∈ phase_names p -> later_names (p :: ps) x = true.
Proof. intros Hx. apply orb_true_iff. left. by apply bool_decide_eq_true. Qed.

Lemma requirement_name r : r ∈ ph_requirements p -> holder_name r ∈ phase_names p.
Proof. intros Hr. apply list_elem_of_fmap_2. apply elem_of_app. by left. Qed.
Lemma provided_name r : r ∈ ph_provides p -> holder_name r ∈ phase_names p.
Proof. intros Hr. apply list_elem_of_fmap_2. rewrite !elem_of_app. tauto. Qed.

Variables s s0 : run_state.
Hypothesis Hfit : fit_to_move.
Hypothesis Hthere : runs_there p = true.
Hypothesis Hsync : sync (p :: ps) s s0.

(** The server when it has read the request *)
Definition server_state (st : store) : run_state := RunState st [] (st_world s0).

Record arrived (st : store) : Prop := {
  ar_starts : starts X W Ts false (begun s) (begun (server_state st)) s (server_state st);
  ar_kinds x : x ∈ phase_names p -> kind_of <$> holders st !! x = kind_of <$> holders (empty_store hs) !! x;
  ar_types : (supers st).*1 = virtual_holders (restrict_to_phase hs p);
  ar_super T : Ts T = true -> super_of T st = super_of T (st_store s0) }.

Lemma empty_super T rs m : super_of T (empty_store rs) = Some m -> m = ∅.
Proof. intros Hm%super_of_in. apply list_elem_of_fmap in Hm as (T' & [= _ ->] & _). done. Qed.

Lemma empty_types rs : (supers (empty_store rs)).*1 = virtual_holders rs.
Proof. unfold empty_store. cbn [supers]. rewrite <- list_fmap_compose. by apply list_fmap_id. Qed.

Lemma request_can_go :
  sendable_to l (ph_requirements p) (st_store s0) (empty_store (restrict_to_phase hs p)).
Proof.
  pose proof (NoDup_virtual_holders hs) as Hv.
  apply can_send; try by rewrite ?(sy_types0 _ _ _ Hsync), ?empty_types; try apply NoDup_virtual_holders.
  - apply fm_requires, Hfit.
  - intros r _. apply (sy_kind0 _ _ _ Hsync).
  - intros r Hr. by rewrite restrict_lookup by by apply requirement_name.
  - intros r h Hr Hh. pose proof (sy_kind0 _ _ _ Hsync (holder_name r)) as Hk.
    rewrite Hh, <- (sy_kind _ _ _ Hsync) in Hk.
    destruct (holders (st_store s) !! holder_name r) as [h'|] eqn:Hh'; [|done].
    destruct (sy_holder _ _ _ Hsync (holder_name r) h') as (h0 & Hh0 & _ & Hf); [|done|congruence].
    by apply later_names_here, requirement_name.
  - rewrite !types_of_label, (sy_types0 _ _ _ Hsync), empty_types. apply fm_maps, Hfit.
  - intros T m _. apply (sy_fits _ _ _ Hsync).
  - intros T i _ _. destruct (super_of T (empty_store _)) as [m|] eqn:Hm; [|done].
    by rewrite (empty_super _ _ _ Hm).
  - rewrite <- (length_fmap fst), types_of_label, (sy_types0 _ _ _ Hsync).
    pose proof (length_filter (fun T => Ts T = true) (virtual_holders hs)). pose proof (fm_size Hfit). lia.
Qed.

Lemma request_arrives : names_measured -> exists values st,
  send_store_values l (ph_requirements p) (st_store s0) = inl values /\
  fills (receive_store_values l (ph_requirements p)) (empty_store (restrict_to_phase hs p)) values tt st /\
  arrived st.
Proof.
  intros Hm. destruct (store_back l _ _ _ Hm request_can_go) as (bs & st & Hs & Hb & Hd).
  exists bs, st. split; [done|]. split; [done|].
  assert (Hsuper : forall T, Ts T = true -> super_of T st = super_of T (st_store s0)).
  { intros T HT. by rewrite (delivered_supers _ _ _ _ _ Hd), HT. }
  split; [|..|by rewrite (delivered_types _ _ _ _ _ Hd), empty_types|exact Hsuper].
  - split; cbn [begun st_store st_lists st_world server_state]; try done.
    + intros x hb Hx%bool_decide_eq_true. rewrite !lookup_begin_phase.
      destruct (holders (st_store s) !! x) as [h|] eqn:Hh; [|done]. intros [= <-].
      destruct (sy_holder _ _ _ Hsync x h) as (h0 & Hh0 & Hle & Hf); [by apply later_names_here|done|].
      pose proof (sy_kind0 _ _ _ Hsync x) as Hk. rewrite Hh0 in Hk.
      destruct (holders (empty_store hs) !! x) as [h1|] eqn:Hh1; [|done]. injection Hk as Hk.
      rewrite <- (restrict_lookup p) in Hh1 by done.
      destruct (names_declared x Hx) as [(r & -> & Hr)%list_elem_of_fmap|Hdec].
      * rewrite (delivered_holder _ _ _ _ _ Hd r h0 h1 Hr Hh0 Hh1). eexists. split; [done|].
        by apply received_le.
      * rewrite (delivered_other _ _ _ _ _ Hd), Hh1 by by apply list_elem_of_filter in Hdec as [].
        eexists. split; [done|]. left.
        pose proof (sy_fresh _ _ _ Hsync p x) as Hfr. rewrite restrict_lookup in Hh1 by done.
        rewrite Hh, Hh1 in Hfr. simpl in Hfr. assert (Some (holder_begin_phase h) = Some (holder_begin_phase h1)); [|congruence].
        apply Hfr; [by left|done..].
    + intros x T hs' pos Hx%bool_decide_eq_true. rewrite lookup_begin_phase.
      destruct (holders (st_store s) !! x) as [h|] eqn:Hh; [|done]. intros [= Hb'].
      destruct (kinds_in _ x h (sy_kind _ _ _ Hsync) Hh) as (r & Hr & -> & Hk).
      destruct h as [| |T' hs'' p'], r as [| |T0 n|]; simplify_eq/=. by eapply (fm_remote Hfit).
    + intros T HT. rewrite !super_of_begin, Hsuper by done. apply (sy_super _ _ _ Hsync).
    + apply (sy_world _ _ _ Hsync).
  - intros x Hx. rewrite <- (restrict_lookup p x Hx).
    destruct (decide (x ∈ holder_name <$> ph_requirements p)) as [(r & -> & Hr)%list_elem_of_fmap|Hn].
    + destruct request_can_go as (_ & Hready & _).
      destruct (Hready r Hr) as (_ & _ & h & h1 & Hh & Hh1 & _ & Hk%same_class_kind).
      rewrite (delivered_holder _ _ _ _ _ Hd r h h1 Hr Hh Hh1), Hh1. simpl. by rewrite received_kind.
    + by rewrite (delivered_other _ _ _ _ _ Hd).
Qed.

(** The client when it has read the answer; [s'] and [srv']: the two runs at their ends *)
Hypothesis Hfresh : forall q x, q ∈ ps -> runs_there q = true -> x ∈ written (ph_ast p) -> x ∉ declared_at q.
Variables (st : store) (s' srv' : run_state).
Hypothesis Harrived : arrived st.
Hypothesis Hagree : agree X W Ts false (begun s) (begun (server_state st)) s' srv'.
Hypothesis Hfits : store_fits (st_store s') = true.

Lemma kinds_begun s1 x : kind_of <$> holders (st_store (begun s1)) !! x = kind_of <$> holders (st_store s1) !! x.
Proof.
  cbn [begun st_store]. rewrite lookup_begin_phase, <- option_fmap_compose. apply option_fmap_ext.
  intros h. apply kind_of_begin.
Qed.

Lemma end_kinds : kinds_of_store (st_store s').
Proof. intros x. by rewrite (kf_kind _ _ _ _ _ (ag_kept _ _ _ _ _ _ _ _ Hagree)), kinds_begun, (sy_kind _ _ _ Hsync). Qed.

Lemma end_types : (supers (st_store s')).*1 = virtual_holders hs.
Proof.
  rewrite (kf_types _ _ _ _ _ (ag_kept _ _ _ _ _ _ _ _ Hagree)). cbn [begun st_store].
  by rewrite types_begin, (sy_types _ _ _ Hsync).
Qed.

Lemma server_types : (supers (st_store srv')).*1 = virtual_holders (restrict_to_phase hs p).
Proof.
  rewrite (kf_types _ _ _ _ _ (ag_kept0 _ _ _ _ _ _ _ _ Hagree)). cbn [begun st_store server_state].
  by rewrite types_begin, (ar_types _ Harrived).
Qed.

Lemma server_kinds x : x ∈ phase_names p ->
  kind_of <$> holders (st_store srv') !! x = kind_of <$> holders (empty_store hs) !! x.
Proof.
  intros Hx. rewrite (kf_kind _ _ _ _ _ (ag_kept0 _ _ _ _ _ _ _ _ Hagree)), kinds_begun.
  by apply (ar_kinds _ Harrived).
Qed.

Lemma holder_le_fits h h0 : holder_le h h0 -> holder_fits h -> holder_fits h0.
Proof. intros [->|(-> & v & -> & Hv)]; [done|]. by intros _ w [= <-]. Qed.

(** What the server has for a name of the phase *)
Lemma server_holder x : x ∈ phase_names p -> x ∈ holder_name <$> hs -> exists h h0,
  holders (st_store s') !! x = Some h /\ holders (st_store srv') !! x = Some h0 /\
  holder_le h h0 /\ holder_fits h0.
Proof.
  intros Hx (r & -> & Hr)%list_elem_of_fmap. pose proof (end_kinds (holder_name r)) as Hk.
  rewrite lookup_empty_store in Hk by done. destruct (holders (st_store s') !! _) as [h|] eqn:Hh; [|done].
  destruct (ag_holder _ _ _ _ _ _ _ _ Hagree (holder_name r) h) as (h0 & Hh0 & Hle); [by apply bool_decide_eq_true|done|].
  exists h, h0. split_and!; try done. eapply holder_le_fits; [done|]. by eapply store_fits_holder.
Qed.

Lemma reset_lookup (o : option (gmap Z tholder)) i :
  (reset_map <$> o) ≫= (.!! i) = None <-> o ≫= (.!! i) = None.
Proof. destruct o as [m|]; [|done]. simpl. unfold reset_map. rewrite lookup_fmap. by destruct (m !! i). Qed.

Lemma answer_can_go : sendable_to l (ph_provides p) (st_store srv') (st_store s0).
Proof.
  pose proof (sendable_names_spec _ (fm_provides Hfit)) as [_ Hprov].
  apply can_send; rewrite ?server_types, ?(sy_types0 _ _ _ Hsync); try apply NoDup_virtual_holders.
  - apply fm_provides, Hfit.
  - intros r Hr. by apply server_kinds, provided_name.
  - intros r _. apply (sy_kind0 _ _ _ Hsync).
  - intros r h Hr Hh. destruct (server_holder (holder_name r)) as (h' & h0 & _ & Hh0 & _ & Hf);
      [by apply provided_name|by apply Hprov|congruence].
  - rewrite !types_of_label, server_types, (sy_types0 _ _ _ Hsync). symmetry. apply fm_maps, Hfit.
  - intros T m HT. rewrite (ag_super _ _ _ _ _ _ _ _ Hagree T HT). by apply store_fits_super.
  - intros T i HT Ho. apply (kf_objects _ _ _ _ _ (ag_kept0 _ _ _ _ _ _ _ _ Hagree)) in Ho.
    cbn [begun st_store server_state] in Ho. rewrite super_of_begin, reset_lookup in Ho.
    by rewrite <- (ar_super _ Harrived T HT).
  - rewrite <- (length_fmap fst), types_of_label, server_types, <- (fm_maps Hfit).
    pose proof (length_filter (fun T => Ts T = true) (virtual_holders hs)). pose proof (fm_size Hfit). lia.
Qed.

(** What a phase does not write is where it was when the phase began. *)
Lemma end_unwritten x : x ∉ written (ph_ast p) ->
  holder_begin_phase <$> holders (st_store s') !! x = holder_begin_phase <$> holders (st_store s) !! x.
Proof.
  intros Hx. rewrite (kf_holder _ _ _ _ _ (ag_kept _ _ _ _ _ _ _ _ Hagree)) by by apply bool_decide_eq_false.
  cbn [begun st_store]. rewrite lookup_begin_phase, <- option_fmap_compose. apply option_fmap_ext.
  intros h. apply holder_begin_begin.
Qed.

Lemma end_fresh q x : q ∈ ps -> runs_there q = true -> x ∈ declared_at q ->
  holder_begin_phase <$> holders (st_store s') !! x = holder_begin_phase <$> holders (empty_store hs) !! x.
Proof.
  intros Hq Hr Hx. rewrite end_unwritten by (intros Hw; by eapply Hfresh).
  eapply (sy_fresh _ _ _ Hsync); [by right|done..].
Qed.

Section received.
Variable st' : store.
Hypothesis Hdelivered : delivered l (ph_provides p) (st_store srv') (st_store s0) st'.

Lemma client_holder x h : later_names ps x = true -> holders (st_store s') !! x = Some h ->
  exists h0, holders st' !! x = Some h0 /\ holder_le (holder_begin_phase h) (holder_begin_phase h0) /\
    holder_fits h0.
Proof.
  intros Hx Hh. destruct (decide (x ∈ holder_name <$> ph_provides p)) as [(r & -> & Hr)%list_elem_of_fmap|Hn].
  - destruct (sendable_names_spec _ (fm_provides Hfit)) as [_ Hprov].
    destruct (server_holder (holder_name r)) as (h' & h0 & Hh' & Hh0 & Hle & Hf);
      [by apply provided_name|by apply Hprov|]. assert (h' = h) as -> by congruence.
    destruct answer_can_go as (_ & Hready & _).
    destruct (Hready r Hr) as (_ & _ & h1 & h2 & Hh1 & Hh2 & _ & Hk%same_class_kind).
    assert (h1 = h0) as -> by congruence. rewrite (delivered_holder _ _ _ _ _ Hdelivered r h0 h2 Hr Hh0 Hh2).
    eexists. split; [done|]. split; [by apply received_le; [apply holder_le_begin|..]|].
    by apply received_fits.
  - assert (Hw : x ∉ written (ph_ast p)).
    { intros Hw. destruct (fm_written Hfit x Hw); [done|congruence]. }
    pose proof (end_unwritten x Hw) as Hb. rewrite Hh in Hb.
    destruct (holders (st_store s) !! x) as [h'|] eqn:Hh'; [|done]. injection Hb as Hb. rewrite Hb.
    rewrite (delivered_other _ _ _ _ _ Hdelivered) by done.
    apply (sy_holder _ _ _ Hsync); [|done]. by apply orb_true_iff; right.
Qed.

Lemma client_kinds : kinds_of_store st'.
Proof.
  intros x. rewrite <- (sy_kind0 _ _ _ Hsync).
  destruct (decide (x ∈ holder_name <$> ph_provides p)) as [(r & -> & Hr)%list_elem_of_fmap|Hn].
  - destruct answer_can_go as (_ & Hready & _).
    destruct (Hready r Hr) as (_ & _ & h1 & h2 & Hh1 & Hh2 & _ & Hk%same_class_kind).
    rewrite (delivered_holder _ _ _ _ _ Hdelivered r h1 h2 Hr Hh1 Hh2), Hh2. simpl. by rewrite received_kind.
  - by rewrite (delivered_other _ _ _ _ _ Hdelivered).
Qed.

Lemma client_super T : reset_map <$> super_of T st' = reset_map <$> super_of T (st_store s').
Proof.
  rewrite (delivered_supers _ _ _ _ _ Hdelivered). destruct (Ts T) eqn:HT.
  - by rewrite (ag_super _ _ _ _ _ _ _ _ Hagree T HT).
  - rewrite (kf_super _ _ _ _ _ (ag_kept _ _ _ _ _ _ _ _ Hagree) T HT). cbn [begun st_store].
    rewrite super_of_begin, (sy_super _ _ _ Hsync), <- option_fmap_compose. apply option_fmap_ext.
    intros m. symmetry. apply reset_reset.
Qed.

Lemma client_sync w : sync ps (RunState (st_store s') (st_lists s') w) (RunState st' (st_lists s0) w).
Proof.
  split; cbn [st_store st_lists st_world]; try done.
  - apply client_holder.
  - apply end_kinds.
  - apply client_kinds.
  - apply end_fresh.
  - apply client_super.
  - apply end_types.
  - by rewrite (delivered_types _ _ _ _ _ Hdelivered), (sy_types0 _ _ _ Hsync).
  - intros T m. rewrite (delivered_supers _ _ _ _ _ Hdelivered). destruct (Ts T) eqn:HT.
    + rewrite (ag_super _ _ _ _ _ _ _ _ Hagree T HT). by apply store_fits_super.
    + apply (sy_fits _ _ _ Hsync).
  - by rewrite (sy_lists _ _ _ Hsync), (kf_lists _ _ _ _ _ (ag_kept _ _ _ _ _ _ _ _ Hagree)).
Qed.
End received.

Lemma answer_arrives : names_measured -> exists data st',
  send_store_values l (ph_provides p) (st_store srv') = inl data /\
  fills (receive_store_values l (ph_provides p)) (st_store s0) data tt st' /\
  forall w, sync ps (RunState (st_store s') (st_lists s') w) (RunState st' (st_lists s0) w).
Proof.
  intros Hm. destruct (store_back l _ _ _ Hm answer_can_go) as (bs & st' & Hs & Hb & Hd).
  exists bs, st'. split_and!; [done..|]. intros w. by apply client_sync.
Qed.
End phase.

(** *** The exchange *)

Lemma run_bind_step {A B} (m : Run A) (f : A -> Run B) s a s1 : m s = (inl a, s1) -> (m ≫= f) s = f a s1.
Proof. intros Hm. unfold mbind, Run_bind. by rewrite Hm. Qed.

Lemma run_bind_ends {A B} (m : Run A) (f : A -> Run B) s e s1 : m s = (inr e, s1) -> (m ≫= f) s = (inr e, s1).
Proof. intros Hm. unfold mbind, Run_bind. by rewrite Hm. Qed.

Context `{!ServerLaws}.
Variables (fuel : nat) (labels : list label) (served : label -> list listener).
Hypothesis Hmeasured : names_measured.
(** No exception has the text of a missing transaction. *)
Hypothesis Hquiet : debug = true -> forall e, is_std_exception e = true -> says_no_match (what e) = false.

Lemma sim_run_here X W Ts lists k k0 p ts : stmt_within X Ts lists (ph_ast p) = true ->
  (forall x, x ∈ written (ph_ast p) -> W x = true) ->
  sim_from X W Ts lists k k0 (run_here fuel p ts) (agree X W Ts lists k k0).
Proof.
  intros Hw HW. unfold run_here. apply sim_from_bind; [apply sim_from_call|intros _].
  apply sim_from_bind; [apply sim_from_call|intros _]. apply sim_from_done. by apply sim_common_interp.
Qed.

Lemma definite_caught {A} e : is_std_exception e = true -> definite (A := A) (inr (Throws e)) = true.
Proof. by destruct e. Qed.

(** An exchange in which the server succeeds, or catches what its phase threw *)
Lemma exchange_succeeds p ts values st srv1 data r w1 w2 s0 :
  serves fuel served hs p ->
  fills (receive_store_values (ph_label p) (ph_requirements p))
    (empty_store (restrict_to_phase hs p)) values tt st ->
  run_here fuel p ts (RunState st [] (st_world s0)) = (inl tt, srv1) ->
  send_store_values (ph_label p) (ph_provides p) (st_store srv1) = inl data ->
  trk_updateClock (st_world srv1) = (inl tt, w1) -> trk_reply w1 = (inl r, w2) ->
  exchange fuel served (ph_label p)
    (to_bytes size_codec (txnID p) ++ to_bytes tombstones_codec ts
       ++ to_bytes bytes_codec (request_header p ++ values)) s0 =
  (inl (echo_nonce (nonce_of p) ++ success_message r data), RunState (st_store s0) (st_lists s0) w2).
Proof.
  intros Hserves Hst Hrun Hsend Hclock Hreply. rewrite (exchange_runs _ _ hs p ts values st) by done.
  rewrite (run_bind_step _ _ _ (inl tt) srv1) by (unfold attempt_run; by rewrite Hrun).
  cbn [respond]. rewrite (run_bind_step _ _ _ (st_store srv1) srv1) by done.
  rewrite (run_bind_step _ _ _ data srv1) by (unfold lift; by rewrite Hsend).
  erewrite run_bind_step by (unfold call; by rewrite Hclock).
  erewrite run_bind_step by (unfold call; cbn [st_world]; by rewrite Hreply). done.
Qed.

Lemma exchange_fails p ts values st srv1 e s0 :
  serves fuel served hs p ->
  fills (receive_store_values (ph_label p) (ph_requirements p))
    (empty_store (restrict_to_phase hs p)) values tt st ->
  run_here fuel p ts (RunState st [] (st_world s0)) = (inr (Throws e), srv1) -> is_std_exception e = true ->
  exchange fuel served (ph_label p)
    (to_bytes size_codec (txnID p) ++ to_bytes tombstones_codec ts
       ++ to_bytes bytes_codec (request_header p ++ values)) s0 =
  (inl (echo_nonce (nonce_of p) ++ failure_message e), RunState (st_store s0) (st_lists s0) (st_world srv1)).
Proof.
  intros Hserves Hst Hrun He. rewrite (exchange_runs _ _ hs p ts values st) by done.
  rewrite (run_bind_step _ _ _ (inr (Throws e)) srv1) by (unfold attempt_run; by rewrite Hrun).
  cbn [respond]. by rewrite He.
Qed.

(** The in-place run after a phase that succeeded *)
Definition in_place_end (p : phase) (c : client) : Run client :=
  must (call trk_updateClock);;
  r ← must (call trk_reply);
  check_fits;;
  mret (receive_reply labels (ph_label p) r c).

Lemma in_place_end_definite p c s : definite (in_place_end p c s).1 = true -> exists w1 r w2,
  trk_updateClock (st_world s) = (inl tt, w1) /\ trk_reply w1 = (inl r, w2) /\
  store_fits (st_store s) = true /\
  in_place_end p c s = (inl (receive_reply labels (ph_label p) r c), RunState (st_store s) (st_lists s) w2).
Proof.
  unfold in_place_end, must, call, check_fits, get_store, mbind, Run_bind.
  destruct (trk_updateClock _) as [[[]|e] w1]; [|done]. cbn [fst snd st_world].
  destruct (trk_reply w1) as [[r|e] w2] eqn:Hr; [|done]. cbn [fst snd st_store st_lists].
  destruct (store_fits _) eqn:Hf; [|done]. intros _. eauto 10.
Qed.

(** A phase at its server, seen from the client *)
Lemma remote_phase p ps c s s0 : fit_to_move p ps -> runs_there p = true -> sync (p :: ps) s s0 ->
  serves fuel served hs p ->
  (forall q x, q ∈ ps -> runs_there q = true -> x ∈ written (ph_ast p) -> x ∉ declared_at q) ->
  definite (in_place fuel labels p c s).1 = true ->
  (remote_interp fuel served labels p c s0).1 = (in_place fuel labels p c s).1 /\
  st_world (remote_interp fuel served labels p c s0).2 = st_world (in_place fuel labels p c s).2 /\
  match (in_place fuel labels p c s).1 with
  | inl _ => sync ps (in_place fuel labels p c s).2 (remote_interp fuel served labels p c s0).2
  | inr _ => True
  end.
Proof.
  intros Hfit Hthere Hsync Hserves Hfresh.
  destruct (request_arrives p ps s s0 Hfit Hthere Hsync Hmeasured) as (values & st & Hsend & Hback & Harr).
  unfold in_place, remote_interp.
  rewrite (run_bind_step get_store _ s0 (st_store s0) s0) by done.
  rewrite (run_bind_step _ _ s0 values s0) by (unfold lift; by rewrite Hsend).
  set (ts := tombstones_for_phase (ph_label p) c).
  pose proof (sim_run_here _ (fun x => bool_decide (x ∈ written (ph_ast p))) _ _ (begun s)
    (begun (server_state s0 st)) p ts (fm_within _ _ Hfit)) as Hsim.
  specialize (Hsim (fun x Hx => proj2 (bool_decide_eq_true _) Hx) _ _ (ar_starts _ _ _ _ Harr)).
  unfold server_state in Hsim.
  destruct (run_here fuel p ts s) as [r s'] eqn:Hrun.
  destruct (run_here fuel p ts (RunState st [] (st_world s0))) as [r0 srv1] eqn:Hrun0.
  rewrite (run_bind_step (attempt_run _) _ s r s') by (unfold attempt_run; by rewrite Hrun).
  destruct r as [[]|e].
  - destruct Hsim as [Hr Hagree]; [done|]. cbn [fst snd] in Hr, Hagree. subst r0.
    fold (in_place_end p c). intros (w1 & r & w2 & Hclock & Hreply & Hfits & ->)%in_place_end_definite.
    destruct (answer_arrives p ps s s0 Hfit Hsync Hfresh st s' srv1 Harr Hagree Hfits Hmeasured)
      as (data & st' & Hsend' & Hback' & Hs').
    rewrite (run_bind_step _ _ _ _ _ (exchange_succeeds p ts values st srv1 data r w1 w2 s0 Hserves Hback Hrun0 Hsend'
      ltac:(by rewrite (ag_world _ _ _ _ _ _ _ _ Hagree)) Hreply)).
    rewrite (read_from_all _ _ _ (success_back p r data)).
    erewrite run_bind_step by done. cbn [fst snd].
    rewrite (run_bind_step _ _ _ tt (RunState st' (st_lists s0) w2))
      by by apply (receive_into_all _ _ _ (RunState (st_store s0) (st_lists s0) w2)).
    split; [done|]. split; [done|]. apply Hs'.
  - destruct e as [e| | |]; [|done..]. destruct (is_std_exception e) eqn:He; [|done]. intros _.
    destruct Hsim as [Hr Hagree]; [by apply definite_caught|]. cbn [fst snd] in Hr, Hagree. subst r0.
    rewrite (run_bind_step _ _ _ _ _ (exchange_fails p ts values st srv1 e s0 Hserves Hback Hrun0 He)).
    rewrite (read_from_all _ _ _ (failure_back p e (fun Hd => Hquiet Hd e He))).
    erewrite run_bind_step by done. split; [done|]. split; [|done]. apply (ag_world _ _ _ _ _ _ _ _ Hagree).
Qed.

(** *** A phase at the client *)

Lemma sync_starts_here p ps s s0 : sync (p :: ps) s s0 ->
  starts (later_names (p :: ps)) (fun x => bool_decide (x ∈ written (ph_ast p))) (fun _ => true) true
    (begun s) (begun s0) s s0.
Proof.
  intros Hs. split; cbn [begun st_store st_lists st_world]; try done; try apply Hs.
  - intros x hb Hx. rewrite !lookup_begin_phase.
    destruct (holders (st_store s) !! x) as [h|] eqn:Hh; [|done]. intros [= <-].
    destruct (sy_holder _ _ _ Hs x h Hx Hh) as (h0 & -> & Hle & _). by eexists.
  - intros T _. rewrite !super_of_begin. apply (sy_super _ _ _ Hs).
  - intros _. apply (sy_lists _ _ _ Hs).
Qed.

Lemma later_names_cons p ps x : later_names ps x = true -> later_names (p :: ps) x = true.
Proof. intros Hx. apply orb_true_iff. by right. Qed.

Lemma sync_after_here p ps s s0 s' s1 : sync (p :: ps) s s0 ->
  (forall q x, q ∈ ps -> runs_there q = true -> x ∈ written (ph_ast p) -> x ∉ declared_at q) ->
  agree (later_names (p :: ps)) (fun x => bool_decide (x ∈ written (ph_ast p))) (fun _ => true) true
    (begun s) (begun s0) s' s1 -> store_fits (st_store s') = true -> sync ps s' s1.
Proof.
  intros Hs Hfresh Ha Hf. pose proof (ag_kept _ _ _ _ _ _ _ _ Ha) as Hk.
  pose proof (ag_kept0 _ _ _ _ _ _ _ _ Ha) as Hk0. split.
  - intros x h Hx Hh. destruct (ag_holder _ _ _ _ _ _ _ _ Ha x h) as (h0 & Hh0 & Hle);
      [by apply later_names_cons|done|].
    exists h0. split; [done|]. split; [by apply holder_le_begin|].
    eapply holder_le_fits; [done|]. by eapply store_fits_holder.
  - intros x. by rewrite (kf_kind _ _ _ _ _ Hk), kinds_begun, (sy_kind _ _ _ Hs).
  - intros x. by rewrite (kf_kind _ _ _ _ _ Hk0), kinds_begun, (sy_kind0 _ _ _ Hs).
  - intros q x Hq Hr Hx. rewrite (kf_holder _ _ _ _ _ Hk).
    2:{ apply bool_decide_eq_false. intros Hw. by eapply Hfresh. }
    cbn [begun st_store]. rewrite lookup_begin_phase, <- (sy_fresh _ _ _ Hs q x); [|by right|done..].
    destruct (holders (st_store s) !! x); [|done]. simpl. by rewrite holder_begin_begin.
  - intros T. by rewrite (ag_super _ _ _ _ _ _ _ _ Ha T).
  - rewrite (kf_types _ _ _ _ _ Hk). cbn [begun st_store]. by rewrite types_begin, (sy_types _ _ _ Hs).
  - rewrite (kf_types _ _ _ _ _ Hk0). cbn [begun st_store]. by rewrite types_begin, (sy_types0 _ _ _ Hs).
  - intros T m. rewrite (ag_super _ _ _ _ _ _ _ _ Ha T) by done. by apply store_fits_super.
  - apply (ag_world _ _ _ _ _ _ _ _ Ha).
  - by apply (ag_lists _ _ _ _ _ _ _ _ Ha).
Qed.

(** A phase that runs here, and a look at what it leaves *)
Definition here_checked (p : phase) : Run (option value) := v ← common_interp fuel p; check_fits;; mret v.

Lemma local_phase p ps s s0 : sync (p :: ps) s s0 ->
  stmt_within (later_names (p :: ps)) (fun _ => true) true (ph_ast p) = true ->
  (forall q x, q ∈ ps -> runs_there q = true -> x ∈ written (ph_ast p) -> x ∉ declared_at q) ->
  definite (here_checked p s).1 = true ->
  (common_interp fuel p s0).1 = (here_checked p s).1 /\
  st_world (common_interp fuel p s0).2 = st_world (here_checked p s).2 /\
  match (here_checked p s).1 with
  | inl _ => sync ps (here_checked p s).2 (common_interp fuel p s0).2
  | inr _ => True
  end.
Proof.
  intros Hs Hw Hfresh.
  pose proof (sim_common_interp _ (fun x => bool_decide (x ∈ written (ph_ast p))) _ _ (begun s) (begun s0) fuel p Hw
    (fun x Hx => proj2 (bool_decide_eq_true _) Hx) _ _ (sync_starts_here p ps s s0 Hs)) as Hsim.
  unfold here_checked, check_fits, get_store, mbind, Run_bind.
  destruct (common_interp fuel p s) as [[v|e] s'], (common_interp fuel p s0) as [r s1]; cbn [fst snd] in *.
  - destruct Hsim as [-> Ha]; [done|]. destruct (store_fits (st_store s')) eqn:Hf; [|done]. intros _.
    split; [done|]. split; [apply (ag_world _ _ _ _ _ _ _ _ Ha)|]. by eapply sync_after_here.
  - intros Hd. destruct (Hsim Hd) as [-> Ha]. split; [done|]. split; [|done]. apply (ag_world _ _ _ _ _ _ _ _ Ha).
Qed.

(** ** Transactions *)

Lemma distributable_fresh p ps : forallb (fun q => negb (runs_there q) ||
    forallb (fun x => bool_decide (x ∉ declared_at q)) (written (ph_ast p))) ps = true ->
  forall q x, q ∈ ps -> runs_there q = true -> x ∈ written (ph_ast p) -> x ∉ declared_at q.
Proof.
  intros Hf q x Hq%list_elem_of_In Hr Hx%list_elem_of_In.
  apply (proj1 (forallb_forall _ _) Hf) in Hq. rewrite Hr in Hq.
  apply (proj1 (forallb_forall _ _) Hq) in Hx. by apply bool_decide_eq_true in Hx.
Qed.

(** [m] in place and [m0] at the client end alike, and the stores are in step for [ps]. *)
Definition in_step {A} (ps : list phase) (r r0 : (A + stop) * run_state) : Prop :=
  definite r.1 = true -> r0.1 = r.1 /\ st_world r0.2 = st_world r.2 /\
    match r.1 with inl _ => sync ps r.2 r0.2 | inr _ => True end.

Lemma in_step_map {A B} ps (m m0 : Run A) (f : A -> B) s s0 : in_step ps (m s) (m0 s0) ->
  in_step ps ((x ← m; mret (f x)) s) ((x ← m0; mret (f x)) s0).
Proof.
  unfold in_step, mbind, Run_bind. intros Hm.
  destruct (m s) as [[a|e] s1], (m0 s0) as [r s2]; cbn [fst snd mret Run_ret] in *; intros Hd;
    destruct (Hm Hd) as (-> & ? & ?); done.
Qed.

Lemma phase_in_step p ps c s s0 b : runs_remotely p = Some b -> sync (p :: ps) s s0 ->
  (if runs_there p then remotable hs p ps
   else stmt_within (later_names (p :: ps)) (fun _ => true) true (ph_ast p)) = true ->
  (forall q x, q ∈ ps -> runs_there q = true -> x ∈ written (ph_ast p) -> x ∉ declared_at q) ->
  (runs_there p = true -> serves fuel served hs p) ->
  in_step ps
    ((if b then c' ← in_place fuel labels p c; mret (c', None) else v ← here_checked p; mret (c, v)) s)
    ((if b then c' ← remote_interp fuel served labels p c; mret (c', None)
      else v ← common_interp fuel p; mret (c, v)) s0).
Proof.
  intros Hb Hs Hp Hfresh Hserves. unfold runs_there in Hp, Hserves. rewrite Hb in Hp, Hserves.
  destruct b; apply in_step_map; intros Hd.
  - rewrite bool_decide_true in Hp, Hserves by done. apply remotable_spec in Hp. apply remote_phase; auto.
    unfold runs_there. by rewrite Hb, bool_decide_true.
  - rewrite bool_decide_false in Hp by done. by apply local_phase.
Qed.

Lemma dispatch_sync phases c s s0 : distributable hs phases = true ->
  (forall p, p ∈ phases -> runs_there p = true -> serves fuel served hs p) -> sync phases s s0 ->
  definite (dispatch_in_place fuel labels phases c s).1 = true ->
  (dispatch_remotely fuel served labels phases c s0).1 = (dispatch_in_place fuel labels phases c s).1 /\
  st_world (dispatch_remotely fuel served labels phases c s0).2 =
    st_world (dispatch_in_place fuel labels phases c s).2.
Proof.
  revert c s s0. induction phases as [|p ps IH]; intros c s s0 Hd Hserves Hs; [done|].
  cbn [distributable] in Hd. rewrite !andb_true_iff in Hd. destruct Hd as [[Hp Hfresh] Hd].
  pose proof (distributable_fresh p ps Hfresh) as Hf.
  unfold dispatch_in_place, dispatch_remotely. cbn [dispatch_with].
  destruct (runs_remotely p) as [b|] eqn:Hb; [|done].
  rewrite (run_bind_step (expect _ (Some b)) _ s b s) by done.
  rewrite (run_bind_step (expect _ (Some b)) _ s0 b s0) by done.
  pose proof (phase_in_step p ps c s s0 b Hb Hs Hp Hf (fun Hr => Hserves p ltac:(by left) Hr)) as Hstep.
  unfold in_step in Hstep. fold (here_checked p).
  destruct ((if b then c' ← in_place fuel labels p c; mret (c', None) else v ← here_checked p; mret (c, v)) s)
    as [r s1] eqn:Hr.
  destruct ((if b then c' ← remote_interp fuel served labels p c; mret (c', None)
      else v ← common_interp fuel p; mret (c, v)) s0) as [r0 s2] eqn:Hr0. cbn [fst snd] in Hstep.
  destruct r as [[c1 v]|e].
  - destruct Hstep as (-> & Hw & Hs1); [done|].
    rewrite (run_bind_step _ _ _ _ _ Hr), (run_bind_step _ _ _ _ _ Hr0).
    destruct ps as [|q qs]; [by split|]. apply IH; [done| |done].
    intros p' Hp'. apply Hserves. by right.
  - rewrite (run_bind_ends _ _ _ _ _ Hr). cbn [fst snd]. intros Hdef.
    destruct (Hstep Hdef) as (-> & Hw & _). rewrite (run_bind_ends _ _ _ _ _ Hr0). by split.
Qed.
End sync.

(** ** The whole transaction *)

Section transaction.
Context `{Servers} `{UserLabels} `{TypeLists} `{!TypeListLaws} `{!WireLaws} `{!ServerLaws}.

Lemma lookup_arguments args s x : NoDup (arg_name <$> args) ->
  holders (bind_arguments args s) !! x = holders s !! x \/
  exists a, a ∈ args /\ x = arg_name a /\
    holders (bind_arguments args s) !! x = Some (HValue (Some (arg_value a))).
Proof.
  intros Hn. destruct (decide (x ∈ arg_name <$> args)) as [(a & -> & Ha)%list_elem_of_fmap|Hx].
  - right. exists a. by rewrite bind_arguments_arg.
  - left. by apply bind_arguments_other.
Qed.

Lemma default_fits r : holder_fits (default_holder r).
Proof. by destruct r. Qed.

Lemma arguments_apart_spec hs phases args a : arguments_apart hs phases args = true -> a ∈ args ->
  arg_holder a ∈ hs /\ sendable (arg_value a) = true /\
  forall q, q ∈ phases -> runs_there q = true -> arg_name a ∉ declared_at q.
Proof.
  intros [_ Ha]%andb_true_iff Hin%list_elem_of_In. apply (proj1 (forallb_forall _ _) Ha) in Hin.
  rewrite !andb_true_iff, bool_decide_eq_true in Hin. destruct Hin as [[? ?] Hq]. split_and!; [done..|].
  intros q Hin%list_elem_of_In Hr. apply (proj1 (forallb_forall _ _) Hq) in Hin. rewrite Hr in Hin.
  by apply bool_decide_eq_true in Hin.
Qed.

(** Both runs begin with the same store. *)
Lemma sync_begins hs phases args w : NoDup (holder_name <$> hs) -> arguments_apart hs phases args = true ->
  sync hs phases (RunState (bind_arguments args (empty_store hs)) [] w)
    (RunState (bind_arguments args (empty_store hs)) [] w).
Proof.
  intros Hn Hargs. assert (Hargs' : NoDup (arg_name <$> args)).
  { by apply andb_true_iff in Hargs as [Hargs%bool_decide_eq_true _]. }
  pose proof (fun a => arguments_apart_spec hs phases args a Hargs) as Hspec.
  assert (Hk : kinds_of_store hs (bind_arguments args (empty_store hs))).
  { intros x. destruct (lookup_arguments args (empty_store hs) x Hargs') as [->|(a & Ha & -> & ->)]; [done|].
    destruct (Hspec a Ha) as (Hin & _ & _). change (arg_name a) with (holder_name (arg_holder a)).
    by rewrite lookup_empty_store. }
  split; cbn [st_store st_lists st_world]; try done; rewrite ?bind_arguments_supers; try apply empty_types.
  - intros x h _ Hh. exists h. split; [done|]. split; [by left|].
    destruct (lookup_arguments args (empty_store hs) x Hargs') as [Heq|(a & Ha & -> & Heq)]; rewrite Heq in Hh.
    + unfold empty_store in Hh. cbn [holders] in Hh. apply elem_of_list_to_map_2 in Hh.
      apply list_elem_of_fmap in Hh as (r & [= _ ->] & _). apply default_fits.
    + injection Hh as <-. intros v [= <-]. by apply Hspec.
  - intros q x Hq Hr Hx. destruct (lookup_arguments args (empty_store hs) x Hargs') as [->|(a & Ha & -> & _)]; [done|].
    destruct (Hspec a Ha) as (_ & _ & Hno). by exfalso; eapply Hno.
  - intros T m Hm. unfold super_of in Hm. rewrite bind_arguments_supers in Hm.
    apply empty_super in Hm as ->. split; [apply map_Forall_empty|by rewrite map_size_empty].
Qed.

Lemma remote_agrees fuel labels served phases args c w r s :
  let hs := all_store phases (arg_holder <$> args) in
  names_measured ->
  (debug = true -> forall e, is_std_exception e = true -> says_no_match (what e) = false) ->
  distributable hs phases = true -> arguments_apart hs phases args = true ->
  (forall p, p ∈ phases -> runs_there p = true -> registered served hs p) ->
  begin_in_place fuel labels phases args c w = (r, s) -> definite r = true ->
  exists s', begin_remote fuel served labels phases args c w = (r, s') /\ st_world s' = st_world s.
Proof.
  intros hs Hm Hq Hd Ha Hreg. unfold begin_in_place, begin_remote, begin_with. fold hs.
  destruct (decide (NoDup (holder_name <$> hs))) as [Hn|Hn]; [|by intros [= <- <-] Hdef].
  intros Hrun Hdef.
  pose proof (dispatch_sync hs Hn fuel labels served Hm Hq phases c _ _ Hd
    (fun p Hp Hr => registered_serves fuel served hs p (Hreg p Hp Hr)) (sync_begins hs phases args w Hn Ha)) as Hsync.
  rewrite Hrun in Hsync. destruct (dispatch_remotely _ _ _ _ _ _) as [r' s']. cbn [fst snd] in Hsync.
  destruct (Hsync Hdef) as [-> Hw]. by exists s'.
Qed.

(** C4: A transaction whose phases run at the servers of their labels does what it
  would do with every phase run on the client's own store by the server's session:
  if that run ends with a result, a returned value, a failure to serialize or another
  exception that a server reports ([definite]), the distributed one ends with the same result, the same tracker at the client and
  the same data stores, although what the phases work on travels as bytes.  This is for
  phases that are [distributable]: a phase at a server returns nothing, uses only its own
  variables, objects of its own label and no list built-ins, and provides what it writes if
  a later phase refers to it; and nothing is written before the phase that declares it runs
  at its server.  The arguments are carried by a connection, and no phase at a server
  declares them again ([arguments_apart]); the servers have a listener for every phase that
  runs there ([registered]); the lengths of names fit a word; and in debug builds no
  exception has the text of a missing listener.  The run in place checks that the values fit
  a message, so one whose values do not ends with no result. *)
Theorem remote_transaction_correct fuel labels served phases args c w r s :
  let hs := all_store phases (arg_holder <$> args) in
  names_measured ->
  (debug = true -> forall e, is_std_exception e = true -> says_no_match (what e) = false) ->
  distributable hs phases = true -> arguments_apart hs phases args = true ->
  (forall p, p ∈ phases -> runs_there p = true -> registered served hs p) ->
  begin_in_place fuel labels phases args c w = (r, s) -> definite r = true ->
  exists s', begin_remote fuel served labels phases args c w = (r, s') /\ st_world s' = st_world s.
Proof. apply remote_agrees. Qed.

(** *** What an exchange can do to the client *)

Lemma read_from_cases {A} (m : Reader A) bs :
  read_from m bs = match m bs with inl r => mret r.1 | inr e => halt e end.
Proof. unfold read_from. by destruct (m bs). Qed.

Lemma exchange_client fuel served l msg s : st_store (exchange fuel served l msg s).2 = st_store s /\
  st_lists (exchange fuel served l msg s).2 = st_lists s.
Proof. unfold exchange. by destruct (process_everything _ _ _ _ _) as [[?|?] ?]. Qed.

Lemma exchange_error fuel served l msg s :
  (exchange fuel served l msg s).1 <> inr (Throws SerializationFailure).
Proof. unfold exchange. by destruct (process_everything _ _ _ _ _) as [[?|[]] ?]. Qed.

Lemma send_store_values_error l rs s e : send_store_values l rs s = inr e -> e <> Throws SerializationFailure.
Proof.
  unfold send_store_values, mbind, Res_bind. destruct (send_all s rs) as [bs|e'] eqn:Hs; [done|]. intros [= <-].
  revert e' Hs. induction rs as [|r rs IH]; intros e'; cbn [send_all]; [done|]. unfold mbind, Res_bind.
  unfold send_holder_values. destruct (is_constant_name _); [|destruct (holders s !! _); [|congruence]];
    (destruct (send_all s rs) as [bs|e2]; [done|]; intros [= <-]; by apply IH).
Qed.

(** What reads a message never fails to serialize: that is what an answer says. *)
Definition reader_ok {A} (m : Reader A) : Prop := forall bs, m bs <> inr (Throws SerializationFailure).
Definition filler_ok {S A} (m : Filler S A) : Prop := forall t bs, (m t bs).1 <> inr (Throws SerializationFailure).

Lemma reader_ok_bind {A B} (m : Reader A) (f : A -> Reader B) : reader_ok m -> (forall a, reader_ok (f a)) ->
  reader_ok (m ≫= f).
Proof.
  intros Hm Hf bs. unfold mbind, Reader_bind. specialize (Hm bs).
  destruct (m bs) as [[a rest]|e]; [apply Hf|congruence].
Qed.

Lemma filler_ok_bind {S A B} (m : Filler S A) (f : A -> Filler S B) : filler_ok m -> (forall a, filler_ok (f a)) ->
  filler_ok (m ≫= f).
Proof.
  intros Hm Hf t bs. unfold mbind, Filler_bind. specialize (Hm t bs).
  destruct (m t bs) as [[[a rest]|e] t']; [apply Hf|simpl in *; congruence].
Qed.

Lemma reader_ok_receive {A} (c : codec A) : reader_ok (receive c).
Proof. intros bs. unfold receive. by destruct (from_bytes c bs). Qed.

Lemma reader_ok_assert b : reader_ok (assert_read b).
Proof. by destruct b. Qed.

Lemma reader_ok_ret {A} (a : A) : reader_ok (mret a).
Proof. done. Qed.

Lemma reader_ok_data n : reader_ok (receive_data n).
Proof. intros bs. unfold receive_data. by destruct (n <=? length bs)%nat. Qed.

Lemma reader_ok_string : reader_ok receive_string.
Proof.
  apply reader_ok_bind; [apply reader_ok_receive|intros n]. apply reader_ok_bind; [apply reader_ok_data|].
  intros d bs. unfold lift_read. by destruct (from_bytes string_codec d) as [[]|].
Qed.

Ltac reader_ok :=
  repeat first [apply reader_ok_string | apply reader_ok_receive | apply reader_ok_assert | apply reader_ok_ret
    | apply reader_ok_data | match goal with |- reader_ok (if ?b then _ else _) => destruct b end
    | apply reader_ok_bind; [|intros ?]].

Lemma reader_ok_nonce n : reader_ok (receive_nonce n).
Proof. unfold receive_nonce. reader_ok. Qed.

Lemma reader_ok_answer p : reader_ok (receive_answer p).
Proof. unfold receive_answer. reader_ok. Qed.

Lemma filler_ok_reading {S A} (m : Reader A) : reader_ok m -> filler_ok (S := S) (reading m).
Proof. intros Hm t bs. apply Hm. Qed.

Lemma filler_ok_assign {S} (f : S -> S) : filler_ok (assign f).
Proof. done. Qed.

Lemma filler_ok_on_member {S T A} (get : S -> T) set (m : Filler T A) : filler_ok m -> filler_ok (on_member get set m).
Proof. intros Hm t bs. unfold on_member. specialize (Hm (get t) bs). by destruct (m (get t) bs). Qed.

Ltac filler_ok :=
  repeat first [apply filler_ok_assign | apply filler_ok_on_member
    | apply filler_ok_reading; first [apply reader_ok_nonce | solve [reader_ok]]
    | apply filler_ok_bind; [|intros ?]].

Lemma filler_ok_type_holder n : filler_ok (receive_type_holder n).
Proof. unfold receive_type_holder. filler_ok. Qed.

Lemma reader_ok_type_name r : reader_ok (receive_type_name r).
Proof. unfold receive_type_name. reader_ok. Qed.

Lemma filler_ok_holder r : filler_ok (receive_holder r).
Proof.
  intros h. revert h. intros [t|v|T hs pos]; cbn [receive_holder].
  - apply filler_ok_on_member, filler_ok_type_holder.
  - apply (filler_ok_bind (S := holder)); [apply filler_ok_reading, reader_ok_type_name|intros ?]. filler_ok.
  - apply (filler_ok_bind (S := holder)); [apply filler_ok_reading, reader_ok_type_name|intros ?]. filler_ok.
Qed.

Lemma filler_ok_remote_map T : filler_ok (receive_remote_map T).
Proof.
  unfold receive_remote_map. filler_ok.
  - match goal with |- filler_ok (receive_entries ?n _) => generalize n end. intros n. induction n as [|n IH]; cbn [receive_entries]; [done|].
    unfold receive_simple_nonce. filler_ok. exact IH.
  - intros t bs. unfold check_size. destruct debug; [|done]. apply reader_ok_assert.
Qed.

Lemma filler_ok_store l rs : filler_ok (receive_store_values l rs).
Proof.
  unfold receive_store_values, receive_remote_maps. filler_ok.
  - intros maps. induction maps as [|[T m] maps IH]; intros bs; cbn [receive_maps]; [done|].
    assert (filler_ok (if map_of_label l T then receive_remote_map T else mret tt)) as Hm
      by by destruct (map_of_label l T); [apply filler_ok_remote_map|].
    specialize (Hm m bs). destruct (_ m bs) as [[[u rest]|e] m']; [|simpl in *; congruence].
    specialize (IH rest). by destruct (receive_maps l maps rest) as [r maps'].
  - induction rs as [|r rs IH]; cbn [receive_all]; [done|]. filler_ok; [|exact IH]. intros s bs.
    unfold receive_holder_values. destruct (is_constant_name _); [done|].
    destruct (holders s !! _) as [h|]; [|done]. pose proof (filler_ok_holder r h bs) as Hh.
    by destruct (receive_holder r h bs).
Qed.

(** C40: Whatever a server answers, a phase run remotely changes of the client's store
  only the holders it provides and the objects of its label, also when it stops in the
  middle of an answer it cannot read, where the store keeps what had been read; the
  client's lists and the types of its object maps are never touched.  The client throws
  a failure to serialize only when the server answered that the phase has failed, and
  its store is then as it was. *)
Theorem remote_interp_atomic fuel served labels p c s r s' :
  remote_interp fuel served labels p c s = (r, s') ->
  st_lists s' = st_lists s /\
  (forall x, x ∉ holder_name <$> ph_provides p -> holders (st_store s') !! x = holders (st_store s) !! x) /\
  (forall T, map_of_label (ph_label p) T = false -> super_of T (st_store s') = super_of T (st_store s)) /\
  (supers (st_store s')).*1 = (supers (st_store s)).*1 /\
  (r = inr (Throws SerializationFailure) -> st_store s' = st_store s /\
    exists msg bs rest, (exchange fuel served (ph_label p) msg s).1 = inl bs /\
      receive_answer p bs = inl (None, rest)).
Proof.
  unfold remote_interp. rewrite (run_bind_step get_store _ s (st_store s) s) by done.
  unfold lift at 1. destruct (send_store_values _ _ _) as [values|e] eqn:Hv.
  2:{ unfold mbind, Run_bind. intros [= <- <-]. split_and!; try done.
      intros [= ->]. by apply send_store_values_error in Hv. }
  rewrite (run_bind_step _ _ s values s) by done.
  set (msg := _ ++ _ ++ _). pose proof (exchange_client fuel served (ph_label p) msg s) as [Hs Hl].
  pose proof (exchange_error fuel served (ph_label p) msg s) as He.
  destruct (exchange fuel served (ph_label p) msg s) as [[bs|e] s1] eqn:Hex; cbn [fst snd] in Hs, Hl, He.
  2:{ rewrite (run_bind_ends _ _ _ _ _ Hex). intros [= <- <-]. rewrite Hs, Hl. split_and!; try done.
      by intros [= ->]. }
  rewrite (run_bind_step _ _ _ _ _ Hex), read_from_cases.
  destruct (receive_answer p bs) as [[[[rep data]|] rest]|e] eqn:Ha; cbn [fst].
  - rewrite (run_bind_step (mret _) _ s1 _ s1) by done. cbv beta iota zeta.
    pose proof (receive_store_leaves (ph_label p) (ph_provides p) (st_store s1) data) as (Hh & HT & Ht).
    pose proof (filler_ok_store (ph_label p) (ph_provides p) (st_store s1) data) as Hok.
    unfold mbind at 1, Run_bind at 1, receive_into.
    destruct (receive_store_values _ _ (st_store s1) data) as [x st]. cbn [fst snd] in *. rewrite Hs in *.
    intros Hr. assert (s' = RunState st (st_lists s1) (st_world s1)) as -> by by destruct x; injection Hr as _ <-.
    split_and!; try done.
    + intros T HTl. apply HT. by rewrite HTl.
    + intros ->. destruct x; [done|]. injection Hr as ->. by destruct Hok.
  - rewrite (run_bind_step (mret _) _ s1 _ s1) by done. intros [= <- <-]. rewrite Hs, Hl. split_and!; try done.
    intros _. split; [done|]. exists msg, bs, rest. by rewrite Hex.
  - rewrite (run_bind_ends (halt _) _ s1 _ s1) by done. intros [= <- <-]. rewrite Hs, Hl. split_and!; try done.
    intros [= ->]. by apply reader_ok_answer in Ha.
Qed.

(** *** Remotely and locally *)

(** The calls into the tracker that only a server makes succeed, and change nothing
    that a phase can see. *)
Definition quiet_tracker : Prop :=
  (forall ts w, trk_find_tombstones ts w = (inl tt, w)) /\
  (forall w, trk_set_persistent_store w = (inl tt, w)) /\
  (forall w, trk_updateClock w = (inl tt, w)) /\ (forall w, exists r, trk_reply w = (inl r, w)).

Lemma call_quiet {A} (m : RT W A) a s : m (st_world s) = (inl a, st_world s) -> call m s = (inl a, s).
Proof. intros Hm. unfold call. rewrite Hm. by destruct s. Qed.

Lemma in_place_local fuel labels p c s c' s' : quiet_tracker -> in_place fuel labels p c s = (inl c', s') ->
  exists v, common_interp fuel p s = (inl v, s').
Proof.
  intros (Hfind & Hset & Hclock & Hreply). unfold in_place, attempt_run, run_here, mbind, Run_bind.
  rewrite !(call_quiet _ tt) by auto. destruct (common_interp fuel p s) as [[v|e] s1]; cbn [mret Run_ret].
  - unfold must. rewrite (call_quiet _ tt) by auto. destruct (Hreply (st_world s1)) as [r Hr].
    rewrite (call_quiet _ r) by auto. unfold check_fits, get_store, mbind, Run_bind.
    destruct (store_fits _); [|done]. intros [= _ <-]. by exists v.
  - destruct e as [e| | |]; [destruct (is_std_exception e)|..]; done.
Qed.

Lemma common_interp_void fuel p s v s' : ph_returns p = TVoid -> common_interp fuel p s = (inl v, s') -> v = None.
Proof.
  intros Hv. unfold RunPhase.common_interp. destruct (traits_of _) as [tr|]; [|done].
  generalize (S fuel) at 1. intros n. revert s. induction n as [|n IH]; intros s; cbn [common_interp_fuel]; [done|].
  destruct (common_interp_loop _ _ _ _) as [[v'|e] s1] eqn:Hl.
  - intros [= <- _]. revert Hl. unfold common_interp_loop, run_phase1. rewrite Hv.
    destruct (run_stmt _ _ _ _) as [[[]|[]] s2]; cbn [decide]; rewrite ?decide_True by done; try done.
    destruct (call _ _) as [[]]; congruence.
  - destruct (_ && _); [apply IH|done].
Qed.

Lemma dispatch_local fuel labels hs phases c s c' v s' : quiet_tracker -> distributable hs phases = true ->
  dispatch_in_place fuel labels phases c s = (inl (c', v), s') ->
  dispatch_to_runner fuel phases s = (inl v, s').
Proof.
  intros Hq. revert c s. induction phases as [|p ps IH]; intros c s; [done|]. cbn [distributable].
  rewrite !andb_true_iff. intros [[Hp _] Hd]. unfold dispatch_in_place. cbn [dispatch_with].
  destruct (runs_remotely p) as [b|] eqn:Hb; [|done].
  rewrite (run_bind_step (expect _ (Some b)) _ s b s) by done.
  destruct ((if b then c' ← in_place fuel labels p c; mret (c', None)
             else v ← (v ← common_interp fuel p; check_fits;; mret v); mret (c, v)) s) as [[[c1 v1]|e] s1] eqn:Hr;
    [|by rewrite (run_bind_ends _ _ _ _ _ Hr)].
  rewrite (run_bind_step _ _ _ _ _ Hr).
  assert (Hc : common_interp fuel p s = (inl v1, s1)).
  { destruct b; unfold mbind, Run_bind in Hr.
    - destruct (in_place fuel labels p c s) as [[c2|] s2] eqn:Hin; [|done]. injection Hr as -> <- ->.
      apply in_place_local in Hin as [v2 Hc]; [|done].
      unfold runs_there in Hp. rewrite Hb, bool_decide_true in Hp by done. apply remotable_spec in Hp.
      by rewrite (common_interp_void fuel p s v2 s1 (fm_void _ _ _ Hp) Hc) in Hc.
    - destruct (common_interp fuel p s) as [[v2|] s2]; [|done]. revert Hr.
      unfold check_fits, get_store, mbind, Run_bind. destruct (store_fits _); [|done]. by intros [= _ -> ->]. }
  cbn [dispatch_to_runner fst snd]. destruct ps as [|q qs]; [by intros [= _ <- <-]|].
  rewrite (run_bind_step _ _ _ _ _ Hc). by apply IH.
Qed.

(** C5: A transaction run at its servers returns what it returns when everything runs at
  the client, and leaves the data stores alike, when the calls only servers make into their
  trackers succeed and change nothing ([quiet_tracker]): whenever its run in place succeeds,
  so do both, with the same value.  As in the theorem before, the phases are
  [distributable], the arguments [arguments_apart], every phase that runs at a server is
  [registered] there, names are measured, and no exception has the text of a missing
  listener in debug builds. *)
Theorem remote_runs_as_local fuel labels served phases args c w c' v s :
  let hs := all_store phases (arg_holder <$> args) in
  quiet_tracker -> names_measured ->
  (debug = true -> forall e, is_std_exception e = true -> says_no_match (what e) = false) ->
  distributable hs phases = true -> arguments_apart hs phases args = true ->
  (forall p, p ∈ phases -> runs_there p = true -> registered served hs p) ->
  begin_in_place fuel labels phases args c w = (inl (c', v), s) ->
  begin_interp fuel phases args w = (inl v, s) /\
  exists s', begin_remote fuel served labels phases args c w = (inl (c', v), s') /\ st_world s' = st_world s.
Proof.
  intros hs Hquiet Hm Hq Hd Ha Hreg Hrun.
  split; [|by eapply remote_agrees].
  revert Hrun. unfold begin_in_place, begin_with, begin_interp. fold hs.
  destruct (decide _); [|done]. by apply (dispatch_local fuel labels hs).
Qed.
End transaction.
