(* ===== verification/RemoteExamples.v ===== *)
(** * Transactions whose phases run at their servers

    The sum of [SplitExamples.v], with its phases of [strong] and [causal] run by
    two servers, and a transaction that reads and changes an object of [strong],
    over a wire format whose codecs can be evaluated. *)
From stdpp Require Import countable.
From Stdlib Require Import Strings.Byte.
From stdpp Require Import vector.
From S2P Require Import Prelude TypeLists Labels TypedAst PhaseApi Split Runtime Holders RunPhase.
From S2P Require Import SplitSpec SplitExamples Clocks Tracker ClientTracker RunFrames Wire RemoteSim RemoteRun RemoteCorrect SplitPhases.
Import Reference.

#[local] Existing Instance no_handles.
#[local] Open Scope Z_scope.

(** A world of integer objects that counts commits *)
#[local] Instance objects : Remote := {|
  W := gmap Z Z * nat;
  rm_get := fun h w => (match w.1 !! h with Some i => inl (VInt i) | None => inr OutOfRange end, w);
  rm_put := fun h v w =>
    match v with VInt i => (inl tt, (<[h := i]> w.1, w.2)) | _ => (inr AssertFailed, w) end;
  rm_isValid := fun h w => (inl (bool_decide (is_Some (w.1 !! h))), w);
  rm_act := fun _ _ _ => throw AssertFailed; rm_create_new := fun _ _ => throw AssertFailed;
  rm_nulled := fun h => h;
  rm_commit := fun w => (inl tt, (w.1, S w.2));
  rm_end := fun w => w;
  trk_read_actions := fun _ => mret tt; trk_accompanyWrite := fun _ _ => mret tt;
  trk_writeTombstone := fun _ => mret tt; trk_generateTombstone := mret 0 |}.

(** ** A codec for every countable type: its number in bits *)

Fixpoint bits (p : positive) : list byte :=
  match p with xH => [x02] | xO p => x00 :: bits p | xI p => x01 :: bits p end.

Fixpoint read_bits (bs : list byte) : option (positive * list byte) :=
  match bs with
  | x00 :: bs => r ← read_bits bs; Some (xO r.1, r.2)
  | x01 :: bs => r ← read_bits bs; Some (xI r.1, r.2)
  | x02 :: bs => Some (xH, bs)
  | _ => None
  end.

Lemma read_bits_back p rest : read_bits (bits p ++ rest) = Some (p, rest).
Proof. induction p as [p IH|p IH|]; cbn; by rewrite ?IH. Qed.

Definition counted (A : Type) `{Countable A} : codec A := {|
  to_bytes a := bits (encode a);
  from_bytes bs := r ← read_bits bs; a ← decode r.1; Some (a, r.2) |}.

Lemma counted_ok A `{Countable A} (P : A -> Prop) : codec_ok P (counted A).
Proof. intros a rest _. cbn. by rewrite read_bits_back; cbn; rewrite decode_encode. Qed.

#[local] Instance byte_countable : Countable byte.
Proof. refine (inj_countable Byte.to_N Byte.of_N _). intros []; reflexivity. Defined.

#[local] Instance tombstone_countable : Countable Tombstone.
Proof.
  refine (inj_countable' (fun t => (nonce t, ip_addr t, portno t)) (fun x => MkTombstone x.1.1 x.1.2 x.2) _).
  by intros [].
Defined.

#[local] Instance clock_countable : Countable Clock.
Proof.
  refine (inj_countable (fun c : Clock => vec_to_list c)
    (fun l => match l with [a; b; c; d] => Some [# a; b; c; d] | _ => None end) _).
  intros c. by inv_vec c.
Defined.

(** Values, fields one after the other *)
Fixpoint value_tree (v : value) : gen_tree (Z + string) :=
  match v with
  | VInt i => GenNode 0 [GenLeaf (inl i)]
  | VBool b => GenNode 1 [GenLeaf (inl (if b then 1 else 0))]
  | VTombstone n => GenNode 2 [GenLeaf (inl n)]
  | VHandle h => GenNode 3 [GenLeaf (inl h)]
  | VList l => GenNode 4 [GenLeaf (inl (Z.of_nat l))]
  | VStruct fs => GenNode 5 ((fun f => GenNode 0 [GenLeaf (inr f.1); value_tree f.2]) <$> fs)
  end.

Fixpoint tree_value (t : gen_tree (Z + string)) : value :=
  match t with
  | GenNode 0 [GenLeaf (inl i)] => VInt i
  | GenNode 1 [GenLeaf (inl b)] => VBool (b =? 1)
  | GenNode 2 [GenLeaf (inl n)] => VTombstone n
  | GenNode 3 [GenLeaf (inl h)] => VHandle h
  | GenNode 4 [GenLeaf (inl l)] => VList (Z.to_nat l)
  | GenNode 5 fs => VStruct ((fun t => match t with
                                       | GenNode _ [GenLeaf (inr n); v] => (n, tree_value v)
                                       | _ => (""%string, VInt 0) end) <$> fs)
  | _ => VInt 0
  end.

Lemma tree_value_back : forall v, tree_value (value_tree v) = v.
Proof.
  fix IH 1. intros [i|b|n|fs|h|l]; cbn; try done.
  - by destruct b.
  - f_equal. induction fs as [|[n v] fs IHfs]; [done|]. cbn. rewrite IH. by f_equal.
  - by rewrite Nat2Z.id.
Qed.

#[local] Instance value_eq_dec : EqDecision value.
Proof.
  intros v w. destruct (decide (value_tree v = value_tree w)) as [He|Hn].
  - left. by rewrite <- (tree_value_back v), He, tree_value_back.
  - right. by intros ->.
Defined.

#[local] Instance value_countable : Countable value := inj_countable' value_tree tree_value tree_value_back.
#[local] Instance handle_eq_dec : EqDecision Handle := Z.eq_dec.
#[local] Instance handle_countable : Countable Handle := Z_countable.

(** ** A debug build *)

#[local] Instance format : WireFormat := {|
  value_codec := counted value; values_codec := counted (list value);
  handles_codec := counted (list Handle); name_codec := counted Z; int_codec := counted Z;
  size_codec := counted Z; bool_codec := counted bool; string_codec := counted string;
  zero_value := fun _ => VInt 0; typename_str := fun _ => "type"; type_name := fun _ => "holder";
  typeset_name := fun _ => "holders"; debug := true |}.

#[local] Instance format_laws : WireLaws.
Proof.
  split; try apply counted_ok; [done|..]; intros; apply (bool_decide_eq_true_1 (no_null _)); reflexivity.
Qed.

Definition zero_reply : reply := MkReply zero_clock zero_clock [].

Definition phase_text (p : phase) : string :=
  if decide (ph_label p = strong) then "strong" else if decide (ph_label p = causal) then "causal" else "other".

#[local] Instance servers : Servers := {|
  bytes_codec := counted (list byte); tombstones_codec := counted (list Tombstone);
  clock_codec := counted Clock;
  std_hash := fun s => if decide (s = "strong") then 1 else if decide (s = "causal") then 2 else 3;
  print_phase := phase_text; int_rand := fun _ => 42; what := fun _ => "failed";
  description := fun _ => "store";
  trk_find_tombstones := fun _ => mret tt; trk_set_persistent_store := mret tt;
  trk_updateClock := mret tt; trk_reply := mret zero_reply |}.

#[local] Instance servers_laws : ServerLaws.
Proof.
  split; try apply counted_ok; cbn.
  - intros s. by repeat case_decide.
  - done.
  - intros p. unfold phase_text. repeat case_decide; vm_compute; reflexivity.
  - intros e. vm_compute. reflexivity.
Qed.

(** What the servers of a transaction have registered: each its phase of it *)
Definition listeners (phases : list phase) (args : list argument) (l : label) : list listener :=
  let hs := all_store phases (arg_holder <$> args) in
  (fun p => Listener p (restrict_to_phase hs p) p (restrict_to_phase hs p)) <$>
    filter (fun p => ph_label p = l) phases.

(** The phases of a transaction, run in place and over the wire *)
Definition here (phases : list phase) (args : list argument) (w : W) :=
  begin_in_place 10 [strong; causal] phases args new_client w.
Definition over_the_wire (phases : list phase) (args : list argument) (w : W) :=
  begin_remote 10 (listeners phases args) [strong; causal] phases args new_client w.

(** ** An object of [strong] is read and incremented *)

Definition account : ty := THandle strong TInt.
Definition bump : stmt :=
  SLetRemote strong (Binding strong TInt "x" (EVar top account "h"))
   (let_in strong strong "old" (var strong "x")
    (SSequence strong [incr strong "x" (EConst 1); SReturn bottom (var strong "old")])).
Definition bump_args : list argument := [Argument "h" account (VHandle 7)].
Definition bump_phases : list phase := or_else [] (split_computation (initial_bindings bump_args) bump).
Definition bump_world : W := (<[7 := 41]> ∅, 0%nat).

Lemma bump_registered p : p ∈ bump_phases -> runs_there p = true ->
  registered (listeners bump_phases bump_args) (all_store bump_phases (arg_holder <$> bump_args)) p.
Proof.
  intros (i & Hi)%list_elem_of_lookup Hr. split.
  { intros _. cbn. by repeat case_decide. }
  exists []. destruct i as [|[|[|i]]]; vm_compute in Hi; try discriminate Hi; injection Hi as <-;
    try (vm_compute in Hr; discriminate Hr).
  all: eexists _, _, []; split; [vm_compute; reflexivity|by intros li Hli%elem_of_nil].
Qed.

(** Run in place it returns the old value, and the object has the new one. *)
Lemma bump_here : exists c s, here bump_phases bump_args bump_world = (inl (c, Some (VInt 41)), s) /\
  st_world s = (<[7 := 42]> ∅, 3%nat).
Proof.
  assert (Hv : match here bump_phases bump_args bump_world with
               | (inl (_, v), s) => v = Some (VInt 41) /\ st_world s = (<[7 := 42]> ∅, 3%nat)
               | _ => False end) by (vm_compute; auto).
  destruct (here _ _ _) as [[[c v]|e] s]; [|done]. destruct Hv as [-> Hw]. eauto.
Qed.

Lemma remote_transaction_correct_witness : exists c s,
  over_the_wire bump_phases bump_args bump_world = (inl (c, Some (VInt 41)), s) /\
  st_world s = (<[7 := 42]> ∅, 3%nat).
Proof.
  destruct bump_here as (c & s & Hrun & Hw).
  destruct (remote_transaction_correct 10 [strong; causal] (listeners bump_phases bump_args) bump_phases bump_args
    new_client bump_world (inl (c, Some (VInt 41))) s) as (s' & Hs' & Hw').
  - intros r. vm_compute. reflexivity.
  - intros _ e _. vm_compute. reflexivity.
  - vm_compute. reflexivity.
  - vm_compute. reflexivity.
  - exact bump_registered.
  - exact Hrun.
  - reflexivity.
  - exists c, s'. split; [exact Hs'|]. by rewrite Hw'.
Defined.

(** ** The sum, over the wire *)

Example sum_over_the_wire :
  match over_the_wire sum_phases sum_args (∅, 0%nat) with
  | (inl (_, Some (VInt i)), s) => i = 10 /\ st_world s = (∅, 4%nat)
  | _ => False
  end.
Proof. vm_compute. auto. Qed.

Lemma bump_quiet : quiet_tracker.
Proof. repeat split. intros w. by exists zero_reply. Qed.

Lemma remote_runs_as_local_witness : exists c s s',
  begin_interp 10 bump_phases bump_args bump_world = (inl (Some (VInt 41)), s) /\
  over_the_wire bump_phases bump_args bump_world = (inl (c, Some (VInt 41)), s') /\ st_world s' = st_world s.
Proof.
  destruct bump_here as (c & s & Hrun & _).
  destruct (remote_runs_as_local 10 [strong; causal] (listeners bump_phases bump_args) bump_phases bump_args
    new_client bump_world c (Some (VInt 41)) s) as (Hlocal & s' & Hs' & Hw').
  - exact bump_quiet.
  - intros r. vm_compute. reflexivity.
  - intros _ e _. vm_compute. reflexivity.
  - vm_compute. reflexivity.
  - vm_compute. reflexivity.
  - exact bump_registered.
  - exact Hrun.
  - exists c, s, s'. auto.
Defined.

(** ** A store on the wire *)

(** Two variables and an object, as the server of [strong] has them *)
Definition sent_store : store :=
  Store (<["x" := HRemote account [7] 0]> (<["old" := HType (THolder [VInt 41] 0 true)]> ∅))
    [(account, <[7 := THolder [VInt 41; VInt 42] 1 true]> ∅)].
Definition sent_holders : list holder_type := [remote_holder account "x"; type_holder TInt "old"].

Lemma sent_store_sendable : sendable_to strong sent_holders sent_store (empty_store sent_holders).
Proof.
  assert (Hnames : NoDup (holder_name <$> sent_holders)) by (apply (bool_decide_eq_true_1 (NoDup _)); reflexivity).
  split; [exact Hnames|]. split.
  { intros r Hr. repeat (apply elem_of_cons in Hr as [->|Hr]); [..|by apply elem_of_nil in Hr];
      (split; [reflexivity|]; split; [apply (bool_decide_eq_true_1 (no_null _)); reflexivity|]);
      eexists _, _; repeat split. }
  split; [|split; [|reflexivity]].
  - change (maps_of strong sent_store) with [(account, (<[7 := THolder [VInt 41; VInt 42] 1 true]> ∅ : gmap Z tholder))].
    constructor; [|constructor]. split; [|reflexivity].
    apply map_Forall_insert_2; [by split|apply map_Forall_empty].
  - change (maps_of strong sent_store) with [(account, (<[7 := THolder [VInt 41; VInt 42] 1 true]> ∅ : gmap Z tholder))].
    change (maps_of strong (empty_store sent_holders)) with [(account, (∅ : gmap Z tholder))].
    constructor; [|constructor]. by split.
Qed.

Lemma store_values_roundtrip_witness : exists bs s1,
  send_store_values strong sent_holders sent_store = inl bs /\
  receive_store_values strong sent_holders (empty_store sent_holders) bs = (inl (tt, []), s1) /\
  super_of account s1 = super_of account sent_store.
Proof.
  destruct (send_store_values strong sent_holders sent_store) as [bs|e] eqn:Hb; [|vm_compute in Hb; discriminate].
  destruct (store_values_roundtrip strong sent_holders sent_store (empty_store sent_holders) bs)
    as (s1 & Hr & _ & _ & Hs).
  - intros r. vm_compute. reflexivity.
  - exact sent_store_sendable.
  - exact Hb.
  - exists bs, s1. split; [reflexivity|]. specialize (Hr []). rewrite app_nil_r in Hr.
    split; [exact Hr|]. exact (Hs account).
Defined.

(** A message that lacks its last bytes is read up to where it ends, and the store has
    what was read: the objects, and a holder whose last bytes are those that are missing. *)
Lemma cut_message_is_kept : exists bs s1 e,
  send_store_values strong sent_holders sent_store = inl bs /\
  receive_store_values strong sent_holders (empty_store sent_holders) (take (length bs - 1) bs)
    = (inr (Throws e), s1) /\
  super_of account s1 = super_of account sent_store.
Proof. eexists _, _, _. split; [vm_compute; reflexivity|]. split; vm_compute; reflexivity. Qed.

(** ** The phase of [strong] alone *)

Definition strong_phase : phase :=
  default (Phase top TVoid (SplitAst.PSequence []) [] [] [] []) (bump_phases !! 1%nat).
Definition bump_start : run_state :=
  RunState (bind_arguments bump_args (empty_store (all_store bump_phases (arg_holder <$> bump_args)))) [] bump_world.
Definition strong_exchange := remote_interp 10 (listeners bump_phases bump_args) [strong; causal] strong_phase
  new_client bump_start.

Lemma remote_interp_atomic_witness : exists c s, strong_exchange = (inl c, s) /\ st_lists s = [] /\
  holders (st_store s) !! "h"%string = Some (HValue (Some (VHandle 7))).
Proof.
  destruct strong_exchange as [r s] eqn:Hx.
  pose proof (remote_interp_atomic 10 (listeners bump_phases bump_args) [strong; causal] strong_phase
    new_client bump_start r s Hx) as Ha.
  assert (Hr : match strong_exchange with (inl _, _) => True | _ => False end) by (vm_compute; exact I).
  rewrite Hx in Hr. destruct r as [c|e]; [|destruct Hr]. destruct Ha as (Hl & Hh & _ & _ & _).
  exists c, s. split; [reflexivity|]. split; [exact Hl|].
  rewrite Hh by (apply (bool_decide_eq_true_1 (_ ∉ _)); vm_compute; reflexivity).
  vm_compute. reflexivity.
Defined.

(** With no listener a debug client stops at an assertion: the answer does not
    begin with its number. *)
Lemma no_listener : exists s, remote_interp 10 (fun _ => []) [strong; causal] strong_phase new_client bump_start
  = (inr (Throws AssertFailed), s).
Proof. eexists. vm_compute. reflexivity. Qed.

(** The first phase does not count as a remote one, so a transaction with no other
    has no [run_remote]. *)
Lemma first_phase_not_counted : runs_there strong_phase = true /\
  number_remote_phases [strong_phase] = Ok 0%nat /\
  (run_remote 10 (listeners bump_phases bump_args) [strong; causal] [strong_phase] [strong_phase] bump_args
     new_client bump_world).1 = inr IllFormed.
Proof. vm_compute. auto. Qed.
