(* ===== verification/Typecheck.v ===== *)
(** * Type checking and labelling

    Models [mtl/typecheck_and_label_impl.hpp] with
    [mtl/typecheck_and_label_decl.hpp], [mtl/typecheck_and_label_macros.hpp],
    [mtl/typecheck_handle_operations.hpp] and the special operations of
    [mtl/builtins.hpp]: the pass that gives every node of a transaction in
    A-normal form a type and a label, and every declaration a temporary label
    for inference to resolve.  The partial specializations of
    [mtl/AST_typecheck.hpp] that a node must match are [complete_expr] and
    [complete_stmt]. *)
From S2P Require Import Prelude TypeLists Labels TypedAst ParseAst PhaseApi Tracking.

#[local] Open Scope Z_scope.

(** ** The classes of the application

    What C++ says of class types that are not part of the compiler: fields,
    operators and assignment of classes, the operations of handles. *)
Class CppTypes : Type := {
  (** [T::is_struct] is a member. *)
  has_is_struct : string -> bool;
  (** the type of [x.field(F{})] *)
  field_of : string -> string -> outcome ty;
  (** the type of [x op y] when one operand is a class *)
  class_binop : ascii -> ty -> ty -> outcome ty;
  (** [std::is_assignable<U, V>] for a class [U] *)
  class_assignable : ty -> ty -> bool;
  (** [decltype(h.upCast(OperationIdentifier<name>{}))::Return], by the
      label and the target of the handle *)
  operation_return : label -> ty -> string -> outcome ty;
  (** [handle_supports<handle, name, Return, SelfType, args...>] *)
  handle_supports : label -> ty -> string -> ty -> list ty -> bool;
}.

(** ** Types *)

(** [mutils::is_struct<T>] *)
Definition is_struct `{CppTypes} (t : ty) : bool :=
  match t with TStruct n => has_is_struct n | _ => false end.

(** [std::is_integral<T>], for the types of the model *)
Definition is_integral (t : ty) : bool :=
  match t with TInt | TBool => true | _ => false end.

Definition is_handle (t : ty) : bool := match t with THandle _ _ => true | _ => false end.

Definition known_op (op : ascii) : bool :=
  bool_decide (op ∈ ["+"; "*"; "-"; "/"; "&"; "|"; ">"; "<"; "="]%char).
Definition arithmetic_op (op : ascii) : bool :=
  bool_decide (op ∈ ["+"; "*"; "-"; "/"]%char).

(** [BinOp<op, L, R>::yield]: the type of the C++ expression *)
Definition BinOp_yield `{CppTypes} (op : ascii) (yl yr : ty) : outcome ty :=
  _ ← assert_ok NoOverload (known_op op);
  if is_integral yl && is_integral yr
  then Ok (if arithmetic_op op then TInt else TBool)
  else class_binop op yl yr.

(** [std::is_assignable<U, V>]: an rvalue of a built-in type is not assignable. *)
Definition is_assignable `{CppTypes} (U V : ty) : bool :=
  match U with
  | TInt | TBool | TVoid => false
  | _ => class_assignable U V
  end.

(** [check_type_mismatch<U, V>()] *)
Definition check_type_mismatch `{CppTypes} (U V : ty) : outcome unit :=
  assert_ok StaticAssert
    (is_assignable U V || bool_decide (U = V) || (is_integral U && is_integral V)).

(** ** Completeness of nodes

    [Expression<l, y, e>] and [Statement<l, s>] are complete types for the
    partial specializations of the tree, whose member [subexpr] or
    [substatement] instantiates the one of the node. *)

Definition expr_shape (e : expr) : bool :=
  match e with
  | EField _ _ s _ => is_var_reference s
  | EBinOp _ _ op L R => known_op op && is_var_reference L && is_var_reference R
  | EIsValid _ h => is_handle (expr_yield h) && is_var_reference h
  | EEndorse l y le h => bool_decide (l = le /\ y = expr_yield h) && is_var_reference h
  | EOperation _ _ _ h args =>
      match handle_label h with Ok _ => forallb is_var_reference args | Err _ => false end
  | EVar _ _ _ | EConst _ | EGenerateTombstone _ => true
  end.

Definition stmt_shape (s : stmt) : bool :=
  match s with
  | SLetRemote _ b _ =>
      match handle_label (b_expr b) with Ok _ => is_var_reference (b_expr b) | Err _ => false end
  | SOperation _ _ h _ => match handle_label h with Ok _ => true | Err _ => false end
  | SAssignment _ v e => bool_decide (expr_yield v = expr_yield e) && is_var_reference e
  | SReturn l _ => bool_decide (l = bottom)
  | SIf _ c _ _ | SWhile _ c _ _ => bool_decide (expr_yield c = TBool) && is_var_reference c
  | SWriteTombstone _ (EVar _ y v) => bool_decide (y = TTombstone /\ v = tombstone_str)
  | SWriteTombstone _ _ => false
  | SAccompanyWrite l e => bool_decide (l = expr_label e)
  | SLet _ _ _ | SSequence _ _ => true
  end.

Definition complete_expr (e : expr) : outcome expr :=
  _ ← assert_ok NoOverload (expr_shape e); Ok e.

Definition complete_stmt (s : stmt) : outcome stmt :=
  _ ← assert_ok NoOverload (stmt_shape s); Ok s.

(** [Expression<l, y, e::subexpr>]: the node under another label; constants
    have no other label than [top]. *)
Definition with_expr_label (l : label) (e : expr) : outcome expr :=
  match e with
  | EVar _ y v => Ok (EVar l y v)
  | EField _ y s f => Ok (EField l y s f)
  | EConst i => _ ← assert_ok NoOverload (bool_decide (l = top)); Ok (EConst i)
  | EBinOp _ y op L R => Ok (EBinOp l y op L R)
  | EGenerateTombstone _ => Ok (EGenerateTombstone l)
  | EIsValid _ h => Ok (EIsValid l h)
  | EEndorse _ y le h => complete_expr (EEndorse l y le h)
  | EOperation _ y n h args => Ok (EOperation l y n h args)
  end.

(** ** Environments *)

(** [type_environment<pc_label, Bindings...>] *)
Record type_environment : Type := TypeEnv {
  pc_label : label; env_bindings : list var_binding }.

Section typecheck.
Context `{UserLabels} `{TypeLists} `{CppTypes}.

(** The members of a binding: its name, label and type.  Every binding of an
    environment is instantiated when a name is looked up. *)
Definition instantiate (b : var_binding) : outcome (string * (label * ty)) :=
  match b with
  | type_binding n t l local =>
      _ ← assert_ok StaticAssert (negb (bool_decide (t = TVoid))); Ok (n, (l, t))
  | type_binding n (THandle hl t) l remote =>
      _ ← assert_ok StaticAssert (negb (bool_decide (t = TVoid)));
      l' ← decide_type_label l hl; Ok (n, (l', t))
  | type_binding _ _ _ remote | while_binding _ => Err StaticAssert
  end.

(** [Env::get_binding(name)] *)
Definition get_binding (env : type_environment) (v : string) : outcome (label * ty) :=
  bs ← traverse instantiate (env_bindings env);
  match typelist_find (fun b => bool_decide (b.1 = v)) bs with
  | Some b => Ok b.2
  | None => Err NoOverload
  end.

Definition enhance_env (env : type_environment) (b : binding) : type_environment :=
  TypeEnv (pc_label env)
    (env_bindings env ++ [type_binding (b_var b) (b_yield b) (b_label b) local]).

(** ** Expressions

    No overload on expressions uses the sequence number or the depth. *)

(** [_typecheck] on [VarReference] *)
Definition typecheck_var (env : type_environment) (v : string) : outcome expr :=
  m ← get_binding env v;
  _ ← assert_ok StaticAssert (negb (bool_decide (m.2 = TVoid)));
  Ok (EVar m.1 m.2 v).

(** The parts of [MYRIA_TYPECHECK_OPERATIONS] that depend on the name:
    [arguments_label_min] and [ret_t].  The overloads for [push_back],
    [nulled] and [new] are more specialized than the general one. *)
Definition operation_types (oper_name : string) (binding_expr : expr) (args : list expr)
    : outcome (label * ty) :=
  let handle := expr_yield binding_expr in
  let arguments_label_min hl :=
    resolved_label_min_vararg hl (hl :: (expr_label <$> args)) in
  if decide (oper_name = push_back_name) then
    m ← arguments_label_min bottom;
    _ ← assert_ok StaticAssert (bool_decide (handle = TListStub));
    Ok (m, TVoid)
  else
    hl ← ty_label handle; m ← arguments_label_min hl;
    if decide (oper_name = nulled_name \/ oper_name = "new"%string) then Ok (m, handle)
    else match handle with
         | THandle l t =>
             ret_t ← operation_return l t oper_name;
             _ ← assert_ok StaticAssert
                   (handle_supports l t oper_name ret_t (expr_yield <$> args));
             Ok (m, ret_t)
         | _ => Err NoOverload
         end.

(** The label both overloads of [handle_operations::handle_operation] compute *)
Definition operation_label (env : type_environment) (ptr_label arguments_label_min : label)
    : outcome label :=
  m ← resolved_label_min (pc_label env) arguments_label_min; resolved_label_min ptr_label m.

Fixpoint typecheck_expr (env : type_environment) (e : pexpr) : outcome expr :=
  match e with
  | PField obj f =>
      checked_struct ← typecheck_expr env obj;
      _ ← assert_ok StaticAssert (is_struct (expr_yield checked_struct));
      field_type ← match expr_yield checked_struct with
                   | TStruct n => field_of n f | _ => Err NoOverload end;
      complete_expr (EField (expr_label checked_struct) field_type checked_struct f)
  | PVar v => typecheck_var env v
  | PConst i => Ok (EConst i)
  | PBinOp op L R =>
      next_l ← typecheck_expr env L; next_r ← typecheck_expr env R;
      l ← resolved_label_min (expr_label next_l) (expr_label next_r);
      yield ← BinOp_yield op (expr_yield next_l) (expr_yield next_r);
      complete_expr (EBinOp l yield op next_l next_r)
  | PIsValid h =>
      binding_expr ← typecheck_expr env h;
      hl ← ty_label (expr_yield binding_expr);
      m ← resolved_label_min (pc_label env) (expr_label binding_expr);
      new_label ← resolved_label_min m hl;
      complete_expr (EIsValid new_label binding_expr)
  | PEndorse l h =>
      binding_expr ← typecheck_expr env h;
      complete_expr (EEndorse l (expr_yield binding_expr) l binding_expr)
  | PEnsure l h => binding_expr ← typecheck_expr env h; with_expr_label l binding_expr
  | POperation oper_name h [] vars =>
      binding_expr ← typecheck_expr env h;
      args ← traverse (typecheck_var env) vars;
      r ← operation_types oper_name binding_expr args;
      l ← operation_label env (expr_label binding_expr) r.1;
      complete_expr (EOperation l r.2 oper_name binding_expr args)
  | POperation _ _ (_ :: _) _ | PFieldPtr _ _ | PDeref _ => Err NoOverload
  end.

(** ** Statements *)

Fixpoint typecheck_stmt (seqnum depth : Z) (env : type_environment) (s : pstmt)
    : outcome stmt :=
  match s with
  | PLet b body =>
      binding_expr ← typecheck_expr env (pb_expr b);
      _ ← assert_ok StaticAssert (negb (bool_decide (expr_yield binding_expr = TVoid)));
      let next_binding :=
        Binding (LTemp seqnum depth) (expr_yield binding_expr) (pb_var b) binding_expr in
      next_body ← typecheck_stmt (seqnum + 1) (depth + 1) (enhance_env env next_binding) body;
      l ← resolved_label_min (expr_label binding_expr) (pc_label env);
      complete_stmt (SLet l next_binding next_body)
  | PLetRemote b body =>
      binding_expr ← typecheck_expr env (pb_expr b);
      let ptr_label := expr_label binding_expr in
      let handle := expr_yield binding_expr in
      _ ← assert_ok StaticAssert (is_handle handle);
      hl ← ty_label handle; target ← ty_type handle;
      new_pc ← resolved_label_min (pc_label env) ptr_label;
      ref_label ← resolved_label_min ptr_label hl;
      let new_env := TypeEnv new_pc
        (env_bindings env ++ [type_binding (pb_var b) handle ref_label remote]) in
      next_body ← typecheck_stmt (seqnum + 1) (depth + 1) new_env body;
      l ← resolved_label_min (pc_label env) hl;
      complete_stmt
        (SLetRemote l (Binding (LTemp seqnum depth) target (pb_var b) binding_expr) next_body)
  | PSOperation oper_name h [] vars =>
      binding_expr ← typecheck_expr env h;
      args ← traverse (typecheck_var env) vars;
      r ← operation_types oper_name binding_expr args;
      l ← operation_label env (expr_label binding_expr) r.1;
      complete_stmt (SOperation l oper_name binding_expr args)
  | PSOperation _ _ (_ :: _) _ => Err NoOverload
  | PAssignment var e =>
      new_var ← typecheck_expr env var; new_expr ← typecheck_expr env e;
      _ ← check_type_mismatch (expr_yield new_var) (expr_yield new_expr);
      m ← resolved_label_min (expr_label new_expr) (expr_label new_var);
      l ← resolved_label_min m (pc_label env);
      complete_stmt (SAssignment l new_var new_expr)
  | PReturn e => new_expr ← typecheck_expr env e; complete_stmt (SReturn bottom new_expr)
  | PWhile c body =>
      next_condition ← typecheck_expr env c;
      _ ← assert_ok StaticAssert (bool_decide (expr_yield next_condition = TBool));
      new_label ← resolved_label_min (expr_label next_condition) (pc_label env);
      next_body ← typecheck_stmt (seqnum + 1) (depth + 1) (TypeEnv new_label (env_bindings env)) body;
      l ← resolved_label_min (pc_label env) (expr_label next_condition);
      complete_stmt (SWhile l next_condition next_body "")
  | PIf c t e =>
      next_condition ← typecheck_expr env c;
      new_label ← resolved_label_min (expr_label next_condition) (pc_label env);
      let new_env := TypeEnv new_label (env_bindings env) in
      next_then ← typecheck_stmt (seqnum + 1) (depth + 1) new_env t;
      next_else ← typecheck_stmt (seqnum + 2) (depth + 1) new_env e;
      l ← resolved_label_min (pc_label env) (expr_label next_condition);
      complete_stmt (SIf l next_condition next_then next_else)
  | PSequence ss =>
      seq ← (fix typecheck_seq (seqnum : Z) (ss : list pstmt) : outcome (list stmt) :=
               match ss with
               | [] => Ok []
               | s :: ss =>
                   s' ← typecheck_stmt seqnum depth env s;
                   ss' ← typecheck_seq (seqnum + 1) ss; Ok (s' :: ss')
               end) seqnum ss;
      complete_stmt (SSequence (pc_label env) seq)
  end.

(** [typecheck<1, 1>] in the environment of the built-in and the bound names *)
Definition typecheck_transaction (bindings : list var_binding) (s : pstmt) : outcome stmt :=
  typecheck_stmt 1 1 (TypeEnv top bindings) s.

(** The members of a sequence in order *)
Inductive checked_seq (depth : Z) (env : type_environment) : Z -> list pstmt -> list stmt -> Prop :=
| checked_nil n : checked_seq depth env n [] []
| checked_cons n s s' ss ss' :
    typecheck_stmt n depth env s = Ok s' -> checked_seq depth env (n + 1) ss ss' ->
    checked_seq depth env n (s :: ss) (s' :: ss').

Lemma typecheck_sequence seqnum depth env ss s' :
  typecheck_stmt seqnum depth env (PSequence ss) = Ok s' ->
  exists ss', s' = SSequence (pc_label env) ss' /\ checked_seq depth env seqnum ss ss'.
Proof.
  intros Hs. cbn [typecheck_stmt] in Hs. outcome_inv. unfold complete_stmt in Hs. outcome_inv.
  match goal with Hf : _ seqnum ss = Ok ?x |- _ => exists x; split; [done|]; revert Hf; generalize x end.
  revert seqnum. induction ss as [|s ss IH]; intros n ss' Hf; outcome_inv; constructor; eauto.
Qed.

Lemma complete_expr_Ok e e' : complete_expr e = Ok e' -> e' = e /\ expr_shape e = true.
Proof. intros He. unfold complete_expr in He. by outcome_inv. Qed.

Lemma complete_stmt_Ok s s' : complete_stmt s = Ok s' -> s' = s /\ stmt_shape s = true.
Proof. intros Hs. unfold complete_stmt in Hs. by outcome_inv. Qed.

End typecheck.
