(* ===== verification/Source.v ===== *)
(** * What a parsed transaction means

    The reference interpreter of the parsed tree ([mtl/AST_parse.hpp]): what the
    transaction the programmer wrote returns on its arguments, before any
    pass, for transactions over local variables.  [annotates] relates the typed
    tree to the parsed tree it comes from; both mean the same. *)
From S2P Require Import Prelude TypeLists Labels TypedAst PhaseApi Runtime Holders RunPhase.
From S2P Require Import SplitSpec ParseAst.

(** ** Transactions over local variables *)

Fixpoint p_is_local_expr (e : pexpr) : bool :=
  match e with
  | PVar v => bool_decide (v = "true" \/ v = "false")%string || negb (is_builtin v)
  | PField s _ => p_is_local_expr s
  | PConst _ => true
  | PBinOp _ L R => p_is_local_expr L && p_is_local_expr R
  | PEnsure _ h => p_is_local_expr h
  | _ => false
  end.

(** [e.ensure(label)] is the value of [e]. *)
Fixpoint without_ensure (e : pexpr) : pexpr :=
  match e with
  | PEnsure _ h => without_ensure h
  | PField s f => PField (without_ensure s) f
  | _ => e
  end.

(** The variable an assignment is to, and the field of it *)
Definition p_target (e : pexpr) : option (string * option string) :=
  match without_ensure e with
  | PVar v => Some (v, None)
  | PField (PVar v) f => Some (v, Some f)
  | _ => None
  end.

Definition p_is_local_target (e : pexpr) : bool :=
  match p_target e with Some (v, _) => negb (is_builtin v) | None => false end.

Fixpoint p_is_local (s : pstmt) : bool :=
  match s with
  | PLet b body => p_is_local_expr (pb_expr b) && p_is_local body
  | PAssignment v e => p_is_local_target v && p_is_local_expr e
  | PReturn e => p_is_local_expr e
  | PIf c t e => p_is_local_expr c && p_is_local t && p_is_local e
  | PWhile c body => p_is_local_expr c && p_is_local body
  | PSequence ss => forallb p_is_local ss
  | PLetRemote _ _ | PSOperation _ _ _ _ => false
  end.

(** The names a transaction declares *)
Fixpoint p_declared (s : pstmt) : list string :=
  match s with
  | PLet b body | PLetRemote b body => pb_var b :: p_declared body
  | PIf _ t e => p_declared t ++ p_declared e
  | PWhile _ body => p_declared body
  | PSequence ss => concat (p_declared <$> ss)
  | PSOperation _ _ _ _ | PAssignment _ _ | PReturn _ => []
  end.

(** ** The interpreter *)

Section source.
Context `{Remote}.
#[local] Abbreviation env := (gmap string value).

Fixpoint peval (env : string -> option value) (e : pexpr) : Res value :=
  match e with
  | PVar v =>
      if decide (v = "true"%string) then inl (VBool true)
      else if decide (v = "false"%string) then inl (VBool false)
      else match env v with Some x => inl x | None => inr (Throws AssertFailed) end
  | PField s f => x ← peval env s; get_field x f
  | PConst i => inl (VInt i)
  | PEnsure _ h => peval env h
  | PBinOp op L R =>
      if decide (op = "&"%char) then
        l ← peval env L; bl ← truth l;
        if (bl : bool) then r ← peval env R; br ← truth r; inl (VBool br) else inl (VBool false)
      else if decide (op = "|"%char) then
        l ← peval env L; bl ← truth l;
        if (bl : bool) then inl (VBool true) else r ← peval env R; br ← truth r; inl (VBool br)
      else l ← peval env L; r ← peval env R; binop op l r
  | _ => inr IllFormed
  end.

Definition p_assigned_value (env : string -> option value) (var : pexpr) (x : value)
    : Res (string * value) :=
  match p_target var with
  | Some (v, f) =>
      match env v with
      | Some s => match f with Some f => y ← set_field s f x; inl (v, y) | None => inl (v, x) end
      | None => inr (Throws AssertFailed)
      end
  | None => inr IllFormed
  end.

(** [ev] evaluates expressions. *)
Fixpoint pexec_with (ev : (string -> option value) -> pexpr -> Res value) (fuel : nat) (st : pstmt) (s : env)
    : Res (env * option value) :=
  match st with
  | PLet b body =>
      x ← ev (fun v => s !! v) (pb_expr b); pexec_with ev fuel body (<[pb_var b := x]> s)
  | PAssignment var e =>
      x ← ev (fun v => s !! v) e;
      w ← p_assigned_value (fun v => s !! v) var x;
      inl (<[w.1 := w.2]> s, None)
  | PReturn e => x ← ev (fun v => s !! v) e; inl (s, Some x)
  | PIf c t e =>
      x ← ev (fun v => s !! v) c; b ← truth x;
      if (b : bool) then pexec_with ev fuel t s else pexec_with ev fuel e s
  | PWhile c body =>
      exec_loop fuel (fun s => x ← ev (fun v => s !! v) c; truth x) (pexec_with ev fuel body) s
  | PSequence seq =>
      (fix exec_seq (seq : list pstmt) (s : env) : Res (env * option value) :=
         match seq with
         | [] => inl (s, None)
         | s1 :: seq =>
             r ← pexec_with ev fuel s1 s;
             match r.2 with Some _ => inl r | None => exec_seq seq r.1 end
         end) seq s
  | PLetRemote _ _ | PSOperation _ _ _ _ => inr IllFormed
  end.

Definition arg_env (args : list argument) : env :=
  list_to_map ((fun a => (arg_name a, arg_value a)) <$> args).

(** What the transaction returns on its arguments *)
Definition pexec_transaction (fuel : nat) (st : pstmt) (args : list argument) : Res value :=
  r ← pexec_with peval fuel st (arg_env args);
  match r.2 with Some v => inl v | None => inr IllFormed end.
End source.

Abbreviation pexec := (pexec_with peval).

(** ** A typed tree and the tree it was made of *)

Inductive annotates_expr : expr -> pexpr -> Prop :=
| ann_var l y v : annotates_expr (EVar l y v) (PVar v)
| ann_field l y s f p : annotates_expr s p -> annotates_expr (EField l y s f) (PField p f)
| ann_const i : annotates_expr (EConst i) (PConst i)
| ann_binop l y op L R p q :
    annotates_expr L p -> annotates_expr R q ->
    annotates_expr (EBinOp l y op L R) (PBinOp op p q)
| ann_valid l h p : annotates_expr h p -> annotates_expr (EIsValid l h) (PIsValid p)
| ann_endorse l y le h p :
    annotates_expr h p -> annotates_expr (EEndorse l y le h) (PEndorse le p)
| ann_operation l y n h args p vars :
    annotates_expr h p -> Forall2 (fun a v => exists l y, a = EVar l y v) args vars ->
    annotates_expr (EOperation l y n h args) (POperation n p [] vars)
| ann_ensure l e p : annotates_expr e p -> annotates_expr e (PEnsure l p).

Inductive annotates : stmt -> pstmt -> Prop :=
| ann_let l b body p q :
    annotates_expr (b_expr b) p -> annotates body q ->
    annotates (SLet l b body) (PLet (PBinding (b_var b) p) q)
| ann_let_remote l b body p q :
    annotates_expr (b_expr b) p -> annotates body q ->
    annotates (SLetRemote l b body) (PLetRemote (PBinding (b_var b) p) q)
| ann_operation_stmt l n h args p vars :
    annotates_expr h p -> Forall2 (fun a v => exists l y, a = EVar l y v) args vars ->
    annotates (SOperation l n h args) (PSOperation n p [] vars)
| ann_assignment l v e p q :
    annotates_expr v p -> annotates_expr e q -> annotates (SAssignment l v e) (PAssignment p q)
| ann_return l e p : annotates_expr e p -> annotates (SReturn l e) (PReturn p)
| ann_if l c t e p q r :
    annotates_expr c p -> annotates t q -> annotates e r -> annotates (SIf l c t e) (PIf p q r)
| ann_while l c body n p q :
    annotates_expr c p -> annotates body q -> annotates (SWhile l c body n) (PWhile p q)
| ann_sequence l ss qs : Forall2 annotates ss qs -> annotates (SSequence l ss) (PSequence qs).

Lemma annotates_local_expr e p : annotates_expr e p -> is_local_expr e = p_is_local_expr p.
Proof. induction 1; simpl; congruence. Qed.

(** What [without_ensure] leaves of the source of a node *)
Lemma annotates_head e p : annotates_expr e p ->
  match e with
  | EVar _ _ v => without_ensure p = PVar v
  | EField _ _ s f => exists q, annotates_expr s q /\ without_ensure p = PField (without_ensure q) f
  | _ => forall v q f, without_ensure p <> PVar v /\ without_ensure p <> PField q f
  end.
Proof. induction 1; simpl; eauto. Qed.

Definition target (e : expr) : option (string * option string) :=
  match e with
  | EVar _ _ v => Some (v, None)
  | EField _ _ (EVar _ _ v) f => Some (v, Some f)
  | _ => None
  end.

Lemma annotates_target e p : annotates_expr e p -> target e = p_target p.
Proof.
  intros Ha%annotates_head. unfold p_target.
  destruct e as [l y v|l y s f| | | | | |]; simpl;
    try (by destruct (without_ensure p) as [[]| | | | | | | | |]; naive_solver).
  destruct Ha as (q & Hq%annotates_head & ->).
  destruct s; simpl in *; [by rewrite Hq|by destruct Hq as (q' & _ & ->)|..];
    destruct (without_ensure q); naive_solver.
Qed.

Lemma annotates_local_target e p : annotates_expr e p ->
  is_local_target e = p_is_local_target p.
Proof.
  intros Ha. unfold p_is_local_target. rewrite <- (annotates_target e p Ha).
  by destruct e as [|? ? [] ?| | | | | |].
Qed.

Lemma forallb_Forall2 {A B} (f : A -> bool) (g : B -> bool) xs ys :
  Forall2 (fun x y => f x = g y) xs ys -> forallb f xs = forallb g ys.
Proof. induction 1; simpl; congruence. Qed.

Lemma annotates_local s p : annotates s p -> is_local s = p_is_local p.
Proof.
  revert p. induction s as [l b s IH|l b s IH|l n h args|l v e|l e|l e|l e|l c t e IHt IHe|l c s n IH|l ss IH]
    using stmt_ind'; inversion 1; subst; simpl; try done;
    repeat match goal with
    | Ha : annotates_expr ?e ?p |- context [is_local_expr ?e] => rewrite (annotates_local_expr e p Ha)
    | Ha : annotates_expr ?e ?p |- context [is_local_target ?e] => rewrite (annotates_local_target e p Ha)
    | IH : forall p, annotates ?s p -> _, Ha : annotates ?s ?p |- _ => rewrite (IH p Ha); clear IH
    end; try done.
  apply forallb_Forall2. by eapply Forall2_strengthen.
Qed.

Section same_meaning.
Context `{Remote}.

Lemma eval_annotates env e p : annotates_expr e p -> is_local_expr e = true ->
  eval env e = peval env p.
Proof.
  induction 1; simpl; try done; [intros; by rewrite IHannotates_expr|].
  intros [? ?]%andb_true_iff. by rewrite IHannotates_expr1, IHannotates_expr2.
Qed.

Lemma assigned_target env e x : assigned_value env e x =
  match target e with
  | Some (v, f) =>
      match env v with
      | Some s => match f with Some f => y ← set_field s f x; inl (v, y) | None => inl (v, x) end
      | None => inr (Throws AssertFailed)
      end
  | None => inr IllFormed
  end.
Proof. by destruct e as [|? ? [] ?| | | | | |]. Qed.

Lemma assigned_annotates env e p x : annotates_expr e p ->
  assigned_value env e x = p_assigned_value env p x.
Proof. intros Ha. rewrite assigned_target. unfold p_assigned_value. by rewrite (annotates_target e p Ha). Qed.

Lemma pexec_loop_ext n c c' (f f' : gmap string value -> _) s : (forall s, c s = c' s) -> (forall s, f s = f' s) ->
  exec_loop n c f s = exec_loop n c' f' s.
Proof.
  intros Hc Hf. revert s. induction n as [|n IH]; intros s; simpl; rewrite Hc.
  - done.
  - destruct (c' s) as [[]|]; simpl; try done. rewrite Hf.
    destruct (f' s) as [[s' [v|]]|]; simpl; try done.
Qed.

(** The typed tree means what the parsed tree means. *)
Lemma exec_annotates fuel s p env : annotates s p -> is_local s = true ->
  exec fuel s env = pexec fuel p env.
Proof.
  revert p env. induction s as [l b s IH|l b s IH|l n h args|l v e|l e|l e|l e|l c t e IHt IHe|l c s n IH|l ss IH]
    using stmt_ind'; intros p env; inversion 1 as [| | |? ? ? ? ? Hv| | | |]; subst; simpl; try done;
    rewrite ?andb_true_iff; intros Hl.
  - erewrite eval_annotates by naive_solver. destruct (peval _ _); simpl; [|done]. apply IH; naive_solver.
  - erewrite eval_annotates by naive_solver. destruct (peval _ _); simpl; [|done].
    by rewrite (assigned_annotates _ _ _ _ Hv).
  - by erewrite eval_annotates.
  - erewrite eval_annotates by naive_solver. destruct (peval _ _) as [x|]; simpl; [|done].
    destruct (truth x) as [[]|]; simpl; [..|done]; [apply IHt|apply IHe]; naive_solver.
  - apply pexec_loop_ext; [|intros; apply IH; naive_solver].
    intros s'. by erewrite eval_annotates by naive_solver.
  - match goal with Hs : Forall2 annotates ss ?qs |- _ => rename Hs into Hss; clear H1 end.
    revert env IH Hl. induction Hss as [|s q ss qs Hs Hss IHss]; intros env IH Hl; [done|].
    simpl in Hl. apply andb_true_iff in Hl as [Hl1 Hl2]. inversion IH; subst.
    rewrite (H3 q) by done. destruct (pexec fuel q env) as [[s' [v|]]|]; simpl; [done| |done].
    by apply IHss.
Qed.

Lemma exec_transaction_annotates fuel s p args : annotates s p -> is_local s = true ->
  exec_transaction fuel s args = pexec_transaction fuel p args.
Proof. intros Ha Hl. unfold exec_transaction, pexec_transaction. by rewrite (exec_annotates _ _ _ _ Ha Hl). Qed.
End same_meaning.
