(* ===== verification/Strict.v ===== *)
(** * Evaluating both operands

    [flatten_expressions] names the second operand of [&] and [|] like every
    other operand, so a flattened transaction evaluates it whatever the first
    is.  [seval] and [sexec] are the interpreter of [Source] that does the same;
    where they give a value, so does the interpreter that short-circuits. *)
From S2P Require Import Prelude TypeLists Labels TypedAst PhaseApi Runtime Holders RunPhase.
From S2P Require Import SplitSpec ParseAst Flatten FlattenLayer Source.

Section strict.
Context `{Remote}.
#[local] Abbreviation env := (gmap string value).

Fixpoint seval (env : string -> option value) (e : pexpr) : Res value :=
  match e with
  | PVar v =>
      if decide (v = "true"%string) then inl (VBool true)
      else if decide (v = "false"%string) then inl (VBool false)
      else match env v with Some x => inl x | None => inr (Throws AssertFailed) end
  | PField s f => x ← seval env s; get_field x f
  | PConst i => inl (VInt i)
  | PEnsure _ h => seval env h
  | PBinOp op L R =>
      l ← seval env L; r ← seval env R;
      if decide (op = "&"%char) then
        bl ← truth l; br ← truth r; inl (VBool (bl && br))
      else if decide (op = "|"%char) then
        bl ← truth l; br ← truth r; inl (VBool (bl || br))
      else binop op l r
  | _ => inr IllFormed
  end.

Lemma seval_peval env e v : seval env e = inl v -> peval env e = inl v.
Proof.
  revert v. induction e as [s f IH| | | |l h IH| | | |op L R IHL IHR|] using pexpr_ind';
    simpl; intros w Hw; try done; auto; res_inv.
  - by rewrite (IH a) by done.
  - rewrite (IHL a) by done. rewrite (IHR a0) by done. simpl.
    repeat case_decide; res_inv; try done;
      repeat match goal with Ht : truth _ = inl ?b |- _ => rewrite Ht; clear Ht; simpl; destruct b; simpl end;
      done.
Qed.

(** ** Results that are related *)

(** Where [m] ends, [m'] ends with the same returned value in a related
    environment. *)
Definition refines (R : env -> env -> Prop) (m m' : Res (env * option value)) : Prop :=
  forall r ret, m = inl (r, ret) -> exists r', m' = inl (r', ret) /\ R r r'.

Lemma refines_err R e m : refines R (inr e) m.
Proof. by intros r ret Hr. Qed.

Lemma refines_ret (R : env -> env -> Prop) s s' ret : R s s' -> refines R (inl (s, ret)) (inl (s', ret)).
Proof. intros Hs r v [= <- <-]. eauto. Qed.

Lemma refines_then R m1 m2 m3 : Transitive R -> refines R m1 m2 -> refines R m2 m3 -> refines R m1 m3.
Proof.
  intros HR H12 H23 r ret Hr. destruct (H12 r ret Hr) as (r2 & Hr2 & ?).
  destruct (H23 r2 ret Hr2) as (r3 & ? & ?). exists r3. split; [done|]. by etransitivity.
Qed.

Lemma refines_weaken (R R' : env -> env -> Prop) m m' : (forall s s', R s s' -> R' s s') ->
  refines R m m' -> refines R' m m'.
Proof. intros HR Hm r ret Hr. destruct (Hm r ret Hr) as (r' & ? & ?). eauto. Qed.

(** Steps that evaluate an expression first *)
Lemma refines_bind {A} R (m m' : Res A) f f' : (forall a, m = inl a -> m' = inl a /\ refines R (f a) (f' a)) ->
  refines R (m ≫= f) (m' ≫= f').
Proof.
  intros Hm. destruct m as [a|e]; [|apply refines_err]. destruct (Hm a eq_refl) as [-> Hf]. exact Hf.
Qed.

Lemma exec_loop_unfold n (c : env -> Res bool) f s : exec_loop n c f s =
  (b ← c s;
   if (b : bool) then
     match n with
     | O => inr NoFuel
     | S n => r ← f s; match r.2 with Some _ => inl r | None => exec_loop n c f r.1 end
     end
   else inl (s, None)).
Proof. by destruct n. Qed.

Lemma refines_loop R n m (c c' : env -> Res bool) f f' s s' : n <= m ->
  (forall s s' b, R s s' -> c s = inl b -> c' s' = inl b) ->
  (forall s s', R s s' -> refines R (f s) (f' s')) ->
  R s s' -> refines R (exec_loop n c f s) (exec_loop m c' f' s').
Proof.
  intros Hn Hc Hf. revert m s s' Hn. induction n as [|n IH]; intros m s s' Hn Hs; simpl.
  - destruct (c s) as [[]|e] eqn:Hcs; [apply refines_err| |apply refines_err].
    rewrite (exec_loop_unfold m), (Hc _ _ _ Hs Hcs). by apply refines_ret.
  - rewrite (exec_loop_unfold m).
    destruct (c s) as [[]|e] eqn:Hcs; [| |apply refines_err]; rewrite (Hc _ _ _ Hs Hcs);
      [|by apply refines_ret].
    destruct m as [|m]; [lia|]. simpl. intros r ret Hr.
    destruct (f s) as [[r1 v1]|] eqn:Hfs; simpl in Hr; [|done].
    destruct (Hf s s' Hs r1 v1 Hfs) as (r1' & -> & H1). simpl.
    destruct v1 as [v1|]; [injection Hr as <- <-; eauto|]. eapply IH; [lia|done..].
Qed.

(** ** Statements *)

#[local] Abbreviation sexec := (pexec_with seval).

Lemma refines_seq R fuel fuel' ss ss' :
  Forall2 (fun st st' => forall s s', R s s' -> refines R (sexec fuel st s) (sexec fuel' st' s')) ss ss' ->
  forall s s', R s s' -> refines R (sexec fuel (PSequence ss) s) (sexec fuel' (PSequence ss') s').
Proof.
  induction 1 as [|st st' ss ss' Hst Hss IH]; intros s s' Hs; [by apply refines_ret|].
  intros r ret Hr. cbn [pexec_with] in Hr |- *.
  destruct (sexec fuel st s) as [[s1 v1]|] eqn:H1; [|done].
  destruct (Hst s s' Hs s1 v1 H1) as (s1' & -> & Hs1). cbn [mbind Res_bind snd fst] in Hr |- *.
  destruct v1 as [v1|]; [injection Hr as <- <-; eauto|]. by eapply IH.
Qed.

(** A short-circuit does what strict evaluation does, where that gives a value. *)
Lemma sexec_pexec fuel st s r : sexec fuel st s = inl r -> pexec fuel st s = inl r.
Proof.
  assert (Hex : forall st s, refines eq (sexec fuel st s) (pexec fuel st s)).
  { clear st s r. intros st. induction st as [b st IH|? ? ?|? ? ? ?|v e|e|c t e IHt IHe|c st IH|ss IH]
      using pstmt_ind'; intros s; simpl; try apply refines_err.
    - apply refines_bind. intros x Hx%seval_peval. split; [done|]. apply IH.
    - apply refines_bind. intros x Hx%seval_peval. split; [done|].
      apply refines_bind. intros w Hw. split; [done|]. by apply refines_ret.
    - apply refines_bind. intros x Hx%seval_peval. split; [done|]. by apply refines_ret.
    - apply refines_bind. intros x Hx%seval_peval. split; [done|].
      apply refines_bind. intros [] Hb; (split; [done|]); [apply IHt|apply IHe].
    - apply refines_loop; [done| | |done].
      + intros s1 s2 b -> Hb. res_inv. by erewrite seval_peval.
      + intros s1 s2 ->. apply IH.
    - revert s. induction IH as [|st ss Hst Hss IH]; intros s; [by apply refines_ret|].
      intros r ret Hr. destruct (sexec fuel st s) as [[s1 v1]|] eqn:H1; [|done].
      destruct (Hst s s1 v1 H1) as (? & -> & <-). cbn [mbind Res_bind snd fst] in Hr |- *.
      destruct v1 as [v1|]; [injection Hr as <- <-; eauto|]. by eapply IH. }
  intros Hr. destruct r as [r ret]. by destruct (Hex st s r ret Hr) as (r' & ? & <-).
Qed.

Lemma seval_ext env env' e : (forall x, x ∈ pvars e -> env x = env' x) -> seval env e = seval env' e.
Proof.
  induction e as [s f IH| | | |l h IH| |v| |op L R IHL IHR|] using pexpr_ind'; simpl; intros He; try done.
  - by rewrite IH.
  - auto.
  - by rewrite He by (by left).
  - rewrite IHL, IHR; [done|..]; intros x Hx; apply He, elem_of_app; auto.
Qed.

Lemma without_ensure_vars e : pvars (without_ensure e) = pvars e.
Proof. induction e using pexpr_ind'; simpl; congruence. Qed.

Lemma p_target_var e v f : p_target e = Some (v, f) -> v ∈ pvars e.
Proof.
  unfold p_target. rewrite <- without_ensure_vars.
  destruct (without_ensure e) as [[]| | | | | | | | |]; try done; intros [= <- _]; by left.
Qed.

Lemma assigned_ext env env' e x : (forall y, y ∈ pvars e -> env y = env' y) ->
  p_assigned_value env e x = p_assigned_value env' e x.
Proof.
  intros He. unfold p_assigned_value. destruct (p_target e) as [[v f]|] eqn:Ht; [|done].
  by rewrite (He v) by by eapply p_target_var.
Qed.

Lemma assigned_name env e x w : p_assigned_value env e x = inl w -> w.1 ∈ pvars e.
Proof.
  unfold p_assigned_value. destruct (p_target e) as [[v f]|] eqn:Ht; [|done].
  intros Hw. destruct (env v), f; res_inv; simpl; by eapply p_target_var.
Qed.

Definition agree_on (X : string -> Prop) (s s' : env) : Prop := forall x, X x -> s !! x = s' !! x.

#[export] Instance agree_on_equiv X : Equivalence (agree_on X).
Proof.
  split; [by intros s x|by intros s s' Hs x Hx; rewrite Hs|].
  intros s1 s2 s3 H1 H2 x Hx. by rewrite H1, H2.
Qed.

Lemma agree_insert X s s' y v : agree_on X s s' -> agree_on X (<[y := v]> s) (<[y := v]> s').
Proof.
  intros Hs x Hx. destruct (decide (y = x)) as [->|]; [by rewrite !lookup_insert_eq|].
  rewrite !lookup_insert_ne by done. by apply Hs.
Qed.

Lemma agree_insert_r X s s' y v : ~ X y -> agree_on X s s' -> agree_on X s (<[y := v]> s').
Proof. intros Hy Hs x Hx. rewrite lookup_insert_ne by (by intros ->). by apply Hs. Qed.

Lemma agree_weaken (X Y : string -> Prop) s s' : (forall x, Y x -> X x) -> agree_on X s s' -> agree_on Y s s'.
Proof. intros HXY Hs x Hx. apply Hs. auto. Qed.

Lemma seval_agree X s s' e : (forall x, x ∈ pvars e -> X x) -> agree_on X s s' ->
  seval (fun v => s !! v) e = seval (fun v => s' !! v) e.
Proof. intros Hx Hs. apply seval_ext. intros x Hin. apply Hs. auto. Qed.

Lemma assigned_agree X s s' e w : (forall x, x ∈ pvars e -> X x) -> agree_on X s s' ->
  p_assigned_value (fun v => s !! v) e w = p_assigned_value (fun v => s' !! v) e w.
Proof. intros Hx Hs. apply assigned_ext. intros x Hin. apply Hs. auto. Qed.

(** A statement only depends on the variables it names. *)
Lemma sexec_agree X fuel st s s' : (forall x, x ∈ pnames st -> X x) -> agree_on X s s' ->
  refines (agree_on X) (sexec fuel st s) (sexec fuel st s').
Proof.
  revert s s'. induction st as [[y e] st IH|? ? ?|? ? ? ?|v e|e|c t e IHt IHe|c st IH|ss IH]
    using pstmt_ind'; intros s s' Hn Hs; simpl in Hn |- *; try apply refines_err.
  - rewrite (seval_agree X s s') by set_solver. apply refines_bind. intros x Hx. split; [done|].
    apply IH; [set_solver|by apply agree_insert].
  - rewrite (seval_agree X s s') by set_solver. apply refines_bind. intros x Hx. split; [done|].
    rewrite (assigned_agree X s s') by set_solver. apply refines_bind. intros w Hw. split; [done|].
    by apply refines_ret, agree_insert.
  - rewrite (seval_agree X s s') by set_solver. apply refines_bind. intros x Hx. split; [done|].
    by apply refines_ret.
  - rewrite (seval_agree X s s') by set_solver. apply refines_bind. intros x Hx. split; [done|].
    apply refines_bind. intros [] Hb; (split; [done|]); [apply IHt|apply IHe]; set_solver.
  - apply refines_loop; [done| | |done].
    + intros s1 s2 b H12 Hb. by rewrite <- (seval_agree X s1 s2) by set_solver.
    + intros s1 s2 H12. apply IH; set_solver.
  - eapply refines_seq; [|done]. apply Forall2_same_length_lookup. split; [done|].
    intros i st st' Hi Hi'. assert (st' = st) as -> by congruence. rewrite Forall_forall in IH.
    intros s1 s2 H12. apply list_elem_of_lookup_2 in Hi as Hin. apply IH; [done| |done].
    intros x Hx. apply Hn. by eapply elem_of_concat_fmap.
Qed.

(** What a statement does not name keeps its value. *)
Definition leaves (P : env -> Prop) (m : Res (env * option value)) : Prop :=
  forall r ret, m = inl (r, ret) -> P r.

Lemma leaves_bind {A} P (m : Res A) f : (forall a, m = inl a -> leaves P (f a)) -> leaves P (m ≫= f).
Proof. intros Hf r ret Hr. destruct m as [a|]; [by eapply Hf|done]. Qed.

Lemma leaves_ret (P : env -> Prop) s ret : P s -> leaves P (inl (s, ret)).
Proof. by intros Hs r v [= <- _]. Qed.

Lemma leaves_loop P n (c : env -> Res bool) f s : (forall s, P s -> leaves P (f s)) -> P s ->
  leaves P (exec_loop n c f s).
Proof.
  intros Hf. revert s. induction n as [|n IH]; intros s Hs; rewrite exec_loop_unfold;
    apply leaves_bind; intros [] _; try (by apply leaves_ret); [done|].
  apply leaves_bind. intros [r [v|]] Hr; [apply leaves_ret|apply IH]; by eapply Hf.
Qed.

Lemma sexec_frame fuel st s r ret x : sexec fuel st s = inl (r, ret) -> x ∉ pnames st -> r !! x = s !! x.
Proof.
  intros Hr Hx.
  assert (Hex : forall o s, s !! x = o -> leaves (fun r => r !! x = o) (sexec fuel st s));
    [|by eapply Hex].
  clear s r ret Hr. induction st as [[y e] st IH|? ? ?|? ? ? ?|v e|e|c t e IHt IHe|c st IH|ss IH]
    using pstmt_ind'; intros o s Hs; simpl in Hx |- *; try done;
    rewrite ?elem_of_cons, ?elem_of_app in Hx.
  - apply leaves_bind. intros v _. apply IH; [tauto|]. rewrite lookup_insert_ne; [done|]. intros ->; tauto.
  - apply leaves_bind. intros y _. apply leaves_bind. intros [z w] Hw%assigned_name. apply leaves_ret.
    simpl in *. rewrite lookup_insert_ne; [done|]. intros ->; tauto.
  - apply leaves_bind. intros y _. by apply leaves_ret.
  - apply leaves_bind. intros y _. apply leaves_bind. intros [] _; [apply IHt|apply IHe]; tauto.
  - apply leaves_loop; [|done]. intros s' Hs'. apply IH; tauto.
  - revert s Hs. induction IH as [|st ss Hst Hss IH]; intros s Hs; [by apply leaves_ret|].
    simpl in Hx. rewrite elem_of_app in Hx.
    apply leaves_bind. intros [r [v|]] Hr; [apply leaves_ret|apply IH]; try tauto;
      (eapply Hst; [|exact Hs|exact Hr]; tauto).
Qed.

(** What the transaction returns on its arguments *)
Definition sexec_transaction (fuel : nat) (st : pstmt) (args : list argument) : Res value :=
  r ← sexec fuel st (arg_env args);
  match r.2 with Some v => inl v | None => inr IllFormed end.
End strict.

Abbreviation sexec := (pexec_with seval).
