(* ===== verification/FlattenMeaning.v ===== *)
(** * What flattening means

    Running a flattened transaction gives what running the parsed one gives,
    when that is evaluated strictly ([Strict]): the generated declarations
    hold the values of the operands they were made for, and a loop over a flag
    takes one iteration more than the loop it stands for. *)
From S2P Require Import Prelude Labels TypedAst PhaseApi Runtime Holders RunPhase SplitSpec.
From S2P Require Import ParseAst Flatten FlattenLayer FlattenRules DesugarWhile FlattenCorrect.
From S2P Require Import Source Strict.

#[local] Open Scope Z_scope.

(** A name of a part is a name of the whole. *)
#[local] Ltac part_names :=
  intros; simpl in *; rewrite ?elem_of_cons, ?elem_of_app; tauto.

Section flatten_meaning.
Context `{Remote}.
#[local] Abbreviation env := (gmap string value).

(** ** Naming an operand *)

(** [env'] gives the variables [menv] stands for the values of what they stand for. *)
Definition denotes (menv : gmap string pexpr) (env env' : string -> option value) : Prop :=
  forall x, match menv !! x with
            | Some b => x <> "true"%string /\ x <> "false"%string /\
                        exists v, seval env b = inl v /\ env' x = Some v
            | None => env' x = env x
            end.

Lemma seval_inline menv env env' e : denotes menv env env' ->
  seval env (inline_expr menv e) = seval env' e.
Proof.
  intros Hd. induction e as [s f IH|s f IH|s IH|l s IH|l s IH|s IH|v|i|op L R IHL IHR|m h exprs vars IHh IHe]
    using pexpr_ind'; simpl; try done.
  - by rewrite IH.
  - unfold inline_var. specialize (Hd v). destruct (menv !! v) as [b|]; simpl; [|by rewrite Hd].
    destruct Hd as (Ht & Hf & w & -> & ->). by rewrite !decide_False by done.
  - by rewrite IHL, IHR.
Qed.

(** Strict evaluation reads every variable. *)
Lemma seval_inline_reads menv env e v n b : seval env (inline_expr menv e) = inl v ->
  n ∈ pvars e -> menv !! n = Some b -> exists w, seval env b = inl w.
Proof.
  intros Hv Hn Hb. revert v Hv Hn.
  induction e as [s f IH| | | |l s IH| |x|i|op L R IHL IHR|] using pexpr_ind'; simpl; intros v Hv Hn; try done.
  - res_inv. by eapply IH.
  - by eapply IH.
  - apply list_elem_of_singleton in Hn as <-. unfold inline_var in Hv. rewrite Hb in Hv. simpl in Hv. eauto.
  - by apply elem_of_nil in Hn.
  - apply elem_of_app in Hn as [Hn|Hn]; res_inv; eauto.
Qed.

Lemma seval_inline_none env e : seval env (inline_expr ∅ e) = seval env e.
Proof. apply seval_inline. intros x. by rewrite lookup_empty. Qed.

Lemma layers_inline_none e : layers (inline_expr ∅ e) = layers e.
Proof.
  induction e as [s f IH|s f IH|s IH|l s IH|l s IH|s IH|v|i|op L R IHL IHR|m h exprs vars IHh IHe]
    using pexpr_ind'; simpl; auto.
  f_equal. rewrite IHh. f_equal. rewrite sum_list_with_app.
  assert (Hv : sum_list_with layers (inline_var ∅ <$> vars) = 0%nat) by (clear; by induction vars).
  rewrite Hv, Nat.add_0_l. clear Hv. induction IHe as [|e es He Hes IH]; [done|].
  rewrite fmap_cons. cbn [sum_list_with]. by rewrite He, IH.
Qed.

(** The name [remove_layer] binds is read by what it leaves. *)
Lemma layer_used sq d e r bound e' : layer sq d e r bound e' -> layer_name r sq d ∉ pvars e ->
  layer_name r sq d ∈ pvars e'.
Proof.
  intros Hl Hn. destruct (decide (layer_name r sq d ∈ pvars e')) as [|Hn']; [done|]. exfalso.
  pose proof (layer_inline _ _ _ _ _ _ Hl ∅ Hn) as Hi. rewrite inline_insert in Hi by done.
  apply (f_equal layers) in Hi. rewrite !layers_inline_none in Hi.
  pose proof (layer_smaller _ _ _ _ _ _ Hl). lia.
Qed.

Lemma layer_name_not_bool r sq d : layer_name r sq d <> "true"%string /\ layer_name r sq d <> "false"%string.
Proof. by destruct r. Qed.

(** An expression that has a value has the same one with its first layer named. *)
Lemma layer_seval sq d e r bound e' env v : layer sq d e r bound e' -> layer_name r sq d ∉ pvars e ->
  seval env e = inl v ->
  r = false /\ exists w, seval env bound = inl w /\
    forall env', (forall x, x <> layer_name r sq d -> env' x = env x) ->
      env' (layer_name r sq d) = Some w -> seval env' e' = inl v.
Proof.
  intros Hl Hn Hv. pose proof (layer_used _ _ _ _ _ _ Hl Hn) as Hu.
  rewrite <- seval_inline_none, <- (layer_inline _ _ _ _ _ _ Hl ∅ Hn) in Hv.
  destruct (layer_name_not_bool r sq d). set (n := layer_name r sq d) in *.
  destruct (seval_inline_reads _ _ _ _ n _ Hv Hu (lookup_insert_eq _ _ _)) as [w Hw].
  destruct r; [by simpl in Hw|]. simpl in Hv, Hw. split; [done|]. exists w.
  rewrite seval_inline_none in Hw. split; [done|]. intros env' He' Hwn.
  rewrite <- Hv. symmetry. apply seval_inline. intros x. destruct (decide (n = x)) as [<-|Hx].
  - rewrite lookup_insert_eq. split_and!; [done..|]. exists w. by rewrite seval_inline_none.
  - rewrite lookup_insert_ne, lookup_empty by done. by apply He'.
Qed.

(** ** Statements *)

(** Names that are not generated below level [d] *)
Definition low_name (d : Z) (x : string) : Prop := forall k, generated_at x = Some k -> k < d.

Lemma low_mono d d' x : d <= d' -> low_name d x -> low_name d' x.
Proof. intros Hd Hx k Hk. specialize (Hx k Hk). lia. Qed.

Lemma names_low d s : names_below d s -> forall x, x ∈ pnames s -> low_name d x.
Proof. intros Hs x Hx k. by apply Hs. Qed.

Lemma layer_name_not_low r sq d : 0 <= d <= 127 -> ~ low_name d (layer_name r sq d).
Proof. intros Hd Hl. specialize (Hl d (generated_layer_name r sq d Hd)). lia. Qed.

(** Every loop tests a variable. *)
Fixpoint tests_variables (s : pstmt) : bool :=
  match s with
  | PLet _ s | PLetRemote _ s => tests_variables s
  | PIf _ t e => tests_variables t && tests_variables e
  | PWhile c s => p_is_var_reference c && tests_variables s
  | PSequence ss => forallb tests_variables ss
  | PSOperation _ _ _ _ | PAssignment _ _ | PReturn _ => true
  end.

Lemma fieldpointer_no_target e : contains_fieldpointer_ref e = Ok true -> p_target e = None.
Proof. by destruct e as [[]| | | | | | | | |]. Qed.

(** A run of a statement on states that agree on what it names *)
Lemma sexec_step d fuel s s' env1 env2 : names_below d s ->
  (forall env, refines (agree_on (low_name d)) (sexec fuel s env) (sexec fuel s' env)) ->
  agree_on (low_name d) env1 env2 -> refines (agree_on (low_name d)) (sexec fuel s env1) (sexec fuel s' env2).
Proof.
  intros Hn Hs He. eapply refines_then; [apply _|by apply sexec_agree; [apply names_low|exact He]|apply Hs].
Qed.

Lemma refines_value {A} R (m : Res A) k m' : (forall a, m = inl a -> refines R (k a) m') ->
  refines R (m ≫= k) m'.
Proof. destruct m as [a|]; [by intros Hk; apply Hk|]. intros _. apply refines_err. Qed.

(** The operand has its value by way of the new declaration. *)
#[local] Ltac value_of Hv :=
  let x := fresh "x" in let w := fresh "w" in
  apply refines_value; intros x (-> & w & Hw & Hx)%Hv; simpl; rewrite Hw; simpl; rewrite Hx; simpl.

(** Naming an operand of a statement *)
Lemma layer_step_runs sq d s C e r bound e' fuel env : named_in s C e -> layer sq d e r bound e' ->
  0 <= d <= 127 -> names_below d s -> tests_variables s = true ->
  refines (agree_on (low_name d)) (sexec fuel s env)
    (sexec fuel (bind_layer r (layer_name r sq d) bound (C e')) env).
Proof.
  intros Hin Hl Hd Hn Ht. pose proof (layer_name_not_low r sq d Hd) as Hnl.
  pose proof (names_low d s Hn) as Hlow. set (n := layer_name r sq d) in *.
  assert (Hu : forall x, x ∈ pvars e -> x <> n).
  { intros x Hx ->. apply Hnl, Hlow. destruct (named_pnames _ _ _ Hin) as [xs Hxs].
    rewrite (named_statement _ _ _ Hin), Hxs. by left. }
  assert (Hfresh : n ∉ pvars e) by by intros Hx; apply (Hu n Hx).
  (* the values of the operand *)
  assert (Hv : forall v, seval (fun x => env !! x) e = inl v -> r = false /\ exists w,
    seval (fun x => env !! x) bound = inl w /\ seval (fun x => <[n := w]> env !! x) e' = inl v).
  { intros v Hv. destruct (layer_seval _ _ _ _ _ _ _ _ Hl Hfresh Hv) as (-> & w & Hw & He').
    split; [done|]. exists w. split; [done|]. apply He'; [|by rewrite lookup_insert_eq].
    intros x Hx. by rewrite lookup_insert_ne. }
  assert (Ha : forall w, agree_on (low_name d) env (<[n := w]> env)) by (intros; by apply agree_insert_r).
  clear Hl. destruct Hin as [v e body _|v e body _|v e _ Hp|v e _|e _|c body Hc|c t e _]; simpl in *;
    try apply refines_err.
  - value_of Hv. apply sexec_agree; [set_solver|].
    by apply agree_insert.
  - intros x ret Hr. unfold p_assigned_value in Hr. rewrite fieldpointer_no_target in Hr by done.
    by destruct (seval _ e).
  - value_of Hv.
    rewrite (assigned_agree (low_name d) _ (<[n := w]> env)); [|set_solver|apply Ha].
    apply refines_bind. intros y Hy. split; [done|]. by apply refines_ret, agree_insert.
  - value_of Hv. by apply refines_ret.
  - by rewrite Hc in Ht.
  - value_of Hv. apply refines_bind. intros b Hb. split; [done|].
    destruct b; apply sexec_agree; try done; set_solver.
Qed.

Lemma tests_variables_named s C e e' r n bound : named_in s C e -> tests_variables s = true ->
  tests_variables (bind_layer r n bound (C e')) = true.
Proof.
  intros Hin Ht. assert (tests_variables (C e') = true) by (destruct Hin; simpl in *; try done; by rewrite H1 in Ht).
  by destruct r.
Qed.

Lemma refines_same (R : env -> env -> Prop) m : Reflexive R -> refines R m m.
Proof. intros HR x ret ->. eauto. Qed.

(** A part of a statement, at the next level *)
Lemma names_below_part d s s1 : names_below d s -> (forall n, n ∈ pnames s1 -> n ∈ pnames s) ->
  names_below (d + 1) s1.
Proof. intros Hs Hsub. eapply names_below_mono; [by eapply names_below_sub|lia]. Qed.

Lemma refines_low d m m' : refines (agree_on (low_name (d + 1))) m m' -> refines (agree_on (low_name d)) m m'.
Proof. apply refines_weaken. intros s s'. apply agree_weaken. intros x. apply low_mono. lia. Qed.

(** A flattened statement does what the statement does. *)
Lemma flattens_runs sq d s s' : flattens sq d s s' -> names_below d s -> tests_variables s = true ->
  forall fuel env, refines (agree_on (low_name d)) (sexec fuel s env) (sexec fuel s' env).
Proof.
  induction 1 as [sq d s C e r bound e' s' Hin Hl Hd Hfl IH
    |sq d [v e] body body' Hf Hd Hfl IH|sq d b body body' Hf Hd Hfl IH|
    |sq d n h exprs vars r bound e' ret s' Hl Hd Hfl IH Ho| | |sq d c body body' Hc Hd Hfl IH
    |sq d c t t' e e' Hc Hd Hft IHt Hfe IHe|sq d ss ss' Hlen Hall IH];
    intros Hn Ht fuel env; try (by apply refines_err); try (by apply refines_same; apply _).
  - eapply refines_then; [apply _|by eapply layer_step_runs; [..|done|done]; [|eassumption|lia]|].
    apply refines_low, IH; [|by eapply tests_variables_named].
    pose proof (layer_step_ready _ _ _ _ _ _ _ _ Hin Hl ltac:(lia) Hn) as Hb. by destruct r, Hb.
  - simpl. apply refines_bind. intros x Hx. split; [done|]. apply refines_low, IH; [|done].
    eapply names_below_part; [done|]. part_names.
  - simpl in Ht. apply andb_true_iff in Ht as [_ Ht].
    assert (names_below d body) by (eapply names_below_sub; [done|part_names]).
    apply refines_loop; [done| | |done].
    + intros s1 s2 b Hs Hb. rewrite <- (seval_agree (low_name d) s1 s2); [done| |done].
      intros x Hx. apply (names_low d (PWhile c body)); [done|]. part_names.
    + intros s1 s2 Hs. apply sexec_step; [done| |done]. intros s3. apply refines_low, IH; [|done].
      eapply names_below_mono; [done|lia].
  - simpl in Ht. apply andb_true_iff in Ht as [Ht1 Ht2].
    simpl. apply refines_bind. intros x Hx. split; [done|]. apply refines_bind. intros b Hb. split; [done|].
    destruct b; apply refines_low; [apply IHt|apply IHe]; try done; (eapply names_below_part; [done|part_names]).
  - eapply refines_seq; [|done]. apply Forall2_same_length_lookup. split; [done|].
    intros i st st' Hi Hi' s1 s2 Hs. apply list_elem_of_lookup_2 in Hi as Hin.
    assert (names_below d st) by (eapply names_below_sub; [done|]; intros n Hx; by eapply elem_of_concat_fmap).
    apply sexec_step; [done| |done]. intros s3. eapply IH; [done..|].
    apply (proj1 (forallb_forall _ _) Ht). by apply list_elem_of_In.
Qed.

(** ** Loops *)

(** Names that are not those of flags *)
Definition no_flag (x : string) : Prop := forall sq d, x <> condition_name sq d.

#[local] Abbreviation test c := (fun s : env => x ← seval (fun v => s !! v) c; truth x).

Lemma test_flag flag (s : env) b : flag <> "true"%string -> flag <> "false"%string ->
  s !! flag = Some (VBool b) -> test (PVar flag) s = inl b.
Proof. intros Ht Hf Hs. simpl. rewrite !decide_False, Hs by done. by destruct b. Qed.

(** A loop over a flag that is cleared when the condition fails *)
Lemma flag_loop_runs X n flag (tc : env -> Res bool) f f' g (s s' : env) :
  flag <> "true"%string -> flag <> "false"%string -> ~ X flag ->
  (forall s s', agree_on X s s' -> tc s = tc s') ->
  (forall s s', agree_on X s s' -> refines (agree_on X) (f s) (f' s')) ->
  (forall s r ret, f' s = inl (r, ret) -> r !! flag = s !! flag) ->
  (forall s, s !! flag = Some (VBool true) ->
     g s = b ← tc s; if (b : bool) then f' s else inl (<[flag := VBool false]> s, None)) ->
  agree_on X s s' -> s' !! flag = Some (VBool true) ->
  refines (agree_on X) (exec_loop n tc f s)
    (exec_loop (S n) (test (PVar flag)) g s').
Proof.
  intros Ht Hf HX Hc Hb Hk Hg. revert s s'. induction n as [|n IH]; intros s s' Hs Hflag r ret;
    rewrite (exec_loop_unfold _ tc), (exec_loop_unfold _ (test _)), (test_flag flag s' true) by done;
    cbn [mbind Res_bind]; rewrite (Hg s' Hflag), <- (Hc s s' Hs); destruct (tc s) as [[]|]; try done;
    cbn [mbind Res_bind].
  1, 3: intros [= <- <-]; cbn [snd fst]; rewrite exec_loop_unfold, (test_flag flag _ false);
    [|done..|by rewrite lookup_insert_eq]; eexists; split; [done|by apply agree_insert_r].
  destruct (f s) as [[r1 v1]|] eqn:Hr1; [|done]. destruct (Hb s s' Hs r1 v1 Hr1) as (r1' & Hr1' & H1).
  rewrite Hr1'. cbn [mbind Res_bind snd fst]. destruct v1 as [v1|]; [intros [= <- <-]; eauto|].
  apply IH; [done|]. by rewrite (Hk _ _ _ Hr1').
Qed.

Lemma condition_name_not_bool sq d :
  condition_name sq d <> "true"%string /\ condition_name sq d <> "false"%string.
Proof. done. Qed.

(** The flag of a loop is not a name of its body. *)
Lemma desugar_flag_fresh sq d s s' : desugar_while sq (d + 1) s = Ok s' -> 0 <= d <= 127 ->
  (forall x, x ∈ pnames s -> no_flag x) -> condition_name sq d ∉ pnames s'.
Proof.
  intros Hs Hd Hn [Hx|[Hx|[Hx|(sq' & d' & ? & Hx)]]]%(desugared_names _ _ _ (desugar_while_spec _ _ _ _ Hs)).
  - by apply (Hn _ Hx sq d).
  - by apply (condition_name_not_bool sq d).
  - by apply (condition_name_not_bool sq d).
  - apply condition_name_inj in Hx; lia.
Qed.

(** A desugared loop returns what the loop returns, with one iteration more. *)
Lemma desugar_runs sq d s s' : desugar_while sq d s = Ok s' -> 0 <= d ->
  (forall x, x ∈ pnames s -> no_flag x) ->
  forall fuel env env', agree_on no_flag env env' ->
  refines (agree_on no_flag) (sexec fuel s env) (sexec (S fuel) s' env').
Proof.
  revert sq d s'. induction s as [[v e] s IH|b s IH|m h exprs vars|v e|e|c t e IHt IHe|c s IH|ss IH]
    using pstmt_ind'; intros sq d s' Hs Hd Hn fuel env1 env2 He; cbn [desugar_while] in Hs.
  - apply bind_Ok in Hs as (? & [-> ?]%char_arg_Ok & Hs). apply bind_Ok in Hs as (body & Hb & [= <-]).
    simpl. rewrite (seval_agree no_flag env1 env2); [|intros; apply Hn; part_names|done].
    apply refines_bind. intros x Hx. split; [done|]. eapply IH; [done|lia|intros; apply Hn; part_names|by apply agree_insert].
  - by apply refines_err.
  - by apply refines_err.
  - injection Hs as <-. by apply (sexec_agree no_flag fuel (PAssignment v e)).
  - injection Hs as <-. by apply (sexec_agree no_flag fuel (PReturn e)).
  - apply bind_Ok in Hs as (? & [-> ?]%char_arg_Ok & Hs). apply bind_Ok in Hs as (t' & Ht & Hs).
    apply bind_Ok in Hs as (? & [-> ?]%char_arg_Ok & Hs). apply bind_Ok in Hs as (e' & He' & [= <-]).
    simpl. rewrite (seval_agree no_flag env1 env2); [|intros; apply Hn; part_names|done].
    apply refines_bind. intros x Hx. split; [done|]. apply refines_bind. intros b Hb. split; [done|].
    destruct b; [eapply IHt|eapply IHe]; try done; try lia; intros; apply Hn; part_names.
  - apply bind_Ok in Hs as (? & [-> ?]%char_arg_Ok & Hs). apply bind_Ok in Hs as (t' & Ht & [= <-]).
    pose proof (desugar_flag_fresh sq d s t' Ht ltac:(lia) ltac:(intros; apply Hn; part_names)) as Hfresh.
    destruct (condition_name_not_bool sq d) as [Hnt Hnf].
    set (flag := condition_name sq d) in *. cbn [pexec_with pb_expr pb_var].
    change (seval _ (PVar "true")) with (@inl value stop (VBool true)). cbn [mbind Res_bind].
    apply (flag_loop_runs no_flag fuel flag (test c) _ (sexec (S fuel) t')); try done.
    + intros Hx. by apply (Hx sq d).
    + intros s1 s2 Hs. rewrite (seval_agree no_flag s1 s2); [done|intros; apply Hn; part_names|done].
    + intros s1 s2 Hs. eapply IH; [done|lia|intros; apply Hn; part_names|done].
    + intros s1 r ret Hr. by eapply sexec_frame.
    + intros s1 Hs1. cbn [pexec_with]. destruct (seval _ c) as [x|]; [|done]. cbn [mbind Res_bind].
      destruct (truth x) as [[]|]; [done| |done]. cbn [mbind Res_bind].
      unfold p_assigned_value. cbn. by rewrite Hs1.
    + apply agree_insert_r; [|done]. intros Hx. by apply (Hx sq d).
    + by rewrite lookup_insert_eq.
  - apply bind_Ok in Hs as (ss' & [Hlen Hi]%traverse_seq_Ok & [= <-]). rewrite Forall_forall in IH.
    eapply refines_seq; [|done]. apply Forall2_same_length_lookup. split; [done|].
    intros i st st' Hst Hst' s1 s2 Hs. apply list_elem_of_lookup_2 in Hst as Hin.
    eapply IH; [done|by eapply Hi|done| |done]. intros x Hx. apply Hn. by eapply elem_of_concat_fmap.
Qed.
End flatten_meaning.

(** ** Transactions over local variables stay so *)

Lemma inline_local menv e : (forall x b, menv !! x = Some b -> is_builtin x = false) ->
  p_is_local_expr (inline_expr menv e) = true ->
  p_is_local_expr e = true /\
  forall n b, n ∈ pvars e -> menv !! n = Some b -> p_is_local_expr b = true.
Proof.
  intros Hm. induction e as [s f IH| | | |l s IH| |x|i|op L R IHL IHR|] using pexpr_ind'; simpl; intros Hl; try done.
  - by apply IH.
  - by apply IH.
  - unfold inline_var in Hl. destruct (menv !! x) as [b|] eqn:Hx; simpl in Hl.
    + split; [|by intros n b' ->%list_elem_of_singleton ?; simplify_eq].
      rewrite (Hm _ _ Hx). apply orb_true_r.
    + split; [done|]. intros n b ->%list_elem_of_singleton ?. congruence.
  - split; [done|]. intros n b Hn%elem_of_nil. done.
  - apply andb_true_iff in Hl as [[? Hl']%IHL [? Hr']%IHR]. split; [by apply andb_true_iff|].
    intros n b [Hn|Hn]%elem_of_app; eauto.
Qed.

Lemma inline_none_local e : p_is_local_expr (inline_expr ∅ e) = p_is_local_expr e.
Proof. induction e using pexpr_ind'; simpl; try done; congruence. Qed.

Lemma layer_name_not_builtin r sq d : is_builtin (layer_name r sq d) = false.
Proof. apply bool_decide_eq_false. unfold layer_name. destruct r; rewrite !elem_of_cons, elem_of_nil; naive_solver. Qed.

Lemma layer_local sq d e r bound e' : layer sq d e r bound e' -> layer_name r sq d ∉ pvars e ->
  p_is_local_expr e = true ->
  r = false /\ p_is_local_expr bound = true /\ p_is_local_expr e' = true.
Proof.
  intros Hl Hn He. pose proof (layer_used _ _ _ _ _ _ Hl Hn) as Hu.
  rewrite <- inline_none_local, <- (layer_inline _ _ _ _ _ _ Hl ∅ Hn) in He.
  apply inline_local in He as [He' Hb].
  - specialize (Hb _ _ Hu (lookup_insert_eq _ _ _)). destruct r; [done|].
    simpl in Hb. by rewrite inline_none_local in Hb.
  - intros x b [[<- _]|[_ Hx]]%lookup_insert_Some; [apply layer_name_not_builtin|].
    by rewrite lookup_empty in Hx.
Qed.

Lemma fieldpointer_not_local e : contains_fieldpointer_ref e = Ok true -> p_is_local_target e = false.
Proof. intros He. unfold p_is_local_target. by rewrite fieldpointer_no_target. Qed.

Lemma flattens_local sq d s s' : flattens sq d s s' -> names_below d s ->
  p_is_local s = true -> p_is_local s' = true.
Proof.
  induction 1 as [sq d s C e r bound e' s' Hin Hl Hd Hfl IH
    |sq d [v e] body body' Hf Hd Hfl IH|sq d b body body' Hf Hd Hfl IH|
    |sq d n h exprs vars r bound e' ret s' Hl Hd Hfl IH Ho| | |sq d c body body' Hc Hd Hfl IH
    |sq d c t t' e e' Hc Hd Hft IHt Hfe IHe|sq d ss ss' Hlen Hall IH]; intros Hn Ht; try done.
  - pose proof (layer_step_ready _ _ _ _ _ _ _ _ Hin Hl ltac:(lia) Hn) as Hb.
    assert (Hfresh : layer_name r sq d ∉ pvars e).
    { intros Hx. apply (layer_name_not_low r sq d); [lia|]. apply (names_low d s Hn).
      destruct (named_pnames _ _ _ Hin) as [xs Hxs]. rewrite (named_statement _ _ _ Hin), Hxs. by left. }
    apply IH; [by destruct r, Hb|]. clear Hb IH.
    assert (He : p_is_local_expr e = true).
    { destruct Hin; simpl in Ht; rewrite ?andb_true_iff in Ht; try tauto; try done.
      by destruct Ht as [Ht _]; rewrite fieldpointer_not_local in Ht. }
    destruct (layer_local _ _ _ _ _ _ Hl Hfresh He) as (-> & Hbound & He').
    destruct Hin; simpl in *; rewrite ?andb_true_iff in *; try tauto; try done.
    by destruct Ht as [Ht _]; rewrite fieldpointer_not_local in Ht.
  - simpl in *. apply andb_true_iff in Ht as [-> Ht]. apply IH; [|done].
    eapply names_below_part; [done|part_names].
  - simpl in *. apply andb_true_iff in Ht as [-> Ht]. apply IH; [|done].
    eapply names_below_part; [done|part_names].
  - simpl in *. rewrite !andb_true_iff in Ht. destruct Ht as [[-> Ht] He]. simpl.
    rewrite IHt, IHe; try done; (eapply names_below_part; [done|part_names]).
  - simpl in *. apply forallb_forall. intros st' [i Hi']%list_elem_of_In%list_elem_of_lookup.
    destruct (lookup_lt_is_Some_2 ss i) as [st Hi]; [rewrite <- Hlen; by eapply lookup_lt_Some|].
    apply list_elem_of_lookup_2 in Hi as Hin. eapply IH; [done..| |].
    + eapply names_below_sub; [done|]. intros n Hx. by eapply elem_of_concat_fmap.
    + apply (proj1 (forallb_forall _ _) Ht). by apply list_elem_of_In.
Qed.

Lemma desugar_local sq d s s' : desugar_while sq d s = Ok s' -> p_is_local s = true ->
  p_is_local s' = true /\ tests_variables s' = true.
Proof.
  revert sq d s'. induction s as [[v e] s IH|b s IH|m h exprs vars|v e|e|c t e IHt IHe|c s IH|ss IH]
    using pstmt_ind'; intros sq d s' Hs Hl; cbn [desugar_while] in Hs; simpl in Hl;
    rewrite ?andb_true_iff in Hl; try done.
  - apply bind_Ok in Hs as (? & [-> ?]%char_arg_Ok & Hs). apply bind_Ok in Hs as (body & Hb & [= <-]).
    destruct Hl as [He Hl]. simpl. rewrite He. by eapply IH.
  - injection Hs as <-. simpl. by rewrite !andb_true_iff.
  - injection Hs as <-. by simpl.
  - apply bind_Ok in Hs as (? & [-> ?]%char_arg_Ok & Hs). apply bind_Ok in Hs as (t' & Ht & Hs).
    apply bind_Ok in Hs as (? & [-> ?]%char_arg_Ok & Hs). apply bind_Ok in Hs as (e' & He' & [= <-]).
    destruct (IHt _ _ _ Ht), (IHe _ _ _ He'); [tauto..|]. simpl. rewrite !andb_true_iff. tauto.
  - apply bind_Ok in Hs as (? & [-> ?]%char_arg_Ok & Hs). apply bind_Ok in Hs as (t' & Ht & [= <-]).
    destruct (IH _ _ _ Ht) as [Hlt Htt]; [tauto|]. destruct Hl as [Hc _].
    simpl. by rewrite Hc, Hlt, Htt.
  - apply bind_Ok in Hs as (ss' & [Hlen Hi]%traverse_seq_Ok & [= <-]). rewrite Forall_forall in IH.
    assert (Hss : forall st', st' ∈ ss' -> p_is_local st' = true /\ tests_variables st' = true).
    { intros st' [i Hi']%list_elem_of_lookup.
      destruct (lookup_lt_is_Some_2 ss i) as [st Hst]; [rewrite <- Hlen; by eapply lookup_lt_Some|].
      apply list_elem_of_lookup_2 in Hst as Hin. eapply IH; [done|by eapply Hi|].
      apply (proj1 (forallb_forall _ _) Hl). by apply list_elem_of_In. }
    simpl. split; apply forallb_forall; intros st' Hin%list_elem_of_In; by apply Hss.
Qed.

(** ** Transactions *)

(** A program names none of the variables flattening makes. *)
Definition source_names (s : pstmt) : Prop := forall x, x ∈ pnames s -> generated_at x = None /\ no_flag x.

Definition check_source_names (s : pstmt) : bool :=
  forallb (fun x => bool_decide (generated_at x = None) &&
                    negb (String.prefix "while" x && (String.length x =? 7)%nat)) (pnames s).

Lemma check_source_names_sound s : check_source_names s = true -> source_names s.
Proof.
  intros Hs x Hx%list_elem_of_In. apply (proj1 (forallb_forall _ _) Hs) in Hx.
  apply andb_true_iff in Hx as [Hg%bool_decide_eq_true Hw]. split; [done|]. by intros sq d ->.
Qed.

Section transactions.
Context `{Remote}.

Lemma flatten_expressions_local a s : source_names a -> flatten_expressions a = Ok s ->
  p_is_local a = true -> p_is_local s = true.
Proof.
  intros Hn Hs Hl. apply bind_Ok in Hs as (looped & Hd & Hs).
  destruct (desugar_local _ _ _ _ Hd Hl) as [Hl' _]. apply flatten_exprs_flattens in Hs; [|lia].
  apply (flattens_local _ _ _ _ Hs); [|done]. apply user_names_below.
  eapply desugared_user; [by eapply desugar_while_spec|]. intros x Hx. by apply Hn.
Qed.

(** What a transaction returns when it is evaluated strictly, it returns flattened. *)
Lemma flatten_expressions_returns a s args fuel v : source_names a -> p_is_local a = true ->
  flatten_expressions a = Ok s -> sexec_transaction fuel a args = inl v ->
  pexec_transaction (S fuel) s args = inl v.
Proof.
  intros Hn Hl Hs Hv. apply bind_Ok in Hs as (looped & Hd & Hs).
  destruct (desugar_local _ _ _ _ Hd Hl) as [_ Ht]. apply flatten_exprs_flattens in Hs; [|lia].
  unfold sexec_transaction in Hv. destruct (sexec fuel a _) as [[r ret]|] eqn:Hr; [|done].
  assert (Hn1 : forall x, x ∈ pnames a -> no_flag x) by (intros x Hx; by apply Hn).
  destruct (desugar_runs _ _ _ _ Hd ltac:(lia) Hn1 fuel _ _ (reflexivity _) _ _ Hr) as (r1 & Hr1 & _).
  assert (Hu : user_names looped).
  { eapply desugared_user; [by eapply desugar_while_spec|]. intros x Hx. by apply Hn. }
  destruct (flattens_runs _ _ _ _ Hs (user_names_below 1 _ Hu) Ht (S fuel) _ _ _ Hr1) as (r2 & Hr2 & _).
  unfold pexec_transaction. by rewrite (sexec_pexec _ _ _ _ Hr2).
Qed.

(** C3: flattening keeps the meaning of transactions over local variables that use none of
  the names flattening makes ([source_names]).  When strict evaluation of the parsed
  transaction returns a value, so do its interpreter and the one of the flattened
  transaction, which needs one more iteration per loop for the flag to be cleared. *)
Theorem flatten_expressions_meaning a s args fuel v : source_names a -> p_is_local a = true ->
  flatten_expressions a = Ok s -> sexec_transaction fuel a args = inl v ->
  pexec_transaction fuel a args = inl v /\ pexec_transaction (S fuel) s args = inl v.
Proof.
  intros Hn Hl Hs Hv. split; [|by apply (flatten_expressions_returns a)].
  unfold sexec_transaction in Hv. destruct (sexec fuel a _) as [r|] eqn:Hr; [|done].
  unfold pexec_transaction. by rewrite (sexec_pexec _ _ _ _ Hr).
Qed.
End transactions.
