(* ===== verification/TypecheckSound.v ===== *)
(** * What type checking promises

    The checker only adds annotations ([typecheck_annotates]), and a transaction
    over local variables that it accepts does not go wrong: run by the
    reference interpreter it never reads a variable that is not bound, never
    applies an operator or a field access to a value of another type, and what
    it returns has a type of one of its [return]s. *)
From S2P Require Import Prelude TypeLists Labels TypedAst PhaseApi Runtime Holders RunPhase.
From S2P Require Import SplitSpec ParseAst Typecheck Source SplitPhases.

#[local] Open Scope Z_scope.

(** ** Annotations *)

Section annotations.
Context `{UserLabels} `{TypeLists} `{CppTypes}.

Lemma typecheck_var_Ok env v e : typecheck_var env v = Ok e ->
  exists l y, get_binding env v = Ok (l, y) /\ e = EVar l y v.
Proof. intros He. unfold typecheck_var in He. outcome_inv. destruct x as [l y]. eauto. Qed.

Lemma typecheck_vars_Ok env vars args : traverse (typecheck_var env) vars = Ok args ->
  Forall2 (fun a v => exists l y, a = EVar l y v) args vars.
Proof.
  intros Ht%traverse_Ok. induction Ht as [|v a vars args Hv _ IH]; constructor; [|done].
  destruct (typecheck_var_Ok env v a Hv) as (l & y & _ & ->). eauto.
Qed.

Lemma with_expr_label_annotates l e e' p : with_expr_label l e = Ok e' ->
  annotates_expr e p -> annotates_expr e' p.
Proof.
  intros He Ha. induction Ha; simpl in He; outcome_inv; try (by constructor); [|constructor; auto].
  apply complete_expr_Ok in He as [-> _]. by constructor.
Qed.

Lemma typecheck_expr_annotates env p e : typecheck_expr env p = Ok e -> annotates_expr e p.
Proof.
  revert e. induction p as [s f IH|s f IH|s IH|l h IH|l h IH|h IH|v|i|op L R IHL IHR|n h exprs vars IH _]
    using pexpr_ind'; intros e He; simpl in He; try discriminate He; outcome_inv;
    try (apply complete_expr_Ok in He as [-> _]); try (constructor; auto; fail).
  - eapply with_expr_label_annotates; [done|]. constructor. auto.
  - apply typecheck_var_Ok in He as (l & y & _ & ->). constructor.
  - destruct exprs; [|done]. outcome_inv. apply complete_expr_Ok in He as [-> _].
    constructor; [auto|by eapply typecheck_vars_Ok].
Qed.

Lemma checked_seq_Forall2 (P : stmt -> pstmt -> Prop) d env n ss ss' :
  Forall (fun s => forall n s', typecheck_stmt n d env s = Ok s' -> P s' s) ss ->
  checked_seq d env n ss ss' -> Forall2 P ss' ss.
Proof. intros Hp Hc. induction Hc; inversion Hp; subst; constructor; eauto. Qed.

(** Type checking adds labels and types and changes nothing else. *)
Lemma typecheck_annotates n d env p t : typecheck_stmt n d env p = Ok t -> annotates t p.
Proof.
  revert n d env t. induction p as [[v e] s IH|[v e] s IH|op h exprs vars|v e|e|c s1 s2 IH1 IH2|c s IH|ss IH]
    using pstmt_ind'; intros n d env t Ht.
  8: { apply typecheck_sequence in Ht as (ss' & -> & Hss). constructor.
       eapply checked_seq_Forall2; [|done]. eapply Forall_impl; [exact IH|]. eauto. }
  all: cbn [typecheck_stmt] in Ht; try (destruct exprs; [|discriminate Ht]); outcome_inv;
    apply complete_stmt_Ok in Ht as [-> _].
  - apply (ann_let _ (Binding _ _ _ _)); simpl; [by eapply typecheck_expr_annotates|eauto].
  - apply (ann_let_remote _ (Binding _ _ _ _)); simpl; [by eapply typecheck_expr_annotates|eauto].
  - constructor; [by eapply typecheck_expr_annotates|by eapply typecheck_vars_Ok].
  - constructor; by eapply typecheck_expr_annotates.
  - constructor; by eapply typecheck_expr_annotates.
  - constructor; [by eapply typecheck_expr_annotates|eauto..].
  - constructor; [by eapply typecheck_expr_annotates|eauto].
Qed.
End annotations.

(** ** Values of types *)

Section values.
Context `{CppTypes} `{Handles}.

(** A value of a class has at least the fields the class declares. *)
Inductive has_type : value -> ty -> Prop :=
| type_int i : has_type (VInt i) TInt
| type_bool b : has_type (VBool b) TBool
| type_tombstone n : has_type (VTombstone n) TTombstone
| type_struct fs n :
    (forall f t, field_of n f = Ok t ->
      exists x, List.find (fun x => bool_decide (x.1 = f)) fs = Some x /\ has_type x.2 t) ->
    has_type (VStruct fs) (TStruct n)
| type_handle h l t : has_type (VHandle h) (THandle l t)
| type_list c : has_type (VList c) TListStub.

(** What a variable reference reads *)
Definition bound_value (s : gmap string value) (v : string) : option value :=
  if decide (v = "true"%string) then Some (VBool true)
  else if decide (v = "false"%string) then Some (VBool false)
  else s !! v.

Definition is_local_binding (b : var_binding) : bool :=
  match b with type_binding _ _ _ local => true | _ => false end.

(** The variables in scope have values of their types. *)
Record in_step (bs : list var_binding) (s : gmap string value) : Prop := {
  step_local : forallb is_local_binding bs = true;
  step_builtin v : v ∈ ["true"; "false"; list_stub_name]%string -> v ∈ binding_name <$> bs;
  step_names : NoDup (binding_name <$> bs);
  step_value v t l : type_binding v t l local ∈ bs -> v <> list_stub_name ->
    exists x, bound_value s v = Some x /\ has_type x t }.

Lemma in_step_prefix bs b s : in_step (bs ++ [b]) s ->
  (forall v, v ∈ ["true"; "false"; list_stub_name]%string -> v ∈ binding_name <$> bs) ->
  in_step bs s.
Proof.
  intros [Hl _ Hn Hv] Hb. split; [|done| |].
  - rewrite forallb_app in Hl. by apply andb_true_iff in Hl as [? _].
  - rewrite fmap_app in Hn. by apply NoDup_app in Hn as [? _].
  - intros v t l Hin. apply (Hv v t l), elem_of_app. by left.
Qed.

Lemma bound_value_insert s v w x : v <> "true"%string -> v <> "false"%string ->
  bound_value (<[v := x]> s) w = if decide (v = w) then Some x else bound_value s w.
Proof.
  intros ??. unfold bound_value. destruct (decide (v = w)) as [<-|Hne].
  - by rewrite !decide_False, lookup_insert_eq by done.
  - by rewrite lookup_insert_ne.
Qed.

(** Declaring a variable *)
Lemma in_step_declare bs s v t l x : in_step bs s -> v ∉ binding_name <$> bs -> has_type x t ->
  in_step (bs ++ [type_binding v t l local]) (<[v := x]> s).
Proof.
  intros [Hl Hb Hn Hv] Hfresh Hx. split.
  - by rewrite forallb_app, Hl.
  - intros w Hw. rewrite fmap_app, elem_of_app. left. by apply Hb.
  - rewrite fmap_app. apply NoDup_app. split_and!; [done| |apply NoDup_singleton].
    intros w Hw Hw'%list_elem_of_singleton. by subst.
  - assert (v <> "true"%string /\ v <> "false"%string) as [Ht Hf].
    { split; intros ->; apply Hfresh, Hb; set_solver. }
    intros w t' l' [Hw|Hw%list_elem_of_singleton]%elem_of_app Hls.
    + rewrite bound_value_insert by done. rewrite decide_False; [by eapply Hv|].
      intros <-. apply Hfresh. by apply (list_elem_of_fmap_2 binding_name) in Hw.
    + injection Hw as -> -> ->. exists x. by rewrite bound_value_insert, decide_True.
Qed.

(** Assigning a variable *)
Lemma in_step_assign bs s v t l x : in_step bs s -> type_binding v t l local ∈ bs ->
  is_builtin v = false -> has_type x t -> in_step bs (<[v := x]> s).
Proof.
  intros [Hl Hb Hn Hv] Hin Hnb Hx. split; [done..|].
  assert (v <> "true"%string /\ v <> "false"%string) as [Ht Hf] by (split; by intros ->).
  intros w t' l' Hw Hls. rewrite bound_value_insert by done.
  destruct (decide (v = w)) as [<-|Hne]; [|by eapply Hv]. exists x. split; [done|].
  assert (type_binding v t l local = type_binding v t' l' local) as [= -> ->]; [|done].
  by apply (NoDup_fmap_elem binding_name bs).
Qed.
End values.

(** ** The environment of a transaction *)

Section initial.
Context `{CppTypes} `{Handles}.

Definition names_distinct (args : list argument) (p : pstmt) : bool :=
  bool_decide (NoDup ((binding_name <$> initial_bindings args) ++ p_declared p)).

Lemma initial_in_step args p : names_distinct args p = true ->
  Forall (fun a => has_type (arg_value a) (arg_type a)) args ->
  in_step (initial_bindings args) (arg_env args).
Proof.
  intros Hn%bool_decide_eq_true Ha. apply NoDup_app in Hn as [Hn _]. split.
  - unfold initial_bindings. rewrite forallb_app. simpl.
    clear. induction args as [|a args IH]; [done|]. exact IH.
  - intros v Hv. unfold initial_bindings. rewrite fmap_app, elem_of_app. left.
    rewrite !elem_of_cons, elem_of_nil in Hv. set_solver.
  - done.
  - intros v t l Hin Hls. unfold bound_value. unfold initial_bindings in Hin.
    apply elem_of_app in Hin as [Hin|Hin].
    + unfold builtin_bindings in Hin. rewrite !elem_of_cons, elem_of_nil in Hin.
      destruct Hin as [[= -> -> ->]|[[= -> -> ->]|[[= -> -> ->]|[]]]]; [| |done].
      * exists (VBool true). split; [done|constructor].
      * exists (VBool false). split; [done|constructor].
    + apply list_elem_of_fmap in Hin as (a & [= -> -> ->] & Hina).
      assert (Hnb : arg_name a ∉ (binding_name <$> builtin_bindings)).
      { unfold initial_bindings in Hn. rewrite fmap_app in Hn. apply NoDup_app in Hn as (_ & Hd & _).
        intros Hb. apply (Hd _ Hb). rewrite <- list_fmap_compose. by apply (list_elem_of_fmap_2 arg_name). }
      rewrite !decide_False by (intros Heq; apply Hnb; rewrite Heq; set_solver).
      exists (arg_value a). split; [|by apply (proj1 (Forall_forall _ _) Ha)].
      unfold arg_env. apply elem_of_list_to_map_1.
      * rewrite <- list_fmap_compose. unfold initial_bindings in Hn. rewrite fmap_app in Hn.
        apply NoDup_app in Hn as (_ & _ & Hn). by rewrite <- list_fmap_compose in Hn.
      * by apply (list_elem_of_fmap_2 (fun a => (arg_name a, arg_value a))).
Qed.
End initial.

(** ** Expressions *)

Section sound.
Context `{UserLabels} `{TypeListLaws} `{CppTypes} `{Remote}.
Hypothesis no_class_operators : forall op l r t, class_binop op l r <> Ok t.

Lemma get_binding_local env v l y : forallb is_local_binding (env_bindings env) = true ->
  get_binding env v = Ok (l, y) -> type_binding v y l local ∈ env_bindings env.
Proof using Type*.
  intros Hloc Hg. unfold get_binding in Hg. outcome_inv.
  destruct (typelist_find _ _) as [[n0 p0]|] eqn:Hf; [|done].
  apply typelist_find_some in Hf as [Hb Hn%bool_decide_eq_true]. simpl in Hn, Hg.
  subst n0. injection Hg as ->.
  match goal with Ht : traverse _ _ = Ok _ |- _ => apply traverse_Ok in Ht as Hbs end.
  apply list_elem_of_lookup in Hb as [i Hi].
  destruct (Forall2_lookup_r _ _ _ _ _ Hbs Hi) as (b' & Hb' & Hinst).
  apply list_elem_of_lookup_2 in Hb'. apply (proj1 (forallb_elem _ _) Hloc) in Hb' as Hl'.
  destruct b' as [n t l' []|]; try done. destruct t; simpl in Hinst; by outcome_inv.
Qed.

Lemma promote_typed x t : is_integral t = true -> has_type x t -> exists z, promote x = inl z.
Proof. destruct 2; try done; simpl; eauto. Qed.

Lemma truth_bool x : has_type x TBool -> exists b, truth x = inl b.
Proof. inversion 1; unfold truth; simpl; eauto. Qed.

Definition sound_value (r : Res value) (y : ty) : Prop :=
  match r with inl x => has_type x y | inr e => e = Throws SignedOverflow end.

Lemma arith_sound z : sound_value (arith z) TInt.
Proof. unfold arith. case_match; simpl; [constructor|done]. Qed.

Lemma BinOp_yield_Ok op yl yr y : BinOp_yield op yl yr = Ok y ->
  known_op op = true /\ is_integral yl = true /\ is_integral yr = true /\
  y = if arithmetic_op op then TInt else TBool.
Proof using Type*.
  intros Hy. unfold BinOp_yield in Hy. outcome_inv.
  destruct (is_integral yl), (is_integral yr); simpl in Hy;
    try (by destruct (no_class_operators _ _ _ _ Hy)). by injection Hy as <-.
Qed.

Lemma binop_sound op l r yl yr y : BinOp_yield op yl yr = Ok y ->
  op <> "&"%char -> op <> "|"%char ->
  has_type l yl -> has_type r yr -> sound_value (binop op l r) y.
Proof using Type*.
  intros (Hop & Hl & Hr & ->)%BinOp_yield_Ok Hand Hor Htl Htr.
  destruct (promote_typed l yl Hl Htl) as [zl Hzl]. destruct (promote_typed r yr Hr Htr) as [zr Hzr].
  unfold binop. rewrite Hzl, Hzr. simpl.
  unfold known_op in Hop. apply bool_decide_eq_true in Hop. rewrite !elem_of_cons, elem_of_nil in Hop.
  destruct Hop as [->|[->|[->|[->|[->|[->|[->|[->|[->|[]]]]]]]]]]; try done; simpl;
    try apply arith_sound; try constructor.
  case_match; [done|apply arith_sound].
Qed.

Lemma truth_typed x t : is_integral t = true -> has_type x t -> exists b, truth x = inl b.
Proof. intros Ht Hx. unfold truth. destruct (promote_typed x t Ht Hx) as [z ->]. simpl. eauto. Qed.

Lemma with_expr_label_yield l e e' : with_expr_label l e = Ok e' -> expr_yield e' = expr_yield e.
Proof.
  destruct e; simpl; intros He; outcome_inv; try done. by apply complete_expr_Ok in He as [-> _].
Qed.

Lemma var_sound pc bs s v e : in_step bs s -> typecheck_var (TypeEnv pc bs) v = Ok e ->
  v <> list_stub_name ->
  exists x, bound_value s v = Some x /\ has_type x (expr_yield e) /\
    exists l, type_binding v (expr_yield e) l local ∈ bs.
Proof using Type*.
  intros Hs (l & y & Hg & ->)%typecheck_var_Ok Hv.
  apply get_binding_local in Hg; [|apply Hs]. simpl in Hg.
  destruct (step_value _ _ Hs v y l Hg Hv) as (x & Hx & Ht). eauto.
Qed.

Lemma bool_op_sound (L R : Res value) yl yr b : is_integral yl = true -> is_integral yr = true ->
  sound_value L yl -> sound_value R yr ->
  sound_value (l ← L; bl ← truth l;
    if Bool.eqb bl b then r ← R; br ← truth r; inl (VBool br) else inl (VBool (negb b))) TBool.
Proof.
  intros Hl Hr HL HR. destruct L as [l|]; simpl in *; [|done].
  destruct (truth_typed l yl Hl HL) as [bl ->]. simpl. case_match; [|constructor].
  destruct R as [r|]; simpl in *; [|done].
  destruct (truth_typed r yr Hr HR) as [br ->]. constructor.
Qed.

Lemma get_field_sound x n f t : has_type x (TStruct n) -> field_of n f = Ok t ->
  sound_value (get_field x f) t.
Proof.
  inversion 1 as [| | |fs ? Hf| |]; subst. intros Ht. destruct (Hf f t Ht) as (y & Hy & Hty).
  simpl. by rewrite Hy.
Qed.

Lemma peval_sound pc bs s p e : in_step bs s -> typecheck_expr (TypeEnv pc bs) p = Ok e ->
  p_is_local_expr p = true -> sound_value (peval (fun v => s !! v) p) (expr_yield e).
Proof using Type*.
  intros Hs. revert e. induction p as [obj f IH|? ? ?|? ?|? ? ?|l h IH|? ?|v|i|op L R IHL IHR|? ? ? ? ? ?]
    using pexpr_ind'; intros e He Hl; simpl in He, Hl; try discriminate Hl; outcome_inv.
  - apply complete_expr_Ok in He as [-> _]. simpl.
    specialize (IH _ ltac:(eassumption) Hl). destruct (peval _ obj) as [z|]; simpl in *; [|done].
    destruct (expr_yield _) eqn:Hy; try discriminate. by eapply get_field_sound.
  - rewrite (with_expr_label_yield _ _ _ He). simpl. by apply IH.
  - assert (Hv : v <> list_stub_name) by (intros ->; done).
    destruct (var_sound pc bs s v e Hs He Hv) as (x & Hx & Ht & _).
    simpl. unfold bound_value in Hx. repeat case_match; simplify_eq; done.
  - simpl. constructor.
  - apply complete_expr_Ok in He as [-> _]. apply andb_true_iff in Hl as [HlL HlR].
    specialize (IHL _ ltac:(eassumption) HlL). specialize (IHR _ ltac:(eassumption) HlR). simpl.
    match goal with Hy : BinOp_yield _ _ _ = Ok _ |- _ => pose proof (BinOp_yield_Ok _ _ _ _ Hy) as (_ & Hil & Hir & Hyy) end.
    case_decide; [|case_decide]; subst; simpl.
    + pose proof (bool_op_sound _ _ _ _ true Hil Hir IHL IHR) as Hb.
      destruct (peval _ L) as [l|]; [|done]. simpl in *. by destruct (truth l) as [[]|].
    + pose proof (bool_op_sound _ _ _ _ false Hil Hir IHL IHR) as Hb.
      destruct (peval _ L) as [l|]; [|done]. simpl in *. by destruct (truth l) as [[]|].
    + destruct (peval _ L) as [l|]; [|done]. destruct (peval _ R) as [r|]; [|done]. simpl in *.
      by eapply binop_sound.
Qed.

(** ** Statements *)

(** The types of the [return]s of a transaction *)
Fixpoint returned (s : stmt) : list ty :=
  match s with
  | SReturn _ e => [expr_yield e]
  | SLet _ _ body | SLetRemote _ _ body | SWhile _ _ body _ => returned body
  | SIf _ _ t e => returned t ++ returned e
  | SSequence _ ss => concat (returned <$> ss)
  | _ => []
  end.

Definition sound_result (bs : list var_binding) (ys : list ty)
    (r : Res (gmap string value * option value)) : Prop :=
  match r with
  | inl (s, ret) => in_step bs s /\ forall v, ret = Some v -> exists y, y ∈ ys /\ has_type v y
  | inr e => e = NoFuel \/ e = Throws SignedOverflow
  end.

Lemma sound_weaken bs ys ys' r : sound_result bs ys r -> (forall y, y ∈ ys -> y ∈ ys') ->
  sound_result bs ys' r.
Proof. intros Hr Hy. destruct r as [[s ret]|]; simpl in *; [|done]. naive_solver. Qed.

Lemma exec_loop_sound bs ys n cond body s :
  (forall s, in_step bs s -> exists r, cond s = r /\
     match r with inl _ => True | inr e => e = Throws SignedOverflow end) ->
  (forall s, in_step bs s -> sound_result bs ys (body s)) ->
  in_step bs s -> sound_result bs ys (exec_loop n cond body s).
Proof.
  intros Hc Hb. revert s. induction n as [|n IH]; intros s Hs; simpl;
    destruct (Hc s Hs) as ([b|e] & -> & He); simpl; auto; destruct b; simpl; auto; try (by split).
  specialize (Hb s Hs). destruct (body s) as [[s' [v|]]|e]; simpl in *; auto. apply IH, Hb.
Qed.

Lemma set_field_sound x n f t w : has_type x (TStruct n) -> field_of n f = Ok t -> has_type w t ->
  exists y, set_field x f w = inl y /\ has_type y (TStruct n).
Proof.
  inversion 1 as [| | |fs ? Hf| |]; subst. intros Ht Hw. simpl.
  destruct (Hf f t Ht) as (z & Hz & _).
  assert (Hex : existsb (fun x => bool_decide (x.1 = f)) fs = true).
  { apply List.find_some in Hz as [Hin Hz]. apply existsb_exists. eauto. }
  rewrite Hex. eexists. split; [done|]. constructor. intros g u Hu.
  destruct (Hf g u Hu) as (y & Hy & Hty). clear -Hy Hty Hw Ht Hu.
  induction fs as [|[h v] fs IH]; [done|]. simpl in *. destruct (decide (h = f)) as [->|Hne]; simpl.
  - destruct (decide (f = g)) as [->|Hfg].
    + rewrite bool_decide_true by done. exists (g, w). split; [done|]. simpl. congruence.
    + rewrite bool_decide_false in Hy |- * by done. auto.
  - case_bool_decide; [|auto]. exists (h, v). split; [done|]. by injection Hy as <-.
Qed.

(** A target is a variable in scope, of the type its field has. *)
Lemma typecheck_target pc bs s p e : in_step bs s -> typecheck_expr (TypeEnv pc bs) p = Ok e ->
  p_is_local_target p = true ->
  exists v t l x, type_binding v t l local ∈ bs /\ is_builtin v = false /\ s !! v = Some x /\
    has_type x t /\
    ((p_target p = Some (v, None) /\ t = expr_yield e) \/
     exists f n, p_target p = Some (v, Some f) /\ t = TStruct n /\ field_of n f = Ok (expr_yield e)).
Proof using Type*.
  intros Hs He Hl.
  assert (Hvar : forall v y l, get_binding (TypeEnv pc bs) v = Ok (l, y) -> is_builtin v = false ->
    exists x, type_binding v y l local ∈ bs /\ s !! v = Some x /\ has_type x y).
  { intros v y l Hg Hv. apply get_binding_local in Hg; [|apply Hs]. simpl in Hg.
    destruct (step_value _ _ Hs v y l Hg) as (x & Hx & Ht); [by intros ->|]. exists x.
    split_and!; [done| |done]. unfold bound_value in Hx. repeat case_decide; subst; try done. }
  pose proof (typecheck_expr_annotates _ _ _ He) as Ha.
  unfold p_is_local_target in Hl. rewrite <- (annotates_target _ _ Ha) in *. clear Ha.
  revert e He Hl. induction p as [obj f IH|? ? ?|? ?|? ? ?|l h IH|? ?|v|i|op L R ? ?|? ? exprs ? ? ?]
    using pexpr_ind'; intros e He Hl; simpl in He; try discriminate He; outcome_inv;
    try (destruct exprs; [outcome_inv|discriminate He]);
    try (apply complete_expr_Ok in He as [-> _]); try discriminate Hl.
  - destruct x as [lx y v| | | | | | |]; simpl in *; try discriminate Hl.
    assert (Hg : typecheck_expr (TypeEnv pc bs) obj = Ok (EVar lx y v)) by done.
    destruct (IH _ Hg) as (v' & t & l & x & Hin & Hb & Hx & Ht & Hcase); [by apply negb_true_iff in Hl; apply negb_true_iff|].
    simpl in Hcase. destruct Hcase as [[[= <-] ->]|(? & ? & [=] & _)].
    destruct y as [| | | | |n|]; try discriminate. exists v, (TStruct n), l, x. split_and!; try done.
    right. by exists f, n.
  - destruct (IH _ ltac:(eassumption)) as (v & t & l' & x' & Hin & Hb & Hx & Ht & Hcase).
    { destruct x; simpl in *; outcome_inv; try done. by apply complete_expr_Ok in He as [-> _]. }
    exists v, t, l', x'. split_and!; try done. rewrite (with_expr_label_yield _ _ _ He).
    by replace (target e) with (target x) by
      (destruct x; simpl in *; outcome_inv; try done; by apply complete_expr_Ok in He as [-> _]).
  - apply typecheck_var_Ok in He as (l & y & Hg & ->). simpl in *. apply negb_true_iff in Hl.
    destruct (Hvar v y l Hg Hl) as (x & Hin & Hx & Ht). exists v, y, l, x. split_and!; try done. by left.
Qed.

Lemma assignment_sound pc bs s var e' x : in_step bs s ->
  typecheck_expr (TypeEnv pc bs) var = Ok e' -> p_is_local_target var = true ->
  has_type x (expr_yield e') ->
  exists w, p_assigned_value (fun v => s !! v) var x = inl w /\ in_step bs (<[w.1 := w.2]> s).
Proof using Type*.
  intros Hs He Hl Hx.
  destruct (typecheck_target _ _ _ _ _ Hs He Hl) as (v & t & l & z & Hin & Hb & Hz & Ht & Hcase).
  unfold p_assigned_value. destruct Hcase as [[-> ->]|(f & n & -> & -> & Hf)]; rewrite Hz.
  - exists (v, x). split; [done|]. by eapply in_step_assign.
  - destruct (set_field_sound z n f _ x Ht Hf Hx) as (y & Hy & Hty). rewrite Hy. simpl.
    exists (v, y). split; [done|]. by eapply in_step_assign.
Qed.

(** The names of nested declarations differ from those in scope. *)
Definition fresh_names (bs : list var_binding) (s : pstmt) : Prop :=
  NoDup ((binding_name <$> bs) ++ p_declared s).

Lemma fresh_names_part bs s s' : fresh_names bs s ->
  (exists a b, p_declared s = a ++ p_declared s' ++ b) -> fresh_names bs s'.
Proof.
  intros Hf (a & b & Heq). unfold fresh_names in *. rewrite Heq in Hf.
  apply NoDup_app in Hf as (Hn & Hd & (_ & _ & (Hr & _ & _)%NoDup_app)%NoDup_app).
  apply NoDup_app. split_and!; [done| |done]. intros x Hx Hx'. apply (Hd x Hx). set_solver.
Qed.

(** Type soundness, for a statement in its environment *)
Lemma pexec_sound n d pc bs s fuel p t : typecheck_stmt n d (TypeEnv pc bs) p = Ok t ->
  p_is_local p = true -> fresh_names bs p -> in_step bs s ->
  sound_result bs (returned t) (pexec fuel p s).
Proof using Type*.
  revert n d pc bs s t. induction p as [[v e] p IH|? ? ?|? ? ? ?|v e|e|c p1 p2 IH1 IH2|c p IH|ss IH]
    using pstmt_ind'; intros sq d pc bs s t Ht Hl Hf Hs; try discriminate Hl.
  6: { apply typecheck_sequence in Ht as (ss' & -> & Hss). simpl. revert s Hs.
       induction Hss as [k|m p t ss ss' Hp Hss IHss]; intros s Hs; [done|].
       simpl in Hl. apply andb_true_iff in Hl as [Hl1 Hl2]. inversion IH as [|? ? IH1 IH2]; subst.
       assert (Hfp : fresh_names bs p).
       { eapply fresh_names_part; [exact Hf|]. by exists [], (concat (p_declared <$> ss)). }
       assert (Hfs : fresh_names bs (PSequence ss)).
       { eapply fresh_names_part; [exact Hf|]. exists (p_declared p), []. simpl. by rewrite app_nil_r. }
       specialize (IH1 _ _ _ _ s _ Hp Hl1 Hfp Hs).
       destruct (pexec fuel p s) as [[s' [x|]]|]; cbn [mbind Res_bind snd]; [| |done].
       - eapply sound_weaken; [exact IH1|]. intros y Hy. rewrite fmap_cons. simpl. rewrite elem_of_app. by left.
       - eapply sound_weaken; [apply (IHss IH2 Hl2 Hfs), IH1|].
         intros y Hy. rewrite fmap_cons. simpl. rewrite elem_of_app. by right. }
  all: cbn [typecheck_stmt] in Ht; outcome_inv; apply complete_stmt_Ok in Ht as [-> Hok];
    simpl in Hl, Hok |- *; rewrite ?andb_true_iff in Hl.
  - destruct Hl as [Hle Hlp].
    match goal with He : typecheck_expr _ _ = Ok ?x, Hb : typecheck_stmt _ _ _ p = Ok ?y |- _ =>
      rename x into e', He into He', y into t' end.
    pose proof (peval_sound _ _ _ _ _ Hs He' Hle) as Hv.
    cbn [pb_expr] in Hv. destruct (peval _ e) as [x|]; simpl in *; [|by right].
    unfold enhance_env in *. simpl in *.
    assert (Hsb : sound_result (bs ++ [type_binding v (expr_yield e') (LTemp sq d) local])
      (returned t') (pexec fuel p (<[v:=x]> s))).
    { eapply IH; [eassumption|done| |].
      - unfold fresh_names in *. simpl in Hf. by rewrite fmap_app, <- app_assoc.
      - apply in_step_declare; [done| |done]. unfold fresh_names in Hf. simpl in Hf.
        rewrite NoDup_app in Hf. destruct Hf as (_ & Hd & _). intros Hin. apply (Hd v Hin). by left. }
    destruct (pexec fuel p _) as [[s' r]|]; [|done]. destruct Hsb as [Hsb Hr]. split; [|done].
    eapply in_step_prefix; [exact Hsb|apply Hs].
  - destruct Hl as [Hlv Hle].
    match goal with Hv : typecheck_expr _ v = Ok ?x, He : typecheck_expr _ e = Ok ?y |- _ =>
      rename x into v', y into e', Hv into Hv', He into He' end.
    apply andb_true_iff in Hok as [Hy%bool_decide_eq_true _].
    pose proof (peval_sound _ _ _ _ _ Hs He' Hle) as Hv.
    destruct (peval _ e) as [x|]; simpl in *; [|by right]. rewrite <- Hy in Hv.
    destruct (assignment_sound _ _ _ _ _ _ Hs Hv' Hlv Hv) as (w & -> & Hw). simpl. by split.
  - match goal with He : typecheck_expr _ _ = Ok ?x |- _ => rename x into e', He into He' end.
    pose proof (peval_sound _ _ _ _ _ Hs He' Hl) as Hv.
    destruct (peval _ e) as [x|]; simpl in *; [|by right]. split; [done|].
    intros y [= <-]. exists (expr_yield e'). split; [by left|done].
  - destruct Hl as [[Hlc Hl1] Hl2].
    match goal with He : typecheck_expr _ c = Ok ?x |- _ => rename x into c', He into Hc' end.
    apply andb_true_iff in Hok as [Hy%bool_decide_eq_true _].
    pose proof (peval_sound _ _ _ _ _ Hs Hc' Hlc) as Hv.
    destruct (peval _ c) as [x|]; simpl in Hv |- *; [|by right]. rewrite Hy in Hv.
    destruct (truth_bool x Hv) as [[] ->]; simpl.
    + eapply sound_weaken; [eapply IH1; [eassumption|done| |done]|set_solver].
      eapply fresh_names_part; [exact Hf|]. by exists [], (p_declared p2).
    + eapply sound_weaken; [eapply IH2; [eassumption|done| |done]|set_solver].
      eapply fresh_names_part; [exact Hf|]. exists (p_declared p1), []. simpl. by rewrite app_nil_r.
  - destruct Hl as [Hlc Hlp].
    match goal with He : typecheck_expr _ c = Ok ?x |- _ => rename x into c', He into Hc' end.
    apply andb_true_iff in Hok as [Hy%bool_decide_eq_true _].
    apply exec_loop_sound; [| |done].
    + intros s' Hs'. pose proof (peval_sound _ _ _ _ _ Hs' Hc' Hlc) as Hv.
      destruct (peval _ c) as [x|]; simpl in Hv |- *; [|by eexists].
      rewrite Hy in Hv. destruct (truth_bool x Hv) as [b ->]. by exists (inl b).
    + intros s' Hs'. by eapply IH.
Qed.

(** C2: type soundness.  A transaction over local variables that the checker accepts, in
  which no name is declared twice, neither shadowing a declaration nor an argument
  ([names_distinct]), in a program without operators on classes ([no_class_operators]), run
  on arguments of their types, never reads a variable that is not bound, never applies an
  operator, a condition or a field access to a value of another type: it ends with a value
  of the type of one of its [return]s (or without one), overflows, or is still running when
  the fuel is used up. *)
Theorem typecheck_sound args p t fuel :
  typecheck_transaction (initial_bindings args) p = Ok t ->
  p_is_local p = true -> names_distinct args p = true ->
  Forall (fun a => has_type (arg_value a) (arg_type a)) args ->
  match pexec fuel p (arg_env args) with
  | inl (_, ret) => forall v, ret = Some v -> exists y, y ∈ returned t /\ has_type v y
  | inr e => e = NoFuel \/ e = Throws SignedOverflow
  end.
Proof using Type*.
  intros Ht Hl Hn Ha. pose proof (initial_in_step args p Hn Ha) as Hs.
  apply bool_decide_eq_true in Hn. unfold typecheck_transaction in Ht.
  pose proof (pexec_sound _ _ _ _ _ fuel _ _ Ht Hl Hn Hs) as Hr.
  destruct (pexec fuel p _) as [[s r]|]; [apply Hr|done].
Qed.
End sound.
