(* ===== verification/Compile.v ===== *)
(** * The compiler

    Models [pre_transaction_str] of [mtl/transaction.hpp]: [typecheck] and
    [compile], every pass in its order, from the parsed transaction to the
    phases that run.  Whatever the passes do to a transaction over local
    variables, its phases return what the parsed tree returns. *)
From S2P Require Import Prelude TypeLists Labels TypedAst LabelCollect LabelInference Tracking Endorse.
From S2P Require Import PhaseApi Split Runtime Holders RunPhase SplitSpec SplitAst SplitPhases.
From S2P Require Import SplitStore SplitCorrect RecollapseCorrect BackEnd ParseAst Flatten Typecheck.
From S2P Require Import Source Strict FlattenMeaning TypecheckSound.

#[local] Open Scope Z_scope.

(** ** The passes in order *)

Section compile.
Context `{UserLabels} `{TypeLists} `{CppTypes}.

(** [pre_transaction_str::typecheck<bound_values...>()] *)
Definition typecheck (bindings : list var_binding) (parsed : pstmt) : outcome stmt :=
  flattened ← flatten_expressions parsed;
  checked ← typecheck_transaction bindings flattened;
  infer_labels checked.

(** The passes of [compile] before the transaction is split *)
Definition instrument (inferred : stmt) : outcome stmt :=
  tracked ← insert_tracking_begin [] inferred;
  endorsed_one ← do_pre_endorse tracked;
  _ ← assert_ok StaticAssert (negb (contains_endorsement EmptyWorkList false (NS endorsed_one)));
  Ok endorsed_one.

Definition front_end (bindings : list var_binding) (parsed : pstmt) : outcome stmt :=
  inferred ← typecheck bindings parsed; instrument inferred.

(** [pre_transaction_str::compile<bound_values...>()] *)
Definition compile (bindings : list var_binding) (parsed : pstmt) : outcome (list phase) :=
  endorsed_one ← front_end bindings parsed;
  resume_compilation_inferred bindings endorsed_one.

(** ** What the passes keep

    Every pass up to [do_pre_endorse] keeps the code of a transaction over local
    variables and changes its labels. *)

Lemma replace_args_annotate f args args' vars : traverse (replace_expr f) args = Ok args' ->
  Forall2 (fun a v => exists l y, a = EVar l y v) args vars ->
  Forall2 (fun a v => exists l y, a = EVar l y v) args' vars.
Proof.
  intros Ht Hargs. revert args' Ht. induction Hargs as [|a v args vars (la & ya & ->) _ IHargs];
    intros args' Ht; simpl in Ht; outcome_inv; constructor; eauto.
Qed.

Lemma replace_expr_annotates f e e' p : replace_expr f e = Ok e' ->
  annotates_expr e p -> annotates_expr e' p.
Proof.
  intros He Ha. revert e' He. induction Ha as [| | | | | |l y n h args p vars Hh IH Hargs|];
    intros e' He; simpl in He; outcome_inv; try (constructor; auto; fail).
  constructor; [auto|by eapply replace_args_annotate].
Qed.

(** A member by member translation that keeps the code *)
Lemma traverse_annotates (f : stmt -> outcome stmt) ss ss' qs :
  Forall (fun s => forall s' p, f s = Ok s' -> annotates s p -> annotates s' p) ss ->
  traverse f ss = Ok ss' -> Forall2 annotates ss qs -> Forall2 annotates ss' qs.
Proof.
  intros Hf Ht Ha. revert ss' Hf Ht. induction Ha as [|s q ss qs Hs Ha IH]; intros ss' Hf Ht;
    simpl in Ht; outcome_inv; [constructor|]. inversion Hf; subst. constructor; eauto.
Qed.

Lemma replace_stmt_annotates f s s' p : replace_stmt f s = Ok s' -> annotates s p -> annotates s' p.
Proof.
  revert s' p. induction s as [l [bl y v e] s IH|l [bl y v e] s IH|l n h args|l v e|l e|l e|l e|l c t e IHt IHe|l c s n IH|l ss IH]
    using stmt_ind'; intros s' p Hs Ha; simpl in Hs; inversion Ha; subst;
    unfold replace_binding in *; outcome_inv.
  - simpl in *. apply (ann_let _ (Binding _ _ _ _)); simpl; [by eapply replace_expr_annotates|eauto].
  - simpl in *. apply (ann_let_remote _ (Binding _ _ _ _)); simpl; [by eapply replace_expr_annotates|eauto].
  - constructor; [by eapply replace_expr_annotates|by eapply replace_args_annotate].
  - constructor; by eapply replace_expr_annotates.
  - constructor; by eapply replace_expr_annotates.
  - constructor; [by eapply replace_expr_annotates|eauto..].
  - constructor; [by eapply replace_expr_annotates|eauto].
  - constructor. by eapply traverse_annotates.
Qed.

Lemma replace_all_annotates fuel ast lbl cs r p : replace_all_less_than_fuel fuel ast lbl cs = Ok r ->
  annotates ast p -> annotates (ret_ast r) p.
Proof.
  revert ast cs r. induction fuel as [|fuel IH]; intros ast cs r Hr Ha; [done|]. simpl in Hr.
  destruct cs as [|c cs]; outcome_inv; [done|]. case_decide; outcome_inv; [|simpl; by eapply IH; eassumption].
  destruct (low c) eqn:Hlow; outcome_inv; simpl; (eapply IH; [eassumption|]); try done.
  by eapply replace_stmt_annotates.
Qed.

Lemma infer_helper_annotates ls ast cs r p : infer_labels_helper1 ast cs ls = Ok r ->
  annotates ast p -> annotates (fst r) p.
Proof.
  revert ast cs. induction ls as [|l ls IH]; intros ast cs Hr Ha; simpl in Hr; outcome_inv; [done|].
  eapply IH; [eassumption|]. by eapply replace_all_annotates.
Qed.

Lemma infer_labels_annotates ast ast' p : infer_labels ast = Ok ast' ->
  annotates ast p -> annotates ast' p.
Proof.
  intros Hi Ha. unfold infer_labels in Hi. outcome_inv. by eapply infer_helper_annotates.
Qed.

(** Nothing is tracked: no local variable is remote. *)
Lemma writes_remote_local s b : is_local s = true -> writes_remote [] s = Ok b -> b = false.
Proof.
  revert b. induction s as [l c s IH|l c s IH|l n h args|l v e|l e|l e|l e|l c t e IHt IHe|l c s n IH|l ss IH]
    using stmt_ind'; intros b Hl Hw; simpl in Hl, Hw; rewrite ?andb_true_iff in Hl; outcome_inv; try done.
  - apply IH; naive_solver.
  - destruct Hl as [Hl _]. destruct v as [|? ? []| | | | | |]; simpl in *; by outcome_inv.
  - by rewrite (IHt x), (IHe x0) by naive_solver.
  - apply IH; naive_solver.
  - unfold outcome_any in Hw. outcome_inv.
    match goal with Ht : traverse _ ss = Ok ?x |- _ => revert x Ht end.
    induction IH as [|s ss Hs _ IHss]; intros bs Ht; simpl in Hl, Ht; outcome_inv; [done|].
    apply andb_true_iff in Hl as [Hl1 Hl2]. simpl. rewrite (Hs x Hl1 ltac:(done)). by apply IHss.
Qed.

Lemma insert_tracking_annotates a a' p : insert_tracking_begin [] a = Ok a' -> is_local a = true ->
  annotates a p -> annotates a' p.
Proof.
  intros Hi Hl Ha. unfold insert_tracking_begin in Hi. outcome_inv. unfold begin_writes_remote in *.
  match goal with Hw : writes_remote [] a = Ok ?b |- _ => rewrite (writes_remote_local a b Hl Hw) in Hi end.
  simpl in Hi. by outcome_inv.
Qed.

Lemma endorse_relabel_expr_annotates ts e e' p : endorse_relabel_expr ts e = Ok e' ->
  is_local_expr e = true -> annotates_expr e p -> annotates_expr e' p.
Proof.
  intros He Hl Ha. revert e' He Hl. induction Ha; intros e' He Hl; simpl in He, Hl; try done;
    rewrite ?andb_true_iff in Hl; outcome_inv; constructor; naive_solver.
Qed.

Lemma endorse_relabel_annotates ts s s' p : endorse_relabel ts s = Ok s' -> is_local s = true ->
  annotates s p -> annotates s' p.
Proof.
  revert s' p. induction s as [l [bl y v e] s IH|l [bl y v e] s IH|l n h args|l v e|l e|l e|l e|l c t e IHt IHe|l c s n IH|l ss IH]
    using stmt_ind'; intros s' p Hs Hl Ha; simpl in Hs, Hl; try done; inversion Ha; subst;
    rewrite ?andb_true_iff in Hl; unfold endorse_relabel_binding in *; outcome_inv.
  - simpl in *. apply (ann_let _ (Binding _ _ _ _)); simpl;
      [eapply endorse_relabel_expr_annotates; naive_solver|naive_solver].
  - by constructor.
  - constructor. by eapply endorse_relabel_expr_annotates.
  - constructor; [eapply endorse_relabel_expr_annotates; naive_solver|naive_solver..].
  - constructor; [eapply endorse_relabel_expr_annotates; naive_solver|naive_solver].
  - constructor. eapply traverse_annotates; [|eassumption..]. rewrite forallb_forall in Hl.
    apply Forall_forall. intros s Hin s' p Hs Hap. rewrite Forall_forall in IH. eapply IH; eauto.
    by apply Hl, list_elem_of_In.
Qed.

Lemma front_end_annotates bindings parsed flat ast : flatten_expressions parsed = Ok flat ->
  p_is_local flat = true -> front_end bindings parsed = Ok ast ->
  annotates ast flat /\ is_local ast = true.
Proof.
  intros Hf Hl Hfe. unfold front_end, typecheck, instrument in Hfe. rewrite Hf in Hfe. outcome_inv.
  unfold do_pre_endorse in *. outcome_inv.
  match goal with Ht : typecheck_transaction _ _ = Ok _ |- _ => apply typecheck_annotates in Ht as Ha end.
  eapply infer_labels_annotates in Ha; [|eassumption].
  eapply insert_tracking_annotates in Ha; [|eassumption|by rewrite (annotates_local _ _ Ha)].
  eapply endorse_relabel_annotates in Ha; [|eassumption|by rewrite (annotates_local _ _ Ha)].
  split; [done|]. by rewrite (annotates_local _ _ Ha).
Qed.

Lemma front_end_flattened bindings parsed ast : front_end bindings parsed = Ok ast ->
  exists flat, flatten_expressions parsed = Ok flat.
Proof. intros Hf. unfold front_end, typecheck in Hf. outcome_inv. eauto. Qed.
End compile.

(** ** The compiler is correct *)

(** What the back end needs of the tree it gets, by running its passes *)
Definition supported `{UserLabels} `{TypeLists} `{Handles} (args : list argument) (ast : stmt) : bool :=
  match easy_processing_pass ast, collect_proper_labels ast,
        split_computation (initial_bindings args) ast with
  | Ok a, Ok ls, Ok phases =>
      splittable args (reverse ls) a && inlinable phases args &&
      forallb (fun l => negb (pre_endorsed l)) ls
  | _, _, _ => false
  end.

Section correct.
Context `{LabelOrder D} `{TypeListLaws} `{CppTypes} `{Handles} `{!Remote}.
Hypothesis top_D : D top.
Hypothesis traits : forall l, D l -> exists tr, traits_of l = Ok tr.
Hypothesis commits : forall w, exists w', rm_commit w = (inl tt, w').
Variables (args : list argument) (parsed : pstmt) (ast : stmt).
Hypothesis names : source_names parsed.
Hypothesis local : p_is_local parsed = true.
Hypothesis typed : front_end (initial_bindings args) parsed = Ok ast.
Hypothesis ast_D : forall x, mentions ast x -> D x.
Hypothesis supports : supported args ast = true.
Variables (fuel : nat) (v : value) (w : W).
Hypothesis fuel_int : Z.of_nat (S fuel) <= int_max.
Hypothesis returns : sexec_transaction fuel parsed args = inl v.

(** C1: the compiler is correct for the transactions it is right about.  When the front end
  accepts a transaction over local variables that uses none of the names flattening makes
  ([source_names]), and what it becomes is [supported] (its splitting is [splittable]: no
  name is declared twice, it returns at the end, and its control flow keeps versions in
  step; its phases are [inlinable]; and no label is pre-endorsed), the phases it compiles
  to exist.  If commits succeed, and the reference interpreter of the parsed tree, which
  evaluates both operands of [&] and [|] as flattened programs do, returns a value within a
  fuel below [int_max], running the phases returns it too: the tree is interpreted before
  loops are desugared and operands named, and before it is typed, labelled, instrumented,
  split and recollapsed.  The labels are totally ordered and have traits. *)
Theorem compile_correct : exists compiled s,
  compile (initial_bindings args) parsed = Ok compiled /\
  begin_interp (S fuel) compiled args w = (inl (Some v), s).
Proof.
  destruct (front_end_flattened _ _ _ typed) as [flat flattened].
  pose proof (flatten_expressions_local _ _ names flattened local) as flat_local.
  destruct (front_end_annotates _ _ _ _ flattened flat_local typed) as [Ha Hl].
  unfold supported in supports.
  destruct (easy_processing_pass ast) as [a|] eqn:Hnamed; [|done].
  destruct (collect_proper_labels ast) as [ls|] eqn:Hls; [|done].
  destruct (split_computation _ ast) as [phases|] eqn:Hsplit; [|done].
  rewrite !andb_true_iff in supports. destruct supports as [[Hgood Hinl] Hpre].
  destruct (back_end_runs ast a args ls phases top_D ast_D Hnamed Hls Hsplit Hgood Hinl Hpre (S fuel) v w
    fuel_int commits) as (compiled & s & Hc & Hs).
  - intros l Hin. apply traits, ast_D. by apply (proper_labels_spec ast ls ast_D Hls).
  - rewrite (exec_transaction_annotates _ ast flat args Ha Hl).
    by apply (flatten_expressions_returns parsed).
  - exists compiled, s. split; [|done]. unfold compile. by rewrite typed.
Qed.
End correct.
