(* ===== verification/CompileExamples.v ===== *)
(** * Source transactions, compiled and run *)
From S2P Require Import Prelude TypeLists Labels TypedAst LabelCollect LabelInference PhaseApi Runtime.
From S2P Require Import Holders RunPhase SplitSpec SplitCorrect SplitExamples BackEnd SplitPhases.
From S2P Require Import ParseAst Flatten Typecheck Source Strict FlattenMeaning TypecheckSound Compile.
Import Reference.

#[local] Existing Instances no_handles no_objects.
#[local] Open Scope string_scope.

(** An application without classes of its own, but for the structure [point] *)
#[local] Instance points : CppTypes := {|
  has_is_struct := fun n => bool_decide (n = "point");
  field_of := fun n f =>
    if decide (n = "point" /\ (f = "x" \/ f = "y")) then Ok TInt else Err NoOverload;
  class_binop := fun _ _ _ => Err NoOverload;
  class_assignable := fun _ _ => false;
  operation_return := fun _ _ _ => Err NoOverload;
  handle_supports := fun _ _ _ _ _ => false |}.

(** [var total = n.ensure(causal), var i = 0, while (i < n) { total = total + i, i = i + 1 },
    return total] *)
Definition total_of : pstmt :=
  PLet (PBinding "total" (PEnsure causal (PVar "n"))) (PLet (PBinding "i" (PConst 0))
    (PSequence
      [PWhile (PBinOp "<" (PVar "i") (PVar "n"))
         (PSequence
           [PAssignment (PVar "total") (PBinOp "+" (PVar "total") (PVar "i"));
            PAssignment (PVar "i") (PBinOp "+" (PVar "i") (PConst 1))]);
       PReturn (PVar "total")])).

Definition total_flat : pstmt := or_else total_of (flatten_expressions total_of).
Definition total_checked : stmt :=
  or_else (SSequence top []) (typecheck_transaction (initial_bindings sum_args) total_flat).
Definition total_ast : stmt :=
  or_else (SSequence top []) (front_end (initial_bindings sum_args) total_of).

Lemma compile_correct_witness : exists compiled s,
  compile (initial_bindings sum_args) total_of = Ok compiled /\
  begin_interp 10 compiled sum_args 0%nat = (inl (Some (VInt 10)), s).
Proof.
  apply (compile_correct (D := fun l => l ∈ sql_labels)) with (ast := total_ast) (fuel := 9%nat).
  all: first [sum_to_hyp | apply check_source_names_sound; vm_compute; reflexivity].
Defined.

Lemma flatten_expressions_meaning_witness :
  pexec_transaction 9 total_of sum_args = inl (VInt 10) /\
  pexec_transaction 10 total_flat sum_args = inl (VInt 10).
Proof.
  apply (flatten_expressions_meaning total_of total_flat).
  - apply check_source_names_sound. vm_compute. reflexivity.
  - vm_compute. reflexivity.
  - vm_compute. reflexivity.
  - vm_compute. reflexivity.
Defined.

(** [n < 1 | 1 / (n - 1) > 0] on [n = 1] is evaluated both ways: the parsed
    transaction stops at the first operand, the flattened one divides by zero, which is undefined. *)
Definition guarded : pstmt :=
  PReturn (PBinOp "|" (PBinOp "<" (PVar "n") (PConst 2))
    (PBinOp ">" (PBinOp "/" (PConst 1) (PBinOp "-" (PVar "n") (PConst 1))) (PConst 0))).

Lemma short_circuit_lost : exists s, flatten_expressions guarded = Ok s /\
  pexec_transaction 1 guarded [Argument "n" TInt (VInt 1)] = inl (VBool true) /\
  pexec_transaction 1 s [Argument "n" TInt (VInt 1)] = inr (Throws SignedOverflow).
Proof. eexists. split; [vm_compute; reflexivity|]. vm_compute. auto. Qed.

(** [total_of] in every step of type soundness: the arguments have their types,
    and the checked tree returns an [int]. *)
Lemma typecheck_sound_witness :
  match pexec 10 total_flat (arg_env sum_args) with
  | inl (_, ret) => forall v, ret = Some v -> exists y, y ∈ returned total_checked /\ has_type v y
  | inr e => e = NoFuel \/ e = Throws SignedOverflow
  end.
Proof.
  assert (Hops : forall op l r t, class_binop op l r <> Ok t) by (intros ? ? ? ?; discriminate).
  apply (typecheck_sound Hops).
  - vm_compute. reflexivity.
  - vm_compute. reflexivity.
  - vm_compute. reflexivity.
  - repeat constructor.
Defined.

Example total_returns : sexec_transaction 9 total_of sum_args = inl (VInt 10) /\
  pexec_transaction 10 total_flat sum_args = inl (VInt 10) /\ returned total_checked = [TInt].
Proof. vm_compute. auto. Qed.

(** ** Where the checker and the tree disagree *)

(** [check_type_mismatch] lets an [int] be assigned to a [bool], but [Assignment] has
    no specialization for operands of different types. *)
Lemma assignment_of_int_to_bool :
  check_type_mismatch TBool TInt = Ok tt /\
  typecheck_transaction (initial_bindings [Argument "b" TBool (VBool true)])
    (PAssignment (PVar "b") (PVar "b")) <> Err NoOverload /\
  typecheck_transaction
    (initial_bindings [Argument "b" TBool (VBool true); Argument "n" TInt (VInt 1)])
    (PAssignment (PVar "b") (PVar "n")) = Err NoOverload.
Proof. split_and!; vm_compute; [reflexivity|discriminate|reflexivity]. Qed.

(** [if (c) skip else { var x = n.ensure(causal) .. }, if (c) { var y = n .. }]: the first
    variable is declared at level 2 of the second branch of the first statement, the
    second at level 2 of the first branch of the second, and both have the sequence
    number 3, so both get one temporary. *)
Definition two_branches : pstmt :=
  PSequence
    [PIf (PVar "c") (PSequence [])
       (PLet (PBinding "x" (PEnsure causal (PVar "n"))) (PSequence []));
     PIf (PVar "c") (PLet (PBinding "y" (PVar "n")) (PSequence [])) (PSequence []);
     PReturn (PVar "n")].

Definition branch_args : list argument :=
  [Argument "c" TBool (VBool true); Argument "n" TInt (VInt 1)].

Definition declared (s : stmt) : list (string * label) :=
  omap (fun m => match m with NB b => Some (b_var b, b_label b) | _ => None end) (subnodes s).

Definition branches_checked : stmt :=
  or_else (SSequence top []) (typecheck_transaction (initial_bindings branch_args) two_branches).

(** Two declarations of one program can share a temporary label, so the
    variable [y], which only holds trusted data, becomes as weak as [x]. *)
Lemma temporaries_collide : exists t t',
  typecheck_transaction (initial_bindings branch_args) two_branches = Ok t /\
  declared t = [("x", LTemp 3 2); ("y", LTemp 3 2)] /\
  infer_labels t = Ok t' /\ declared t' = [("x", causal); ("y", causal)].
Proof.
  exists branches_checked, (or_else branches_checked (infer_labels branches_checked)).
  split_and!; vm_compute; reflexivity.
Qed.
