(* ===== verification/Parse.v ===== *)
(** * The parser

    Models [mtl/new-parsing/parse.hpp], the arena of [mtl/new-parsing/allocator.hpp]
    and [mtl/new-parsing/allocated_ref.hpp] its trees live in, [as_type] of
    [mtl/new-parsing/ast.hpp], which turns an arena into a type, and
    [mtl/new-parsing/to-old-ast-parse.hpp], which turns that type into the tree
    of [ParseAst].  The functions on C strings are those of [mutils::cstring], a
    submodule that is not in the repository: the class [CString]. *)
From S2P Require Import Prelude Labels ParseAst.

#[local] Open Scope Z_scope.

(** ** The functions on C strings *)

Class CString : Type := {
  trim : string -> string;
  (** [mutils::String<...>::trim_ends()] *)
  trim_ends : string -> string;
  (** [last_split(sep, s, out)] and [first_split(c, s, out)]: what [out[0]] and [out[1]] are *)
  last_split : string -> string -> string * string;
  first_split : ascii -> string -> string * string;
  (** [split_outside_parens(c, s, out)]: what the slots of [out] hold, as far as it writes them *)
  split_outside_parens : ascii -> string -> list string;
  (** [str_cpy(out, s)] for an array of so many characters, and the copying [trim(out, s)] does:
      what [out] holds then, if that is a constant expression *)
  str_cpy : nat -> string -> option string;
  contains : ascii -> string -> bool;
  contains_outside_parens : string -> string -> bool;
  contains_paren : string -> bool;
  contains_space : string -> bool;
  prefix_equal : string -> string -> bool;
  first_word_is : string -> string -> bool;
  remove_first_word : string -> string;
  (** The text in the next parentheses, and the offset behind them *)
  next_paren_group : string -> string * nat;
  copy_within_parens : string -> string;
  pre_paren : string -> string;
  parse_int : string -> Z;
}.

(** What the names of the functions promise of the lengths of their results *)
Class CStringLaws `{CString} : Prop := {
  trim_length s : (String.length (trim s) <= String.length s)%nat;
  trim_idem s : trim (trim s) = trim s;
  last_split_length c s : (String.length (last_split c s).1 <= String.length s)%nat /\
    (String.length (last_split c s).2 <= String.length s)%nat;
  last_split_shorter c s : c <> ""%string -> contains_outside_parens c s = true ->
    (String.length (last_split c s).1 < String.length s)%nat /\
    (String.length (last_split c s).2 < String.length s)%nat;
  first_split_length c s : (String.length (first_split c s).1 <= String.length s)%nat /\
    (String.length (first_split c s).2 <= String.length s)%nat;
  first_split_shorter c s : contains_outside_parens (String c "") s = true ->
    (String.length (first_split c s).1 < String.length s)%nat /\
    (String.length (first_split c s).2 < String.length s)%nat;
  split_outside_length c s p : p ∈ split_outside_parens c s -> (String.length p <= String.length s)%nat;
  (** What is outside parentheses behind the last point is so in the whole *)
  contains_behind_split c s : contains_outside_parens "." s = true ->
    contains_outside_parens c (trim (last_split "." s).2) = true -> contains_outside_parens c s = true;
  contains_nonempty c s : c <> ""%string -> contains_outside_parens c s = true -> s <> ""%string;
  prefix_nonempty c s : c <> ""%string -> prefix_equal c s = true -> s <> ""%string;
  first_word_nonempty w s : w <> ""%string -> first_word_is w s = true -> s <> ""%string;
  remove_first_length s : (String.length (remove_first_word s) <= String.length s)%nat;
  remove_first_shorter w s : w <> ""%string -> first_word_is w s = true ->
    (String.length (remove_first_word s) < String.length s)%nat;
  paren_group_length s : (String.length (next_paren_group s).1 <= pred (String.length s))%nat;
  within_parens_length s : (String.length (copy_within_parens s) <= pred (String.length s))%nat;
}.

(** [str + offset] *)
Fixpoint from_offset (n : nat) (s : string) : string :=
  match n, s with S n, String _ s => from_offset n s | _, _ => s end.

(** ** Nodes

    [AST_elem] with references of type [N]; [is_this_elem] is the constructor.
    Slots of arguments that were not assigned are [None]. *)
Inductive elem (N : Type) : Type :=
| transaction (e : N) (payload : nat)
| FieldReference (Struct : N) (Field : string)
| FieldPointerReference (Struct : N) (Field : string)
| Dereference (Struct : N)
| Endorse (label : string) (Hndl : N)
| Ensure (label : string) (Hndl : N)
| IsValid (Hndl : N)
| VarReference (Var : string)
| Constant (i : Z)
| BinOp (op : ascii) (L R : N)
| Let (Binding Body : N)
| LetRemote (Binding Body : N)
| operation_args_exprs (exprs : list (option N))
| operation_args_varrefs (vars : list (option N))
| Operation (is_statement : bool) (name : string) (Hndl expr_args var_args : N)
| Assignment (Var Expr : N)
| Return (Expr : N)
| If (condition thn els : N)
| While (condition body : N)
| Sequence (e next : N)
| Skip
| Binding (var : string) (rhs : N).
Arguments transaction {N}. Arguments FieldReference {N}. Arguments FieldPointerReference {N}. Arguments Dereference {N}.
Arguments Endorse {N}. Arguments Ensure {N}. Arguments IsValid {N}. Arguments VarReference {N}.
Arguments Constant {N}. Arguments BinOp {N}. Arguments Let {N}. Arguments LetRemote {N}.
Arguments operation_args_exprs {N}. Arguments operation_args_varrefs {N}. Arguments Operation {N}.
Arguments Assignment {N}. Arguments Return {N}. Arguments If {N}. Arguments While {N}.
Arguments Sequence {N}. Arguments Skip {N}. Arguments Binding {N}.

(** Why a text does not parse *)
Inductive parse_stop : Type :=
| ParseError     (** [throw parse_error] *)
| AssertionFails (** [assert] *)
| OutOfBounds    (** a name that is copied behind the end of its [plain_array<char>] *)
| OutOfMemory    (** the arena has no slot left *)
| NoParseFuel.

(** A parser works on the arena, or what stands for it. *)
Definition PM (S A : Type) : Type := S -> (A * S) + parse_stop.

Section monad.
Context {S : Type}.
#[global] Instance PM_ret : MRet (PM S) := fun A a s => inl (a, s).
#[global] Instance PM_bind : MBind (PM S) := fun A B f m s =>
  match m s with inl (a, s') => f a s' | inr e => inr e end.
Definition fails {A} (e : parse_stop) : PM S A := fun _ => inr e.
Definition parse_assert (b : bool) : PM S unit := if b then mret tt else fails AssertionFails.
Definition check_error (b : bool) : PM S unit := if b then fails ParseError else mret tt.

(** A [plain_array<char>] has 20 characters. *)
Definition into_array `{CString} (s : string) : PM S string :=
  match str_cpy 20 s with Some s => mret s | None => fails OutOfBounds end.
End monad.

(** ** The parser

    [build m]: allocate a node, run [m] to find its fields, and store them. *)
Section parser.
Context `{CString} {S N : Type}.
Variable build : PM S (elem N) -> PM S N.

Section expressions.
Variable parse_expression : string -> PM S N.

Definition parse_binop (str cause : string) : PM S N := build (
  let operands := last_split cause str in
  L ← parse_expression operands.1;
  R ← parse_expression operands.2;
  mret (BinOp (match cause with String c _ => c | EmptyString => "000"%char end) L R)).

Definition parse_builtin_op (str specific_op : string) : PM S N :=
  let trimmed := trim str in
  let split := last_split "." trimmed in
  let op_args := copy_within_parens split.2 in
  if prefix_equal "endorse" specific_op then build (
    h ← parse_expression split.1; l ← into_array (trim op_args); mret (Endorse l h))
  else if prefix_equal "ensure" specific_op then build (
    h ← parse_expression split.1; l ← into_array (trim op_args); mret (Ensure l h))
  else if prefix_equal "isValid" specific_op then build (
    h ← parse_expression split.1; mret (IsValid h))
  else fails ParseError.

(** [char out[n][...]], initialised with nulls, after [split_outside_parens] *)
Definition slots (n : nat) (pieces : list string) : list string :=
  (fun i => default ""%string (pieces !! i)) <$> seq 0 n.

(** The loop over the pieces: empty ones are left out. *)
Fixpoint parse_pieces (pieces : list string) : PM S (list (option N)) :=
  match pieces with
  | [] => mret []
  | p :: pieces =>
      r ← (if decide (p = ""%string) then mret None else r ← parse_expression p; mret (Some r));
      rs ← parse_pieces pieces; mret (r :: rs)
  end.

Definition parse_args (str : string) : PM S N := build (
  exprs ← parse_pieces (slots 20 (split_outside_parens "," str)); mret (operation_args_exprs exprs)).

Definition parse_operation (str : string) (is_statement : bool) : PM S N :=
  let splits := last_split "." str in
  build (
    vargs ← build (mret (operation_args_varrefs []));
    name ← into_array (pre_paren splits.2);
    args ← parse_args (next_paren_group splits.2).1;
    h ← parse_expression splits.1;
    mret (Operation is_statement name h args vargs)).

(** The error checking of names *)
Definition check_name (s : string) : PM S unit :=
  check_error (contains_paren s);;
  check_error (contains_space s);;
  check_error (contains_outside_parens "." s);;
  check_error (contains_outside_parens "->" s);;
  check_error (contains_outside_parens "*" s);;
  check_error (contains_outside_parens " " s).

Definition parse_fieldref (str : string) : PM S N :=
  let operands := last_split "." (trim str) in
  check_name operands.2;;
  build (s ← parse_expression operands.1; f ← into_array (trim operands.2); mret (FieldReference s f)).

Definition parse_fieldptrref (str : string) : PM S N :=
  let operands := last_split "->" (trim str) in
  check_name operands.2;;
  build (s ← parse_expression operands.1; f ← into_array (trim operands.2);
         mret (FieldPointerReference s f)).

(** [assert(trimmed[0] = '*')] assigns. *)
Definition parse_deref (str : string) : PM S N :=
  build (s ← parse_expression (from_offset 1 (trim str)); mret (Dereference s)).

(** [Constant::i] is a [std::size_t]. *)
Definition parse_constant (str : string) : PM S N :=
  build (mret (Constant (parse_int str mod 2 ^ 64))).

Definition parse_varref (str : string) : PM S N := build (
  v ← into_array (trim str); check_name v;; mret (VarReference v)).

Definition first_char (s : string) : ascii := match s with String c _ => c | EmptyString => "000"%char end.
Fixpoint last_char (s : string) : ascii :=
  match s with
  | EmptyString => "000"%char
  | String c EmptyString => c
  | String _ s => last_char s
  end.

Definition is_digit (c : ascii) : bool := (48 <=? nat_of_ascii c)%nat && (nat_of_ascii c <=? 57)%nat.

(** The operators in the order they are looked for *)
Definition binops : list string :=
  ["+"; "- "; "* "; "/"; "=="; "&&"; "||"; "!="; "> "; "<"; ">="; "<="].

(** What follows the binary operators in [parse_expression] *)
Definition parse_access (str : string) : PM S N :=
  if prefix_equal "*" str then
    if contains_outside_parens "*" str then parse_deref str else fails AssertionFails
  else if contains_outside_parens "." str then
    let behind := trim (last_split "." str).2 in
    parse_assert (negb (contains_outside_parens "." behind));;
    if contains_outside_parens "->" behind then parse_fieldptrref str
    else if contains_outside_parens "isValid(" behind then parse_builtin_op str "isValid("
    else if contains_outside_parens "endorse(" behind then parse_builtin_op str "endorse("
    else if contains_outside_parens "ensure(" behind then parse_builtin_op str "ensure("
    else if contains_paren behind then parse_operation str false
    else parse_fieldref str
  else if contains_outside_parens "->" str then parse_fieldptrref str
  else if bool_decide (first_char str = "("%char) && bool_decide (last_char str = ")"%char) then
    parse_expression (next_paren_group str).1
  else
    let atom := trim str in
    if is_digit (first_char atom) then parse_constant atom else parse_varref atom.

Definition parse_expression_step (_str : string) : PM S N :=
  let str := trim _str in
  if decide (str = "default list"%string) then
    build (v ← into_array (trim str); mret (VarReference v))
  else
    match List.find (fun op => contains_outside_parens op str) binops with
    | Some op => parse_binop str op
    | None => parse_access str
    end.
End expressions.

Fixpoint parse_expression (n : nat) (str : string) : PM S N :=
  match n with
  | O => fails NoParseFuel
  | Datatypes.S n => parse_expression_step (parse_expression n) str
  end.

Section statements.
Variable parse_expression : string -> PM S N.
Variable parse_statement : string -> PM S N.

Definition parse_binding (str : string) : PM S N := build (
  let binding_components := first_split "=" str in
  var ← into_array (trim binding_components.1);
  rhs ← parse_expression binding_components.2;
  mret (Binding var rhs)).

Definition parse_var (str : string) : PM S N := build (
  let let_components := first_split "," (remove_first_word str) in
  b ← parse_binding let_components.1; body ← parse_statement let_components.2;
  mret (Let b body)).

Definition parse_remote (str : string) : PM S N := build (
  let let_components := first_split "," (remove_first_word str) in
  b ← parse_binding let_components.1; body ← parse_statement let_components.2;
  mret (LetRemote b body)).

Definition parse_return (str : string) : PM S N := build (
  e ← parse_expression (remove_first_word str); mret (Return e)).

Definition parse_while (str : string) : PM S N := build (
  let without_first := remove_first_word str in
  let condition := next_paren_group without_first in
  let body := copy_within_parens (from_offset condition.2 without_first) in
  c ← parse_expression condition.1; b ← parse_statement body; mret (While c b)).

Definition parse_if (str : string) : PM S N := build (
  let if_condition := next_paren_group str in
  let post_condition := from_offset if_condition.2 str in
  let then_body := next_paren_group post_condition in
  let post_then := from_offset then_body.2 post_condition in
  c ← parse_expression if_condition.1;
  t ← parse_statement then_body.1;
  e ← (if first_word_is "else" post_then then parse_statement (next_paren_group post_then).1
       else build (mret Skip));
  mret (If c t e)).

Definition parse_assignment (str : string) : PM S N := build (
  let string_bufs := split_outside_parens "=" str in
  v ← parse_expression (default ""%string (string_bufs !! 0%nat));
  e ← parse_expression (default ""%string (string_bufs !! 1%nat));
  mret (Assignment v e)).

Definition parse_sequence (str : string) : PM S N := build (
  let string_bufs := first_split "," str in
  e ← parse_statement string_bufs.1; next ← parse_statement string_bufs.2; mret (Sequence e next)).

Definition parse_statement_step (str : string) : PM S N :=
  if first_word_is "var" str then parse_var str
  else if first_word_is "remote" str then parse_remote str
  else if contains_outside_parens "," str then parse_sequence str
  else if contains_outside_parens "return" str then parse_return str
  else if contains_outside_parens "while" str then parse_while str
  else if contains_outside_parens "if" str then parse_if str
  else if contains_outside_parens "=" str then parse_assignment str
  else if first_word_is "{" str then parse_statement (copy_within_parens str)
  else if contains_paren str then parse_operation parse_expression str true
  else if decide (trim str = ""%string) then build (mret Skip)
  else fails ParseError.
End statements.

Fixpoint parse_statement (n : nat) (str : string) : PM S N :=
  match n with
  | O => fails NoParseFuel
  | Datatypes.S n' => parse_statement_step (parse_expression n) (parse_statement n') str
  end.

(** The constructor of [parse<string>] *)
Definition parse_text (str : string) : PM S N :=
  if contains ";" str then fails ParseError else parse_statement (Datatypes.S (String.length str)) str.
End parser.

(** ** The arena

    [SingleAllocator<400,AST_elem>] and [top] of [Allocator<400,transaction,AST_elem>];
    an [allocated_ref] is its [indx], 0 the null reference.  A slot is [None] as long
    as no member of the union is set. *)
Definition Alloc_size : nat := 400.

Record arena : Type := Arena {
  data : list (option (elem nat));
  open_slots : list bool;
  top_ref : nat;
  top_payload : nat;
}.

Definition empty_arena : arena :=
  {| data := replicate Alloc_size None; open_slots := replicate Alloc_size true; top_ref := 0; top_payload := 0 |}.

(** [_allocate()] + 1 *)
Definition allocate : PM arena nat := fun a =>
  match list_find (fun b => b = true) (open_slots a) with
  | Some (i, _) => inl (S i, {| data := data a; open_slots := <[i := false]> (open_slots a);
                               top_ref := top_ref a; top_payload := top_payload a |})
  | None => inr OutOfMemory
  end.

(** [SingleAllocator::free(i)] and [allocated_ref::free], which passes its [indx] *)
Definition free_slot (i : nat) (a : arena) : arena :=
  {| data := data a; open_slots := <[i := true]> (open_slots a); top_ref := top_ref a; top_payload := top_payload a |}.
Definition free_ref (indx : nat) (a : arena) : arena := free_slot indx a.

(** Storing through [ret.get(allocator)] *)
Definition put_elem (indx : nat) (e : elem nat) : PM arena unit := fun a =>
  inl (tt, {| data := <[Nat.pred indx := Some e]> (data a); open_slots := open_slots a;
              top_ref := top_ref a; top_payload := top_payload a |}).

Definition build_arena (m : PM arena (elem nat)) : PM arena nat :=
  ret ← allocate; e ← m; put_elem ret e;; mret ret.

(** [parse<string>::parse()] *)
Definition parse `{CString} (str : string) : arena + parse_stop :=
  match parse_text build_arena str empty_arena with
  | inl (r, a) => inl {| data := data a; open_slots := open_slots a; top_ref := r;
                         top_payload := top_payload a |}
  | inr e => inr e
  end.

(** ** The arena as a type

    A type of [as_types]: the constructor says whether it is wrapped in
    [Expression], in [Statement], or bare. *)
Inductive ast_type : Type := Node (e : elem ast_type).

(** The arguments up to the first null reference *)
Fixpoint leading {N} (xs : list (option N)) : list (option N) :=
  match xs with Some x :: xs => Some x :: leading xs | _ => [] end.

(** The part of [as_type] that is not recursive: names become [mutils::String]s. *)
Definition type_elem `{CString} {N} (e : elem N) : elem N :=
  match e with
  | FieldReference s f => FieldReference s (trim_ends f)
  | FieldPointerReference s f => FieldPointerReference s (trim_ends f)
  | Endorse l h => Endorse (trim_ends l) h
  | Ensure l h => Ensure (trim_ends l) h
  | VarReference v => VarReference (trim_ends v)
  | operation_args_exprs xs => operation_args_exprs (leading xs)
  | operation_args_varrefs xs => operation_args_varrefs (leading xs)
  | Operation st n h ea va => Operation st (trim_ends n) h ea va
  | Binding v r => Binding (trim_ends v) r
  | e => e
  end.

Definition traverse_slot {A B} (f : A -> outcome B) (x : option A) : outcome (option B) :=
  match x with Some x => Some <$> f x | None => Ok None end.

Definition traverse_children {A B} (f : A -> outcome B) (e : elem A) : outcome (elem B) :=
  match e with
  | transaction e p => e ← f e; Ok (transaction e p)
  | FieldReference s n => s ← f s; Ok (FieldReference s n)
  | FieldPointerReference s n => s ← f s; Ok (FieldPointerReference s n)
  | Dereference s => s ← f s; Ok (Dereference s)
  | Endorse l h => h ← f h; Ok (Endorse l h)
  | Ensure l h => h ← f h; Ok (Ensure l h)
  | IsValid h => h ← f h; Ok (IsValid h)
  | VarReference v => Ok (VarReference v)
  | Constant i => Ok (Constant i)
  | BinOp op l r => l ← f l; r ← f r; Ok (BinOp op l r)
  | Let b s => b ← f b; s ← f s; Ok (Let b s)
  | LetRemote b s => b ← f b; s ← f s; Ok (LetRemote b s)
  | operation_args_exprs xs => xs ← traverse (traverse_slot f) xs; Ok (operation_args_exprs xs)
  | operation_args_varrefs xs => xs ← traverse (traverse_slot f) xs; Ok (operation_args_varrefs xs)
  | Operation st n h ea va =>
      h ← f h; ea ← f ea; va ← f va; Ok (Operation st n h ea va)
  | Assignment v e => v ← f v; e ← f e; Ok (Assignment v e)
  | Return e => e ← f e; Ok (Return e)
  | If c t e => c ← f c; t ← f t; e ← f e; Ok (If c t e)
  | While c s => c ← f c; s ← f s; Ok (While c s)
  | Sequence e n => e ← f e; n ← f n; Ok (Sequence e n)
  | Skip => Ok Skip
  | Binding v r => r ← f r; Ok (Binding v r)
  end.

(** [allocated_ref::get] of a constant allocator: the index is positive and within the
    array.  For a union with no member set [as_type] returns a type that nothing accepts. *)
Definition get_elem (a : arena) (indx : nat) : outcome (elem nat) :=
  match indx with
  | O => Err StaticAssert
  | Datatypes.S i =>
      match data a !! i with
      | Some (Some e) => Ok e
      | Some None => Err NoOverload
      | None => Err StaticAssert
      end
  end.

(** [as_type_f<prev_holder>::as_type<budget,F>()] for the [F] that gets the reference *)
Fixpoint as_type `{CString} (budget : nat) (a : arena) (indx : nat) : outcome ast_type :=
  match budget with
  | O => Err NoOverload
  | Datatypes.S budget =>
      e ← get_elem a indx; e ← traverse_children (as_type budget a) (type_elem e); Ok (Node e)
  end.

(** [as_type<prev_holder>()] *)
Definition as_type_budget : nat := 1000.
Definition as_type_top `{CString} (a : arena) : outcome ast_type :=
  t ← as_type as_type_budget a (top_ref a); Ok (Node (transaction t (top_payload a))).

(** ** The type as a tree of [parse_phase] *)

(** The operators [parse_phase::BinOp] is defined for, and the values of its
    [Constant<int>]: a [std::size_t] that does not fit is a narrowing conversion. *)
Definition has_binop (op : ascii) : bool :=
  bool_decide (op ∈ ["+"; "*"; "-"; "/"; "&"; "|"; "<"; ">"; "="]%char).
Definition fits_int (i : Z) : bool := (0 <=? i) && (i <? 2 ^ 31).

Definition convert_arg (f : ast_type -> outcome pexpr) (x : option ast_type) : outcome pexpr :=
  match x with Some x => f x | None => Err NoOverload end.

(** [convert_to_old_parsed] of what [Expression] wraps *)
Fixpoint convert_expr (t : ast_type) : outcome pexpr :=
  match t with
  | Node (FieldReference s f) => s ← convert_expr s; Ok (PField s f)
  | Node (FieldPointerReference s f) => s ← convert_expr s; Ok (PFieldPtr s f)
  | Node (Dereference s) => s ← convert_expr s; Ok (PDeref s)
  | Node (Endorse l h) => h ← convert_expr h; Ok (PEndorse (LName l) h)
  | Node (Ensure l h) => h ← convert_expr h; Ok (PEnsure (LName l) h)
  | Node (IsValid h) => h ← convert_expr h; Ok (PIsValid h)
  | Node (VarReference v) => Ok (PVar v)
  | Node (Constant i) => if fits_int i then Ok (PConst i) else Err NarrowingError
  | Node (BinOp op l r) =>
      l ← convert_expr l; r ← convert_expr r;
      if has_binop op then Ok (PBinOp op l r) else Err NoOverload
  | Node (Operation false n h (Node (operation_args_exprs es)) (Node (operation_args_varrefs vs))) =>
      h ← convert_expr h; es ← traverse (convert_arg convert_expr) es;
      vs ← traverse (convert_arg convert_expr) vs;
      vs ← traverse (fun v => match v with PVar v => Ok v | _ => Err StaticAssert end) vs;
      Ok (POperation n h es vs)
  | _ => Err NoOverload
  end.

(** The arguments of an operation *)
Definition convert_exprs (t : ast_type) : outcome (list pexpr) :=
  match t with
  | Node (operation_args_exprs es) => traverse (convert_arg convert_expr) es
  | _ => Err NoOverload
  end.
Definition convert_varrefs (t : ast_type) : outcome (list string) :=
  match t with
  | Node (operation_args_varrefs vs) =>
      vs ← traverse (convert_arg convert_expr) vs;
      traverse (fun v => match v with PVar v => Ok v | _ => Err StaticAssert end) vs
  | _ => Err NoOverload
  end.

Definition convert_binding (t : ast_type) : outcome pbinding :=
  match t with
  | Node (Binding v r) => r ← convert_expr r; Ok (PBinding v r)
  | _ => Err NoOverload
  end.

(** [convert_to_old_parsed] of what [Statement] wraps; [subseq] is the list of a sequence. *)
Fixpoint convert_stmt (t : ast_type) : outcome pstmt :=
  match t with
  | Node (transaction e _) => convert_stmt e
  | Node (Let b s) => b ← convert_binding b; s ← convert_stmt s; Ok (PLet b s)
  | Node (LetRemote b s) => b ← convert_binding b; s ← convert_stmt s; Ok (PLetRemote b s)
  | Node (Operation true n h es vs) =>
      h ← convert_expr h; es ← convert_exprs es; vs ← convert_varrefs vs;
      Ok (PSOperation n h es vs)
  | Node (Assignment v e) => v ← convert_expr v; e ← convert_expr e; Ok (PAssignment v e)
  | Node (Return e) => e ← convert_expr e; Ok (PReturn e)
  | Node (If c t e) => c ← convert_expr c; t ← convert_stmt t; e ← convert_stmt e; Ok (PIf c t e)
  | Node (While c s) => c ← convert_expr c; s ← convert_stmt s; Ok (PWhile c s)
  | Node (Sequence e next) =>
      e ← convert_stmt e;
      match next with
      | Node (Sequence _ _) =>
          next ← convert_stmt next;
          match next with PSequence ss => Ok (PSequence (e :: ss)) | _ => Err NoOverload end
      | Node Skip => Ok (PSequence [e])
      | _ => next ← convert_stmt next; Ok (PSequence [e; next])
      end
  | Node Skip => Ok (PSequence [])
  | _ => Err NoOverload
  end.

(** [parsed_t] of [pre_transaction_str::typecheck]: from the text of a transaction *)
Definition parsed_t `{CString} (str : string) : outcome pstmt + parse_stop :=
  match parse str with
  | inl a => inl (t ← as_type_top a; convert_stmt t)
  | inr e => inr e
  end.
