(* ===== verification/ParseArena.v ===== *)
(** * The arena holds the tree

    The parser over the arena of 400 slots against the parser that builds trees
    directly: they fail alike, [as_type] with its budget reads back the tree,
    and whatever parses converts to a tree of [parse_phase]. *)
From S2P Require Import Prelude Labels ParseAst Parse.

#[local] Open Scope nat_scope.

(** ** The reference: building the tree directly

    The state counts the nodes. *)
Definition build_tree `{CString} (m : PM nat (elem ast_type)) : PM nat ast_type := fun n =>
  if n <? Alloc_size then (e ← m; mret (Node (type_elem e))) (S n) else inr OutOfMemory.

Definition parse_tree `{CString} (str : string) : ast_type + parse_stop :=
  match parse_text build_tree str 0 with inl (t, _) => inl t | inr e => inr e end.

(** ** Reading a larger arena *)

Lemma traverse_children_mono {A B} (f g : A -> outcome B) e e' :
  (forall x y, f x = Ok y -> g x = Ok y) -> traverse_children f e = Ok e' -> traverse_children g e = Ok e'.
Proof.
  intros Hfg.
  assert (Hxs : forall xs ys, traverse (traverse_slot f) xs = Ok ys -> traverse (traverse_slot g) xs = Ok ys).
  { intros xs ys Hx. rewrite traverse_Ok in Hx |- *. eapply Forall2_impl; [exact Hx|].
    intros [x|] y; simpl; [|done]. intros (z & Hz & ->)%fmap_Ok. by rewrite (Hfg _ _ Hz). }
  destruct e; simpl; intros He; outcome_inv; try done;
    repeat match goal with Hf : f _ = Ok _ |- _ => apply Hfg in Hf; rewrite Hf; clear Hf end; simpl; try done.
  all: match goal with Hf : traverse _ _ = Ok _ |- _ => apply Hxs in Hf; by rewrite Hf end.
Qed.

(** The slots that hold a node keep it. *)
Definition keeps (a a' : arena) : Prop :=
  forall i e, data a !! i = Some (Some e) -> data a' !! i = Some (Some e).

#[global] Instance keeps_preorder : PreOrder keeps.
Proof. split; [by intros a i e|intros a b c H1 H2 i e H; by apply H2, H1]. Qed.

Lemma get_elem_keeps a a' r e : keeps a a' -> get_elem a r = Ok e -> get_elem a' r = Ok e.
Proof.
  intros Hk. destruct r as [|i]; simpl; [done|].
  destruct (data a !! i) as [[x|]|] eqn:E; intros [= <-]. by rewrite (Hk _ _ E).
Qed.

Lemma as_type_mono `{CString} b b' a a' r t : keeps a a' -> b <= b' ->
  as_type b a r = Ok t -> as_type b' a' r = Ok t.
Proof.
  intros Hk. revert b' r t. induction b as [|b IH]; intros [|b'] r t Hb Ht; simpl in Ht; try done; [lia|].
  simpl. apply bind_Ok in Ht as (e & He & Ht). apply bind_Ok in Ht as (e' & He' & Ht).
  erewrite get_elem_keeps by done. simpl.
  erewrite traverse_children_mono; [done| |done]. intros u v. apply IH. lia.
Qed.

(** ** Relating the two parsers *)

(** The first [k] slots are taken, the others are empty. *)
Record taken (a : arena) (k : nat) : Prop := {
  taken_le : k <= Alloc_size;
  taken_slots : open_slots a = replicate k false ++ replicate (Alloc_size - k) true;
  taken_length : length (data a) = Alloc_size;
  taken_empty i : k <= i < Alloc_size -> data a !! i = Some None;
}.

Section sim.
Context `{CString}.

(** From every state at least the world [(a0, k0)] and with [lo] slots taken:
    both stop alike, or both go on to states that keep what there was *)
Definition sim {A B} (lo : nat) (a0 : arena) (k0 : nat) (R : arena -> nat -> A -> B -> Prop)
    (m1 : PM arena A) (m2 : PM nat B) : Prop :=
  forall a k, taken a k -> lo <= k -> keeps a0 a -> k0 <= k ->
    match m1 a, m2 k with
    | inl (x, a'), inl (y, k') =>
        taken a' k' /\ k <= k' /\ keeps a a' /\
        (forall i, i < k -> data a' !! i = data a !! i) /\ R a' k' x y
    | inr e, inr e' => e = e'
    | _, _ => False
    end.

Lemma sim_pret {A B} lo a0 k0 (R : arena -> nat -> A -> B -> Prop) x y :
  (forall a k, keeps a0 a -> k0 <= k -> R a k x y) -> sim lo a0 k0 R (mret x) (mret y).
Proof. intros HR a k Ht Hlo Ha Hk. simpl. repeat split; eauto; try apply Ht; reflexivity. Qed.

Lemma sim_fails {A B} lo a0 k0 (R : arena -> nat -> A -> B -> Prop) e :
  sim lo a0 k0 R (fails e) (fails e).
Proof. by intros a k Ht Hlo Ha Hk. Qed.

Lemma sim_pbind {A B A' B'} lo a0 k0 (R : arena -> nat -> A -> B -> Prop) (R' : arena -> nat -> A' -> B' -> Prop)
    m1 m2 f1 f2 :
  sim lo a0 k0 R m1 m2 ->
  (forall a k x y, keeps a0 a -> k0 <= k -> R a k x y -> sim lo a k R' (f1 x) (f2 y)) ->
  sim lo a0 k0 R' (m1 ≫= f1) (m2 ≫= f2).
Proof.
  intros Hm Hf a k Ht Hlo Ha Hk. specialize (Hm a k Ht Hlo Ha Hk).
  unfold mbind, PM_bind. destruct (m1 a) as [[x a1]|e], (m2 k) as [[y k1]|e']; try done.
  destruct Hm as (Ht1 & Hk1 & Ha1 & Hsame & HR).
  specialize (Hf a1 k1 x y ltac:(by etrans) ltac:(lia) HR a1 k1 Ht1 ltac:(lia) ltac:(reflexivity) ltac:(lia)).
  destruct (f1 x a1) as [[x' a2]|e], (f2 y k1) as [[y' k2]|e']; try done.
  destruct Hf as (Ht2 & Hk2 & Ha2 & Hsame2 & HR'). split_and!; [done|lia|by etrans| |done].
  intros i Hi. rewrite Hsame2 by lia. by apply Hsame.
Qed.

(** A reference and its tree, and a node and its fields *)
Definition Ref (K : ast_type -> Prop) (lo : nat) (a : arena) (k r : nat) (t : ast_type) : Prop :=
  as_type (k - lo) a r = Ok t /\ K t.
Definition Elem (K : ast_type -> Prop) (lo : nat) (a : arena) (k : nat) (e : elem nat) (e' : elem ast_type) : Prop :=
  traverse_children (as_type (k - lo) a) (type_elem e) = Ok (type_elem e') /\ K (Node (type_elem e')).

Lemma Ref_mono K lo a k a' k' r t : keeps a a' -> k <= k' -> Ref K lo a k r t -> Ref K lo a' k' r t.
Proof. intros Ha Hk [Ht HK]. split; [|done]. eapply as_type_mono; [done| |done]. lia. Qed.

Lemma allocate_taken a k : taken a k ->
  allocate a = if k <? Alloc_size
               then inl (S k, {| data := data a; open_slots := <[k := false]> (open_slots a); top_ref := top_ref a; top_payload := top_payload a |})
               else inr OutOfMemory.
Proof.
  intros [Hk Ho Hd He]. unfold allocate. destruct (Nat.ltb_spec k Alloc_size).
  - assert (Hf : list_find (fun b : bool => b = true) (open_slots a) = Some (k, true)); [|by rewrite Hf].
    apply list_find_Some. rewrite Ho. split_and!; [|done|].
    + rewrite lookup_app_r by (rewrite length_replicate; lia).
      rewrite length_replicate, Nat.sub_diag. destruct (Alloc_size - k) eqn:E; [lia|done].
    + intros j b Hj Hl. rewrite lookup_app_l in Hj by (rewrite length_replicate; lia).
      apply lookup_replicate in Hj as [-> _]. done.
  - replace k with Alloc_size in * by lia.
    assert (Hf : list_find (fun b : bool => b = true) (open_slots a) = None); [|by rewrite Hf].
    rewrite Ho. vm_compute. done.
Qed.

Lemma allocated_taken a k : taken a k -> k < Alloc_size ->
  taken {| data := data a; open_slots := <[k := false]> (open_slots a); top_ref := top_ref a; top_payload := top_payload a |} (S k).
Proof.
  intros [Hk Ho Hd He] Hlt. constructor; cbn [data open_slots top_ref top_payload]; [lia| |done|intros i Hi; apply He; lia].
  rewrite Ho, insert_app_r_alt by (rewrite length_replicate; lia).
  rewrite length_replicate, Nat.sub_diag.
  replace (Alloc_size - k) with (S (Alloc_size - S k)) by lia.
  generalize (Alloc_size - S k). intros d. rewrite (replicate_S_end k), <- app_assoc. done.
Qed.

(** [build] takes a slot, and fills it when its fields are there. *)
Lemma sim_build lo a0 k0 K m1 m2 :
  (forall lo', sim lo' a0 k0 (Elem K lo') m1 m2) ->
  sim lo a0 k0 (Ref K lo) (build_arena m1) (build_tree m2).
Proof.
  intros Hm a k Ht Hlo Ha Hk. unfold build_arena, build_tree, mbind at 1, PM_bind at 1.
  rewrite (allocate_taken a k Ht). destruct (Nat.ltb_spec k Alloc_size) as [Hlt|]; [|done].
  pose proof (allocated_taken a k Ht Hlt) as Ht1.
  set (a1 := {| data := data a; open_slots := _; top_ref := _; top_payload := _ |}) in *.
  specialize (Hm (S k) a1 (S k) Ht1 ltac:(lia) Ha ltac:(lia)).
  unfold mbind, PM_bind. destruct (m1 a1) as [[e a2]|e], (m2 (S k)) as [[e' k2]|e']; try done.
  destruct Hm as (Ht2 & Hk2 & Ha2 & Hsame & He & HK). simpl.
  assert (Hnone : data a2 !! k = Some None) by (rewrite Hsame by lia; apply (taken_empty a k Ht); lia).
  assert (Hput : keeps a2 {| data := <[k := Some e]> (data a2); open_slots := open_slots a2; top_ref := top_ref a2; top_payload := top_payload a2 |}).
  { intros i x Hi. simpl. rewrite list_lookup_insert_ne; [done|]. intros <-. congruence. }
  split_and!; [|lia| | |split; [|done]].
  - destruct Ht2 as [H1 H2 H3 H4]. constructor; simpl; [done..|by rewrite length_insert|].
    intros i Hi. rewrite list_lookup_insert_ne by lia. by apply H4.
  - etrans; [|exact Hput]. exact Ha2.
  - intros i Hi. simpl. rewrite list_lookup_insert_ne by lia. by apply Hsame; lia.
  - replace (k2 - lo) with (S (k2 - S lo)) by lia. simpl.
    rewrite list_lookup_insert_eq by (rewrite (taken_length a2 k2 Ht2); lia). simpl.
    erewrite traverse_children_mono; [done| |exact He]. intros x y. apply as_type_mono; [done|lia].
Qed.
(** Slots of arguments *)
Definition Refs (K : ast_type -> Prop) (lo : nat) (a : arena) (k : nat)
    (xs : list (option nat)) (ys : list (option ast_type)) : Prop :=
  Forall2 (option_Forall2 (Ref K lo a k)) xs ys.

Lemma Refs_mono K lo a k a' k' xs ys : keeps a a' -> k <= k' -> Refs K lo a k xs ys -> Refs K lo a' k' xs ys.
Proof.
  intros Ha Hk Hxs. eapply Forall2_impl; [exact Hxs|]. intros x y Hxy.
  destruct Hxy; constructor. by eapply Ref_mono.
Qed.

Lemma Refs_read K lo a k xs ys : Refs K lo a k xs ys ->
  traverse (traverse_slot (as_type (k - lo) a)) (leading xs) = Ok (leading ys).
Proof.
  induction 1 as [|x y xs ys Hxy _ Ht]; [done|]. destruct Hxy as [x y [Hr _]|]; [|done].
  simpl. by rewrite Hr, Ht.
Qed.
End sim.

(** ** What converts *)

(** Every operator is one of [parse_phase], and every constant an [int]. *)
Fixpoint convertible (t : ast_type) : bool :=
  match t with
  | Node (transaction e _) => convertible e
  | Node (FieldReference s _) | Node (FieldPointerReference s _) | Node (Dereference s)
  | Node (Endorse _ s) | Node (Ensure _ s) | Node (IsValid s) | Node (Return s) | Node (Binding _ s) =>
      convertible s
  | Node (VarReference _) | Node Skip => true
  | Node (Constant i) => fits_int i
  | Node (BinOp op l r) => convertible l && convertible r && has_binop op
  | Node (Let l r) | Node (LetRemote l r) | Node (Assignment l r) | Node (While l r) | Node (Sequence l r) =>
      convertible l && convertible r
  | Node (operation_args_exprs xs) | Node (operation_args_varrefs xs) =>
      forallb (fun x => match x with Some x => convertible x | None => true end) xs
  | Node (Operation _ _ h es vs) => convertible h && convertible es && convertible vs
  | Node (If c t e) => convertible c && convertible t && convertible e
  end.

(** A conversion succeeds exactly on what is [convertible]. *)
Definition outcome_is {A} (b : bool) (o : outcome A) : Prop :=
  if b then exists p, o = Ok p else exists e, o = Err e.

Definition is_expr (t : ast_type) : Prop := outcome_is (convertible t) (convert_expr t).
Definition is_stmt (t : ast_type) : Prop := outcome_is (convertible t) (convert_stmt t).
Definition is_binding (t : ast_type) : Prop := outcome_is (convertible t) (convert_binding t).
(** An operation is an expression or a statement. *)
Definition is_operation (st : bool) : ast_type -> Prop := if st then is_stmt else is_expr.
Definition is_args (t : ast_type) : Prop := exists es,
  t = Node (operation_args_exprs es) /\
  outcome_is (convertible t) (traverse (convert_arg convert_expr) es).
Definition is_no_varrefs (t : ast_type) : Prop := t = Node (operation_args_varrefs []).

(** A sequence converts to a sequence. *)
Lemma convert_sequence e n p : convert_stmt (Node (Sequence e n)) = Ok p -> exists ss, p = PSequence ss.
Proof.
  simpl. intros Hp. apply bind_Ok in Hp as (q & _ & Hp).
  destruct n as [[]]; outcome_inv; eauto. all: destruct (convert_stmt _) as [[]|]; outcome_inv; eauto.
Qed.

(** The statements of a sequence that goes on to the right, but for the empty one at its end *)
Fixpoint statements (t : ast_type) : list ast_type :=
  match t with
  | Node (Sequence e next) => e :: statements next
  | Node Skip => []
  | t => [t]
  end.

(** The nested sequence the parser builds out of [s1, s2, ..., sn] becomes one flat
    sequence of the statements in their order; one that ends with a comma, or with
    [{}], loses nothing but the empty statement at its end. *)
Theorem convert_sequence_flat e next :
  convert_stmt (Node (Sequence e next)) = PSequence <$> traverse convert_stmt (e :: statements next).
Proof.
  revert e next. fix IH 2. intros e [n]. destruct n as [| | | | | | | | | | | | | | | | | | |e' n'| |].
  20: { specialize (IH e' n'). simpl in IH |- *. rewrite IH. destruct (convert_stmt e); [|done]. simpl.
        destruct (convert_stmt e'); [|done]. simpl. by destruct (traverse _ _). }
  all: simpl; destruct (convert_stmt e); simpl; try done.
  all: match goal with |- context [?m ≫= _] => by destruct m end.
Qed.

(** The steps of a proof that two parsers agree *)
Ltac keeps_chain := first [assumption | reflexivity | etransitivity; [eassumption|]; keeps_chain].

Ltac lift_refs :=
  repeat match goal with
  | HR : Ref _ ?lo ?b ?j _ _, Ha : keeps _ ?a, Hk : _ <= ?k |- Elem _ ?lo ?a ?k _ _ =>
      lazymatch b with a => fail | _ => idtac end;
      eapply (Ref_mono _ _ _ _ a k) in HR; [|keeps_chain|lia]
  end.

Ltac sim_kind :=
  repeat match goal with
  | HR : Ref _ _ _ _ _ _ |- _ => destruct HR as [? ?]
  | HK : is_args _ |- _ => destruct HK as (? & -> & HK)
  | HK : is_no_varrefs _ |- _ => unfold is_no_varrefs in HK; subst
  end;
  unfold is_operation, is_expr, is_stmt, is_binding in *; cbn in *;
  repeat match goal with
  | HK : outcome_is ?b _ |- _ => unfold outcome_is in HK; destruct b; destruct HK as [? HK]
  end; cbn;
  repeat match goal with
  | |- context [has_binop ?op] => destruct (has_binop op)
  | |- context [fits_int ?i] => destruct (fits_int i)
  end.

Ltac sim_rewrite :=
  repeat (cbn; match goal with Hx : ?l = _ |- context [?l] => rewrite Hx end); cbn.

Ltac sim_finish :=
  apply sim_pret; intros; lift_refs; split;
  [sim_kind; by sim_rewrite|unfold is_operation, is_expr, is_stmt, is_binding; sim_kind; sim_rewrite; unfold outcome_is; by eexists].

Section agreement.
Context `{CString}.

Lemma sim_into_array lo a0 k0 s : sim lo a0 k0 (fun _ _ x y => x = y) (into_array s) (into_array s).
Proof. unfold into_array. destruct (str_cpy 20 s); [by apply sim_pret|apply sim_fails]. Qed.

Lemma sim_check_error lo a0 k0 b : sim lo a0 k0 (fun _ _ _ _ => True) (check_error b) (check_error b).
Proof. unfold check_error. destruct b; [apply sim_fails|by apply sim_pret]. Qed.

Lemma sim_assert lo a0 k0 b : sim lo a0 k0 (fun _ _ _ _ => True) (parse_assert b) (parse_assert b).
Proof. unfold parse_assert. destruct b; [by apply sim_pret|apply sim_fails]. Qed.

Lemma sim_check_name lo a0 k0 s : sim lo a0 k0 (fun _ _ _ _ => True) (check_name s) (check_name s).
Proof. unfold check_name. repeat (eapply sim_pbind; [apply sim_check_error|]; intros); apply sim_check_error. Qed.

Section expressions.
Variables (pe1 : string -> PM arena nat) (pe2 : string -> PM nat ast_type).
Hypothesis Hpe : forall lo a0 k0 s, sim lo a0 k0 (Ref is_expr lo) (pe1 s) (pe2 s).

Ltac sim_step := first
  [ apply sim_build; intros ? | apply Hpe | apply sim_into_array | apply sim_check_name | apply sim_assert
  | apply sim_fails | (eapply sim_pbind; [sim_step | intros; cbv beta in *; simplify_eq]) ].

Lemma sim_binop lo a0 k0 s c :
  sim lo a0 k0 (Ref is_expr lo) (parse_binop build_arena pe1 s c) (parse_binop build_tree pe2 s c).
Proof. repeat sim_step. sim_finish. Qed.

Lemma sim_builtin_op lo a0 k0 s c :
  sim lo a0 k0 (Ref is_expr lo) (parse_builtin_op build_arena pe1 s c) (parse_builtin_op build_tree pe2 s c).
Proof. unfold parse_builtin_op. repeat case_match; repeat sim_step; try sim_finish. Qed.

Lemma sim_fieldref lo a0 k0 s :
  sim lo a0 k0 (Ref is_expr lo) (parse_fieldref build_arena pe1 s) (parse_fieldref build_tree pe2 s).
Proof. repeat sim_step. sim_finish. Qed.

Lemma sim_fieldptrref lo a0 k0 s :
  sim lo a0 k0 (Ref is_expr lo) (parse_fieldptrref build_arena pe1 s) (parse_fieldptrref build_tree pe2 s).
Proof. repeat sim_step. sim_finish. Qed.

Lemma sim_deref lo a0 k0 s :
  sim lo a0 k0 (Ref is_expr lo) (parse_deref build_arena pe1 s) (parse_deref build_tree pe2 s).
Proof. repeat sim_step. sim_finish. Qed.

Lemma sim_constant lo a0 k0 s :
  sim lo a0 k0 (Ref is_expr lo) (parse_constant build_arena s) (parse_constant build_tree s).
Proof. repeat sim_step. sim_finish. Qed.

Lemma sim_varref lo a0 k0 s :
  sim lo a0 k0 (Ref is_expr lo) (parse_varref build_arena s) (parse_varref build_tree s).
Proof. repeat sim_step. sim_finish. Qed.

(** The pieces of the arguments *)
Lemma Refs_convert lo a k xs ys : Refs is_expr lo a k xs ys ->
  outcome_is (convertible (Node (operation_args_exprs (leading ys))))
    (traverse (convert_arg convert_expr) (leading ys)).
Proof.
  induction 1 as [|x y xs ys Hxy _ Hps]; [by exists []|].
  destruct Hxy as [x y [_ Hp]|]; [|by exists []].
  simpl. unfold is_expr in Hp. unfold outcome_is in *. simpl in *.
  destruct (convertible y), Hp as [p ->]; simpl; [|by eexists].
  case_match; destruct Hps as [ps ->]; by eexists.
Qed.

Lemma sim_pieces lo a0 k0 ps : sim lo a0 k0 (Refs is_expr lo) (parse_pieces pe1 ps) (parse_pieces pe2 ps).
Proof.
  revert a0 k0. induction ps as [|p ps IH]; intros a0 k0; simpl; [apply sim_pret; by constructor|].
  apply (sim_pbind _ _ _ (fun a k => option_Forall2 (Ref is_expr lo a k))).
  - case_decide; [apply sim_pret; by constructor|].
    eapply sim_pbind; [apply Hpe|]. intros a k x y Ha Hk HR. apply sim_pret. intros a' k' Ha' Hk'.
    constructor. by eapply Ref_mono.
  - intros a k x y Ha Hk Hx. eapply sim_pbind; [apply IH|]. intros a' k' xs ys Ha' Hk' Hxs.
    apply sim_pret. intros a'' k'' Ha'' Hk''. constructor; [|by eapply Refs_mono].
    destruct Hx; constructor. eapply Ref_mono; [| |done]; [keeps_chain|lia].
Qed.

Lemma sim_args lo a0 k0 s :
  sim lo a0 k0 (Ref is_args lo) (parse_args build_arena pe1 s) (parse_args build_tree pe2 s).
Proof.
  apply sim_build. intros lo'. eapply sim_pbind; [apply sim_pieces|]. intros a k xs ys Ha Hk Hx.
  apply sim_pret. intros a' k' Ha' Hk'. eapply Refs_mono in Hx; [|done..].
  split; [simpl; by rewrite (Refs_read _ _ _ _ _ _ Hx)|].
  exists (leading ys). split; [done|]. by eapply Refs_convert.
Qed.

Lemma sim_vargs lo a0 k0 : sim lo a0 k0 (Ref is_no_varrefs lo)
  (build_arena (mret (operation_args_varrefs []))) (build_tree (mret (operation_args_varrefs []))).
Proof. apply sim_build. intros lo'. by apply sim_pret. Qed.

Lemma sim_poperation lo a0 k0 s st : sim lo a0 k0 (Ref (is_operation st) lo)
  (parse_operation build_arena pe1 s st) (parse_operation build_tree pe2 s st).
Proof.
  apply sim_build. intros lo'. eapply sim_pbind; [apply sim_vargs|]. intros.
  eapply sim_pbind; [apply sim_into_array|]. intros. eapply sim_pbind; [apply sim_args|]. intros.
  repeat sim_step. simplify_eq. destruct st; sim_finish.
Qed.

Lemma sim_access lo a0 k0 s :
  sim lo a0 k0 (Ref is_expr lo) (parse_access build_arena pe1 s) (parse_access build_tree pe2 s).
Proof.
  unfold parse_access. repeat case_match; try apply sim_fails;
    auto using sim_deref, sim_fieldptrref, sim_constant, sim_varref.
  all: eapply sim_pbind; [apply sim_assert|]; intros;
    auto using sim_fieldptrref, sim_builtin_op, sim_fieldref.
  apply (sim_poperation _ _ _ _ false).
Qed.

Lemma sim_expression_step lo a0 k0 s : sim lo a0 k0 (Ref is_expr lo)
  (parse_expression_step build_arena pe1 s) (parse_expression_step build_tree pe2 s).
Proof.
  unfold parse_expression_step. case_decide; [repeat sim_step; sim_finish|].
  destruct (List.find _ binops); [apply sim_binop|apply sim_access].
Qed.
End expressions.

Lemma sim_expression n lo a0 k0 s : sim lo a0 k0 (Ref is_expr lo)
  (parse_expression build_arena n s) (parse_expression build_tree n s).
Proof.
  revert lo a0 k0 s. induction n as [|n IH]; intros lo a0 k0 s; simpl; [apply sim_fails|].
  by apply sim_expression_step.
Qed.

Section statements.
Variables (pe1 : string -> PM arena nat) (pe2 : string -> PM nat ast_type).
Variables (ps1 : string -> PM arena nat) (ps2 : string -> PM nat ast_type).
Hypothesis Hpe : forall lo a0 k0 s, sim lo a0 k0 (Ref is_expr lo) (pe1 s) (pe2 s).
Hypothesis Hps : forall lo a0 k0 s, sim lo a0 k0 (Ref is_stmt lo) (ps1 s) (ps2 s).

Lemma sim_binding lo a0 k0 s :
  sim lo a0 k0 (Ref is_binding lo) (parse_binding build_arena pe1 s) (parse_binding build_tree pe2 s).
Proof.
  apply sim_build. intros lo'. eapply sim_pbind; [apply sim_into_array|]. intros.
  eapply sim_pbind; [apply Hpe|]. intros. cbv beta in *. simplify_eq. sim_finish.
Qed.

Lemma sim_pskip lo a0 k0 : sim lo a0 k0 (Ref is_stmt lo) (build_arena (mret Skip)) (build_tree (mret Skip)).
Proof. apply sim_build. intros lo'. sim_finish. Qed.

Lemma is_stmt_sequence e n : is_stmt e -> is_stmt n -> is_stmt (Node (Sequence e n)).
Proof.
  unfold is_stmt, outcome_is. intros Hp Hq.
  simpl. destruct (convertible e), Hp as [p ->]; simpl; [|by eexists].
  destruct n as [n]. destruct n; simpl in Hq |- *;
    repeat match goal with |- context [if ?b then _ else _] => destruct b end;
    destruct Hq as [q Hq]; rewrite ?Hq; simpl; eauto.
  destruct (convert_sequence _ _ _ Hq) as [ss ->]. eauto.
Qed.

Ltac sim_step := first
  [ apply sim_binding | apply sim_pskip | apply sim_build; intros ? | apply Hpe | apply Hps
  | (eapply sim_pbind; [sim_step | intros; cbv beta in *; simplify_eq]) ].

Lemma sim_sequence lo a0 k0 s :
  sim lo a0 k0 (Ref is_stmt lo) (parse_sequence build_arena ps1 s) (parse_sequence build_tree ps2 s).
Proof.
  repeat sim_step. apply sim_pret; intros; lift_refs.
  repeat match goal with HR : Ref _ _ _ _ _ _ |- _ => destruct HR as [? ?] end.
  split; [by sim_rewrite|by apply is_stmt_sequence].
Qed.

Lemma sim_statement_step lo a0 k0 s : sim lo a0 k0 (Ref is_stmt lo)
  (parse_statement_step build_arena pe1 ps1 s) (parse_statement_step build_tree pe2 ps2 s).
Proof.
  unfold parse_statement_step. repeat case_match; try apply sim_fails; try apply Hps; try apply sim_sequence.
  all: try (apply (sim_poperation _ _ Hpe _ _ _ _ true)).
  all: unfold parse_if; repeat case_match; repeat sim_step; try sim_finish.
Qed.
End statements.

Lemma sim_statement n lo a0 k0 s : sim lo a0 k0 (Ref is_stmt lo)
  (parse_statement build_arena n s) (parse_statement build_tree n s).
Proof.
  revert lo a0 k0 s. induction n as [|n IH]; intros lo a0 k0 s; [apply sim_fails|].
  change (sim lo a0 k0 (Ref is_stmt lo)
    (parse_statement_step build_arena (parse_expression build_arena (S n)) (parse_statement build_arena n) s)
    (parse_statement_step build_tree (parse_expression build_tree (S n)) (parse_statement build_tree n) s)).
  apply sim_statement_step; [|done]. intros. apply sim_expression.
Qed.

(** ** The whole text *)

Lemma empty_taken : taken empty_arena 0.
Proof.
  constructor; [vm_compute; lia|done|by vm_compute|]. intros i Hi. apply lookup_replicate_2. lia.
Qed.

(** The node count bounds the depth of the tree, and the budget of [as_type] the count. *)
Lemma parse_agrees s :
  match parse s, parse_tree s with
  | inl a, inl t => as_type_top a = Ok (Node (transaction t (top_payload a))) /\ is_stmt t
  | inr e, inr e' => e = e'
  | _, _ => False
  end.
Proof.
  unfold parse, parse_tree, parse_text. destruct (contains ";" s); [reflexivity|].
  pose proof (sim_statement (S (String.length s)) 0 empty_arena 0 s empty_arena 0 empty_taken
    ltac:(lia) ltac:(reflexivity) ltac:(lia)) as Hs.
  destruct (parse_statement build_arena _ s _) as [[r a]|e], (parse_statement build_tree _ s _) as [[t k]|e'];
    try done.
  destruct Hs as ([Hk _ _ _] & _ & _ & _ & Hr & Hst). split; [|done].
  unfold as_type_top. erewrite as_type_mono; [done| | |exact Hr]; [by intros i x Hx|].
  unfold Alloc_size, as_type_budget in *. lia.
Qed.

(** C8: The arena and its reading back are transparent: what the parser makes of a
    text, through 400 slots that refer to each other by index, [as_type] with its
    budget of 1000 and [convert_to_old_parsed], is the conversion of the tree that
    a parser without an arena builds, and it stops on the same texts with the
    same errors.  The budget and the null checks of [as_type] never stop it. *)
Theorem parsed_through_arena s :
  parsed_t s = match parse_tree s with inl t => inl (convert_stmt t) | inr e => inr e end.
Proof.
  pose proof (parse_agrees s) as Hp. unfold parsed_t.
  destruct (parse s) as [a|e], (parse_tree s) as [t|e']; try done; [|by subst].
  destruct Hp as [Ha _]. by rewrite Ha.
Qed.

(** C9: What parses is a tree of [parse_phase] for the passes of the compiler, and
    neither [as_type] nor [convert_to_old_parsed] stops compilation, as long as every
    operator is one of the nine of [parse_phase] and every constant is an [int]; of the
    operators the parser reads only [!=] is not. *)
Theorem parsed_converts s t : parse_tree s = inl t ->
  (convertible t = true <-> exists p, parsed_t s = inl (Ok p)).
Proof.
  intros Ht. pose proof (parse_agrees s) as Hp. unfold parsed_t. rewrite Ht in Hp.
  destruct (parse s) as [a|e]; [|done]. destruct Hp as [-> Hst]. simpl.
  unfold is_stmt, outcome_is in Hst.
  destruct (convertible t), Hst as [x ->]; split; intros Hx; eauto; [done|]. by destruct Hx.
Qed.

(** The one operator that is read and not converted *)
Lemma binops_convert op : op ∈ binops ->
  has_binop (match op with String c _ => c | EmptyString => "000"%char end) = negb (bool_decide (op = "!="%string)).
Proof. intros Hop. repeat (apply elem_of_cons in Hop as [->|Hop]; [done|]). by apply elem_of_nil in Hop. Qed.

(** At most 400 nodes: a text whose tree is larger does not parse. *)
Theorem parse_within_arena s a : parse s = inl a ->
  length (data a) = Alloc_size /\ exists k, k <= Alloc_size /\
    open_slots a = replicate k false ++ replicate (Alloc_size - k) true.
Proof.
  unfold parse, parse_text. destruct (contains ";" s); [done|].
  pose proof (sim_statement (S (String.length s)) 0 empty_arena 0 s empty_arena 0 empty_taken
    ltac:(lia) ltac:(reflexivity) ltac:(lia)) as Hs.
  destruct (parse_statement build_arena _ s _) as [[r a']|e]; [|done].
  destruct (parse_statement build_tree _ s _) as [[t k]|e']; [|done].
  intros [= <-]. destruct Hs as (Ht & _). split; [apply Ht|]. exists k. split; apply Ht.
Qed.
End agreement.
