(* ===== verification/AsValue.v ===== *)
(** * A type as an arena

    The functions [as_value] of [mtl/new-parsing/ast.hpp], which lay the tree of a
    type out in an arena again, and the proof that [as_type] is their inverse. *)
From S2P Require Import Prelude Labels ParseAst Parse ParseArena.

#[local] Open Scope nat_scope.

(** ** The definitions

    As the parser, over a [build]. *)
Section as_value.
Context `{CString} {S N M : Type}.
Variable build : PM S (elem N) -> PM S N.

(** [sequence_assign<ref, type_args...>(r)]: one slot after the other; behind the 20 slots of
    the array is an error. *)
Fixpoint assign_slots (f : M -> PM S N) (xs : list (option M)) : PM S (list (option N)) :=
  match xs with
  | [] => mret []
  | x :: xs =>
      r ← (match x with Some x => r ← f x; mret (Some r) | None => mret None end);
      rs ← assign_slots f xs; mret (r :: rs)
  end.

Definition sequence_assign (f : M -> PM S N) (xs : list (option M)) : PM S (list (option N)) :=
  if length xs <=? 20 then rs ← assign_slots f xs; mret (rs ++ replicate (20 - length xs) None)
  else fails OutOfBounds.

(** The fields of a node, each function [as_value] for its kind of node *)
Definition store_fields (f : M -> PM S N) (e : elem M) : PM S (elem N) :=
  match e with
  | transaction e p => e ← f e; mret (transaction e p)
  | FieldReference s n => s ← f s; n ← into_array n; mret (FieldReference s n)
  | FieldPointerReference s n => s ← f s; n ← into_array n; mret (FieldPointerReference s n)
  | Dereference s => s ← f s; mret (Dereference s)
  | Endorse l h => l ← into_array l; h ← f h; mret (Endorse l h)
  | Ensure l h => l ← into_array l; h ← f h; mret (Ensure l h)
  | IsValid h => h ← f h; mret (IsValid h)
  | VarReference v => v ← into_array v; mret (VarReference v)
  | Constant i => mret (Constant i)
  | BinOp op l r => l ← f l; r ← f r; mret (BinOp op l r)
  | Let b s => b ← f b; s ← f s; mret (Let b s)
  | LetRemote b s => b ← f b; s ← f s; mret (LetRemote b s)
  | operation_args_exprs xs => xs ← sequence_assign f xs; mret (operation_args_exprs xs)
  | operation_args_varrefs xs => xs ← sequence_assign f xs; mret (operation_args_varrefs xs)
  | Operation st n h es vs =>
      n ← into_array n; h ← f h; es ← f es; vs ← f vs; mret (Operation st n h es vs)
  | Assignment v e => v ← f v; e ← f e; mret (Assignment v e)
  | Return e => e ← f e; mret (Return e)
  | If c t e => c ← f c; t ← f t; e ← f e; mret (If c t e)
  | While c s => c ← f c; s ← f s; mret (While c s)
  | Sequence e n => e ← f e; n ← f n; mret (Sequence e n)
  | Skip => mret Skip
  | Binding v r => r ← f r; v ← into_array v; mret (Binding v r)
  end.
End as_value.

(** [as_values_ns_fns::as_value] *)
Fixpoint as_value `{CString} {S N} (build : PM S (elem N) -> PM S N) (t : ast_type) : PM S N :=
  match t with Node e => build (store_fields (as_value build) e) end.

(** [as_value<400, hd>()]: the transaction is a node of its own, and copied to [top]. *)
Definition as_value_top `{CString} (t : ast_type) : arena + parse_stop :=
  match t with
  | Node (transaction _ _) =>
      match as_value build_arena t empty_arena with
      | inl (r, a) =>
          match get_elem a r with
          | Ok (transaction e p) =>
              inl {| data := data a; open_slots := open_slots a; top_ref := e; top_payload := p |}
          | _ => inr AssertionFails
          end
      | inr e => inr e
      end
  | _ => inr AssertionFails
  end.

(** ** What fits *)

(** The children of a node, folded in their order *)
Definition fold_children {A B} (f : A -> B) (op : B -> B -> B) (z : B) (e : elem A) : B :=
  match e with
  | transaction x _ | FieldReference x _ | FieldPointerReference x _ | Dereference x | Endorse _ x
  | Ensure _ x | IsValid x | Return x | Binding _ x => op (f x) z
  | VarReference _ | Constant _ | Skip => z
  | BinOp _ x y | Let x y | LetRemote x y | Assignment x y | While x y | Sequence x y =>
      op (f x) (op (f y) z)
  | operation_args_exprs xs | operation_args_varrefs xs =>
      foldr (fun x z => match x with Some x => op (f x) z | None => z end) z xs
  | Operation _ _ x y u | If x y u => op (f x) (op (f y) (op (f u) z))
  end.

(** Nodes of a tree *)
Fixpoint tree_size (t : ast_type) : nat :=
  match t with Node e => Datatypes.S (fold_children tree_size Nat.add 0 e) end.

(** A name that an array holds, and that [trim_ends] leaves alone *)
Definition storable_name `{CString} (s : string) : bool :=
  bool_decide (str_cpy 20 s = Some s) && bool_decide (trim_ends s = s).

Definition storable_elem `{CString} {A} (e : elem A) : bool :=
  match e with
  | FieldReference _ n | FieldPointerReference _ n | Endorse n _ | Ensure n _ | VarReference n
  | Operation _ n _ _ _ | Binding n _ => storable_name n
  | operation_args_exprs xs | operation_args_varrefs xs =>
      (length xs <=? 20) && forallb (fun x => match x with Some _ => true | None => false end) xs
  | _ => true
  end.

Fixpoint storable `{CString} (t : ast_type) : bool :=
  match t with Node e => storable_elem e && fold_children storable andb true e end.

(** ** Induction over the tree *)

Definition children {A} (e : elem A) : list A := fold_children (fun x => [x]) app [] e.

Lemma ast_type_ind' (P : ast_type -> Prop) :
  (forall e, Forall P (children e) -> P (Node e)) -> forall t, P t.
Proof.
  intros HP. fix IH 1. intros [e]. apply HP. destruct e; simpl; repeat constructor; try apply IH.
  - induction exprs as [|[x|] xs IHxs]; simpl; [constructor|constructor; [apply IH|exact IHxs]|exact IHxs].
  - induction vars as [|[x|] xs IHxs]; simpl; [constructor|constructor; [apply IH|exact IHxs]|exact IHxs].
Qed.

(** ** Laying out and reading back *)

Section roundtrip.
Context `{CString}.

#[local] Abbreviation any := (fun _ : ast_type => True).

Lemma sim_assign_slots (f1 : ast_type -> PM arena nat) (f2 : ast_type -> PM nat ast_type) xs lo a0 k0 :
  Forall (fun t => forall lo a0 k0, sim lo a0 k0 (Ref any lo) (f1 t) (f2 t))
    (children (operation_args_exprs xs)) ->
  sim lo a0 k0 (Refs any lo) (sequence_assign f1 xs) (sequence_assign f2 xs).
Proof.
  intros Hf. unfold sequence_assign. case_match; [|apply sim_fails].
  apply (sim_pbind _ _ _ (Refs any lo)).
  2: { intros a k rs ts Ha Hk HR. apply sim_pret. intros a' k' Ha' Hk'. apply Forall2_app.
       - by eapply Refs_mono.
       - generalize (20 - length xs). intros d. induction d; constructor; [constructor|done]. }
  clear - Hf. revert a0 k0 Hf. induction xs as [|x xs IH]; intros a0 k0 Hf; simpl; [apply sim_pret; by constructor|].
  apply (sim_pbind _ _ _ (fun a k => option_Forall2 (Ref any lo a k))).
  - destruct x as [x|]; [|apply sim_pret; by constructor].
    simpl in Hf. apply Forall_cons in Hf as [Hx _].
    eapply sim_pbind; [apply Hx|]. intros a k r t Ha Hk HR. apply sim_pret. intros a' k' Ha' Hk'.
    constructor. by eapply Ref_mono.
  - intros a k r t Ha Hk Hr. eapply sim_pbind.
    { apply IH. destruct x as [x|]; simpl in Hf; [by apply Forall_cons in Hf as [_ Hf]|done]. }
    intros a' k' rs ts Ha' Hk' Hrs. apply sim_pret. intros a'' k'' Ha'' Hk''.
    constructor; [|by eapply Refs_mono].
    destruct Hr; constructor. eapply Ref_mono; [| |done]; [keeps_chain|lia].
Qed.

Lemma sim_store_fields (f1 : ast_type -> PM arena nat) (f2 : ast_type -> PM nat ast_type) e lo a0 k0 :
  Forall (fun t => forall lo a0 k0, sim lo a0 k0 (Ref any lo) (f1 t) (f2 t)) (children e) ->
  sim lo a0 k0 (Elem any lo) (store_fields f1 e) (store_fields f2 e).
Proof.
  assert (Hargs : forall xs (C : forall A, list (option A) -> elem A),
    C = @operation_args_exprs \/ C = @operation_args_varrefs ->
    Forall (fun t => forall lo a0 k0, sim lo a0 k0 (Ref any lo) (f1 t) (f2 t)) (children (C _ xs)) ->
    sim lo a0 k0 (Elem any lo) (rs ← sequence_assign f1 xs; mret (C _ rs)) (ts ← sequence_assign f2 xs; mret (C _ ts))).
  { intros xs C HC Hxs. eapply sim_pbind; [apply sim_assign_slots; by destruct HC; subst|].
    intros a k rs ts Ha Hk HR. apply sim_pret. intros a' k' Ha' Hk'. split; [|done].
    eapply Refs_mono in HR; [|done..]. destruct HC; subst; simpl; by rewrite (Refs_read _ _ _ _ _ _ HR). }
  intros Hf.
  destruct e; try (apply (Hargs _ (@operation_args_exprs)); [by left|done]);
    try (apply (Hargs _ (@operation_args_varrefs)); [by right|done]); clear Hargs.
  all: unfold children in Hf; simpl in Hf; repeat (apply Forall_cons in Hf as [? Hf]).
  all: simpl; repeat (eapply sim_pbind; [by first [apply sim_into_array | eauto]|]; intros; cbv beta in *; simplify_eq).
  all: apply sim_pret; intros; lift_refs;
    repeat match goal with HR : Ref _ _ _ _ _ _ |- _ => destruct HR as [? _] end;
    split; [by sim_rewrite|done].
Qed.

Lemma sim_as_value t lo a0 k0 :
  sim lo a0 k0 (Ref any lo) (as_value build_arena t) (as_value build_tree t).
Proof.
  revert lo a0 k0. induction t as [e IH] using ast_type_ind'. intros lo a0 k0. simpl.
  apply sim_build. intros lo'. by apply sim_store_fields.
Qed.

(** *** Without an arena the tree comes back *)

Definition returns_tree (f : ast_type -> PM nat ast_type) (t : ast_type) : Prop :=
  forall n, storable t = true -> n + tree_size t <= Alloc_size -> f t n = inl (t, n + tree_size t).

Lemma assign_slots_returns f xs n :
  Forall (returns_tree f) (children (operation_args_exprs xs)) ->
  storable (Node (operation_args_exprs xs)) = true ->
  n + fold_children tree_size Nat.add 0 (operation_args_exprs xs) <= Alloc_size ->
  sequence_assign f xs n =
    inl (xs ++ replicate (20 - length xs) None, n + fold_children tree_size Nat.add 0 (operation_args_exprs xs)).
Proof.
  intros Hf Hs Hn. unfold sequence_assign. simpl in Hs.
  destruct (length xs <=? 20); [|done]. simpl andb in Hs. generalize (20 - length xs). intros d.
  assert (Ha : assign_slots f xs n = inl (xs, n + fold_children tree_size Nat.add 0 (operation_args_exprs xs))).
  { revert n Hf Hs Hn. induction xs as [|[x|] xs IH]; intros n Hf Hs Hn; [|simpl|done].
    - simpl. by rewrite Nat.add_0_r.
    - unfold children in Hf. simpl in *. apply Forall_cons in Hf as [Hx Hf].
      rewrite !andb_true_iff in Hs. destruct Hs as [Hxs [Hsx Hs]].
      unfold mbind, PM_bind, mret, PM_ret. rewrite Hx by (done || lia).
      rewrite IH by (done || lia || by rewrite Hxs, Hs). do 2 f_equal. lia. }
  unfold mbind, PM_bind. by rewrite Ha.
Qed.

Lemma leading_padded {A} (xs : list (option A)) d :
  forallb (fun x => match x with Some _ => true | None => false end) xs = true ->
  leading (xs ++ replicate d None) = xs.
Proof.
  induction xs as [|[x|] xs IH]; simpl; [by destruct d| |done]. intros Hx. by rewrite IH.
Qed.

Lemma into_array_storable {S} s (st : S) : storable_name s = true -> into_array s st = inl (s, st).
Proof.
  unfold storable_name. rewrite andb_true_iff, !bool_decide_eq_true. intros [Hs _].
  unfold into_array. by rewrite Hs.
Qed.

Lemma storable_name_trim s : storable_name s = true -> trim_ends s = s.
Proof. unfold storable_name. rewrite andb_true_iff, !bool_decide_eq_true. by intros [_ ->]. Qed.

Lemma store_fields_returns f e n : Forall (returns_tree f) (children e) ->
  storable (Node e) = true -> n + fold_children tree_size Nat.add 0 e <= Alloc_size ->
  exists e', store_fields f e n = inl (e', n + fold_children tree_size Nat.add 0 e) /\ type_elem e' = e.
Proof.
  intros Hf Hs Hn. simpl in Hs. apply andb_true_iff in Hs as [He Hs].
  destruct e.
  13, 14: eexists; split;
    [simpl; unfold mbind, PM_bind; rewrite assign_slots_returns; [done|done| |done]; simpl in *; by rewrite He, Hs
    |simpl in *; apply andb_true_iff in He as [_ He]; by rewrite leading_padded].
  all: unfold children in Hf; simpl in Hf, Hs, He, Hn; repeat (apply Forall_cons in Hf as [? Hf]);
    rewrite ?andb_true_iff in Hs; destruct_and?.
  all: simpl; unfold mbind, PM_bind, mret, PM_ret.
  all: repeat first [rewrite into_array_storable by done
    | match goal with Hr : returns_tree ?g ?x |- context [?g ?x _] => rewrite Hr by (done || lia) end].
  all: eexists; split; [do 2 f_equal; lia|simpl; by rewrite ?storable_name_trim].
Qed.

Lemma as_value_returns t : returns_tree (as_value build_tree) t.
Proof.
  induction t as [e IH] using ast_type_ind'. intros n Hs Hn.
  change (as_value build_tree (Node e) n) with (build_tree (store_fields (as_value build_tree) e) n).
  unfold build_tree at 1. simpl tree_size in *. destruct (Nat.ltb_spec n Alloc_size); [|lia].
  destruct (store_fields_returns _ e (S n) IH Hs ltac:(lia)) as (e' & He & Ht).
  unfold mbind, PM_bind. rewrite He.
  unfold mret, PM_ret. rewrite Ht. do 2 f_equal. lia.
Qed.

(** C11: [as_type] is the inverse of [as_value]: a transaction whose nodes, with its own, fit
    the arena, whose names fit their arrays and are trimmed, and whose operations
    have at most 20 arguments, is laid out and read back as it was. *)
Theorem as_value_roundtrip t payload : storable t = true -> tree_size t < Alloc_size ->
  exists a, as_value_top (Node (transaction t payload)) = inl a /\
            as_type_top a = Ok (Node (transaction t payload)).
Proof.
  intros Hs Hn. set (whole := Node (transaction t payload)).
  pose proof (sim_as_value whole 0 empty_arena 0 empty_arena 0 empty_taken
    ltac:(lia) ltac:(reflexivity) ltac:(lia)) as Hsim.
  rewrite (as_value_returns whole 0) in Hsim; [|simpl; by rewrite Hs|simpl; lia].
  unfold as_value_top. fold whole. destruct (as_value build_arena whole empty_arena) as [[r a]|]; [|done].
  destruct Hsim as ([Hk _ _ _] & _ & _ & _ & Hr & _).
  rewrite Nat.sub_0_r in Hr. destruct (0 + tree_size whole) as [|k] eqn:Ek; [done|].
  simpl in Hr. apply bind_Ok in Hr as (e & He & Hr). apply bind_Ok in Hr as (e' & He' & [= Heq]).
  subst e'. destruct e; simpl in He'; outcome_inv; simplify_eq. rewrite He. eexists. split; [done|].
  unfold as_type_top. cbn [top_ref top_payload]. erewrite as_type_mono; [done| | |eassumption]; [by intros i x Hx|].
  unfold Alloc_size, as_type_budget in *. lia.
Qed.
End roundtrip.
