(* ===== verification/ParseTotal.v ===== *)
(** * The parser terminates

    Every recursive call of the parser is on a shorter text, as long as the string
    functions promise of lengths what [CStringLaws] states: the fuel of [parse_text]
    is never used up, and more of it changes nothing. *)
From S2P Require Import Prelude Labels ParseAst Parse ParseArena.

#[local] Open Scope nat_scope.

(** ** Parsers that agree and do not run out *)

Section agree.
Context {S : Type}.

Definition agree {A} (m m' : PM S A) : Prop := forall s, m s = m' s /\ m s <> inr NoParseFuel.

Lemma agree_pret {A} (x : A) : agree (mret x) (mret x).
Proof. by intros s. Qed.

Lemma agree_fails {A} e : e <> NoParseFuel -> agree (A := A) (fails e) (fails e).
Proof. intros He s. split; [done|]. unfold fails. congruence. Qed.

Lemma agree_pbind {A B} (m m' : PM S A) (f f' : A -> PM S B) :
  agree m m' -> (forall x, agree (f x) (f' x)) -> agree (m ≫= f) (m' ≫= f').
Proof.
  intros Hm Hf s. destruct (Hm s) as [He Hn]. unfold mbind, PM_bind. rewrite <- He.
  destruct (m s) as [[x s']|e]; [apply Hf|]. split; [done|congruence].
Qed.

Lemma agree_into_array `{CString} s : agree (into_array s) (into_array s).
Proof. unfold into_array. destruct (str_cpy 20 s); [apply agree_pret|by apply agree_fails]. Qed.

Lemma agree_check_error b : agree (check_error b) (check_error b).
Proof. destruct b; [by apply agree_fails|apply agree_pret]. Qed.

Lemma agree_assert b : agree (parse_assert b) (parse_assert b).
Proof. destruct b; [apply agree_pret|by apply agree_fails]. Qed.

Lemma agree_check_name `{CString} s : agree (check_name s) (check_name s).
Proof. unfold check_name. repeat (apply agree_pbind; [apply agree_check_error|intros _]). apply agree_check_error. Qed.
End agree.

(** A step of such a proof *)
Ltac agree_step :=
  first [ apply agree_check_name | apply agree_into_array | apply agree_assert | apply agree_pret
        | apply agree_pbind; [|intros ?] | (apply agree_fails; done) ].

(** ** Lengths *)

#[local] Abbreviation len := String.length.

Lemma from_offset_length n s : len (from_offset n s) <= len s.
Proof. revert s. induction n as [|n IH]; intros [|c s]; simpl; [lia..|]. specialize (IH s). lia. Qed.

Lemma nonempty_length s : s <> ""%string -> 0 < len s.
Proof. destruct s; simpl; [done|lia]. Qed.

Lemma first_char_nonempty s c : c <> "000"%char -> first_char s = c -> s <> ""%string.
Proof. intros Hc Hs ->. by simpl in Hs. Qed.

Section total.
Context `{HC : CString} `{!CStringLaws} {S N : Type}.
Variable build : PM S (elem N) -> PM S N.
Hypothesis build_agree : forall m m', agree m m' -> agree (build m) (build m').

Lemma slots_elem n p pieces : p ∈ slots n pieces -> p = ""%string \/ p ∈ pieces.
Proof.
  unfold slots. intros (i & -> & _)%list_elem_of_fmap.
  destruct (pieces !! i) eqn:E; simpl; [right; by eapply list_elem_of_lookup_2|by left].
Qed.

(** Bounds of the lengths of the parts of [s], added to the context *)
Ltac lengths :=
  repeat match goal with
  | |- context [trim ?s] => lazymatch goal with Hx : len (trim s) <= _ |- _ => fail | _ => pose proof (trim_length s) end
  | |- context [last_split ?c ?s] =>
      lazymatch goal with Hx : len (last_split c s).1 <= _ /\ _ |- _ => fail | _ => pose proof (last_split_length c s) end
  | |- context [first_split ?c ?s] =>
      lazymatch goal with Hx : len (first_split c s).1 <= _ /\ _ |- _ => fail | _ => pose proof (first_split_length c s) end
  | |- context [remove_first_word ?s] =>
      lazymatch goal with Hx : len (remove_first_word s) <= _ |- _ => fail | _ => pose proof (remove_first_length s) end
  | |- context [next_paren_group ?s] =>
      lazymatch goal with Hx : len (next_paren_group s).1 <= _ |- _ => fail | _ => pose proof (paren_group_length s) end
  | |- context [copy_within_parens ?s] =>
      lazymatch goal with Hx : len (copy_within_parens s) <= _ |- _ => fail | _ => pose proof (within_parens_length s) end
  | |- context [from_offset ?n ?s] =>
      lazymatch goal with Hx : len (from_offset n s) <= _ |- _ => fail | _ => pose proof (from_offset_length n s) end
  end; lia.

Section expressions.
Variables (pe pe' : string -> PM S N) (bound : nat).
Hypothesis Hpe : forall s, len s < bound -> agree (pe s) (pe' s).

Lemma agree_binop str c : len str <= bound -> c <> ""%string -> contains_outside_parens c str = true ->
  agree (parse_binop build pe str c) (parse_binop build pe' str c).
Proof.
  intros Hb Hc Hs. destruct (last_split_shorter c str Hc Hs).
  apply build_agree. repeat agree_step; apply Hpe; lia.
Qed.

Lemma agree_builtin_op str c : len (last_split "." (trim str)).1 < bound ->
  agree (parse_builtin_op build pe str c) (parse_builtin_op build pe' str c).
Proof.
  intros Hb. unfold parse_builtin_op. repeat case_match; try (by apply agree_fails);
    apply build_agree; repeat agree_step; by apply Hpe.
Qed.

Lemma agree_pieces ps : (forall p, p ∈ ps -> p = ""%string \/ len p < bound) ->
  agree (parse_pieces pe ps) (parse_pieces pe' ps).
Proof.
  induction ps as [|p ps IH]; intros Hp; simpl; [apply agree_pret|].
  assert (Hps : agree (parse_pieces pe ps) (parse_pieces pe' ps)) by (apply IH; intros q Hq; apply Hp; by right).
  apply agree_pbind; [|intros r; apply agree_pbind; [done|intros; apply agree_pret]].
  destruct (Hp p ltac:(by left)) as [->|Hl]; [apply agree_pret|].
  case_decide; repeat agree_step. by apply Hpe.
Qed.

Lemma agree_args str : len str < bound -> agree (parse_args build pe str) (parse_args build pe' str).
Proof.
  intros Hb. apply build_agree. agree_step; [|apply agree_pret]. apply agree_pieces.
  intros p [->|Hp]%slots_elem; [by left|right]. apply split_outside_length in Hp. lia.
Qed.

Lemma agree_operation str st : len (last_split "." str).1 < bound ->
  len (next_paren_group (last_split "." str).2).1 < bound ->
  agree (parse_operation build pe str st) (parse_operation build pe' str st).
Proof.
  intros H1 H2. apply build_agree. repeat agree_step; [|by apply agree_args|by apply Hpe].
  apply build_agree, agree_pret.
Qed.

Lemma agree_fieldref str : len (last_split "." (trim str)).1 < bound ->
  agree (parse_fieldref build pe str) (parse_fieldref build pe' str).
Proof. intros Hb. agree_step; [apply agree_check_name|]. apply build_agree. repeat agree_step. by apply Hpe. Qed.

Lemma agree_fieldptrref str : len (last_split "->" (trim str)).1 < bound ->
  agree (parse_fieldptrref build pe str) (parse_fieldptrref build pe' str).
Proof. intros Hb. agree_step; [apply agree_check_name|]. apply build_agree. repeat agree_step. by apply Hpe. Qed.

Lemma agree_deref str : len (from_offset 1 (trim str)) < bound ->
  agree (parse_deref build pe str) (parse_deref build pe' str).
Proof. intros Hb. apply build_agree. repeat agree_step. by apply Hpe. Qed.

Lemma agree_varref str : agree (parse_varref build str) (parse_varref build str).
Proof. apply build_agree. repeat agree_step. Qed.

Lemma agree_access str : trim str = str -> len str <= bound ->
  agree (parse_access build pe str) (parse_access build pe' str).
Proof.
  intros Hid Hb. unfold parse_access. destruct (prefix_equal "*" str) eqn:Hstar.
  { apply prefix_nonempty in Hstar; [|done]. apply nonempty_length in Hstar.
    case_match; [|by apply agree_fails]. apply agree_deref. rewrite Hid.
    destruct str; simpl in *; lia. }
  destruct (contains_outside_parens "." str) eqn:Hdot.
  - destruct (last_split_shorter "." str ltac:(done) Hdot) as [H1 H2].
    assert (Hop : len (last_split "." (trim str)).1 < bound) by (rewrite Hid; lia).
    agree_step; [agree_step|].
    destruct (contains_outside_parens "->" _) eqn:Harrow.
    { apply agree_fieldptrref. rewrite Hid. apply contains_behind_split in Harrow; [|done].
      destruct (last_split_shorter "->" str ltac:(done) Harrow). lia. }
    repeat case_match; try (by apply agree_builtin_op); [|by apply agree_fieldref].
    apply agree_operation; [lia|]. lengths.
  - destruct (contains_outside_parens "->" str) eqn:Harrow.
    { apply agree_fieldptrref. rewrite Hid. destruct (last_split_shorter "->" str ltac:(done) Harrow). lia. }
    destruct (bool_decide (first_char str = "("%char)) eqn:Hp; simpl.
    + apply bool_decide_eq_true in Hp. apply first_char_nonempty in Hp; [|done].
      apply nonempty_length in Hp. case_match; [apply Hpe; lengths|].
      case_match; [apply build_agree, agree_pret|apply agree_varref].
    + case_match; [apply build_agree, agree_pret|apply agree_varref].
Qed.

Lemma agree_expression_step str : len str <= bound ->
  agree (parse_expression_step build pe str) (parse_expression_step build pe' str).
Proof.
  intros Hb. unfold parse_expression_step. case_decide; [apply build_agree; repeat agree_step|].
  pose proof (trim_length str).
  destruct (List.find _ binops) as [op|] eqn:Hf; [|apply agree_access; [apply trim_idem|lia]].
  apply find_some in Hf as [Hin Hop]. apply agree_binop; [lia| |done].
  intros ->. simpl in Hin. decompose [or] Hin; done.
Qed.
End expressions.

Lemma agree_expression n m str : len str < n -> len str < m ->
  agree (parse_expression build n str) (parse_expression build m str).
Proof.
  revert m str. induction n as [|n IH]; intros [|m] str Hn Hm; [lia..|]. simpl.
  apply (agree_expression_step _ _ (len str)); [|done]. intros s Hs. apply IH; lia.
Qed.

Section statements.
Variables (pe pe' ps ps' : string -> PM S N) (bound : nat).
Hypothesis Hpe : forall s, len s <= bound -> agree (pe s) (pe' s).
Hypothesis Hps : forall s, len s < bound -> agree (ps s) (ps' s).

Lemma agree_binding str : len str <= bound ->
  agree (parse_binding build pe str) (parse_binding build pe' str).
Proof. intros Hb. apply build_agree. repeat agree_step. apply Hpe. lengths. Qed.

Lemma agree_pvar w str : w <> ""%string -> first_word_is w str = true -> len str <= bound ->
  agree (parse_var build pe ps str) (parse_var build pe' ps' str) /\
  agree (parse_remote build pe ps str) (parse_remote build pe' ps' str).
Proof.
  intros Hw Hf Hb. pose proof (remove_first_shorter w str Hw Hf).
  split; apply build_agree; repeat agree_step; [apply agree_binding|apply Hps|apply agree_binding|apply Hps]; lengths.
Qed.

Lemma agree_sequence str : contains_outside_parens "," str = true -> len str <= bound ->
  agree (parse_sequence build ps str) (parse_sequence build ps' str).
Proof.
  intros Hc Hb. destruct (first_split_shorter "," str Hc).
  apply build_agree. repeat agree_step; apply Hps; lia.
Qed.

Lemma agree_return str : len str <= bound -> agree (parse_return build pe str) (parse_return build pe' str).
Proof. intros Hb. apply build_agree. repeat agree_step. apply Hpe. lengths. Qed.

Lemma agree_while str : 0 < len str -> len str <= bound ->
  agree (parse_while build pe ps str) (parse_while build pe' ps' str).
Proof. intros Hs Hb. apply build_agree. repeat agree_step; [apply Hpe|apply Hps]; lengths. Qed.

Lemma agree_pif str : 0 < len str -> len str <= bound ->
  agree (parse_if build pe ps str) (parse_if build pe' ps' str).
Proof.
  intros Hs Hb. apply build_agree. unfold parse_if. repeat agree_step; [apply Hpe; lengths|apply Hps; lengths|].
  case_match; [apply Hps; lengths|apply build_agree, agree_pret].
Qed.

Lemma agree_assignment str : len str <= bound ->
  agree (parse_assignment build pe str) (parse_assignment build pe' str).
Proof.
  intros Hb. apply build_agree.
  assert (Hi : forall i, len (default ""%string (split_outside_parens "=" str !! i)) <= bound).
  { intros i. destruct (_ !! i) as [p|] eqn:E; simpl; [|lia].
    apply list_elem_of_lookup_2, split_outside_length in E. lia. }
  repeat agree_step; apply Hpe, Hi.
Qed.

Lemma agree_statement_step str : len str <= bound ->
  agree (parse_statement_step build pe ps str) (parse_statement_step build pe' ps' str).
Proof.
  intros Hb. unfold parse_statement_step.
  assert (Hne : forall c, c <> ""%string -> contains_outside_parens c str = true -> 0 < len str).
  { intros c Hc Hs. eapply nonempty_length, contains_nonempty; done. }
  destruct (first_word_is "var" str) eqn:Hv; [by apply (agree_pvar "var")|].
  destruct (first_word_is "remote" str) eqn:Hr; [by apply (agree_pvar "remote")|].
  destruct (contains_outside_parens "," str) eqn:Hc; [by apply agree_sequence|].
  destruct (contains_outside_parens "return" str); [by apply agree_return|].
  destruct (contains_outside_parens "while" str) eqn:Hw; [apply agree_while; [by (eapply Hne; [|eassumption])|done]|].
  destruct (contains_outside_parens "if" str) eqn:Hi; [apply agree_pif; [by (eapply Hne; [|eassumption])|done]|].
  destruct (contains_outside_parens "=" str); [by apply agree_assignment|].
  destruct (first_word_is "{" str) eqn:Hbr.
  { apply first_word_nonempty, nonempty_length in Hbr; [|done]. apply Hps. lengths. }
  destruct (contains_paren str).
  - apply (agree_operation _ _ (Datatypes.S bound)); [|lengths..]. intros s Hs. apply Hpe. lia.
  - case_decide; [apply build_agree, agree_pret|by apply agree_fails].
Qed.
End statements.

Lemma agree_statement n m str : len str < n -> len str < m ->
  agree (parse_statement build n str) (parse_statement build m str).
Proof.
  revert m str. induction n as [|n IH]; intros [|m] str Hn Hm; [lia..|].
  assert (Hpe : forall s, len s <= len str ->
    agree (parse_expression build (Datatypes.S n) s) (parse_expression build (Datatypes.S m) s)).
  { intros s Hs. apply agree_expression; lia. }
  assert (Hps : forall s, len s < len str -> agree (parse_statement build n s) (parse_statement build m s)).
  { intros s Hs. apply IH; lia. }
  exact (agree_statement_step _ _ _ _ _ Hpe Hps str (le_n _)).
Qed.
End total.

(** ** The two parsers *)

Section parsers.
Context `{HC : CString} `{!CStringLaws}.

Lemma build_arena_agree m m' : agree m m' -> agree (build_arena m) (build_arena m').
Proof.
  intros Hm. unfold build_arena. agree_step.
  - intros a. unfold allocate. destruct (list_find _ _) as [[i ?]|]; done.
  - apply agree_pbind; [done|]. intros e. apply agree_pbind; [by intros a|]. intros []. apply agree_pret.
Qed.

(** C10: The parser terminates: with a fuel of one more than the length of the text,
    [parse] never runs out, and any larger fuel gives the same arena or the same error. *)
Theorem parse_terminates n s : String.length s < n ->
  parse s <> inr NoParseFuel /\
  (contains ";" s = false ->
   parse_statement build_arena n s empty_arena = parse_text build_arena s empty_arena).
Proof.
  intros Hn. destruct (agree_statement build_arena build_arena_agree n (S (String.length s)) s Hn
    ltac:(lia) empty_arena) as [He Hf].
  unfold parse, parse_text. destruct (contains ";" s); [done|]. rewrite <- He. split; [|done].
  destruct (parse_statement build_arena n s empty_arena) as [[]|[]]; done.
Qed.
End parsers.
