(* ===== verification/ParseExamples.v ===== *)
(** * The parser on texts

    One set of string functions that keeps the laws of [CStringLaws], and the parser run
    with it: on transactions of the repository's tests, and on texts that show how it
    reads operators. *)
From S2P Require Import Prelude Labels ParseAst Parse ParseArena AsValue ParseTotal.
From S2P Require Import TypeLists TypedAst Typecheck Runtime Holders RunPhase LabelInference PhaseApi Split SplitExamples Compile CompileExamples SplitPhases.

#[local] Open Scope string_scope.
#[local] Open Scope nat_scope.
#[local] Open Scope list_scope.
#[local] Abbreviation len := String.length.

(** ** Functions on strings *)

Definition spaces (c : ascii) : bool := bool_decide (c ∈ [" "; "009"; "010"]%char).
Definition opens (c : ascii) : bool := bool_decide (c ∈ ["("; "{"; "["]%char).
Definition closes (c : ascii) : bool := bool_decide (c ∈ [")"; "}"; "]"]%char).
Definition in_word (c : ascii) : bool :=
  let n := nat_of_ascii c in
  (48 <=? n) && (n <=? 57) || (65 <=? n) && (n <=? 90) || (97 <=? n) && (n <=? 122) || (n =? 95).

(** How deep in parentheses the next character is *)
Definition deeper (d : nat) (c : ascii) : nat :=
  if opens c then S d else if closes c then pred d else d.

Fixpoint trim_front (s : string) : string :=
  match s with String c r => if spaces c then trim_front r else s | _ => s end.
Fixpoint trim_back (s : string) : string :=
  match s with
  | String c r =>
      match trim_back r with
      | EmptyString => if spaces c then "" else String c ""
      | r => String c r
      end
  | _ => s
  end.

(** The offsets outside parentheses where [c] stands *)
Fixpoint offsets (c : string) (d : nat) (s : string) : list nat :=
  match s with
  | EmptyString => []
  | String x r =>
      (if (d =? 0) && String.prefix c s then [0] else []) ++ (S <$> offsets c (deeper d x) r)
  end.

Fixpoint up_to (n : nat) (s : string) : string :=
  match n, s with S n, String c s => String c (up_to n s) | _, _ => "" end.

Definition split_at (i : option nat) (n : nat) (s : string) : string * string :=
  match i with Some i => (up_to i s, from_offset (i + n) s) | None => (s, "") end.

Fixpoint pieces_of (c : ascii) (d : nat) (s : string) : list string :=
  match s with
  | EmptyString => [""]
  | String x r =>
      if (d =? 0) && bool_decide (x = c) then "" :: pieces_of c d r
      else match pieces_of c (deeper d x) r with p :: ps => String x p :: ps | [] => [String x ""] end
  end.

Fixpoint any_char (f : ascii -> bool) (s : string) : bool :=
  match s with String c r => f c || any_char f r | _ => false end.
Fixpoint drop_word (s : string) : string :=
  match s with String c r => if in_word c then drop_word r else s | _ => s end.
Fixpoint behind_open (s : string) : string :=
  match s with String c r => if opens c then r else behind_open r | _ => "" end.
Fixpoint before_open (s : string) : string :=
  match s with String c r => if opens c then "" else String c (before_open r) | _ => "" end.
Fixpoint before_close (d : nat) (s : string) : string :=
  match s with
  | String c r => if closes c && (d =? 0) then "" else String c (before_close (deeper d c) r)
  | _ => ""
  end.
Fixpoint digits (n : Z) (s : string) : Z :=
  match s with
  | String c r => if is_digit c then digits (10 * n + (Z.of_nat (nat_of_ascii c) - 48)) r else n
  | _ => n
  end.

#[export] Instance string_functions : CString := {|
  trim s := trim_back (trim_front s);
  trim_ends s := trim_back (trim_front s);
  last_split c s := split_at (last (offsets c 0 s)) (len c) s;
  first_split c s := split_at (head (offsets (String c "") 0 s)) 1 s;
  split_outside_parens c s := pieces_of c 0 s;
  str_cpy n s := if len s <? n then Some s else None;
  contains c s := any_char (fun x => bool_decide (x = c)) s;
  contains_outside_parens c s := match offsets c 0 s with [] => false | _ => true end;
  contains_paren s := any_char (fun c => opens c || closes c) s;
  contains_space s := any_char spaces s;
  prefix_equal := String.prefix;
  first_word_is w s :=
    let t := trim_front s in
    String.prefix w t && negb (any_char in_word w && in_word (first_char (from_offset (len w) t)));
  remove_first_word s := match trim_front s with String _ r => drop_word r | _ => "" end;
  next_paren_group s :=
    let group := before_close 0 (behind_open s) in
    (group, len s - len (behind_open s) + len group + 1);
  copy_within_parens s := before_close 0 (behind_open s);
  pre_paren := before_open;
  parse_int s := digits 0 s;
|}.

(** ** Their laws *)

#[local] Arguments ascii_dec : simpl never.

Lemma trim_front_length s : len (trim_front s) <= len s.
Proof. induction s as [|c s IH]; simpl; [lia|]. case_match; simpl; lia. Qed.

Lemma trim_back_length s : len (trim_back s) <= len s.
Proof. induction s as [|c s IH]; simpl; [lia|]. repeat case_match; simpl in *; lia. Qed.

Lemma trim_back_idem s : trim_back (trim_back s) = trim_back s.
Proof.
  induction s as [|c s IH]; [done|]. simpl. destruct (trim_back s) as [|x r] eqn:E.
  - destruct (spaces c) eqn:Ec; [done|]. simpl. by rewrite Ec.
  - simpl in IH |- *. by rewrite IH.
Qed.

(** Nothing is left to trim in front of what is trimmed behind. *)
Lemma trim_front_trimmed s : trim_front (trim_back (trim_front s)) = trim_back (trim_front s).
Proof.
  induction s as [|c s IH]; [done|]. simpl. destruct (spaces c) eqn:Ec; [done|].
  simpl. destruct (trim_back s); rewrite ?Ec; simpl; by rewrite Ec.
Qed.

Lemma up_to_length n s : len (up_to n s) <= n.
Proof. revert s. induction n as [|n IH]; intros [|c s]; simpl; [lia..|]. specialize (IH s). lia. Qed.

Lemma up_to_shorter n s : len (up_to n s) <= len s.
Proof. revert s. induction n as [|n IH]; intros [|c s]; simpl; [lia..|]. specialize (IH s). lia. Qed.

Lemma from_offset_shorter n s : 0 < n -> 0 < len s -> len (from_offset n s) < len s.
Proof. destruct n, s; simpl; [lia..|]. intros _ _. pose proof (from_offset_length n s). lia. Qed.

Lemma split_at_length i n s : len (split_at i n s).1 <= len s /\ len (split_at i n s).2 <= len s.
Proof.
  destruct i as [i|]; simpl; [|lia].
  split; [apply up_to_shorter|apply from_offset_length].
Qed.

Lemma offsets_bound c d s i : i ∈ offsets c d s -> i < len s.
Proof.
  revert d i. induction s as [|x s IH]; intros d i; simpl; [by intros ?%elem_of_nil|].
  intros [Hi|(j & -> & Hj)%list_elem_of_fmap]%elem_of_app; [|apply IH in Hj; lia].
  case_match; [|by apply elem_of_nil in Hi]. apply list_elem_of_singleton in Hi. lia.
Qed.

Lemma split_at_shorter c d s i n : i ∈ offsets c d s -> 0 < n ->
  len (split_at (Some i) n s).1 < len s /\ len (split_at (Some i) n s).2 < len s.
Proof.
  intros Hi%offsets_bound Hn. simpl. pose proof (up_to_length i s).
  split; [lia|]. apply from_offset_shorter; lia.
Qed.

Lemma pieces_length c d s p : p ∈ pieces_of c d s -> len p <= len s.
Proof.
  revert d p. induction s as [|x s IH]; intros d p; simpl.
  { intros ->%list_elem_of_singleton. simpl. lia. }
  case_match.
  { intros [->|Hp]%elem_of_cons; simpl; [lia|]. apply IH in Hp. lia. }
  destruct (pieces_of c (deeper d x) s) as [|q qs] eqn:E.
  { intros ->%list_elem_of_singleton. simpl. lia. }
  specialize (IH (deeper d x)). rewrite E in IH.
  intros [->|Hp]%elem_of_cons; simpl; [specialize (IH q ltac:(by left)); lia|].
  specialize (IH p ltac:(by right)). lia.
Qed.

(** *** What stands behind the last point *)

Lemma trim_back_cases x s : trim_back (String x s) = "" \/ trim_back (String x s) = String x (trim_back s).
Proof. simpl. destruct (trim_back s); [destruct (spaces x)|]; auto. Qed.

Lemma prefix_trim_back c s : String.prefix c (trim_back s) = true -> String.prefix c s = true.
Proof.
  revert c. induction s as [|x s IH]; intros c; [done|].
  destruct (trim_back_cases x s) as [->| ->]; [by destruct c|].
  destruct c as [|y c]; [done|]. simpl. destruct (ascii_dec y x); [apply IH|done].
Qed.

Lemma offsets_nil_cons c d x s : offsets c d (String x s) = [] <->
  (d = 0 -> String.prefix c (String x s) = false) /\ offsets c (deeper d x) s = [].
Proof.
  change (offsets c d (String x s)) with
    ((if (d =? 0) && String.prefix c (String x s) then [0] else []) ++ (S <$> offsets c (deeper d x) s)).
  destruct (String.prefix c (String x s)), (Nat.eqb_spec d 0); simpl; split;
    try (intros [Hd Hr]; rewrite ?Hr; try done; by specialize (Hd ltac:(done)));
    intros Hr; try done; by apply fmap_nil_inv in Hr.
Qed.

Lemma offsets_trim_back c d s : offsets c d s = [] -> offsets c d (trim_back s) = [].
Proof.
  revert d. induction s as [|x s IH]; intros d; [done|].
  intros [Hp Hr]%offsets_nil_cons.
  pose proof (prefix_trim_back c (String x s)) as Ht.
  destruct (trim_back_cases x s) as [->|E]; [done|]. rewrite E in Ht |- *.
  apply offsets_nil_cons. split; [|by apply IH]. intros Hd. specialize (Hp Hd).
  apply not_true_is_false. intros H. apply Ht in H. congruence.
Qed.

Lemma offsets_trim_front c s : offsets c 0 s = [] -> offsets c 0 (trim_front s) = [].
Proof.
  induction s as [|x s IH]; [done|]. intros Hs. simpl. destruct (spaces x) eqn:Ex; [|done].
  apply offsets_nil_cons in Hs as [_ Hs]. apply IH. unfold spaces in Ex.
  apply bool_decide_eq_true in Ex. repeat (apply elem_of_cons in Ex as [->|Ex]; [done|]).
  by apply elem_of_nil in Ex.
Qed.

(** Behind an occurrence of a character that is no parenthesis *)
Lemma offsets_behind c d s i : i ∈ offsets "." d s -> offsets c d s = [] ->
  offsets c 0 (from_offset (i + 1) s) = [].
Proof.
  revert d i. induction s as [|x s IH]; intros d i; simpl; [by intros ?%elem_of_nil|].
  intros Hi [Hp Hr]%offsets_nil_cons.
  apply elem_of_app in Hi as [Hi|(j & -> & Hj)%list_elem_of_fmap].
  - destruct (Nat.eqb_spec d 0) as [->|]; [|by apply elem_of_nil in Hi].
    simpl in Hi. destruct (ascii_dec "." x) as [<-|]; [|by apply elem_of_nil in Hi].
    destruct s as [|y s]; simpl in Hi; apply list_elem_of_singleton in Hi as ->; done.
  - simpl. by eapply IH.
Qed.

Lemma drop_word_length s : len (drop_word s) <= len s.
Proof. induction s as [|c s IH]; simpl; [lia|]. case_match; simpl; lia. Qed.

Lemma group_length s : len (before_close 0 (behind_open s)) <= pred (len s).
Proof.
  assert (Hb : forall d t, len (before_close d t) <= len t).
  { intros d t. revert d. induction t as [|c t IH]; intros d; simpl; [lia|].
    case_match; simpl; [lia|]. specialize (IH (deeper d c)). lia. }
  assert (Ho : len (behind_open s) <= pred (len s)).
  { induction s as [|c s IH]; simpl; [lia|]. case_match; lia. }
  specialize (Hb 0 (behind_open s)). lia.
Qed.

#[export] Instance string_functions_laws : CStringLaws.
Proof.
  assert (Hlast : forall c s, offsets c 0 s <> [] -> exists i, last (offsets c 0 s) = Some i /\ i ∈ offsets c 0 s).
  { intros c s Hs. destruct (last (offsets c 0 s)) as [i|] eqn:E; [|by apply last_None in E].
    exists i. split; [done|]. by apply last_Some_elem_of. }
  assert (Hne : forall c s, contains_outside_parens c s = true -> offsets c 0 s <> []).
  { intros c s. simpl. by destruct (offsets c 0 s). }
  constructor; simpl.
  - intros s. pose proof (trim_front_length s). pose proof (trim_back_length (trim_front s)). lia.
  - intros s. by rewrite trim_front_trimmed, trim_back_idem.
  - intros c s. apply split_at_length.
  - intros c s Hc Hs. apply Hne, Hlast in Hs as (i & -> & Hi). eapply split_at_shorter; [done|].
    by apply nonempty_length.
  - intros c s. apply split_at_length.
  - intros c s Hs%Hne. destruct (offsets (String c "") 0 s) as [|i l] eqn:E; [done|]. simpl head.
    eapply split_at_shorter; [|lia]. rewrite E. by left.
  - intros c s p. apply pieces_length.
  - intros c s Hdot. apply Hne, Hlast in Hdot as (i & -> & Hi). intros Hc.
    destruct (offsets c 0 s) eqn:E; [|done]. exfalso.
    eapply offsets_behind, offsets_trim_front, offsets_trim_back in E; [|exact Hi].
    simpl in Hc. by rewrite E in Hc.
  - intros c s Hc Hs ->. done.
  - intros c s Hc Hs ->. by destruct c.
  - intros w s Hw Hs ->. by destruct w.
  - intros s. pose proof (trim_front_length s). destruct (trim_front s) as [|x r]; simpl in *; [lia|].
    pose proof (drop_word_length r). lia.
  - intros w s Hw Hs. pose proof (trim_front_length s). destruct (trim_front s) as [|x r]; simpl in *; [by destruct w|].
    pose proof (drop_word_length r). lia.
  - apply group_length.
  - apply group_length.
Qed.

(** ** Transactions of the repository

    [regression_tests.cpp], and the list of [test_conversion.cpp] *)
Example regression_parses :
  parsed_t "remote ypre = mih, remote xpre = ih, var y = ypre, var x = xpre, y = y" =
  inl (Ok (PLetRemote (PBinding "ypre" (PVar "mih")) (PLetRemote (PBinding "xpre" (PVar "ih"))
    (PLet (PBinding "y" (PVar "ypre")) (PLet (PBinding "x" (PVar "xpre"))
      (PAssignment (PVar "y") (PVar "y"))))))).
Proof. vm_compute. reflexivity. Qed.

Definition read_list : string :=
  "var lst = default list, var curr_msg_ptr = user_hndl->i, while (curr_msg_ptr.isValid()){ lst.push_back(*curr_msg_ptr->value), remote mutable = curr_msg_ptr, curr_msg_ptr = curr_msg_ptr->next, mutable.next = mutable.next.nulled()}, return lst".

Example read_list_parses : parsed_t read_list =
  inl (Ok (PLet (PBinding "lst" (PVar "default list"))
    (PLet (PBinding "curr_msg_ptr" (PFieldPtr (PVar "user_hndl") "i"))
      (PSequence
        [PWhile (PIsValid (PVar "curr_msg_ptr"))
          (PSequence
            [PSOperation "push_back" (PVar "lst") [PDeref (PFieldPtr (PVar "curr_msg_ptr") "value")] [];
             PLetRemote (PBinding "mutable" (PVar "curr_msg_ptr"))
               (PSequence
                 [PAssignment (PVar "curr_msg_ptr") (PFieldPtr (PVar "curr_msg_ptr") "next");
                  PAssignment (PField (PVar "mutable") "next")
                    (POperation "nulled" (PField (PVar "mutable") "next") [] [])])]);
         PReturn (PVar "lst")])))).
Proof. vm_compute. reflexivity. Qed.

Definition ok_tree (s : string) : ast_type :=
  match parse_tree s with inl t => t | inr _ => Node Skip end.

Lemma parsed_converts_witness : exists p, parsed_t read_list = inl (Ok p).
Proof.
  apply (parsed_converts read_list (ok_tree read_list)); vm_compute; reflexivity.
Defined.

Definition ok_arena (s : string) : arena :=
  match parse s with inl a => a | inr _ => empty_arena end.

Example read_list_size : length (filter (fun b => b = false) (open_slots (ok_arena read_list))) = 37.
Proof. vm_compute. reflexivity. Qed.

Lemma parse_terminates_witness : parse read_list <> inr NoParseFuel /\
  (contains ";" read_list = false ->
   parse_statement build_arena 1000 read_list empty_arena = parse_text build_arena read_list empty_arena).
Proof. apply (parse_terminates 1000 read_list). vm_compute. lia. Defined.

Lemma as_value_roundtrip_witness : exists a,
  as_value_top (Node (transaction (ok_tree read_list) 7)) = inl a /\
  as_type_top a = Ok (Node (transaction (ok_tree read_list) 7)).
Proof. apply (as_value_roundtrip (ok_tree read_list) 7); [vm_compute; reflexivity|vm_compute; lia]. Defined.

(** ** How operators are read

    They are looked for in the order of [binops], the last one of a kind first: what is
    looked for first binds weakest, so [==] binds stronger than [+]. *)
Example sum_binds_weakest : parsed_t "return a == b + 1" =
  inl (Ok (PReturn (PBinOp "+" (PBinOp "=" (PVar "a") (PVar "b")) (PConst 1)))).
Proof. vm_compute. reflexivity. Qed.

Example product_of_quotient : parsed_t "return a * b / c" =
  inl (Ok (PReturn (PBinOp "*" (PVar "a") (PBinOp "/" (PVar "b") (PVar "c"))))).
Proof. vm_compute. reflexivity. Qed.

(** Only the first character of an operator is kept: [>=] is [>], and [!=] no operator. *)
Example at_least_is_more : parsed_t "return a >= b" = parsed_t "return a > b".
Proof. vm_compute. reflexivity. Qed.

Example different_not_converted : parsed_t "return a != b" = inl (Err NoOverload).
Proof. vm_compute. reflexivity. Qed.

(** [<] is looked for before [<=]. *)
Example at_most_stops : parsed_t "return a <= b" = inr ParseError.
Proof. vm_compute. reflexivity. Qed.

(** Statements are told apart by the words they contain, not by their first word. *)
Example assignment_as_if : parsed_t "notified = 3" =
  inl (Ok (PIf (PVar "") (PSequence []) (PSequence []))).
Proof. vm_compute. reflexivity. Qed.

(** An assignment is split at every [=]; the pieces behind the second are not read. *)
Example comparison_lost : parsed_t "x = a == b" = parsed_t "x = a".
Proof. vm_compute. reflexivity. Qed.

(** The arguments behind an empty one are not read. *)
Example arguments_cut : parsed_t "x.f(a,,b)" = parsed_t "x.f(a)".
Proof. vm_compute. reflexivity. Qed.

Example wide_constant : parsed_t "return 2147483648" = inl (Err NarrowingError).
Proof. vm_compute. reflexivity. Qed.

(** [allocated_ref::free] opens the slot behind the one of the reference. *)
Example freed_slot : exists r a, allocate empty_arena = inl (r, a) /\
  open_slots (free_ref r a) !! pred r = Some false /\ open_slots (free_ref r a) !! r = Some true.
Proof. do 2 eexists. split; [vm_compute; reflexivity|]. by vm_compute. Qed.

(** ** From the text of a transaction *)

(** [pre_transaction_str] of [mtl/transaction.hpp] as [TRANSACTION(...)] uses it: the
    text is parsed, and the tree goes through the passes of [Compile]. *)

#[local] Existing Instances no_handles no_objects points.
#[local] Open Scope string_scope.

(** [pre_transaction_str<wrapper>::compile<bound_values...>()] *)
Definition compile_text `{UserLabels} `{TypeLists} `{CppTypes} `{CString}
    (bindings : list var_binding) (text : string) : outcome (list phase) + parse_stop :=
  match parsed_t text with
  | inl parsed => inl (parsed ← parsed; compile bindings parsed)
  | inr e => inr e
  end.

(** ** A transaction from its text to its value *)

Definition total_text : string :=
  "var total = n.ensure(causal), var i = 0, while (i < n) { total = total + i, i = i + 1 }, return total".

Example total_parses : parsed_t total_text = inl (Ok total_of).
Proof. vm_compute. reflexivity. Qed.

Example total_text_runs : exists compiled s,
  compile_text (initial_bindings sum_args) total_text = inl (Ok compiled) /\
  begin_interp 10 compiled sum_args 0%nat = (inl (Some (VInt 10)), s).
Proof.
  do 2 eexists. split; [vm_compute; reflexivity|]. vm_compute. reflexivity.
Qed.
