(* ===== verification/SqlDb.v ===== *)
(** * The database behind an SQL store

    Models [pgsql/SQLCommands.hpp], the statements an SQL store sends, and the
    trigger of [postgres_stuff/causal-postgres-numbering-trigger.sql] with its copy
    for integers.  A statement is the term its text spells out; what it does to
    the tables is the meaning of that text in SQL.  The scripts that create the
    tables are not in the repository: what they decide is the class [Schema]. *)
From Stdlib Require Import Strings.Byte.
From stdpp Require Import vector fin.
From S2P Require Import Prelude Runtime Clocks.

#[local] Open Scope Z_scope.

(** ** Tables *)

(** [Table] and [Level] *)
Inductive Table : Type := BlobStore | IntStore.
Inductive Level : Type := Causal | Strong.

#[global] Instance Table_eq_dec : EqDecision Table.
Proof. solve_decision. Defined.
#[global] Instance Level_eq_dec : EqDecision Level.
Proof. solve_decision. Defined.

Inductive datum : Type := DNull | DInt (z : Z) | DBlob (bytes : list byte).
#[global] Instance datum_eq_dec : EqDecision datum.
Proof. solve_decision. Defined.

(** A row of [BlobStore.BlobStore] or [BlobStore.IntStore], and one of [causalstore] *)
Record strong_row : Type := StrongRow { s_index : Z; s_id : Z; s_version : Z; s_data : datum }.
Record causal_row : Type := CausalRow { c_index : Z; c_id : Z; c_vc : Clock; c_lw : Z; c_data : datum }.

Record Database : Type := MkDatabase {
  strong_blobs : list strong_row; strong_ints : list strong_row;
  causal_blobs : list causal_row; causal_ints : list causal_row }.

Definition strong_rows (t : Table) (db : Database) : list strong_row :=
  match t with BlobStore => strong_blobs db | IntStore => strong_ints db end.
Definition causal_rows (t : Table) (db : Database) : list causal_row :=
  match t with BlobStore => causal_blobs db | IntStore => causal_ints db end.
Definition set_strong (t : Table) (rs : list strong_row) (db : Database) : Database :=
  match t with
  | BlobStore => MkDatabase rs (strong_ints db) (causal_blobs db) (causal_ints db)
  | IntStore => MkDatabase (strong_blobs db) rs (causal_blobs db) (causal_ints db)
  end.
Definition set_causal (t : Table) (rs : list causal_row) (db : Database) : Database :=
  match t with
  | BlobStore => MkDatabase (strong_blobs db) (strong_ints db) rs (causal_ints db)
  | IntStore => MkDatabase (strong_blobs db) (strong_ints db) (causal_blobs db) rs
  end.

(** The defaults of the columns, and the constraints a new row has to meet *)
Class Schema : Type := {
  default_index : Z;
  default_version : Z;
  default_vc : Clock;
  default_lw : Z;
  (** the integers the column [data] of [IntStore] holds *)
  int_column : Z -> bool;
  strong_accepts : list strong_row -> strong_row -> bool;
  causal_accepts : list causal_row -> causal_row -> bool;
}.

(** ** Statements *)

Definition NUM_CAUSAL_GROUPS : Z := 4.
Definition NUM_CAUSAL_MASTERS : Z := 2.

Definition group_mapper (k : Z) : option Z :=
  if k <? 1 then None
  else
    let sizes := Z.quot NUM_CAUSAL_GROUPS NUM_CAUSAL_MASTERS in
    let overflow := NUM_CAUSAL_GROUPS - sizes * NUM_CAUSAL_MASTERS in
    Some ((if k <? overflow then 0 else Z.quot (k - overflow - 1) NUM_CAUSAL_MASTERS) + 1).

Definition md (k : Z) : Z :=
  if Z.rem k NUM_CAUSAL_GROUPS =? 0 then NUM_CAUSAL_GROUPS else Z.rem k NUM_CAUSAL_GROUPS.

(** What an update sets [data] to: a parameter, by its number, or [data + 1] *)
Inductive data_expr : Type := Param (n : nat) | PlusOne.

#[global] Instance data_expr_eq_dec : EqDecision data_expr.
Proof. solve_decision. Defined.

(** [update causalstore.t set data = .., vc.., lw = k where id = $1 and index = ..
    returning vc1,vc2,vc3,vc4]; a column that is set comes with the number of the
    parameter it gets. *)
Record update_cmd : Type := UpdateCmd {
  u_table : Table; u_data : data_expr; u_vcs : list (Z * nat); u_lw : Z; u_index : option Z }.

#[global] Instance update_cmd_eq_dec : EqDecision update_cmd.
Proof. solve_decision. Defined.

(** [vcs1(i, stop, k)], [n] being [stop - i] *)
Fixpoint vcs1 (n : nat) (i k : Z) : list (Z * nat) :=
  match n with
  | O => []
  | S n => (md (k + i), Z.to_nat (i + 1)) :: vcs1 n (i + 1) k
  end.

Inductive query : Type :=
| Exists
| Remove (t : Table)
| SelectVersionS (t : Table)
| SelectVersionDataS (t : Table)
| UpdateDataS (t : Table)
| IncrementS
| InsertS (t : Table)
| SelectVersionC (t : Table)
| SelectVersionDataC (t : Table)
| InsertC (t : Table)
| UpdateC (u : update_cmd).

#[global] Instance query_eq_dec : EqDecision query.
Proof. solve_decision. Defined.

(** ** Names of prepared statements *)

Inductive TransactionNames : Type :=
| exists_ | Del1 | Del2 | select_version_s_i | select_version_s_b
| select1 | select2 | Updates1 | Updates2 | Increment | Insert1 | Insert2
| Sel1i | Sel1b | udc1 | udc2 | udc3 | udc4 | udc5 | udc6 | udc7 | udc8
| ic1 | ic2 | ic3 | ic4 | ic5 | ic6 | ic7 | ic8 | initci | initcb | MAX.

#[global] Instance TransactionNames_eq_dec : EqDecision TransactionNames.
Proof. solve_decision. Defined.

(** The enumerators in order: the value of one is its position. *)
Definition enumerators : list TransactionNames :=
  [exists_; Del1; Del2; select_version_s_i; select_version_s_b;
   select1; select2; Updates1; Updates2; Increment; Insert1; Insert2;
   Sel1i; Sel1b; udc1; udc2; udc3; udc4; udc5; udc6; udc7; udc8;
   ic1; ic2; ic3; ic4; ic5; ic6; ic7; ic8; initci; initcb; MAX].

(** [(int) name] *)
Definition name_int (n : TransactionNames) : nat :=
  default 0%nat (list_find (fun m => n = m) enumerators ≫= fun p => Some p.1).

(** [tnames] of [update_data_c] and [initialize_with_id_c], and of [increment_c] *)
Definition udc_names : list TransactionNames := [udc1; udc4; udc7; udc2; udc5; udc8; udc3; udc6].
Definition ic_names : list TransactionNames := [ic1; ic4; ic7; ic2; ic5; ic8; ic3; ic6].

(** The loops of [update_data_c_cmd] over [_t] and [_k] *)
Definition update_data_c_cmd (xx : list TransactionNames) (set : data_expr)
    : list (TransactionNames * update_cmd) :=
  '(t, ti) ← [(BlobStore, 0%nat); (IntStore, 1%nat)];
  k ← seq 1 4;
  match xx !! (k + 4 * ti - 1)%nat with
  | Some n => [(n, UpdateCmd t set (vcs1 3 1 (Z.of_nat k)) (Z.of_nat k) (group_mapper (Z.of_nat k)))]
  | None => []
  end.

Definition table_int (t : Table) : Z := match t with BlobStore => 0 | IntStore => 1 end.

(** [update_cmds.at(((int)t) * (NUM_CAUSAL_GROUPS) + (k-1))] *)
Definition update_at_group (xx : list TransactionNames) (set : data_expr) (t : Table) (k : Z)
    : option (TransactionNames * query) :=
  let i := table_int t * NUM_CAUSAL_GROUPS + (k - 1) in
  if i <? 0 then None
  else '(n, u) ← update_data_c_cmd xx set !! Z.to_nat i; Some (n, UpdateC u).

(** ** What statements do *)

Definition sql_result : Type := list (list datum).

Section exec.
Context `{Schema}.

Definition param (ps : list datum) (n : nat) : option datum := ps !! Nat.pred n.

Definition eval_data (e : data_expr) (ps : list datum) (old : datum) : option datum :=
  match e with
  | Param n => param ps n
  | PlusOne =>
      match old with
      | DInt z => if int_column (z + 1) then Some (DInt (z + 1)) else None
      | DNull => Some DNull
      | DBlob _ => None
      end
  end.

(** Column [vc1] to [vc4] *)
Definition vc_at (col : Z) (c : Clock) : option Z :=
  if col =? 1 then Some (c !!! 0%fin) else if col =? 2 then Some (c !!! 1%fin)
  else if col =? 3 then Some (c !!! 2%fin) else if col =? 4 then Some (c !!! 3%fin) else None.
Definition set_vc (col z : Z) (c : Clock) : option Clock :=
  if col =? 1 then Some (vinsert 0%fin z c) else if col =? 2 then Some (vinsert 1%fin z c)
  else if col =? 3 then Some (vinsert 2%fin z c) else if col =? 4 then Some (vinsert 3%fin z c) else None.

Fixpoint set_vcs (cols : list (Z * nat)) (ps : list datum) (c : Clock) : option Clock :=
  match cols with
  | [] => Some c
  | (col, n) :: cols =>
      match param ps n with
      | Some (DInt z) => c ← set_vc col z c; set_vcs cols ps c
      | _ => None
      end
  end.

(** The [set] clauses of an update on the row [old] *)
Definition set_row (u : update_cmd) (ps : list datum) (old : causal_row) : option causal_row :=
  d ← eval_data (u_data u) ps (c_data old);
  vc ← set_vcs (u_vcs u) ps (c_vc old);
  Some (CausalRow (c_index old) (c_id old) vc (u_lw u) d).

(** [blobstore_numbering()] before the update of a row to [new]: [cntr] is the time at
    which the transaction began.  Returns the row to store and the table. *)
Definition blobstore_numbering (cntr : Z) (rows : list causal_row) (new : causal_row)
    : option (causal_row * list causal_row) :=
  vc ← set_vc (c_lw new) cntr (c_vc new);
  let new := CausalRow (c_index new) (c_id new) vc (c_lw new) (c_data new) in
  let masters := filter (fun r => c_id r = c_id new /\ c_index r <> 0) rows in
  let vc0 := foldr ends_max (c_vc new) (c_vc <$> masters) in
  Some (new,
    (fun r => if decide (c_id r = c_id new /\ c_index r = 0)
              then CausalRow (c_index r) (c_id r) vc0 (c_lw r) (c_data new) else r) <$> rows).

(** [when (NEW.index <> 0 and OLD.data is distinct from NEW.data)] *)
Definition trigger (cntr : Z) (rows : list causal_row) (old new : causal_row)
    : option (causal_row * list causal_row) :=
  if decide (c_index new <> 0 /\ c_data old <> c_data new)
  then blobstore_numbering cntr rows new else Some (new, rows).

(** The update of the rows at the positions [pos], one after the other *)
Fixpoint update_at (u : update_cmd) (ps : list datum) (cntr : Z) (pos : list nat)
    (rows : list causal_row) : option (list causal_row * list causal_row) :=
  match pos with
  | [] => Some ([], rows)
  | i :: pos =>
      old ← rows !! i;
      new ← set_row u ps old;
      '(new, rows) ← trigger cntr rows old new;
      '(news, rows) ← update_at u ps cntr pos (<[i := new]> rows);
      Some (new :: news, rows)
  end.

Definition positions (p : causal_row -> bool) (rows : list causal_row) : list nat :=
  filter (fun i => default false (p <$> rows !! i) = true) (seq 0 (length rows)).

Definition vc_datums (c : Clock) : list datum := DInt <$> vec_to_list c.

Definition run_update (u : update_cmd) (ps : list datum) (cntr : Z) (rows : list causal_row)
    : option (sql_result * list causal_row) :=
  match param ps 1, u_index u with
  | Some (DInt id), Some index =>
      match update_at u ps cntr
        (positions (fun r => bool_decide (c_id r = id /\ c_index r = index)) rows) rows with
      | Some (news, rows) => Some ((fun r => vc_datums (c_vc r)) <$> news, rows)
      | None => None
      end
  | _, _ => None
  end.

Definition insert_strong (r : strong_row) (rows : list strong_row) : option (list strong_row) :=
  if strong_accepts rows r then Some (rows ++ [r]) else None.
Definition insert_causal (r : causal_row) (rows : list causal_row) : option (list causal_row) :=
  if causal_accepts rows r then Some (rows ++ [r]) else None.

(** [update t set data = e, version = version + d where id = .. returning version] *)
Definition update_strong (f : datum -> option datum) (d id : Z) (rows : list strong_row)
    : option (sql_result * list strong_row) :=
  rows' ← mapM (fun r =>
    if decide (s_id r = id)
    then x ← f (s_data r); Some (StrongRow (s_index r) (s_id r) (s_version r + d) x)
    else Some r) rows;
  Some ((fun r => [DInt (s_version r)]) <$> filter (fun r => s_id r = id) rows', rows').

(** A statement on a connection whose search path has the tables of level [l], with its parameters, the first of which is an
    id.  [Exists] and [Remove] find their tables by the search path, the others
    name them. *)
Definition exec_query (l : option Level) (q : query) (id : Z) (ps : list datum) (cntr : Z) (db : Database)
    : option (sql_result * Database) :=
  let ps := DInt id :: ps in
  match q with
  | Exists =>
      l ← l;
      let ids := match l with
        | Strong => s_id <$> (strong_blobs db ++ strong_ints db)
        | Causal => c_id <$> (causal_blobs db ++ causal_ints db)
        end in
      Some (take 1 ((fun i => [DInt i]) <$> filter (fun i => i = id) ids), db)
  | Remove t =>
      l ← l;
      Some ([], match l with
        | Strong => set_strong t (filter (fun r => s_id r <> id) (strong_rows t db)) db
        | Causal => set_causal t (filter (fun r => c_id r <> id) (causal_rows t db)) db
        end)
  | SelectVersionS t =>
      Some ((fun r => [DInt (s_version r)]) <$> filter (fun r => s_id r = id) (strong_rows t db), db)
  | SelectVersionDataS t =>
      Some ((fun r => [DInt (s_version r); s_data r]) <$>
              filter (fun r => s_id r = id /\ s_index r = 0) (strong_rows t db), db)
  | UpdateDataS t =>
      x ← param ps 2;
      '(res, rows) ← update_strong (fun _ => Some x) 1 id (strong_rows t db);
      Some (res, set_strong t rows db)
  | IncrementS =>
      '(res, rows) ← update_strong (eval_data PlusOne ps) 0 id (strong_ints db);
      Some (res, set_strong IntStore rows db)
  | InsertS t =>
      x ← param ps 2;
      rows ← insert_strong (StrongRow default_index id default_version x) (strong_rows t db);
      Some ([], set_strong t rows db)
  | SelectVersionC t =>
      Some ((fun r => vc_datums (c_vc r)) <$>
              filter (fun r => c_id r = id /\ c_index r = 0) (causal_rows t db), db)
  | SelectVersionDataC t =>
      Some ((fun r => vc_datums (c_vc r) ++ [c_data r]) <$>
              filter (fun r => c_id r = id /\ c_index r = 0) (causal_rows t db), db)
  | InsertC t =>
      rows ← foldl (fun rows i => rows ← rows; insert_causal (CausalRow i id default_vc default_lw DNull) rows)
        (Some (causal_rows t db)) [0; 1; 2];
      Some ([], set_causal t rows db)
  | UpdateC u =>
      '(res, rows) ← run_update u ps cntr (causal_rows (u_table u) db);
      Some (res, set_causal (u_table u) rows db)
  end.
End exec.
