(* ===== verification/SqlStore.v ===== *)
(** * The connection of an SQL store

    Models [pgsql/SQLStore.cpp], [pgsql/SQLTransaction.hpp], [pgsql/SQLTransaction.cpp],
    [pgsql/SQLConnection.hpp], [pgsql/SQL_internal_utils.cpp] and the commands of
    [pgsql/SQLCommands.hpp]: a store with its connection, the transaction that is
    open on it, and the statements it sends.  The server and [libpqxx] are the class
    [Server]: when a request fails, what the time is, and what the other clients do. *)
From stdpp Require Import vector fin.
From S2P Require Import Prelude Runtime Clocks SqlDb.

#[local] Open Scope Z_scope.

(** ** The server, and the build *)

(** [pqxx_exception::base().what()] *)
Abbreviation pg_error := string.

Class Server : Type := {
  server_schema :: Schema;
  (** what the [n]-th request of the client fails with, when it does *)
  fault : nat -> option pg_error;
  (** the message of the [n]-th request when its statement has no meaning *)
  complaint : nat -> pg_error;
  (** what the other clients have committed before the transaction that the [n]-th
      request begins *)
  others : nat -> Database -> Database;
  (** [current_timestamp] of that transaction *)
  now : nat -> Z;
  (** [work::commit] on a transaction that has failed ([true]), or was committed *)
  commit_closed : bool -> option pg_error;
  (** [pqxx::in_doubt_error]: the [n]-th request, a [commit] that fails because the
      connection is lost, has committed all the same *)
  commit_in_doubt : nat -> bool;
}.

(** The macros [CAUSAL_GROUP] and [NDEBUG] *)
Class SqlBuild : Type := { repl_group : Z; sql_debug : bool }.

Definition is_serialize_error (r : pg_error) : bool :=
  match String.index 0 "could not serialize access" r with Some _ => true | None => false end.

(** ** State *)

(** [pqxx::work]: what the transaction sees, the time it began, and the search path *)
Inductive work : Type :=
| Open (image : Database) (began : Z) (search_path : option Level)
| Failed
| Committed.

(** The database and the requests so far; [SQLConnection]; the [SQLTransaction] that has
    locked the connection; [SQLStore_impl::clock] *)
Record sql_world : Type := MkWorld {
  committed : Database;
  requests : nat;
  prepared_names : list bool;
  statements : gmap nat query;
  search_path : option Level;
  current_trans : bool;
  trans : option work;
  commit_on_delete : bool;
  clock : Clock }.

Definition set_trans (t : option work) (w : sql_world) : sql_world :=
  MkWorld (committed w) (requests w) (prepared_names w) (statements w) (search_path w)
    (current_trans w) t (commit_on_delete w) (clock w).
Definition set_current_trans (b : bool) (w : sql_world) : sql_world :=
  MkWorld (committed w) (requests w) (prepared_names w) (statements w) (search_path w)
    b (trans w) (commit_on_delete w) (clock w).
Definition set_commit_on_delete (b : bool) (w : sql_world) : sql_world :=
  MkWorld (committed w) (requests w) (prepared_names w) (statements w) (search_path w)
    (current_trans w) (trans w) b (clock w).
Definition set_clock (c : Clock) (w : sql_world) : sql_world :=
  MkWorld (committed w) (requests w) (prepared_names w) (statements w) (search_path w)
    (current_trans w) (trans w) (commit_on_delete w) c.
(** One request, after which the database is [db] *)
Definition request (db : Database) (path : option Level) (w : sql_world) : sql_world :=
  MkWorld db (S (requests w)) (prepared_names w) (statements w) path
    (current_trans w) (trans w) (commit_on_delete w) (clock w).
(** [conn.prepare(namestr, stmt)] and [prepared[nameint] = true]; [libpqxx] keeps the
    text, which reaches the server with its first use. *)
Definition register (name : nat) (stmt : query) (w : sql_world) : sql_world :=
  MkWorld (committed w) (requests w) (<[name := true]> (prepared_names w))
    (<[name := stmt]> (statements w)) (search_path w)
    (current_trans w) (trans w) (commit_on_delete w) (clock w).

(** A new [SQLConnection], and the store that gets it *)
Definition new_connection (db : Database) : sql_world :=
  MkWorld db 0 (replicate (name_int MAX) false) ∅ None false None false [# 0; 0; 0; 0].

Section store.
Context `{Server} `{SqlBuild}.

(** [assert(b)] of a build that may have no assertions *)
Definition sql_assert {S} (b : bool) : RT S unit :=
  if sql_debug then assert_rt b else mret tt.

(** ** Transactions *)

(** One request on the open transaction: [f] is what it does. *)
Definition on_work {A} (f : Database -> Z -> option Level -> option (A * Database * option Level))
    : sql_world -> (A + pg_error) * sql_world := fun w =>
  let n := requests w in
  let w := request (committed w) (search_path w) w in
  match trans w with
  | Some (Open db t path) =>
      match fault n with
      | Some e => (inr e, set_trans (Some Failed) w)
      | None =>
          match f db t path with
          | Some (r, db', path') => (inl r, set_trans (Some (Open db' t path')) w)
          | None => (inr (complaint n), set_trans (Some Failed) w)
          end
      end
  | _ => (inr (complaint n), w)
  end.

(** [try { .. } default_sqltransaction_catch] *)
Definition default_sqltransaction_catch {A} (m : sql_world -> (A + pg_error) * sql_world)
    : RT sql_world A := fun w =>
  match m w with
  | (inl a, w) => (inl a, w)
  | (inr r, w) =>
      (inr (if is_serialize_error r then SerializationFailure else SqlException),
       set_commit_on_delete false w)
  end.

(** [trans.prepared(namestr)(a1)..(an).exec()]: the statement registered under the name *)
Definition run_statement (name : nat) (id : Z) (args : list datum)
    : sql_world -> (sql_result + pg_error) * sql_world := fun w =>
  on_work (fun db t path =>
    match statements w !! name ≫= fun stmt => exec_query path stmt id args t db with
    | Some (r, db') => Some (r, db', path)
    | None => None
    end) w.

(** [SQLTransaction::prepared]; without a transaction the pointer is null. *)
Definition prepared (name : TransactionNames) (stmt : query) (id : Z) (args : list datum)
    : RT sql_world sql_result := fun w =>
  match trans w, (prepared_names w !! name_int name : option bool) with
  | Some _, Some b =>
      default_sqltransaction_catch (run_statement (name_int name) id args)
        (if b then w else register (name_int name) stmt w)
  | _, _ => (inr OutOfRange, w)
  end.

(** [SQLTransaction::exec] of a statement that sets the search path, or another parameter *)
Definition trans_exec (set_path : option Level) : RT sql_world unit :=
  default_sqltransaction_catch (on_work (fun db _ path =>
    Some (tt, db, match set_path with Some l => Some l | None => path end))).

(** The constructor [SQLTransaction], whose [pqxx::work] begins the transaction; a
    connection that is locked has been moved away. *)
Definition new_transaction : RT sql_world unit := fun w =>
  match trans w with
  | Some _ => (inr OutOfRange, w)
  | None =>
      let n := requests w in
      match fault n with
      | Some _ => (inr SqlException, request (committed w) (search_path w) w)
      | None =>
          let db := others n (committed w) in
          (inl tt, set_current_trans true (set_commit_on_delete false
            (set_trans (Some (Open db (now n) (search_path w)))
              (request db (search_path w) w))))
      end
  end.

(** [SQLStore_impl::begin_transaction] *)
Definition sql_begin : RT sql_world unit :=
  w ← get_state;
  _ ← sql_assert (bool_decide (trans w = None));
  _ ← sql_assert (negb (current_trans w));
  new_transaction.

(** [SQLTransaction::store_commit]; an exception of [commit] is passed on, also when the
    server has committed. *)
Definition sql_commit : RT sql_world bool := fun w =>
  let n := requests w in
  let w := set_current_trans false w in
  match trans w with
  | Some (Open db _ path) =>
      match fault n with
      | Some _ => (inr SqlException, set_trans (Some Failed)
          (if commit_in_doubt n then request db path w else request (committed w) (search_path w) w))
      | None => (inl true, set_trans (Some Committed) (request db path w))
      end
  | Some closed =>
      match commit_closed (match closed with Failed => true | _ => false end) with
      | Some _ => (inr SqlException, w)
      | None => (inl true, w)
      end
  | None => (inr OutOfRange, w)
  end.

(** [SQLContext::store_abort] *)
Definition sql_abort : RT sql_world bool :=
  _ ← modify (set_commit_on_delete false); mret true.

(** [~SQLTransaction]; an exception that leaves it ends the program. *)
Definition sql_destroy : RT sql_world unit :=
  w ← get_state;
  _ ← (if commit_on_delete w then sql_commit else mret true);
  modify (fun w => set_trans None (set_current_trans false w)).

(** [SQLStore_impl::in_transaction]: is a connection locked, and has it a transaction? *)
Definition in_transaction (w : sql_world) : bool :=
  match trans w with Some _ => current_trans w | None => false end.

(** [small_transaction] *)
Definition small_transaction : RT sql_world unit :=
  _ ← sql_begin; modify (set_commit_on_delete true).

(** The constructor [SQLStore_impl] on a connection; the isolation level it sets decides
    which requests fail. *)
Definition open_store (l : Level) : RT sql_world unit :=
  _ ← sql_begin;
  _ ← trans_exec (Some l);
  _ ← trans_exec None;
  cres ← sql_commit;
  _ ← sql_assert cres;
  sql_destroy.

(** ** [process_version_update] *)

(** [field.to(where)] of a field and a type with the range [ok]: no value is assigned
    for a null field, and what is not a number of the type is an exception. *)
Definition field_to {S} (ok : Z -> bool) (d : datum) : RT S (option Z) :=
  match d with
  | DNull => mret None
  | DInt z => if ok z then mret (Some z) else throw SqlException
  | DBlob _ => throw SqlException
  end.

(** [r[0][i]] *)
Definition field {S} (r : sql_result) (i : nat) : RT S datum :=
  match r !! 0%nat ≫= (!!) i with Some d => mret d | None => throw OutOfRange end.

(** Both write through a reference: the state is what it refers to. *)
Definition process_version_update_s (res : sql_result) : RT Z nat :=
  _ ← sql_assert (bool_decide (res <> []));
  d ← field res 0;
  worked ← field_to in_int d;
  _ ← match worked with Some z => modify (fun _ => z) | None => mret tt end;
  _ ← sql_assert (bool_decide (is_Some worked));
  where_ ← get_state;
  _ ← sql_assert (negb (where_ =? -1));
  mret 1%nat.

(** [r[0][i].to(vers[i])] and the assertion after it *)
Definition version_field (r : sql_result) (i : fin 4) : RT Clock unit :=
  d ← field r (fin_to_nat i);
  res ← field_to in_long d;
  _ ← match res with Some z => modify (vinsert i z) | None => mret tt end;
  sql_assert (bool_decide (is_Some res)).

Definition process_version_update_c (r : sql_result) : RT Clock nat :=
  _ ← sql_assert (bool_decide (r <> []));
  _ ← version_field r 0%fin;
  _ ← version_field r 1%fin;
  _ ← version_field r 2%fin;
  _ ← version_field r 3%fin;
  mret 4%nat.

(** ** Commands *)

Definition obj_exists (id : Z) : RT sql_world bool :=
  r ← prepared exists_ Exists id []; mret (0 <? Z.of_nat (length r)).

Definition remove (id : Z) : RT sql_world unit :=
  _ ← prepared Del1 (Remove BlobStore) id [];
  _ ← prepared Del2 (Remove IntStore) id [];
  mret tt.

Definition select_version_s (t : Table) (id : Z) : RT sql_world sql_result :=
  match t with
  | BlobStore => prepared select_version_s_b (SelectVersionS BlobStore) id []
  | IntStore => prepared select_version_s_i (SelectVersionS IntStore) id []
  end.

Definition select_version_data_s (t : Table) (id : Z) : RT sql_world sql_result :=
  match t with
  | BlobStore => prepared select1 (SelectVersionDataS BlobStore) id []
  | IntStore => prepared select2 (SelectVersionDataS IntStore) id []
  end.

Definition update_data_s (t : Table) (id : Z) (b : datum) : RT sql_world sql_result :=
  match t with
  | BlobStore => prepared Updates1 (UpdateDataS BlobStore) id [b]
  | IntStore => prepared Updates2 (UpdateDataS IntStore) id [b]
  end.

Definition increment_s (t : Table) (id : Z) : RT sql_world sql_result :=
  _ ← sql_assert (bool_decide (t = IntStore));
  prepared Increment IncrementS id [].

Definition initialize_with_id_s (t : Table) (id : Z) (b : datum) : RT sql_world unit :=
  _ ← match t with
      | BlobStore => prepared Insert1 (InsertS BlobStore) id [b]
      | IntStore => prepared Insert2 (InsertS IntStore) id [b]
      end;
  mret tt.

Definition select_version_c (t : Table) (id : Z) : RT sql_world sql_result :=
  match t with
  | IntStore => prepared Sel1i (SelectVersionC IntStore) id []
  | BlobStore => prepared Sel1b (SelectVersionC BlobStore) id []
  end.

Definition select_version_data_c (t : Table) (id : Z) : RT sql_world sql_result :=
  match t with
  | BlobStore => prepared select1 (SelectVersionDataC BlobStore) id []
  | IntStore => prepared select2 (SelectVersionDataC IntStore) id []
  end.

(** [ends[md(k+1)-1], ends[md(k+2)-1], ends[md(k+3)-1]] *)
Definition other_ends (k : Z) (ends : Clock) : option (list datum) :=
  mapM (fun i => DInt <$> vc_at (md (k + i)) ends) [1; 2; 3].

(** An entry of a table [update_cmds], sent with the clock and the arguments [args] *)
Definition send_update (xx : list TransactionNames) (set : data_expr) (t : Table) (k id : Z)
    (ends : Clock) (args : list datum) : RT sql_world sql_result :=
  match update_at_group xx set t k, other_ends k ends with
  | Some (name, stmt), Some es => prepared name stmt id (es ++ args)
  | _, _ => throw OutOfRange
  end.

Definition update_data_c (t : Table) (k id : Z) (ends : Clock) (b : datum) : RT sql_world sql_result :=
  send_update udc_names (Param 5) t k id ends [b].

Definition increment_c (t : Table) (k id : Z) (ends : Clock) : RT sql_world sql_result :=
  send_update ic_names PlusOne t k id ends [].

Definition initialize_with_id_c (t : Table) (k id : Z) (ends : Clock) (b : datum) : RT sql_world unit :=
  _ ← sql_assert (0 <? k);
  _ ← match t with
      | IntStore => prepared initci (InsertC IntStore) id []
      | BlobStore => prepared initcb (InsertC BlobStore) id []
      end;
  _ ← send_update udc_names (Param 5) t k id ends [b];
  mret tt.

Definition select_version (l : Level) (t : Table) (id : Z) : RT sql_world sql_result :=
  match l with Strong => select_version_s t id | Causal => select_version_c t id end.

Definition select_version_data (l : Level) (t : Table) (id : Z) : RT sql_world sql_result :=
  match l with Strong => select_version_data_s t id | Causal => select_version_data_c t id end.

Definition update_data (l : Level) (t : Table) (k id : Z) (ends : Clock) (b : datum)
    : RT sql_world sql_result :=
  match l with Strong => update_data_s t id b | Causal => update_data_c t k id ends b end.

Definition initialize_with_id (l : Level) (t : Table) (k id : Z) (ends : Clock) (b : datum)
    : RT sql_world unit :=
  match l with Strong => initialize_with_id_s t id b | Causal => initialize_with_id_c t k id ends b end.

Definition increment (l : Level) (t : Table) (k id : Z) (ends : Clock) : RT sql_world sql_result :=
  _ ← sql_assert (bool_decide (t = IntStore));
  match l with Strong => increment_s t id | Causal => increment_c t k id ends end.
End store.
