(* ===== verification/GSqlObject.v ===== *)
(** * Objects of an SQL store

    Models [pgsql/GSQLObject.cpp] and the objects of [pgsql/SQLStore.hpp]: an object is
    a key of a table with a buffer, the version of its contents, and the size they have.
    A buffer is what [malloc] has returned; a byte that was never written is [None]. *)
From stdpp Require Import vector fin.
From Stdlib Require Import Strings.Byte.
From S2P Require Import Prelude Runtime Clocks SqlDb SqlStore.
From S2P Require Wire.

#[local] Open Scope Z_scope.

(** ** Memory *)

Abbreviation buffer := (list (option byte)).

Definition byte_of_Z (z : Z) : byte := default x00 (Byte.of_N (Z.to_N (z mod 256))).
Definition Z_of_byte (b : byte) : Z := Z.of_N (Byte.to_N b).

(** The four bytes of an [int], the lowest one first *)
Definition int_bytes (z : Z) : list byte :=
  (fun i => byte_of_Z (Z.shiftr z (8 * i))) <$> [0; 1; 2; 3].

Definition int_of_bytes (bs : list byte) : Z :=
  let u := foldr (fun b n => Z_of_byte b + 256 * n) 0 bs in
  if u <? 2 ^ 31 then u else u - 2 ^ 32.

(** [(std::size_t) n], and [(int) n] back *)
Definition size_t (z : Z) : Z := z mod 2 ^ 64.
Definition to_int (z : Z) : Z := let u := z mod 2 ^ 32 in if u <? 2 ^ 31 then u else u - 2 ^ 32.

(** There is no object of more than [PTRDIFF_MAX] bytes. *)
Definition malloc (n : Z) : option buffer :=
  if n <? 2 ^ 63 then Some (replicate (Z.to_nat n) None) else None.

(** Writing at an offset, and reading the first bytes, inside of the buffer *)
Definition write_at (i : nat) (bs : list byte) (b : buffer) : option buffer :=
  if (i + length bs <=? length b)%nat
  then Some (take i b ++ (Some <$> bs) ++ drop (i + length bs) b) else None.
Definition read_first (n : Z) (b : buffer) : option (list byte) :=
  if n <=? Z.of_nat (length b) then mapM id (take (Z.to_nat n) b) else None.
(** [bzero(b + i, n)] *)
Definition bzero_at (i n : Z) (b : buffer) : option buffer :=
  if i + n <=? Z.of_nat (length b)
  then write_at (Z.to_nat i) (replicate (Z.to_nat n) x00) b else None.

Definition buf_size (size : Z) : Z := Z.max 2048 size.

(** ** State *)

(** [GSQLObject::Internals]; the store is that of the world next to it. *)
Record GSQLObject : Type := MkGSQL {
  table : Table;
  key : Z;
  size : Z;
  store_id : Z;
  level : Level;
  buf1 : option buffer;
  vers : Z;
  causal_vers : Clock }.

Definition set_buf (b : option buffer) (o : GSQLObject) : GSQLObject :=
  MkGSQL (table o) (key o) (size o) (store_id o) (level o) b (vers o) (causal_vers o).
Definition set_size (n : Z) (o : GSQLObject) : GSQLObject :=
  MkGSQL (table o) (key o) n (store_id o) (level o) (buf1 o) (vers o) (causal_vers o).
Definition set_vers (v : Z) (o : GSQLObject) : GSQLObject :=
  MkGSQL (table o) (key o) (size o) (store_id o) (level o) (buf1 o) v (causal_vers o).
Definition set_causal_vers (c : Clock) (o : GSQLObject) : GSQLObject :=
  MkGSQL (table o) (key o) (size o) (store_id o) (level o) (buf1 o) (vers o) c.

Definition object_state : Type := sql_world * GSQLObject.

Definition get_object : RT object_state GSQLObject := fun s => (inl s.2, s).
Definition modify_object (f : GSQLObject -> GSQLObject) : RT object_state unit :=
  fun s => (inl tt, (s.1, f s.2)).
Definition on_world {A} (m : RT sql_world A) : RT object_state A :=
  fun s => let '(r, w) := m s.1 in (r, (w, s.2)).
Definition on_vers {A} (m : RT Z A) : RT object_state A :=
  fun s => let '(r, v) := m (vers s.2) in (r, (s.1, set_vers v s.2)).
Definition on_causal_vers {A} (m : RT Clock A) : RT object_state A :=
  fun s => let '(r, c) := m (causal_vers s.2) in (r, (s.1, set_causal_vers c s.2)).
(** A local variable that is passed by reference *)
Definition on_local {S V A} (v : V) (m : RT V A) : RT S V :=
  fun s => match m v with (inl _, v) => (inl v, s) | (inr e, _) => (inr e, s) end.

(** What is not defined when there is nothing *)
Definition defined {S A} (o : option A) : RT S A :=
  match o with Some a => mret a | None => throw OutOfRange end.

Section objects.
Context `{Server} `{SqlBuild}.
(** The store the objects belong to: its level and [instance_id()] *)
Context (l : Level) (instance_id : Z).

Definition has_transaction : RT object_state bool :=
  fun s => (inl (bool_decide (is_Some (trans s.1))), s).

(** ** Constructors *)

(** [Internals(table, key, size, store, buf)] *)
Definition new_internals (t : Table) (k n : Z) (b : option buffer) : GSQLObject :=
  MkGSQL t k (size_t n) instance_id l b (-1) [# -1; -1; -1; -1].

(** [malloc] of [buf_size], zeroed in a debug build *)
Definition malloc_cleared {S} (n : Z) : RT S (option buffer) :=
  let b := malloc (buf_size n) in
  if sql_debug then b ← defined b; Some <$> defined (bzero_at 0 (buf_size n) b)
  else mret b.

Definition sized_object (t : Table) (k n : Z) : RT sql_world GSQLObject :=
  b ← (if n =? -1 then mret None else malloc_cleared (size_t n));
  mret (new_internals t k n b).

Definition existing_object (t : Table) (k : Z) : GSQLObject :=
  match t with
  | IntStore => new_internals t k 4 (malloc 4)
  | BlobStore => new_internals t k (-1) None
  end.

(** The "named" object: a new one, with the contents [c] *)
Definition named_object (t : Table) (k : Z) (c : list byte) : RT sql_world GSQLObject :=
  let n := to_int (Z.of_nat (length c)) in
  b ← malloc_cleared (Z.of_nat (length c));
  w ← get_state;
  _ ← match t with
      | BlobStore =>
          _ ← defined (head c);
          initialize_with_id l t repl_group k (clock w) (DBlob c)
      | IntStore =>
          z ← defined (read_first 4 (Some <$> c));
          initialize_with_id l t repl_group k (clock w) (DInt (int_of_bytes z))
      end;
  let o := new_internals t k n b in
  let o := match l with Causal => set_causal_vers [# 0; 0; 0; 0] o | Strong => set_vers 0 o end in
  _ ← defined (head c);
  b ← defined b;
  b ← defined (write_at 0 c b);
  mret (set_buf (Some b) o).

(** ** Buffers *)

(** The pointer of [resize_buffer]: a new one, or that there is, which never grows *)
Definition resize_pointer (newsize : Z) : RT object_state (option buffer) :=
  o ← get_object;
  match buf1 o with
  | None => malloc_cleared newsize
  | Some b =>
      _ ← sql_assert ((newsize <=? size o) || (newsize <=? 2048));
      mret (Some b)
  end.

Definition resize_buffer (newsize : Z) : RT object_state unit :=
  b ← resize_pointer newsize;
  _ ← modify_object (set_buf b);
  _ ← (if sql_debug && (newsize <? buf_size newsize) then
         b ← defined b;
         b ← defined (bzero_at newsize (buf_size newsize - newsize) b);
         modify_object (set_buf (Some b))
       else mret tt);
  modify_object (set_size newsize).

Definition obj_buffer : RT object_state buffer :=
  o ← get_object;
  _ ← sql_assert (bool_decide (is_Some (buf1 o)));
  defined (buf1 o).

(** ** Versions *)

(** [process_version_update] with the version the level of the store has *)
Definition update_version (r : sql_result) : RT object_state nat :=
  match l with
  | Strong => on_vers (process_version_update_s r)
  | Causal => on_causal_vers (process_version_update_c r)
  end.

(** [std::max] of two arrays *)
Definition array_max (a b : Clock) : Clock := if array_lt a b then b else a.

(** ** [save] and [load] *)

(** The bytes after the object are zero. *)
Definition nullspace_is_zero (n : Z) (c : buffer) : RT object_state unit :=
  if sql_debug && (n <? 512) then
    let words := Z.quot (1024 - n) 8 - 1 in
    bs ← defined (read_first (8 * words) (drop (Z.to_nat n) c));
    assert_rt (forallb (fun b => bool_decide (b = x00)) bs)
  else mret tt.

Definition save : RT object_state unit :=
  b ← has_transaction;
  _ ← sql_assert b;
  o ← get_object;
  _ ← sql_assert (bool_decide (is_Some (buf1 o)));
  c ← defined (buf1 o);
  d ← match table o with
      | BlobStore =>
          _ ← nullspace_is_zero (size o) c;
          DBlob <$> defined (read_first (size o) c)
      | IntStore => (fun bs => DInt (int_of_bytes bs)) <$> defined (read_first 4 c)
      end;
  res ← on_world (w ← get_state; update_data l (table o) repl_group (key o) (clock w) d);
  _ ← update_version res;
  mret tt.

Definition max_ver_check_size : Z := 100.

(** Is the version of the store that of the object? The object gets it. *)
Definition check_version : RT object_state bool :=
  o ← get_object;
  r ← on_world (select_version l (table o) (key o));
  match l with
  | Causal =>
      let old := causal_vers o in
      _ ← on_causal_vers (process_version_update_c r);
      o ← get_object;
      let store_same := is_same old (causal_vers o) in
      _ ← (if store_same then mret tt
           else on_world (modify (fun w => set_clock (array_max (clock w) (causal_vers o)) w)));
      mret store_same
  | Strong =>
      newi ← on_local (-12) (process_version_update_s r);
      _ ← modify_object (set_vers newi);
      mret (vers o =? newi)
  end.

(** [binarystring bs(r[0][start_offset])]; the column of blobs has blobs. *)
Definition blob_of {S} (d : datum) : RT S (list byte) :=
  match d with DBlob bs => mret bs | DNull => mret [] | DInt _ => throw SqlException end.

Definition load_blob (bs : list byte) : RT object_state unit :=
  _ ← resize_buffer (Z.of_nat (length bs));
  o ← get_object;
  _ ← sql_assert (1 <=? size o);
  b ← match buf1 o with Some b => mret b | None => defined (malloc (buf_size (size o))) end;
  b ← (if sql_debug then defined (bzero_at 0 (buf_size (size o)) b) else mret b);
  b ← defined (write_at 0 bs b);
  modify_object (set_buf (Some b)).

Definition load_int (d : datum) : RT object_state unit :=
  res ← field_to in_int d;
  _ ← sql_assert (bool_decide (is_Some res));
  o ← get_object;
  b ← defined (buf1 o);
  b ← defined (write_at 0 (int_bytes (default (-1) res)) b);
  modify_object (set_buf (Some b)).

(** The rest of [load]: the contents are fetched. *)
Definition load_data : RT object_state (option buffer) :=
  o ← get_object;
  r ← on_world (select_version_data l (table o) (key o));
  start_offset ← update_version r;
  d ← field r start_offset;
  _ ← match table o with
      | BlobStore => bs ← blob_of d; load_blob bs
      | IntStore => load_int d
      end;
  o ← get_object;
  _ ← sql_assert (bool_decide (is_Some (buf1 o)));
  mret (buf1 o).

(** [load] returns the pointer [buf1]. *)
Definition load : RT object_state (option buffer) :=
  b ← has_transaction;
  _ ← sql_assert b;
  o ← get_object;
  store_same ← (if max_ver_check_size <=? size o then check_version else mret false
                : RT object_state bool);
  (if store_same : bool then (o ← get_object; mret (buf1 o)) else load_data).

Definition gso_increment : RT object_state unit :=
  b ← has_transaction;
  _ ← sql_assert b;
  o ← get_object;
  r ← on_world (w ← get_state; increment l (table o) repl_group (key o) (clock w));
  _ ← update_version r;
  mret tt.

Definition isValid : RT object_state bool :=
  b ← has_transaction;
  _ ← sql_assert b;
  o ← get_object;
  on_world (obj_exists (key o)).

(** ** Serialization *)

(** [enum class Level] and [enum class Table] are [int]s. *)
Definition level_int (l : Level) : Z := match l with Causal => 0 | Strong => 1 end.
Definition level_of_int (z : Z) : option Level :=
  if z =? 0 then Some Causal else if z =? 1 then Some Strong else None.
Definition table_of_int (z : Z) : option Table :=
  if z =? 0 then Some BlobStore else if z =? 1 then Some IntStore else None.

Definition bytes_size : Z := 4 * 3 + 4 + 4.

Definition to_bytes (o : GSQLObject) : list byte :=
  int_bytes (to_int (key o)) ++ int_bytes (to_int (size o)) ++ int_bytes (store_id o) ++
  int_bytes (level_int (level o)) ++ int_bytes (table_int (table o)).

(** [((int* )v)[i]] *)
Definition arr (i : nat) (v : list byte) : option Z :=
  int_of_bytes <$> read_first 4 (Some <$> drop (4 * i) v).

(** [from_bytes_helper]: the store of the level, of those that there are *)
Definition from_bytes_helper {S} (cstore sstore : bool) (v : list byte) : RT S Level :=
  lvl ← defined (arr 3 v);
  _ ← sql_assert (negb (lvl =? 0) || cstore);
  _ ← sql_assert (negb (lvl =? 1) || sstore);
  if lvl =? 0 then if cstore then mret Causal else throw OutOfRange
  else if sstore then mret Strong else throw OutOfRange.

(** [GSQLObject(mgr, v)], [mgr] being the store *)
Definition from_bytes (v : list byte) : RT sql_world GSQLObject :=
  t ← defined (arr 4 v ≫= table_of_int);
  k ← defined (arr 0 v);
  n ← defined (arr 1 v);
  sized_object t k n.

(** ** [SQLObject<T>]

    The types of objects come with their serialization; [T] is [int], or not. *)
Section typed.
Context {T : Type} (c : Wire.codec T) (t : Table).

(** What is initialised at the front of a buffer *)
Fixpoint initialised (b : buffer) : list byte :=
  match b with Some x :: b => x :: initialised b | _ => [] end.

(** [get]: a new object each time *)
Definition get : RT object_state T :=
  b ← has_transaction;
  _ ← sql_assert b;
  res ← load;
  _ ← sql_assert (bool_decide (is_Some res));
  b ← defined res;
  defined (fst <$> Wire.from_bytes c (initialised b)).

Definition put (x : T) : RT object_state unit :=
  let bs := Wire.to_bytes c x in
  _ ← resize_buffer (Z.of_nat (length bs));
  b ← obj_buffer;
  b ← defined (write_at 0 bs b);
  _ ← modify_object (set_buf (Some b));
  save.

(** [newObject_static], and [create_new] with the name [int_rand()] *)
Definition newObject (name : Z) (init : T) : RT sql_world GSQLObject :=
  named_object t name (Wire.to_bytes c init).

(** [existingObject] and [exists] *)
Definition existingObject (name : Z) : GSQLObject := existing_object t name.
Definition exists_name (name : Z) : RT sql_world bool := obj_exists name.
End typed.

(** [SQLStore::operation]: [Increment], and [Insert] *)
Definition operation_increment : RT object_state unit := gso_increment.
Definition operation_insert : RT object_state unit := mret tt.
End objects.
