(* ===== verification/SqlStoreCorrect.v ===== *)
(** * Statements reach the server as they are written

    A statement is registered under a number once, and afterwards sent by its number:
    the numbers of the commands a store sends are different ones.  The steps of a
    client of a store, and what the store leaves alone. *)
From stdpp Require Import vector fin.
From S2P Require Import Prelude Runtime Clocks SqlDb SqlStore GSqlObject.
From S2P Require Wire.

#[local] Open Scope Z_scope.

(** ** What an operation keeps *)

Definition keeps {S A} (I : S -> Prop) (m : RT S A) : Prop := forall s, I s -> I (m s).2.

Section keeps.
Context {S : Type} (I : S -> Prop).

Lemma keeps_ret {A} (a : A) : keeps I (mret a : RT S A).
Proof. by intros s. Qed.

Lemma keeps_bind {A B} (m : RT S A) (k : A -> RT S B) :
  keeps I m -> (forall a, keeps I (k a)) -> keeps I (m ≫= k).
Proof.
  intros Hm Hk s Hs. unfold mbind, RT_bind. specialize (Hm s Hs).
  destruct (m s) as [[a|e] s']; simpl in *; [by apply Hk|done].
Qed.

Lemma keeps_fmap {A B} (f : A -> B) (m : RT S A) : keeps I m -> keeps I (f <$> m).
Proof.
  intros Hm s Hs. unfold fmap, RT_fmap. specialize (Hm s Hs).
  by destruct (m s) as [[a|e] s'].
Qed.

Lemma keeps_throw {A} e : keeps I (throw e : RT S A).
Proof. by intros s. Qed.

Lemma keeps_get : keeps I get_state.
Proof. by intros s. Qed.

Lemma keeps_modify f : (forall s, I s -> I (f s)) -> keeps I (modify f).
Proof. intros Hf s. apply Hf. Qed.

Lemma keeps_if {A} (b : bool) (m1 m2 : RT S A) : keeps I m1 -> keeps I m2 ->
  keeps I (if b then m1 else m2).
Proof. by destruct b. Qed.

Lemma keeps_defined {A} (o : option A) : keeps I (defined o).
Proof. by destruct o; intros s. Qed.

Lemma keeps_assert `{SqlBuild} b : keeps I (sql_assert b).
Proof. unfold sql_assert. destruct sql_debug, b; by intros s. Qed.

Lemma keeps_local {V A} (v : V) (m : RT V A) : keeps I (on_local v m).
Proof. intros s Hs. unfold on_local. by destruct (m v) as [[?|?] ?]. Qed.

Lemma keeps_field r i : keeps I (field r i).
Proof. unfold field. destruct (_ ≫= _); by intros s. Qed.

Lemma keeps_field_to ok d : keeps I (field_to ok d).
Proof. destruct d as [|z|]; simpl; [by intros s| |by intros s]. destruct (ok z); by intros s. Qed.
End keeps.

Create HintDb keeps.
#[export] Hint Resolve keeps_ret keeps_bind keeps_fmap keeps_throw keeps_get keeps_modify keeps_if
  keeps_defined keeps_assert keeps_local keeps_field keeps_field_to : keeps.

Ltac keeps := repeat first
  [ progress intros
  | apply keeps_ret | apply keeps_throw | apply keeps_get | apply keeps_defined
  | apply keeps_assert | apply keeps_local | apply keeps_field | apply keeps_field_to
  | solve [eauto with keeps]
  | apply keeps_bind | apply keeps_fmap | apply keeps_if
  | match goal with |- keeps _ (match ?x with _ => _ end) => destruct x end ].

(** ** The commands of a store *)

Definition updates_of (xx : list TransactionNames) (set : data_expr) : list (TransactionNames * query) :=
  prod_map id UpdateC <$> update_data_c_cmd xx set.

Definition commands (l : Level) : list (TransactionNames * query) :=
  [(exists_, Exists); (Del1, Remove BlobStore); (Del2, Remove IntStore)] ++
  match l with
  | Strong =>
      [(select_version_s_b, SelectVersionS BlobStore); (select_version_s_i, SelectVersionS IntStore);
       (select1, SelectVersionDataS BlobStore); (select2, SelectVersionDataS IntStore);
       (Updates1, UpdateDataS BlobStore); (Updates2, UpdateDataS IntStore);
       (Increment, IncrementS); (Insert1, InsertS BlobStore); (Insert2, InsertS IntStore)]
  | Causal =>
      [(Sel1i, SelectVersionC IntStore); (Sel1b, SelectVersionC BlobStore);
       (select1, SelectVersionDataC BlobStore); (select2, SelectVersionDataC IntStore);
       (initci, InsertC IntStore); (initcb, InsertC BlobStore)] ++
      updates_of udc_names (Param 5) ++ updates_of ic_names PlusOne
  end.

Lemma commands_numbers l : NoDup ((fun c => name_int c.1) <$> commands l).
Proof. apply (bool_decide_unpack _). by destruct l; vm_compute. Qed.

Lemma commands_fun l n q q' : (n, q) ∈ commands l ->
  forall n', (n', q') ∈ commands l -> name_int n = name_int n' -> q = q'.
Proof.
  intros (i & Hi)%list_elem_of_lookup n' (j & Hj)%list_elem_of_lookup Heq.
  assert (i = j) as ->; [|by rewrite Hj in Hi; simplify_eq].
  eapply (NoDup_lookup _ _ _ (name_int n) (commands_numbers l));
    rewrite list_lookup_fmap; [by rewrite Hi|rewrite Hj; simpl; by f_equal].
Qed.

Lemma update_at_group_sent xx set t k n q : update_at_group xx set t k = Some (n, q) ->
  (n, q) ∈ updates_of xx set.
Proof.
  unfold update_at_group, updates_of. destruct (_ <? 0); [done|].
  destruct (update_data_c_cmd xx set !! _) as [[n' u]|] eqn:Hu; [|done].
  intros [= <- <-]. apply list_elem_of_fmap. exists (n', u). split; [done|].
  by eapply list_elem_of_lookup_2.
Qed.

(** ** The connection *)

(** What is marked as prepared is registered with the text of a command. *)
Definition connection_ok (l : Level) (w : sql_world) : Prop :=
  length (prepared_names w) = 32%nat /\
  forall i, prepared_names w !! i = Some true ->
    exists n q, (n, q) ∈ commands l /\ name_int n = i /\ statements w !! i = Some q.

Lemma new_connection_ok l db : connection_ok l (new_connection db).
Proof.
  split; [done|]. intros i Hi. exfalso.
  apply lookup_replicate in Hi as [? ?]. done.
Qed.

Lemma connection_ok_same l w w' : prepared_names w' = prepared_names w ->
  statements w' = statements w -> connection_ok l w -> connection_ok l w'.
Proof. unfold connection_ok. by intros -> ->. Qed.

Lemma register_ok l n q w : (n, q) ∈ commands l -> connection_ok l w ->
  connection_ok l (register (name_int n) q w).
Proof.
  intros Hin [Hlen Hreg]. split; [by simpl; rewrite length_insert|].
  intros i. simpl. rewrite list_lookup_insert_Some.
  intros [(<- & _ & _)|[Hne Hi]].
  - exists n, q. by rewrite lookup_insert_eq.
  - destruct (Hreg i Hi) as (n' & q' & ? & ? & ?). exists n', q'. by rewrite lookup_insert_ne.
Qed.

Section store.
Context `{Server} `{SqlBuild} (l : Level).

(** What a request leaves of a world that has [n] registered *)
Definition noted (n : nat) (q : query) (w : sql_world) : sql_world :=
  if default false (prepared_names w !! n) then w else register n q w.

Definition next (w : sql_world) : sql_world := request (committed w) (search_path w) w.

Lemma on_work_keeps {A} (f : Database -> Z -> option Level -> option (A * Database * option Level)) w :
  prepared_names (on_work f w).2 = prepared_names w /\ statements (on_work f w).2 = statements w.
Proof.
  unfold on_work. simpl. destruct (trans w) as [[db t p| |]|]; [|done..].
  destruct (fault _); [done|]. by destruct (f db t p) as [[[??]?]|].
Qed.

Lemma catch_snd {A} (m : sql_world -> (A + pg_error) * sql_world) w :
  (default_sqltransaction_catch m w).2 = (m w).2 \/
  (default_sqltransaction_catch m w).2 = set_commit_on_delete false (m w).2.
Proof. unfold default_sqltransaction_catch. destruct (m w) as [[a|e] w']; auto. Qed.

Lemma catch_ok {A} f : keeps (connection_ok l) (default_sqltransaction_catch (@on_work _ A f)).
Proof.
  intros w Hw. destruct (on_work_keeps f w).
  by destruct (catch_snd (on_work f) w) as [-> | ->]; apply (connection_ok_same l w).
Qed.

Lemma prepared_ok n q id args : (n, q) ∈ commands l ->
  keeps (connection_ok l) (prepared n q id args).
Proof.
  intros Hin w Hw. unfold prepared.
  destruct (trans w); [|done]. destruct (prepared_names w !! _ : option bool) as [b|]; [|done].
  assert (connection_ok l (if b then w else register (name_int n) q w)) as Hw'
    by (destruct b; [done|by apply register_ok]).
  set (w' := if b then w else _) in *. clearbody w'.
  unfold run_statement. apply (catch_ok (fun db t path => match statements w' !! name_int n ≫=
    fun stmt => exec_query path stmt id args t db with
    | Some (r, db') => Some (r, db', path) | None => None end) w' Hw').
Qed.

(** A command runs the statement it was written with. *)
Lemma prepared_open n q id args w db t path : connection_ok l w -> (n, q) ∈ commands l ->
  trans w = Some (Open db t path) ->
  prepared n q id args w =
    let w' := next (noted (name_int n) q w) in
    let fails r := (inr (if is_serialize_error r then SerializationFailure else SqlException),
                    set_commit_on_delete false (set_trans (Some Failed) w')) in
    match fault (requests w) with
    | Some r => fails r
    | None =>
        match exec_query path q id args t db with
        | Some (r, db') => (inl r, set_trans (Some (Open db' t path)) w')
        | None => fails (complaint (requests w))
        end
    end.
Proof.
  intros [Hlen Hreg] Hin Ht. unfold prepared, noted. rewrite Ht.
  destruct (prepared_names w !! name_int n) as [b|] eqn:Hb; simpl.
  2: { apply lookup_ge_None in Hb. assert (name_int n < 32)%nat; [|lia].
       revert Hin. clear. intros Hin.
       assert (forallb (fun c => name_int c.1 <? 32)%nat (commands l) = true) as Hall
         by (destruct l; by vm_compute).
       rewrite forallb_forall in Hall. apply list_elem_of_In in Hin.
       apply Hall in Hin. apply Nat.ltb_lt in Hin. done. }
  assert (statements (if b then w else register (name_int n) q w) !! name_int n = Some q) as Hs.
  { destruct b; simpl; [|by rewrite lookup_insert_eq].
    destruct (Hreg _ Hb) as (n' & q' & Hin' & Heq & ->). f_equal.
    symmetry. by eapply commands_fun. }
  unfold default_sqltransaction_catch, run_statement, on_work.
  assert (trans (if b then w else register (name_int n) q w) = Some (Open db t path)) as Ht'
    by by destruct b.
  assert (requests (if b then w else register (name_int n) q w) = requests w) as Hr
    by by destruct b.
  set (w1 := if b then w else _) in *. clearbody w1. rewrite Hr. simpl. rewrite Ht', Hs. simpl.
  destruct (fault _); [done|]. by destruct (exec_query _ _ _ _ _ _) as [[r db']|].
Qed.

End store.

(** ** What the operations send *)

Ltac in_commands := by apply (bool_decide_unpack _); vm_compute.

Section operations.
Context `{Server} `{SqlBuild}.

(** Sending a command of the store keeps [I]. *)
Definition sends_keep (l : Level) (I : sql_world -> Prop) : Prop :=
  forall n q id args, (n, q) ∈ commands l -> keeps I (prepared n q id args).

Lemma obj_exists_keeps l I id : sends_keep l I -> keeps I (obj_exists id).
Proof. intros Hp. apply keeps_bind; [|by keeps]. apply Hp. destruct l; in_commands. Qed.

Lemma remove_keeps l I id : sends_keep l I -> keeps I (remove id).
Proof. intros Hp. unfold remove. keeps; apply Hp; destruct l; in_commands. Qed.

Lemma send_update_keeps l I xx set t k id ends args : sends_keep l I ->
  (forall c, c ∈ updates_of xx set -> c ∈ commands l) ->
  keeps I (send_update xx set t k id ends args).
Proof.
  intros Hp Hc. unfold send_update.
  destruct (update_at_group xx set t k) as [[n q]|] eqn:Hu; [|by keeps].
  destruct (other_ends k ends); [|by keeps]. by apply Hp, Hc, (update_at_group_sent xx set t k).
Qed.

Lemma select_version_keeps l I t id : sends_keep l I -> keeps I (select_version l t id).
Proof. intros Hp. destruct l, t; apply Hp; in_commands. Qed.

Lemma select_version_data_keeps l I t id : sends_keep l I -> keeps I (select_version_data l t id).
Proof. intros Hp. destruct l, t; apply Hp; in_commands. Qed.

Lemma updates_sent xx set : (xx, set) ∈ [(udc_names, Param 5); (ic_names, PlusOne)] ->
  forall c, c ∈ updates_of xx set -> c ∈ commands Causal.
Proof.
  intros Hin c Hc. unfold commands. rewrite !elem_of_app.
  rewrite !elem_of_cons, elem_of_nil in Hin. naive_solver.
Qed.

Lemma update_data_keeps l I t k id ends b : sends_keep l I -> keeps I (update_data l t k id ends b).
Proof.
  intros Hp. destruct l; [by eapply send_update_keeps, updates_sent; [|set_solver]|].
  destruct t; apply Hp; in_commands.
Qed.

Lemma initialize_with_id_keeps l I t k id ends b : sends_keep l I ->
  keeps I (initialize_with_id l t k id ends b).
Proof.
  intros Hp. destruct l; simpl; unfold initialize_with_id_c, initialize_with_id_s; keeps;
    try (apply Hp; in_commands).
  by eapply send_update_keeps, updates_sent; [|set_solver].
Qed.

Lemma increment_keeps l I t k id ends : sends_keep l I -> keeps I (increment l t k id ends).
Proof.
  intros Hp. unfold increment, increment_s, increment_c. keeps.
  - by eapply send_update_keeps, updates_sent; [|set_solver].
  - apply Hp; in_commands.
Qed.
End operations.

#[export] Hint Resolve obj_exists_keeps remove_keeps select_version_keeps select_version_data_keeps
  update_data_keeps initialize_with_id_keeps increment_keeps : keeps.

(** ** Operations on objects *)

(** A property of the world, of a world with an object *)
Definition of_world (I : sql_world -> Prop) (s : object_state) : Prop := I s.1.

Section of_world.
Context (I : sql_world -> Prop).

Lemma keeps_on_world {A} (m : RT sql_world A) : keeps I m -> keeps (of_world I) (on_world m).
Proof.
  intros Hm [w o] Hs. unfold on_world, of_world in *. specialize (Hm w Hs). simpl in *.
  by destruct (m w) as [r w'].
Qed.

Lemma keeps_get_object : keeps (of_world I) get_object.
Proof. by intros s. Qed.
Lemma keeps_modify_object f : keeps (of_world I) (modify_object f).
Proof. by intros s. Qed.
Lemma keeps_on_vers {A} (m : RT Z A) : keeps (of_world I) (on_vers m).
Proof. intros s Hs. unfold on_vers. by destruct (m _). Qed.
Lemma keeps_on_causal_vers {A} (m : RT Clock A) : keeps (of_world I) (on_causal_vers m).
Proof. intros s Hs. unfold on_causal_vers. by destruct (m _). Qed.
Lemma keeps_has_transaction : keeps (of_world I) has_transaction.
Proof. by intros s. Qed.
End of_world.

#[export] Hint Resolve keeps_on_world keeps_get_object keeps_modify_object keeps_on_vers
  keeps_on_causal_vers keeps_has_transaction : keeps.

Section objects.
Context `{Server} `{SqlBuild}.

(** An invariant that the commands keep, and that does not depend on the clock *)
Section invariant.
Context (l : Level) (I : sql_world -> Prop) (Hsends : sends_keep l I).
Context (clock_keeps : forall c w, I w -> I (set_clock c w)).
#[local] Hint Resolve clock_keeps Hsends : keeps.

Ltac keeps_op := keeps; try (apply keeps_on_world; keeps).

Lemma malloc_cleared_keeps {S} (J : S -> Prop) n : keeps J (malloc_cleared n).
Proof. unfold malloc_cleared. destruct sql_debug; keeps. Qed.
#[local] Hint Resolve malloc_cleared_keeps : keeps.

Lemma resize_keeps n : keeps (of_world I) (resize_buffer n).
Proof. unfold resize_buffer, resize_pointer. keeps_op. Qed.
Lemma update_version_keeps r : keeps (of_world I) (update_version l r).
Proof. unfold update_version. keeps_op. Qed.
#[local] Hint Resolve resize_keeps update_version_keeps : keeps.

Lemma save_keeps : keeps (of_world I) (save l).
Proof.
  unfold save, nullspace_is_zero. keeps_op.
Qed.
Lemma check_version_keeps : keeps (of_world I) (check_version l).
Proof. unfold check_version. keeps_op. Qed.
#[local] Hint Resolve save_keeps check_version_keeps : keeps.

Lemma load_data_keeps : keeps (of_world I) (load_data l).
Proof. unfold load_data, blob_of, load_blob, load_int. keeps_op. Qed.
#[local] Hint Resolve load_data_keeps : keeps.

Lemma load_keeps : keeps (of_world I) (load l).
Proof. unfold load. keeps_op. Qed.
Lemma gso_increment_keeps : keeps (of_world I) (gso_increment l).
Proof. unfold gso_increment. keeps_op. Qed.
Lemma isValid_keeps : keeps (of_world I) isValid.
Proof. unfold isValid. keeps_op. Qed.
Lemma get_keeps {T} (c : Wire.codec T) : keeps (of_world I) (get l c).
Proof. unfold get. pose proof load_keeps. keeps_op. Qed.
Lemma put_keeps {T} (c : Wire.codec T) x : keeps (of_world I) (put l c x).
Proof. unfold put, obj_buffer. keeps_op. Qed.
Lemma newObject_keeps id {T} (c : Wire.codec T) t name x : keeps I (newObject l id c t name x).
Proof. unfold newObject, named_object. keeps_op. Qed.
Lemma from_bytes_keeps id v : keeps I (from_bytes l id v).
Proof. unfold from_bytes, sized_object. keeps_op. Qed.
End invariant.

(** ** What a client does *)

(** An operation other than to begin, to commit or to end a transaction, however it
    ends; the objects are any. *)
Inductive operation_step (l : Level) (id : Z) : sql_world -> sql_world -> Prop :=
| step_abort w : operation_step l id w (sql_abort w).2
| step_exists name w : operation_step l id w (exists_name name w).2
| step_remove name w : operation_step l id w (remove name w).2
| step_new {T} (c : Wire.codec T) t name x w : operation_step l id w (newObject l id c t name x w).2
| step_from_bytes v w : operation_step l id w (from_bytes l id v w).2
| step_save w o : operation_step l id w (save l (w, o)).2.1
| step_load w o : operation_step l id w (load l (w, o)).2.1
| step_increment w o : operation_step l id w (gso_increment l (w, o)).2.1
| step_valid w o : operation_step l id w (isValid (w, o)).2.1
| step_get {T} (c : Wire.codec T) w o : operation_step l id w (get l c (w, o)).2.1
| step_put {T} (c : Wire.codec T) x w o : operation_step l id w (put l c x (w, o)).2.1.

Inductive client_step (l : Level) (id : Z) : sql_world -> sql_world -> Prop :=
| step_operation w w' : operation_step l id w w' -> client_step l id w w'
| step_begin w : client_step l id w (sql_begin w).2
| step_commit w : client_step l id w (sql_commit w).2
| step_destroy w : client_step l id w (sql_destroy w).2.

Lemma operation_step_keeps l id I w w' : sends_keep l I -> (forall c w, I w -> I (set_clock c w)) ->
  (forall w, I w -> I (set_commit_on_delete false w)) ->
  operation_step l id w w' -> I w -> I w'.
Proof.
  intros Hp Hc Habort Hstep Hw.
  destruct Hstep as [w|name w|name w|T c t name x w|v w|w o|w o|w o|w o|T c w o|T c x w o].
  - by apply Habort.
  - by apply (obj_exists_keeps l).
  - by apply (remove_keeps l).
  - by apply newObject_keeps.
  - by apply (from_bytes_keeps l).
  - by apply (save_keeps l I Hp (w, o)).
  - by apply (load_keeps l I Hp Hc (w, o)).
  - by apply (gso_increment_keeps l I Hp (w, o)).
  - by apply (isValid_keeps l I Hp (w, o)).
  - by apply (get_keeps l I Hp Hc c (w, o)).
  - by apply (put_keeps l I Hp c x (w, o)).
Qed.

(** ** The invariant of a store *)

(** The search path is that of the level. *)
Definition path_ok (l : Level) (w : sql_world) : Prop :=
  search_path w = Some l /\ forall db t p, trans w = Some (Open db t p) -> p = Some l.

Definition store_inv (l : Level) (w : sql_world) : Prop := connection_ok l w /\ path_ok l w.

Lemma on_work_path {A} l f : (forall db t p r, f db t p = Some r -> r.2 = p) ->
  keeps (path_ok l) (default_sqltransaction_catch (@on_work _ A f)).
Proof.
  intros Hf w [Hs Ht].
  assert (path_ok l (on_work f w).2) as Hw.
  { unfold on_work. simpl. destruct (trans w) as [[db t p| |]|] eqn:E; [|by split; simpl; [|rewrite E]..].
    destruct (fault _); [by split|].
    destruct (f db t p) as [[[r db'] p']|] eqn:Hr; [|by split].
    apply Hf in Hr. simpl in Hr. subst p'. split; [done|]. intros ??? [= <- <- <-]. by eapply Ht. }
  by destruct (catch_snd (on_work f) w) as [-> | ->].
Qed.

Lemma prepared_path l n q id args : keeps (path_ok l) (prepared n q id args).
Proof.
  intros w Hw. unfold prepared. destruct (trans w); [|done].
  destruct (prepared_names w !! _ : option bool) as [b|]; [|done].
  set (w' := if b then w else _). assert (path_ok l w') as Hw' by by destruct b.
  clearbody w'. revert Hw'. unfold run_statement.
  apply (on_work_path l (fun db t path => match statements w' !! name_int n ≫=
    fun stmt => exec_query path stmt id args t db with
    | Some (r, db') => Some (r, db', path) | None => None end)).
  intros db t p r. destruct (_ ≫= _) as [[??]|]; [|done]. by intros [= <-].
Qed.

Lemma sends_store_inv l : sends_keep l (store_inv l).
Proof. intros n q id args Hin w [? ?]. split; [by apply prepared_ok|by apply prepared_path]. Qed.

Lemma sql_begin_inv l : keeps (store_inv l) sql_begin.
Proof.
  unfold sql_begin. keeps. intros w [Hc [Hs Ht]]. unfold new_transaction.
  destruct (trans w) eqn:E; [by split; [|by split; [|simpl; rewrite E]]|].
  destruct (fault _); [by split; [|by split; [|simpl; rewrite E]]|].
  split; [done|]. split; [done|]. by intros ??? [= <- <- <-].
Qed.

Lemma sql_commit_inv l : keeps (store_inv l) sql_commit.
Proof.
  intros w [Hc [Hs Ht]]. unfold sql_commit. simpl.
  destruct (trans w) as [[db t p| |]|] eqn:E; simpl.
  - destruct (fault _); [destruct (commit_in_doubt _); [|by split]|]; (split; [done|]); (split; [|done]);
      simpl; by eapply Ht.
  - destruct (commit_closed _); (split; [done|]; split; [done|]; simpl; by rewrite E).
  - destruct (commit_closed _); (split; [done|]; split; [done|]; simpl; by rewrite E).
  - split; [done|]; split; [done|]; simpl; by rewrite E.
Qed.

Lemma sql_destroy_inv l : keeps (store_inv l) sql_destroy.
Proof. unfold sql_destroy. pose proof (sql_commit_inv l). keeps. by intros s [? [? ?]]. Qed.

Lemma client_step_inv l id w w' : client_step l id w w' -> store_inv l w -> store_inv l w'.
Proof.
  intros [w1 w2 Hs|w1|w1|w1]; [|apply sql_begin_inv|apply sql_commit_inv|apply sql_destroy_inv].
  eapply operation_step_keeps; [apply sends_store_inv| | |done]; done.
Qed.

Lemma exec_value set_path w u w' : trans_exec set_path w = (inl u, w') ->
  exists db t p, trans w = Some (Open db t p) /\
    trans w' = Some (Open db t (match set_path with Some l => Some l | None => p end)).
Proof.
  unfold trans_exec, default_sqltransaction_catch, on_work. simpl.
  destruct (trans w) as [[db t p| |]|]; [|done..]. destruct (fault _); [done|].
  intros [= _ <-]. by exists db, t, p.
Qed.

Lemma commit_value w b w' db t p : sql_commit w = (inl b, w') -> trans w = Some (Open db t p) ->
  search_path w' = p /\ trans w' = Some Committed.
Proof.
  unfold sql_commit. simpl. intros Hc Ht. rewrite Ht in Hc.
  destruct (fault _); [done|]. by injection Hc as _ <-.
Qed.

Lemma sql_assert_value {S} b (s : S) u s' : sql_assert b s = (inl u, s') -> s' = s.
Proof. unfold sql_assert. by destruct sql_debug, b; intros [=]. Qed.

Lemma open_store_connection l l' : keeps (connection_ok l') (open_store l).
Proof.
  assert (keeps (connection_ok l') sql_commit) as Hcommit.
  { intros w Hw. unfold sql_commit. simpl.
    destruct (trans w) as [[? ? ?| |]|]; [destruct (fault _); [destruct (commit_in_doubt _)|]|destruct (commit_closed _)..|]; done. }
  unfold open_store, sql_begin, sql_destroy, trans_exec. keeps; try done.
  - intros w Hw. unfold new_transaction. destruct (trans w); [done|]. by destruct (fault _).
  - apply catch_ok.
  - apply catch_ok.
Qed.

Lemma open_store_inv l db w : open_store l (new_connection db) = (inl tt, w) -> store_inv l w.
Proof.
  intros Hopen.
  pose proof (open_store_connection l l (new_connection db) (new_connection_ok l db)) as Hc.
  rewrite Hopen in Hc. split; [done|]. clear Hc. unfold open_store in Hopen. run_inv.
  repeat match goal with Hx : trans_exec _ _ = _ |- _ =>
    apply exec_value in Hx as (? & ? & ? & ? & ?) end.
  simplify_eq.
  match goal with Hx : sql_assert _ _ = _ |- _ => apply sql_assert_value in Hx as -> end.
  match goal with Hx : sql_commit _ = _ |- _ => eapply commit_value in Hx as [Hp Ht]; [|done] end.
  unfold sql_destroy in Hopen. run_inv. simpl. split; [|done].
  destruct (commit_on_delete _); [|by run_inv; simpl].
  match goal with Hx : sql_commit _ = _ |- _ => revert Hx end.
  unfold sql_commit. simpl. rewrite Ht. by destruct (commit_closed _); intros [= _ <-].
Qed.

(** C19: Each command of a store runs the very statement it is written with, on the
    tables of the level of the store, whatever the client has done before: no two
    commands of a level share the number their texts are registered under.  It gives
    what the statement means, or the exception of the error the server reports. *)
Theorem prepared_statement_is_run l inst db w0 w n q id args image t path :
  open_store l (new_connection db) = (inl tt, w0) -> rtc (client_step l inst) w0 w ->
  (n, q) ∈ commands l -> trans w = Some (Open image t path) ->
  match fault (requests w), exec_query (Some l) q id args t image with
  | None, Some (r, image') =>
      (prepared n q id args w).1 = inl r /\
      trans (prepared n q id args w).2 = Some (Open image' t (Some l))
  | Some e, _ =>
      (prepared n q id args w).1 =
        inr (if is_serialize_error e then SerializationFailure else SqlException) /\
      trans (prepared n q id args w).2 = Some Failed
  | None, None =>
      (prepared n q id args w).1 = inr (if is_serialize_error (complaint (requests w))
                                        then SerializationFailure else SqlException) /\
      trans (prepared n q id args w).2 = Some Failed
  end.
Proof.
  intros Hopen Hsteps Hin Ht.
  assert (store_inv l w) as [Hc [Hp Hpath]].
  { apply open_store_inv in Hopen. induction Hsteps; [done|]. by eauto using client_step_inv. }
  rewrite (prepared_open l n q id args w image t path) by done.
  rewrite (Hpath _ _ _ Ht). simpl. destruct (fault (requests w)); [done|].
  by destruct (exec_query _ _ _ _ _ _) as [[r image']|].
Qed.

(** ** Atomicity *)

Lemma on_work_committed {A} (f : Database -> Z -> option Level -> option (A * Database * option Level)) w :
  committed (on_work f w).2 = committed w /\ commit_on_delete (on_work f w).2 = commit_on_delete w.
Proof.
  unfold on_work. simpl. destruct (trans w) as [[db t p| |]|]; [|done..].
  destruct (fault _); [done|]. by destruct (f db t p) as [[[??]?]|].
Qed.

Lemma prepared_committed n q id args w :
  committed (prepared n q id args w).2 = committed w /\
  (commit_on_delete w = false -> commit_on_delete (prepared n q id args w).2 = false).
Proof.
  unfold prepared. destruct (trans w); [|done].
  destruct (prepared_names w !! _ : option bool) as [b|]; [|done].
  set (w' := if b then w else _). assert (committed w' = committed w /\
    commit_on_delete w' = commit_on_delete w) as [<- <-] by by destruct b.
  assert (committed (run_statement (name_int n) id args w').2 = committed w' /\
    commit_on_delete (run_statement (name_int n) id args w').2 = commit_on_delete w') as [<- <-]
    by apply on_work_committed.
  by destruct (catch_snd (run_statement (name_int n) id args) w') as [-> | ->].
Qed.

(** The database, with a transaction that is not committed on its own *)
Definition untouched (db : Database) (w : sql_world) : Prop :=
  committed w = db /\ commit_on_delete w = false.

Lemma sends_untouched l db : sends_keep l (untouched db).
Proof.
  intros n q id args _ w [? ?]. destruct (prepared_committed n q id args w) as [He Hf].
  split; [by rewrite He|by apply Hf].
Qed.

(** What statements of a level, all of them at the time [t], make of the tables *)
Definition runs_statements (l : Level) (t : Z) : relation Database :=
  rtc (fun db db' => exists n q id args r,
    (n, q) ∈ commands l /\ exec_query (Some l) q id args t db = Some (r, db')).

(** The transaction that began with [image] has failed, or has run statements on it. *)
Definition ran (l : Level) (t : Z) (image : Database) (w : sql_world) : Prop :=
  store_inv l w /\
  (trans w = Some Failed \/
   exists image' path, trans w = Some (Open image' t path) /\ runs_statements l t image image').

Lemma sends_ran l t image : sends_keep l (ran l t image).
Proof.
  intros n q id args Hin w [Hinv Hw]. split; [by apply (sends_store_inv l n q)|].
  destruct Hw as [Hf|(image' & path & Ht & Hr)].
  - left. unfold prepared. rewrite Hf. destruct (prepared_names w !! _ : option bool) as [b|]; [|done].
    unfold default_sqltransaction_catch, run_statement, on_work. by destruct b; simpl; rewrite Hf.
  - pose proof Hinv as [Hc [_ Hp]]. rewrite (prepared_open l n q id args w image' t path) by done.
    rewrite (Hp _ _ _ Ht). simpl. destruct (fault _); [by left|].
    destruct (exec_query _ _ _ _ _ _) as [[r db']|] eqn:Hq; [|by left].
    right. exists db', (Some l). split; [done|]. eapply rtc_r; [exact Hr|]. by exists n, q, id, args, r.
Qed.

(** C20: A transaction is all or nothing.  While it is open the database does not change,
    whatever operations of the store the client calls; the transaction has either
    failed, or its tables are those it began with after the statements that were sent,
    one after another and all at the time it began.  Nothing of it shows when it is
    destroyed, nor when a transaction that has failed is committed; all of it shows when
    the commit returns; and when the commit throws either nothing or, if it is the answer
    of the server that was lost, all of it. *)
Theorem transaction_is_atomic l inst db w0 w w' image t path :
  open_store l (new_connection db) = (inl tt, w0) -> rtc (client_step l inst) w0 w ->
  trans w = Some (Open image t path) -> commit_on_delete w = false ->
  rtc (operation_step l inst) w w' ->
  committed w' = committed w /\
  (trans w' = Some Failed \/
   exists image', trans w' = Some (Open image' t (Some l)) /\ runs_statements l t image image') /\
  committed (sql_destroy w').2 = committed w /\
  forall r w'', sql_commit w' = (r, w'') ->
    committed w'' =
      match trans w', r with
      | Some (Open image' _ _), inl _ => image'
      | Some (Open image' _ _), inr _ => if commit_in_doubt (requests w') then image' else committed w
      | _, _ => committed w
      end.
Proof.
  intros Hopen Hclient Ht Hd Hsteps.
  assert (store_inv l w) as Hinv.
  { apply open_store_inv in Hopen. clear -Hopen Hclient. induction Hclient; [done|].
    by eauto using client_step_inv. }
  assert (untouched (committed w) w' /\ ran l t image w') as [[Hc Hd'] [[_ [_ Hp]] Hran]].
  { assert (untouched (committed w) w) as Hw by done.
    assert (ran l t image w) as Hr by (split; [done|right; exists image, path; by split; [|apply rtc_refl]]).
    clear Hopen Hclient Ht Hd Hinv. revert Hw Hr. generalize (committed w). intros db0.
    induction Hsteps as [|w1 w2 w3 Hs _ IH]; [done|]. intros Hw Hr. apply IH.
    - eapply operation_step_keeps; [apply (sends_untouched l db0)| | |exact Hs|exact Hw];
        [by intros c v []|by intros v []].
    - eapply operation_step_keeps; [apply (sends_ran l t image)| | |exact Hs|exact Hr]; done. }
  split; [done|]. split; [|split].
  - destruct Hran as [?|(image' & p & Ht' & Hr)]; [by left|right]. exists image'.
    by rewrite <- (Hp _ _ _ Ht').
  - unfold sql_destroy, mbind, RT_bind. simpl. by rewrite Hd'.
  - intros r w''. unfold sql_commit. simpl.
    destruct (trans w') as [[image' t' p| |]|];
      [destruct (fault _); [destruct (commit_in_doubt _)|]|destruct (commit_closed _)..|];
      by intros [= <- <-].
Qed.
End objects.
