(* ===== verification/SqlCausal.v ===== *)
(** * What statements do to a row

    The update of a causal row, with the trigger that numbers it, and what a
    reader of the row [0] finds; the same for the rows of a strong store. *)
From stdpp Require Import vector fin.
From S2P Require Import Prelude Runtime Clocks SqlDb SqlStore.

#[local] Open Scope Z_scope.

(** ** Rows by position *)

Lemma list_find_unique {A B} `{EqDecision B} (f : A -> B) (l : list A) i x :
  NoDup (f <$> l) -> l !! i = Some x ->
  filter (fun j => default false ((fun y => bool_decide (f y = f x)) <$> l !! j) = true)
    (seq 0 (length l)) = [i].
Proof.
  intros Hnd Hi.
  assert (forall k, filter (fun j => default false ((fun y => bool_decide (f y = f x)) <$> l !! j) = true)
    (seq 0 k) = if (i <? k)%nat then [i] else []) as Hk.
  { induction k as [|k IH]; [done|]. rewrite seq_S, filter_app, IH. simpl.
    rewrite filter_cons, filter_nil.
    destruct (decide (k = i)) as [->|Hne].
    - rewrite Nat.ltb_irrefl, (proj2 (Nat.ltb_lt i (S i))) by lia.
      rewrite decide_True; [done|]. rewrite Hi. simpl. by apply bool_decide_eq_true.
    - rewrite decide_False.
      + rewrite app_nil_r. destruct (Nat.ltb_spec i k), (Nat.ltb_spec i (S k)); done || lia.
      + destruct (l !! k) as [y|] eqn:Hy; [|done]. simpl. rewrite bool_decide_eq_true. intros Heq.
        apply Hne. eapply (NoDup_lookup _ _ _ (f x) Hnd); rewrite list_lookup_fmap;
          [by rewrite Hy; simpl; f_equal|by rewrite Hi]. }
  rewrite Hk. apply lookup_lt_Some in Hi. by rewrite (proj2 (Nat.ltb_lt _ _)).
Qed.

Definition causal_key (r : causal_row) : Z * Z := (c_id r, c_index r).

Lemma positions_key rows i r : NoDup (causal_key <$> rows) -> rows !! i = Some r ->
  positions (fun x => bool_decide (c_id x = c_id r /\ c_index x = c_index r)) rows = [i].
Proof.
  intros Hnd Hi. rewrite <- (list_find_unique causal_key rows i r Hnd Hi). unfold positions.
  apply list_filter_iff. intros j. destruct (rows !! j); [|done]. simpl.
  rewrite !bool_decide_eq_true. unfold causal_key. split; [by intros [-> ->]|by intros [= -> ->]].
Qed.

Lemma filter_none {A} (P : A -> Prop) `{!forall x, Decision (P x)} (l : list A) :
  (forall x, x ∈ l -> ~ P x) -> filter P l = [].
Proof.
  intros Hl. induction l as [|x l IH]; [done|].
  rewrite filter_cons, decide_False by (apply Hl; left). apply IH. intros y Hy. apply Hl. by right.
Qed.

(** The rows with a key, when there is one *)
Lemma filter_key {A B} `{EqDecision B} (f : A -> B) (l : list A) (P : A -> Prop)
    `{!forall x, Decision (P x)} i x :
  NoDup (f <$> l) -> l !! i = Some x -> (forall y, P y <-> f y = f x) -> filter P l = [x].
Proof.
  intros Hnd Hi HP. revert i Hi. induction l as [|y l IH]; intros i Hi; [done|].
  rewrite filter_cons. apply NoDup_cons in Hnd as [Hy Hnd]. destruct i as [|i]; simpl in Hi.
  - injection Hi as ->. rewrite decide_True by by apply HP. f_equal.
    apply filter_none. intros z Hz Hp%HP. apply Hy. rewrite <- Hp.
    apply list_elem_of_fmap. by exists z.
  - rewrite decide_False; [by eapply IH|]. intros Hp%HP. apply Hy. rewrite Hp.
    apply list_elem_of_fmap. exists x. split; [done|]. by eapply list_elem_of_lookup_2.
Qed.

Ltac four_groups k := match goal with
  | H : 1 <= k <= 4 |- _ =>
      let H' := fresh in
      assert (k = 1 \/ k = 2 \/ k = 3 \/ k = 4) as H' by lia; clear H;
      destruct H' as [-> | [-> | [-> | ->]]]
  end.

Section rows.
Context `{Schema}.

(** ** The update of a causal row *)

(** The clock the [set] clauses give a row: the components of the other groups are
    those of the client. *)
Definition others_set (k : Z) (ends old : Clock) : Clock :=
  fun_to_vec (fun j : fin 4 => if decide (Z.of_nat (fin_to_nat j) + 1 = k) then old !!! j else ends !!! j).

(** The component of the group itself is numbered by the trigger. *)
Definition own_set (k t : Z) (c : Clock) : Clock :=
  fun_to_vec (fun j : fin 4 => if decide (Z.of_nat (fin_to_nat j) + 1 = k) then t else c !!! j).

Lemma vec4 {A} (v : vec A 4) : v = [# v !!! 0%fin; v !!! 1%fin; v !!! 2%fin; v !!! 3%fin].
Proof. apply vec_eq. intros i. by induction i using fin_4_ind. Qed.

Lemma group_mapper_master k g : 1 <= k <= 4 -> group_mapper k = Some g -> 1 <= g <= 2.
Proof. intros Hk Hg. four_groups k; vm_compute in Hg; injection Hg as <-; lia. Qed.

Lemma others_set_lookup k ends old j : others_set k ends old !!! j =
  if decide (Z.of_nat (fin_to_nat j) + 1 = k) then old !!! j else ends !!! j.
Proof. apply (lookup_fun_to_vec (A:=Z)). Qed.

Lemma own_set_lookup k t c j : own_set k t c !!! j =
  if decide (Z.of_nat (fin_to_nat j) + 1 = k) then t else c !!! j.
Proof. apply (lookup_fun_to_vec (A:=Z)). Qed.

Lemma update_at_group_some xx set t k : length xx = 8%nat -> 1 <= k <= 4 ->
  exists name g, update_at_group xx set t k = Some (name, UpdateC (UpdateCmd t set (vcs1 3 1 k) k (Some g))) /\
    group_mapper k = Some g /\ 1 <= g <= 2 /\ (name, UpdateC (UpdateCmd t set (vcs1 3 1 k) k (Some g))) ∈
      (prod_map id UpdateC <$> update_data_c_cmd xx set).
Proof.
  intros Hlen Hk. destruct xx as [|? [|? [|? [|? [|? [|? [|? [|? [|]]]]]]]]]; try done.
  four_groups k; destruct t; do 2 eexists; (split; [reflexivity|]); (split; [reflexivity|]);
    (split; [by split|]); apply list_elem_of_In; vm_compute; tauto.
Qed.

Lemma other_ends_set k ends es ps id c : 1 <= k <= 4 -> other_ends k ends = Some es ->
  set_vcs (vcs1 3 1 k) (DInt id :: es ++ ps) c = Some (others_set k ends c) /\
  param (DInt id :: es ++ ps) 5 = head ps.
Proof.
  intros Hk He. rewrite (vec4 c), (vec4 ends). rewrite (vec4 ends) in He.
  four_groups k; vm_compute in He; injection He as <-; (split; [reflexivity|]); by destruct ps.
Qed.

Lemma set_own k t c : 1 <= k <= 4 -> set_vc k t c = Some (own_set k t c).
Proof. intros Hk. rewrite (vec4 c). by four_groups k. Qed.

(** The clocks of the rows of the masters *)
Definition masters (id : Z) (rows : list causal_row) : list Clock :=
  c_vc <$> filter (fun r => c_id r = id /\ c_index r <> 0) rows.

(** The row [0] gets the data, and a clock that dominates those of the masters. *)
Definition merged (id : Z) (vc : Clock) (b : datum) (rows : list causal_row) : list causal_row :=
  (fun r => if decide (c_id r = id /\ c_index r = 0)
            then CausalRow (c_index r) (c_id r) (foldr ends_max vc (masters id rows)) (c_lw r) b
            else r) <$> rows.

(** An update of group [k] writes the row at [p], and the row [0] when the data differ. *)
Definition row_updated (k t : Z) (ends : Clock) (b : datum) (p : nat) (old : causal_row)
    (rows : list causal_row) : Clock * list causal_row :=
  let vc := others_set k ends (c_vc old) in
  if decide (c_data old = b)
  then (vc, <[p := CausalRow (c_index old) (c_id old) vc k b]> rows)
  else
    let vc := own_set k t vc in
    (vc, <[p := CausalRow (c_index old) (c_id old) vc k b]> (merged (c_id old) vc b rows)).

Lemma run_update_row tb set k t ends es ps b g rows p old : 1 <= k <= 4 -> g <> 0 ->
  other_ends k ends = Some es -> NoDup (causal_key <$> rows) -> rows !! p = Some old ->
  c_index old = g -> eval_data set (DInt (c_id old) :: es ++ ps) (c_data old) = Some b ->
  run_update (UpdateCmd tb set (vcs1 3 1 k) k (Some g)) (DInt (c_id old) :: es ++ ps) t rows =
  let '(vc, rows') := row_updated k t ends b p old rows in Some ([vc_datums vc], rows').
Proof.
  intros Hk Hg He Hnd Hp <- Hb.
  pose proof (proj1 (other_ends_set k ends es ps (c_id old) (c_vc old) Hk He)) as Hset.
  set (cols := vcs1 3 1 k) in *. clearbody cols. unfold run_update. simpl.
  rewrite (positions_key rows p old Hnd Hp). cbn [update_at]. rewrite Hp. cbn [mbind option_bind].
  unfold set_row. simpl u_data. rewrite Hb. cbn [mbind option_bind]. simpl u_vcs.
  rewrite Hset. cbn [mbind option_bind u_lw].
  unfold trigger, row_updated. simpl. destruct (decide (c_data old = b)) as [Hd|Hd].
  - by rewrite decide_False by tauto.
  - rewrite decide_True by done. unfold blobstore_numbering. simpl. rewrite set_own by done. done.
Qed.

(** What a reader finds *)
Definition row0 (id : Z) (rows : list causal_row) : option causal_row :=
  head (filter (fun r => c_id r = id /\ c_index r = 0) rows).

Lemma filter_key0 id rows i r : NoDup (causal_key <$> rows) -> rows !! i = Some r ->
  c_id r = id -> c_index r = 0 ->
  filter (fun r => c_id r = id /\ c_index r = 0) rows = [r].
Proof.
  intros Hnd Hi <- H0. eapply (filter_key causal_key); [done..|]. intros y. unfold causal_key.
  rewrite H0. split; [by intros [-> ->]|by intros [= -> ->]].
Qed.

Lemma row_updated_keys k t ends b p old rows : rows !! p = Some old ->
  causal_key <$> (row_updated k t ends b p old rows).2 = causal_key <$> rows.
Proof.
  intros Hp. unfold row_updated. assert (forall vc rs, causal_key <$> rs = causal_key <$> rows ->
    causal_key <$> <[p := CausalRow (c_index old) (c_id old) vc k b]> rs = causal_key <$> rows) as Hi.
  { intros vc rs Hrs. rewrite list_fmap_insert, Hrs. apply list_insert_id.
    by rewrite list_lookup_fmap, Hp. }
  destruct (decide _); simpl; apply Hi; [done|]. unfold merged. rewrite <- list_fmap_compose.
  apply list_fmap_ext. intros ? x _. simpl. by destruct (decide _).
Qed.

(** The row [0] after an update *)
Lemma row_updated_row0 k t ends b p old rows p0 r0 : NoDup (causal_key <$> rows) ->
  rows !! p = Some old -> c_index old <> 0 ->
  rows !! p0 = Some r0 -> c_id r0 = c_id old -> c_index r0 = 0 ->
  (row_updated k t ends b p old rows).2 !! p0 =
    Some (if decide (c_data old = b) then r0 else
      CausalRow 0 (c_id old) (foldr ends_max (own_set k t (others_set k ends (c_vc old)))
        (masters (c_id old) rows)) (c_lw r0) b).
Proof.
  intros Hnd Hp Hi Hp0 Hid H0. assert (p <> p0) as Hne by (intros ->; congruence).
  unfold row_updated. destruct (decide (c_data old = b)); simpl; rewrite list_lookup_insert_ne by done.
  - done.
  - unfold merged. rewrite list_lookup_fmap, Hp0. simpl. rewrite decide_True by done.
    by rewrite Hid, H0.
Qed.
End rows.
