(* ===== verification/GSqlCorrect.v ===== *)
(** * Objects show what their rows hold

    When no request fails, a [load] that trusts the version of a large object gives what
    one that fetches the row gives, as long as the version an object has belongs to the
    contents it has; [put] writes the row, and what is put is what is got. *)
From stdpp Require Import vector fin.
From Stdlib Require Import Strings.Byte.
From S2P Require Import Prelude Runtime Clocks SqlDb SqlStore GSqlObject SqlStoreCorrect SqlCausal.
From S2P Require Wire.

#[local] Open Scope Z_scope.
#[local] Arguments Z.eqb : simpl never.

(** ** Buffers *)

Lemma write_at_0 bs b : (length bs <= length b)%nat ->
  write_at 0 bs b = Some ((Some <$> bs) ++ drop (length bs) b).
Proof.
  intros Hl. unfold write_at. simpl.
  by rewrite (proj2 (Nat.leb_le _ _) Hl).
Qed.

Lemma write_at_length i bs b b' : write_at i bs b = Some b' -> length b' = length b.
Proof.
  unfold write_at. destruct (Nat.leb_spec (i + length bs) (length b)); [|done].
  intros [= <-]. rewrite !length_app, length_fmap, length_take, length_drop. lia.
Qed.

Lemma read_first_take n b bs : length bs = n -> take n b = Some <$> bs ->
  read_first (Z.of_nat n) b = Some bs.
Proof.
  intros Hn Ht. unfold read_first. rewrite Nat2Z.id, Ht.
  assert (length (take n b) = n) as Hl by by rewrite Ht, length_fmap.
  rewrite length_take in Hl. rewrite (proj2 (Z.leb_le _ _)) by lia.
  apply mapM_Some. clear. by induction bs; constructor.
Qed.

(** The bytes from [i] to [j] are zero. *)
Definition zero_between (i j : nat) (b : buffer) : Prop :=
  forall k, (i <= k < j)%nat -> b !! k = Some (Some x00).

Lemma bzero_at_run i n b : 0 <= i -> 0 <= n -> i + n <= Z.of_nat (length b) ->
  exists b', bzero_at i n b = Some b' /\ length b' = length b /\
    zero_between (Z.to_nat i) (Z.to_nat (i + n)) b' /\ take (Z.to_nat i) b' = take (Z.to_nat i) b.
Proof.
  intros Hi Hn Hl. unfold bzero_at, write_at. rewrite (proj2 (Z.leb_le _ _)) by done.
  rewrite length_replicate, (proj2 (Nat.leb_le _ _)) by lia.
  eexists. split; [done|]. split; [|split].
  - rewrite !length_app, length_fmap, length_take, length_drop, length_replicate. lia.
  - intros k Hk. rewrite lookup_app_r by (rewrite length_take; lia).
    rewrite lookup_app_l by (rewrite length_fmap, length_replicate, length_take; lia).
    rewrite list_lookup_fmap, length_take. rewrite lookup_replicate_2 by lia. done.
  - rewrite take_app_le by (rewrite length_take; lia). by rewrite take_take, Nat.min_id.
Qed.

(** A buffer has room for 2048 bytes and for the object. *)
Definition buffer_ok (o : GSQLObject) : Prop :=
  0 <= size o /\ forall b, buf1 o = Some b -> 2048 <= Z.of_nat (length b) /\ size o <= Z.of_nat (length b).

(** [n] bytes are what [resize_buffer] takes. *)
Definition takes (n : Z) (o : GSQLObject) : Prop :=
  0 <= n < 2 ^ 63 /\ forall b, buf1 o = Some b -> n <= size o \/ n <= 2048.

(** The contents of an object are [bs]. *)
Definition contents (o : GSQLObject) (bs : list byte) : Prop :=
  size o = Z.of_nat (length bs) /\
  exists b, buf1 o = Some b /\ take (length bs) b = Some <$> bs.

(** ** Rows *)

(** The version and the data of the row a store reads for a key *)
Definition view (l : Level) (t : Table) (id : Z) (db : Database) : option (list datum * datum) :=
  match l with
  | Strong =>
      match filter (fun r => s_id r = id) (strong_rows t db) with
      | [r] => if s_index r =? 0 then Some ([DInt (s_version r)], s_data r) else None
      | _ => None
      end
  | Causal =>
      match filter (fun r => c_id r = id /\ c_index r = 0) (causal_rows t db) with
      | [r] => Some (vc_datums (c_vc r), c_data r)
      | _ => None
      end
  end.

(** A version [process_version_update] takes *)
Definition version_ok (l : Level) (vs : list datum) : Prop :=
  match l with
  | Strong => exists v, vs = [DInt v] /\ in_int v = true /\ v <> -1
  | Causal => exists c : Clock, vs = vc_datums c /\ forall i, in_long (c !!! i) = true
  end.

Definition version_of (l : Level) (o : GSQLObject) : list datum :=
  match l with Strong => [DInt (vers o)] | Causal => vc_datums (causal_vers o) end.

Section rows.
Context `{Server} `{SqlBuild}.

Lemma select_version_query l t id args cntr db vs d : view l t id db = Some (vs, d) ->
  exec_query (Some l) (match l with Strong => SelectVersionS t | Causal => SelectVersionC t end)
    id args cntr db = Some ([vs], db).
Proof.
  unfold view. destruct l; simpl.
  - destruct (filter _ _) as [|r [|]]; [done| |done]. by intros [= <- _].
  - destruct (filter _ _) as [|r [|]]; [done| |done]. destruct (s_index r =? 0); [|done].
    by intros [= <- _].
Qed.

Lemma select_data_query l t id args cntr db vs d : view l t id db = Some (vs, d) ->
  exec_query (Some l) (match l with Strong => SelectVersionDataS t | Causal => SelectVersionDataC t end)
    id args cntr db = Some ([vs ++ [d]], db).
Proof.
  unfold view. destruct l; simpl.
  - destruct (filter _ _) as [|r [|]]; [done| |done]. by intros [= <- <-].
  - intros Hv. replace (filter (fun r => s_id r = id /\ s_index r = 0) (strong_rows t db))
      with (filter (fun r => s_index r = 0) (filter (fun r => s_id r = id) (strong_rows t db))).
    + destruct (filter _ (strong_rows t db)) as [|r [|]]; [done| |done].
      destruct (Z.eqb_spec (s_index r) 0) as [Hi|]; [|done]. rewrite filter_cons, decide_True by done.
      by injection Hv as <- <-.
    + rewrite list_filter_filter. apply list_filter_iff. intros r. tauto.
Qed.
End rows.

(** ** Running commands *)

(** The transaction is open on the tables [db] of a store that is in order. *)
Definition in_db (l : Level) (t : Z) (db : Database) (w : sql_world) : Prop :=
  store_inv l w /\ trans w = Some (Open db t (Some l)).

Section objects.
Context `{Server} `{SqlBuild}.

Lemma sent l n q id args w db t r db' : in_db l t db w -> (n, q) ∈ commands l ->
  fault (requests w) = None -> exec_query (Some l) q id args t db = Some (r, db') ->
  exists w', prepared n q id args w = (inl r, w') /\ in_db l t db' w' /\
    requests w' = S (requests w) /\ clock w' = clock w /\ committed w' = committed w.
Proof.
  intros [Hinv Ht] Hin Hf Hq.
  pose proof (sends_store_inv l n q id args Hin w Hinv) as Hinv'.
  destruct Hinv as [Hc _].
  rewrite (prepared_open l n q id args w db t (Some l)) in * by done.
  cbv zeta in *. rewrite Hf, Hq in *. eexists. split; [done|].
  split; [by split|]. unfold noted. by destruct (default false _).
Qed.

Lemma select_version_run l t id w db vs d tm : in_db l tm db w -> fault (requests w) = None ->
  view l t id db = Some (vs, d) ->
  exists w', select_version l t id w = (inl [vs], w') /\ in_db l tm db w' /\
    requests w' = S (requests w) /\ clock w' = clock w /\ committed w' = committed w.
Proof.
  intros Hw Hf Hv. pose proof (select_version_query l t id [] tm db vs d Hv) as Hq.
  destruct l, t; (eapply sent; [done| |done..]); in_commands.
Qed.

Lemma select_data_run l t id w db vs d tm : in_db l tm db w -> fault (requests w) = None ->
  view l t id db = Some (vs, d) ->
  exists w', select_version_data l t id w = (inl [vs ++ [d]], w') /\ in_db l tm db w' /\
    requests w' = S (requests w) /\ clock w' = clock w /\ committed w' = committed w.
Proof.
  intros Hw Hf Hv. pose proof (select_data_query l t id [] tm db vs d Hv) as Hq.
  destruct l, t; (eapply sent; [done| |done..]); in_commands.
Qed.

Lemma strong_version_run v ds rest z : in_int v = true -> v <> -1 ->
  process_version_update_s ((DInt v :: ds) :: rest) z = (inl 1%nat, v).
Proof.
  intros Hv Hn. unfold process_version_update_s, mbind, RT_bind, mret, RT_ret, sql_assert. simpl.
  rewrite Hv. destruct sql_debug; simpl; [|done]. by rewrite (proj2 (Z.eqb_neq v (-1)) Hn).
Qed.

Lemma causal_version_run c ds rest c0 : (forall i, in_long (c !!! i) = true) ->
  process_version_update_c ((vc_datums c ++ ds) :: rest) c0 = (inl 4%nat, c).
Proof.
  intros Hc. rewrite (vec4 c). unfold process_version_update_c, version_field, mbind, RT_bind, mret, RT_ret, sql_assert.
  simpl. rewrite !Hc. destruct sql_debug; simpl; f_equal; apply vec_eq; intros i;
    by induction i using fin_4_ind; rewrite (vec4 c0).
Qed.
End objects.

Section buffers.
Context `{Server} `{SqlBuild}.

Lemma malloc_cleared_run {S} n (s : S) : 0 <= n < 2 ^ 63 ->
  exists b, malloc_cleared n s = (inl (Some b), s) /\ length b = Z.to_nat (buf_size n).
Proof.
  intros Hn. unfold malloc_cleared, malloc, buf_size in *.
  rewrite (proj2 (Z.ltb_lt _ _)) by lia. destruct sql_debug.
  - unfold mbind, RT_bind, defined, fmap, RT_fmap. simpl.
    destruct (bzero_at_run 0 (Z.max 2048 n) (replicate (Z.to_nat (Z.max 2048 n)) None))
      as (b & -> & Hl & _); [done|lia|rewrite length_replicate; lia|].
    exists b. split; [done|]. by rewrite Hl, length_replicate.
  - eexists. split; [done|]. by rewrite length_replicate.
Qed.

Lemma resize_pointer_run n w o : buffer_ok o -> takes n o ->
  exists b, resize_pointer n (w, o) = (inl (Some b), (w, o)) /\
    2048 <= Z.of_nat (length b) /\ n <= Z.of_nat (length b).
Proof.
  intros [Hs Hb] [Hn Hg]. unfold resize_pointer, get_object, mbind, RT_bind. simpl.
  destruct (buf1 o) as [b|] eqn:E.
  - destruct (Hb b eq_refl). exists b. specialize (Hg b eq_refl).
    assert ((n <=? size o) || (n <=? 2048) = true) as ->
      by (destruct Hg; apply orb_true_iff; [left|right]; by apply Z.leb_le).
    unfold sql_assert. split; [by destruct sql_debug|lia].
  - destruct (malloc_cleared_run (S:=object_state) n (w, o) Hn) as (b & -> & Hl). exists b. unfold buf_size in Hl.
    split; [done|lia].
Qed.

Lemma resize_run n w o : buffer_ok o -> takes n o ->
  exists b, resize_buffer n (w, o) = (inl tt, (w, set_size n (set_buf (Some b) o))) /\
    2048 <= Z.of_nat (length b) /\ n <= Z.of_nat (length b) /\
    (sql_debug = true -> zero_between (Z.to_nat n) 2048 b).
Proof.
  intros Ho Ht. destruct (resize_pointer_run n w o Ho Ht) as (b & Hr & H1 & H2).
  destruct Ht as [Hn _]. unfold resize_buffer, mbind, RT_bind. rewrite Hr.
  unfold modify_object. simpl. destruct sql_debug eqn:Hd; simpl.
  2: { exists b. done. }
  unfold buf_size. destruct (Z.ltb_spec n (Z.max 2048 n)) as [Hlt|Hge].
  - destruct (bzero_at_run n (Z.max 2048 n - n) b) as (b' & Hz & Hl & Hzero & _); [lia..|].
    unfold defined. rewrite Hz. simpl. exists b'. rewrite Hl. split; [done|]. split; [done|].
    split; [done|]. intros _ k Hk. apply Hzero. lia.
  - exists b. split; [done|]. split; [done|]. split; [done|]. intros _ k Hk. lia.
Qed.
End buffers.

(** ** Loading *)

(** Everything but the version, and everything but the contents *)
Definition same_object (o o' : GSQLObject) : Prop :=
  table o' = table o /\ key o' = key o /\ store_id o' = store_id o /\ level o' = level o.
Definition same_but_version (o o' : GSQLObject) : Prop :=
  same_object o o' /\ size o' = size o /\ buf1 o' = buf1 o.

#[global] Instance same_object_preorder : PreOrder same_object.
Proof.
  split; [done|]. intros o1 o2 o3 (?&?&?&?) (?&?&?&?). unfold same_object. by repeat split; congruence.
Qed.

(** The next request, after which the clock may be another one *)
Definition one_request (w w' : sql_world) : Prop :=
  requests w' = S (requests w) /\ committed w' = committed w.

(** A large object that has the version [vs] has the contents [bs]. *)
Definition coherent (l : Level) (o : GSQLObject) (vs : list datum) (bs : list byte) : Prop :=
  version_of l o = vs -> max_ver_check_size <= size o -> contents o bs.

Section loading.
Context `{Server} `{SqlBuild} (l : Level).

Lemma update_version_run vs ds rest w o : version_ok l vs ->
  exists o', update_version l ((vs ++ ds) :: rest) (w, o) = (inl (length vs), (w, o')) /\
    version_of l o' = vs /\ same_but_version o o'.
Proof.
  intros Hv. unfold update_version, version_ok, version_of in *. destruct l.
  - destruct Hv as (c & -> & Hc). unfold on_causal_vers. simpl fst. simpl snd.
    rewrite (causal_version_run c ds rest _ Hc). exists (set_causal_vers c o).
    split; [|by repeat split]. unfold vc_datums. by rewrite length_fmap, length_vec_to_list.
  - destruct Hv as (v & -> & Hv & Hn). unfold on_vers. simpl.
    rewrite (strong_version_run v ds rest _ Hv Hn). exists (set_vers v o). by repeat split.
Qed.

Lemma is_same_datums (a b : Clock) : is_same a b = bool_decide (vc_datums a = vc_datums b).
Proof.
  unfold is_same. rewrite is_same_loop_eq by by rewrite !length_vec_to_list.
  apply bool_decide_ext. unfold vc_datums. split; [by intros ->|].
  intros Heq. assert (Inj (=) (=) DInt) by by intros ?? [=].
  by apply (inj (fmap (M:=list) DInt)) in Heq.
Qed.

Lemma check_version_run w o db t vs d : in_db l t db w -> fault (requests w) = None ->
  view l (table o) (key o) db = Some (vs, d) -> version_ok l vs ->
  exists w' o', check_version l (w, o) = (inl (bool_decide (version_of l o = vs)), (w', o')) /\
    in_db l t db w' /\ one_request w w' /\ version_of l o' = vs /\ same_but_version o o'.
Proof.
  intros Hw Hf Hv Hvs.
  destruct (select_version_run l (table o) (key o) w db vs d t Hw Hf Hv) as (w' & Hs & Hw' & Hr & Hc & Hd).
  unfold check_version, get_object, on_world, mbind, RT_bind. simpl. rewrite Hs.
  unfold version_ok, version_of in *. destruct l.
  - destruct Hvs as (c & -> & Hcl). unfold on_causal_vers. simpl.
    pose proof (causal_version_run c [] [] (causal_vers o) Hcl) as Hp. rewrite app_nil_r in Hp.
    rewrite Hp. simpl. rewrite is_same_datums.
    destruct (bool_decide (vc_datums (causal_vers o) = vc_datums c)); simpl; do 2 eexists;
      (split; [reflexivity|]); repeat split; simpl; done || apply Hw' || congruence.
  - destruct Hvs as (v & -> & Hv1 & Hn). unfold on_local. simpl.
    rewrite (strong_version_run v [] [] (-12) Hv1 Hn). unfold modify_object. simpl.
    replace (vers o =? v) with (bool_decide ([DInt (vers o)] = [DInt v])).
    + do 2 eexists. split; [reflexivity|]. repeat split; simpl; done || apply Hw' || congruence.
    + destruct (Z.eqb_spec (vers o) v) as [->|]; [by rewrite bool_decide_true|].
      rewrite bool_decide_false; [done|by intros [=]].
Qed.

Lemma sql_assert_true {S} b (s : S) : b = true -> sql_assert b s = (inl tt, s).
Proof. intros ->. unfold sql_assert. by destruct sql_debug. Qed.

Lemma write_contents bs b : (length bs <= length b)%nat ->
  exists b', write_at 0 bs b = Some b' /\ length b' = length b /\ take (length bs) b' = Some <$> bs /\
    drop (length bs) b' = drop (length bs) b.
Proof.
  intros Hl. rewrite write_at_0 by done. eexists. split; [done|]. split; [|split].
  - rewrite length_app, length_fmap, length_drop. lia.
  - by rewrite take_app_length' by by rewrite length_fmap.
  - by rewrite drop_app_length' by by rewrite length_fmap.
Qed.

(** The buffer of a large enough object gets the contents [bs]. *)
Lemma load_blob_run bs w o : buffer_ok o -> takes (Z.of_nat (length bs)) o -> bs <> [] ->
  exists o', load_blob bs (w, o) = (inl tt, (w, o')) /\ contents o' bs /\ buffer_ok o' /\
    same_object o o' /\ version_of l o' = version_of l o.
Proof.
  intros Ho Ht Hbs. destruct (resize_run _ w o Ho Ht) as (b & Hr & H1 & H2 & _).
  unfold load_blob, get_object, mbind, RT_bind. rewrite Hr. simpl.
  rewrite sql_assert_true by (apply Z.leb_le; destruct bs; simpl; [done|lia]).
  unfold mret, RT_ret.
  assert (exists b1, (if sql_debug then defined (bzero_at 0 (buf_size (Z.of_nat (length bs))) b)
      else mret b : RT object_state buffer)
      (w, set_size (Z.of_nat (length bs)) (set_buf (Some b) o)) =
      (inl b1, (w, set_size (Z.of_nat (length bs)) (set_buf (Some b) o))) /\ length b1 = length b)
    as (b1 & Hb1 & Hl1).
  { destruct sql_debug; [|by exists b]. unfold buf_size.
    destruct (bzero_at_run 0 (Z.max 2048 (Z.of_nat (length bs))) b) as (b1 & -> & Hl1 & _); [lia..|].
    by exists b1. }
  unfold mret, RT_ret in Hb1. rewrite Hb1.
  destruct (write_contents bs b1) as (b2 & -> & Hl2 & Htk & _); [lia|]. simpl.
  eexists. split; [reflexivity|]. split; [by split; [|exists b2]|]. split; [|by destruct l].
  split; simpl; [lia|]. intros ? [= <-]. lia.
Qed.

Lemma load_data_run w o db t vs bs : in_db l t db w -> fault (requests w) = None ->
  table o = BlobStore -> view l (table o) (key o) db = Some (vs, DBlob bs) -> version_ok l vs ->
  bs <> [] -> buffer_ok o -> takes (Z.of_nat (length bs)) o ->
  exists w' o', load_data l (w, o) = (inl (buf1 o'), (w', o')) /\ in_db l t db w' /\ one_request w w' /\
    version_of l o' = vs /\ contents o' bs /\ buffer_ok o' /\ same_object o o'.
Proof.
  intros Hw Hf Htb Hv Hvs Hbs Ho Htk.
  destruct (select_data_run l (table o) (key o) w db vs _ t Hw Hf Hv) as (w' & Hs & Hw' & Hr & Hc & Hd).
  destruct (update_version_run vs [DBlob bs] [] w' o Hvs) as (o1 & Hu & Hv1 & (Hsame & Hsz & Hbf)).
  unfold load_data, get_object, on_world, mbind, RT_bind. simpl. rewrite Hs. simpl. rewrite Hu.
  unfold field. simpl. rewrite list_lookup_middle by done. simpl.
  rewrite Htb. simpl.
  assert (buffer_ok o1) as Ho1 by by unfold buffer_ok; rewrite Hsz, Hbf.
  assert (takes (Z.of_nat (length bs)) o1) as Htk1 by by unfold takes; rewrite Hsz, Hbf.
  destruct (load_blob_run bs w' o1 Ho1 Htk1 Hbs) as (o2 & Hl & Hct & Ho2 & Hso & Hvo).
  unfold mret, RT_ret, mbind. rewrite Hl. simpl.
  destruct Hct as (Hct1 & b & Hb & Hct2). rewrite Hb. rewrite sql_assert_true by done.
  exists w', o2. rewrite Hb. split; [done|]. split; [done|]. split; [done|].
  split; [by rewrite Hvo|]. split; [by split; [|exists b]|]. split; [done|].
  by trans o1.
Qed.

Lemma has_transaction_run w o t db : in_db l t db w -> has_transaction (w, o) = (inl true, (w, o)).
Proof. intros [_ Ht]. unfold has_transaction. simpl. by rewrite Ht. Qed.

(** An object that has the version of the row shows what it has. *)
Lemma load_skips w o db t vs d : (forall n, fault n = None) -> in_db l t db w ->
  view l (table o) (key o) db = Some (vs, d) -> version_ok l vs -> version_of l o = vs ->
  max_ver_check_size <= size o ->
  exists w' o', load l (w, o) = (inl (buf1 o), (w', o')) /\ same_but_version o o' /\ in_db l t db w'.
Proof.
  intros Hq Hw Hv Hvs Heq Hsz.
  unfold load, mbind, RT_bind. rewrite (has_transaction_run w o t db Hw), sql_assert_true by done.
  unfold get_object at 1. simpl. unfold mret, RT_ret. rewrite (proj2 (Z.leb_le _ _)) by done.
  destruct (check_version_run w o db t vs _ Hw (Hq _) Hv Hvs) as (w1 & o1 & -> & Hw1 & _ & _ & Hs1).
  rewrite bool_decide_true by done. exists w1, o1. unfold get_object. simpl.
  destruct Hs1 as (Hso & Hs1 & Hb1). rewrite Hb1. split; [done|]. split; [|done]. by split.
Qed.

Lemma load_is_current_run w o db t vs bs : (forall n, fault n = None) -> in_db l t db w ->
  table o = BlobStore -> view l BlobStore (key o) db = Some (vs, DBlob bs) -> version_ok l vs ->
  bs <> [] -> buffer_ok o -> takes (Z.of_nat (length bs)) o -> coherent l o vs bs ->
  exists w' o', load l (w, o) = (inl (buf1 o'), (w', o')) /\
    contents o' bs /\ version_of l o' = vs /\ coherent l o' vs bs /\ buffer_ok o' /\
    same_object o o' /\ in_db l t db w' /\ committed w' = committed w.
Proof.
  intros Hq Hw Htb Hv Hvs Hbs Ho Htk Hco. rewrite <- Htb in Hv.
  unfold load, mbind, RT_bind. rewrite (has_transaction_run w o t db Hw), sql_assert_true by done.
  unfold get_object at 1. simpl. unfold mret, RT_ret.
  destruct (Z.leb_spec max_ver_check_size (size o)) as [Hsz|Hsz].
  - destruct (check_version_run w o db t vs _ Hw (Hq _) Hv Hvs)
      as (w1 & o1 & -> & Hw1 & [Hr1 Hc1] & Hv1 & (Hso & Hs1 & Hb1)).
    destruct (bool_decide_reflect (version_of l o = vs)) as [Heq|_].
    + exists w1, o1. unfold get_object. simpl.
      specialize (Hco Heq Hsz) as (Hc2 & b & Hb & Htake).
      assert (contents o1 bs) as Hct by (split; [by rewrite Hs1|exists b; by rewrite Hb1]).
      split; [done|]. split; [done|]. split; [done|]. split; [by intros _ _|].
      split; [by unfold buffer_ok; rewrite Hs1, Hb1|done].
    + assert (table o1 = BlobStore) as Htb1 by by destruct Hso as (-> & _).
      destruct (load_data_run w1 o1 db t vs bs Hw1 (Hq _) Htb1) as (w2 & o2 & -> & Hw2 & [_ Hc2] & Hv2 & Hct & Ho2 & Hso2); try done.
      { destruct Hso as (-> & -> & _). done. }
      { by unfold buffer_ok; rewrite Hs1, Hb1. }
      { by unfold takes; rewrite Hs1, Hb1. }
      exists w2, o2. split; [done|]. split; [done|]. split; [done|]. split; [by intros _ _|].
      split; [done|]. split; [by trans o1|]. split; [done|congruence].
  - destruct (load_data_run w o db t vs bs Hw (Hq _) Htb) as (w2 & o2 & -> & Hw2 & [_ Hc2] & Hv2 & Hct & Ho2 & Hso2); try done.
    exists w2, o2. split; [done|]. split; [done|]. split; [done|]. by split; [intros _ _|].
Qed.

(** C16: When no request fails, an object whose version is that of its contents shows
    with [load] the bytes that fetching the row anew gives it: an object that skips the
    data because its version is that of the row misses nothing.  It stays so, and both
    leave the object with the version and the contents of the row, within its buffer. *)
Theorem load_agrees_with_fetch w o db t vs bs : (forall n, fault n = None) -> in_db l t db w ->
  table o = BlobStore -> view l BlobStore (key o) db = Some (vs, DBlob bs) -> version_ok l vs ->
  bs <> [] -> buffer_ok o -> takes (Z.of_nat (length bs)) o -> coherent l o vs bs ->
  exists w1 o1 w2 o2,
    load l (w, o) = (inl (buf1 o1), (w1, o1)) /\ load_data l (w, o) = (inl (buf1 o2), (w2, o2)) /\
    Forall (fun o' => contents o' bs /\ version_of l o' = vs /\ coherent l o' vs bs /\ buffer_ok o' /\
      same_object o o') [o1; o2] /\
    Forall (fun w' => in_db l t db w' /\ committed w' = committed w) [w1; w2].
Proof.
  intros Hq Hw Htb Hv Hvs Hbs Ho Htk Hco.
  destruct (load_is_current_run w o db t vs bs Hq Hw Htb Hv Hvs Hbs Ho Htk Hco)
    as (w1 & o1 & Hl & Hct & Hv1 & Hco1 & Ho1 & Hso1 & Hw1 & Hc1).
  destruct (load_data_run w o db t vs bs Hw (Hq _) Htb) as
    (w2 & o2 & Hl2 & Hw2 & [_ Hc2] & Hv2 & Hct2 & Ho2 & Hso2); [by rewrite Htb|done..|].
  exists w1, o1, w2, o2. split; [done|]. split; [done|].
  assert (coherent l o2 vs bs) by by intros _ _.
  split; (constructor; [|constructor; [|constructor]]); done.
Qed.

(** ** Writing *)

Lemma nullspace_run n c w o : 0 <= n -> 2048 <= Z.of_nat (length c) ->
  (sql_debug = true -> zero_between (Z.to_nat n) 2048 c) ->
  nullspace_is_zero n c (w, o) = (inl tt, (w, o)).
Proof.
  intros Hn Hl Hz. unfold nullspace_is_zero. destruct sql_debug; [|done]. specialize (Hz eq_refl).
  simpl. destruct (Z.ltb_spec n 512) as [Hlt|]; [|done].
  set (words := Z.quot (1024 - n) 8 - 1).
  assert (0 <= 8 * words <= 1024 - n) as Hw.
  { subst words. rewrite Z.quot_div_nonneg by lia.
    pose proof (Z.mul_div_le (1024 - n) 8 ltac:(lia)).
    pose proof (Z.div_le_mono 512 (1024 - n) 8 ltac:(lia) ltac:(lia)) as Hm.
    change (512 / 8) with 64 in Hm. lia. }
  assert (take (Z.to_nat (8 * words)) (drop (Z.to_nat n) c) =
    Some <$> replicate (Z.to_nat (8 * words)) x00) as Htk.
  { apply list_eq. intros i. destruct (decide (i < Z.to_nat (8 * words))%nat) as [Hi|Hi].
    - rewrite lookup_take_lt, lookup_drop by done. rewrite Hz by lia.
      by rewrite list_lookup_fmap, lookup_replicate_2.
    - rewrite !lookup_ge_None_2; [done| |]; rewrite ?length_take, ?length_fmap, ?length_replicate; lia. }
  pose proof (read_first_take (Z.to_nat (8 * words)) (drop (Z.to_nat n) c) (replicate _ x00)
    (length_replicate _ _) Htk) as Hr.
  rewrite Z2Nat.id in Hr by lia. unfold mbind, RT_bind. rewrite Hr. simpl.
  replace (forallb _ _) with true; [done|]. symmetry. apply forallb_forall. intros y Hy.
  apply list_elem_of_In, elem_of_replicate in Hy as [-> _]. done.
Qed.

Lemma sql_put_run {T} (c : Wire.codec T) x w w' o vs : buffer_ok o -> table o = BlobStore ->
  is_Some (trans w) -> takes (Z.of_nat (length (Wire.to_bytes c x))) o ->
  update_data l BlobStore repl_group (key o) (clock w) (DBlob (Wire.to_bytes c x)) w = (inl [vs], w') ->
  version_ok l vs ->
  exists o', put l c x (w, o) = (inl tt, (w', o')) /\ contents o' (Wire.to_bytes c x) /\
    version_of l o' = vs /\ buffer_ok o' /\ same_object o o'.
Proof.
  intros Ho Htb Htr Htk Hu Hvs. set (bs := Wire.to_bytes c x) in *.
  destruct (resize_run _ w o Ho Htk) as (b & Hr & H1 & H2 & Hz). rewrite Nat2Z.id in Hz.
  destruct (write_contents bs b) as (b' & Hw & Hl & Htake & Hdrop); [lia|].
  unfold put, mbind, RT_bind. fold bs. rewrite Hr. unfold obj_buffer, get_object, mbind, RT_bind. simpl.
  rewrite sql_assert_true by done. simpl. rewrite Hw. unfold modify_object, defined, mret, RT_ret. simpl.
  set (o1 := set_buf (Some b') _).
  assert (save l (w, o1) = match update_version l [vs] (w', o1) with
    | (inl _, s) => (inl tt, s) | (inr e, s) => (inr e, s) end) as ->.
  { unfold save, has_transaction, get_object, mbind, RT_bind. simpl. rewrite bool_decide_true by done.
    rewrite !sql_assert_true by done. simpl. rewrite Htb. simpl.
    rewrite (nullspace_run (Z.of_nat (length bs)) b' w o1); [|lia|lia|].
    2: { intros Hd k Hk. specialize (Hz Hd k). rewrite Nat2Z.id in Hk.
         replace (b' !! k) with (b !! k); [by apply Hz|].
         replace k with (length bs + (k - length bs))%nat by lia.
         by rewrite <- !lookup_drop, Hdrop. }
    unfold fmap, RT_fmap. rewrite (read_first_take _ _ bs) by done. simpl.
    unfold on_world, get_state. simpl. rewrite Hu. simpl. by destruct (update_version _ _ _) as [[|] ?]. }
  pose proof (update_version_run vs [] [] w' o1 Hvs) as (o2 & Hu2 & Hv2 & (Hso & Hs & Hb)).
  rewrite app_nil_r in Hu2. rewrite Hu2. exists o2. split; [done|].
  assert (contents o2 bs) as Hct by (split; [by rewrite Hs|exists b'; by rewrite Hb]).
  split; [done|]. split; [done|]. split; [|by trans o1].
  split; rewrite Hs; simpl; [lia|]. rewrite Hb. intros ? [= <-]. lia.
Qed.

(** C23: A buffer never grows: to put an object that has no room fails before anything is
    sent.  A release build writes past the end of the buffer; a debug build stops at the
    assertion of [resize_buffer], unless that lets the size pass: it counts on 2048 bytes,
    and a build that clears them writes past the four bytes of an existing [int]. *)
Theorem put_without_room {T} (c : Wire.codec T) x w o b :
  let n := Z.of_nat (length (Wire.to_bytes c x)) in
  buf1 o = Some b -> Z.of_nat (length b) < (if sql_debug then buf_size n else n) ->
  exists o', put l c x (w, o) =
    (inr (if sql_debug && negb ((n <=? size o) || (n <=? 2048)) then AssertFailed else OutOfRange), (w, o')).
Proof.
  intros n Hb Hl. unfold put, mbind, RT_bind. fold n.
  assert (Z.of_nat (length b) < n -> write_at 0 (Wire.to_bytes c x) b = None) as Hwr.
  { intros Hlt. unfold write_at. rewrite (proj2 (Nat.leb_gt _ _)); [done|]. unfold n in *. simpl. lia. }
  assert (forall s : object_state, buf1 s.2 = Some b -> s.1 = w -> Z.of_nat (length b) < n ->
    exists o', match obj_buffer s with
      | (inl a, s') => match defined (write_at 0 (Wire.to_bytes c x) a) s' with
          | (inl a, s') => (_ ← modify_object (set_buf (Some a)); save l) s'
          | (inr e, s') => (inr e, s') end
      | (inr e, s') => (inr e, s') end = (inr OutOfRange, (w, o'))) as Hend.
  { intros [w' o'] Hb' Hw' Hlt. simpl in *. subst w'. exists o'.
    unfold obj_buffer, get_object, mbind, RT_bind. simpl. rewrite Hb', sql_assert_true by done. simpl.
    by rewrite Hwr. }
  unfold resize_buffer, resize_pointer, get_object, mbind, RT_bind. simpl. rewrite Hb.
  unfold sql_assert. destruct sql_debug; simpl.
  - destruct ((n <=? size o) || (n <=? 2048)); simpl; [|by eexists].
    assert (bzero_at n (buf_size n - n) b = None) as Hz.
    { unfold bzero_at. by rewrite (proj2 (Z.leb_gt _ _)) by lia. }
    destruct (Z.ltb_spec n (buf_size n)) as [_|Hge]; [rewrite Hz; by eexists|].
    apply Hend; [done..|lia].
  - by apply Hend.
Qed.
End loading.
