(* ===== verification/SqlReads.v ===== *)
(** * Reading what was written

    A strong store reads what was put.  A causal store does when the data are new to
    the row of the group that writes; when they are not, the row that is read keeps
    the data of another group.  An object keeps what an aborted transaction has put
    through it, and the clock of a causal store can go back when it reads. *)
From stdpp Require Import vector fin.
From Stdlib Require Import Strings.Byte.
From S2P Require Import Prelude Runtime Clocks SqlDb SqlStore GSqlObject SqlStoreCorrect SqlCausal GSqlCorrect.
From S2P Require Wire.

#[local] Open Scope Z_scope.

(** ** Strong rows *)

Lemma mapM_total {A B} (f : A -> option B) (g : A -> B) (l : list A) :
  (forall x, x ∈ l -> f x = Some (g x)) -> mapM f l = Some (g <$> l).
Proof.
  intros Hf. apply mapM_Some. induction l as [|x l IH]; constructor.
  - apply Hf. left.
  - apply IH. intros y Hy. apply Hf. by right.
Qed.

Lemma filter_fmap_keep {A} (P : A -> Prop) `{!forall x, Decision (P x)} (g : A -> A) (l : list A) :
  (forall x, P (g x) <-> P x) -> filter P (g <$> l) = g <$> filter P l.
Proof.
  intros Hg. induction l as [|x l IH]; [done|]. rewrite fmap_cons, !filter_cons.
  destruct (decide (P x)) as [Hx|Hx].
  - rewrite decide_True by by apply Hg. by rewrite IH.
  - rewrite decide_False; [done|]. by rewrite Hg.
Qed.

Section reads.
Context `{Server} `{SqlBuild}.

Lemma update_strong_run d0 d id rows r : filter (fun r => s_id r = id) rows = [r] ->
  exists rows', update_strong (fun _ => Some d0) d id rows = Some ([[DInt (s_version r + d)]], rows') /\
    filter (fun r => s_id r = id) rows' = [StrongRow (s_index r) id (s_version r + d) d0] /\
    forall id', id' <> id -> filter (fun r => s_id r = id') rows' = filter (fun r => s_id r = id') rows.
Proof.
  intros Hr.
  set (g := fun r => if decide (s_id r = id)
    then StrongRow (s_index r) (s_id r) (s_version r + d) d0 else r).
  assert (forall r, s_id (g r) = s_id r) as Hg by (intros r'; unfold g; by destruct (decide _)).
  assert (s_id r = id) as Hid.
  { assert (r ∈ filter (fun r => s_id r = id) rows) as Hin by (rewrite Hr; left).
    by apply list_elem_of_filter in Hin as [? _]. }
  assert (g r = StrongRow (s_index r) id (s_version r + d) d0) as Hgr
    by (unfold g; by rewrite decide_True, Hid by done).
  exists (g <$> rows). unfold update_strong.
  rewrite (mapM_total _ g) by (intros r' _; unfold g; simpl; by destruct (decide _)).
  cbn [mbind option_bind]. rewrite filter_fmap_keep by (intros; by rewrite Hg).
  rewrite Hr. cbn [fmap list_fmap]. rewrite Hgr. split; [done|]. split; [done|].
  intros id' Hne. rewrite filter_fmap_keep by (intros; by rewrite Hg).
  rewrite <- (list_fmap_id (filter _ rows)) at 2. apply list_fmap_ext. intros i y Hy.
  apply list_elem_of_lookup_2, list_elem_of_filter in Hy as [Hy _]. unfold g.
  by rewrite decide_False by congruence.
Qed.

Lemma update_data_strong w db t tb k id ends v d b : in_db Strong t db w -> fault (requests w) = None ->
  view Strong tb id db = Some ([DInt v], d) ->
  exists w' db', update_data Strong tb k id ends b w = (inl [[DInt (v + 1)]], w') /\
    in_db Strong t db' w' /\ committed w' = committed w /\ clock w' = clock w /\
    view Strong tb id db' = Some ([DInt (v + 1)], b) /\
    (forall tb' id', (tb', id') <> (tb, id) -> view Strong tb' id' db' = view Strong tb' id' db) /\
    forall tb' id', view Causal tb' id' db' = view Causal tb' id' db.
Proof.
  intros Hw Hf Hv. unfold view in Hv.
  destruct (filter _ (strong_rows tb db)) as [|r [|]] eqn:Hr; [done| |done].
  destruct (Z.eqb_spec (s_index r) 0) as [Hi|]; [|done]. injection Hv as <- <-.
  destruct (update_strong_run b 1 id _ r Hr) as (rows' & Hu & Hr' & Hne).
  assert (exec_query (Some Strong) (UpdateDataS tb) id [b] t db =
    Some ([[DInt (s_version r + 1)]], set_strong tb rows' db)) as Hq.
  { simpl. cbn [param lookup list_lookup]. unfold param. simpl. by rewrite Hu. }
  assert (exists w', update_data Strong tb k id ends b w = (inl [[DInt (s_version r + 1)]], w') /\
    in_db Strong t (set_strong tb rows' db) w' /\ requests w' = S (requests w) /\
    clock w' = clock w /\ committed w' = committed w) as (w' & Hrun & Hw' & _ & Hc & Hd).
  { destruct tb; (eapply sent; [done| |done..]); in_commands. }
  exists w', (set_strong tb rows' db). split; [done|]. split; [done|]. split; [done|]. split; [done|].
  assert (forall tb', strong_rows tb' (set_strong tb rows' db) =
    if decide (tb' = tb) then rows' else strong_rows tb' db) as Hrows by by intros []; destruct tb.
  split; [|split].
  - unfold view. rewrite Hrows, decide_True, Hr' by done. simpl. by rewrite Hi.
  - intros tb' id' Hneq. unfold view. rewrite Hrows. destruct (decide (tb' = tb)) as [->|]; [|done].
    by rewrite Hne by congruence.
  - intros [] id'; by destruct tb.
Qed.

Lemma initialised_contents b bs : take (length bs) b = Some <$> bs ->
  exists rest, initialised b = bs ++ rest.
Proof.
  revert b. induction bs as [|x bs IH]; intros b Hb; [by exists (initialised b)|].
  destruct b as [|y b]; [done|]. simpl in Hb. injection Hb as -> Hb.
  destruct (IH b Hb) as [rest Hr]. exists rest. simpl. by rewrite Hr.
Qed.

(** [get] gives the object whose bytes the row holds. *)
Lemma get_run {T} (P : T -> Prop) (c : Wire.codec T) x l w o db t vs :
  (forall n, fault n = None) -> Wire.codec_ok P c -> P x -> Wire.to_bytes c x <> [] ->
  in_db l t db w -> table o = BlobStore ->
  view l BlobStore (key o) db = Some (vs, DBlob (Wire.to_bytes c x)) -> version_ok l vs ->
  buffer_ok o -> takes (Z.of_nat (length (Wire.to_bytes c x))) o ->
  coherent l o vs (Wire.to_bytes c x) ->
  exists w' o', get l c (w, o) = (inl x, (w', o')) /\ in_db l t db w' /\ committed w' = committed w.
Proof.
  intros Hq Hc Hx Hne Hw Htb Hv Hvs Ho Htk Hco.
  destruct (load_is_current_run l w o db t vs _ Hq Hw Htb Hv Hvs Hne Ho Htk Hco)
    as (w' & o' & Hl & (_ & b & Hb & Htake) & _ & _ & _ & _ & Hw' & Hcm).
  exists w', o'. split; [|done]. destruct (initialised_contents b _ Htake) as [rest Hr].
  unfold get, mbind, RT_bind. rewrite (has_transaction_run l w o t db Hw), sql_assert_true by done.
  rewrite Hl, Hb, sql_assert_true by done. simpl. rewrite Hr, (Hc x rest Hx). done.
Qed.

(** A [put] in a strong store, and what the objects of its key get after it *)
Lemma put_get_run {T} (P : T -> Prop) (c : Wire.codec T) x w o db t v d :
  (forall n, fault n = None) -> Wire.codec_ok P c -> P x -> Wire.to_bytes c x <> [] ->
  in_db Strong t db w -> table o = BlobStore -> buffer_ok o ->
  takes (Z.of_nat (length (Wire.to_bytes c x))) o ->
  view Strong BlobStore (key o) db = Some ([DInt v], d) -> in_int (v + 1) = true -> v + 1 <> -1 ->
  exists w1 o1 db', put Strong c x (w, o) = (inl tt, (w1, o1)) /\
    (exists s, get Strong c (w1, o1) = (inl x, s)) /\
    (forall o2, table o2 = BlobStore -> key o2 = key o -> buffer_ok o2 ->
      takes (Z.of_nat (length (Wire.to_bytes c x))) o2 ->
      coherent Strong o2 [DInt (v + 1)] (Wire.to_bytes c x) ->
      exists s, get Strong c (w1, o2) = (inl x, s)) /\
    (exists w2, sql_commit w1 = (inl true, w2) /\ committed w2 = db') /\
    view Strong BlobStore (key o) db' = Some ([DInt (v + 1)], DBlob (Wire.to_bytes c x)) /\
    forall tb id, (tb, id) <> (BlobStore, key o) -> view Strong tb id db' = view Strong tb id db.
Proof.
  intros Hq Hc Hx Hne Hw Htb Ho Htk Hv Hi Hn. set (bs := Wire.to_bytes c x) in *.
  destruct (update_data_strong w db t BlobStore repl_group (key o) (clock w) v d (DBlob bs) Hw (Hq _) Hv)
    as (w1 & db' & Hu & Hw1 & Hcm & Hcl & Hv' & Hother & _).
  assert (version_ok Strong [DInt (v + 1)]) as Hvs by by exists (v + 1).
  destruct (sql_put_run Strong c x w w1 o [DInt (v + 1)] Ho Htb) as (o1 & Hp & Hct & Hvo & Ho1 & Hso);
    [by destruct Hw as [_ ->]|done..|].
  pose proof Hso as (Htb1 & Hk1 & _).
  exists w1, o1, db'. split; [done|]. split; [|split; [|split; [|done]]].
  - destruct (get_run P c x Strong w1 o1 db' t [DInt (v + 1)]) as (w2 & o2 & Hg & _); try done.
    + congruence.
    + by rewrite Hk1.
    + destruct Htk as [Hr _]. split; [done|]. intros b _. left. destruct Hct as [-> _]. done.
    + intros _ _. done.
    + by eauto.
  - intros o2 Htb2 Hk2 Ho2 Htk2 Hco2.
    destruct (get_run P c x Strong w1 o2 db' t [DInt (v + 1)]) as (w2 & o3 & Hg & _); try done;
      [by rewrite Hk2|by eauto].
  - destruct Hw1 as [_ Ht1]. unfold sql_commit. simpl. rewrite Ht1, Hq. by eexists.
Qed.

(** In a strong store whose requests succeed, what is put into an object is what any
    object of that key gets afterwards in the transaction, whatever version and
    contents it had, and what the database has once the transaction is committed.
    The rows of the other keys are left alone. *)
Theorem put_then_get {T} (P : T -> Prop) (c : Wire.codec T) x w o db t v d :
  (forall n, fault n = None) -> Wire.codec_ok P c -> P x -> Wire.to_bytes c x <> [] ->
  in_db Strong t db w -> table o = BlobStore -> buffer_ok o ->
  takes (Z.of_nat (length (Wire.to_bytes c x))) o ->
  view Strong BlobStore (key o) db = Some ([DInt v], d) -> in_int (v + 1) = true -> v + 1 <> -1 ->
  exists w1 o1 db', put Strong c x (w, o) = (inl tt, (w1, o1)) /\
    (exists s, get Strong c (w1, o1) = (inl x, s)) /\
    (forall o2, table o2 = BlobStore -> key o2 = key o -> buffer_ok o2 ->
      takes (Z.of_nat (length (Wire.to_bytes c x))) o2 ->
      coherent Strong o2 [DInt (v + 1)] (Wire.to_bytes c x) ->
      exists s, get Strong c (w1, o2) = (inl x, s)) /\
    (exists w2, sql_commit w1 = (inl true, w2) /\ committed w2 = db') /\
    view Strong BlobStore (key o) db' = Some ([DInt (v + 1)], DBlob (Wire.to_bytes c x)) /\
    forall tb id, (tb, id) <> (BlobStore, key o) -> view Strong tb id db' = view Strong tb id db.
Proof. apply put_get_run. Qed.

(** ** A transaction that is given up *)

Lemma begin_run l w : (forall n, fault n = None) -> store_inv l w -> trans w = None -> current_trans w = false ->
  exists w', sql_begin w = (inl tt, w') /\ in_db l (now (requests w)) (others (requests w) (committed w)) w'.
Proof.
  intros Hq Hinv Ht Hc. pose proof (sql_begin_inv l w Hinv) as Hinv'. destruct Hinv as [_ [Hp _]].
  assert (sql_begin w = new_transaction w) as Hb.
  { unfold sql_begin, get_state, mbind, RT_bind. rewrite sql_assert_true by (by rewrite Ht).
    by rewrite sql_assert_true by (by rewrite Hc). }
  rewrite Hb in *. unfold new_transaction in *. rewrite Ht, Hq in *. eexists. split; [done|].
  split; [done|]. simpl. by rewrite Hp.
Qed.

(** C21: An object keeps the version and the contents of a [put] whose transaction was
    aborted.  This is about objects of a strong store that are large enough for [load] to
    check their version ([max_ver_check_size]), and requests that succeed.  The database
    has nothing of the transaction; but when the next one begins on a row that others have
    brought to the version the [put] would have made, the object takes its contents for
    those of the row: [get] returns what was never committed, whatever the row holds. *)
Theorem aborted_put_is_got {T} (P : T -> Prop) (c : Wire.codec T) x w o db t v d :
  (forall n, fault n = None) -> Wire.codec_ok P c -> P x ->
  max_ver_check_size <= Z.of_nat (length (Wire.to_bytes c x)) ->
  in_db Strong t db w -> table o = BlobStore -> buffer_ok o ->
  takes (Z.of_nat (length (Wire.to_bytes c x))) o ->
  view Strong BlobStore (key o) db = Some ([DInt v], d) -> in_int (v + 1) = true -> v + 1 <> -1 ->
  exists w1 o1, put Strong c x (w, o) = (inl tt, (w1, o1)) /\
    let w2 := (sql_destroy (sql_abort w1).2).2 in
    trans w2 = None /\ committed w2 = committed w /\
    exists w3, sql_begin w2 = (inl tt, w3) /\
      forall d', view Strong BlobStore (key o) (others (requests w2) (committed w)) = Some ([DInt (v + 1)], d') ->
        exists s, get Strong c (w3, o1) = (inl x, s).
Proof.
  intros Hq Hc Hx Hlen Hw Htb Ho Htk Hv Hi Hn. set (bs := Wire.to_bytes c x) in *.
  destruct (update_data_strong w db t BlobStore repl_group (key o) (clock w) v d (DBlob bs) Hw (Hq _) Hv)
    as (w1 & db' & Hu & Hw1 & Hcm & _).
  assert (version_ok Strong [DInt (v + 1)]) as Hvs by by exists (v + 1).
  destruct (sql_put_run Strong c x w w1 o [DInt (v + 1)] Ho Htb) as (o1 & Hp & Hct & Hvo & _ & Hso);
    [by destruct Hw as [_ ->]|done..|].
  exists w1, o1. split; [done|].
  assert (sql_destroy (sql_abort w1).2 = (inl tt, set_trans None (set_current_trans false (set_commit_on_delete false w1))))
    as -> by done.
  simpl. split; [done|]. split; [done|].
  destruct (begin_run Strong (set_trans None (set_current_trans false (set_commit_on_delete false w1))) Hq)
    as (w3 & Hb & Hw3); [|done..|].
  { destruct Hw1 as [[Hconn [Hpath _]] _]. split; [exact Hconn|]. by split; [exact Hpath|]. }
  exists w3. split; [done|]. intros d' Hv'. simpl in Hw3. rewrite Hcm in Hw3.
  destruct Hso as (Htb1 & Hk1 & _). rewrite <- Hk1 in Hv'.
  destruct (load_skips Strong w3 o1 _ _ [DInt (v + 1)] d' Hq Hw3) as (w4 & o4 & Hl & _); try done.
  { by rewrite Htb1, Htb. }
  { by destruct Hct as [-> _]. }
  destruct Hct as (_ & b & Hb1 & Htake). destruct (initialised_contents b _ Htake) as [rest Hr].
  exists (w4, o4). unfold get, mbind, RT_bind.
  rewrite (has_transaction_run Strong w3 o1 _ _ Hw3), sql_assert_true by done.
  rewrite Hl, Hb1, sql_assert_true by done. simpl. by rewrite Hr, (Hc x rest Hx).
Qed.

(** ** The clock of a causal store *)

Lemma array_lt_le (a b : Clock) : clock_le a b -> array_lt a b = true \/ a = b.
Proof.
  unfold array_lt. rewrite clock_le_list. intros Hle.
  assert (lex_lt a b = true \/ (a : list Z) = b) as [?|Heq]; [|by left|right; by apply vec_to_list_inj2].
  induction Hle as [|x y xs ys Hxy _ IH]; [by right|]. simpl.
  destruct (Z.ltb_spec x y); [by left|]. destruct (Z.ltb_spec y x); [lia|].
  destruct IH as [?| ->]; [by left|right]. f_equal. lia.
Qed.

Lemma array_lt_asym (a b : Clock) : array_lt a b = true -> array_lt b a = false.
Proof.
  unfold array_lt. generalize (vec_to_list a), (vec_to_list b). intros xs.
  induction xs as [|x xs IH]; intros [|y ys]; simpl; try done.
  destruct (Z.ltb_spec x y), (Z.ltb_spec y x); try done; [lia|apply IH].
Qed.

(** [std::max] is an upper bound of two clocks when one is below the other, and only then. *)
Lemma array_max_bound (a b : Clock) :
  clock_le a (array_max a b) /\ clock_le b (array_max a b) <-> clock_le a b \/ clock_le b a.
Proof.
  unfold array_max. destruct (array_lt a b) eqn:Hlt.
  - split; [by intros [? _]; left|]. intros [?|Hba]; [done|]. split; [|done].
    destruct (array_lt_le b a Hba) as [Hba'| ->]; [|done].
    by rewrite (array_lt_asym a b Hlt) in Hba'.
  - split; [by intros [_ ?]; right|]. intros [Hab|?]; [|done]. split; [done|].
    destruct (array_lt_le a b Hab) as [Hab'| ->]; [congruence|done].
Qed.

Lemma sends_clock l c : sends_keep l (fun w => clock w = c).
Proof.
  intros n q id args _ w Hw. unfold prepared. destruct (trans w); [|done].
  destruct (prepared_names w !! _ : option bool) as [b|]; [|done].
  set (w' := if b then w else _). assert (clock w' = c) as Hw' by by destruct b.
  assert (clock (run_statement (name_int n) id args w').2 = c) as Hr.
  { unfold run_statement, on_work. simpl. destruct (trans w') as [[? ? ?| |]|]; [|done..].
    destruct (fault _); [done|]. by destruct (statements w' !! _ ≫= _) as [[??]|]. }
  by destruct (catch_snd (run_statement (name_int n) id args) w') as [-> | ->].
Qed.

(** C22: How the clock of a causal store follows what it reads.  When [load] checks the
    version of an object and finds that of its row, [vc], to be another one, the clock
    becomes the [std::max] of itself and [vc], which compares clocks as arrays: it is an
    upper bound of the two exactly when one of them is below the other, and it goes back
    in every component in which [vc] is behind, when [vc] is the greater array. *)
Theorem load_turns_clock_back w o db t vc d : fault (requests w) = None -> in_db Causal t db w ->
  max_ver_check_size <= size o -> view Causal (table o) (key o) db = Some (vc_datums vc, d) ->
  (forall i, in_long (vc !!! i) = true) -> causal_vers o <> vc ->
  let w' := (load Causal (w, o)).2.1 in
  clock w' = array_max (clock w) vc /\
  (clock_le (clock w) (clock w') /\ clock_le vc (clock w') <-> clock_le (clock w) vc \/ clock_le vc (clock w)) /\
  forall i, clock w' !!! i < clock w !!! i <-> array_lt (clock w) vc = true /\ vc !!! i < clock w !!! i.
Proof.
  intros Hf Hw Hsz Hv Hvc Hne. cbv zeta.
  assert (clock (load Causal (w, o)).2.1 = array_max (clock w) vc) as ->.
  2: { split; [done|]. split; [apply array_max_bound|]. intros i. unfold array_max.
       destruct (array_lt (clock w) vc); naive_solver lia. }
  unfold load, mbind, RT_bind. rewrite (has_transaction_run Causal w o t db Hw), sql_assert_true by done.
  unfold get_object at 1. simpl. unfold mret, RT_ret. rewrite (proj2 (Z.leb_le _ _)) by done.
  destruct (select_version_run Causal (table o) (key o) w db _ _ t Hw Hf Hv) as (w1 & Hs & Hw1 & _ & Hc1 & _).
  unfold check_version, get_object, on_world, mbind, RT_bind. cbn [fst snd]. rewrite Hs. cbn [fst snd].
  unfold on_causal_vers. cbn [fst snd].
  pose proof (causal_version_run vc [] [] (causal_vers o) Hvc) as Hp. rewrite app_nil_r in Hp. rewrite Hp. simpl.
  rewrite is_same_datums, bool_decide_false.
  2: { intros Heq. apply Hne. rewrite (vec4 vc), (vec4 (causal_vers o)) in *. by injection Heq as -> -> -> ->. }
  simpl. rewrite Hc1.
  apply (load_data_keeps Causal _ (sends_clock Causal (array_max (clock w) vc))). done.
Qed.

(** ** Causal rows *)

(** The two commands that update a causal row: the names of their statements, what they
    set the data to, and their arguments after the clock *)
Definition causal_updates (b : datum) : list (list TransactionNames * data_expr * list datum) :=
  [(udc_names, Param 5, [b]); (ic_names, PlusOne, [])].

Lemma send_update_run xx set args b0 w db t tb k id ends b p old :
  (xx, set, args) ∈ causal_updates b0 -> in_db Causal t db w ->
  fault (requests w) = None -> 1 <= k <= 4 -> group_mapper k = Some (c_index old) ->
  NoDup (causal_key <$> causal_rows tb db) -> causal_rows tb db !! p = Some old -> c_id old = id ->
  (forall ps, param ps 5 = head args -> eval_data set ps (c_data old) = Some b) ->
  let '(vc, rows) := row_updated k t ends b p old (causal_rows tb db) in
  exists w', send_update xx set tb k id ends args w = (inl [vc_datums vc], w') /\
    in_db Causal t (set_causal tb rows db) w' /\ requests w' = S (requests w) /\
    clock w' = clock w /\ committed w' = committed w.
Proof.
  intros Hxx Hw Hf Hk Hg Hnd Hp <- Hb.
  destruct (row_updated k t ends b p old (causal_rows tb db)) as [vc rows] eqn:Hrow.
  assert (length xx = 8%nat /\ (xx, set) ∈ [(udc_names, Param 5); (ic_names, PlusOne)]) as [Hlen Hin'].
  { unfold causal_updates in Hxx. apply elem_of_cons in Hxx as [[= -> -> _]|Hxx].
    - split; [done|left].
    - apply list_elem_of_singleton in Hxx as [= -> -> _]. split; [done|right; left]. }
  destruct (update_at_group_some xx set tb k Hlen Hk)
    as (name & g & Hu & Hg' & Hg12 & Hin). rewrite Hg in Hg'. injection Hg' as <-.
  assert (is_Some (other_ends k ends)) as [es He].
  { rewrite (vec4 ends). unfold other_ends. four_groups k; by eexists. }
  unfold send_update. rewrite Hu, He. eapply sent; [done| |done|].
  - by eapply updates_sent; [|exact Hin].
  - simpl. rewrite (run_update_row tb set k t ends es args b (c_index old) _ p old);
      [by rewrite Hrow|done|lia|done..|].
    apply Hb. exact (proj2 (other_ends_set k ends es args (c_id old) (c_vc old) Hk He)).
Qed.

Lemma causal_rows_set tb rows db : causal_rows tb (set_causal tb rows db) = rows.
Proof. by destruct tb. Qed.

(** What a client reads after it has written [b] as a group whose row was [old], when
    the row that is read was [r0] *)
Definition reads_after_write (m : RT sql_world sql_result) (tb : Table) (id : Z) (b : datum) (t : Z)
    (old r0 : causal_row) (rows : list causal_row) (w : sql_world) : Prop :=
  exists w1 w2 vc vc0 d,
    m w = (inl [vc_datums vc], w1) /\
    select_version_data Causal tb id w1 = (inl [vc_datums vc0 ++ [d]], w2) /\
    (forall j : fin 4, Z.of_nat (fin_to_nat j) + 1 <> repl_group -> vc !!! j = clock w !!! j) /\
    if decide (c_data old = b)
    then vc0 = c_vc r0 /\ d = c_data r0 /\
         (forall j : fin 4, Z.of_nat (fin_to_nat j) + 1 = repl_group -> vc !!! j = c_vc old !!! j)
    else d = b /\ clock_le vc vc0 /\
         (forall r, r ∈ rows -> c_id r = id -> c_index r <> 0 -> clock_le (c_vc r) vc0) /\
         (forall j : fin 4, Z.of_nat (fin_to_nat j) + 1 = repl_group -> vc !!! j = t).

Lemma send_update_then_read xx set args b0 w db t tb id b p old p0 r0 :
  (xx, set, args) ∈ causal_updates b0 ->
  (forall ps, param ps 5 = head args -> eval_data set ps (c_data old) = Some b) -> in_db Causal t db w ->
  fault (requests w) = None -> fault (S (requests w)) = None -> 1 <= repl_group <= 4 ->
  NoDup (causal_key <$> causal_rows tb db) ->
  causal_rows tb db !! p = Some old -> c_id old = id -> group_mapper repl_group = Some (c_index old) ->
  causal_rows tb db !! p0 = Some r0 -> c_id r0 = id -> c_index r0 = 0 ->
  reads_after_write (send_update xx set tb repl_group id (clock w) args) tb id b t old r0
    (causal_rows tb db) w.
Proof.
  intros Hxx Hb Hw Hf Hf1 Hk Hnd Hp Hid Hg Hp0 Hid0 Hi0.
  pose proof (send_update_run xx set args b0 w db t tb repl_group id (clock w) b p old
    Hxx Hw Hf Hk Hg Hnd Hp Hid Hb) as Hu.
  assert (c_index old <> 0) as Hi.
  { apply (group_mapper_master repl_group) in Hg; lia. }
  pose proof (row_updated_row0 repl_group t (clock w) b p old _ p0 r0 Hnd Hp Hi Hp0
    ltac:(congruence) Hi0) as Hrow0.
  pose proof (row_updated_keys repl_group t (clock w) b p old (causal_rows tb db) Hp) as Hkeys.
  set (res := row_updated repl_group t (clock w) b p old (causal_rows tb db)) in *.
  assert (res.1 = if decide (c_data old = b) then others_set repl_group (clock w) (c_vc old)
    else own_set repl_group t (others_set repl_group (clock w) (c_vc old))) as Hvc
    by (unfold res, row_updated; by destruct (decide _)).
  destruct res as [vc rows]. simpl in *. destruct Hu as (w1 & Hu & Hw1 & Hr1 & _ & _).
  set (r0' := if decide (c_data old = b) then r0 else _) in Hrow0.
  assert (c_id r0' = id /\ c_index r0' = 0) as [Hid0' Hi0'] by (subst r0'; by destruct (decide _)).
  assert (view Causal tb id (set_causal tb rows db) = Some (vc_datums (c_vc r0'), c_data r0')) as Hv.
  { unfold view. rewrite causal_rows_set, (filter_key0 id rows p0 r0'); [done| |done..].
    by rewrite Hkeys. }
  destruct (select_data_run Causal tb id w1 _ _ _ t Hw1 ltac:(by rewrite Hr1) Hv) as (w2 & Hs & _).
  exists w1, w2, vc, (c_vc r0'), (c_data r0'). split; [done|]. split; [done|].
  split; [|subst r0'; destruct (decide (c_data old = b)) as [Hd|Hd]].
  - intros j Hj. rewrite Hvc. destruct (decide (c_data old = b)).
    + by rewrite others_set_lookup, decide_False.
    + by rewrite own_set_lookup, decide_False, others_set_lookup, decide_False.
  - split; [done|]. split; [done|]. intros j Hj. rewrite Hvc. by rewrite others_set_lookup, decide_True.
  - assert (clock_le vc (foldr ends_max vc (masters id (causal_rows tb db))) /\
      forall c, c ∈ masters id (causal_rows tb db) ->
        clock_le c (foldr ends_max vc (masters id (causal_rows tb db)))) as [Hle Hms].
    { generalize (masters id (causal_rows tb db)). intros ms. induction ms as [|c ms [IH1 IH2]].
      - split; [done|]. intros c Hc. by apply elem_of_nil in Hc.
      - simpl. split; [etrans; [exact IH1|apply ends_max_r]|].
        intros c' [->|Hc]%elem_of_cons; [apply ends_max_l|].
        etrans; [by apply IH2|apply ends_max_r]. }
    simpl. rewrite Hid, <- Hvc. split; [done|]. split; [done|]. split.
    + intros r Hr Hrid Hri. apply Hms. apply list_elem_of_fmap. exists r. split; [done|].
      by apply list_elem_of_filter.
    + intros j Hj. rewrite Hvc. by rewrite own_set_lookup, decide_True.
Qed.

(** C17: A group of a causal store writes the row of its master: the components of the
    other groups become those of the clock of the client.  When the data are new to that
    row, its own component becomes the time of the transaction, and the row that is read
    gets the data, with a clock that dominates those of the masters: the client reads
    what it wrote.  When the data are those the row had already, nothing but the other
    components changes, and the client reads what the row that is read had before,
    which another group may have written. *)
Theorem causal_write_then_read w db t tb id b p old p0 r0 : in_db Causal t db w ->
  fault (requests w) = None -> fault (S (requests w)) = None -> 1 <= repl_group <= 4 ->
  NoDup (causal_key <$> causal_rows tb db) ->
  causal_rows tb db !! p = Some old -> c_id old = id -> group_mapper repl_group = Some (c_index old) ->
  causal_rows tb db !! p0 = Some r0 -> c_id r0 = id -> c_index r0 = 0 ->
  reads_after_write (update_data Causal tb repl_group id (clock w) b) tb id b t old r0
    (causal_rows tb db) w.
Proof. intros. eapply (send_update_then_read _ _ _ b); [left|by intros ps Hps|done..]. Qed.

(** C18: An increment of a causal store adds one to the data of the row of its master, not
    to the data that are read: when that row holds [z] the client reads [z + 1]
    afterwards, whatever it read before; and when it was never written the increment
    is lost, without an error. *)
Theorem causal_increment_then_read w db t id p old p0 r0 : in_db Causal t db w ->
  fault (requests w) = None -> fault (S (requests w)) = None -> 1 <= repl_group <= 4 ->
  NoDup (causal_key <$> causal_rows IntStore db) ->
  causal_rows IntStore db !! p = Some old -> c_id old = id -> group_mapper repl_group = Some (c_index old) ->
  causal_rows IntStore db !! p0 = Some r0 -> c_id r0 = id -> c_index r0 = 0 ->
  forall z, c_data old = DInt z /\ int_column (z + 1) = true \/ c_data old = DNull ->
  exists w1 w2 r vc d,
    increment Causal IntStore repl_group id (clock w) w = (inl r, w1) /\
    select_version_data Causal IntStore id w1 = (inl [vc ++ [d]], w2) /\
    d = match c_data old with DNull => c_data r0 | _ => DInt (z + 1) end.
Proof.
  intros Hw Hf Hf1 Hk Hnd Hp Hid Hg Hp0 Hid0 Hi0 z Hz.
  set (b := match c_data old with DNull => DNull | _ => DInt (z + 1) end).
  assert (reads_after_write (send_update ic_names PlusOne IntStore repl_group id (clock w) []) IntStore
    id b t old r0 (causal_rows IntStore db) w) as (w1 & w2 & vc & vc0 & d & Hm & Hs & _ & Hd).
  { eapply (send_update_then_read _ _ _ DNull); [right; left| |done..].
    intros ps _. subst b. destruct Hz as [[-> Hz]| ->]; simpl; [by rewrite Hz|done]. }
  exists w1, w2, [vc_datums vc], (vc_datums vc0), d. split; [|split; [done|]].
  - unfold increment, mbind, RT_bind, sql_assert. simpl. unfold increment_c.
    destruct sql_debug; simpl; by rewrite Hm.
  - subst b. destruct Hz as [[Hz _]|Hz]; rewrite Hz in *.
    + rewrite decide_False in Hd by (intros [=]; lia). by destruct Hd as [-> _].
    + rewrite decide_True in Hd by done. by destruct Hd as (_ & -> & _).
Qed.
End reads.

(** ** An object that travels is the same object *)

(** [GSQLObject::to_bytes] and the constructor that reads it back: the key is sent as an
    [int], the version and the contents are not sent. *)

(** ** The bytes of an [int] *)

Lemma byte_round z : Z_of_byte (byte_of_Z z) = z mod 256.
Proof.
  unfold Z_of_byte, byte_of_Z. pose proof (Z.mod_pos_bound z 256 ltac:(lia)) as Hz.
  destruct (Byte.of_N (Z.to_N (z mod 256))) as [b|] eqn:Hb; simpl.
  - apply Byte.to_of_N in Hb. rewrite Hb. apply Z2N.id. lia.
  - apply Byte.of_N_None_iff in Hb. lia.
Qed.

Lemma int_bytes_round z : in_int z = true -> int_of_bytes (int_bytes z) = z.
Proof.
  unfold in_int, int_min, int_max. intros [Hl Hu]%andb_true_iff. apply Z.leb_le in Hl, Hu.
  unfold int_of_bytes, int_bytes. simpl fmap. cbn [foldr]. rewrite !byte_round.
  rewrite !Z.shiftr_div_pow2 by lia.
  change (2 ^ (8 * 0)) with 1. change (2 ^ (8 * 1)) with 256.
  change (2 ^ (8 * 2)) with (256 * 256). change (2 ^ (8 * 3)) with (256 * 256 * 256).
  rewrite Z.div_1_r, <- !Z.div_div by lia.
  set (z1 := z / 256). set (z2 := z1 / 256). set (z3 := z2 / 256).
  pose proof (Z.div_mod z 256 ltac:(lia)) as E0. pose proof (Z.div_mod z1 256 ltac:(lia)) as E1.
  pose proof (Z.div_mod z2 256 ltac:(lia)) as E2. pose proof (Z.div_mod z3 256 ltac:(lia)) as E3.
  pose proof (Z.mod_pos_bound z 256 ltac:(lia)). pose proof (Z.mod_pos_bound z1 256 ltac:(lia)).
  pose proof (Z.mod_pos_bound z2 256 ltac:(lia)). pose proof (Z.mod_pos_bound z3 256 ltac:(lia)).
  fold z1 in E0. fold z2 in E1. fold z3 in E2. set (q := z3 / 256) in *.
  assert (q = 0 \/ q = -1) as Hq by (change (2 ^ 31) with 2147483648 in *; lia).
  change (2 ^ 31) with 2147483648 in *. change (2 ^ 32) with 4294967296.
  destruct (Z.ltb_spec (z mod 256 + 256 * (z1 mod 256 + 256 * (z2 mod 256 + 256 * (z3 mod 256 + 256 * 0))))
    2147483648); destruct Hq; lia.
Qed.

Lemma to_int_in z : in_int (to_int z) = true.
Proof.
  unfold to_int, in_int, int_min, int_max. pose proof (Z.mod_pos_bound z (2 ^ 32) ltac:(lia)).
  destruct (Z.ltb_spec (z mod 2 ^ 32) (2 ^ 31)); apply andb_true_iff; split; apply Z.leb_le; lia.
Qed.

Lemma to_int_id z : in_int z = true -> to_int z = z.
Proof.
  unfold to_int, in_int, int_min, int_max. intros [Hl Hu]%andb_true_iff. apply Z.leb_le in Hl, Hu.
  destruct (decide (0 <= z)).
  - rewrite Z.mod_small by lia. rewrite (proj2 (Z.ltb_lt _ _)); lia.
  - rewrite <- (Z_mod_plus_full z 1), Z.mod_small by lia.
    rewrite (proj2 (Z.ltb_ge _ _)); lia.
Qed.

(** Reading the [i]-th of some [int]s *)
Lemma arr_ints zs i z rest : zs !! i = Some z -> in_int z = true ->
  arr i (mjoin (int_bytes <$> zs) ++ rest) = Some z.
Proof.
  revert i. induction zs as [|y zs IH]; intros i Hi Hz; [done|].
  destruct i as [|i]; simpl in Hi.
  - injection Hi as ->. unfold arr. simpl drop.
    rewrite (read_first_take 4 _ (int_bytes z)); [|done|].
    + simpl. f_equal. by apply int_bytes_round.
    + done.
  - rewrite <- (IH i Hi Hz). unfold arr. f_equal. f_equal. f_equal.
    rewrite Nat.mul_succ_r, Nat.add_comm. simpl. done.
Qed.

Section bytes.
Context `{Server} `{SqlBuild}.

(** An object that is sent and read back has the table and the size it had, is handed
    to the store of its level, and has a key that is the [int] the key is cut down to,
    which is the key itself for keys of that range; it has no version and no contents
    yet, and a buffer that its size fits in. *)
Theorem object_sent_is_read_back {S} l inst o rest w (s : S) :
  0 <= size o <= int_max \/ size o = 2 ^ 64 - 1 -> in_int (store_id o) = true ->
  from_bytes_helper true true (to_bytes o ++ rest) s = (inl (level o), s) /\
  exists o', from_bytes l inst (to_bytes o ++ rest) w = (inl o', w) /\
    table o' = table o /\ size o' = size o /\ key o' = to_int (key o) /\
    (in_int (key o) = true -> key o' = key o) /\
    vers o' = -1 /\ causal_vers o' = [# -1; -1; -1; -1] /\
    (buf1 o' = None <-> size o = 2 ^ 64 - 1) /\ (size o <= int_max -> buffer_ok o').
Proof.
  intros Hsz Hid.
  set (ints := [to_int (key o); to_int (size o); store_id o; level_int (level o); table_int (table o)]).
  assert (to_bytes o = mjoin (int_bytes <$> ints)) as Hb.
  { unfold to_bytes, ints. cbn [fmap list_fmap mjoin list_join foldr]. by rewrite app_nil_r. }
  assert (forall i z, ints !! i = Some z -> in_int z = true -> arr i (to_bytes o ++ rest) = Some z) as Harr.
  { intros i z. rewrite Hb. apply arr_ints. }
  split.
  - unfold from_bytes_helper, mbind, RT_bind. rewrite (Harr 3%nat (level_int (level o))) by by destruct (level o).
    simpl. unfold sql_assert. by destruct (level o), sql_debug.
  - unfold from_bytes, mbind, RT_bind.
    rewrite (Harr 4%nat (table_int (table o))) by by destruct (table o).
    rewrite (Harr 0%nat (to_int (key o))) by (done || apply to_int_in).
    rewrite (Harr 1%nat (to_int (size o))) by (done || apply to_int_in).
    assert (table_of_int (table_int (table o)) = Some (table o)) as Ht by by destruct (table o).
    simpl. rewrite Ht. simpl. unfold sized_object, mbind, RT_bind.
    destruct Hsz as [Hsz|Hsz].
    + assert (to_int (size o) = size o) as Hint.
      { apply to_int_id. unfold in_int, int_max, int_min in *. apply andb_true_iff.
        split; apply Z.leb_le; lia. }
      rewrite Hint, (proj2 (Z.eqb_neq _ _)) by lia.
      assert (size_t (size o) = size o) as Hst
        by (unfold size_t, int_max in *; by rewrite Z.mod_small by lia).
      rewrite Hst. destruct (malloc_cleared_run (size o) w) as (b & Hc & Hl); [unfold int_max in *; lia|].
      rewrite Hc. eexists. split; [done|]. unfold new_internals. simpl. rewrite Hst.
      split; [done|]. split; [done|]. split; [done|]. split; [apply to_int_id|].
      split; [done|]. split; [done|]. split.
      * split; [done|]. intros Heq. unfold int_max in *. lia.
      * intros _. split; simpl; [lia|]. intros b' [= <-]. rewrite Hl. unfold buf_size, int_max in *. lia.
    + rewrite Hsz. simpl. eexists. split; [done|]. unfold new_internals. simpl.
      split; [done|]. split; [done|]. split; [done|]. split; [apply to_int_id|].
      split; [done|]. split; [done|]. split; [done|]. unfold int_max. lia.
Qed.
End bytes.
