(* ===== verification/SqlExamples.v ===== *)
(** * SQL stores on concrete tables

    A server whose requests succeed, with tables of a few rows, on which the theorems on
    SQL stores apply; and runs that go wrong: an object that keeps what an aborted
    transaction has put, a clock that goes back, and a commit whose answer is lost. *)
From stdpp Require Import vector fin.
From Stdlib Require Import Strings.Byte.
From S2P Require Import Prelude Runtime Clocks SqlDb SqlStore GSqlObject SqlStoreCorrect SqlCausal.
From S2P Require Import GSqlCorrect SqlReads.
From S2P Require Wire.

#[local] Open Scope Z_scope.

(** ** A server and a build *)

Definition example_schema : Schema := {|
  default_index := 0; default_version := 0; default_vc := [# 0; 0; 0; 0]; default_lw := 1;
  int_column := in_int;
  strong_accepts := fun rows r => forallb (fun x => negb (s_id x =? s_id r)) rows;
  causal_accepts := fun rows r =>
    forallb (fun x => negb ((c_id x =? c_id r) && (c_index x =? c_index r))) rows |}.

(** [others n]: what the other clients commit before the [n]-th request *)
Definition example_server (others : nat -> Database -> Database) : Server := {|
  server_schema := example_schema; fault := fun _ => None; complaint := fun _ => "error"%string;
  others := others; now := fun n => 1000 + Z.of_nat n; commit_closed := fun _ => None;
  commit_in_doubt := fun _ => false |}.

Definition quiet_server : Server := example_server (fun _ db => db).

Definition example_build (group : Z) (assertions : bool) : SqlBuild :=
  {| repl_group := group; sql_debug := assertions |}.

(** Objects of three bytes, and of a hundred and fifty *)
Definition bytes_codec (n : nat) : Wire.codec (list byte) := Wire.Codec _
  (fun bs => bs) (fun bs => if (n <=? length bs)%nat then Some (take n bs, drop n bs) else None).

Lemma bytes_codec_ok n : Wire.codec_ok (fun bs => length bs = n) (bytes_codec n).
Proof.
  intros bs rest <-. simpl. rewrite length_app, (proj2 (Nat.leb_le _ _)) by lia.
  by rewrite take_app_length, drop_app_length.
Qed.

Definition abc : list byte := [x61; x62; x63].
Definition large (b : byte) : list byte := replicate 150 b.

Definition strong_db (data : list byte) (v : Z) : Database :=
  MkDatabase [StrongRow 0 7 v (DBlob data)] [StrongRow 0 8 0 (DInt 5)] [] [].

(** A store that is open, with a transaction *)
Definition opened `{Server, SqlBuild} (l : Level) (db : Database) : sql_world :=
  (open_store l (new_connection db)).2.
Definition started `{Server, SqlBuild} (l : Level) (db : Database) : sql_world := (sql_begin (opened l db)).2.

(** ** Runs that go wrong *)

(** A transaction that puts [x] and is given up, then one that gets the object *)
Definition put_abort_get `{Server, SqlBuild} (x : list byte) : RT object_state (list byte) :=
  _ ← on_world sql_begin;
  _ ← put Strong (bytes_codec 150) x;
  _ ← on_world sql_abort;
  _ ← on_world sql_destroy;
  _ ← on_world sql_begin;
  get Strong (bytes_codec 150).

(** Another client commits its own update before the second transaction. *)
Definition other_commit (n : nat) (db : Database) : Database :=
  if decide (n = 6%nat) then strong_db (large x62) 4 else db.

(** The transaction that starts afterwards gets a value that was never committed, in
    builds with assertions and without. *)
Lemma aborted_put_run assertions :
  let H := example_server other_commit in let H0 := example_build 1 assertions in
  let run := put_abort_get (large x63)
    (opened Strong (strong_db (large x61) 3), existing_object Strong 1 BlobStore 7) in
  run.1 = inl (large x63) /\
  (exists t, trans run.2.1 = Some (Open (strong_db (large x62) 4) t (Some Strong))) /\
  committed run.2.1 = strong_db (large x62) 4.
Proof. destruct assertions; (split; [|split; [eexists|]]); by vm_compute. Qed.

Definition causal_db (data : list byte) (vc : Clock) : Database :=
  MkDatabase [] [] [CausalRow 0 7 vc 1 (DBlob data); CausalRow 1 7 vc 1 (DBlob data);
    CausalRow 2 7 [# 0; 0; 0; 0] 1 DNull]
    [CausalRow 0 8 vc 1 (DInt 5); CausalRow 1 8 vc 1 (DInt 5); CausalRow 2 8 [# 0; 0; 0; 0] 1 DNull].

(** After an object with the clock 5,0,0,0 was read, a store whose clock was 4,9,9,9 has
    the clock 5,0,0,0; its next write of a row sets the components of the other groups
    to 0. *)
Lemma clock_back_run assertions :
  let H := quiet_server in let H0 := example_build 1 assertions in
  let w := set_clock [# 4; 9; 9; 9] (started Causal (causal_db (large x61) [# 5; 0; 0; 0])) in
  let run := load Causal (w, existing_object Causal 1 BlobStore 7) in
  (exists b, run.1 = inl (Some b)) /\ clock run.2.1 = [# 5; 0; 0; 0] /\
  ~ clock_le (clock w) (clock run.2.1) /\
  (update_data Causal BlobStore 1 7 (clock run.2.1) (DBlob abc) run.2.1).1 =
    inl [vc_datums [# 1004; 0; 0; 0]].
Proof.
  destruct assertions; (split; [eexists|split; [|split; [intros Hle; specialize (Hle 1%fin)|]]]);
    by vm_compute.
Qed.

(** The transaction that puts, and the next one, which gets *)
Section aborted.
#[local] Instance server6 : Server := example_server other_commit.
#[local] Instance build6 : SqlBuild := example_build 1 true.

Definition w_aborted : sql_world := started Strong (strong_db (large x61) 3).
Definition aborting_put : (unit + exn) * object_state :=
  put Strong (bytes_codec 150) (large x63) (w_aborted, existing_object Strong 1 BlobStore 7).

Lemma opened_aborted : open_store Strong (new_connection (strong_db (large x61) 3)) =
  (inl tt, opened Strong (strong_db (large x61) 3)).
Proof. by vm_compute. Qed.

Lemma aborted_put_is_got_witness : exists w3 s,
  sql_begin (sql_destroy (sql_abort aborting_put.2.1).2).2 = (inl tt, w3) /\
  get Strong (bytes_codec 150) (w3, aborting_put.2.2) = (inl (large x63), s).
Proof.
  destruct (aborted_put_is_got (fun bs => length bs = 150%nat) (bytes_codec 150) (large x63) w_aborted
    (existing_object Strong 1 BlobStore 7) (strong_db (large x61) 3) 1004 3 (DBlob (large x61)))
    as (w1 & o1 & Hp & _ & _ & w3 & Hb & Hg).
  - reflexivity.
  - apply bytes_codec_ok.
  - reflexivity.
  - discriminate.
  - split; [apply sql_begin_inv, (open_store_inv _ _ _ opened_aborted)|vm_compute; reflexivity].
  - reflexivity.
  - split; [discriminate|]. discriminate.
  - split; [split; [discriminate|reflexivity]|discriminate].
  - vm_compute. reflexivity.
  - reflexivity.
  - discriminate.
  - assert (w1 = aborting_put.2.1) as -> by (unfold aborting_put; rewrite Hp; reflexivity).
    assert (o1 = aborting_put.2.2) as -> by (unfold aborting_put; rewrite Hp; reflexivity).
    destruct (Hg (DBlob (large x62))) as [s Hs]; [vm_compute; reflexivity|].
    exists w3, s. split; [exact Hb|exact Hs].
Defined.
End aborted.

(** A commit whose answer is lost: the client has an exception, the database the data. *)
Definition losing_server : Server := {|
  server_schema := example_schema;
  fault := fun n => if decide (n = 6%nat) then Some "connection lost"%string else None;
  complaint := fun _ => "error"%string; others := fun _ db => db; now := fun n => 1000 + Z.of_nat n;
  commit_closed := fun _ => None; commit_in_doubt := fun n => bool_decide (n = 6%nat) |}.

Lemma lost_answer : let H := losing_server in let H0 := example_build 1 true in
  let s := put Strong (bytes_codec 3) abc (started Strong (strong_db [x61] 3), existing_object Strong 1 BlobStore 7) in
  (sql_commit s.2.1).1 = inr SqlException /\ committed (sql_commit s.2.1).2 = strong_db abc 4.
Proof. split; vm_compute; reflexivity. Qed.

(** ** The theorems apply *)

#[local] Instance sq : Server := quiet_server.

Section build.
#[local] Instance sb : SqlBuild := example_build 1 true.

Definition w_strong : sql_world := started Strong (strong_db abc 3).
Definition w_causal : sql_world := started Causal (causal_db abc [# 5; 0; 0; 0]).

Lemma opened_strong : open_store Strong (new_connection (strong_db abc 3)) =
  (inl tt, opened Strong (strong_db abc 3)).
Proof. by vm_compute. Qed.

Lemma opened_causal : open_store Causal (new_connection (causal_db abc [# 5; 0; 0; 0])) =
  (inl tt, opened Causal (causal_db abc [# 5; 0; 0; 0])).
Proof. by vm_compute. Qed.

Lemma strong_started : in_db Strong 1004 (strong_db abc 3) w_strong.
Proof. split; [apply sql_begin_inv, (open_store_inv _ _ _ opened_strong)|by vm_compute]. Qed.

Lemma causal_started : in_db Causal 1004 (causal_db abc [# 5; 0; 0; 0]) w_causal.
Proof. split; [apply sql_begin_inv, (open_store_inv _ _ _ opened_causal)|by vm_compute]. Qed.

Definition blob7 : GSQLObject := existing_object Strong 1 BlobStore 7.

Lemma blob7_ok : buffer_ok blob7.
Proof. by split. Qed.

Lemma blob7_takes n : 0 <= n < 2 ^ 63 -> takes n blob7.
Proof. by split. Qed.

Lemma prepared_statement_is_run_witness :
  (prepared select1 (SelectVersionDataS BlobStore) 7 [] w_strong).1 = inl [[DInt 3; DBlob abc]].
Proof.
  pose proof (prepared_statement_is_run Strong 1 (strong_db abc 3) (opened Strong (strong_db abc 3)) w_strong
    select1 (SelectVersionDataS BlobStore) 7 [] (strong_db abc 3) 1004 (Some Strong) opened_strong) as Hp.
  destruct Hp as [Hr _].
  - apply rtc_once. unfold w_strong, started. apply step_begin.
  - apply list_elem_of_In. vm_compute. tauto.
  - vm_compute. reflexivity.
  - exact Hr.
Defined.

Lemma transaction_is_atomic_witness :
  committed (sql_destroy (put Strong (bytes_codec 3) [x64; x65; x66] (w_strong, blob7)).2.1).2 = strong_db abc 3.
Proof.
  refine (proj1 (proj2 (proj2 (transaction_is_atomic Strong 1 (strong_db abc 3) (opened Strong (strong_db abc 3))
    w_strong _ (strong_db abc 3) 1004 (Some Strong) opened_strong _ _ _ _)))).
  - apply rtc_once. unfold w_strong, started. apply step_begin.
  - vm_compute. reflexivity.
  - vm_compute. reflexivity.
  - apply rtc_once. apply step_put.
Defined.

Lemma load_agrees_with_fetch_witness : exists w1 o1 w2 o2,
  load Strong (w_strong, blob7) = (inl (buf1 o1), (w1, o1)) /\
  load_data Strong (w_strong, blob7) = (inl (buf1 o2), (w2, o2)) /\ contents o1 abc /\ contents o2 abc.
Proof.
  destruct (load_agrees_with_fetch Strong w_strong blob7 (strong_db abc 3) 1004 [DInt 3] abc)
    as (w1 & o1 & w2 & o2 & H1 & H2 & Ho & _).
  - reflexivity.
  - exact strong_started.
  - reflexivity.
  - vm_compute. reflexivity.
  - exists 3. split; [reflexivity|]. split; [vm_compute; reflexivity|discriminate].
  - discriminate.
  - exact blob7_ok.
  - apply blob7_takes. vm_compute. split; [discriminate|reflexivity].
  - intros Hv. discriminate Hv.
  - inversion_clear Ho as [|? ? Ho1 Ho']. inversion_clear Ho' as [|? ? Ho2 _].
    exists w1, o1, w2, o2. split; [exact H1|]. split; [exact H2|]. split; [exact (proj1 Ho1)|exact (proj1 Ho2)].
Defined.

(** The store of [clock_back_run] *)
Definition w_ahead : sql_world := set_clock [# 4; 9; 9; 9] w_causal.

Lemma load_turns_clock_back_witness :
  clock (load Causal (w_ahead, existing_object Causal 1 BlobStore 7)).2.1 = [# 5; 0; 0; 0].
Proof.
  refine (proj1 (load_turns_clock_back w_ahead (existing_object Causal 1 BlobStore 7)
    (causal_db abc [# 5; 0; 0; 0]) 1004 [# 5; 0; 0; 0] (DBlob abc) _ _ _ _ _ _)).
  - reflexivity.
  - destruct causal_started as [Hinv Ht]. split; [exact Hinv|exact Ht].
  - discriminate.
  - vm_compute. reflexivity.
  - intros i. apply (bool_decide_unpack (forall i : fin 4, in_long ([# 5; 0; 0; 0] !!! i) = true)).
    vm_compute. exact I.
  - discriminate.
Defined.

Lemma put_then_get_witness : exists w1 o1,
  put Strong (bytes_codec 3) [x64; x65; x66] (w_strong, blob7) = (inl tt, (w1, o1)) /\
  (exists s, get Strong (bytes_codec 3) (w1, blob7) = (inl [x64; x65; x66], s)) /\
  exists w2, sql_commit w1 = (inl true, w2) /\
    view Strong BlobStore 7 (committed w2) = Some ([DInt 4], DBlob [x64; x65; x66]).
Proof.
  destruct (put_then_get (fun bs => length bs = 3%nat) (bytes_codec 3) [x64; x65; x66] w_strong blob7
    (strong_db abc 3) 1004 3 (DBlob abc)) as (w1 & o1 & db' & Hp & _ & Hg & (w2 & Hc & Hdb) & Hv & _).
  - reflexivity.
  - apply bytes_codec_ok.
  - reflexivity.
  - discriminate.
  - exact strong_started.
  - reflexivity.
  - exact blob7_ok.
  - apply blob7_takes. vm_compute. split; [discriminate|reflexivity].
  - vm_compute. reflexivity.
  - vm_compute. reflexivity.
  - discriminate.
  - exists w1, o1. split; [exact Hp|]. split.
    + apply Hg; [reflexivity|reflexivity|exact blob7_ok| |].
      * apply blob7_takes. vm_compute. split; [discriminate|reflexivity].
      * intros Hv'. discriminate Hv'.
    + exists w2. split; [exact Hc|]. rewrite Hdb. exact Hv.
Defined.

(** Group 1 writes new data, and reads them. *)
Lemma causal_write_then_read_witness : exists w1 w2 vc vc0,
  update_data Causal BlobStore 1 7 (clock w_causal) (DBlob [x64]) w_causal = (inl [vc_datums vc], w1) /\
  select_version_data Causal BlobStore 7 w1 = (inl [vc_datums vc0 ++ [DBlob [x64]]], w2) /\
  clock_le vc vc0 /\ vc !!! 0%fin = 1004.
Proof.
  destruct (causal_write_then_read w_causal (causal_db abc [# 5; 0; 0; 0]) 1004 BlobStore 7 (DBlob [x64]) 1
    (CausalRow 1 7 [# 5; 0; 0; 0] 1 (DBlob abc)) 0 (CausalRow 0 7 [# 5; 0; 0; 0] 1 (DBlob abc)))
    as (w1 & w2 & vc & vc0 & d & Hu & Hs & _ & Hd); try reflexivity.
  - exact causal_started.
  - split; discriminate.
  - apply (bool_decide_unpack _). vm_compute. exact I.
  - rewrite decide_False in Hd by discriminate. destruct Hd as (-> & Hle & _ & Hown).
    exists w1, w2, vc, vc0. split; [exact Hu|]. split; [exact Hs|]. split; [exact Hle|].
    apply Hown. reflexivity.
Defined.
End build.

Section other_master.
#[local] Instance sb3 : SqlBuild := example_build 3 true.

Definition w_third : sql_world := started Causal (causal_db abc [# 5; 0; 0; 0]).

Lemma opened_third : open_store Causal (new_connection (causal_db abc [# 5; 0; 0; 0])) =
  (inl tt, opened Causal (causal_db abc [# 5; 0; 0; 0])).
Proof. by vm_compute. Qed.

(** Group 3 increments an integer its master has not written: it stays 5. *)
Lemma causal_increment_then_read_witness : exists w1 w2 r vc,
  increment Causal IntStore 3 8 (clock w_third) w_third = (inl r, w1) /\
  select_version_data Causal IntStore 8 w1 = (inl [vc ++ [DInt 5]], w2).
Proof.
  destruct (causal_increment_then_read w_third (causal_db abc [# 5; 0; 0; 0]) 1004 8 2
    (CausalRow 2 8 [# 0; 0; 0; 0] 1 DNull) 0 (CausalRow 0 8 [# 5; 0; 0; 0] 1 (DInt 5)))
    with (z := 0) as (w1 & w2 & r & vc & d & Hi & Hs & Hd); try reflexivity.
  - split; [apply sql_begin_inv, (open_store_inv _ _ _ opened_third)|vm_compute; reflexivity].
  - split; discriminate.
  - apply (bool_decide_unpack _). vm_compute. exact I.
  - right. reflexivity.
  - exists w1, w2, r, vc. split; [exact Hi|]. subst d. exact Hs.
Defined.
End other_master.

Section sent.
#[local] Instance sb1 : SqlBuild := example_build 1 false.

Lemma object_sent_is_read_back_witness : exists o',
  from_bytes Strong 1 (to_bytes (existing_object Strong 1 IntStore 8)) (new_connection (strong_db abc 3)) =
    (inl o', new_connection (strong_db abc 3)) /\ key o' = 8 /\ table o' = IntStore.
Proof.
  destruct (object_sent_is_read_back Strong 1 (existing_object Strong 1 IntStore 8) []
    (new_connection (strong_db abc 3)) (new_connection (strong_db abc 3)))
    as (_ & o' & Hr & Ht & _ & Hk & _).
  - left. split; discriminate.
  - vm_compute. reflexivity.
  - exists o'. rewrite app_nil_r in Hr. split; [exact Hr|]. rewrite Hk, Ht. split; vm_compute; reflexivity.
Defined.

End sent.

(** A debug build that puts an existing integer clears what is behind its buffer. *)
Section cleared.
#[local] Instance sb2 : SqlBuild := example_build 1 true.

Lemma put_without_room_witness : exists o',
  put Strong (bytes_codec 4) (int_bytes 6) (new_connection (strong_db abc 3), existing_object Strong 1 IntStore 8) =
  (inr OutOfRange, (new_connection (strong_db abc 3), o')).
Proof.
  destruct (put_without_room Strong (bytes_codec 4) (int_bytes 6) (new_connection (strong_db abc 3))
    (existing_object Strong 1 IntStore 8) (replicate 4 None)) as [o' Ho'].
  - reflexivity.
  - vm_compute. reflexivity.
  - exists o'. exact Ho'.
Defined.
End cleared.
