(* ===== verification/RemoteObjects.v ===== *)
(** * Handles, and the context of a phase

    Models [Handle.hpp], [Operations.hpp], [RemoteObject.hpp], [UnmatchedRemoteObject.hpp]
    and [mtl/TransactionContext.hpp] for the objects of one SQL store.  Handles share
    their objects: an object is a cell of the heap of the program, and a handle has the
    number of the cell.  An object of a class the reader does not know is its bytes. *)
From stdpp Require Import vector fin.
From Stdlib Require Import Strings.Byte.
From S2P Require Import Prelude Labels TypedAst Runtime Clocks Holders RunPhase SqlDb SqlStore GSqlObject.
From S2P Require Wire.

#[local] Open Scope Z_scope.

(** ** What is read and written as memory *)

(** The lowest [n] bytes of an integer, the lowest one first *)
Fixpoint memory_of (n : nat) (z : Z) : list byte :=
  match n with O => [] | S n => byte_of_Z z :: memory_of n (z / 256) end.
Fixpoint of_memory (bs : list byte) : Z :=
  match bs with [] => 0 | b :: bs => Z_of_byte b + 256 * of_memory bs end.

Definition size_bytes (z : Z) : list byte := memory_of 8 z.
(** [((std::size_t* ) v)[i]] *)
Definition size_at (i : nat) (v : list byte) : option Z :=
  let bs := take 8 (drop (8 * i) v) in
  if (length bs =? 8)%nat then Some (of_memory bs) else None.
(** [Name] is [long int]. *)
Definition to_long (z : Z) : Z := if z <? 2 ^ 63 then z else z - 2 ^ 64.

(** ** Remote objects and handles *)

(** [SQLStore<l>::SQLObject<T>], or [UnmatchedRemoteObject] *)
Inductive remote_object : Type :=
| Matched (gso : GSQLObject)
| Unmatched (stored_id : Z) (bytes : list byte) (_name : Z).

(** A pointer to a remote object; the name of an object never changes. *)
Record ref : Type := Ref { addr : nat; ref_name : Z }.

(** The data store the operations of a handle are sent to *)
Inductive op_store : Type := OpStore | OpUnmatched.

(** [SQLHandle<T>]: [op] of a handle made by [Handle()] is a null pointer. *)
Record sql_handle : Type := SqlHandle { stored_type : ty; _ro : option ref; op : option op_store }.

Definition ro_name (h : sql_handle) : Z := match _ro h with Some r => ref_name r | None => 0 end.

#[global] Instance sql_handles : Handles := {| Handle := sql_handle; handle_name := ro_name |}.

(** The world of a phase: its store, [s_ctx] (is there one?), the objects of the program,
    and how often [int_rand()] was called. *)
Record phase_world : Type := PhaseWorld {
  sql : sql_world; s_ctx : bool; objects : list remote_object; rands : nat }.

Definition set_sql (w : sql_world) (s : phase_world) : phase_world :=
  PhaseWorld w (s_ctx s) (objects s) (rands s).
Definition set_s_ctx (b : bool) (s : phase_world) : phase_world :=
  PhaseWorld (sql s) b (objects s) (rands s).

(** ** The libraries *)

Class Mutils : Type := {
  (** [mutils::to_bytes_v(v, true, size, name)] *)
  write_header : Z -> Z -> list byte;
  (** what [inherit_to_bytes] writes in front of the bytes of an object with this
      [serial_uuid()], and how [inherit_from_bytes] takes it off *)
  write_id : Z -> list byte;
  read_id : list byte -> option (Z * list byte);
  (** the bytes of [debug_nonce()], and the comparison with what is found there *)
  nonce : list byte;
  is_nonce : list byte -> bool;
  (** [mutils::is_set<T>] *)
  is_set : ty -> bool;
  (** [mutils::int_rand()] *)
  int_rand : nat -> Z;
  (** the serialization of the objects of a type *)
  object_codec : ty -> Wire.codec value;
}.

(** Integers are copied as they are in memory; ids take eight bytes. *)
Class MutilsLaws `{Mutils} : Prop := {
  header_ok size name : write_header size name = x01 :: size_bytes size ++ size_bytes name;
  id_length id : length (write_id id) = 8%nat;
  id_ok id rest : 0 <= id < 2 ^ 64 -> read_id (write_id id ++ rest) = Some (id, rest);
  nonce_ok rest : is_nonce (nonce ++ rest) = true;
}.

Section handles.
Context `{Server} `{SqlBuild} `{Mutils}.
(** The store: its level and [instance_id()] *)
Context (l : Level) (instance_id : Z).

(** ** The context of a phase *)

Definition on_sql {A} (m : RT sql_world A) : RT phase_world A := fun s =>
  let '(r, w) := m (sql s) in (r, set_sql w s).

(** What every member of an unmatched object and of its store does *)
Definition unmatched_use {A} : RT phase_world A :=
  _ ← sql_assert false; throw UnmatchedUse.

(** [_PhaseContext::store_context(ds)]: the transaction begins with its first use. *)
Definition phase_context (ds : op_store) : RT phase_world unit :=
  s ← get_state;
  if s_ctx s then mret tt
  else match ds with
       | OpUnmatched => unmatched_use
       | OpStore => _ ← on_sql sql_begin; modify (set_s_ctx true)
       end.

(** [GPhaseContext::store_abort] *)
Definition phase_abort : RT phase_world bool :=
  s ← get_state; if s_ctx s then on_sql sql_abort else mret true.

(** [commit_phase]; what [store_commit] returns is not looked at. *)
Definition phase_commit : RT phase_world unit :=
  s ← get_state; if s_ctx s then _ ← on_sql sql_commit; mret tt else mret tt.

(** [~_PhaseContext]: the transaction is destroyed with it. *)
Definition phase_end (s : phase_world) : phase_world :=
  set_s_ctx false (if s_ctx s then (on_sql sql_destroy s).2 else s).

(** ** Objects *)

Definition new_cell (o : remote_object) : RT phase_world nat := fun s =>
  (inl (length (objects s)), PhaseWorld (sql s) (s_ctx s) (objects s ++ [o]) (rands s)).

Definition rand : RT phase_world Z := fun s =>
  (inl (int_rand (rands s)), PhaseWorld (sql s) (s_ctx s) (objects s) (S (rands s))).

(** [assert(_ro)], and then [*_ro] *)
Definition deref_ro (h : sql_handle) : RT phase_world (ref * remote_object) :=
  _ ← sql_assert (bool_decide (is_Some (_ro h)));
  r ← defined (_ro h);
  s ← get_state;
  o ← defined (objects s !! addr r);
  mret (r, o).

Definition store_of (o : remote_object) : op_store :=
  match o with Matched _ => OpStore | Unmatched _ _ _ => OpUnmatched end.

(** A member function of the object in a cell, in the transaction of the phase *)
Definition member {A} (r : ref) (o : remote_object) (m : RT object_state A) : RT phase_world A :=
  match o with
  | Matched gso => fun s =>
      let '(a, (w, gso')) := m (sql s, gso) in
      (a, PhaseWorld w (s_ctx s) (<[addr r := Matched gso']> (objects s)) (rands s))
  | Unmatched _ _ _ => unmatched_use
  end.

(** A method that takes the context *)
Definition in_context {A} (h : sql_handle) (m : RT object_state A) : RT phase_world A :=
  '(r, o) ← deref_ro h;
  _ ← phase_context (store_of o);
  member r o m.

(** ** Methods of handles *)

Definition handle_get (h : sql_handle) : RT phase_world value :=
  in_context h (get l (object_codec (stored_type h))).

Definition handle_put (h : sql_handle) (x : value) : RT phase_world unit :=
  in_context h (put l (object_codec (stored_type h)) x).

Definition handle_isValid (h : sql_handle) : RT phase_world bool :=
  match _ro h with Some _ => in_context h isValid | None => mret false end.

(** [std::is_same<T, int> ? Table::IntStore : Table::BlobStore] *)
Definition table_of (T : ty) : Table := if decide (T = TInt) then IntStore else BlobStore.

(** [newObject_static], and [SQLStore::newObject] which wraps the object *)
Definition new_ref (T : ty) (name : Z) (x : value) : RT phase_world ref :=
  gso ← on_sql (newObject l instance_id (object_codec T) (table_of T) name x);
  p ← new_cell (Matched gso);
  mret (Ref p (key gso)).

Definition store_newObject (T : ty) (name : Z) (x : value) : RT phase_world sql_handle :=
  r ← new_ref T name x; mret (SqlHandle T (Some r) (Some OpStore)).

Definition store_existingObject (T : ty) (name : Z) : RT phase_world sql_handle :=
  let gso := existingObject l instance_id (table_of T) name in
  p ← new_cell (Matched gso);
  mret (SqlHandle T (Some (Ref p (key gso))) (Some OpStore)).

Definition nullObject (T : ty) : sql_handle := SqlHandle T None (Some OpStore).

Definition handle_create_new (h : sql_handle) (x : value) : RT phase_world sql_handle :=
  '(_, o) ← deref_ro h;
  _ ← phase_context (store_of o);
  match o with
  | Matched _ =>
      name ← rand;
      r ← new_ref (stored_type h) name x;
      mret (SqlHandle (stored_type h) (Some r) (op h))
  | Unmatched _ _ _ => unmatched_use
  end.

Definition clone (h : sql_handle) : sql_handle := h.
Definition nulled (h : sql_handle) : sql_handle := SqlHandle (stored_type h) None (op h).

Definition timestamp (h : sql_handle) : RT phase_world Clock :=
  '(_, o) ← deref_ro h;
  match o with Matched gso => mret (causal_vers gso) | Unmatched _ _ _ => unmatched_use end.

Definition handle_name_of (h : sql_handle) : RT phase_world Z :=
  '(r, _) ← deref_ro h; mret (ref_name r).

(** ** Operations *)

(** [upCast(OperationIdentifier<name>).op->act(ctx, dsm, h, args...)]: handles of [int]
    have [increment], and those of a set [insert]; others do not compile.  What [void]
    operations return is a null pointer. *)
Definition supports (T : ty) (name : string) : bool :=
  if decide (name = "increment"%string) then bool_decide (T = TInt)
  else if decide (name = "insert"%string) then is_set T else false.

Definition op_act (name : string) (h : sql_handle) : RT phase_world unit :=
  match op h with
  | Some OpUnmatched => _ ← phase_context OpUnmatched; unmatched_use
  | Some OpStore =>
      _ ← phase_context OpStore;
      r ← defined (_ro h);
      s ← get_state;
      o ← defined (objects s !! addr r);
      member r o (if decide (name = "increment"%string) then operation_increment l else operation_insert)
  | None => throw OutOfRange
  end.

Definition handle_act (name : string) (h : sql_handle) (args : list value) : RT phase_world value :=
  if supports (stored_type h) name then _ ← op_act name h; mret (VInt 0) else throw OutOfRange.

(** ** Handles as bytes *)

Definition sqlobject_inherit_id (l : Level) : Z := 498645 + level_int l.

Definition serial_uuid (o : remote_object) : Z :=
  match o with Matched _ => sqlobject_inherit_id l | Unmatched id _ _ => id end.
Definition ro_to_bytes (o : remote_object) : list byte :=
  match o with Matched gso => to_bytes gso | Unmatched _ bytes _ => bytes end.
Definition ro_bytes_size (o : remote_object) : Z :=
  match o with Matched _ => bytes_size | Unmatched _ bytes _ => Z.of_nat (length bytes) end.

Definition nonce_size : Z := if sql_debug then Z.of_nat (length nonce) else 0.

(** [Handle::bytes_size] of a handle to [o] *)
Definition handle_bytes_size (o : option remote_object) : Z :=
  nonce_size + 1 +
  match o with
  | Some o => Z.of_nat (length (write_id (serial_uuid o))) + ro_bytes_size o + 8 + 8
  | None => 0
  end.

Definition with_nonce (bs : list byte) : list byte := if sql_debug then bs ++ nonce else bs.

Definition handle_to_bytes (h : sql_handle) : RT phase_world (list byte) :=
  match _ro h with
  | Some _ =>
      '(r, o) ← deref_ro h;
      let ret := with_nonce (write_header (ro_bytes_size o) (ref_name r) ++
        write_id (serial_uuid o) ++ ro_to_bytes o) in
      _ ← sql_assert (Z.of_nat (length ret) =? handle_bytes_size (Some o));
      mret ret
  | None => mret (with_nonce [x00])
  end.

(** A deserialization manager: the SQL stores it has, and the levels whose stores have
    a class in its [InheritManager] *)
Record manager : Type := Manager {
  causal_store : bool; strong_store : bool; inherit : option (list Level) }.

(** Is there a class for [RemoteObject<l, T>] with this id? *)
Definition has_class (group : list Level) (id : Z) : bool :=
  bool_decide (l ∈ group) && (id =? sqlobject_inherit_id l).

(** [SQLObject::from_bytes], and [wrapInHandle], whose [store()] is a cast *)
Definition object_from_bytes (dsm : manager) (v : list byte) : RT phase_world GSQLObject :=
  lvl ← from_bytes_helper (causal_store dsm) (strong_store dsm) v;
  gso ← on_sql (from_bytes l instance_id v);
  if decide (lvl = l) then mret gso else throw BadCast.

(** [make_unmatched] *)
Definition make_unmatched (T : ty) (v : list byte) (size id name : Z) : RT phase_world sql_handle :=
  bytes ← defined (if size <=? Z.of_nat (length v) then Some (take (Z.to_nat size) v) else None);
  p ← new_cell (Unmatched id bytes name);
  mret (SqlHandle T (Some (Ref p name)) (Some OpUnmatched)).

Definition matched_handle (dsm : manager) (T : ty) (v : list byte) : RT phase_world sql_handle :=
  gso ← object_from_bytes dsm v;
  p ← new_cell (Matched gso);
  mret (SqlHandle T (Some (Ref p (key gso))) (Some OpStore)).

(** The handle that was read takes as many bytes as there were. *)
Definition assert_size (h : sql_handle) (size : Z) : RT phase_world unit :=
  '(_, o) ← deref_ro h;
  sql_assert (handle_bytes_size (Some o) =? 1 + 3 * 8 + size + nonce_size).

(** The part of [Handle::from_bytes] behind the header *)
Definition read_object (dsm : manager) (T : ty) (size name : Z) (body : list byte)
    : RT phase_world sql_handle :=
  match inherit dsm with
  | Some group =>
      '(id, v) ← defined (read_id body);
      h ← (if has_class group id then matched_handle dsm T v else make_unmatched T v size id name);
      _ ← assert_size h size;
      mret h
  | None => _ ← sql_assert false; throw NoInheritManager
  end.

Definition handle_from_bytes (dsm : manager) (T : ty) (v : list byte) : RT phase_world sql_handle :=
  match v with
  | [] => throw OutOfRange
  | b :: v =>
      if decide (b = x00) then mret (SqlHandle T None None)
      else
        size ← defined (size_at 0 v);
        name ← defined (size_at 1 v);
        _ ← sql_assert (size <? 4092);
        _ ← sql_assert (is_nonce (drop (3 * 8 + Z.to_nat size) v));
        read_object dsm T size (to_long name) (drop (2 * 8) v)
  end.
End handles.

(** ** What a phase does with handles *)

(** The tracker, which works on the context of the phase: [Tracker.v] models it over
    stores of its own. *)
Class PhaseTracker : Type := {
  read_actions : sql_handle -> RT phase_world unit;
  accompany_write : Z -> Z -> RT phase_world unit;
  write_tombstone : Z -> RT phase_world unit;
  generate_tombstone : RT phase_world Z;
}.

Definition sql_remote `{Server} `{SqlBuild} `{Mutils} `{PhaseTracker} (l : Level) (instance_id : Z)
    : Remote := {|
  W := phase_world;
  rm_get := handle_get l : Handle -> _;
  rm_put := handle_put l;
  rm_isValid := handle_isValid;
  rm_act := handle_act l;
  rm_create_new := fun h x => h ← handle_create_new l instance_id h x; mret (VHandle (h : Handle));
  rm_nulled := nulled;
  rm_commit := phase_commit;
  rm_end := phase_end;
  trk_read_actions := read_actions;
  trk_accompanyWrite := accompany_write;
  trk_writeTombstone := write_tombstone;
  trk_generateTombstone := generate_tombstone |}.
