(* ===== verification/RemoteObjectsCorrect.v ===== *)
(** * Handles use one transaction, and travel

    The context of a phase has a transaction when and only when the connection of the
    store has one, so that an attempt at a phase is one transaction of the store; and
    a handle that is sent, also by a program that does not know its class, is read
    back as a handle to the same object. *)
From stdpp Require Import vector fin.
From Stdlib Require Import Strings.Byte.
From S2P Require Import Prelude Labels TypeLists TypedAst SplitAst PhaseApi Split Runtime Clocks Holders.
From S2P Require Import RunPhase RunPhaseCorrect SqlDb SqlStore GSqlObject SqlStoreCorrect.
From S2P Require Import GSqlCorrect SqlReads RemoteObjects.
From S2P Require Wire.

#[local] Open Scope Z_scope.

(** ** Memory *)

Lemma memory_round n z : of_memory (memory_of n z) = z mod 256 ^ Z.of_nat n.
Proof.
  revert z. induction n as [|n IH]; intros z; [by rewrite Z.mod_1_r|]. cbn [memory_of of_memory].
  rewrite IH, byte_round, Nat2Z.inj_succ, Z.pow_succ_r by lia. symmetry. apply Z.rem_mul_r; lia.
Qed.

Lemma memory_length n z : length (memory_of n z) = n.
Proof. revert z. induction n as [|n IH]; intros z; simpl; by rewrite ?IH. Qed.

Lemma size_at_0 z rest : size_at 0 (size_bytes z ++ rest) = Some (z mod 2 ^ 64).
Proof.
  unfold size_at, size_bytes. cbn [Nat.mul]. rewrite drop_0, take_app_length' by (symmetry; apply memory_length).
  rewrite memory_length. cbn [Nat.eqb]. by rewrite memory_round.
Qed.

Lemma size_at_1 y z rest : size_at 1 (size_bytes y ++ size_bytes z ++ rest) = Some (z mod 2 ^ 64).
Proof.
  rewrite <- (size_at_0 z rest). unfold size_at. cbn [Nat.mul Nat.add].
  rewrite drop_app_length' by (symmetry; apply memory_length). done.
Qed.

Lemma to_long_round z : in_long z = true -> to_long (z mod 2 ^ 64) = z.
Proof.
  unfold in_long, long_min, long_max, to_long. intros [Hl Hu]%andb_true_iff. apply Z.leb_le in Hl, Hu.
  destruct (decide (0 <= z)).
  - rewrite Z.mod_small by lia. rewrite (proj2 (Z.ltb_lt _ _)); lia.
  - rewrite <- (Z_mod_plus_full z 1), Z.mod_small by lia. rewrite (proj2 (Z.ltb_ge _ _)); lia.
Qed.

(** ** One transaction *)

(** The connection has a transaction, or none. *)
Definition has_trans (b : bool) (w : sql_world) : Prop :=
  if b then is_Some (trans w) else trans w = None /\ current_trans w = false.

Section store.
Context `{Server} `{SqlBuild}.

Lemma on_work_some {A} f w : has_trans true w -> has_trans true (@on_work _ A f w).2.
Proof.
  unfold on_work. simpl. destruct (trans w) as [[db t p| |]|] eqn:E; [|simpl; by rewrite E..].
  intros _. destruct (fault _); [done|]. by destruct (f db t p) as [[[??]?]|].
Qed.

Lemma sends_has_trans l : sends_keep l (has_trans true).
Proof.
  intros n q id args _ w Hw. unfold prepared. pose proof Hw as Hs. unfold has_trans in Hs.
  destruct (trans w) as [t|] eqn:E; [|done].
  destruct (prepared_names w !! _ : option bool) as [b|]; [|done].
  set (w' := if b then w else _). assert (has_trans true w') as Hw' by by destruct b.
  pose proof (on_work_some (fun db t path => match statements w' !! name_int n ≫=
    fun stmt => exec_query path stmt id args t db with
    | Some (r, db') => Some (r, db', path) | None => None end) w' Hw') as Hr.
  by destruct (catch_snd (run_statement (name_int n) id args) w') as [-> | ->].
Qed.

(** The assertions of [begin_transaction] hold when the connection has no transaction. *)
Lemma begin_context w : has_trans false w ->
  match sql_begin w with
  | (inl _, w') => has_trans true w'
  | (inr e, w') => e = SqlException /\ has_trans false w'
  end.
Proof.
  intros [Ht Hc]. unfold sql_begin, get_state, mbind, RT_bind, sql_assert, new_transaction.
  rewrite Ht, Hc. destruct sql_debug; simpl; rewrite Ht; destruct (fault _); by repeat split.
Qed.

(** What the other clients have made of the database; a transaction does not commit on
    its own when it is destroyed. *)
Definition by_others : relation Database := rtc (fun db db' => exists n, db' = others n db).

Definition only_others (db : Database) (w : sql_world) : Prop :=
  by_others db (committed w) /\ commit_on_delete w = false.

Lemma sends_only_others l db : sends_keep l (only_others db).
Proof.
  intros n q id args _ w [? ?]. destruct (prepared_committed n q id args w) as [He Hf].
  split; [by rewrite He|by apply Hf].
Qed.

Lemma begin_only_others db : keeps (only_others db) sql_begin.
Proof.
  unfold sql_begin. keeps. intros w [Hc Hd]. unfold new_transaction.
  destruct (trans w); [done|]. destruct (fault _); [done|]. split; [|done].
  eapply rtc_r; [exact Hc|]. by eexists.
Qed.
End store.

Section context.
Context `{Server} `{SqlBuild} `{Mutils}.
Context (l : Level) (inst : Z).

(** An invariant of the store that its commands and [begin_transaction] keep *)
Context (I : sql_world -> Prop) (Hsends : sends_keep l I) (Hbegin : keeps I sql_begin).
Context (clock_keeps : forall c w, I w -> I (set_clock c w)).

Definition context_ok (s : phase_world) : Prop := I (sql s) /\ has_trans (s_ctx s) (sql s).
(** The same, once [store_context] was called *)
Definition within (s : phase_world) : Prop := context_ok s /\ s_ctx s = true.

Definition both (w : sql_world) : Prop := I w /\ has_trans true w.

Lemma sends_both : sends_keep l both.
Proof. intros n q id args Hin w [? ?]. split; [by apply Hsends|by apply (sends_has_trans l n q)]. Qed.

Lemma clock_both c w : both w -> both (set_clock c w).
Proof. intros [? ?]. split; [by apply clock_keeps|done]. Qed.

Lemma within_both s : within s <-> both (sql s) /\ s_ctx s = true.
Proof. unfold within, context_ok, both. split; [intros [[? Ht] Hs]; by rewrite Hs in Ht|intros [[? ?] Hs]; by rewrite Hs]. Qed.

Lemma store_context_ok ds s : context_ok s ->
  match phase_context ds s with
  | (inl _, s') => within s' /\ objects s' = objects s /\ rands s' = rands s
  | (inr e, s') => context_ok s'
  end.
Proof.
  intros [HI Ht]. unfold phase_context, get_state, mbind, RT_bind.
  destruct (s_ctx s) eqn:Hs; [simpl; split; [apply within_both; by repeat split|done]|].
  destruct ds; [|unfold unmatched_use, sql_assert, mbind, RT_bind; destruct sql_debug; simpl;
    unfold context_ok; by rewrite Hs].
  unfold on_sql. pose proof (Hbegin _ HI) as HI'. pose proof (begin_context _ Ht) as Hb.
  destruct (sql_begin (sql s)) as [[u|e] w']; simpl in *.
  - split; [by apply within_both|done].
  - unfold context_ok. simpl. rewrite Hs. by destruct Hb.
Qed.

Lemma member_ok {A} r o (m : RT object_state A) : keeps (of_world both) m ->
  keeps within (member r o m).
Proof.
  intros Hm s [Hb Hs]%within_both. unfold member. destruct o as [gso|id bs n].
  - specialize (Hm (sql s, gso) Hb). destruct (m (sql s, gso)) as [a [w gso']]. simpl in *.
    by apply within_both.
  - unfold unmatched_use, sql_assert, mbind, RT_bind.
    destruct sql_debug; simpl; by apply within_both.
Qed.

(** A computation that starts with [store_context] *)
Lemma then_ok {A} ds (m : RT phase_world A) : keeps within m ->
  keeps context_ok (_ ← phase_context ds; m).
Proof.
  intros Hm s Hs. pose proof (store_context_ok ds s Hs) as Hc. unfold mbind, RT_bind.
  destruct (phase_context ds s) as [[u|e] s1]; [|done]. by apply Hm, Hc.
Qed.

Lemma deref_keeps {A} J h (k : ref * remote_object -> RT phase_world A) :
  (forall ro, keeps J (k ro)) -> keeps J (deref_ro h ≫= k).
Proof. intros Hk. apply keeps_bind; [|done]. unfold deref_ro. keeps. Qed.

Lemma in_context_ok {A} h (m : RT object_state A) : keeps (of_world both) m ->
  keeps context_ok (in_context h m).
Proof.
  intros Hm. unfold in_context. apply deref_keeps. intros [r o]. by apply then_ok, member_ok.
Qed.

Lemma new_ref_ok T name x : keeps within (new_ref l inst T name x).
Proof.
  unfold new_ref. apply keeps_bind; [|intros gso; by keeps].
  intros s [Hb Hs]%within_both. unfold on_sql.
  pose proof (newObject_keeps l both sends_both inst (object_codec T) (table_of T) name x (sql s) Hb) as Hk.
  destruct (newObject _ _ _ _ _ _ _) as [r w]. simpl in *. by apply within_both.
Qed.

Lemma create_new_ok h x : keeps context_ok (handle_create_new l inst h x).
Proof.
  unfold handle_create_new. apply deref_keeps. intros [r o]. apply then_ok.
  destruct o as [gso|id bs n].
  - apply keeps_bind; [by intros s|]. intros name. apply keeps_bind; [apply new_ref_ok|]. by keeps.
  - unfold unmatched_use. keeps.
Qed.

Lemma act_ok n h args : keeps context_ok (handle_act l n h args).
Proof.
  unfold handle_act. destruct (supports _ _); [|by keeps]. apply keeps_bind; [|by keeps].
  unfold op_act. destruct (op h) as [[|]|]; [..|by keeps]; apply then_ok.
  - apply keeps_bind; [keeps|]. intros r. apply keeps_bind; [keeps|]. intros s.
    apply keeps_bind; [keeps|]. intros o. apply member_ok.
    unfold operation_increment, operation_insert.
    pose proof (gso_increment_keeps l both sends_both). keeps.
  - unfold unmatched_use. keeps.
Qed.

(** The tracker does to the context what its handles do. *)
Class TrackerLaws `{PhaseTracker} : Prop := {
  read_actions_ok h : keeps context_ok (read_actions h);
  accompany_write_ok n m : keeps context_ok (accompany_write n m);
  write_tombstone_ok n : keeps context_ok (write_tombstone n);
  generate_tombstone_ok : keeps context_ok generate_tombstone;
}.

#[export] Instance sql_calls_keep `{TrackerLaws} :
  calls_keep (H0 := sql_remote l inst) context_ok.
Proof.
  split; intros *; try (apply read_actions_ok || apply accompany_write_ok
    || apply write_tombstone_ok || apply generate_tombstone_ok).
  - apply in_context_ok, (get_keeps l both sends_both clock_both).
  - apply in_context_ok, (put_keeps l both sends_both).
  - unfold rm_isValid. simpl. unfold handle_isValid. destruct (_ro h); [|by keeps].
    apply in_context_ok, (isValid_keeps l both sends_both).
  - apply act_ok.
  - apply keeps_bind; [apply create_new_ok|]. by keeps.
Qed.
End context.

(** ** A phase is a transaction *)

(** Between phases there is no transaction. *)
Definition idle (s : phase_world) : Prop :=
  s_ctx s = false /\ has_trans false (sql s) /\ commit_on_delete (sql s) = false.

(** What a commit of the phase makes the database *)
Definition phase_image (s : phase_world) : Database :=
  match s_ctx s, trans (sql s) with
  | true, Some (Open image _ _) => image
  | _, _ => committed (sql s)
  end.

Section phases.
Context `{Server} `{SqlBuild} `{Mutils} `{PhaseTracker}.
Context (l : Level) (inst : Z).
Context `{UserLabels} `{TypeLists}.
#[local] Abbreviation context_in db := (context_ok (only_others db)).
#[local] Instance remote : Remote := sql_remote l inst.

Lemma idle_context db s : idle s -> by_others db (committed (sql s)) -> context_in db s.
Proof. intros (Hs & Ht & Hc) Hd. unfold context_ok. by rewrite Hs. Qed.

Lemma commit_result db s : context_in db s ->
  match phase_commit s with
  | (inl _, s') => committed (sql s') = phase_image s
  | (inr e, s') => by_others db (committed (sql s')) \/
      e = SqlException /\ commit_in_doubt (requests (sql s)) = true /\ committed (sql s') = phase_image s
  end /\ s_ctx (phase_commit s).2 = s_ctx s /\ commit_on_delete (sql (phase_commit s).2) = false /\
  (s_ctx s = false -> (phase_commit s).2 = s).
Proof.
  intros [[Hd Hc] Ht]. unfold phase_commit, phase_image, on_sql, get_state, mbind, RT_bind.
  destruct (s_ctx s) eqn:Hs; [|done]. unfold sql_commit. simpl.
  destruct (trans (sql s)) as [[image t p| |]|] eqn:E; simpl;
    [destruct (fault _); [destruct (commit_in_doubt _) eqn:Hdoubt|]|destruct (commit_closed _)..|];
    (split; [|done]); first [done|by left|by right].
Qed.

Lemma end_result s : (s_ctx s = false -> has_trans false (sql s)) -> commit_on_delete (sql s) = false ->
  idle (phase_end s) /\ committed (sql (phase_end s)) = committed (sql s).
Proof.
  intros Ht Hc. unfold phase_end. destruct (s_ctx s) eqn:Hs.
  - unfold on_sql, sql_destroy, get_state, mbind, RT_bind. rewrite Hc. done.
  - split; [|done]. split; [done|]. by split; [apply Ht|].
Qed.

(** An attempt whose statements have run to the end [s1], and whose commit the server has
    made although its answer was lost *)
Definition answer_lost (p : phase) (fuel : nat) (tracked : bool) (s0 : run_state) (e : stop) (db' : Database)
    : Prop :=
  e = Throws SqlException /\ exists v s1,
    run_stmt tracked fuel (ph_ast p) (phase_start s0) =
      (match v with Some x => inr (Returned x) | None => inl tt end, s1) /\
    commit_in_doubt (requests (sql (st_world s1))) = true /\ db' = phase_image (st_world s1).

(** How an attempt at a phase ends *)
Definition attempt_result (p : phase) (fuel : nat) (tracked : bool) (db : Database) (s : run_state)
    (r : option value + stop) (s' : run_state) : Prop :=
  idle (st_world s') /\
  match r with
  | inl v => exists s1,
      run_stmt tracked fuel (ph_ast p) (phase_start s) =
        (match v with Some x => inr (Returned x) | None => inl tt end, s1) /\
      by_others db (committed (sql (st_world s1))) /\
      committed (sql (st_world s')) = phase_image (st_world s1) /\ st_store s' = st_store s1
  | inr e => (by_others db (committed (sql (st_world s'))) \/
        answer_lost p fuel tracked s e (committed (sql (st_world s')))) /\
      st_store s' = st_store s
  end.

Context (tracker_ok : forall db, TrackerLaws (only_others db)).

Lemma calls_kept db : calls_keep (H0 := remote) (context_in db).
Proof.
  pose proof (tracker_ok db). apply sql_calls_keep; [apply sends_only_others|apply begin_only_others| |done].
  by intros c w [? ?].
Qed.

Lemma attempt_is_transaction p fuel tracked db s r s' :
  idle (st_world s) -> by_others db (committed (sql (st_world s))) ->
  common_interp_loop fuel tracked p s = (r, s') -> attempt_result p fuel tracked db s r s'.
Proof.
  intros Hi Hd. unfold common_interp_loop. destruct (run_phase1 fuel tracked p s) as [r1 s1] eqn:Hr.
  intros [= -> <-].
  destruct (phase1_world (H0 := remote) (context_in db) (calls_keep0 := calls_kept db) _ _ _ _ _ _ Hr
    (idle_context db _ Hi Hd)) as (s2 & Hc2 & Hend).
  pose proof (commit_result db (st_world s2) Hc2) as (Hcm & Hsc & Hdel & Hno).
  assert (forall w, w = st_world s2 \/ w = (phase_commit (st_world s2)).2 ->
    idle (phase_end w) /\ committed (sql (phase_end w)) = committed (sql w)) as Hfin.
  { destruct Hc2 as [[_ Hdel2] Ht]. intros w [-> | ->]; apply end_result; try done.
    - intros Hs. by rewrite Hs in Ht.
    - intros Hs. rewrite Hsc in Hs. rewrite (Hno Hs). by rewrite Hs in Ht. }
  destruct r as [v|e].
  - destruct Hend as [Hrun Hcommit]. change (phase_commit (st_world s2) = (inl tt, st_world s1)) in Hcommit.
    rewrite Hcommit in Hcm, Hfin. destruct (Hfin (st_world s1)) as [Hidle He]; [by right|].
    split; [done|]. exists s2. split; [done|]. split; [apply Hc2|].
    split; [exact (eq_trans He Hcm)|].
    apply phase1_commits in Hr as (s3 & w & _ & _ & Hst & Hrun').
    unfold phase_start in Hrun. rewrite Hrun in Hrun'. injection Hrun' as ->. exact Hst.
  - apply phase1_store in Hr.
    assert (forall w, st_world (end_phase w) = phase_end (st_world w)) as Hworld by done.
    destruct Hend as [Hw|(v & e' & -> & Hrun & Hcommit)].
    + destruct (Hfin (st_world s1)) as [Hidle He]; [left; congruence|].
      split; [done|]. split; [|done]. left. rewrite Hworld, He, Hw. apply Hc2.
    + change (phase_commit (st_world s2) = (inr e', st_world s1)) in Hcommit.
      rewrite Hcommit in Hcm, Hfin. destruct (Hfin (st_world s1)) as [Hidle He]; [by right|].
      split; [done|]. split; [|done]. rewrite Hworld, He. destruct Hcm as [?|(-> & Hdoubt & Hcm)]; [by left|].
      right. split; [done|]. by exists v, s2.
Qed.

Lemma attempts_are_transactions p fuel n tracked can_abort db s r s' :
  idle (st_world s) -> by_others db (committed (sql (st_world s))) ->
  common_interp_fuel fuel n tracked can_abort p s = (r, s') ->
  exists s0, idle (st_world s0) /\ st_store s0 = st_store s /\
    by_others db (committed (sql (st_world s0))) /\ attempt_result p fuel tracked db s0 r s'.
Proof.
  revert s. induction n as [|n IH]; intros s Hi Hd; cbn [common_interp_fuel].
  - intros [= <- <-]. exists s. split_and!; try done. split; [done|]. split; [by left|done].
  - destruct (common_interp_loop fuel tracked p s) as [r1 s1] eqn:Hl.
    pose proof (attempt_is_transaction _ _ _ db _ _ _ Hi Hd Hl) as Ha.
    destruct r1 as [v|e]; [intros [= <- <-]; by exists s|].
    destruct (is_serialization_failure e && negb can_abort) eqn:Hagain; [|intros [= <- <-]; by exists s].
    intros Hn. destruct Ha as (Hi1 & [Hd1|[-> _]] & Hs1); [|done].
    destruct (IH s1 Hi1 Hd1 Hn) as (s0 & ? & Hs0 & ? & ?). exists s0. by rewrite Hs0.
Qed.

(** C12: A phase over an SQL store is one transaction of it, whatever the phase does with
    its handles and however often it is tried, if the calls of the tracker are calls of
    the store like those of handles ([tracker_ok]).  It ends with no transaction open.
    When it returns, the statements of the phase have run once, from the store of holders
    the phase began with, and the database is the image that run has left in its
    transaction.  When it stops the holders are as they were, and the database is what the
    other clients have made of it, with one exception: when the server commits and its
    answer is lost, the phase stops with [SqlException], is not tried again, and the
    database is the image of its last run. *)
Theorem phase_is_transaction p fuel s r s' :
  idle (st_world s) -> common_interp fuel p s = (r, s') ->
  idle (st_world s') /\
  match r with
  | inl v => exists tracked s0 s1, st_store s0 = st_store s /\
      idle (st_world s0) /\ by_others (committed (sql (st_world s))) (committed (sql (st_world s0))) /\
      run_stmt tracked fuel (ph_ast p) (phase_start s0) =
        (match v with Some x => inr (Returned x) | None => inl tt end, s1) /\
      committed (sql (st_world s')) = phase_image (st_world s1) /\ st_store s' = st_store s1
  | inr e => st_store s' = st_store s /\
      (by_others (committed (sql (st_world s))) (committed (sql (st_world s'))) \/
       exists tracked s0, st_store s0 = st_store s /\ idle (st_world s0) /\
         by_others (committed (sql (st_world s))) (committed (sql (st_world s0))) /\
         answer_lost p fuel tracked s0 e (committed (sql (st_world s'))))
  end.
Proof.
  intros Hi. unfold common_interp. destruct (traits_of (ph_label p)) as [tr|e].
  - intros Hr. destruct (attempts_are_transactions _ _ _ _ _ _ _ _ _ Hi (rtc_refl _ _) Hr)
      as (s0 & Hi0 & Hs0 & Hd0 & Hi' & Hres).
    split; [done|]. destruct r as [v|e].
    + destruct Hres as (s1 & Hrun & _ & Hc & Hst). by exists (run_remotely tr), s0, s1.
    + rewrite <- Hs0. destruct Hres as [[?|?] ?]; (split; [done|]); [by left|right].
      by exists (run_remotely tr), s0.
  - intros [= <- <-]. split; [done|]. split; [done|]. left. apply rtc_refl.
Qed.
End phases.
