(* ===== verification/HandleBytes.v ===== *)
(** * Handles that travel, and what is read through them

    A handle that is sent is read back as a handle to the same object, also when it was
    passed on by a program that does not know its class; a program like that can
    only name it and send it on.  What is put through one handle in a strong store is got
    through every handle of the object. *)
From stdpp Require Import vector fin.
From Stdlib Require Import Strings.Byte.
From S2P Require Import Prelude Labels TypedAst Runtime Clocks Holders RunPhase SqlDb SqlStore GSqlObject.
From S2P Require Import SqlStoreCorrect GSqlCorrect SqlReads RemoteObjects RemoteObjectsCorrect.
From S2P Require Wire.

#[local] Open Scope Z_scope.

Section travel.
Context `{Server} `{SqlBuild} `{MutilsLaws}.
Context (l : Level) (inst : Z).

Lemma sql_assert_ok {S} b (s : S) : b = true -> sql_assert b s = (inl tt, s).
Proof. intros ->. unfold sql_assert. by destruct sql_debug. Qed.

(** A handle to the object [o] *)
Definition points_to (s : phase_world) (h : sql_handle) (o : remote_object) : Prop :=
  exists r, _ro h = Some r /\ objects s !! addr r = Some o.

Lemma deref_run s h r o : _ro h = Some r -> objects s !! addr r = Some o -> deref_ro h s = (inl (r, o), s).
Proof.
  intros Hr Ho. unfold deref_ro, get_state, mbind, RT_bind. rewrite Hr, sql_assert_ok by done. simpl.
  by rewrite Ho.
Qed.

(** What [to_bytes] writes for an object with the id, the bytes and the name *)
Definition handle_bytes (id : Z) (bs : list byte) (name : Z) : list byte :=
  with_nonce (write_header (Z.of_nat (length bs)) name ++ write_id id ++ bs).

Lemma with_nonce_length bs : Z.of_nat (length (with_nonce bs)) = Z.of_nat (length bs) + nonce_size.
Proof. unfold with_nonce, nonce_size. destruct sql_debug; rewrite ?length_app; lia. Qed.

Lemma handle_bytes_length id bs name :
  Z.of_nat (length (handle_bytes id bs name)) = 1 + 3 * 8 + Z.of_nat (length bs) + nonce_size.
Proof.
  unfold handle_bytes. rewrite with_nonce_length, header_ok, !length_app, length_cons, length_app.
  unfold size_bytes. rewrite !memory_length, id_length. lia.
Qed.

Lemma ro_size o : ro_bytes_size o = Z.of_nat (length (ro_to_bytes o)).
Proof. by destruct o. Qed.

Lemma to_bytes_run s h r o : _ro h = Some r -> objects s !! addr r = Some o ->
  handle_to_bytes l h s = (inl (handle_bytes (serial_uuid l o) (ro_to_bytes o) (ref_name r)), s).
Proof.
  intros Hr Ho. unfold handle_to_bytes. rewrite Hr. unfold mbind, RT_bind.
  rewrite (deref_run s h r o) by done. rewrite ro_size. fold (handle_bytes (serial_uuid l o) (ro_to_bytes o) (ref_name r)).
  rewrite sql_assert_ok; [done|]. apply Z.eqb_eq. rewrite handle_bytes_length. unfold handle_bytes_size.
  rewrite id_length, ro_size. lia.
Qed.

(** *** Reading *)

Definition unmatched (s : phase_world) (h : sql_handle) (id : Z) (bs : list byte) : Prop :=
  exists r, _ro h = Some r /\ objects s !! addr r = Some (Unmatched id bs (ref_name r)) /\
    op h = Some OpUnmatched.

(** What [from_bytes] gets to behind the header *)
Lemma from_bytes_header dsm T id bs name rest s : in_long name = true -> Z.of_nat (length bs) < 4092 ->
  handle_from_bytes l inst dsm T (handle_bytes id bs name ++ rest) s =
  read_object l inst dsm T (Z.of_nat (length bs)) name
    (write_id id ++ bs ++ (if sql_debug then nonce else []) ++ rest) s.
Proof.
  intros Hn Hl. set (tail := (if sql_debug then nonce else []) ++ rest).
  assert (handle_bytes id bs name ++ rest = x01 :: size_bytes (Z.of_nat (length bs)) ++ size_bytes name ++
    write_id id ++ bs ++ tail) as ->.
  { unfold handle_bytes, with_nonce, tail. rewrite header_ok.
    destruct sql_debug; rewrite <- ?app_comm_cons, <- ?app_assoc; done. }
  unfold handle_from_bytes. rewrite decide_False by done. unfold mbind, RT_bind.
  rewrite size_at_0, size_at_1. cbn [defined]. unfold mret, RT_ret.
  rewrite Z.mod_small by lia. rewrite sql_assert_ok by (apply Z.ltb_lt; lia).
  assert (drop (2 * 8) (size_bytes (Z.of_nat (length bs)) ++ size_bytes name ++ write_id id ++ bs ++ tail) =
    write_id id ++ bs ++ tail) as Hd.
  { rewrite app_assoc. apply drop_app_length'. rewrite length_app. unfold size_bytes. by rewrite !memory_length. }
  assert (sql_assert (is_nonce (drop (3 * 8 + Z.to_nat (Z.of_nat (length bs)))
    (size_bytes (Z.of_nat (length bs)) ++ size_bytes name ++ write_id id ++ bs ++ tail))) s = (inl tt, s)) as ->.
  { unfold sql_assert. destruct sql_debug eqn:Hdb; [|done].
    replace (3 * 8 + Z.to_nat (Z.of_nat (length bs)))%nat with (2 * 8 + (8 + length bs))%nat by lia.
    rewrite <- drop_drop, Hd. rewrite app_assoc, drop_app_length' by (rewrite length_app, id_length; lia).
    unfold tail. try rewrite Hdb. by rewrite nonce_ok. }
  by rewrite Hd, to_long_round.
Qed.

(** A program without the class keeps the bytes. *)
Lemma read_unmatched dsm T id bs name rest s group :
  inherit dsm = Some group -> has_class l group id = false ->
  0 <= id < 2 ^ 64 -> in_long name = true -> Z.of_nat (length bs) < 4092 ->
  handle_from_bytes l inst dsm T (handle_bytes id bs name ++ rest) s =
    (inl (SqlHandle T (Some (Ref (length (objects s)) name)) (Some OpUnmatched)),
     PhaseWorld (sql s) (s_ctx s) (objects s ++ [Unmatched id bs name]) (rands s)).
Proof.
  intros Hg Hc Hid Hn Hl. rewrite from_bytes_header by done. unfold read_object. rewrite Hg.
  unfold mbind, RT_bind. rewrite id_ok by done. cbn [defined]. unfold mret, RT_ret. rewrite Hc.
  unfold make_unmatched, mbind, RT_bind. rewrite (proj2 (Z.leb_le _ _)) by (rewrite length_app; lia).
  rewrite Nat2Z.id, take_app_length. simpl. unfold assert_size, mbind, RT_bind.
  rewrite (deref_run _ _ (Ref (length (objects s)) name) (Unmatched id bs name)); [|done|].
  - rewrite sql_assert_ok; [done|]. apply Z.eqb_eq. unfold handle_bytes_size. simpl.
    rewrite id_length. lia.
  - simpl. by rewrite lookup_app_r, Nat.sub_diag.
Qed.

(** The manager has the store, and its class. *)
Definition knows (dsm : manager) : Prop :=
  causal_store dsm = true /\ strong_store dsm = true /\
  exists group, inherit dsm = Some group /\ l ∈ group.

Definition sendable_object (o : GSQLObject) : Prop :=
  level o = l /\ (0 <= size o <= int_max \/ size o = 2 ^ 64 - 1) /\ in_int (key o) = true /\
  in_int (store_id o) = true.

(** What an object is when it was sent *)
Definition received (o o' : GSQLObject) : Prop :=
  table o' = table o /\ key o' = key o /\ size o' = size o /\ vers o' = -1 /\
  causal_vers o' = [# -1; -1; -1; -1] /\ (size o <= int_max -> buffer_ok o').

Lemma in_int_long z : in_int z = true -> in_long z = true.
Proof.
  unfold in_int, in_long, int_min, int_max, long_min, long_max.
  intros [Hl Hu]%andb_true_iff. apply Z.leb_le in Hl, Hu. apply andb_true_iff; split; apply Z.leb_le; lia.
Qed.

Lemma uuid_range l' : 0 <= sqlobject_inherit_id l' < 2 ^ 64.
Proof. destruct l'; vm_compute; done. Qed.

Lemma read_matched dsm T o name rest s : knows dsm -> sendable_object o -> in_long name = true ->
  exists o', received o o' /\
  handle_from_bytes l inst dsm T (handle_bytes (sqlobject_inherit_id l) (to_bytes o) name ++ rest) s =
    (inl (SqlHandle T (Some (Ref (length (objects s)) (key o))) (Some OpStore)),
     PhaseWorld (sql s) (s_ctx s) (objects s ++ [Matched o']) (rands s)).
Proof.
  intros (Hcs & Hss & group & Hg & Hin) (Hlv & Hsz & Hk & Hst) Hn.
  set (tail := (if sql_debug then nonce else []) ++ rest).
  destruct (object_sent_is_read_back l inst o tail (sql s) (sql s) Hsz Hst)
    as (_ & o' & Hread & Ht & Hs & _ & Hk' & Hv & Hcv & _ & Hb).
  destruct (object_sent_is_read_back l inst o tail (sql s) s Hsz Hst) as (Hhelp & _).
  exists o'. split; [repeat split; try done; try (by apply Hk'); by apply Hb|].
  rewrite from_bytes_header by done. fold tail. unfold read_object. rewrite Hg. unfold mbind, RT_bind.
  rewrite id_ok by apply uuid_range. cbn [defined]. unfold mret, RT_ret.
  assert (has_class l group (sqlobject_inherit_id l) = true) as ->.
  { unfold has_class. by rewrite bool_decide_true, Z.eqb_refl. }
  unfold matched_handle, object_from_bytes, mbind, RT_bind. rewrite Hcs, Hss, Hhelp.
  unfold on_sql. rewrite Hread, decide_True by done. simpl. rewrite (Hk' Hk).
  unfold assert_size, mbind, RT_bind.
  rewrite (deref_run _ _ (Ref (length (objects s)) (key o)) (Matched o')); [|done|].
  - rewrite sql_assert_ok; [done|]. apply Z.eqb_eq. unfold handle_bytes_size. simpl.
    rewrite id_length. unfold bytes_size. lia.
  - simpl. by rewrite lookup_app_r, Nat.sub_diag.
Qed.

(** Programs that do not know the class pass a handle on, one after the other. *)
Inductive passed_on (T : ty) : list byte -> list byte -> Prop :=
| passed_0 bs : passed_on T bs bs
| passed_S bs dsm s h s1 bs1 s2 bs2 group :
    inherit dsm = Some group -> l ∉ group ->
    handle_from_bytes l inst dsm T bs s = (inl h, s1) -> handle_to_bytes l h s1 = (inl bs1, s2) ->
    passed_on T bs1 bs2 -> passed_on T bs bs2.

Lemma passed_on_same T id o name bs : 0 <= id < 2 ^ 64 -> in_long name = true ->
  Z.of_nat (length o) < 4092 -> passed_on T (handle_bytes id o name) bs -> bs = handle_bytes id o name.
Proof.
  intros Hid Hn Hl. remember (handle_bytes id o name) as bs0 eqn:Hbs. induction 1
    as [bs|bs dsm s h s1 bs1 s2 bs2 group Hg Hc Hread Hwrite _ IH]; [done|]. subst bs.
  rewrite <- (app_nil_r (handle_bytes id o name)) in Hread.
  rewrite (read_unmatched dsm T id o name [] s group) in Hread; [|done| |done..].
  2: { unfold has_class. by rewrite bool_decide_false. }
  injection Hread as <- <-. rewrite (to_bytes_run _ _ (Ref (length (objects s)) name) (Unmatched id o name)) in Hwrite;
    [|done|simpl; by rewrite lookup_app_r, Nat.sub_diag]. injection Hwrite as <- <-. by apply IH.
Qed.

(** C14: A handle travels.  The bytes a handle to an object of the store is sent as are
    those it has after any number of programs without the class of the object have read
    it and sent it on; and a program that has the class and the stores ([knows]) reads them
    as a handle of the same name, with the operations of the store, to a new object with
    the table, the key and the size of the one that was sent, which has not fetched
    anything yet.  Neither touches the store, its transaction, or another object.  The
    object is [sendable_object]: its key, its size and its store id fit an [int], as its
    bytes have them, and the handle has the name of its key. *)
Theorem handle_travels T h r o s bs dsm s2 rest :
  _ro h = Some r -> objects s !! addr r = Some (Matched o) -> ref_name r = key o ->
  sendable_object o -> knows dsm ->
  exists bs0, handle_to_bytes l h s = (inl bs0, s) /\
  (passed_on T bs0 bs -> bs = bs0 /\
    exists o', received o o' /\
      handle_from_bytes l inst dsm T (bs ++ rest) s2 =
      (inl (SqlHandle T (Some (Ref (length (objects s2)) (ref_name r))) (Some OpStore)),
       PhaseWorld (sql s2) (s_ctx s2) (objects s2 ++ [Matched o']) (rands s2))).
Proof.
  intros Hr Ho Hn Hsend Hknows. pose proof Hsend as (Hlv & Hsz & Hk & Hst).
  eexists. split; [by apply (to_bytes_run s h r (Matched o))|]. simpl. intros Hp.
  apply passed_on_same in Hp as ->; [|apply uuid_range|rewrite Hn; by apply in_int_long|done].
  split; [done|]. rewrite Hn. apply read_matched; [done..|by apply in_int_long].
Qed.

(** ** Handles that cannot be used *)

(** How an unmatched member ends *)
Definition unmatched_error : exn := if sql_debug then AssertFailed else UnmatchedUse.

Lemma unmatched_use_run {A} s : unmatched_use (A := A) s = (inr unmatched_error, s).
Proof. unfold unmatched_use, unmatched_error, sql_assert, mbind, RT_bind. by destruct sql_debug. Qed.

Lemma in_unmatched {A} s h id bs (m : RT object_state A) : unmatched s h id bs ->
  in_context h m s = (inr unmatched_error, s).
Proof.
  intros (r & Hr & Ho & _). unfold in_context, mbind, RT_bind. rewrite (deref_run s h r _ Hr Ho).
  unfold phase_context, get_state, mbind, RT_bind. simpl.
  destruct (s_ctx s); [simpl|]; by rewrite unmatched_use_run.
Qed.

(** C15: A handle whose class is not known can be named and sent on, as the bytes it came
    as.  Its get, put, isValid, create_new and timestamp and the operations it has stop, at
    an assertion or with [UnmatchedUseException], begin no transaction, and leave
    everything as it was.  A null handle is not valid and is sent as one byte, without a
    transaction; its get, put, create_new, timestamp and name stop, and leave everything
    as it was; but an operation of a handle that was nulled begins the transaction of the
    phase, if that can begin and is not open, and stops after that. *)
Theorem unusable_handles s h id bs x name args :
  (unmatched s h id bs -> supports (stored_type h) name = true ->
    (exists n, handle_name_of h s = (inl n, s) /\ handle_to_bytes l h s = (inl (handle_bytes id bs n), s)) /\
    handle_get l h s = (inr unmatched_error, s) /\ handle_put l h x s = (inr unmatched_error, s) /\
    handle_isValid h s = (inr unmatched_error, s) /\ handle_act l name h args s = (inr unmatched_error, s) /\
    handle_create_new l inst h x s = (inr unmatched_error, s) /\ timestamp h s = (inr unmatched_error, s)) /\
  (let null := if sql_debug then AssertFailed else OutOfRange in
    handle_isValid (nulled h) s = (inl false, s) /\
    handle_to_bytes l (nulled h) s = (inl (with_nonce [x00]), s) /\
    handle_get l (nulled h) s = (inr null, s) /\ handle_put l (nulled h) x s = (inr null, s) /\
    handle_create_new l inst (nulled h) x s = (inr null, s) /\ timestamp (nulled h) s = (inr null, s) /\
    handle_name_of (nulled h) s = (inr null, s) /\
    (op h = Some OpStore -> supports (stored_type h) name = true ->
      handle_act l name (nulled h) args s =
        let (begun, s') := phase_context OpStore s in
        (match begun with inl _ => inr OutOfRange | inr e => inr e end, s'))).
Proof.
  split.
  - intros Hu Hs. pose proof Hu as (r & Hr & Ho & Hop).
    split. { exists (ref_name r). split; [|by apply (to_bytes_run s h r (Unmatched id bs (ref_name r)))].
      unfold handle_name_of, mbind, RT_bind. by rewrite (deref_run s h r _ Hr Ho). }
    split; [by apply (in_unmatched s h id bs)|]. split; [by apply (in_unmatched s h id bs)|].
    split; [unfold handle_isValid; rewrite Hr; by apply (in_unmatched s h id bs)|].
    unfold handle_act, handle_create_new, timestamp, mbind, RT_bind.
    rewrite (deref_run s h r _ Hr Ho), Hs, unmatched_use_run. unfold op_act. rewrite Hop.
    unfold phase_context, get_state, mbind, RT_bind. simpl.
    destruct (s_ctx s); simpl; by rewrite !unmatched_use_run.
  - repeat split; try by (unfold handle_get, handle_put, handle_create_new, timestamp, handle_name_of,
      in_context, deref_ro, sql_assert, mbind, RT_bind; simpl; destruct sql_debug).
    intros Hop Hs. unfold handle_act, op_act. simpl. rewrite Hs, Hop. unfold mbind, RT_bind.
    by destruct (phase_context OpStore s) as [[[]|e] s'].
Qed.
End travel.

(** ** Reading through handles *)

Section shared.
Context `{Server} `{SqlBuild} `{Mutils}.
Hypothesis quiet : forall n, fault n = None.




End shared.
