(* ===== verification/HandleExamples.v ===== *)
(** * Phases over an SQL store

    The run of [test_handle_serialization.cpp] on concrete tables: a handle that is read
    back shares the row of the handle it was made from; and the theorems on handles and
    on phases over a store at concrete inputs. *)
From stdpp Require Import vector fin.
From Stdlib Require Import Strings.Byte.
From S2P Require Import Prelude Labels TypedAst SplitAst PhaseApi Split Runtime Clocks Holders RunPhase.
From S2P Require Import SqlDb SqlStore GSqlObject SqlStoreCorrect GSqlCorrect SqlExamples SqlReads.
From S2P Require Import RemoteObjects RemoteObjectsCorrect HandleBytes.
From S2P Require Wire.

#[local] Open Scope Z_scope.

#[local] Instance server : Server := quiet_server.
#[local] Instance debug_build : SqlBuild := example_build 1 true.

(** Integers are four bytes. *)
Definition int_value_codec : Wire.codec value := Wire.Codec _
  (fun v => match v with VInt z => int_bytes z | _ => [] end)
  (fun bs => if (4 <=? length bs)%nat then Some (VInt (int_of_bytes (take 4 bs)), drop 4 bs) else None).



#[local] Instance mutils : Mutils := {|
  write_header := fun size name => x01 :: size_bytes size ++ size_bytes name;
  write_id := size_bytes;
  read_id := fun bs => z ← size_at 0 bs; Some (z, drop 8 bs);
  nonce := [x6e; x6f];
  is_nonce := fun bs => bool_decide (take 2 bs = [x6e; x6f]);
  is_set := fun _ => false;
  int_rand := fun n => 1000 + Z.of_nat n;
  object_codec := fun _ => int_value_codec |}.

#[local] Instance mutils_laws : MutilsLaws.
Proof.
  split.
  - done.
  - intros id. apply memory_length.
  - intros id rest Hid. cbn [read_id mutils write_id]. rewrite size_at_0, Z.mod_small by done.
    cbn [mbind option_bind]. by rewrite drop_app_length' by (symmetry; apply memory_length).
  - intros rest. by apply bool_decide_eq_true.
Qed.

(** A tracker with nothing to track *)
#[local] Instance tracker : PhaseTracker := {|
  read_actions := fun _ => mret tt; accompany_write := fun _ _ => mret tt;
  write_tombstone := fun _ => mret tt; generate_tombstone := mret 0 |}.

#[local] Instance tracker_laws I : TrackerLaws I.
Proof. split; intros; by keeps. Qed.

(** ** The store and its handles *)

(** The strong store with the row of the integer 8, which is 5 *)
Definition world0 : phase_world :=
  PhaseWorld (opened Strong (strong_db (int_bytes 6) 3)) false
    [Matched (existing_object Strong 1 IntStore 8); Matched (existing_object Strong 1 BlobStore 7);
     Matched (existing_object Strong 1 BlobStore 7)] 0.

Definition hndl : sql_handle := SqlHandle TInt (Some (Ref 0 8)) (Some OpStore).

Definition both_stores : manager := Manager true true (Some [Causal; Strong]).
(** [degenerate] knows the class of the causal store alone. *)
Definition degenerate : manager := Manager true true (Some [Causal]).

Definition value_of {A} (r : (A + exn) * phase_world) : option A :=
  match r.1 with inl a => Some a | inr _ => None end.

(** [buf], and [dgnbuf] *)
Definition buf : list byte := default [] (value_of (handle_to_bytes Strong hndl world0)).
Definition degenerate_read : (sql_handle + exn) * phase_world :=
  handle_from_bytes Strong 1 degenerate TInt buf world0.
Definition dgnbuf : list byte :=
  default [] (value_of (handle_to_bytes Strong (default hndl (value_of degenerate_read)) degenerate_read.2)).
Definition rhndl_read : (sql_handle + exn) * phase_world :=
  handle_from_bytes Strong 1 both_stores TInt dgnbuf degenerate_read.2.
Definition rhndl : sql_handle := default hndl (value_of rhndl_read).

#[local] Instance store_remote : Remote := sql_remote Strong 1.

(** [return ( *hndl ) + ( *rhndl )], after an increment through [hndl] *)
Definition handle_ty : ty := THandle strong TInt.
Definition bind_remote (x h : string) (body : pstmt) : pstmt :=
  PLetRemote (PBinding strong handle_ty x (PEVar handle_ty h)) body.
Definition sum_phase (before : list pstmt) : phase :=
  Phase strong TInt (PSequence (before ++
    [bind_remote "x" "hndl" (bind_remote "y" "rhndl"
      (PReturn (PEBinOp TInt "+" (PEVar TInt "x") (PEVar TInt "y"))))]))
    [] [] [] [].

Definition sum_store : store :=
  Store {[ "hndl" := HValue (Some (VHandle (hndl : Handle))); "rhndl" := HValue (Some (VHandle (rhndl : Handle)));
           "x" := HRemote handle_ty [] (-1); "y" := HRemote handle_ty [] (-1) ]} [(handle_ty, ∅)].
Definition sum_start : run_state := RunState sum_store [] rhndl_read.2.

(** ** The theorems apply *)

Definition increment_phase : phase := sum_phase [POperation "increment" (PEVar handle_ty "hndl") []].

(** Both handles read 6, which is what the commit makes the row. *)
Lemma phase_is_transaction_witness : exists s',
  common_interp 5 increment_phase sum_start = (inl (Some (VInt 12)), s') /\ idle (st_world s') /\
  committed (sql (st_world s')) = MkDatabase (strong_blobs (strong_db (int_bytes 6) 3))
    [StrongRow 0 8 0 (DInt 6)] [] [].
Proof.
  destruct (common_interp 5 increment_phase sum_start) as [r s'] eqn:Hr. exists s'.
  destruct (phase_is_transaction Strong 1 (fun db => tracker_laws (only_others db)) increment_phase 5
    sum_start r s') as [Hidle _].
  - repeat split.
  - exact Hr.
  - assert (r = (common_interp 5 increment_phase sum_start).1) as -> by (rewrite Hr; reflexivity).
    assert (s' = (common_interp 5 increment_phase sum_start).2) as -> by (rewrite Hr; reflexivity).
    split; [rewrite Hr; apply (f_equal2 pair); [vm_compute; reflexivity|reflexivity]|].
    split; [exact Hidle|vm_compute; reflexivity].
Defined.

Lemma handle_travels_witness : exists bs0, handle_to_bytes Strong hndl world0 = (inl bs0, world0) /\
  dgnbuf = bs0 /\
  exists o', received (existing_object Strong 1 IntStore 8) o' /\
    handle_from_bytes Strong 1 both_stores TInt (dgnbuf ++ []) world0 =
    (inl (SqlHandle TInt (Some (Ref 3 8)) (Some OpStore)),
     PhaseWorld (sql world0) (s_ctx world0) (objects world0 ++ [Matched o']) 0).
Proof.
  destruct (handle_travels Strong 1 TInt hndl (Ref 0 8) (existing_object Strong 1 IntStore 8) world0 dgnbuf
    both_stores world0 []) as (bs0 & Hb & Hrest).
  - reflexivity.
  - reflexivity.
  - reflexivity.
  - split; [reflexivity|]. split; [left; split; discriminate|]. split; vm_compute; reflexivity.
  - split; [reflexivity|]. split; [reflexivity|]. exists [Causal; Strong].
    split; [reflexivity|]. right. left.
  - exists bs0. split; [exact Hb|]. apply Hrest.
    assert (bs0 = buf) as -> by (unfold buf; rewrite Hb; reflexivity).
    eapply (passed_S Strong 1 TInt buf degenerate world0 (default hndl (value_of degenerate_read))
      degenerate_read.2 dgnbuf degenerate_read.2 dgnbuf [Causal]).
    + reflexivity.
    + apply (bool_decide_unpack _). vm_compute. exact Logic.I.
    + vm_compute. reflexivity.
    + vm_compute. reflexivity.
    + apply passed_0.
Defined.

Lemma unusable_handles_witness : let h := default hndl (value_of degenerate_read) in
  handle_get Strong h degenerate_read.2 = (inr AssertFailed, degenerate_read.2).
Proof.
  refine (proj1 (proj2 (proj1 (unusable_handles Strong 1 degenerate_read.2 (default hndl (value_of degenerate_read))
    (sqlobject_inherit_id Strong) (to_bytes (existing_object Strong 1 IntStore 8)) (VInt 0) "increment" []) _ _))).
  - exists (Ref 3 8). split; [vm_compute; reflexivity|]. split; vm_compute; reflexivity.
  - vm_compute. reflexivity.
Defined.


