(* ===== verification/PonyQ.v ===== *)
(** * A queue of many producers and one consumer

    Models [ponyq/ponyq.hpp], with the nodes of [GeneralQueue] in [ponyq/normalq.hpp]:
    [construct_node] is [new] and [release_node] is [delete].  A producer shares with
    the others the exchange of [tail] and the link it writes afterwards: these are its
    steps.  The consumer shares one access with the producers in each of its methods,
    the read of a link: its methods are its steps.  Steps interleave as they are
    written; the orders the source leaves to the memory model are not told apart. *)
From stdpp Require Import gmap.
From S2P Require Import Prelude Runtime.

Section ponyq.
Context {T : Type}.

Record pony_node : Type := Node { t : T; next : option nat; released : bool }.

(** The nodes that exist, the number of those ever made, and the members of the queue:
    [tail] with its lowest bit, the [false_head] and [sentinel] *)
Record ponyq : Type := PonyQ {
  nodes : gmap nat pony_node;
  total_nodes : nat;
  tail : option (nat * bool);
  head : option nat;
  is_extra : bool;
  sentinel : nat }.

Definition set_nodes (m : gmap nat pony_node) (q : ponyq) : ponyq :=
  PonyQ m (total_nodes q) (tail q) (head q) (is_extra q) (sentinel q).
Definition set_tail (p : option (nat * bool)) (q : ponyq) : ponyq :=
  PonyQ (nodes q) (total_nodes q) p (head q) (is_extra q) (sentinel q).
Definition set_head (h : option nat) (extra : bool) (q : ponyq) : ponyq :=
  PonyQ (nodes q) (total_nodes q) (tail q) h extra (sentinel q).
Definition set_sentinel (a : nat) (q : ponyq) : ponyq :=
  PonyQ (nodes q) (total_nodes q) (tail q) (head q) (is_extra q) a.

(** ** Nodes *)

(** An access to a node; one that was deleted is not there. *)
Definition read_node (a : nat) : RT ponyq pony_node := fun q =>
  match nodes q !! a with Some n => (inl n, q) | None => (inr OutOfRange, q) end.

Definition write_node (a : nat) (f : pony_node -> pony_node) : RT ponyq unit :=
  n ← read_node a; modify (fun q => set_nodes (<[a := f n]> (nodes q)) q).

Definition with_next (p : option nat) (n : pony_node) : pony_node := Node (t n) p (released n).
Definition with_released (b : bool) (n : pony_node) : pony_node := Node (t n) (next n) b.

Definition construct_node (x : T) : RT ponyq nat := fun q =>
  (inl (total_nodes q),
   PonyQ (<[total_nodes q := Node x None true]> (nodes q)) (S (total_nodes q)) (tail q) (head q)
     (is_extra q) (sentinel q)).

Definition release_node (a : nat) : RT ponyq unit :=
  n ← read_node a;
  _ ← assert_rt (released n);
  modify (fun q => set_nodes (delete a (nodes q)) q).

(** ** The false head *)

Definition destroy_head : RT ponyq unit :=
  q ← get_state;
  if is_extra q then
    a ← match head q with Some a => mret a | None => throw OutOfRange end;
    _ ← release_node a;
    modify (set_head None false)
  else mret tt.

(** [head = n] *)
Definition assign_head (h : option nat) : RT ponyq unit :=
  _ ← destroy_head; modify (fun q => set_head h (is_extra q) q).

Definition set_extra (a : nat) : RT ponyq unit :=
  q ← get_state;
  _ ← assert_rt (negb (is_extra q));
  _ ← assert_rt (bool_decide (head q = None));
  modify (set_head (Some a) true).

(** ** Pushing *)

(** The constructor: the queue has the seed. *)
Definition init (x : T) : ponyq :=
  PonyQ {[ 0 := Node x None true ]} 1 (Some (0, true)) (Some 0) false 0.

(** [push] up to the exchange, the exchange, and the link *)
Definition push_prepare (msg : nat) : RT ponyq unit :=
  n ← read_node msg;
  _ ← assert_rt (released n);
  _ ← write_node msg (with_released false);
  write_node msg (with_next None).

(** [prev] without its lowest bit *)
Definition push_exchange (msg : nat) : RT ponyq nat :=
  q ← get_state;
  _ ← modify (set_tail (Some (msg, false)));
  match tail q with Some (prev, _) => mret prev | None => throw OutOfRange end.

Definition push_link (prev msg : nat) : RT ponyq unit := write_node prev (with_next (Some msg)).

Definition push (msg : nat) : RT ponyq unit :=
  _ ← push_prepare msg; prev ← push_exchange msg; push_link prev msg.

(** [push_new] up to the exchange *)
Definition push_new_prepare (x : T) : RT ponyq nat :=
  tmp ← construct_node x;
  n ← read_node tmp;
  _ ← assert_rt (released n);
  _ ← assert_rt (bool_decide (next n = None));
  _ ← push_prepare tmp;
  mret tmp.

Definition push_new (x : T) : RT ponyq unit :=
  tmp ← push_new_prepare x; prev ← push_exchange tmp; push_link prev tmp.

(** ** Popping *)

Definition pop : RT ponyq unit :=
  q ← get_state;
  let sent := sentinel q in
  n ← read_node sent;
  _ ← assign_head (next n);
  match next n with
  | Some nx =>
      _ ← modify (set_sentinel nx);
      _ ← write_node sent (with_released true);
      release_node sent
  | None => mret tt
  end.

Definition peek : RT ponyq (option nat) :=
  q ← get_state;
  _ ← match head q with None => pop | Some _ => mret tt end;
  q ← get_state; mret (head q).

(** [while (!cand) cand = peek()], with the iterations it may make *)
Fixpoint peek_until (n : nat) : RT ponyq (option nat) :=
  cand ← peek;
  match cand, n with
  | None, S n => peek_until n
  | _, _ => mret cand
  end.

(** [blocking_pop], which returns a reference to the node *)
Definition blocking_pop (n : nat) : RT ponyq (option nat) :=
  cand ← peek_until n;
  match cand with
  | Some a => _ ← pop; mret (Some a)
  | None => mret None
  end.

Definition peek_or_build (x : T) : RT ponyq (option nat) :=
  p ← peek;
  _ ← match p with
      | None => a ← construct_node x; set_extra a
      | Some _ => mret tt
      end;
  q ← get_state; mret (head q).

(** ** The destructor *)

(** [while (peek()) pop()] *)
Fixpoint drain (n : nat) : RT ponyq bool :=
  p ← peek;
  match p, n with
  | None, _ => mret true
  | Some _, S n => _ ← pop; drain n
  | Some _, O => mret false
  end.

(** [~PonyQ]; [false]: the loop has not ended yet. *)
Definition destroy (n : nat) : RT ponyq bool :=
  ended ← drain n;
  if (ended : bool) then
    _ ← modify (set_tail None);
    q ← get_state;
    _ ← assert_rt (bool_decide (head q = None));
    s ← read_node (sentinel q);
    _ ← assert_rt (negb (released s));
    _ ← write_node (sentinel q) (with_released true);
    _ ← release_node (sentinel q);
    _ ← assign_head None;
    mret true
  else mret false.

(** ** The queue with its threads *)

(** The nodes of pushes before their exchange, and the pairs [(prev, msg)] of pushes
    before their link *)
Record queue_system : Type := System {
  queue : ponyq; prepared : list nat; linking : list (nat * nat) }.

Definition queue_start (x : T) : queue_system := System (init x) [] [].

Inductive event : Type :=
| Prepare (x : T)
| Push (msg : nat)
| Link (prev msg : nat)
| Peek (r : option nat)
| Pop
| Build (x : T) (r : option nat).

(** A step, with how its call ends *)
Inductive runs : queue_system -> event -> (unit + exn) -> queue_system -> Prop :=
| run_prepare x s a q : push_new_prepare x (queue s) = (inl a, q) ->
    runs s (Prepare x) (inl tt) (System q (a :: prepared s) (linking s))
| run_prepare_stops x s e q : push_new_prepare x (queue s) = (inr e, q) ->
    runs s (Prepare x) (inr e) (System q (prepared s) (linking s))
| run_push s m l1 l2 p q : prepared s = l1 ++ m :: l2 -> push_exchange m (queue s) = (inl p, q) ->
    runs s (Push m) (inl tt) (System q (l1 ++ l2) ((p, m) :: linking s))
| run_push_stops s m l1 l2 e q : prepared s = l1 ++ m :: l2 -> push_exchange m (queue s) = (inr e, q) ->
    runs s (Push m) (inr e) (System q (l1 ++ l2) (linking s))
| run_link s p m l1 l2 r q : linking s = l1 ++ (p, m) :: l2 -> push_link p m (queue s) = (r, q) ->
    runs s (Link p m) r (System q (prepared s) (l1 ++ l2))
| run_peek s r q : peek (queue s) = (inl r, q) ->
    runs s (Peek r) (inl tt) (System q (prepared s) (linking s))
| run_peek_stops s r e q : peek (queue s) = (inr e, q) ->
    runs s (Peek r) (inr e) (System q (prepared s) (linking s))
| run_pop s r q : pop (queue s) = (r, q) ->
    runs s Pop r (System q (prepared s) (linking s))
| run_build x s r q : peek_or_build x (queue s) = (inl r, q) ->
    runs s (Build x r) (inl tt) (System q (prepared s) (linking s))
| run_build_stops x s r e q : peek_or_build x (queue s) = (inr e, q) ->
    runs s (Build x r) (inr e) (System q (prepared s) (linking s)).
End ponyq.
Arguments pony_node : clear implicits.
Arguments ponyq : clear implicits.
Arguments queue_system : clear implicits.
Arguments event : clear implicits.
