(* ===== verification/PonyQCorrect.v ===== *)
(** * The queue of many producers is a queue

    The nodes of the queue are a chain from [sentinel] to [tail], in the order of the
    exchanges, in which the links of pushes that are under way are missing.  Every
    interleaving of producers and the consumer keeps it; no call touches a node that was
    deleted or fails an assertion; and what the consumer sees is a queue. *)
From stdpp Require Import gmap.
From S2P Require Import Prelude Runtime PonyQ.

Section shape.
Context {T : Type}.
Implicit Types (q : ponyq T) (s : queue_system T) (rest : list nat) (a b m p : nat).

(** ** The chain *)

Definition order q rest : list nat := sentinel q :: rest.
(** The node that [peek_or_build] has put in front *)
Definition extras q : list nat := if is_extra q then option_list (head q) else [].
Definition live s rest : list nat := order (queue s) rest ++ prepared s ++ extras (queue s).

Definition adjacent (l : list nat) a b : Prop := exists i, l !! i = Some a /\ l !! S i = Some b.

Record shape s rest : Prop := {
  sh_nodup : NoDup (live s rest);
  sh_live a : is_Some (nodes (queue s) !! a) <-> a ∈ live s rest;
  sh_fresh a : a ∈ live s rest -> a < total_nodes (queue s);
  sh_tail : fst <$> tail (queue s) = last (order (queue s) rest);
  sh_links a b n : adjacent (order (queue s) rest) a b -> nodes (queue s) !! a = Some n ->
    next n = if decide ((a, b) ∈ linking s) then None else Some b;
  sh_last a n : last (order (queue s) rest) = Some a -> nodes (queue s) !! a = Some n -> next n = None;
  sh_linking a b : (a, b) ∈ linking s -> adjacent (order (queue s) rest) a b;
  sh_once : NoDup (linking s);
  sh_seed a n : a ∈ order (queue s) rest ++ prepared s -> nodes (queue s) !! a = Some n ->
    released n = bool_decide (a = 0);
  sh_prepared a n : a ∈ prepared s -> nodes (queue s) !! a = Some n -> next n = None;
  sh_extra a n : a ∈ extras (queue s) -> nodes (queue s) !! a = Some n -> released n = true;
  sh_head : head (queue s) = None -> is_extra (queue s) = false;
  sh_sentinel h : head (queue s) = Some h -> is_extra (queue s) = false -> h = sentinel (queue s);
}.

(** *** Adjacent nodes *)

Lemma adjacent_in l a b : adjacent l a b -> a ∈ l /\ b ∈ l.
Proof. intros (i & Ha & Hb). split; by eapply list_elem_of_lookup_2. Qed.

Lemma adjacent_cons x l a b : adjacent l a b -> adjacent (x :: l) a b.
Proof. intros (i & Ha & Hb). by exists (S i). Qed.

Lemma adjacent_cons_inv x y l a b : adjacent (x :: y :: l) a b -> (a = x /\ b = y) \/ adjacent (y :: l) a b.
Proof. intros ([|i] & Ha & Hb); [left; by injection Ha as ->; injection Hb as ->|right; by exists i]. Qed.

Lemma adjacent_snoc l p m a b : last l = Some p ->
  adjacent (l ++ [m]) a b <-> adjacent l a b \/ (a = p /\ b = m).
Proof.
  intros Hl. rewrite last_lookup in Hl. split.
  - intros (i & Ha & Hb). destruct (decide (S i < length l)) as [Hi|Hi].
    + left. exists i. rewrite !lookup_app_l in Ha by lia. rewrite lookup_app_l in Hb by lia. done.
    + right. apply lookup_lt_Some in Hb as Hlt. rewrite length_app in Hlt. simpl in Hlt.
      assert (i = pred (length l)) as -> by lia. rewrite lookup_app_l in Ha by lia.
      rewrite lookup_app_r in Hb by lia. replace (S (pred (length l)) - length l) with 0 in Hb by lia.
      simpl in Hb. split; congruence.
  - intros [(i & Ha & Hb)|[-> ->]].
    + exists i. apply lookup_lt_Some in Hb as Hlt. rewrite !lookup_app_l by lia. done.
    + exists (pred (length l)). apply lookup_lt_Some in Hl as Hlt. rewrite lookup_app_l by lia.
      rewrite lookup_app_r by lia. by replace (S (pred (length l)) - length l) with 0 by lia.
Qed.

Lemma adjacent_not_last l a b : NoDup l -> adjacent l a b -> last l <> Some a.
Proof.
  intros Hn (i & Ha & Hb) Hl. rewrite last_lookup in Hl. apply lookup_lt_Some in Hb.
  pose proof (NoDup_lookup _ _ _ _ Hn Ha Hl). lia.
Qed.

Lemma adjacent_fun l a b b' : NoDup l -> adjacent l a b -> adjacent l a b' -> b = b'.
Proof.
  intros Hn (i & Ha & Hb) (j & Ha' & Hb'). assert (i = j) as -> by by eapply NoDup_lookup. congruence.
Qed.

Lemma adjacent_fun_l l a a' b : NoDup l -> adjacent l a b -> adjacent l a' b -> a = a'.
Proof.
  intros Hn (i & Ha & Hb) (j & Ha' & Hb'). pose proof (NoDup_lookup _ _ _ _ Hn Hb Hb').
  assert (i = j) as -> by lia. congruence.
Qed.

(** ** Runs of the members *)

Lemma read_run a n q : nodes q !! a = Some n -> read_node a q = (inl n, q).
Proof. unfold read_node. by intros ->. Qed.

Lemma write_run a f n q : nodes q !! a = Some n ->
  write_node a f q = (inl tt, set_nodes (<[a := f n]> (nodes q)) q).
Proof. intros Hn. unfold write_node, mbind, RT_bind. by rewrite (read_run a n). Qed.

Lemma release_run a n q : nodes q !! a = Some n -> released n = true ->
  release_node a q = (inl tt, set_nodes (delete a (nodes q)) q).
Proof. intros Hn Hr. unfold release_node, mbind, RT_bind. rewrite (read_run a n) by done. by rewrite Hr. Qed.

Lemma push_new_prepare_run x q : push_new_prepare x q =
  (inl (total_nodes q), PonyQ (<[total_nodes q := Node x None false]> (nodes q)) (S (total_nodes q))
    (tail q) (head q) (is_extra q) (sentinel q)).
Proof.
  unfold push_new_prepare, construct_node, push_prepare, mbind, RT_bind.
  set (q1 := PonyQ _ _ _ _ _ _). assert (nodes q1 !! total_nodes q = Some (Node x None true)) as H1
    by apply lookup_insert_eq.
  rewrite (read_run _ _ q1 H1). simpl. rewrite (read_run _ _ q1 H1). simpl. rewrite (write_run _ _ _ q1 H1).
  rewrite (write_run _ _ (Node x None false)) by apply lookup_insert_eq.
  unfold set_nodes, q1. simpl. by rewrite !insert_insert_eq.
Qed.

(** The extra node of the false head is deleted. *)
Definition without_extra q : gmap nat (pony_node T) :=
  match head q with Some a => if is_extra q then delete a (nodes q) else nodes q | None => nodes q end.

Lemma assign_run s rest h : shape s rest ->
  assign_head h (queue s) = (inl tt, PonyQ (without_extra (queue s)) (total_nodes (queue s)) (tail (queue s))
    h false (sentinel (queue s))).
Proof.
  intros Hs. unfold assign_head, destroy_head, get_state, without_extra, mbind, RT_bind.
  destruct (queue s) as [ns tn tl hd ex sn] eqn:Hq. simpl. destruct ex; simpl.
  - destruct hd as [a|].
    + assert (a ∈ extras (queue s)) as Hin by (rewrite Hq; by left).
      destruct (proj2 (sh_live _ _ Hs a)) as [n Hn]; [unfold live; set_solver|].
      pose proof (sh_extra _ _ Hs a n Hin Hn) as Hr. rewrite Hq in Hn.
      unfold mret, RT_ret. by rewrite (release_run a n) by done.
    + exfalso. pose proof (sh_head _ _ Hs) as Hh. rewrite Hq in Hh. by specialize (Hh eq_refl).
  - by destruct hd.
Qed.

(** ** Producers *)

Lemma in_live s rest a : a ∈ live s rest <->
  a ∈ order (queue s) rest \/ a ∈ prepared s \/ a ∈ extras (queue s).
Proof. unfold live. set_solver. Qed.

Lemma shape_prepare s rest x q : push_new_prepare x (queue s) = (inl (total_nodes (queue s)), q) ->
  shape s rest -> shape (System q (total_nodes (queue s) :: prepared s) (linking s)) rest.
Proof.
  intros Hq Hs. rewrite push_new_prepare_run in Hq. injection Hq as <-.
  set (new := total_nodes (queue s)). assert (new ∉ live s rest) as Hnew.
  { intros Hin. pose proof (sh_fresh _ _ Hs _ Hin). unfold new in *. lia. }
  assert (forall a, a ∈ live s rest -> a <> new) as Hne by set_solver.
  assert (forall a (n : pony_node T), a ∈ live s rest -> <[new := Node x None false]> (nodes (queue s)) !! a = Some n ->
    nodes (queue s) !! a = Some n) as Hold.
  { intros a n Ha. rewrite lookup_insert_ne by (intros <-; by apply Hnew). done. }
  constructor; simpl.
  - unfold live, order, extras. simpl. pose proof (sh_nodup _ _ Hs) as Hn. unfold live, order, extras in Hn, Hnew.
    rewrite app_comm_cons, <- Permutation_middle. by constructor.
  - intros a. unfold live, order, extras. simpl. rewrite lookup_insert_is_Some.
    pose proof (sh_live _ _ Hs a) as Hl. rewrite Hl. unfold live, order, extras.
    set_unfold. destruct (decide (new = a)); naive_solver.
  - intros a Ha. destruct (decide (a = new)) as [->|Hn]; [lia|].
    apply Nat.lt_lt_succ_r, (sh_fresh _ _ Hs). unfold live, order, extras in *. set_solver.
  - apply (sh_tail _ _ Hs).
  - intros a b n Hab Hn. apply (sh_links _ _ Hs a b); [done|]. apply Hold; [|done].
    apply in_live. left. by apply adjacent_in in Hab as [? _].
  - intros a n Ha Hn. apply (sh_last _ _ Hs a); [done|]. apply Hold; [|done].
    apply in_live. left. by apply last_Some_elem_of in Ha.
  - apply (sh_linking _ _ Hs).
  - apply (sh_once _ _ Hs).
  - intros a n Ha Hn. destruct (decide (a = new)) as [->|Hnn].
    + rewrite lookup_insert_eq in Hn. injection Hn as <-. simpl. symmetry. apply bool_decide_eq_false.
      assert (sentinel (queue s) < new) by (apply (sh_fresh _ _ Hs), in_live; left; left). lia.
    + assert (a ∈ order (queue s) rest ++ prepared s) as Ha' by (unfold order in *; set_solver).
      apply (sh_seed _ _ Hs a); [done|]. apply Hold; [|done]. apply in_live. set_solver.
  - intros a n Ha Hn. destruct (decide (a = new)) as [->|Hnn].
    + rewrite lookup_insert_eq in Hn. by injection Hn as <-.
    + apply (sh_prepared _ _ Hs a); [set_solver|]. apply Hold; [|done]. apply in_live. set_solver.
  - intros a n Ha Hn. apply (sh_extra _ _ Hs a); [done|]. apply Hold; [|done]. apply in_live. by do 2 right.
  - apply (sh_head _ _ Hs).
  - apply (sh_sentinel _ _ Hs).
Qed.

Lemma shape_push s rest m l1 l2 : shape s rest -> prepared s = l1 ++ m :: l2 ->
  exists p q, push_exchange m (queue s) = (inl p, q) /\ nodes q = nodes (queue s) /\ head q = head (queue s) /\
    shape (System q (l1 ++ l2) ((p, m) :: linking s)) (rest ++ [m]).
Proof.
  intros Hs Hp. pose proof (sh_tail _ _ Hs) as Ht.
  destruct (last (order (queue s) rest)) as [p|] eqn:Hl; [|by apply last_None in Hl].
  destruct (tail (queue s)) as [[p' tag]|] eqn:Htl; [|done]. injection Ht as ->.
  exists p, (set_tail (Some (m, false)) (queue s)).
  split; [unfold push_exchange, get_state, mbind, RT_bind; simpl; by rewrite Htl|].
  split; [done|]. split; [done|].
  assert (order (queue s) (rest ++ [m]) = order (queue s) rest ++ [m]) as Ho by done.
  assert (m ∈ prepared s) as Hm by (rewrite Hp; set_solver).
  pose proof (sh_nodup _ _ Hs) as Hnd.
  assert (m ∉ order (queue s) rest) as Hmo.
  { intros Hin. unfold live in Hnd. apply NoDup_app in Hnd as (_ & Hd & _). apply (Hd m Hin). set_solver. }
  assert (live (System (set_tail (Some (m, false)) (queue s)) (l1 ++ l2) ((p, m) :: linking s)) (rest ++ [m])
    ≡ₚ live s rest) as Hperm.
  { unfold live, extras. simpl. change (order (set_tail _ (queue s)) (rest ++ [m])) with (order (queue s) rest ++ [m]).
    rewrite Hp. solve_Permutation. }
  assert (NoDup (order (queue s) rest)) as Hndo by by (unfold live in Hnd; apply NoDup_app in Hnd as (? & _)).
  constructor; simpl.
  - by rewrite Hperm.
  - intros a. rewrite Hperm. apply (sh_live _ _ Hs).
  - intros a. rewrite Hperm. apply (sh_fresh _ _ Hs).
  - change (Some m = last (order (queue s) rest ++ [m])). by rewrite last_snoc.
  - intros a b n Hab Hn. change (adjacent (order (queue s) rest ++ [m]) a b) in Hab.
    apply (adjacent_snoc _ p m) in Hab as [Hab|[-> ->]]; [| |done].
    + rewrite (sh_links _ _ Hs a b n Hab Hn).
      assert (b <> m) by (intros ->; by apply adjacent_in in Hab as [_ ?]).
      destruct (decide ((a, b) ∈ linking s)); [rewrite decide_True by set_solver|rewrite decide_False by set_solver]; done.
    + rewrite decide_True by by left. by apply (sh_last _ _ Hs p).
  - intros a n Ha Hn. change (last (order (queue s) rest ++ [m]) = Some a) in Ha.
    rewrite last_snoc in Ha. injection Ha as <-. by apply (sh_prepared _ _ Hs m).
  - intros a b [[= -> ->]|Hab]%elem_of_cons; apply (adjacent_snoc (order (queue s) rest) p m); try done; [by right|].
    left. by apply (sh_linking _ _ Hs).
  - constructor; [|apply (sh_once _ _ Hs)]. intros Hin.
    by apply (sh_linking _ _ Hs), adjacent_in in Hin as [_ ?].
  - intros a n Ha. apply (sh_seed _ _ Hs). change (order _ _) with (order (queue s) rest ++ [m]) in Ha.
    rewrite Hp. set_solver.
  - intros a n Ha. apply (sh_prepared _ _ Hs). rewrite Hp. set_solver.
  - apply (sh_extra _ _ Hs).
  - apply (sh_head _ _ Hs).
  - apply (sh_sentinel _ _ Hs).
Qed.

Lemma live_order s rest a : a ∈ order (queue s) rest -> a ∈ live s rest.
Proof. rewrite in_live. by left. Qed.

Lemma shape_link s rest p m l1 l2 : shape s rest -> linking s = l1 ++ (p, m) :: l2 ->
  exists n, nodes (queue s) !! p = Some n /\
    let q := set_nodes (<[p := with_next (Some m) n]> (nodes (queue s))) (queue s) in
    push_link p m (queue s) = (inl tt, q) /\ shape (System q (prepared s) (l1 ++ l2)) rest.
Proof.
  intros Hs Hl. pose proof (sh_nodup _ _ Hs) as Hnd.
  assert ((p, m) ∈ linking s) as Hpm by (rewrite Hl; set_solver).
  pose proof (sh_linking _ _ Hs p m Hpm) as Hadj. pose proof (adjacent_in _ _ _ Hadj) as [Hp Hm].
  assert (NoDup (order (queue s) rest)) as Hndo by by (unfold live in Hnd; apply NoDup_app in Hnd as (? & _)).
  assert (forall a b, adjacent (order (queue s) rest) a b ->
    (a, b) ∈ l1 ++ l2 <-> (a, b) ∈ linking s /\ a <> p) as Hlk.
  { intros a b Hab. pose proof (sh_once _ _ Hs) as Hon. rewrite Hl in Hon.
    rewrite Hl. apply NoDup_app in Hon as (_ & Hd & [Hn2 _]%NoDup_cons). split.
    - intros Hin. split; [set_solver|]. intros ->.
      assert (b = m) as -> by by eapply adjacent_fun.
      apply elem_of_app in Hin as [Hin|Hin]; [apply (Hd _ Hin); left|done].
    - intros [Hin Hne]. set_solver. }
  destruct (proj2 (sh_live _ _ Hs p) (live_order _ _ _ Hp)) as [n Hn]. exists n. split; [done|].
  intros q. split; [unfold push_link; by rewrite (write_run _ _ n)|].
  assert (forall a k, nodes q !! a = Some k -> exists k', nodes (queue s) !! a = Some k' /\
    released k = released k' /\ (a <> p -> k = k') /\ (a = p -> k = with_next (Some m) n)) as Hold.
  { intros a k Hk. simpl in Hk. destruct (decide (a = p)) as [->|Hne].
    - rewrite lookup_insert_eq in Hk. injection Hk as <-. by exists n.
    - rewrite lookup_insert_ne in Hk by done. by exists k. }
  constructor; simpl.
  - exact Hnd.
  - intros a. rewrite lookup_insert_is_Some, (sh_live _ _ Hs a). change (live _ rest) with (live s rest).
    pose proof (live_order s rest p Hp). destruct (decide (p = a)) as [->|]; naive_solver.
  - apply (sh_fresh _ _ Hs).
  - apply (sh_tail _ _ Hs).
  - intros a b k Hab Hk. destruct (Hold a k Hk) as (k' & Hk' & _ & Hne & Heq).
    destruct (decide (a = p)) as [->|Hap].
    + rewrite (Heq eq_refl). assert (b = m) as -> by by eapply adjacent_fun.
      rewrite decide_False; [done|]. rewrite Hlk by done. tauto.
    + rewrite (Hne Hap), (sh_links _ _ Hs a b k' Hab Hk').
      destruct (decide ((a, b) ∈ linking s)); [rewrite decide_True|rewrite decide_False]; [done|by rewrite Hlk|done|].
      by rewrite Hlk; [tauto|].
  - intros a k Ha Hk. destruct (Hold a k Hk) as (k' & Hk' & _ & Hne & _).
    assert (a <> p) as Hap by (intros ->; by eapply adjacent_not_last).
    rewrite (Hne Hap). by apply (sh_last _ _ Hs a).
  - intros a b Hab. apply (sh_linking _ _ Hs). rewrite Hl. set_solver.
  - pose proof (sh_once _ _ Hs) as Hon. rewrite Hl in Hon.
    rewrite <- Permutation_middle in Hon. by apply NoDup_cons in Hon as [_ ?].
  - intros a k Ha Hk. destruct (Hold a k Hk) as (k' & Hk' & -> & _). by apply (sh_seed _ _ Hs a).
  - intros a k Ha Hk. destruct (Hold a k Hk) as (k' & Hk' & _ & Hne & _).
    rewrite Hne; [by apply (sh_prepared _ _ Hs a)|]. intros ->.
    unfold live in Hnd. apply NoDup_app in Hnd as (_ & Hd & _). apply (Hd p Hp). set_solver.
  - intros a k Ha Hk. destruct (Hold a k Hk) as (k' & Hk' & -> & _). by apply (sh_extra _ _ Hs a).
  - apply (sh_head _ _ Hs).
  - apply (sh_sentinel _ _ Hs).
Qed.

(** ** The consumer *)

(** What [pop] leaves: the extra node is deleted, and when the link is there, the sentinel *)
Definition popped q (nx : option nat) : ponyq T :=
  match nx with
  | Some b => PonyQ (delete (sentinel q) (without_extra q)) (total_nodes q) (tail q) (Some b) false b
  | None => PonyQ (without_extra q) (total_nodes q) (tail q) None false (sentinel q)
  end.

Lemma without_extra_lookup s rest a : shape s rest -> a ∈ order (queue s) rest ++ prepared s ->
  without_extra (queue s) !! a = nodes (queue s) !! a.
Proof.
  intros Hs Ha. unfold without_extra. destruct (head (queue s)) as [h|] eqn:Hh; [|done].
  destruct (is_extra (queue s)) eqn:He; [|done]. apply lookup_delete_ne. intros ->.
  pose proof (sh_nodup _ _ Hs) as Hnd. unfold live in Hnd. rewrite app_assoc in Hnd.
  apply NoDup_app in Hnd as (_ & Hd & _). apply (Hd a Ha). unfold extras. rewrite He, Hh. by left.
Qed.

Lemma without_extra_live s rest a : shape s rest ->
  is_Some (without_extra (queue s) !! a) <-> a ∈ order (queue s) rest ++ prepared s.
Proof.
  intros Hs. split.
  - intros [n Hn]. assert (a ∈ live s rest) as Ha.
    { apply (sh_live _ _ Hs). unfold without_extra in Hn.
      destruct (head (queue s)); [destruct (is_extra (queue s)); [apply lookup_delete_Some in Hn as [_ ?]|]|]; by eexists. }
    rewrite in_live in Ha. destruct Ha as [Ha|[Ha|Ha]]; [set_solver..|]. exfalso.
    unfold extras in Ha. destruct (is_extra (queue s)) eqn:He; [|by apply not_elem_of_nil in Ha].
    unfold without_extra in Hn. rewrite He in Hn.
    destruct (head (queue s)) as [h|]; [|by apply not_elem_of_nil in Ha].
    apply list_elem_of_singleton in Ha as ->. by rewrite lookup_delete_eq in Hn.
  - intros Ha. rewrite (without_extra_lookup s rest) by done. apply (sh_live _ _ Hs). unfold live. set_solver.
Qed.

Lemma pop_run s rest : shape s rest ->
  exists n, nodes (queue s) !! sentinel (queue s) = Some n /\ pop (queue s) = (inl tt, popped (queue s) (next n)).
Proof.
  intros Hs. assert (sentinel (queue s) ∈ order (queue s) rest) as Hin by left.
  destruct (proj2 (sh_live _ _ Hs _) (live_order _ _ _ Hin)) as [n Hn]. exists n. split; [done|].
  unfold pop, get_state, mbind, RT_bind. rewrite (read_run _ n) by done.
  rewrite (assign_run s rest) by done. destruct (next n) as [b|]; [|done]. simpl.
  assert (without_extra (queue s) !! sentinel (queue s) = Some n) as Hw.
  { rewrite (without_extra_lookup s rest); [done|done|]. set_solver. }
  rewrite (write_run _ _ n) by done. unfold set_sentinel, set_nodes. simpl.
  rewrite (release_run _ (with_released true n)); [|apply lookup_insert_eq|done].
  unfold set_nodes. simpl. by rewrite delete_insert_eq.
Qed.

(** The state without the extra node and without a head *)
Definition headless s : queue_system T :=
  System (PonyQ (without_extra (queue s)) (total_nodes (queue s)) (tail (queue s)) None false
    (sentinel (queue s))) (prepared s) (linking s).

Lemma shape_headless s rest : shape s rest -> shape (headless s) rest.
Proof.
  intros Hs. pose proof (without_extra_lookup s rest) as Hw.
  assert (forall a, a ∈ order (queue s) rest -> nodes (queue (headless s)) !! a = nodes (queue s) !! a) as Ho
    by (intros a Ha; apply Hw; [done|]; set_solver).
  assert (live (headless s) rest = order (queue s) rest ++ prepared s) as Hlive
    by (unfold live, extras; simpl; by rewrite app_nil_r).
  constructor; try (rewrite Hlive); simpl.
  - pose proof (sh_nodup _ _ Hs) as Hnd. unfold live in Hnd. rewrite app_assoc in Hnd. by apply NoDup_app in Hnd as (? & _).
  - intros a. by apply without_extra_live.
  - intros a Ha. apply (sh_fresh _ _ Hs), in_live. set_solver.
  - apply (sh_tail _ _ Hs).
  - intros a b n Hab Hn. apply (sh_links _ _ Hs a b n Hab). rewrite <- Ho; [done|].
    by apply adjacent_in in Hab as [? _].
  - intros a n Ha Hn. apply (sh_last _ _ Hs a n Ha). rewrite <- Ho; [done|]. by apply last_Some_elem_of in Ha.
  - apply (sh_linking _ _ Hs).
  - apply (sh_once _ _ Hs).
  - intros a n Ha Hn. apply (sh_seed _ _ Hs a n Ha). by rewrite <- Hw.
  - intros a n Ha Hn. apply (sh_prepared _ _ Hs a n Ha). rewrite <- Hw; [done|done|]. set_solver.
  - by intros a n Ha%not_elem_of_nil.
  - done.
  - done.
Qed.

Lemma shape_advance s b rest : shape s (b :: rest) -> is_extra (queue s) = false ->
  (sentinel (queue s), b) ∉ linking s ->
  shape (System (PonyQ (delete (sentinel (queue s)) (nodes (queue s))) (total_nodes (queue s)) (tail (queue s))
    (Some b) false b) (prepared s) (linking s)) rest.
Proof.
  intros Hs He Hlk. set (sn := sentinel (queue s)) in *.
  assert (live s (b :: rest) = sn :: (b :: rest) ++ prepared s) as Hlive
    by (unfold live, extras; rewrite He; by rewrite app_nil_r).
  pose proof (sh_nodup _ _ Hs) as Hnd. rewrite Hlive in Hnd. apply NoDup_cons in Hnd as [Hsn Hnd].
  assert (forall a, a ∈ (b :: rest) ++ prepared s -> delete sn (nodes (queue s)) !! a = nodes (queue s) !! a) as Ho
    by (intros a Ha; apply lookup_delete_ne; set_solver).
  assert (order (queue s) (b :: rest) = sn :: b :: rest) as Hord by done.
  constructor; unfold live, order, extras; simpl; rewrite ?app_nil_r.
  - done.
  - intros a. pose proof (sh_live _ _ Hs a) as Hl. rewrite Hlive in Hl. rewrite lookup_delete_is_Some, Hl.
    set_solver.
  - intros a Ha. apply (sh_fresh _ _ Hs). rewrite Hlive. by right.
  - rewrite (sh_tail _ _ Hs). by rewrite Hord.
  - intros a c n Hab Hn. assert (a ∈ b :: rest) as Ha by by apply adjacent_in in Hab as [? _].
    rewrite Ho in Hn by set_solver. apply (sh_links _ _ Hs a c n); [|done]. rewrite Hord.
    by apply adjacent_cons.
  - intros a n Ha Hn. assert (a ∈ b :: rest) by by apply last_Some_elem_of in Ha.
    rewrite Ho in Hn by set_solver. by apply (sh_last _ _ Hs a).
  - intros a c Hac. pose proof (sh_linking _ _ Hs a c Hac) as Hadj. rewrite Hord in Hadj.
    apply adjacent_cons_inv in Hadj as [[-> ->]|Hadj]; done.
  - apply (sh_once _ _ Hs).
  - intros a n Ha Hn. rewrite Ho in Hn by done. apply (sh_seed _ _ Hs a n); [|done]. rewrite Hord. set_solver.
  - intros a n Ha Hn. rewrite Ho in Hn by set_solver. by apply (sh_prepared _ _ Hs a).
  - by intros a n Ha%not_elem_of_nil.
  - done.
  - by intros h [= ->].
Qed.

(** What is in the queue, and its values *)
Definition contents q rest : list nat := match head q with Some h => h :: rest | None => rest end.
Definition values q (l : list nat) : list T := omap (fun a => t <$> nodes q !! a) l.

Lemma shape_pop s rest : shape s rest -> exists q rest',
  pop (queue s) = (inl tt, q) /\ shape (System q (prepared s) (linking s)) rest' /\
  contents q rest' = rest /\
  (forall a, a ∈ rest -> nodes q !! a = nodes (queue s) !! a) /\
  (head q = None -> rest = [] \/ exists b l, rest = b :: l /\ (sentinel (queue s), b) ∈ linking s) /\
  (head q <> None -> nodes q !! sentinel (queue s) = None).
Proof.
  intros Hs. destruct (pop_run s rest Hs) as (n & Hn & Hpop).
  pose proof (shape_headless s rest Hs) as Hhl. pose proof (sh_nodup _ _ Hhl) as Hnd.
  assert (forall a, a ∈ rest -> without_extra (queue s) !! a = nodes (queue s) !! a) as Hw.
  { intros a Ha. apply (without_extra_lookup s rest); [done|]. unfold order. set_solver. }
  destruct (next n) as [b|] eqn:Hnx.
  - destruct rest as [|b' rest].
    { by rewrite (sh_last _ _ Hs (sentinel (queue s)) n) in Hnx. }
    assert (adjacent (order (queue s) (b' :: rest)) (sentinel (queue s)) b') as Hadj by by exists 0.
    rewrite (sh_links _ _ Hs _ _ _ Hadj Hn) in Hnx. destruct (decide _) as [|Hlk]; [done|]. injection Hnx as ->.
    exists (popped (queue s) (Some b)), rest. split; [done|].
    split; [by apply (shape_advance (headless s))|]. split; [done|]. split; [|split; [done|]].
    + intros a Ha. simpl. rewrite lookup_delete_ne; [by apply Hw|]. intros <-.
      unfold live, order in Hnd. simpl in Hnd. apply NoDup_cons in Hnd as [Hsn _]. apply Hsn. set_solver.
    + intros _. simpl. apply lookup_delete_eq.
  - exists (popped (queue s) None), rest. split; [done|]. split; [done|]. split; [done|]. split; [done|].
    split; [|done]. intros _. destruct rest as [|b rest]; [by left|]. right. exists b, rest. split; [done|].
    assert (adjacent (order (queue s) (b :: rest)) (sentinel (queue s)) b) as Hadj by by exists 0.
    rewrite (sh_links _ _ Hs _ _ _ Hadj Hn) in Hnx. by destruct (decide _).
Qed.

Lemma shape_peek s rest : shape s rest -> exists q rest',
  peek (queue s) = (inl (head q), q) /\ shape (System q (prepared s) (linking s)) rest' /\
  contents q rest' = contents (queue s) rest /\
  (forall a, a ∈ contents (queue s) rest -> nodes q !! a = nodes (queue s) !! a) /\
  (head q = None -> contents q rest' = rest' /\
    (rest' = [] \/ exists b l, rest' = b :: l /\ (sentinel (queue s), b) ∈ linking s)).
Proof.
  intros Hs. unfold peek, get_state, mbind, RT_bind. destruct (head (queue s)) as [h|] eqn:Hh.
  - exists (queue s), rest. simpl. unfold mret, RT_ret. rewrite Hh. split; [done|]. split; [by destruct s|].
    done.
  - destruct (shape_pop s rest Hs) as (q & rest' & -> & Hs' & Hc & Hn & He & _). exists q, rest'.
    split; [done|]. split; [done|]. unfold contents at 2 3. rewrite Hh. split; [done|]. split; [done|].
    intros Hq. split; [by unfold contents; rewrite Hq|]. unfold contents in Hc. rewrite Hq in Hc. subst rest'. auto.
Qed.

Lemma construct_run x q : construct_node x q =
  (inl (total_nodes q), PonyQ (<[total_nodes q := Node x None true]> (nodes q)) (S (total_nodes q)) (tail q)
    (head q) (is_extra q) (sentinel q)).
Proof. done. Qed.

Lemma shape_insert s rest x : shape s rest -> head (queue s) = None ->
  let a := total_nodes (queue s) in
  shape (System (PonyQ (<[a := Node x None true]> (nodes (queue s))) (S a) (tail (queue s)) (Some a) true
    (sentinel (queue s))) (prepared s) (linking s)) rest /\ a ∉ live s rest.
Proof.
  intros Hs Hh a. assert (a ∉ live s rest) as Hnew.
  { intros Hin. pose proof (sh_fresh _ _ Hs _ Hin). unfold a in *. lia. }
  split; [|done]. pose proof (sh_head _ _ Hs Hh) as He.
  assert (live s rest = order (queue s) rest ++ prepared s) as Hlive
    by (unfold live, extras; rewrite He; by rewrite app_nil_r).
  assert (forall c (n : pony_node T), c ∈ live s rest -> <[a := Node x None true]> (nodes (queue s)) !! c = Some n ->
    nodes (queue s) !! c = Some n) as Hold.
  { intros c n Hc. rewrite lookup_insert_ne by (intros <-; by apply Hnew). done. }
  rewrite Hlive in Hold, Hnew.
  constructor; unfold live, order, extras; simpl.
  - change (NoDup ((order (queue s) rest) ++ prepared s ++ [a])). rewrite app_assoc. apply NoDup_app.
    pose proof (sh_nodup _ _ Hs) as Hnd. rewrite Hlive in Hnd. split; [done|]. split; [set_solver|apply NoDup_singleton].
  - intros c. rewrite lookup_insert_is_Some, (sh_live _ _ Hs c), Hlive. unfold order.
    destruct (decide (a = c)); set_solver.
  - intros c Hc. destruct (decide (c = a)) as [->|]; [unfold a; lia|].
    apply Nat.lt_lt_succ_r, (sh_fresh _ _ Hs). rewrite Hlive. unfold order. set_solver.
  - apply (sh_tail _ _ Hs).
  - intros c d n Hcd Hn. apply (sh_links _ _ Hs c d n Hcd), Hold; [|done].
    apply adjacent_in in Hcd as [? _]. set_solver.
  - intros c n Hc Hn. apply (sh_last _ _ Hs c n Hc), Hold; [|done]. apply last_Some_elem_of in Hc. set_solver.
  - apply (sh_linking _ _ Hs).
  - apply (sh_once _ _ Hs).
  - intros c n Hc Hn. by apply (sh_seed _ _ Hs c n Hc), Hold.
  - intros c n Hc Hn. apply (sh_prepared _ _ Hs c n Hc), Hold; [|done]. set_solver.
  - intros c n ->%list_elem_of_singleton Hn. rewrite lookup_insert_eq in Hn. by injection Hn as <-.
  - done.
  - done.
Qed.

Lemma shape_build s rest x : shape s rest -> exists q rest',
  peek_or_build x (queue s) = (inl (head q), q) /\ shape (System q (prepared s) (linking s)) rest' /\
  (forall a, a ∈ contents (queue s) rest -> nodes q !! a = nodes (queue s) !! a) /\
  ((contents q rest' = contents (queue s) rest /\ is_Some (head q)) \/
   (head (queue s) = None /\ exists a, head q = Some a /\ contents q rest' = a :: contents (queue s) rest /\
      nodes q !! a = Some (Node x None true))).
Proof.
  intros Hs. destruct (shape_peek s rest Hs) as (q & rest' & Hp & Hs' & Hc & Hn & _).
  unfold peek_or_build, mbind, RT_bind. rewrite Hp. destruct (head q) as [h|] eqn:Hh.
  - exists q, rest'. unfold mret, RT_ret, get_state. rewrite Hh. split; [done|]. split; [done|].
    split; [done|]. left. by rewrite Hc.
  - destruct (shape_insert _ rest' x Hs' Hh) as [Hs2 Hnew]. simpl in Hs2, Hnew.
    rewrite construct_run. unfold set_extra, get_state, mbind, RT_bind. simpl.
    pose proof (sh_head _ _ Hs' Hh) as He. simpl in He. rewrite He, Hh. simpl.
    exists (PonyQ (<[total_nodes q := Node x None true]> (nodes q)) (S (total_nodes q)) (tail q)
      (Some (total_nodes q)) true (sentinel q)), rest'. split; [reflexivity|]. split; [exact Hs2|].
    assert (rest' = contents (queue s) rest) as Hr by (rewrite <- Hc; unfold contents; by rewrite Hh).
    split.
    + intros a Ha. simpl. rewrite lookup_insert_ne; [by apply Hn|]. intros <-. apply Hnew.
      unfold live, order. simpl. rewrite Hr. set_solver.
    + right. split.
      * destruct (head (queue s)) as [h|] eqn:Hhs; [|done]. exfalso. revert Hp Hh.
        unfold peek, get_state, mbind, RT_bind. rewrite Hhs. unfold mret, RT_ret. congruence.
      * eexists. split; [done|]. split; [|by apply lookup_insert_eq]. unfold contents at 1. simpl. by rewrite Hr.
Qed.
End shape.

#[local] Arguments values : simpl never.
#[local] Arguments contents : simpl never.

(** ** The queue it is *)

(** What the producers and the consumer do to a queue.  The consumer gets the first value
    when it has looked at it: [Dequeue] of a queue that was not looked at only looks. *)
Inductive action (T : Type) : Type :=
| Internal
| Enqueue (x : option T)
| Look (r : option T)
| Dequeue (r : option T)
| Insert (x : T) (r : option T).
Arguments Internal {T}.
Arguments Enqueue {T} x.
Arguments Look {T} r.
Arguments Dequeue {T} r.
Arguments Insert {T} x r.

(** A queue: has the consumer looked at its first value? *)
Record fifo (T : Type) : Type := Fifo { looked : bool; items : list T }.
Arguments Fifo {T} looked items.
Arguments looked {T} f.
Arguments items {T} f.

Inductive fifo_step {T : Type} : fifo T -> action T -> fifo T -> Prop :=
| fifo_internal f : fifo_step f Internal f
| fifo_enqueue b xs x : fifo_step (Fifo b xs) (Enqueue (Some x)) (Fifo b (xs ++ [x]))
| fifo_look b x xs : fifo_step (Fifo b (x :: xs)) (Look (Some x)) (Fifo true (x :: xs))
| fifo_look_fails xs : fifo_step (Fifo false xs) (Look None) (Fifo false xs)
| fifo_dequeue b x xs : fifo_step (Fifo true (x :: xs)) (Dequeue (Some x)) (Fifo b xs)
| fifo_dequeue_fails b xs : fifo_step (Fifo false xs) (Dequeue None) (Fifo b xs)
| fifo_insert x xs : fifo_step (Fifo false xs) (Insert x (Some x)) (Fifo true (x :: xs))
| fifo_insert_not b x y xs : fifo_step (Fifo b (y :: xs)) (Insert x (Some y)) (Fifo true (y :: xs)).

Inductive fifo_run {T : Type} (f : fifo T) : list (action T) -> fifo T -> Prop :=
| fifo_run_nil : fifo_run f [] f
| fifo_run_snoc acts f1 act f2 : fifo_run f acts f1 -> fifo_step f1 act f2 -> fifo_run f (acts ++ [act]) f2.

Definition enqueued {T} (a : action T) : list T := match a with Enqueue (Some x) => [x] | _ => [] end.
Definition dequeued {T} (a : action T) : list T := match a with Dequeue (Some x) => [x] | _ => [] end.
Definition inserts {T} (a : action T) : Prop := match a with Insert _ _ => True | _ => False end.

Lemma fifo_order {T} (f f' : fifo T) acts : fifo_run f acts f' -> Forall (fun a => ~ inserts a) acts ->
  (acts ≫= dequeued) ++ items f' = items f ++ (acts ≫= enqueued).
Proof.
  induction 1 as [|acts f1 a f2 _ IH Hs]; intros Hi; [by rewrite app_nil_r|].
  apply Forall_app in Hi as [Hi [Ha _]%Forall_cons]. specialize (IH Hi). rewrite !bind_app. simpl.
  rewrite !app_nil_r. destruct Hs; simpl in *; rewrite ?app_nil_r; try done.
  - by rewrite !app_assoc, IH.
  - by rewrite <- app_assoc.
Qed.

Section refinement.
Context {T : Type}.
Implicit Types (q : ponyq T) (s : queue_system T) (rest : list nat).

Definition value_of q (p : option nat) : option T := a ← p; t <$> nodes q !! a.

Lemma contents_head q rest h : head q = Some h -> contents q rest = h :: rest.
Proof. unfold contents. by intros ->. Qed.
Lemma contents_no_head q rest : head q = None -> contents q rest = rest.
Proof. unfold contents. by intros ->. Qed.

(** What a step is to the queue *)
Definition observe q q' (e : event T) : action T :=
  match e with
  | Prepare _ | Link _ _ => Internal
  | Push m => Enqueue (value_of q (Some m))
  | Peek r => Look (value_of q' r)
  | Pop => Dequeue (value_of q (head q))
  | Build x r => Insert x (value_of q' r)
  end.

Definition fifo_of s rest : fifo T :=
  Fifo (bool_decide (is_Some (head (queue s)))) (values (queue s) (contents (queue s) rest)).

Lemma values_same q q' l : (forall a, a ∈ l -> t <$> nodes q' !! a = t <$> nodes q !! a) -> values q' l = values q l.
Proof.
  induction l as [|a l IH]; intros Hl; [done|]. unfold values in *. cbn [omap list_omap].
  rewrite Hl by by left. rewrite IH; [done|]. intros b Hb. apply Hl. by right.
Qed.

Lemma values_cons q a l n : nodes q !! a = Some n -> values q (a :: l) = t n :: values q l.
Proof. intros Hn. unfold values. cbn [omap list_omap]. by rewrite Hn. Qed.

Lemma contents_live s rest a : shape s rest -> a ∈ contents (queue s) rest -> a ∈ live s rest.
Proof.
  intros Hs. unfold contents. rewrite in_live. destruct (head (queue s)) as [h|] eqn:Hh; [|left; by right].
  intros [->|Hr]%elem_of_cons; [|left; by right]. destruct (is_extra (queue s)) eqn:He.
  - do 2 right. unfold extras. rewrite He, Hh. by left.
  - left. rewrite (sh_sentinel _ _ Hs h Hh He). by left.
Qed.

Lemma contents_node s rest a : shape s rest -> a ∈ contents (queue s) rest ->
  exists n, nodes (queue s) !! a = Some n.
Proof. intros Hs Ha. by apply (sh_live _ _ Hs), (contents_live s rest). Qed.

(** The first node, when the consumer has looked *)
Lemma fifo_head s rest h : shape s rest -> head (queue s) = Some h -> exists n,
  nodes (queue s) !! h = Some n /\ fifo_of s rest = Fifo true (t n :: values (queue s) rest).
Proof.
  intros Hs Hh. destruct (contents_node s rest h Hs) as [n Hn].
  - unfold contents. rewrite Hh. by left.
  - exists n. split; [done|]. unfold fifo_of. by rewrite (contents_head _ rest h), (values_cons _ _ _ n), Hh by done.
Qed.

Lemma fifo_no_head s rest : head (queue s) = None -> fifo_of s rest = Fifo false (values (queue s) rest).
Proof. intros Hh. unfold fifo_of, contents. by rewrite Hh. Qed.

Lemma refine_prepare s rest x : shape s rest ->
  exists q, push_new_prepare x (queue s) = (inl (total_nodes (queue s)), q) /\
    shape (System q (total_nodes (queue s) :: prepared s) (linking s)) rest /\
    fifo_of (System q (total_nodes (queue s) :: prepared s) (linking s)) rest = fifo_of s rest.
Proof.
  intros Hs. pose proof (push_new_prepare_run x (queue s)) as Hq. eexists. split; [exact Hq|].
  split; [by apply (shape_prepare s rest x)|]. unfold fifo_of. f_equal. apply values_same. intros a Ha. simpl.
  rewrite lookup_insert_ne; [done|]. intros <-.
  pose proof (sh_fresh _ _ Hs _ (contents_live s rest _ Hs Ha)). lia.
Qed.

Lemma refine_link s rest p m l1 l2 : shape s rest -> linking s = l1 ++ (p, m) :: l2 ->
  exists q, push_link p m (queue s) = (inl tt, q) /\ shape (System q (prepared s) (l1 ++ l2)) rest /\
    fifo_of (System q (prepared s) (l1 ++ l2)) rest = fifo_of s rest.
Proof.
  intros Hs Hl. destruct (shape_link s rest p m l1 l2 Hs Hl) as (n & Hn & Hrun & Hs'). eexists.
  split; [exact Hrun|]. split; [done|]. unfold fifo_of. f_equal. apply values_same. intros a _. simpl.
  destruct (decide (a = p)) as [->|]; [by rewrite lookup_insert_eq, Hn|by rewrite lookup_insert_ne].
Qed.

Lemma refine_push s rest m l1 l2 : shape s rest -> prepared s = l1 ++ m :: l2 ->
  exists p q, push_exchange m (queue s) = (inl p, q) /\
    shape (System q (l1 ++ l2) ((p, m) :: linking s)) (rest ++ [m]) /\
    fifo_step (fifo_of s rest) (Enqueue (value_of (queue s) (Some m)))
      (fifo_of (System q (l1 ++ l2) ((p, m) :: linking s)) (rest ++ [m])).
Proof.
  intros Hs Hp. destruct (shape_push s rest m l1 l2 Hs Hp) as (p & q & Hq & Hn & Hh & Hs').
  exists p, q. split; [done|]. split; [done|].
  destruct (proj2 (sh_live _ _ Hs m)) as [n Hm]; [rewrite in_live, Hp; set_solver|].
  unfold value_of, mbind, option_bind. rewrite Hm. simpl.
  assert (fifo_of (System q (l1 ++ l2) ((p, m) :: linking s)) (rest ++ [m]) =
    Fifo (looked (fifo_of s rest)) (items (fifo_of s rest) ++ [t n])) as ->; [|by constructor].
  unfold fifo_of. simpl. rewrite Hh. f_equal.
  assert (contents q (rest ++ [m]) = contents (queue s) rest ++ [m]) as ->
    by (unfold contents; rewrite Hh; by destruct (head (queue s))).
  unfold values. rewrite omap_app, Hn. simpl. by rewrite Hm.
Qed.

Lemma refine_peek s rest : shape s rest -> exists q rest', peek (queue s) = (inl (head q), q) /\
  shape (System q (prepared s) (linking s)) rest' /\
  fifo_step (fifo_of s rest) (Look (value_of q (head q))) (fifo_of (System q (prepared s) (linking s)) rest').
Proof.
  intros Hs. destruct (shape_peek s rest Hs) as (q & rest' & Hp & Hs' & Hc & Hn & _).
  exists q, rest'. split; [done|]. split; [done|].
  assert (items (fifo_of s rest) = values q (contents q rest')) as Hi.
  { rewrite Hc. symmetry. apply values_same. intros a Ha. by rewrite Hn. }
  destruct (head q) as [h|] eqn:Hh.
  - destruct (fifo_head _ rest' h Hs' Hh) as (n & Hnn & ->). simpl in *. rewrite Hnn. simpl.
    assert (fifo_of s rest = Fifo (looked (fifo_of s rest)) (t n :: values q rest')) as ->; [|constructor].
    rewrite (contents_head q rest' h Hh), (values_cons _ _ _ n) in Hi by done.
    by rewrite <- Hi.
  - rewrite (fifo_no_head (System q (prepared s) (linking s)) rest' Hh). simpl. rewrite (contents_no_head q rest' Hh) in Hi.
    assert (head (queue s) = None) as Hhs.
    { destruct (head (queue s)) as [h|] eqn:Hhs; [|done]. revert Hp Hh. unfold peek, get_state, mbind, RT_bind.
      rewrite Hhs. unfold mret, RT_ret. congruence. }
    rewrite (fifo_no_head s rest Hhs) in *. simpl in Hi. rewrite Hi. constructor.
Qed.

Lemma refine_pop s rest : shape s rest -> exists q rest', pop (queue s) = (inl tt, q) /\
  shape (System q (prepared s) (linking s)) rest' /\
  fifo_step (fifo_of s rest) (Dequeue (value_of (queue s) (head (queue s))))
    (fifo_of (System q (prepared s) (linking s)) rest').
Proof.
  intros Hs. destruct (shape_pop s rest Hs) as (q & rest' & Hp & Hs' & Hc & Hn & _).
  exists q, rest'. split; [done|]. split; [done|].
  assert (fifo_of (System q (prepared s) (linking s)) rest' =
    Fifo (bool_decide (is_Some (head q))) (values (queue s) rest)) as ->.
  { unfold fifo_of. simpl. rewrite Hc. f_equal. apply values_same. intros a Ha. by rewrite Hn. }
  destruct (head (queue s)) as [h|] eqn:Hh.
  - destruct (fifo_head s rest h Hs Hh) as (n & Hnn & ->). simpl. rewrite Hnn. constructor.
  - rewrite (fifo_no_head s rest Hh). constructor.
Qed.

Lemma refine_build s rest x : shape s rest -> exists q rest', peek_or_build x (queue s) = (inl (head q), q) /\
  shape (System q (prepared s) (linking s)) rest' /\
  fifo_step (fifo_of s rest) (Insert x (value_of q (head q))) (fifo_of (System q (prepared s) (linking s)) rest').
Proof.
  intros Hs. destruct (shape_build s rest x Hs) as (q & rest' & Hp & Hs' & Hn & Hcase).
  exists q, rest'. split; [done|]. split; [done|].
  assert (values q (contents (queue s) rest) = items (fifo_of s rest)) as Hi.
  { apply values_same. intros a Ha. by rewrite Hn. }
  destruct Hcase as [(Hc & h & Hh)|(Hhs & a & Hh & Hc & Ha)].
  - destruct (fifo_head _ rest' h Hs' Hh) as (n & Hnn & ->). rewrite Hh. simpl in *. rewrite Hnn. simpl.
    rewrite <- Hc, (contents_head q rest' h Hh), (values_cons _ _ _ n) in Hi by done.
    assert (fifo_of s rest = Fifo (looked (fifo_of s rest)) (t n :: values q rest')) as ->; [|constructor].
    by rewrite Hi, <- (contents_head q rest' h Hh), Hc.
  - rewrite Hh. simpl. rewrite Ha. simpl.
    assert (fifo_of (System q (prepared s) (linking s)) rest' = Fifo true (x :: items (fifo_of s rest))) as ->.
    { unfold fifo_of at 1. simpl. rewrite Hc, Hh, (values_cons _ _ _ _ Ha), Hi. done. }
    rewrite (fifo_no_head s rest Hhs). constructor.
Qed.

(** Every step ends normally, keeps the shape, and is a step of the queue. *)
Lemma step_refines s rest e r s' : shape s rest -> runs s e r s' ->
  r = inl tt /\ exists rest', shape s' rest' /\
    fifo_step (fifo_of s rest) (observe (queue s) (queue s') e) (fifo_of s' rest').
Proof.
  intros Hs Hr. destruct Hr as [x s a q Hq|x s e q Hq|s m l1 l2 p q Hp Hq|s m l1 l2 e q Hp Hq|s p m l1 l2 r q Hl Hq
    |s r q Hq|s r e q Hq|s r q Hq|x s r q Hq|x s r e q Hq].
  - destruct (refine_prepare s rest x Hs) as (q' & Hq' & Hs' & Hf). rewrite Hq' in Hq. injection Hq as <- <-.
    split; [done|]. exists rest. split; [done|]. rewrite Hf. constructor.
  - by rewrite push_new_prepare_run in Hq.
  - destruct (refine_push s rest m l1 l2 Hs Hp) as (p' & q' & Hq' & Hs' & Hf). rewrite Hq' in Hq. injection Hq as <- <-.
    split; [done|]. by exists (rest ++ [m]).
  - destruct (refine_push s rest m l1 l2 Hs Hp) as (p' & q' & Hq' & _). by rewrite Hq' in Hq.
  - destruct (refine_link s rest p m l1 l2 Hs Hl) as (q' & Hq' & Hs' & Hf). rewrite Hq' in Hq. injection Hq as <- <-.
    split; [done|]. exists rest. split; [done|]. rewrite Hf. constructor.
  - destruct (refine_peek s rest Hs) as (q' & rest' & Hq' & Hs' & Hf). rewrite Hq' in Hq. injection Hq as <- <-.
    split; [done|]. by exists rest'.
  - destruct (refine_peek s rest Hs) as (q' & rest' & Hq' & _). by rewrite Hq' in Hq.
  - destruct (refine_pop s rest Hs) as (q' & rest' & Hq' & Hs' & Hf). rewrite Hq' in Hq. injection Hq as <- <-.
    split; [done|]. by exists rest'.
  - destruct (refine_build s rest x Hs) as (q' & rest' & Hq' & Hs' & Hf). rewrite Hq' in Hq. injection Hq as <- <-.
    split; [done|]. by exists rest'.
  - destruct (refine_build s rest x Hs) as (q' & rest' & Hq' & _). by rewrite Hq' in Hq.
Qed.

(** ** Executions *)

(** What the steps of an execution are to the queue *)
Inductive observed s : list (action T) -> queue_system T -> Prop :=
| observed_nil : observed s [] s
| observed_snoc acts s1 e s2 : observed s acts s1 -> runs s1 e (inl tt) s2 ->
    observed s (acts ++ [observe (queue s1) (queue s2) e]) s2.

Lemma shape_start (x : T) : shape (queue_start x) [].
Proof.
  constructor; simpl; try done.
  - apply NoDup_singleton.
  - intros a. change (live (queue_start x) []) with [0]. rewrite lookup_singleton_is_Some, list_elem_of_singleton.
    by split; intros ->.
  - intros a Ha. change (a ∈ [0]) in Ha. apply list_elem_of_singleton in Ha as ->. lia.
  - by intros a b n ([|i] & Ha & Hb).
  - intros a n _ Hn. by apply lookup_singleton_Some in Hn as [_ <-].
  - by intros a b Hab%not_elem_of_nil.
  - constructor.
  - intros a n ->%list_elem_of_singleton Hn. by apply lookup_singleton_Some in Hn as [_ <-].
  - by intros a n Ha%not_elem_of_nil.
  - by intros a n Ha%not_elem_of_nil.
  - by intros h [= ->].
Qed.

Lemma observed_shape (x : T) acts s : observed (queue_start x) acts s ->
  exists rest, shape s rest /\ fifo_run (Fifo true [x]) acts (fifo_of s rest).
Proof.
  induction 1 as [|acts s1 e s2 _ (rest & Hs & Hf) Hr].
  - exists []. split; [apply shape_start|]. constructor.
  - destruct (step_refines s1 rest e (inl tt) s2 Hs Hr) as (_ & rest' & Hs' & Hstep).
    exists rest'. split; [done|]. by eapply fifo_run_snoc.
Qed.

(** C28: However the steps of producers and the consumer interleave, the queue is a queue:
    what they see is a run of [fifo], from the seed on, to which a push adds its value
    with its exchange.  Without [peek_or_build] the values come out in the order they
    were pushed in, none is lost and none comes out twice.  No call touches a node that
    was deleted or fails an assertion; and the consumer sees nothing only when the
    queue is empty or the link of its first node is still missing. *)
Theorem queue_refines (x : T) acts s : observed (queue_start x) acts s ->
  exists f, fifo_run (Fifo true [x]) acts f /\
    (Forall (fun a => ~ inserts a) acts -> (acts ≫= dequeued) ++ items f = x :: (acts ≫= enqueued)) /\
    (forall e r s', runs s e r s' -> r = inl tt) /\
    (forall q, peek (queue s) = (inl None, q) -> items f <> [] ->
      exists m, (sentinel (queue s), m) ∈ linking s /\ value_of (queue s) (Some m) = hd_error (items f)).
Proof.
  intros Ho. destruct (observed_shape x acts s Ho) as (rest & Hs & Hf). exists (fifo_of s rest).
  split; [done|]. split; [by apply (fifo_order (Fifo true [x]))|].
  split; [intros e r s' Hr; by destruct (step_refines s rest e r s' Hs Hr)|].
  intros q Hp Hi. destruct (shape_peek s rest Hs) as (q' & rest' & Hp' & Hs' & Hc & Hn & He).
  rewrite Hp' in Hp. injection Hp as Hh <-. destruct (He Hh) as [Hr [->|(b & l & -> & Hl)]].
  - destruct Hi. unfold fifo_of. by rewrite <- Hc, Hr.
  - exists b. split; [done|]. unfold fifo_of, value_of. rewrite <- Hc, Hr. simpl.
    destruct (contents_node s rest b Hs) as [n Hb]; [rewrite <- Hc, Hr; by left|].
    rewrite (values_cons _ _ _ n Hb). by rewrite Hb.
Qed.

(** C30: The node [blocking_pop] returns a reference to has been deleted when it returns,
    unless nothing follows it: with the nodes of [GeneralQueue] the consumer reads freed
    memory as soon as a producer is ahead of it, or when the node is the one
    [peek_or_build] has put in front. *)
Theorem blocking_pop_dangles (x : T) acts s h n : observed (queue_start x) acts s -> head (queue s) = Some h ->
  exists q, blocking_pop n (queue s) = (inl (Some h), q) /\
    (nodes q !! h = None <-> is_extra (queue s) = true \/
      exists k b, nodes (queue s) !! sentinel (queue s) = Some k /\ next k = Some b).
Proof.
  intros Ho Hh. destruct (observed_shape x acts s Ho) as (rest & Hs & _).
  destruct (pop_run s rest Hs) as (k & Hk & Hpop). exists (popped (queue s) (next k)). split.
  - assert (peek_until n (queue s) = (inl (Some h), queue s)) as Hu.
    { destruct n; cbn [peek_until]; unfold peek, get_state, mbind, RT_bind; rewrite Hh;
        unfold mret, RT_ret; by rewrite Hh. }
    unfold blocking_pop, mbind, RT_bind. rewrite Hu. by rewrite Hpop.
  - destruct (is_extra (queue s)) eqn:He.
    + split; [by left|intros _]. assert (without_extra (queue s) !! h = None) as Hw
        by (unfold without_extra; rewrite Hh, He; apply lookup_delete_eq).
      destruct (next k); [|done]. simpl. rewrite lookup_delete_None. by right.
    + pose proof (sh_sentinel _ _ Hs h Hh He) as ->.
      assert (without_extra (queue s) = nodes (queue s)) as Hw by (unfold without_extra; by rewrite Hh, He).
      destruct (next k) as [b|] eqn:Hnx; simpl; rewrite Hw.
      * rewrite lookup_delete_eq. split; [|done]. intros _. right. by exists k, b.
      * rewrite Hk. split; [done|]. intros [?|(k' & b & [= <-] & ?)]; congruence.
Qed.

(** ** The destructor *)

Lemma pop_tail s rest : shape s rest -> tail (pop (queue s)).2 = tail (queue s).
Proof. intros Hs. destruct (pop_run s rest Hs) as (k & _ & ->). simpl. by destruct (next k). Qed.

Lemma peek_tail s rest : shape s rest -> tail (peek (queue s)).2 = tail (queue s).
Proof.
  intros Hs. unfold peek, get_state, mbind, RT_bind. destruct (head (queue s)); [done|].
  pose proof (pop_tail s rest Hs) as Ht. destruct (pop_run s rest Hs) as (k & _ & Hp). rewrite Hp in *. done.
Qed.

Lemma drain_run n s rest : shape s rest -> linking s = [] -> length (contents (queue s) rest) <= n ->
  exists q, drain n (queue s) = (inl true, q) /\ shape (System q (prepared s) (linking s)) [] /\
    head q = None /\ tail q = tail (queue s).
Proof.
  revert s rest. induction n as [|n IH]; intros s rest Hs Hl Hn;
    destruct (shape_peek s rest Hs) as (q & rest' & Hp & Hs' & Hc & _ & He);
    pose proof (peek_tail s rest Hs) as Ht; rewrite Hp in Ht; cbn [drain]; unfold mbind, RT_bind; rewrite Hp;
    (destruct (head q) as [h|] eqn:Hh; [|destruct (He eq_refl) as [_ [->|(b & l & _ & Hb)]];
      [by exists q|rewrite Hl in Hb; by apply not_elem_of_nil in Hb]]).
  - rewrite <- Hc, (contents_head q rest' h Hh) in Hn. simpl in Hn. lia.
  - set (s' := System q (prepared s) (linking s)) in *.
    destruct (shape_pop s' rest' Hs') as (q2 & rest2 & Hp2 & Hs2 & Hc2 & _).
    pose proof (pop_tail s' rest' Hs') as Ht2. simpl in Hp2, Ht2. rewrite Hp2 in *.
    destruct (IH (System q2 (prepared s) (linking s)) rest2 Hs2 Hl) as (q3 & Hd & Hs3 & Hh3 & Ht3).
    { simpl. rewrite Hc2. rewrite <- Hc, (contents_head q rest' h Hh) in Hn. simpl in Hn. lia. }
    exists q3. simpl in *. split; [done|]. split; [done|]. split; [done|]. congruence.
Qed.

Lemma contents_bound s rest : shape s rest -> length (contents (queue s) rest) <= total_nodes (queue s).
Proof.
  intros Hs. rewrite <- (length_seq (total_nodes (queue s)) 0). apply submseteq_length, NoDup_submseteq.
  - pose proof (sh_nodup _ _ Hs) as Hnd. unfold contents. destruct (head (queue s)) as [h|] eqn:Hh.
    + destruct (is_extra (queue s)) eqn:He.
      * unfold live, order, extras in Hnd. rewrite He, Hh in Hnd. simpl in Hnd.
        apply NoDup_cons in Hnd as [_ Hnd]. rewrite app_assoc in Hnd. apply NoDup_app in Hnd as (Hnd & Hd & _).
        apply NoDup_app in Hnd as (Hnd & _). constructor; [|done]. intros Hin. apply (Hd h); set_solver.
      * rewrite (sh_sentinel _ _ Hs h Hh He). unfold live, order in Hnd. by apply NoDup_app in Hnd as (? & _).
    + unfold live, order in Hnd. apply NoDup_app in Hnd as (Hnd & _). by apply NoDup_cons in Hnd as [_ ?].
  - intros a Ha. rewrite elem_of_seq. pose proof (sh_fresh _ _ Hs a (contents_live s rest a Hs Ha)). lia.
Qed.

(** C29: When no push is under way, the loop of the destructor ends, after no more rounds
    than there ever were nodes, and the destructor deletes every node of the queue.  The
    queue that was never pushed to is the exception: its seed was never marked as in
    use, and the assertion that the last node was not released fails. *)
Theorem queue_destroyed (x : T) acts s n : observed (queue_start x) acts s -> prepared s = [] -> linking s = [] ->
  total_nodes (queue s) <= n ->
  exists q, destroy n (queue s) =
    (if decide (fst <$> tail (queue s) = Some 0) then inr AssertFailed else inl true, q) /\
    (fst <$> tail (queue s) <> Some 0 -> nodes q = ∅).
Proof.
  intros Ho Hpr Hl Hn. destruct (observed_shape x acts s Ho) as (rest & Hs & _).
  destruct (drain_run n s rest Hs Hl) as (q & Hd & Hs' & Hh & Ht).
  { pose proof (contents_bound s rest Hs). lia. }
  pose proof (sh_tail _ _ Hs') as Htl. simpl in Htl. rewrite Ht in Htl.
  pose proof (sh_head _ _ Hs' Hh) as He. simpl in He.
  assert (forall a, is_Some (nodes q !! a) <-> a = sentinel q) as Hlive.
  { intros a. rewrite (sh_live _ _ Hs' a). unfold live, order, extras. simpl. rewrite He, Hpr. simpl.
    by rewrite list_elem_of_singleton. }
  destruct (proj2 (Hlive _) eq_refl) as [k Hk].
  assert (released k = bool_decide (sentinel q = 0)) as Hr by (apply (sh_seed _ _ Hs' (sentinel q)); [left|done]).
  unfold destroy, mbind, RT_bind. rewrite Hd. simpl. rewrite Hh. simpl.
  rewrite (read_run (sentinel q) k) by done. rewrite Hr, Htl.
  destruct (decide (Some (sentinel q) = Some 0)) as [[= Hz]|Hz].
  - rewrite Hz. simpl. by eexists.
  - rewrite bool_decide_false by congruence. simpl. rewrite (write_run _ _ k) by done.
    rewrite (release_run _ (with_released true k)); [|apply lookup_insert_eq|done].
    unfold assign_head, destroy_head, get_state, mbind, RT_bind. simpl. rewrite He. simpl.
    eexists. split; [done|]. intros _. simpl. rewrite delete_insert_eq. apply map_eq. intros a.
    rewrite lookup_empty, lookup_delete_None. destruct (decide (sentinel q = a)); [by left|right].
    apply eq_None_not_Some. rewrite Hlive. congruence.
Qed.
End refinement.

(** ** Witnesses *)

(** Executions in which the newest push is the next to go on *)
Definition take_step {T} (s : queue_system T) (e : event T) : option (queue_system T) :=
  match e with
  | Prepare x =>
      match push_new_prepare x (queue s) with
      | (inl a, q) => Some (System q (a :: prepared s) (linking s))
      | _ => None
      end
  | Push m =>
      match prepared s, push_exchange m (queue s) with
      | m' :: l, (inl p, q) => if decide (m' = m) then Some (System q l ((p, m) :: linking s)) else None
      | _, _ => None
      end
  | Link p m =>
      match linking s, push_link p m (queue s) with
      | pm :: l, (inl _, q) => if decide (pm = (p, m)) then Some (System q (prepared s) l) else None
      | _, _ => None
      end
  | Peek r =>
      match peek (queue s) with
      | (inl r', q) => if decide (r' = r) then Some (System q (prepared s) (linking s)) else None
      | _ => None
      end
  | Pop => match pop (queue s) with (inl _, q) => Some (System q (prepared s) (linking s)) | _ => None end
  | Build x r =>
      match peek_or_build x (queue s) with
      | (inl r', q) => if decide (r' = r) then Some (System q (prepared s) (linking s)) else None
      | _ => None
      end
  end.

Lemma take_step_runs {T} (s : queue_system T) e s' : take_step s e = Some s' -> runs s e (inl tt) s'.
Proof.
  destruct e as [x|m|p m|r| |x r]; cbn [take_step].
  - destruct (push_new_prepare x (queue s)) as [[a|?] q] eqn:Hq; [|done]. intros [= <-]. by constructor.
  - destruct (prepared s) as [|m' l] eqn:Hp; [done|].
    destruct (push_exchange m (queue s)) as [[p|?] q] eqn:Hq; [|done]. case_decide; [|done]. subst m'.
    intros [= <-]. by apply (run_push s m [] l).
  - destruct (linking s) as [|pm l] eqn:Hl; [done|].
    destruct (push_link p m (queue s)) as [[[]|?] q] eqn:Hq; [|done]. case_decide; [|done]. subst pm.
    intros [= <-]. by apply (run_link s p m [] l).
  - destruct (peek (queue s)) as [[r'|?] q] eqn:Hq; [|done]. case_decide; [|done]. subst r'.
    intros [= <-]. by constructor.
  - destruct (pop (queue s)) as [[[]|?] q] eqn:Hq; [|done]. intros [= <-]. by constructor.
  - destruct (peek_or_build x (queue s)) as [[r'|?] q] eqn:Hq; [|done]. case_decide; [|done]. subst r'.
    intros [= <-]. by constructor.
Qed.

Fixpoint play {T} (es : list (event T)) (acts : list (action T)) (s : queue_system T)
    : option (list (action T) * queue_system T) :=
  match es with
  | [] => Some (acts, s)
  | e :: es => s' ← take_step s e; play es (acts ++ [observe (queue s) (queue s') e]) s'
  end.

Lemma play_observed {T} (s0 : queue_system T) es acts s acts' s' : observed s0 acts s ->
  play es acts s = Some (acts', s') -> observed s0 acts' s'.
Proof.
  revert acts s. induction es as [|e es IH]; intros acts s Ho; cbn [play]; [by intros [= <- <-]|].
  destruct (take_step s e) as [s1|] eqn:Hs; [|done]. simpl. apply IH.
  eapply observed_snoc; [done|]. by apply take_step_runs.
Qed.

Definition played (es : list (event nat)) : list (action nat) * queue_system nat :=
  default ([], queue_start 0) (play es [] (queue_start 10)).

Lemma played_observed es : is_Some (play es [] (queue_start 10)) -> observed (queue_start 10) (played es).1 (played es).2.
Proof.
  intros [[acts s] Hp]. unfold played. rewrite Hp. eapply play_observed; [|exact Hp]. constructor.
Qed.

(** Two pushes, the later of which links first; then the consumer takes the seed and sees
    nothing, until the other push links. *)
Definition crossing : list (event nat) :=
  [Prepare 20; Push 1; Prepare 30; Push 2; Link 1 2; Peek (Some 0); Pop; Peek None].
Definition crossed : list (event nat) := crossing ++ [Link 0 1; Peek (Some 1); Pop; Pop].

Lemma queue_refines_witness : exists f,
  fifo_run (Fifo true [10]) (played crossing).1 f /\ items f = [20; 30] /\
  peek (queue (played crossing).2) = (inl None, queue (played crossing).2) /\
  exists m, (0, m) ∈ linking (played crossing).2 /\ value_of (queue (played crossing).2) (Some m) = Some 20.
Proof.
  destruct (queue_refines 10 (played crossing).1 (played crossing).2) as (f & Hf & Hi & _ & Hp).
  - apply played_observed. vm_compute. by eexists.
  - assert (items f = [20; 30]) as Hitems.
    { specialize (Hi ltac:(vm_compute; repeat constructor; auto)). vm_compute in Hi.
      injection Hi. auto. }
    exists f. split; [exact Hf|]. split; [exact Hitems|].
    assert (peek (queue (played crossing).2) = (inl None, queue (played crossing).2)) as Hn by (vm_compute; reflexivity).
    split; [exact Hn|]. destruct (Hp _ Hn) as (m & Hm & Hv); [rewrite Hitems; discriminate|].
    exists m. split; [exact Hm|]. rewrite Hv, Hitems. reflexivity.
Defined.

Lemma blocking_pop_dangles_witness : exists q,
  blocking_pop 0 (queue (played [Prepare 20; Push 1; Link 0 1]).2) = (inl (Some 0), q) /\ nodes q !! 0 = None.
Proof.
  destruct (blocking_pop_dangles 10 (played [Prepare 20; Push 1; Link 0 1]).1
    (played [Prepare 20; Push 1; Link 0 1]).2 0 0) as (q & Hq & Hd).
  - apply played_observed. vm_compute. by eexists.
  - vm_compute. reflexivity.
  - exists q. split; [exact Hq|]. apply Hd. right. eexists _, 1. split; vm_compute; reflexivity.
Defined.

Lemma queue_destroyed_witness : exists q,
  destroy 3 (queue (played crossed).2) = (inl true, q) /\ nodes q = ∅.
Proof.
  destruct (queue_destroyed 10 (played crossed).1 (played crossed).2 3) as (q & Hq & Hn).
  - apply played_observed. vm_compute. by eexists.
  - vm_compute. reflexivity.
  - vm_compute. reflexivity.
  - vm_compute. repeat constructor.
  - exists q. rewrite decide_False in Hq by (vm_compute; discriminate). split; [exact Hq|].
    apply Hn. vm_compute. discriminate.
Defined.
